(* ===== verification/_CoqProject ===== *)
-Q . S2P
Prelude.v
Wire.v
Tunnel.v
Envelope.v
Trust.v
AgentTrust.v
Grant.v
Lease.v
Policy.v
Ring.v
AuditLog.v
DenyCache.v
Overlay.v
Proc.v
Codec.v
Login.v
Members.v
Store.v
Sessions.v
Nodes.v
Enrolling.v
Broker.v
Control.v
Sweep.v
Brokering.v
Fanout.v
Update.v
Bootstrap.v
Updating.v
Committing.v
Swapping.v
Supervisor.v
Screen.v
Recorder.v
HostSession.v
Streams.v
Host.v
Hosting.v
Inputs.v
Rollout.v
Rolling.v
Ticking.v
Relay.v
Holding.v
Splicing.v
Relaying.v
Stopping.v
Packages.v
Affected.v
Verdicts.v
Inventory.v
Stock.v
Matching.v
