(* ===== verification/Prelude.v ===== *)
(** * Geneza: a verification development

    Geneza is a zero-trust remote-access system.  A controller authenticates people and
    machines, decides from a policy who may reach which node, and brokers each session
    as a signed grant; an agent on the node verifies the grant, opens an encrypted
    tunnel to the client and enforces what the controller signs afterwards; the two
    ends meet on relays that are not trusted.  A small bootstrap on the node installs the
    releases the fleet's keys signed, supervises the worker, and rolls a bad release
    back; the controller releases a version to the fleet in waves.  Shells outlive their
    clients in a session host.  The sources are the Go packages under src/internal (file
    names below are relative to it) and src/cmd/geneza-bootstrap.

    ** Files

    - Prelude: Go results, bytes, machine integers, hexadecimal, strings; the tactics
      and hints the other files share.
    - Wire (wire/frame.go): length-prefixed frames.
    - Tunnel (tunnel/noise.go): the Noise IK handshake and the encrypted stream.
    - Envelope (types/signed.go, multisigned.go): signatures with a context, quorums.
    - Trust (types/trustanchors.go, cluster.go, rootkeys.go, manifest.go): the fleet's signed
      documents and the chain of a release.
    - AgentTrust (agentd/worker.go, state.go): adoption, persistence and reload of the
      fleet's trust on an agent, with every write able to fail.
    - Grant (types/grant.go, service.go, sessionpolicy.go, agentd/offer.go): grants, the gate an agent
      puts an offer through, the binding of a tunnel to its grant.
    - Lease (agentd/lease.go): leases, downgrades and revocations of live sessions.
    - Policy (policy/policy.go): the policy engine.
    - Ring (sessionhost/ring.go): the scrollback ring, over a heap of shared chunks.
    - AuditLog (controller/audit.go): the hash-chained log, its crashes and repair.
    - DenyCache (controller/denycache.go, authzstate.go, auth.go): the cached denials,
      interleaved lookups, and the authorization of every RPC.
    - Overlay (controller/overlay.go, pagination.go): address pools and page bounds.
    - Proc: handlers as programs of atomic actions, their interleavings, rollback.
    - Codec: a byte codec with the laws of JSON, for the witnesses.
    - Login (controller/session.go, device.go, handoff.go): browser sessions, tickets,
      device grants and single-use codes, each operation one transaction.
    - Members (controller/membership.go, presence.go, identity.go): member rows, roles,
      certificate lifetimes and presence factors.
    - Store (controller/store.go, authzstate.go, registry.go, affinity.go,
      sessionsignal.go, sessioncontrol.go): the record [server] of everything the
      controller's handlers share, and the transactions and pushes on it.
    - Sessions (controller/continuousauthz.go, sessionenforce.go, nodecontrol.go): the
      sweep, revocation, fan-outs and the events of a node.
    - Nodes (controller/continuousauthz.go, nodecontrol.go, adminapi.go, dns.go):
      admission, quarantine, binary drift and the control stream.
    - Broker (controller/broker.go, userapi.go): CreateSession and ReissueGrant.
    - Enrolling (controller/enroll.go, console_pair.go): the enrollment of a node and the
      pairing of a cloud instance, behind the proofs of identity that admit them.
    - Control: every handler above as one request type, and the theorems on all their
      interleavings.  Sweep, Brokering, Fanout: what one handler does, run alone.
    - Update (update/state.go, install.go, health.go, prune.go, httpclient.go), Bootstrap
      (cmd/geneza-bootstrap/main.go): the installer and the bootstrap as programs over a
      disk, crashed between any two actions.  Updating, Committing, Swapping: what is
      run, what survives, what is undone.
    - Supervisor (update/supervisor.go): the restart loop of a child, the calls that start
      and stop it and the child itself, interleaved.
    - Screen (sessionhost/screen.go): the repaint of a terminal, and what a client's
      terminal documents of the sequences in it.  Recorder (sessionhost/recorder.go):
      recordings, with writes that fail and text as JSON stores it.
    - HostSession (sessionhost/session.go, attach.go), Host (sessionhost/sessionhost.go,
      drain.go): one session with its clients' streams, and the table of sessions with
      the calls, the reaper and the drain, as interleaved steps.  Streams, Hosting,
      Inputs: what every interleaving keeps.
    - Rollout (controller/rollout.go, adminapi.go, httpapi.go): staged rollouts as programs
      of store transactions.  Rolling, Ticking: what crashes keep, what ticks in a row do.
    - Relay (relay/relay.go, funnelproxy.go, funnel.go): the goroutines, timers and
      shutdown of a relay, with what every connection sent and received.  Holding: who
      holds a connection.  Splicing, Relaying, Stopping: what is copied where, how often a
      token is matched, how a shutdown ends.
    - Packages (purl/purl.go, affected/ecosystem.go, sbom/sbom.go): the names of packages,
      the ecosystems of advisories, bills of materials and their differences.
    - Affected (affected/engine/engine.go): the verdict of an advisory on a package.
      Verdicts: the reference it is compared with, the windows of versions.
    - Inventory (controller/inventory.go, image_dedup.go, affected_match.go,
      console_sbom.go, agentd/module_inventory.go): reports of a node's packages, their
      tables and the verdicts on them, as programs.  Stock: what a report and an upload
      leave in the tables.  Matching: which verdicts a node has afterwards.

    ** Correspondence

    A Go function is a definition of the same name; a method takes its receiver as an
    argument and returns the new one.  A call that returns an error is a [result] or an
    option.  A struct is a record with the source's fields, a map a [gmap], a bbolt
    bucket a [gmap] under the bucket's key.  Instants are nanoseconds in [Z]; widths
    that can overflow are wrapped.  Aliasing is modelled where the code depends on it:
    ring chunks, and the stream handles two connections of one node share.

    A controller handler is a [prog]: a tree of atomic actions, one per transaction,
    mutex section or push.  [faults] scripts which of them fail; a transaction whose
    closure fails, or whose commit fails, keeps nothing in the store and everything in
    memory.  Other handlers run between any two actions.

    ** What the theorems show

    - Documents and keys: an agent's versions never go back; a pinned root changes only
      by a quorum of the one before; a restart restores exactly what was held.
    - Grants and tunnels: an offer is accepted exactly when its grant is signed, fresh,
      for this node and well-formed; a tunnel is bound to the keys of its grant; the
      responder says nothing before it has authorized the peer; the stream delivers
      exactly the bytes written.
    - The broker: a created session passed every gate and its grant is one the agent
      accepts; every decision is audited or not answered; an aborted session holds no
      address; re-homing widens nothing.
    - Continuous authorization: one sweep does to every row exactly what the current
      policy says, and after the delivery of its messages every agent has cut,
      downgraded or leased its sessions accordingly; an owed revocation is pushed until
      it is acknowledged; a session that ended stays ended; a quarantined node stays
      shut out; suspension, quarantine and drift cut every live session.
    - Enforcement on the agent: capabilities only shrink, replays have no effect, and a
      session without a lease is cut.
    - Logins: every code, ticket and grant is spent once, a certificate carries what
      its approver bound, one first admin per workspace, a hardware credential shuts
      the software factor out.
    - Records: the audit log survives any sequence of crashes, detects truncation and
      holds what was acknowledged; the deny cache never serves an allow past an
      invalidation; the ring replays exactly the missing suffix.
    - Updates: only code a quorum of the fleet's keys signed is ever run; a version never
      goes back but to the one before it; a crash at any point leaves a node that can
      start; a release that does not become healthy is undone; every wait ends.  Stopping
      a child completes, and nothing starts it again.
    - Rollouts: a node is told a target only in its wave; a version is promoted after the
      whole fleet was healthy on it for the soak; a rollout that is ticked ends.
    - The relay: two connections are spliced only under one token and opposite roles, and
      each gets exactly what the other sent; a token is matched once in its validity; a
      forced shutdown ends within a bound on the steps left.
    - Inventory: a verdict is the one the windows of the advisory give; a report in full
      replaces exactly the rows of its node; a matched node has a verdict for exactly the
      advisories found for its packages.
    - Sessions on a node: every stream is an exact piece of the session's output, with
      repaints where it skips; each input is written once and in order, none once the
      session is read-only; the caps on sessions hold; a recording has everything or says
      that it has not, but for bytes that are not UTF-8; a repaint shows the screen it was
      taken of.

    Theorems that show a defect are stated as such, and are listed in the manifest.

    ** Parameters and bounds

    Code outside the repository is a class or a section variable: Ed25519 and SHA-256
    (correct, collision-free where a theorem says so), JSON ([Unmarshal], [Marshal];
    [JSONLaw] says decoding inverts encoding for values whose text is UTF-8), Noise
    ([NoisePeer]: a first message is read as its writer meant it), the terminal library
    and the client's terminal ([ClientTermLaw]), the comparison of versions of an
    ecosystem ([Semantic]), CycloneDX documents and their compression, the system's
    randomness, clocks and time zones, the text of an error.  Each witness instantiates them with concrete
    functions.  Loops run by structural recursion, or with a fuel that is the length of
    what they consume; the lemma that the fuel suffices stands beside each.

    ** Not modelled

    The data planes (vpn, sessionconn, TURN: packets, ICE, WireGuard), pseudo-terminals
    and processes of the operating system, the SQL store and the router over Postgres (second
    implementations of interfaces modelled here in their embedded form), the HTTP and
    command-line surfaces, configuration files, the collection of packages on a node, the
    synchronisation of advisory feeds and the queues between a report and its match, the
    agent's side of enrollment, certificates from public authorities, and the web
    applications.  The manifest lists each with its reason. *)
From Stdlib Require Import ZArith Lia Strings.Byte Strings.Ascii.
From stdpp Require Import base gmap sets list strings numbers sorting relations.

(** ** Results: Go's [(T, error)] pairs *)

(** A Go call that returns a value or an error. *)
Inductive result (E A : Type) : Type :=
| Ok (a : A)
| Err (e : E).
Arguments Ok {E A} a.
Arguments Err {E A} e.

Definition rbind {E A B : Type} (r : result E A) (f : A → result E B) : result E B :=
  match r with Ok a => f a | Err e => Err e end.

Definition map_err {E F A : Type} (g : E → F) (r : result E A) : result F A :=
  match r with Ok a => Ok a | Err e => Err (g e) end.

Definition is_ok {E A : Type} (r : result E A) : bool :=
  match r with Ok _ => true | Err _ => false end.

Definition of_option {E A : Type} (e : E) (o : option A) : result E A :=
  match o with Some a => Ok a | None => Err e end.

Declare Scope go_scope.
Delimit Scope go_scope with go.
Open Scope go_scope.

(** [x, err := c1; if err != nil { return err }; c2]. *)
Notation "'let?' x ':=' c1 'in' c2" := (rbind c1 (fun x => c2))
  (at level 10, x pattern, c1 at level 200, c2 at level 200,
   format "'[v' 'let?'  x  ':='  c1  'in' '/' c2 ']'") : go_scope.

(** ** Bytes, integers and instants *)

Abbreviation byte := Byte.byte.
Abbreviation bytes := (list Byte.byte).

(** Go's [byte(z)]: truncation of an integer to eight bits. *)
Definition byte_of_Z (z : Z) : byte :=
  match Byte.of_N (Z.to_N (z mod 256)) with Some b => b | None => x00 end.

Definition Z_of_byte (b : byte) : Z := Z.of_N (Byte.to_N b).

(** Go's wrap-around on [int64] and [uint64] arithmetic. *)
Definition wrap_u64 (z : Z) : Z := z mod 2 ^ 64.
Definition wrap_i64 (z : Z) : Z := (z + 2 ^ 63) mod 2 ^ 64 - 2 ^ 63.
Definition wrap_u32 (z : Z) : Z := z mod 2 ^ 32.

(** Durations and instants are nanoseconds; [time.Time{}] is year 1. *)
Definition second : Z := 1000000000.
Definition minute : Z := 60 * second.
Definition hour : Z := 60 * minute.
Definition time_zero : Z := -62135596800 * second.
Definition IsZero (t : Z) : bool := bool_decide (t = time_zero).
Definition Before (t u : Z) : bool := (t <? u)%Z.
Definition After (t u : Z) : bool := (u <? t)%Z.
(** [t.Unix()]: whole seconds since the epoch, rounded down. *)
Definition Unix (t : Z) : Z := (t / second)%Z.

(** ** Strings: the functions of package [strings] the sources use *)

(** [[]byte(s)]. *)
Definition bytes_of_string (s : string) : bytes := String.list_byte_of_string s.

(** [strings.CutPrefix]. *)
Fixpoint cut_prefix (s p : string) {struct p} : option string :=
  match p, s with
  | EmptyString, _ => Some s
  | String a p', String b s' => if Ascii.eqb a b then cut_prefix s' p' else None
  | String _ _, EmptyString => None
  end.

(** [strings.TrimPrefix]. *)
Definition trim_prefix (s p : string) : string :=
  match cut_prefix s p with Some r => r | None => s end.

(** [strings.HasPrefix]. *)
Definition has_prefix (s p : string) : bool :=
  match cut_prefix s p with Some _ => true | None => false end.

(** Whether a byte occurs in a string. *)
Fixpoint has_char (c : ascii) (s : string) : bool :=
  match s with
  | EmptyString => false
  | String a s' => Ascii.eqb a c || has_char c s'
  end.

(** Go's [slices.Contains] over strings, spelled [contains] in the sources. *)
Definition contains (xs : list string) (x : string) : bool :=
  existsb (fun v => bool_decide (v = x)) xs.

(** ASCII white space. *)
Definition is_space (c : ascii) : bool :=
  let n := nat_of_ascii c in ((9 <=? n) && (n <=? 13) || (n =? 32))%nat.

Fixpoint trim_left (s : string) : string :=
  match s with
  | String c r => if is_space c then trim_left r else s
  | EmptyString => s
  end.

Fixpoint trim_right (s : string) : string :=
  match s with
  | EmptyString => EmptyString
  | String c r =>
      match trim_right r with
      | EmptyString => if is_space c then EmptyString else String c EmptyString
      | r' => String c r'
      end
  end.

(** [strings.TrimSpace] (the ASCII spaces). *)
Definition TrimSpace (s : string) : string := trim_right (trim_left s).

(** [strings.ToLower] and [strings.ToUpper] (the ASCII letters). *)
Definition lower (c : ascii) : ascii :=
  let n := nat_of_ascii c in
  if ((65 <=? n) && (n <=? 90))%nat then ascii_of_nat (n + 32) else c.

Fixpoint lower_string (s : string) : string :=
  match s with EmptyString => EmptyString | String c r => String (lower c) (lower_string r) end.

(** [strings.EqualFold] on ASCII strings. *)
Definition EqualFold (s t : string) : bool := bool_decide (lower_string s = lower_string t).

Definition upper (c : ascii) : ascii :=
  let n := nat_of_ascii c in
  if ((97 <=? n) && (n <=? 122))%nat then ascii_of_nat (n - 32) else c.

Fixpoint upper_string (s : string) : string :=
  match s with EmptyString => EmptyString | String c r => String (upper c) (upper_string r) end.

(** ** Packages [strconv] and [net] *)

(** [strings.Cut] on one character, and on its last occurrence. *)
Fixpoint split_first (c : ascii) (s : string) : option (string * string) :=
  match s with
  | EmptyString => None
  | String a r =>
      if Ascii.eqb a c then Some (""%string, r)
      else match split_first c r with Some (x, y) => Some (String a x, y) | None => None end
  end.

Fixpoint split_last (c : ascii) (s : string) : option (string * string) :=
  match s with
  | EmptyString => None
  | String a r =>
      match split_last c r with
      | Some (x, y) => Some (String a x, y)
      | None => if Ascii.eqb a c then Some (""%string, r) else None
      end
  end.

(** [net.SplitHostPort]: the port follows the last colon; a host with a colon is in
    brackets. *)
Definition SplitHostPort (hostport : string) : option (string * string) :=
  match split_last ":"%char hostport with
  | None => None
  | Some (before, port) =>
      match hostport with
      | String "["%char rest =>
          match split_first "]"%char hostport with
          | None => None
          | Some (a, b) =>
              if bool_decide (b = String ":"%char port)
                 && negb (has_char "["%char rest) && negb (has_char "]"%char b)
              then Some (match a with String _ host => host | EmptyString => a end, port) else None
          end
      | _ =>
          if has_char ":"%char before || has_char "["%char hostport || has_char "]"%char hostport
          then None else Some (before, port)
      end
  end.

Definition digit (c : ascii) : option Z :=
  let n := Z.of_N (N_of_ascii c) in if (48 <=? n)%Z && (n <=? 57)%Z then Some (n - 48)%Z else None.

Fixpoint digits (acc : Z) (s : string) : option Z :=
  match s with
  | EmptyString => Some acc
  | String c r => match digit c with Some d => digits (10 * acc + d)%Z r | None => None end
  end.

(** The second string where the first is empty. *)
Definition first_of (a b : string) : string := if bool_decide (a = ""%string) then b else a.

(** [strconv.Atoi]: an optional sign and decimal digits, within [int]. *)
Definition Atoi (s : string) : option Z :=
  let '(neg, body) :=
    match s with
    | String "-"%char r => (true, r)
    | String "+"%char r => (false, r)
    | _ => (false, s)
    end in
  if bool_decide (body = ""%string) then None
  else match digits 0%Z body with
       | None => None
       | Some n => let n := if (neg : bool) then (- n)%Z else n in
                   if (wrap_i64 n =? n)%Z then Some n else None
       end.

(** ** Package [encoding/hex] *)

Definition hex_digit (n : Z) : ascii :=
  if (n <? 10)%Z then ascii_of_N (Z.to_N (48 + n)%Z) else ascii_of_N (Z.to_N (87 + n)%Z).

(** [hex.EncodeToString]. *)
Fixpoint hex_encode (b : bytes) : string :=
  match b with
  | [] => EmptyString
  | x :: r => String (hex_digit (Z_of_byte x / 16)%Z) (String (hex_digit (Z_of_byte x mod 16)%Z) (hex_encode r))
  end.

(** One character of [hex.Decode]; upper case is accepted. *)
Definition hex_nibble (c : ascii) : option Z :=
  let n := Z.of_N (N_of_ascii c) in
  if (48 <=? n)%Z && (n <=? 57)%Z then Some (n - 48)%Z
  else if (97 <=? n)%Z && (n <=? 102)%Z then Some (n - 87)%Z
  else if (65 <=? n)%Z && (n <=? 70)%Z then Some (n - 55)%Z
  else None.

(** [hex.Decode]: [None] on a character that is no digit and on an odd length. *)
Fixpoint hex_decode (s : string) : option bytes :=
  match s with
  | EmptyString => Some []
  | String a (String b r) =>
      match hex_nibble a, hex_nibble b, hex_decode r with
      | Some x, Some y, Some rest => Some (byte_of_Z (16 * x + y)%Z :: rest)
      | _, _, _ => None
      end
  | String _ EmptyString => None
  end.

(** ** Package [unicode/utf8] *)

Definition in_range (lo hi : Z) (c : ascii) : bool :=
  let n := Z.of_N (N_of_ascii c) in (lo <=? n)%Z && (n <=? hi)%Z.

(** The two- to four-byte sequences: continuation bytes, no overlong form, no
    surrogate, nothing above U+10FFFF. *)
Definition utf8_2 (a b : ascii) : bool := in_range 194 223 a && in_range 128 191 b.
Definition utf8_3 (a b c : ascii) : bool :=
  (in_range 224 224 a && in_range 160 191 b || in_range 225 236 a && in_range 128 191 b
   || in_range 237 237 a && in_range 128 159 b || in_range 238 239 a && in_range 128 191 b)
  && in_range 128 191 c.
Definition utf8_4 (a b c d : ascii) : bool :=
  (in_range 240 240 a && in_range 144 191 b || in_range 241 243 a && in_range 128 191 b
   || in_range 244 244 a && in_range 128 143 b)
  && in_range 128 191 c && in_range 128 191 d.

(** [utf8.ValidString]. *)
Fixpoint ValidString (s : string) : bool :=
  match s with
  | EmptyString => true
  | String a s1 =>
      if in_range 0 127 a then ValidString s1
      else
        match s1 with
        | String b s2 =>
            if utf8_2 a b then ValidString s2
            else
              match s2 with
              | String c s3 =>
                  if utf8_3 a b c then ValidString s3
                  else match s3 with
                       | String d s4 => utf8_4 a b c d && ValidString s4
                       | EmptyString => false
                       end
              | EmptyString => false
              end
        | EmptyString => false
        end
  end.

(** ** Decidable equality *)

#[export] Instance byte_eq_decision : EqDecision byte := Byte.byte_eq_dec.

#[export] Instance result_eq_decision {E A : Type} `{EqDecision E, EqDecision A} :
  EqDecision (result E A).
Proof. solve_decision. Defined.

(** ** Automation *)

Create HintDb geneza.

(** Case analysis on every [match] and [if] of the context, with the equations
    it opens used and the impossible branches closed. *)
Ltac go_cases := repeat (case_match; simplify_eq/=).

(** The same, for a hypothesis: what a handler that returned [Ok] passed. *)
Ltac go_inv H :=
  repeat match type of H with
  | context [match ?x with _ => _ end] => destruct x eqn:?; simplify_eq/=
  end.

(** Boolean guards of the code as propositions. *)
Ltac go_bool :=
  repeat match goal with
  | H : bool_decide _ = true |- _ => apply bool_decide_eq_true_1 in H
  | H : bool_decide _ = false |- _ => apply bool_decide_eq_false_1 in H
  | H : ¬ (_ ≠ _) |- _ => apply dec_stable in H
  | H : _ && _ = true |- _ => apply andb_true_iff in H; destruct H
  | H : _ || _ = false |- _ => apply orb_false_iff in H; destruct H
  | H : negb _ = true |- _ => apply negb_true_iff in H
  | H : negb _ = false |- _ => apply negb_false_iff in H
  | H : (_ <? _)%Z = true |- _ => apply Z.ltb_lt in H
  | H : (_ <? _)%Z = false |- _ => apply Z.ltb_ge in H
  | H : (_ <=? _)%Z = true |- _ => apply Z.leb_le in H
  | H : (_ <=? _)%Z = false |- _ => apply Z.leb_gt in H
  | H : (_ =? _)%Z = true |- _ => apply Z.eqb_eq in H
  | H : (_ =? _)%Z = false |- _ => apply Z.eqb_neq in H
  end.

(** ** Lemmas on results *)

Lemma rbind_Ok {E A B : Type} (r : result E A) (f : A → result E B) (b : B) :
  rbind r f = Ok b ↔ ∃ a, r = Ok a ∧ f a = Ok b.
Proof. destruct r; simpl; naive_solver. Qed.

Lemma map_err_Ok {E F A : Type} (g : E → F) (r : result E A) (a : A) :
  map_err g r = Ok a ↔ r = Ok a.
Proof. destruct r; simpl; naive_solver. Qed.

Lemma of_option_Ok {E A : Type} (e : E) (o : option A) (a : A) :
  of_option e o = Ok a ↔ o = Some a.
Proof. destruct o; simpl; naive_solver. Qed.

#[export] Hint Rewrite @rbind_Ok @map_err_Ok @of_option_Ok : geneza.

(** ** Lemmas on bytes and integers *)

Lemma Z_of_byte_range (b : byte) : (0 ≤ Z_of_byte b < 256)%Z.
Proof. unfold Z_of_byte. pose proof (Byte.to_N_bounded b). lia. Qed.

Lemma byte_of_Z_of_byte (b : byte) : byte_of_Z (Z_of_byte b) = b.
Proof.
  unfold byte_of_Z. rewrite Z.mod_small by apply Z_of_byte_range.
  unfold Z_of_byte. rewrite N2Z.id, Byte.of_to_N. done.
Qed.

Lemma Z_of_byte_of_Z (z : Z) : Z_of_byte (byte_of_Z z) = (z mod 256)%Z.
Proof.
  unfold byte_of_Z. pose proof (Z.mod_pos_bound z 256 ltac:(lia)).
  destruct (Byte.of_N (Z.to_N (z mod 256))) as [b|] eqn:E.
  - apply Byte.to_of_N in E. unfold Z_of_byte. rewrite E. lia.
  - apply Byte.of_N_None_iff in E. lia.
Qed.

Lemma wrap_u64_small (z : Z) : (0 ≤ z < 2 ^ 64)%Z → wrap_u64 z = z.
Proof. intros. unfold wrap_u64. by apply Z.mod_small. Qed.

Lemma wrap_i64_small (z : Z) : (- 2 ^ 63 ≤ z < 2 ^ 63)%Z → wrap_i64 z = z.
Proof. intros. unfold wrap_i64. rewrite Z.mod_small; lia. Qed.

#[export] Hint Resolve Z_of_byte_range : geneza.
#[export] Hint Rewrite byte_of_Z_of_byte Z_of_byte_of_Z : geneza.

(** ** Lemmas on hexadecimal *)

(** A decidable fact about a range of integers, by evaluation. *)
Lemma forallb_seqZ (f : Z → bool) (k n : Z) :
  (0 ≤ n < k)%Z → forallb f (seqZ 0 k) = true → f n = true.
Proof.
  intros Hn Hf. rewrite forallb_forall in Hf. apply Hf, list_elem_of_In, elem_of_seqZ. lia.
Qed.

Lemma hex_nibble_digit (n : Z) : (0 ≤ n < 16)%Z → hex_nibble (hex_digit n) = Some n.
Proof.
  intros Hn. apply (forallb_seqZ (λ n, bool_decide (hex_nibble (hex_digit n) = Some n)) 16) in Hn;
    [by apply bool_decide_eq_true_1 in Hn|vm_compute; reflexivity].
Qed.

Lemma byte_nibbles (x : byte) : (0 ≤ Z_of_byte x / 16 < 16)%Z ∧ (0 ≤ Z_of_byte x mod 16 < 16)%Z.
Proof.
  pose proof (Z_of_byte_range x). split; [|apply Z.mod_pos_bound; lia].
  split; [apply Z.div_pos; lia|apply Z.div_lt_upper_bound; lia].
Qed.

Lemma hex_decode_encode (b : bytes) : hex_decode (hex_encode b) = Some b.
Proof.
  induction b as [|x b IH]; [done|]. cbn [hex_encode hex_decode].
  destruct (byte_nibbles x). rewrite !hex_nibble_digit, IH by done.
  rewrite <- Z.div_mod by lia. by rewrite byte_of_Z_of_byte.
Qed.

Lemma hex_digit_ascii (n : Z) : (0 ≤ n < 16)%Z → in_range 0 127 (hex_digit n) = true.
Proof.
  intros Hn. by apply (forallb_seqZ (λ n, in_range 0 127 (hex_digit n)) 16) in Hn.
Qed.

Lemma ValidString_hex (b : bytes) : ValidString (hex_encode b) = true.
Proof.
  induction b as [|x b IH]; [done|]. cbn [hex_encode ValidString].
  destruct (byte_nibbles x). by rewrite !hex_digit_ascii.
Qed.

(** ** Lemmas on strings *)

Arguments String.append !_ _ / : simpl nomatch.

Lemma contains_spec (xs : list string) (x : string) : contains xs x = true ↔ x ∈ xs.
Proof.
  unfold contains. rewrite existsb_exists. setoid_rewrite <- list_elem_of_In.
  setoid_rewrite bool_decide_eq_true. naive_solver.
Qed.

Lemma cut_prefix_spec (s p r : string) : cut_prefix s p = Some r ↔ s = String.append p r.
Proof.
  revert s. induction p as [|a p IH]; intros s; simpl; [split; congruence|].
  destruct s as [|b s]; [split; congruence|].
  destruct (Ascii.eqb_spec a b) as [->|]; [rewrite IH|]; split; congruence.
Qed.

Lemma cut_prefix_append (p r : string) : cut_prefix (String.append p r) p = Some r.
Proof. by apply cut_prefix_spec. Qed.

(** Two prefixes of one string are comparable. *)
Lemma has_prefix_disjoint (p q s : string) :
  has_prefix p q = false → has_prefix q p = false →
  has_prefix s p = true → has_prefix s q = true → False.
Proof.
  unfold has_prefix. revert q s. induction p as [|a p IH]; intros q s; [by destruct q|].
  destruct q as [|b q]; [done|]. destruct s as [|c s]; [done|]. simpl. rewrite (Ascii.eqb_sym b a).
  destruct (Ascii.eqb_spec a b) as [->|Hab].
  - destruct (Ascii.eqb b c); [apply IH|done].
  - destruct (Ascii.eqb_spec a c) as [->|]; [|done]. destruct (Ascii.eqb_spec b c) as [->|]; done.
Qed.

Lemma append_assoc (s t u : string) :
  String.append (String.append s t) u = String.append s (String.append t u).
Proof. induction s as [|a s IH]; simpl; congruence. Qed.

(** Splitting at a separator neither left part contains is unambiguous. *)
Lemma append_sep_inj (c : ascii) (s1 s2 r1 r2 : string) :
  has_char c s1 = false → has_char c s2 = false →
  String.append s1 (String c r1) = String.append s2 (String c r2) →
  s1 = s2 ∧ r1 = r2.
Proof.
  revert s2. induction s1 as [|a s1 IH]; intros [|b s2]; simpl; intros H1 H2 E; simplify_eq.
  - done.
  - by rewrite Ascii.eqb_refl in H2.
  - by rewrite Ascii.eqb_refl in H1.
  - apply orb_false_iff in H1 as [_ H1]. apply orb_false_iff in H2 as [_ H2].
    destruct (IH s2 H1 H2) as [-> ->]; done.
Qed.

Lemma has_char_app (c : ascii) (s t : string) :
  has_char c (String.append s t) = has_char c s || has_char c t.
Proof. induction s as [|a s IH]; simpl; [done|]. by rewrite IH, orb_assoc. Qed.

(** Splitting at the last separator is unambiguous. *)
Lemma append_sep_inj_r (c : ascii) (s1 s2 r1 r2 : string) :
  has_char c r1 = false → has_char c r2 = false →
  String.append s1 (String c r1) = String.append s2 (String c r2) →
  s1 = s2 ∧ r1 = r2.
Proof.
  revert s2. induction s1 as [|a s1 IH]; intros [|b s2] H1 H2 E; simplify_eq/=.
  - done.
  - rewrite has_char_app in H1. simpl in H1. rewrite Ascii.eqb_refl, orb_true_r in H1. done.
  - rewrite has_char_app in H2. simpl in H2. rewrite Ascii.eqb_refl, orb_true_r in H2. done.
  - destruct (IH s2 H1 H2) as [-> ->]; done.
Qed.

Lemma bytes_of_string_app (s t : string) :
  bytes_of_string (String.append s t) = bytes_of_string s ++ bytes_of_string t.
Proof.
  unfold bytes_of_string, String.list_byte_of_string. rewrite <- List.map_app. f_equal.
  induction s as [|a s IH]; simpl; congruence.
Qed.

#[export] Instance bytes_of_string_inj : Inj (=) (=) bytes_of_string.
Proof.
  intros s t E. unfold bytes_of_string in E.
  rewrite <- (String.string_of_list_byte_of_string s), E. apply String.string_of_list_byte_of_string.
Qed.
