(* ===== verification/Wire.v ===== *)
(** * Length-prefixed frames (src/internal/wire/frame.go)

    The frame protocol every raw tunnel and relay connection speaks: a 4-byte
    big-endian length and the payload.  The reader and the writer are the
    contracts of [io.Reader] and [io.Writer] that frame.go uses; a reader is the
    bytes still to come and the error it ends with, a writer is what was written
    and the room left before it fails.  The theorems give the round trip of any
    sequence of frames, the bound a limited read obeys, and the error each
    truncation of a frame is reported with. *)
From Stdlib Require Import ZArith Lia Strings.Byte.
From stdpp Require Import base list numbers.
From S2P Require Import Prelude.

Local Open Scope Z_scope.

(** ** io.Reader and io.Writer *)

(** The errors a stream ends with: [io.EOF], [io.ErrUnexpectedEOF], and any
    other transport error by its number. *)
Inductive io_err : Type :=
| EOF
| ErrUnexpectedEOF
| ErrTransport (code : nat).

#[export] Instance io_err_eq_decision : EqDecision io_err.
Proof. solve_decision. Defined.

(** An [io.Reader]: the bytes it will deliver, then the error it returns. *)
Record reader := mkReader { rd_buf : bytes; rd_end : io_err }.

(** An [io.Writer]: what it accepted, and how many more bytes it accepts before
    it fails ([None]: it never fails). *)
Record writer := mkWriter { wr_out : bytes; wr_room : option nat }.

(** [io.ReadFull(r, buf)] for a buffer of [n] bytes. *)
Definition ReadFull (r : reader) (n : nat) : result io_err bytes * reader :=
  if (n <=? length (rd_buf r))%nat
  then (Ok (take n (rd_buf r)), mkReader (drop n (rd_buf r)) (rd_end r))
  else (Err (if bool_decide (rd_end r = EOF) && (0 <? length (rd_buf r))%nat
             then ErrUnexpectedEOF else rd_end r),
        mkReader [] (rd_end r)).

(** [w.Write(p)]: the whole of [p], or a short write with an error. *)
Definition WriteAll (w : writer) (p : bytes) : writer * option io_err :=
  match wr_room w with
  | None => (mkWriter (wr_out w ++ p) None, None)
  | Some k =>
      if (length p <=? k)%nat
      then (mkWriter (wr_out w ++ p) (Some (k - length p)%nat), None)
      else (mkWriter (wr_out w ++ take k p) (Some 0%nat), Some (ErrTransport 0))
  end.

(** ** encoding/binary: big-endian uint32 *)

Definition PutUint32 (z : Z) : bytes :=
  [byte_of_Z (Z.shiftr z 24); byte_of_Z (Z.shiftr z 16);
   byte_of_Z (Z.shiftr z 8); byte_of_Z z].

Definition Uint32 (b : bytes) : Z :=
  match b with
  | [b0; b1; b2; b3] =>
      Z.lor (Z_of_byte b3)
        (Z.lor (Z.shiftl (Z_of_byte b2) 8)
           (Z.lor (Z.shiftl (Z_of_byte b1) 16) (Z.shiftl (Z_of_byte b0) 24)))
  | _ => 0
  end.

(** ** Frames *)

Definition MaxFrame : Z := Z.shiftl 1 20.

Inductive frame_err : Type :=
| FrameTooLarge (n : Z)
| FrameIO (e : io_err).

Definition blen (p : bytes) : Z := Z.of_nat (length p).

Definition WriteFrame (w : writer) (p : bytes) : writer * option frame_err :=
  if MaxFrame <? blen p then (w, Some (FrameTooLarge (blen p)))
  else
    let hdr := PutUint32 (wrap_u32 (blen p)) in
    match WriteAll w hdr with
    | (w1, Some e) => (w1, Some (FrameIO e))
    | (w1, None) =>
        match WriteAll w1 p with
        | (w2, Some e) => (w2, Some (FrameIO e))
        | (w2, None) => (w2, None)
        end
    end.

Definition ReadFrameLimit (r : reader) (limit : Z) : result frame_err bytes * reader :=
  match ReadFull r 4 with
  | (Err e, r1) => (Err (FrameIO e), r1)
  | (Ok hdr, r1) =>
      let n := Uint32 hdr in
      if limit <? n then (Err (FrameTooLarge n), r1)
      else
        match ReadFull r1 (Z.to_nat n) with
        | (Err e, r2) => (Err (FrameIO e), r2)
        | (Ok p, r2) => (Ok p, r2)
        end
  end.

Definition ReadFrame (r : reader) : result frame_err bytes * reader :=
  ReadFrameLimit r MaxFrame.

(** ** JSON frames: [json.Marshal] and [json.Unmarshal] are the parameters *)

Section JSONFrames.
Context {A : Type} (marshal : A → option bytes) (unmarshal : bytes → option A).

Inductive json_frame_err : Type :=
| JSONFrame (e : frame_err)
| JSONMarshal
| JSONUnmarshal.

Definition WriteJSON (w : writer) (v : A) : writer * option json_frame_err :=
  match marshal v with
  | None => (w, Some JSONMarshal)
  | Some b =>
      let (w1, e) := WriteFrame w b in (w1, JSONFrame <$> e)
  end.

Definition ReadJSON (r : reader) : result json_frame_err A * reader :=
  match ReadFrame r with
  | (Err e, r1) => (Err (JSONFrame e), r1)
  | (Ok b, r1) => (of_option JSONUnmarshal (unmarshal b), r1)
  end.
End JSONFrames.

(** ** Reading and writing sequences of frames *)

(** The bytes [WriteFrame] puts on a stream that does not fail. *)
Definition frame (p : bytes) : bytes := PutUint32 (wrap_u32 (blen p)) ++ p.

Fixpoint write_frames (w : writer) (ps : list bytes) : writer * option frame_err :=
  match ps with
  | [] => (w, None)
  | p :: ps' =>
      match WriteFrame w p with
      | (w1, None) => write_frames w1 ps'
      | (w1, Some e) => (w1, Some e)
      end
  end.

(** Reading up to [n] frames, stopping at the first error. *)
Fixpoint read_frames (n : nat) (r : reader) : list bytes * option frame_err * reader :=
  match n with
  | O => ([], None, r)
  | S n' =>
      match ReadFrame r with
      | (Err e, r1) => ([], Some e, r1)
      | (Ok p, r1) =>
          let '(ps, e, r2) := read_frames n' r1 in (p :: ps, e, r2)
      end
  end.

(** ** Lemmas on the header *)

Lemma length_PutUint32 (z : Z) : length (PutUint32 z) = 4%nat.
Proof. done. Qed.

(** A low part and a shifted high part do not overlap. *)
Lemma lor_shiftl_add (a c k : Z) :
  0 ≤ k → 0 ≤ a < 2 ^ k → Z.lor a (Z.shiftl c k) = a + c * 2 ^ k.
Proof.
  intros Hk Ha. rewrite <- Z.shiftl_mul_pow2 by done.
  symmetry. rewrite <- Z.lxor_lor; [apply Z.add_nocarry_lxor|];
  (apply Z.bits_inj'; intros i Hi; rewrite Z.land_spec, Z.bits_0;
   destruct (Z.ltb_spec i k);
   [rewrite Z.shiftl_spec_low by lia; apply andb_false_r|];
   rewrite <- (Z.mod_small a (2 ^ k)) by done;
   rewrite Z.mod_pow2_bits_high by lia; done).
Qed.

(** The 32-bit header as a sum of its bytes. *)
Lemma Uint32_sum (b0 b1 b2 b3 : byte) :
  Uint32 [b0; b1; b2; b3] =
  Z_of_byte b3 + (Z_of_byte b2 + (Z_of_byte b1 + Z_of_byte b0 * 2 ^ 8) * 2 ^ 8) * 2 ^ 8.
Proof.
  unfold Uint32.
  change 24 with (8 + 16). change 16 with (8 + 8).
  rewrite <- !Z.shiftl_shiftl, <- !Z.shiftl_lor by lia.
  rewrite !lor_shiftl_add; auto using Z_of_byte_range with lia; lia.
Qed.

Lemma Uint32_PutUint32 (z : Z) : 0 ≤ z < 2 ^ 32 → Uint32 (PutUint32 z) = z.
Proof.
  intros Hz. unfold PutUint32. rewrite Uint32_sum, !Z_of_byte_of_Z.
  rewrite !Z.shiftr_div_pow2 by lia.
  change (2 ^ 24) with (256 * (256 * 256)). change (2 ^ 16) with (256 * 256).
  change (2 ^ 8) with 256. rewrite <- !Z.div_div by lia.
  pose proof (Z.div_mod z 256). pose proof (Z.div_mod (z / 256) 256).
  pose proof (Z.div_mod (z / 256 / 256) 256).
  pose proof (Z.mod_small (z / 256 / 256 / 256) 256).
  assert (0 ≤ z / 256 / 256 / 256 < 256).
  { rewrite !Z.div_div by lia. split; [apply Z.div_pos; lia|].
    apply Z.div_lt_upper_bound; lia. }
  lia.
Qed.

Lemma Uint32_range (b : bytes) : length b = 4%nat → 0 ≤ Uint32 b < 2 ^ 32.
Proof.
  destruct b as [|b0 [|b1 [|b2 [|b3 [|]]]]]; try done. intros _. rewrite Uint32_sum.
  pose proof (Z_of_byte_range b0). pose proof (Z_of_byte_range b1).
  pose proof (Z_of_byte_range b2). pose proof (Z_of_byte_range b3). lia.
Qed.

(** A payload within the cap has its own length as its header. *)
Lemma header_len (p : bytes) : blen p ≤ MaxFrame → Uint32 (PutUint32 (wrap_u32 (blen p))) = blen p.
Proof.
  intros Hp. change MaxFrame with 1048576 in Hp. unfold blen in *.
  unfold wrap_u32. rewrite Z.mod_small by lia. apply Uint32_PutUint32. lia.
Qed.

(** ** Lemmas on reads and writes *)

Lemma ReadFull_enough (p rest : bytes) (e : io_err) :
  ReadFull (mkReader (p ++ rest) e) (length p) = (Ok p, mkReader rest e).
Proof.
  unfold ReadFull. simpl. rewrite length_app.
  destruct (Nat.leb_spec (length p) (length p + length rest)); [|lia].
  by rewrite take_app_length, drop_app_length.
Qed.

Lemma WriteFrame_unbounded (out p : bytes) :
  blen p ≤ MaxFrame →
  WriteFrame (mkWriter out None) p = (mkWriter (out ++ frame p) None, None).
Proof.
  intros Hp. unfold WriteFrame. destruct (Z.ltb_spec MaxFrame (blen p)); [lia|].
  unfold frame. cbn [WriteAll wr_room wr_out]. by rewrite <- app_assoc.
Qed.

Lemma ReadFrameLimit_frame (limit : Z) (p rest : bytes) (e : io_err) :
  blen p ≤ MaxFrame → blen p ≤ limit →
  ReadFrameLimit (mkReader (frame p ++ rest) e) limit = (Ok p, mkReader rest e).
Proof.
  intros Hp Hl. unfold ReadFrameLimit, frame. rewrite <- app_assoc.
  rewrite <- (length_PutUint32 (wrap_u32 (blen p))) at 1.
  rewrite ReadFull_enough, header_len by done.
  destruct (Z.ltb_spec limit (blen p)); [lia|].
  unfold blen. rewrite Nat2Z.id, ReadFull_enough. done.
Qed.

Lemma write_frames_unbounded (ps : list bytes) (out : bytes) :
  Forall (λ p, blen p ≤ MaxFrame) ps →
  write_frames (mkWriter out None) ps = (mkWriter (out ++ concat (frame <$> ps)) None, None).
Proof.
  intros Hps. revert out. induction Hps as [|p ps Hp _ IH]; intros out; simpl.
  - by rewrite app_nil_r.
  - rewrite WriteFrame_unbounded by done. rewrite IH. by rewrite <- app_assoc.
Qed.

#[export] Hint Resolve ReadFull_enough WriteFrame_unbounded ReadFrameLimit_frame : geneza.

Lemma length_frame (p : bytes) : length (frame p) = (4 + length p)%nat.
Proof. unfold frame. by rewrite length_app, length_PutUint32. Qed.

Lemma ReadFull_Ok (r r' : reader) (n : nat) (p : bytes) :
  ReadFull r n = (Ok p, r') →
  length p = n ∧ rd_buf r = p ++ rd_buf r' ∧ rd_end r' = rd_end r.
Proof.
  unfold ReadFull. intros H. destruct (Nat.leb_spec n (length (rd_buf r))); simplify_eq/=.
  rewrite length_take, take_drop. auto with lia.
Qed.

Lemma ReadFull_Err (r r' : reader) (n : nat) (e : io_err) :
  ReadFull r n = (Err e, r') →
  (length (rd_buf r) < n)%nat ∧ r' = mkReader [] (rd_end r) ∧
  e = (if bool_decide (rd_end r = EOF) && (0 <? length (rd_buf r))%nat
       then ErrUnexpectedEOF else rd_end r).
Proof.
  unfold ReadFull. intros H. destruct (Nat.leb_spec n (length (rd_buf r))); simplify_eq/=.
  auto.
Qed.

Lemma ReadFull_short (r : reader) (n : nat) :
  (length (rd_buf r) < n)%nat →
  ReadFull r n =
    (Err (if bool_decide (rd_end r = EOF) && (0 <? length (rd_buf r))%nat
          then ErrUnexpectedEOF else rd_end r), mkReader [] (rd_end r)).
Proof. intros. unfold ReadFull. destruct (Nat.leb_spec n (length (rd_buf r))); [lia|done]. Qed.

(** A frame that was read took its header and its payload off the stream. *)
Lemma ReadFrameLimit_Ok (r r' : reader) (limit : Z) (p : bytes) :
  ReadFrameLimit r limit = (Ok p, r') →
  length (rd_buf r) = (4 + length p + length (rd_buf r'))%nat.
Proof.
  unfold ReadFrameLimit. intros H. destruct (ReadFull r 4) as [[hdr|] r1] eqn:H1; [|done].
  destruct (limit <? Uint32 hdr); [done|].
  destruct (ReadFull r1 _) as [[q|] r2] eqn:H2; simplify_eq.
  apply ReadFull_Ok in H1 as (Hl & -> & _). apply ReadFull_Ok in H2 as (_ & -> & _).
  rewrite !length_app. lia.
Qed.

(** ** Theorems *)

(** [frame.go, WriteFrame and ReadFrame] Frames are self-delimiting.  Any
    sequence of payloads within the cap is written without an error, and reading
    that many frames back from the bytes put on the stream, whatever follows
    them, gives exactly those payloads in order and leaves exactly what follows. *)
Theorem frames_roundtrip (ps : list bytes) (out rest : bytes) (e : io_err) :
  Forall (λ p, blen p ≤ MaxFrame) ps →
  ∃ enc,
    write_frames (mkWriter out None) ps = (mkWriter (out ++ enc) None, None) ∧
    read_frames (length ps) (mkReader (enc ++ rest) e) = (ps, None, mkReader rest e).
Proof.
  intros Hps. exists (concat (frame <$> ps)). split; [by apply write_frames_unbounded|].
  induction Hps as [|p ps Hp _ IH]; [done|].
  rewrite fmap_cons. cbn [concat length read_frames]. rewrite <- app_assoc. unfold ReadFrame. rewrite ReadFrameLimit_frame by done.
  by rewrite IH.
Qed.

(** [frame.go, ReadFrameLimit] The limit is checked before the body is read.
    A frame is returned only if its declared length is within the limit, and then
    exactly its header and its payload were consumed; a longer frame is refused
    with exactly the four header bytes consumed; a failed stream is drained. *)
Theorem ReadFrameLimit_spec (r : reader) (limit : Z) :
  match ReadFrameLimit r limit with
  | (Ok p, r') =>
      blen p ≤ limit ∧ rd_end r' = rd_end r ∧
      ∃ hdr, length hdr = 4%nat ∧ Uint32 hdr = blen p ∧ rd_buf r = hdr ++ p ++ rd_buf r'
  | (Err (FrameTooLarge n), r') =>
      limit < n ∧ rd_end r' = rd_end r ∧
      ∃ hdr, length hdr = 4%nat ∧ Uint32 hdr = n ∧ rd_buf r = hdr ++ rd_buf r'
  | (Err (FrameIO e), r') =>
      r' = mkReader [] (rd_end r) ∧ (e = rd_end r ∨ (rd_end r = EOF ∧ e = ErrUnexpectedEOF))
  end.
Proof.
  unfold ReadFrameLimit. destruct (ReadFull r 4) as [[hdr|e] r1] eqn:H1.
  - apply ReadFull_Ok in H1 as (Hl & Hb & He).
    destruct (Z.ltb_spec limit (Uint32 hdr)); [by eauto 10|].
    destruct (ReadFull r1 (Z.to_nat (Uint32 hdr))) as [[p|e] r2] eqn:H2.
    + apply ReadFull_Ok in H2 as (Hp & Hb2 & He2).
      pose proof (Uint32_range hdr Hl). unfold blen.
      rewrite Hb, Hb2, He2, He, Hp, Z2Nat.id by lia. eauto 10.
    + apply ReadFull_Err in H2 as (_ & -> & ->). rewrite He.
      destruct (bool_decide_reflect (rd_end r = EOF)), (0 <? _)%nat; simpl; auto.
  - apply ReadFull_Err in H1 as (_ & -> & ->).
    destruct (bool_decide_reflect (rd_end r = EOF)), (0 <? _)%nat; simpl; auto.
Qed.

(** [frame.go, ReadFrameLimit] Every proper prefix of a frame is an error, and
    which one is exact: a stream cut inside the header or inside the payload is
    [io.ErrUnexpectedEOF], a stream cut before the frame is a clean [io.EOF], and
    so is one cut exactly between the header and a payload. *)
Theorem truncated_frame (p : bytes) (k : nat) :
  blen p ≤ MaxFrame → (k < length (frame p))%nat →
  ReadFrame (mkReader (take k (frame p)) EOF) =
    (Err (FrameIO (if decide (k = 0 ∨ k = 4)%nat then EOF else ErrUnexpectedEOF)),
     mkReader [] EOF).
Proof.
  intros Hp Hk. unfold ReadFrame, ReadFrameLimit, frame in *.
  rewrite length_app, length_PutUint32 in Hk.
  destruct (decide (k < 4)%nat) as [Hk4|Hk4].
  - rewrite ReadFull_short; cbn [rd_buf rd_end];
      rewrite length_take, length_app, length_PutUint32; [|lia].
    repeat f_equal. destruct k; [done|]. case_decide; [lia|]. by destruct (_ `min` _)%nat eqn:?; [lia|].
  - rewrite take_app_ge by (rewrite length_PutUint32; lia). rewrite length_PutUint32.
    rewrite <- (length_PutUint32 (wrap_u32 (blen p))) at 1.
    rewrite ReadFull_enough, header_len by done.
    destruct (Z.ltb_spec MaxFrame (blen p)); [lia|].
    assert (length (take (k - 4) p) = (k - 4)%nat) as Hlen by (rewrite length_take; lia).
    unfold blen. rewrite Nat2Z.id, length_PutUint32. rewrite ReadFull_short by (cbn [rd_buf]; lia). cbn [rd_buf rd_end]. rewrite Hlen.
    repeat f_equal. rewrite bool_decide_true by done. simpl.
    destruct (k - 4)%nat eqn:E; simpl; case_decide; done || lia.
Qed.

Lemma frames_roundtrip_witness :
  let ps := [[x01; x02; x03]; []; [xff]] in
  ∃ enc,
    write_frames (mkWriter [x09] None) ps = (mkWriter ([x09] ++ enc) None, None) ∧
    read_frames (length ps) (mkReader (enc ++ [x07]) EOF) = (ps, None, mkReader [x07] EOF).
Proof.
  apply (frames_roundtrip [[x01; x02; x03]; []; [xff]] [x09] [x07] EOF).
  repeat constructor; vm_compute; discriminate.
Defined.

Lemma truncated_frame_witness :
  ReadFrame (mkReader (take 4 (frame [x01; x02])) EOF) = (Err (FrameIO EOF), mkReader [] EOF) ∧
  ReadFrame (mkReader (take 5 (frame [x01; x02])) EOF)
    = (Err (FrameIO ErrUnexpectedEOF), mkReader [] EOF).
Proof.
  split; [apply (truncated_frame [x01; x02] 4)|apply (truncated_frame [x01; x02] 5)];
    solve [vm_compute; discriminate | vm_compute; lia].
Defined.
