(* ===== verification/Tunnel.v ===== *)
(** * The encrypted data tunnel (src/internal/tunnel/noise.go)

    The Noise IK handshake and the encrypted stream between a client and an
    agent.  The Noise library (github.com/flynn/noise) is the parameter: its
    operations are the class [Noise], what its documentation promises of them is
    the class [NoiseLaws].  The theorems show that the stream delivers exactly the
    bytes written whatever the sizes of the writes and of the read buffers, that
    the responder puts nothing on the wire before the initiator is authorized, and
    that a handshake leaves both ends with matching cipher states. *)
From Stdlib Require Import ZArith Lia Strings.Byte.
From stdpp Require Import base list numbers strings.
From S2P Require Import Prelude Wire.

Local Open Scope Z_scope.

(** ** The Noise library *)

(** [noise.DHKey]. *)
Record DHKey := mkDHKey { Private : bytes; Public : bytes }.

(** The fields of [noise.Config] the sources set; the cipher suite, the pattern
    (IK) and the random source are fixed. *)
Record noise_config := mkNoiseConfig {
  Initiator : bool;
  StaticKeypair : DHKey;
  PeerStaticKey : bytes;
  Prologue : bytes;
}.

(** The operations of the library: a cipher state and a handshake state are
    mutable objects, so each operation returns the next one; an error is [None].
    A handshake message also returns the two transport cipher states when it is
    the last one. *)
Class Noise := {
  CipherState : Type;
  Encrypt : CipherState → bytes → option (bytes * CipherState);
  Decrypt : CipherState → bytes → option (bytes * CipherState);
  HandshakeState : Type;
  NewHandshakeState : noise_config → option HandshakeState;
  WriteMessage : HandshakeState → bytes →
                 option (bytes * option (CipherState * CipherState) * HandshakeState);
  ReadMessage : HandshakeState → bytes →
                option (bytes * option (CipherState * CipherState) * HandshakeState);
  PeerStatic : HandshakeState → bytes;
}.

(** What its documentation promises: [paired e d] is an encrypting and a
    decrypting state with the same key at the same nonce, [nonces] the messages
    left before [ErrMaxNonce], [synced] an initiator that sent the first IK
    message and the responder that read it. *)
Class NoiseLaws (N : Noise) := {
  paired : CipherState → CipherState → Prop;
  nonces : CipherState → nat;
  synced : HandshakeState → HandshakeState → Prop;
  encrypt_total e p : (0 < nonces e)%nat →
    ∃ ct e', Encrypt e p = Some (ct, e') ∧ nonces e = S (nonces e');
  encrypt_decrypt e d p ct e' : paired e d → Encrypt e p = Some (ct, e') →
    ∃ d', Decrypt d ct = Some (p, d') ∧ paired e' d';
  encrypt_tag e p ct e' : Encrypt e p = Some (ct, e') → length ct = (length p + 16)%nat;
  ik_msg1 ci cr hi hr p m hi' o :
    Initiator ci = true → Initiator cr = false → Prologue ci = Prologue cr →
    PeerStaticKey ci = Public (StaticKeypair cr) →
    NewHandshakeState ci = Some hi → NewHandshakeState cr = Some hr →
    WriteMessage hi p = Some (m, o, hi') →
    ∃ hr', ReadMessage hr m = Some (p, None, hr') ∧
           PeerStatic hr' = Public (StaticKeypair ci) ∧ synced hi' hr';
  ik_msg2 hi hr p m hr' cs0 cs1 : synced hi hr →
    WriteMessage hr p = Some (m, Some (cs0, cs1), hr') →
    ∃ hi' cs0' cs1', ReadMessage hi m = Some (p, Some (cs0', cs1'), hi') ∧
      paired cs0' cs0 ∧ paired cs1 cs1' ∧ PeerStatic hr' = PeerStatic hr;
}.

(** Writing a message does not change the peer's static key, which comes with a message
    that is read (or with the configuration). *)
Class NoisePeer (N : Noise) : Prop :=
  write_peer h p m o h' : WriteMessage h p = Some (m, o, h') → PeerStatic h' = PeerStatic h.

(** ** Constants *)

Definition MaxPlaintext : Z := 32 * 1024.
Definition maxCipherFrame : Z := MaxPlaintext + 256.
Definition prologue : string := "geneza/1".

Inductive tunnel_err : Type :=
| TunnelFrame (e : frame_err)
| TunnelDecrypt
| TunnelEncrypt
| NoiseInit
| NoiseMsg1
| NoiseMsg2
| WaitingForAcceptance (e : frame_err)
| ErrRejected
| TunnelNoFuel.

(** ** The connection *)

Section Tunnel.
Context {N : Noise}.

(** The two directions of the raw [net.Conn]. *)
Record rawconn := mkRaw { raw_in : reader; raw_out : writer }.

Record Conn := mkConn {
  raw : rawconn;
  dec : CipherState;
  readBuf : bytes;
  enc : CipherState;
  remoteStatic : bytes;
}.

(** The loop of [Conn.Read]: frames are read and decrypted until one has
    plaintext.  Each turn consumes a frame header, so the number of bytes the
    stream still holds is enough fuel (Lemma [read_loop_fuel]). *)
Fixpoint read_loop (fuel : nat) (c : Conn) : result tunnel_err Conn * Conn :=
  match readBuf c with
  | _ :: _ => (Ok c, c)
  | [] =>
      match fuel with
      | O => (Err TunnelNoFuel, c)
      | S fuel' =>
          match ReadFrameLimit (raw_in (raw c)) maxCipherFrame with
          | (Err e, r) =>
              (Err (TunnelFrame e),
               mkConn (mkRaw r (raw_out (raw c))) (dec c) (readBuf c) (enc c) (remoteStatic c))
          | (Ok ct, r) =>
              match Decrypt (dec c) ct with
              | None =>
                  (Err TunnelDecrypt,
                   mkConn (mkRaw r (raw_out (raw c))) (dec c) (readBuf c) (enc c) (remoteStatic c))
              | Some (pt, dec') =>
                  read_loop fuel'
                    (mkConn (mkRaw r (raw_out (raw c))) dec' pt (enc c) (remoteStatic c))
              end
          end
      end
  end.

(** [c.Read(p)] for a buffer of [n] bytes: the bytes copied into it. *)
Definition Read (c : Conn) (n : nat) : result tunnel_err bytes * Conn :=
  match read_loop (S (length (rd_buf (raw_in (raw c))))) c with
  | (Err e, c') => (Err e, c')
  | (Ok c', _) =>
      (Ok (take n (readBuf c')),
       mkConn (raw c') (dec c') (drop n (readBuf c')) (enc c') (remoteStatic c'))
  end.

(** The loop of [Conn.Write]; every turn takes at least one byte of [p], so
    [length p] turns are enough (Lemma [write_loop_carries]). *)
Fixpoint write_loop (fuel : nat) (c : Conn) (p : bytes) (total : Z)
    : Z * option tunnel_err * Conn :=
  match p with
  | [] => (total, None, c)
  | _ :: _ =>
      match fuel with
      | O => (total, Some TunnelNoFuel, c)
      | S fuel' =>
          let chunk := if MaxPlaintext <? blen p then take (Z.to_nat MaxPlaintext) p else p in
          match Encrypt (enc c) chunk with
          | None => (total, Some TunnelEncrypt, c)
          | Some (ct, enc') =>
              let c1 := mkConn (raw c) (dec c) (readBuf c) enc' (remoteStatic c) in
              match WriteFrame (raw_out (raw c1)) ct with
              | (w, Some e) =>
                  (total, Some (TunnelFrame e),
                   mkConn (mkRaw (raw_in (raw c1)) w) (dec c1) (readBuf c1) (enc c1) (remoteStatic c1))
              | (w, None) =>
                  write_loop fuel'
                    (mkConn (mkRaw (raw_in (raw c1)) w) (dec c1) (readBuf c1) (enc c1) (remoteStatic c1))
                    (drop (length chunk) p) (total + blen chunk)
              end
          end
      end
  end.

Definition Write (c : Conn) (p : bytes) : Z * option tunnel_err * Conn :=
  write_loop (length p) c p 0.

Definition handshakeConfig (initiator : bool) (static : DHKey) (peerStatic : bytes)
    (sessionID : string) : noise_config :=
  mkNoiseConfig initiator static peerStatic
    (bytes_of_string (String.append prologue (String.append ":" sessionID))).

(** [Client]: the secure connection and the responder's payload, or the error,
    with what was done to the raw connection.  Reading the last message of the
    pattern returns the cipher states; a library that returned none would leave
    the code with nil ones, counted here as a failed message. *)
Definition Client (rw : rawconn) (static : DHKey) (agentStaticPub : bytes)
    (sessionID : string) (payload : bytes) : result tunnel_err (Conn * bytes) * rawconn :=
  match NewHandshakeState (handshakeConfig true static agentStaticPub sessionID) with
  | None => (Err NoiseInit, rw)
  | Some hs =>
      match WriteMessage hs payload with
      | None => (Err NoiseMsg1, rw)
      | Some (msg1, _, hs1) =>
          match WriteFrame (raw_out rw) msg1 with
          | (w, Some e) => (Err (TunnelFrame e), mkRaw (raw_in rw) w)
          | (w, None) =>
              match ReadFrame (raw_in rw) with
              | (Err e, r) => (Err (WaitingForAcceptance e), mkRaw r w)
              | (Ok msg2, r) =>
                  match ReadMessage hs1 msg2 with
                  | Some (respPayload, Some (cs0, cs1), hs2) =>
                      (Ok (mkConn (mkRaw r w) cs1 [] cs0 (PeerStatic hs2), respPayload), mkRaw r w)
                  | _ => (Err NoiseMsg2, mkRaw r w)
                  end
              end
          end
      end
  end.

(** [Server]. *)
Definition Server (rw : rawconn) (static : DHKey) (sessionID : string)
    (authorize : bytes → bytes → option bytes) : result tunnel_err Conn * rawconn :=
  match NewHandshakeState (handshakeConfig false static [] sessionID) with
  | None => (Err NoiseInit, rw)
  | Some hs =>
      match ReadFrame (raw_in rw) with
      | (Err e, r) => (Err (TunnelFrame e), mkRaw r (raw_out rw))
      | (Ok msg1, r) =>
          let rw1 := mkRaw r (raw_out rw) in
          match ReadMessage hs msg1 with
          | None => (Err NoiseMsg1, rw1)
          | Some (payload, _, hs1) =>
              match authorize (PeerStatic hs1) payload with
              | None => (Err ErrRejected, rw1)
              | Some accept =>
                  match WriteMessage hs1 accept with
                  | Some (msg2, Some (cs0, cs1), hs2) =>
                      match WriteFrame (raw_out rw1) msg2 with
                      | (w, Some e) => (Err (TunnelFrame e), mkRaw r w)
                      | (w, None) =>
                          (Ok (mkConn (mkRaw r w) cs0 [] cs1 (PeerStatic hs2)), mkRaw r w)
                      end
                  | _ => (Err NoiseMsg2, rw1)
                  end
              end
          end
      end
  end.

(** Successive reads with the given buffer sizes, until one fails. *)
Fixpoint reads (c : Conn) (ns : list nat) : list bytes * option tunnel_err * Conn :=
  match ns with
  | [] => ([], None, c)
  | n :: ns' =>
      match Read c n with
      | (Err e, c') => ([], Some e, c')
      | (Ok b, c') => let '(bs, e, c'') := reads c' ns' in (b :: bs, e, c'')
      end
  end.

(** Successive writes, until one fails. *)
Fixpoint writes (c : Conn) (ps : list bytes) : option tunnel_err * Conn :=
  match ps with
  | [] => (None, c)
  | p :: ps' =>
      match Write c p with
      | (_, Some e, c') => (Some e, c')
      | (_, None, c') => writes c' ps'
      end
  end.

End Tunnel.

Arguments Conn : clear implicits.
Arguments Conn N : rename.

(** ** Lemmas *)

Section TunnelLemmas.
Context {N : Noise} {NL : NoiseLaws N}.

(** [buf] is a sequence of frames that decrypt, from state [d] to state [d'], to
    the non-empty plaintexts [ps]. *)
Inductive carries : CipherState → bytes → list bytes → CipherState → Prop :=
| carries_nil d : carries d [] [] d
| carries_cons d ct rest p d1 ps d' :
    p ≠ [] → blen ct ≤ maxCipherFrame → Decrypt d ct = Some (p, d1) →
    carries d1 rest ps d' → carries d (frame ct ++ rest) (p :: ps) d'.

Lemma carries_app d1 buf1 ps1 d2 buf2 ps2 d3 :
  carries d1 buf1 ps1 d2 → carries d2 buf2 ps2 d3 →
  carries d1 (buf1 ++ buf2) (ps1 ++ ps2) d3.
Proof.
  induction 1 as [|d ct rest p d1 ps d' Hp Hct Hd _ IH]; intros H2; [done|].
  rewrite <- app_assoc. simpl. by eapply carries_cons; [..|apply IH].
Qed.

(** A chunk is not empty, fits a frame, and its ciphertext fits the reader's cap. *)
Lemma chunk_bounds (p : bytes) :
  p ≠ [] →
  let chunk := if MaxPlaintext <? blen p then take (Z.to_nat MaxPlaintext) p else p in
  chunk ≠ [] ∧ blen chunk ≤ MaxPlaintext ∧ (0 < length chunk ≤ length p)%nat ∧
  take (length chunk) p = chunk.
Proof.
  intros Hp. assert (0 < length p)%nat by (destruct p; simpl; [done|lia]).
  change MaxPlaintext with 32768. unfold blen.
  destruct (Z.ltb_spec 32768 (Z.of_nat (length p))); cbv zeta.
  - assert (length (take (Z.to_nat 32768) p) = Z.to_nat 32768) as Hl by (rewrite length_take; lia).
    rewrite Hl. repeat split; try lia. intros E. rewrite E in Hl. simpl in Hl. lia.
  - rewrite firstn_all. repeat split; auto with lia.
Qed.

Definition set_out (c : Conn N) (w : writer) (e : CipherState) : Conn N :=
  mkConn (mkRaw (raw_in (raw c)) w) (dec c) (readBuf c) e (remoteStatic c).

Lemma write_loop_carries (fuel : nat) (c : Conn N) (p : bytes) (total : Z) (out : bytes) d :
  (length p ≤ fuel)%nat → paired (enc c) d → raw_out (raw c) = mkWriter out None →
  (length p ≤ nonces (enc c))%nat →
  ∃ buf chunks e' d',
    write_loop fuel c p total
      = (total + blen p, None, set_out c (mkWriter (out ++ buf) None) e') ∧
    carries d buf chunks d' ∧ concat chunks = p ∧ paired e' d' ∧
    (nonces (enc c) ≤ nonces e' + length p)%nat.
Proof.
  revert c p total out d. induction fuel as [|fuel IH]; intros c p total out d Hf Hp Hout Hn.
  - destruct p; [|simpl in Hf; lia]. exists [], [], (enc c), d.
    rewrite app_nil_r, <- Hout. unfold blen. simpl. rewrite Z.add_0_r.
    destruct c as [[] ? ? ? ?]. repeat split; auto using carries_nil with lia.
  - destruct p as [|b p].
    { exists [], [], (enc c), d. rewrite app_nil_r, <- Hout. unfold blen. simpl.
      rewrite Z.add_0_r. destruct c as [[] ? ? ? ?]. repeat split; auto using carries_nil with lia. }
    cbn [write_loop]. destruct (chunk_bounds (b :: p) ltac:(done)) as (Hne & Hmax & Hlen & Htake).
    remember (b :: p) as q eqn:Hq. clear Hq b p.
    set (chunk := if _ <? _ then _ else _) in *. cbv zeta. clearbody chunk.
    destruct (encrypt_total (enc c) chunk) as (ct & e1 & He & Hn1); [lia|]. rewrite He.
    destruct (encrypt_decrypt _ _ _ _ _ Hp He) as (d1 & Hd & Hp1).
    pose proof (encrypt_tag _ _ _ _ He) as Htag.
    assert (blen ct ≤ maxCipherFrame) as Hcap.
    { unfold maxCipherFrame. change MaxPlaintext with 32768 in *. unfold blen in *. lia. }
    assert (blen ct ≤ MaxFrame) as Hfr.
    { unfold maxCipherFrame in Hcap. change MaxPlaintext with 32768 in Hcap.
      change MaxFrame with 1048576. lia. }
    cbn [raw enc dec readBuf remoteStatic]. rewrite Hout, WriteFrame_unbounded by done.
    edestruct (IH (set_out c (mkWriter (out ++ frame ct) None) e1)
                 (drop (length chunk) q) (total + blen chunk) (out ++ frame ct) d1)
      as (buf & chunks & e' & d' & Hw & Hc & Hcat & Hp' & Hn').
    1-4: unfold set_out; cbn [enc raw raw_out]; rewrite ?length_drop; auto; lia.
    exists (frame ct ++ buf), (chunk :: chunks), e', d'.
    unfold set_out in Hw at 1. cbn [raw raw_in] in Hw.
    split; [etrans; [exact Hw|]|].
    { unfold set_out. cbn [raw raw_in dec readBuf remoteStatic]. rewrite app_assoc.
      assert (total + blen chunk + blen (drop (length chunk) q) = total + blen q) as ->; [|done].
      unfold blen. rewrite length_drop. lia. }
    cbn [enc set_out] in Hn'. rewrite length_drop in Hn'.
    split; [by econstructor|]. split; [|split; [done|lia]].
    simpl. rewrite Hcat, <- Htake at 1. apply take_drop.
Qed.

Lemma writes_carries (ps : list bytes) (c : Conn N) (out : bytes) d :
  paired (enc c) d → raw_out (raw c) = mkWriter out None →
  (length (concat ps) ≤ nonces (enc c))%nat →
  ∃ buf chunks e' d',
    writes c ps = (None, set_out c (mkWriter (out ++ buf) None) e') ∧
    carries d buf chunks d' ∧ concat chunks = concat ps ∧ paired e' d'.
Proof.
  revert c out d. induction ps as [|p ps IH]; intros c out d Hp Hout Hn.
  - exists [], [], (enc c), d. rewrite app_nil_r, <- Hout. destruct c as [[] ? ? ? ?].
    repeat split; auto using carries_nil.
  - simpl in Hn. rewrite length_app in Hn. cbn [writes]. unfold Write.
    destruct (write_loop_carries (length p) c p 0 out d) as
      (buf1 & ch1 & e1 & d1 & Hw1 & Hc1 & Hcat1 & Hp1 & Hn1); auto with lia.
    rewrite Hw1.
    destruct (IH (set_out c (mkWriter (out ++ buf1) None) e1) (out ++ buf1) d1)
      as (buf2 & ch2 & e2 & d2 & Hw2 & Hc2 & Hcat2 & Hp2);
      [done|done|cbn [enc set_out]; lia|].
    exists (buf1 ++ buf2), (ch1 ++ ch2), e2, d2. rewrite Hw2. unfold set_out. cbn [raw raw_in dec readBuf remoteStatic].
    rewrite app_assoc. repeat split; [by eapply carries_app|by rewrite concat_app, Hcat1, Hcat2|done].
Qed.

(** One read of a stream that carries [ps]: it returns a non-empty prefix of what
    is pending, or everything was delivered and the stream's own end is reported. *)
Lemma Read_carries (c : Conn N) (n : nat) (ps : list bytes) d' :
  (0 < n)%nat → carries (dec c) (rd_buf (raw_in (raw c))) ps d' →
  let pending := readBuf c ++ concat ps in
  match Read c n with
  | (Ok b, c') =>
      b ≠ [] ∧ rd_end (raw_in (raw c')) = rd_end (raw_in (raw c)) ∧
      ∃ ps', carries (dec c') (rd_buf (raw_in (raw c'))) ps' d' ∧
             pending = b ++ readBuf c' ++ concat ps'
  | (Err e, _) => pending = [] ∧ e = TunnelFrame (FrameIO (rd_end (raw_in (raw c))))
  end.
Proof.
  intros Hn Hc. unfold Read. destruct c as [[[buf e] w] d [|x rb] en rs]; cbn [raw raw_in rd_buf dec readBuf] in *.
  - inversion Hc as [|? ct rest p d1 ps1 ? Hp Hcap Hd Hc1]; subst; cbn [read_loop readBuf raw raw_in].
    + simpl. destruct e; done.
    + rewrite ReadFrameLimit_frame; [|unfold maxCipherFrame in Hcap; change MaxPlaintext with 32768 in Hcap; change MaxFrame with 1048576; lia|done].
      cbn [dec]. rewrite Hd. destruct p as [|y p]; [done|].
      rewrite length_app, length_frame. cbn [read_loop Nat.add readBuf raw raw_in rd_buf rd_end dec].
      destruct n; [lia|]. split; [done|]. split; [done|]. exists ps1. split; [done|].
      cbn [concat app]. rewrite app_assoc, take_drop. done.
  - cbn [read_loop readBuf raw raw_in rd_buf rd_end dec]. destruct n; [lia|].
    split; [done|]. split; [done|]. exists ps. split; [done|].
    rewrite (app_assoc (take _ _)), take_drop. done.
Qed.

Lemma reads_carries (ns : list nat) (c : Conn N) (ps : list bytes) d' :
  Forall (λ n, 0 < n)%nat ns → carries (dec c) (rd_buf (raw_in (raw c))) ps d' →
  let pending := readBuf c ++ concat ps in
  let '(outs, err, _) := reads c ns in
  (concat outs `prefix_of` pending) ∧
  ((length pending ≤ length ns)%nat → concat outs = pending) ∧
  (err = None ∨
   concat outs = pending ∧ err = Some (TunnelFrame (FrameIO (rd_end (raw_in (raw c)))))).
Proof.
  intros Hns. revert c ps. induction Hns as [|n ns Hn _ IH]; intros c ps Hc; cbn [reads].
  - cbv zeta. split_and!; [apply prefix_nil| |by left].
    simpl. intros Hl. destruct (readBuf c ++ concat ps); [done|simpl in Hl; lia].
  - pose proof (Read_carries c n ps d' Hn Hc) as Hr. cbv zeta in *.
    destruct (Read c n) as [[b|e] c'].
    + destruct Hr as (Hb & He & ps' & Hc' & Hpend). specialize (IH c' ps' Hc').
      destruct (reads c' ns) as [[outs err] c'']. destruct IH as (Hpre & Hall & Herr).
      rewrite Hpend. cbn [concat]. split; [by apply prefix_app|]. split.
      * intros Hl. f_equal. apply Hall. rewrite length_app in Hl. destruct b; [done|]. simpl in Hl. lia.
      * rewrite <- He. destruct Herr as [->|[-> ->]]; auto.
    + destruct Hr as (Hpend & ->). rewrite Hpend. simpl. auto using prefix_nil.
Qed.

End TunnelLemmas.

Lemma read_loop_fuel {N : Noise} (fuel : nat) (c : Conn N) :
  (length (rd_buf (raw_in (raw c))) < fuel)%nat → (read_loop fuel c).1 ≠ Err TunnelNoFuel.
Proof.
  revert c. induction fuel as [|fuel IH]; intros c Hf; [lia|].
  cbn [read_loop]. destruct (readBuf c); [|done].
  destruct (ReadFrameLimit _ _) as [[ct|e] r] eqn:Hr; [|done].
  apply ReadFrameLimit_Ok in Hr. destruct (Decrypt (dec c) ct) as [[pt d]|]; [|done].
  apply IH. cbn [raw raw_in]. lia.
Qed.

(** The responder's handshake for the session read the initiator's message. *)
Definition opens {N : Noise} (rw : rawconn) (static : DHKey) (sessionID : string) (hs : HandshakeState)
    (msg1 : bytes) (r : reader) (payload : bytes) (o : option (CipherState * CipherState))
    (hs1 : HandshakeState) : Prop :=
  NewHandshakeState (handshakeConfig false static [] sessionID) = Some hs ∧
  ReadFrame (raw_in rw) = (Ok msg1, r) ∧ ReadMessage hs msg1 = Some (payload, o, hs1).

(** What a responder that returned a connection did. *)
Lemma Server_Ok {N : Noise} {NP : NoisePeer N} (rw rw' : rawconn) (static : DHKey) (sessionID : string)
    (authorize : bytes → bytes → option bytes) (c : Conn N) :
  Server rw static sessionID authorize = (Ok c, rw') →
  ∃ hs msg1 r payload o hs1 accept msg2 cs0 cs1 hs2,
    opens rw static sessionID hs msg1 r payload o hs1 ∧
    authorize (PeerStatic hs1) payload = Some accept ∧
    WriteMessage hs1 accept = Some (msg2, Some (cs0, cs1), hs2) ∧
    WriteFrame (raw_out rw) msg2 = (raw_out rw', None) ∧
    raw c = rw' ∧ enc c = cs1 ∧ dec c = cs0 ∧ remoteStatic c = PeerStatic hs1.
Proof.
  unfold Server. destruct (NewHandshakeState _) as [hs|] eqn:Hhs; [|done].
  destruct (ReadFrame (raw_in rw)) as [[msg1|e] r] eqn:Hr; [|done].
  destruct (ReadMessage hs msg1) as [[[payload o] hs1]|] eqn:Hm1; [|done].
  destruct (authorize _ payload) as [accept|] eqn:Ha; [|done].
  destruct (WriteMessage hs1 accept) as [[[msg2 [[cs0 cs1]|]] hs2]|] eqn:Hm2; [|done..].
  cbn [raw_out]. destruct (WriteFrame (raw_out rw) msg2) as [w [e|]] eqn:Hw; [done|].
  intros. simplify_eq. eexists _, _, _, _, _, _, _, _, _, _, _. split_and!; [done..|]. by eapply write_peer.
Qed.

(** And one that failed: it wrote nothing, or failed to write the acceptance. *)
Lemma Server_Err {N : Noise} (rw rw' : rawconn) (static : DHKey) (sessionID : string)
    (authorize : bytes → bytes → option bytes) (err : tunnel_err) :
  Server rw static sessionID authorize = (Err err, rw') →
  raw_out rw' = raw_out rw ∨
  ∃ hs msg1 r payload o hs1 accept msg2 cs hs2 e,
    opens rw static sessionID hs msg1 r payload o hs1 ∧
    authorize (PeerStatic hs1) payload = Some accept ∧
    WriteMessage hs1 accept = Some (msg2, Some cs, hs2) ∧
    WriteFrame (raw_out rw) msg2 = (raw_out rw', Some e) ∧ err = TunnelFrame e.
Proof.
  unfold Server. destruct (NewHandshakeState _) as [hs|] eqn:Hhs; [|intros [= _ <-]; by left].
  destruct (ReadFrame (raw_in rw)) as [[msg1|e] r] eqn:Hr; [|intros [= _ <-]; by left].
  destruct (ReadMessage hs msg1) as [[[payload o] hs1]|] eqn:Hm1; [|intros [= _ <-]; by left].
  destruct (authorize _ payload) as [accept|] eqn:Ha; [|intros [= _ <-]; by left].
  destruct (WriteMessage hs1 accept) as [[[msg2 [[cs0 cs1]|]] hs2]|] eqn:Hm2; [|intros [= _ <-]; by left..].
  cbn [raw_out]. destruct (WriteFrame (raw_out rw) msg2) as [w [e|]] eqn:Hw; [|done].
  intros [= <- <-]. right. by eexists _, _, _, _, _, _, _, _, _, _, _.
Qed.

(** A handshake message within the frame cap crosses the raw stream unchanged. *)
Lemma ReadFrame_frame (p : bytes) (e : io_err) :
  blen p ≤ MaxFrame → ReadFrame (mkReader (frame p) e) = (Ok p, mkReader [] e).
Proof. intros. rewrite <- (app_nil_r (frame p)). by apply ReadFrameLimit_frame. Qed.

(** ** An instance of the library's promises

    Keys and ciphertexts in the clear: enough to show that the laws can hold
    together and to evaluate the theorems. *)
Module Clear.

Definition tag : bytes := replicate 16 x00.

(** Self-delimiting encoding of a key. *)
Fixpoint put_key (k : bytes) (rest : bytes) : bytes :=
  match k with [] => x00 :: rest | b :: k' => x01 :: b :: put_key k' rest end.

Fixpoint get_key (m : bytes) : option (bytes * bytes) :=
  match m with
  | x00 :: rest => Some ([], rest)
  | x01 :: b :: m' => match get_key m' with Some (k, rest) => Some (b :: k, rest) | None => None end
  | _ => None
  end.

Definition noise : Noise := {|
  CipherState := nat;
  Encrypt n p := match n with O => None | S n' => Some (p ++ tag, n') end;
  Decrypt n c := match n with O => None | S n' => Some (take (length c - 16) c, n') end;
  HandshakeState := noise_config * bytes;
  NewHandshakeState c := Some (c, PeerStaticKey c);
  WriteMessage h p :=
    let '(c, ps) := h in
    if Initiator c then Some (put_key (Public (StaticKeypair c)) p, None, h)
    else Some (p, Some (100, 100)%nat, h);
  ReadMessage h m :=
    let '(c, ps) := h in
    if Initiator c then Some (m, Some (100, 100)%nat, h)
    else match get_key m with Some (k, p) => Some (p, None, (c, k)) | None => None end;
  PeerStatic h := h.2;
|}.

Lemma get_put_key k p : get_key (put_key k p) = Some (k, p).
Proof. induction k as [|b k IH]; simpl; [done|]. by rewrite IH. Qed.

#[export] Instance noise_laws : NoiseLaws noise.
Proof.
  refine (Build_NoiseLaws noise (fun e d => e = d) (fun e : nat => e)
            (fun hi hr : noise_config * bytes => Initiator hi.1 = true ∧ Initiator hr.1 = false)
            _ _ _ _ _); simpl.
  - intros [|e] p He; [lia|]. eauto.
  - intros [|e] d p ct e' <- H; simplify_eq/=. eexists. split; [|done].
    rewrite length_app. change (length tag) with 16%nat. by rewrite Nat.add_sub, take_app_length.
  - intros [|e] p ct e' H; simplify_eq/=. by rewrite length_app.
  - intros ci cr hi hr p m hi' o Hi Hr _ _ ? ? H. simplify_eq/=. rewrite Hi in H. simplify_eq.
    rewrite Hr, get_put_key. eauto.
  - intros [ci ?] [cr ?] p m hr' cs0 cs1 [Hi Hr] H. simpl in *. rewrite Hr in H. simplify_eq.
    rewrite Hi. eauto 10.
Defined.

#[export] Instance noise_peer : NoisePeer noise.
Proof. intros [c ps] p m o h'. simpl. destruct (Initiator c); by intros [= _ _ <-]. Qed.

End Clear.

(** ** Theorems *)

(** C40 (noise.go, Conn.Write and Conn.Read): the tunnel is a reliable byte stream.
    Whatever the sizes of the writes (chunked at MaxPlaintext) and of the read
    buffers, all writes succeed, every prefix of the reads is a prefix of the
    bytes written, enough reads deliver all of them, and the end of the raw stream
    is reported only after the last byte. *)
Theorem tunnel_stream {N : Noise} {NL : NoiseLaws N} (a b : Conn N) (ps : list bytes)
    (ns : list nat) (e : io_err) :
  paired (enc a) (dec b) → raw_out (raw a) = mkWriter [] None →
  (length (concat ps) ≤ nonces (enc a))%nat → Forall (λ n, 0 < n)%nat ns →
  ∃ a' wire,
    writes a ps = (None, a') ∧ raw_out (raw a') = mkWriter wire None ∧
    let b' := mkConn (mkRaw (mkReader wire e) (raw_out (raw b))) (dec b) [] (enc b)
                (remoteStatic b) in
    let '(outs, err, _) := reads b' ns in
    (concat outs `prefix_of` concat ps) ∧
    ((length (concat ps) ≤ length ns)%nat → concat outs = concat ps) ∧
    (err = None ∨ concat outs = concat ps ∧ err = Some (TunnelFrame (FrameIO e))).
Proof.
  intros Hp Hout Hn Hns.
  destruct (writes_carries ps a [] (dec b) Hp Hout Hn) as (buf & ch & e' & d' & Hw & Hc & Hcat & _).
  eexists _, buf. split; [exact Hw|]. split; [done|]. rewrite <- Hcat.
  by apply (reads_carries ns (mkConn (mkRaw (mkReader buf e) _) (dec b) [] _ _) ch d').
Qed.

(** [noise.go, Conn.Read] The read loop returns on every stream.  The fuel
    [Read] runs its loop with is never exhausted, also on a stream of empty or
    undecryptable frames a hostile relay made up. *)
Theorem Read_terminates {N : Noise} (c : Conn N) (n : nat) :
  (Read c n).1 ≠ Err TunnelNoFuel.
Proof.
  unfold Read. pose proof (read_loop_fuel (S (length (rd_buf (raw_in (raw c))))) c) as H.
  destruct (read_loop _ c) as [[c'|err] c'']; [done|].
  simpl in *. intros ?. simplify_eq. apply H; [lia|done].
Qed.

(** C34 (noise.go, Server): nothing is written before authorization.  When the first
    message does not verify, or [authorize] refuses the initiator's key and payload, the
    responder's output is untouched and no connection is returned.  When a connection is
    returned, [authorize] accepted the key and the payload which the handshake of this
    session authenticated, that key is the connection's remote key, and exactly one frame
    was written, the message with the acceptance.  Any other failure too leaves the output
    untouched, or it is that of the write of this frame. *)
Theorem Server_authorizes_first {N : Noise} {NP : NoisePeer N} (rw : rawconn) (static : DHKey)
    (sessionID : string) (authorize : bytes → bytes → option bytes) :
  match Server rw static sessionID authorize with
  | (Ok c, rw') =>
      ∃ hs msg1 r payload o hs1 accept msg2 cs0 cs1 hs2,
        opens rw static sessionID hs msg1 r payload o hs1 ∧
        authorize (PeerStatic hs1) payload = Some accept ∧
        WriteMessage hs1 accept = Some (msg2, Some (cs0, cs1), hs2) ∧
        WriteFrame (raw_out rw) msg2 = (raw_out rw', None) ∧
        raw c = rw' ∧ enc c = cs1 ∧ dec c = cs0 ∧ remoteStatic c = PeerStatic hs1
  | (Err err, rw') =>
      raw_out rw' = raw_out rw ∨
      ∃ hs msg1 r payload o hs1 accept msg2 cs hs2 e,
        opens rw static sessionID hs msg1 r payload o hs1 ∧
        authorize (PeerStatic hs1) payload = Some accept ∧
        WriteMessage hs1 accept = Some (msg2, Some cs, hs2) ∧
        WriteFrame (raw_out rw) msg2 = (raw_out rw', Some e) ∧ err = TunnelFrame e
  end ∧
  (∀ hs msg1 r payload o hs1, opens rw static sessionID hs msg1 r payload o hs1 →
     authorize (PeerStatic hs1) payload = None →
     Server rw static sessionID authorize = (Err ErrRejected, mkRaw r (raw_out rw))) ∧
  (∀ hs msg1 r, NewHandshakeState (handshakeConfig false static [] sessionID) = Some hs →
     ReadFrame (raw_in rw) = (Ok msg1, r) → ReadMessage hs msg1 = None →
     Server rw static sessionID authorize = (Err NoiseMsg1, mkRaw r (raw_out rw))).
Proof.
  split_and!.
  - destruct (Server rw static sessionID authorize) as [[c|err] rw'] eqn:HS; [by apply Server_Ok in HS|by apply Server_Err in HS].
  - intros hs msg1 r payload o hs1 (E1 & E2 & E3) Ha. unfold Server. by rewrite E1, E2, E3, Ha.
  - intros hs msg1 r E1 E2 E3. unfold Server. by rewrite E1, E2, E3.
Qed.

(** [noise.go, Client and Server] A handshake for the same session between a
    client that names the agent's static key and that agent agrees.  If the agent
    accepts, the client gets the agent's acceptance payload, the agent
    authorized exactly the client's static key and payload, and the cipher states
    of the two ends are paired in both directions. *)
Theorem handshake_agreement {N : Noise} {NL : NoiseLaws N} (kc ka : DHKey) (sid : string)
    (payload accept : bytes) (authorize : bytes → bytes → option bytes) (hs : HandshakeState)
    (m1 : bytes) o hs1 (sconn : Conn N) (e : io_err) :
  NewHandshakeState (handshakeConfig true kc (Public ka) sid) = Some hs →
  WriteMessage hs payload = Some (m1, o, hs1) → blen m1 ≤ MaxFrame →
  authorize (Public kc) payload = Some accept →
  (Server (mkRaw (mkReader (frame m1) e) (mkWriter [] None)) ka sid authorize).1 = Ok sconn →
  ∃ cconn,
    (Client (mkRaw (mkReader (wr_out (raw_out (raw sconn))) e) (mkWriter [] None))
       kc (Public ka) sid payload).1 = Ok (cconn, accept) ∧
    wr_out (raw_out (raw cconn)) = frame m1 ∧
    remoteStatic sconn = Public kc ∧
    paired (enc cconn) (dec sconn) ∧ paired (enc sconn) (dec cconn).
Proof.
  intros Hhs Hm1 Hlen Hauth Hs. unfold Server in Hs.
  destruct (NewHandshakeState (handshakeConfig false ka [] sid)) as [hr|] eqn:Hhr; [|done].
  cbn [raw_in] in Hs. rewrite ReadFrame_frame in Hs by done.
  destruct (ik_msg1 (handshakeConfig true kc (Public ka) sid) (handshakeConfig false ka [] sid) hs hr payload
              m1 hs1 o eq_refl eq_refl eq_refl eq_refl Hhs Hhr Hm1)
    as (hr' & Hr1 & Hpeer & Hsync).
  rewrite Hr1, Hpeer in Hs. cbn [handshakeConfig StaticKeypair] in Hs. rewrite Hauth in Hs.
  destruct (WriteMessage hr' accept) as [[[m2 [[cs0 cs1]|]] hr2]|] eqn:Hw2; [|done..].
  destruct (ik_msg2 _ _ _ _ _ _ _ Hsync Hw2) as (hi' & cs0' & cs1' & Hr2 & Hp0 & Hp1 & Hps).
  cbn [raw_out] in Hs. destruct (decide (blen m2 ≤ MaxFrame)) as [Hl2|Hl2].
  - rewrite WriteFrame_unbounded in Hs by done. simplify_eq/=.
    unfold Client. rewrite Hhs, Hm1. cbn [raw_out raw_in].
    rewrite WriteFrame_unbounded by done. rewrite ReadFrame_frame by done. rewrite Hr2.
    eexists. split; [done|]. cbn. rewrite Hps, Hpeer. auto.
  - unfold WriteFrame in Hs. destruct (Z.ltb_spec MaxFrame (blen m2)); [done|lia].
Qed.

(** An initiator with the key [x07], in the clear: authorized by its key, and refused. *)
Lemma Server_authorizes_first_witness :
  let rw := mkRaw (mkReader (frame (Clear.put_key [x07] [x01])) EOF) (mkWriter [] None) in
  let accepts := λ k p, if bool_decide (k = [x07] ∧ p = [x01]) then Some [x02] else None in
  (∃ c rw', @Server Clear.noise rw (mkDHKey [x03] [x04]) "s-1" accepts = (Ok c, rw') ∧
     remoteStatic c = [x07] ∧ raw_out rw' = mkWriter (frame [x02]) None) ∧
  @Server Clear.noise rw (mkDHKey [x03] [x04]) "s-1" (λ _ _, None)
    = (Err ErrRejected, mkRaw (mkReader [] EOF) (mkWriter [] None)).
Proof.
  intros rw accepts. split.
  - pose proof (@Server_authorizes_first Clear.noise Clear.noise_peer rw (mkDHKey [x03] [x04]) "s-1" accepts) as [H _].
    destruct (@Server Clear.noise rw (mkDHKey [x03] [x04]) "s-1" accepts) as [[c|e] rw'] eqn:E; [|discriminate E].
    destruct H as (hs & msg1 & r & payload & o & hs1 & accept & msg2 & cs0 & cs1 & hs2 & (E1 & E2 & E3) & Ha & Hm & Hw & _ & _ & _ & Hk).
    exists c, rw'. split; [reflexivity|]. injection E1 as <-. vm_compute in E2. injection E2 as <- <-.
    vm_compute in E3. injection E3 as <- <- <-. vm_compute in Ha. injection Ha as <-. vm_compute in Hm.
    injection Hm as <- <- <- <-. split; [exact Hk|]. vm_compute in Hw. injection Hw as Hw. exact (eq_sym Hw).
  - pose proof (@Server_authorizes_first Clear.noise Clear.noise_peer rw (mkDHKey [x03] [x04]) "s-1" (λ _ _, None)) as (_ & H & _).
    eapply H; [split_and!; vm_compute; reflexivity|reflexivity].
Defined.

Definition clear_conn (out : bytes) : Conn Clear.noise :=
  @mkConn Clear.noise (mkRaw (mkReader [] EOF) (mkWriter out None)) (50%nat) [] (50%nat) [].

Lemma tunnel_stream_witness :
  let ps := [[x01; x02; x03]; [x04]; [x05; x06]] in
  ∃ a' wire, writes (clear_conn []) ps = (None, a') ∧ raw_out (raw a') = mkWriter wire None ∧
    let b' := @mkConn Clear.noise (mkRaw (mkReader wire EOF) (mkWriter [] None)) 50%nat [] 50%nat [] in
    let '(outs, err, _) := reads b' [2; 5; 1; 7; 9; 9]%nat in
    (concat outs `prefix_of` concat ps) ∧
    ((length (concat ps) ≤ 6)%nat → concat outs = concat ps) ∧
    (err = None ∨ concat outs = concat ps ∧ err = Some (TunnelFrame (FrameIO EOF))).
Proof.
  apply (@tunnel_stream Clear.noise Clear.noise_laws (clear_conn []) (clear_conn [])
           [[x01; x02; x03]; [x04]; [x05; x06]] [2; 5; 1; 7; 9; 9]%nat EOF).
  - reflexivity.
  - reflexivity.
  - simpl. lia.
  - repeat constructor; lia.
Defined.

Lemma handshake_agreement_witness :
  let kc := mkDHKey [x11] [x12] in
  let ka := mkDHKey [x21] [x22] in
  let m1 := Clear.put_key [x12] [x07] in
  let sconn := @mkConn Clear.noise (mkRaw (mkReader [] EOF) (mkWriter (frame [x09]) None))
                 100%nat [] 100%nat [x12] in
  ∃ cconn : Conn Clear.noise,
    (@Client Clear.noise (mkRaw (mkReader (frame [x09]) EOF) (mkWriter [] None))
       kc (Public ka) "s1" [x07]).1 = Ok (cconn, [x09]) ∧
    wr_out (raw_out (raw cconn)) = frame m1 ∧ remoteStatic sconn = Public kc ∧
    (enc cconn : nat) = dec sconn ∧ (enc sconn : nat) = dec cconn.
Proof.
  intros kc ka m1 sconn.
  apply (@handshake_agreement Clear.noise Clear.noise_laws kc ka "s1" [x07] [x09]
           (fun k p => if decide (k = [x12] ∧ p = [x07]) then Some [x09] else None)
           (handshakeConfig true kc (Public ka) "s1", Public ka) m1 None
           (handshakeConfig true kc (Public ka) "s1", Public ka) sconn EOF);
    vm_compute; first [reflexivity | discriminate].
Defined.
