(* ===== verification/Envelope.v ===== *)
(** * Signed envelopes (src/internal/types/signed.go, multisigned.go)

    The detached-signature envelope every trust document travels in, and its
    threshold form.  Ed25519 and JSON are the parameters: [ed25519_Verify] is the
    class [Ed25519], the decoder of the payload is an argument of the verifier (a
    nil [out] is the decoder that always succeeds).  The theorems say exactly when
    each verifier accepts, that signatures of one context are never signatures of
    another, and that a threshold counts distinct pinned keys whatever the order
    and the repetitions of the signatures. *)
From Stdlib Require Import ZArith Lia Strings.Byte Strings.Ascii.
From stdpp Require Import base gmap fin_maps fin_sets sets list strings numbers.
From S2P Require Import Prelude.

Local Open Scope Z_scope.

(** ** Parameters: ed25519.Verify on a 32-byte key and a 64-byte signature *)

Class Ed25519 := { ed25519_Verify : bytes → bytes → bytes → bool }.

Definition PublicKeySize : nat := 32.
Definition SignatureSize : nat := 64.

(** [map[string]ed25519.PublicKey]. *)
Abbreviation keyset := (gmap string bytes).

(** ** Envelopes *)

Record Signed := mkSigned { Payload : bytes; Sig : bytes; KeyID : string }.

Record OneSig := mkOneSig { os_KeyID : string; os_Sig : bytes }.

Record MultiSigned := mkMultiSigned { ms_Payload : bytes; Sigs : list OneSig }.

Inductive env_err : Type :=
| ErrNilEnvelope
| ErrUnknownKey (keyID : string)
| ErrBadSignature
| ErrUnmarshal
| ErrMarshal
| ErrSigner
| ErrNotEd25519 (size : nat)
| ErrThreshold (valid want : Z).

#[export] Instance env_err_eq_decision : EqDecision env_err.
Proof. solve_decision. Defined.

Definition signingInput (context : string) (payload : bytes) : bytes :=
  let prefix := bytes_of_string (String.append "geneza:" (String.append context ":")) in
  prefix ++ payload.

(** A [crypto.Signer]: the signature of a message, or an error. *)
Definition signer := bytes → option bytes.

Definition Sign {A : Type} (marshal : A → option bytes) (sg : signer) (keyID context : string)
    (payloadObj : A) : result env_err Signed :=
  match marshal payloadObj with
  | None => Err ErrMarshal
  | Some payload =>
      match sg (signingInput context payload) with
      | None => Err ErrSigner
      | Some sig =>
          if negb (length sig =? SignatureSize)%nat then Err (ErrNotEd25519 (length sig))
          else Ok (mkSigned payload sig keyID)
      end
  end.

Definition SignOne (sg : signer) (keyID context : string) (payload : bytes)
    : result env_err OneSig :=
  match sg (signingInput context payload) with
  | None => Err ErrSigner
  | Some sig =>
      if negb (length sig =? SignatureSize)%nat then Err (ErrNotEd25519 (length sig))
      else Ok (mkOneSig keyID sig)
  end.

Section Verify.
Context `{Ed25519} {A : Type}.

(** [Verify]: the key id that verified, and the decoded payload. *)
Definition Verify (trusted : keyset) (context : string) (s : option Signed)
    (out : bytes → option A) : result env_err (string * A) :=
  match s with
  | None => Err ErrNilEnvelope
  | Some s =>
      match trusted !! KeyID s with
      | None => Err (ErrUnknownKey (KeyID s))
      | Some pub =>
          if negb (length pub =? PublicKeySize)%nat || negb (length (Sig s) =? SignatureSize)%nat
          then Err ErrBadSignature
          else if negb (ed25519_Verify pub (signingInput context (Payload s)) (Sig s))
          then Err ErrBadSignature
          else match out (Payload s) with
               | None => Err ErrUnmarshal
               | Some a => Ok (KeyID s, a)
               end
      end
  end.

Definition VerifyOne (pub : bytes) (keyID context : string) (s : option Signed)
    (out : bytes → option A) : result env_err A :=
  match s with
  | None => Err ErrNilEnvelope
  | Some s =>
      if negb (length pub =? PublicKeySize)%nat || negb (length (Sig s) =? SignatureSize)%nat
      then Err ErrBadSignature
      else if bool_decide (keyID ≠ "") && bool_decide (KeyID s ≠ keyID)
      then Err (ErrUnknownKey (KeyID s))
      else if negb (ed25519_Verify pub (signingInput context (Payload s)) (Sig s))
      then Err ErrBadSignature
      else match out (Payload s) with
           | None => Err ErrUnmarshal
           | Some a => Ok a
           end
  end.

(** The loop of [VerifyMultiSig]: the map [seen] and the counter [valid]. *)
Fixpoint count_valid (trusted : keyset) (input : bytes) (sigs : list OneSig)
    (seen : gset string) (valid : Z) : Z :=
  match sigs with
  | [] => valid
  | one :: rest =>
      if bool_decide (os_KeyID one ∈ seen) then count_valid trusted input rest seen valid
      else
        match trusted !! os_KeyID one with
        | None => count_valid trusted input rest seen valid
        | Some pub =>
            if negb (length pub =? PublicKeySize)%nat
               || negb (length (os_Sig one) =? SignatureSize)%nat
            then count_valid trusted input rest seen valid
            else if negb (ed25519_Verify pub input (os_Sig one))
            then count_valid trusted input rest seen valid
            else count_valid trusted input rest ({[ os_KeyID one ]} ∪ seen) (valid + 1)
        end
  end.

(** [VerifyMultiSig]: the exact payload bytes, and the decoded payload. *)
Definition VerifyMultiSig (trusted : keyset) (threshold : Z) (context : string)
    (s : option MultiSigned) (out : bytes → option A) : result env_err (bytes * A) :=
  match s with
  | None => Err ErrNilEnvelope
  | Some s =>
      let want := if threshold <? 1 then 1 else threshold in
      let input := signingInput context (ms_Payload s) in
      let valid := count_valid trusted input (Sigs s) ∅ 0 in
      if valid <? want then Err (ErrThreshold valid want)
      else match out (ms_Payload s) with
           | None => Err ErrUnmarshal
           | Some a => Ok (ms_Payload s, a)
           end
  end.

(** [types.DecodeSigned] and [types.DecodeMultiSigned]: JSON decoding of the
    envelope itself, by the parameter. *)
Definition DecodeSigned (unmarshal : bytes → option Signed) (b : bytes) : result env_err Signed :=
  of_option ErrUnmarshal (unmarshal b).

Definition DecodeMultiSigned (unmarshal : bytes → option MultiSigned) (b : bytes)
    : result env_err MultiSigned :=
  of_option ErrUnmarshal (unmarshal b).

(** ** Reference definitions *)

(** One signature of an envelope is good for a message: by a pinned key, of the
    right sizes, and accepted by Ed25519. *)
Definition good_sig (trusted : keyset) (input : bytes) (one : OneSig) : bool :=
  match trusted !! os_KeyID one with
  | None => false
  | Some pub => (length pub =? PublicKeySize)%nat && (length (os_Sig one) =? SignatureSize)%nat
                && ed25519_Verify pub input (os_Sig one)
  end.

(** The set of the key ids that contributed a good signature. *)
Definition valid_signers (trusted : keyset) (input : bytes) (sigs : list OneSig) : gset string :=
  list_to_set (os_KeyID <$> filter (λ one, good_sig trusted input one = true) sigs).

End Verify.

(** ** Lemmas *)

Section Lemmas.
Context `{Ed25519} {A : Type}.

Lemma Verify_Ok (trusted : keyset) (context : string) (s : option Signed)
    (out : bytes → option A) (k : string) (a : A) :
  Verify trusted context s out = Ok (k, a) ↔
  ∃ env pub, s = Some env ∧ k = KeyID env ∧ trusted !! k = Some pub ∧
    length pub = PublicKeySize ∧ length (Sig env) = SignatureSize ∧
    ed25519_Verify pub (signingInput context (Payload env)) (Sig env) = true ∧
    out (Payload env) = Some a.
Proof.
  unfold Verify. split.
  - intros H0. destruct s as [env|]; [|done]. destruct (trusted !! KeyID env) as [pub|] eqn:Ht; [|done].
    destruct (length pub =? PublicKeySize)%nat eqn:E1; [|done].
    destruct (length (Sig env) =? SignatureSize)%nat eqn:E2; [|done]. simpl in H0.
    destruct (ed25519_Verify _ _ _) eqn:E3; [|done]. simpl in H0.
    destruct (out (Payload env)) eqn:E4; simplify_eq.
    apply Nat.eqb_eq in E1, E2. eauto 10.
  - intros (env & pub & -> & -> & -> & -> & -> & -> & ->). by rewrite !Nat.eqb_refl.
Qed.

Lemma VerifyOne_Ok (pub : bytes) (keyID context : string) (s : option Signed)
    (out : bytes → option A) (a : A) :
  VerifyOne pub keyID context s out = Ok a ↔
  ∃ env, s = Some env ∧ length pub = PublicKeySize ∧ length (Sig env) = SignatureSize ∧
    (keyID = "" ∨ KeyID env = keyID) ∧
    ed25519_Verify pub (signingInput context (Payload env)) (Sig env) = true ∧
    out (Payload env) = Some a.
Proof.
  unfold VerifyOne. destruct s as [env|]; [|naive_solver].
  destruct (Nat.eqb_spec (length pub) PublicKeySize); [|naive_solver].
  destruct (Nat.eqb_spec (length (Sig env)) SignatureSize); [|naive_solver]. simpl.
  destruct (decide (keyID = "")), (decide (KeyID env = keyID));
    do 2 case_bool_decide; try done; simpl; repeat case_match; go_bool;
    first [naive_solver | split; [done|intros (? & ? & ?); simplify_eq; naive_solver congruence]].
Qed.

Lemma valid_signers_cons (trusted : keyset) (input : bytes) (one : OneSig) (sigs : list OneSig) :
  valid_signers trusted input (one :: sigs) =
    (if good_sig trusted input one then {[ os_KeyID one ]} else ∅)
      ∪ valid_signers trusted input sigs.
Proof.
  unfold valid_signers. rewrite filter_cons. destruct (good_sig trusted input one) eqn:E.
  - rewrite decide_True by done. by rewrite fmap_cons.
  - rewrite decide_False by congruence. set_solver.
Qed.

Lemma elem_of_valid_signers (trusted : keyset) (input : bytes) (sigs : list OneSig) (k : string) :
  k ∈ valid_signers trusted input sigs ↔
  ∃ one, one ∈ sigs ∧ os_KeyID one = k ∧ good_sig trusted input one = true.
Proof.
  unfold valid_signers. rewrite elem_of_list_to_set, list_elem_of_fmap.
  setoid_rewrite list_elem_of_filter. naive_solver.
Qed.

(** The loop counts the good signers that were not seen before it. *)
Lemma count_valid_size (trusted : keyset) (input : bytes) (sigs : list OneSig)
    (seen : gset string) (valid : Z) :
  count_valid trusted input sigs seen valid
    = valid + Z.of_nat (size (valid_signers trusted input sigs ∖ seen)).
Proof.
  revert seen valid. induction sigs as [|one sigs IH]; intros seen valid.
  - assert (valid_signers trusted input [] ∖ seen = ∅) as -> by (unfold valid_signers; set_solver).
    rewrite size_empty. simpl. lia.
  - simpl. rewrite valid_signers_cons. unfold good_sig.
    case_bool_decide as Hseen.
    { rewrite IH. f_equal. f_equal. f_equal. case_match; set_solver. }
    destruct (trusted !! os_KeyID one) as [pub|] eqn:Ht; [|by rewrite IH, union_empty_l_L].
    destruct (length pub =? PublicKeySize)%nat, (length (os_Sig one) =? SignatureSize)%nat; simpl;
      try by rewrite IH, union_empty_l_L.
    destruct (ed25519_Verify pub input (os_Sig one)); simpl; [|by rewrite IH, union_empty_l_L].
    rewrite IH.
    assert (({[os_KeyID one]} ∪ valid_signers trusted input sigs) ∖ seen
            = {[os_KeyID one]} ∪ (valid_signers trusted input sigs ∖ ({[os_KeyID one]} ∪ seen))) as ->.
    { apply set_eq. intros x. destruct (decide (x = os_KeyID one)); set_solver. }
    rewrite (size_union {[os_KeyID one]}), size_singleton by set_solver. lia.
Qed.

Lemma VerifyMultiSig_Ok (trusted : keyset) (threshold : Z) (context : string)
    (s : option MultiSigned) (out : bytes → option A) (payload : bytes) (a : A) :
  VerifyMultiSig trusted threshold context s out = Ok (payload, a) ↔
  ∃ env, s = Some env ∧ payload = ms_Payload env ∧ out payload = Some a ∧
    Z.max 1 threshold
      ≤ Z.of_nat (size (valid_signers trusted (signingInput context payload) (Sigs env))).
Proof.
  unfold VerifyMultiSig. destruct s as [env|]; [|naive_solver].
  rewrite count_valid_size, difference_empty_L, Z.add_0_l.
  assert ((if threshold <? 1 then 1 else threshold) = Z.max 1 threshold) as ->
    by (destruct (Z.ltb_spec threshold 1); lia).
  destruct (Z.ltb_spec (Z.of_nat (size (valid_signers trusted (signingInput context (ms_Payload env)) (Sigs env)))) (Z.max 1 threshold)).
  - split; [done|]. intros (? & [= <-] & -> & ? & ?). lia.
  - destruct (out (ms_Payload env)) eqn:E; naive_solver.
Qed.

End Lemmas.

Lemma signingInput_inj (c1 c2 : string) (p1 p2 : bytes) :
  has_char ":"%char c1 = false → has_char ":"%char c2 = false →
  signingInput c1 p1 = signingInput c2 p2 → c1 = c2 ∧ p1 = p2.
Proof.
  intros H1 H2 E. unfold signingInput in E.
  rewrite <- (String.list_byte_of_string_of_list_byte p1), <- (String.list_byte_of_string_of_list_byte p2) in E.
  fold (bytes_of_string (String.string_of_list_byte p1)) in E.
  fold (bytes_of_string (String.string_of_list_byte p2)) in E.
  rewrite <- !bytes_of_string_app in E. apply (inj bytes_of_string) in E.
  simpl in E. simplify_eq. rewrite !append_assoc in E. simpl in E.
  apply append_sep_inj in E as [-> E]; [|done..].
  split; [done|]. rewrite <- (String.list_byte_of_string_of_list_byte p1), E.
  apply String.list_byte_of_string_of_list_byte.
Qed.

#[export] Hint Rewrite @Verify_Ok @VerifyOne_Ok @VerifyMultiSig_Ok : geneza.

(** ** A checkable stand-in for Ed25519

    The signature of a message is a function of the key and the message; enough to
    evaluate the theorems at concrete envelopes. *)
Module ToyEd25519.

Definition sign (pub m : bytes) : bytes := take 64 (pub ++ m ++ replicate 64 x00).

#[export] Instance toy : Ed25519 :=
  {| ed25519_Verify pub m sig := bool_decide (sig = sign pub m) |}.

Definition key (b : byte) : bytes := replicate 32 b.
Definition signed_by (b : byte) (keyID context : string) (payload : bytes) : Signed :=
  mkSigned payload (sign (key b) (signingInput context payload)) keyID.
Definition onesig_by (b : byte) (keyID context : string) (payload : bytes) : OneSig :=
  mkOneSig keyID (sign (key b) (signingInput context payload)).

End ToyEd25519.

(** ** Theorems *)

(** [signed.go, Sign and Verify] What a trusted signer signed under a context
    verifies under that context.  [Sign] succeeds, and [Verify] with a key set
    that maps the signer's id to its public key returns that id and the object
    that was signed. *)
Theorem sign_verify `{Ed25519} {A : Type} (marshal : A → option bytes) (unmarshal : bytes → option A)
    (sg : signer) (pub : bytes) (trusted : keyset) (keyID context : string) (obj : A) (b : bytes) :
  marshal obj = Some b → unmarshal b = Some obj →
  (∀ m, ∃ sig, sg m = Some sig ∧ length sig = SignatureSize ∧ ed25519_Verify pub m sig = true) →
  length pub = PublicKeySize → trusted !! keyID = Some pub →
  ∃ s, Sign marshal sg keyID context obj = Ok s ∧
       Verify trusted context (Some s) unmarshal = Ok (keyID, obj).
Proof.
  intros Hm Hu Hsg Hp Ht. unfold Sign. rewrite Hm.
  destruct (Hsg (signingInput context b)) as (sig & -> & Hl & Hv). rewrite Hl, Nat.eqb_refl. cbn [negb].
  eexists. split; [done|]. apply Verify_Ok. by exists (mkSigned b sig keyID), pub.
Qed.

(** [signed.go, signingInput] Contexts separate domains.  If a key's signatures
    verify only messages it signed, each under some context, then an envelope
    accepted under a context carries a payload that key signed under that very
    context: a grant is never accepted as a cluster config, a routine map never as
    trust anchors.  (The contexts of the sources contain no colon.) *)
Theorem context_separation `{Ed25519} {A : Type} (trusted : keyset) (context : string)
    (env : Signed) (out : bytes → option A) (k : string) (a : A)
    (log : bytes → list (string * bytes)) :
  (∀ pub m sig, ed25519_Verify pub m sig = true →
     ∃ c p, (c, p) ∈ log pub ∧ m = signingInput c p) →
  (∀ pub c p, (c, p) ∈ log pub → has_char ":"%char c = false) →
  has_char ":"%char context = false →
  Verify trusted context (Some env) out = Ok (k, a) →
  ∃ pub, trusted !! k = Some pub ∧ (context, Payload env) ∈ log pub.
Proof.
  intros Hunf Hlog Hc HV. apply Verify_Ok in HV as (env' & pub & [= <-] & -> & Ht & _ & _ & Hv & _).
  exists pub. split; [done|]. destruct (Hunf _ _ _ Hv) as (c & p & Hin & E).
  apply signingInput_inj in E as [-> ->]; eauto.
Qed.

(** [multisigned.go, VerifyMultiSig] The threshold counts distinct pinned
    signers.  An envelope is accepted exactly if its payload decodes and there are
    at least [max 1 threshold] different pinned key ids each with a signature in
    the envelope that verifies over the payload under the context; the order of
    the signatures and repeated key ids make no difference. *)
Theorem VerifyMultiSig_quorum `{Ed25519} {A : Type} (trusted : keyset) (threshold : Z)
    (context : string) (env : MultiSigned) (out : bytes → option A) (payload : bytes) (a : A) :
  VerifyMultiSig trusted threshold context (Some env) out = Ok (payload, a) ↔
  payload = ms_Payload env ∧ out payload = Some a ∧
  ∃ ks : list string,
    NoDup ks ∧ Z.max 1 threshold ≤ Z.of_nat (length ks) ∧
    Forall (λ k, ∃ pub one, trusted !! k = Some pub ∧ one ∈ Sigs env ∧ os_KeyID one = k ∧
      length pub = PublicKeySize ∧ length (os_Sig one) = SignatureSize ∧
      ed25519_Verify pub (signingInput context payload) (os_Sig one) = true) ks.
Proof.
  rewrite VerifyMultiSig_Ok. split.
  - intros (? & [= <-] & -> & Ho & Hsz). split; [done|]. split; [done|].
    exists (elements (valid_signers trusted (signingInput context (ms_Payload env)) (Sigs env))).
    split; [apply NoDup_elements|]. split; [done|].
    apply list.Forall_forall. intros k Hk. apply elem_of_elements, elem_of_valid_signers in Hk.
    destruct Hk as (one & Hin & <- & Hg). unfold good_sig in Hg.
    destruct (trusted !! os_KeyID one) as [pub|]; [|done]. go_bool.
    exists pub, one. rewrite Nat.eqb_eq in *. auto 10.
  - intros (-> & Ho & ks & Hnd & Hlen & Hall). exists env. split_and!; [done..|].
    etrans; [exact Hlen|]. apply Nat2Z.inj_le. rewrite <- (size_list_to_set (C := gset string) ks Hnd).
    apply subseteq_size. intros k Hk. apply elem_of_list_to_set in Hk.
    rewrite list.Forall_forall in Hall. destruct (Hall k Hk) as (pub & one & Ht & Hin & Hid & Hp & Hs & Hv).
    apply elem_of_valid_signers. exists one. split_and!; [done..|].
    unfold good_sig. rewrite Hid, Ht, Hp, Hs, Hv. done.
Qed.

Local Existing Instance ToyEd25519.toy.

Lemma sign_verify_witness :
  let k := ToyEd25519.key x07 in
  ∃ s, Sign Some (fun m => Some (ToyEd25519.sign k m)) "k1" "grant" [x01; x02] = Ok s ∧
       Verify {[ "k1" := k ]} "grant" (Some s) Some = Ok ("k1", [x01; x02]).
Proof.
  apply (sign_verify Some Some (fun m => Some (ToyEd25519.sign (ToyEd25519.key x07) m))
           (ToyEd25519.key x07) {[ "k1" := ToyEd25519.key x07 ]} "k1" "grant" [x01; x02] [x01; x02]).
  - reflexivity.
  - reflexivity.
  - intros m. eexists. split; [reflexivity|]. split.
    + unfold ToyEd25519.sign. rewrite length_take, !length_app, !length_replicate. unfold SignatureSize. lia.
    + by apply bool_decide_eq_true_2.
  - vm_compute. reflexivity.
  - vm_compute. reflexivity.
Defined.

(** A signature accepts one message of one key: the signer signed one grant. *)
Definition once : Ed25519 :=
  {| ed25519_Verify pub m sig := bool_decide (pub = ToyEd25519.key x07) &&
                                 bool_decide (m = signingInput "grant" [x01]) |}.

Lemma context_separation_witness :
  ∃ pub, ({[ "k1" := ToyEd25519.key x07 ]} : keyset) !! "k1" = Some pub ∧
    ("grant", [x01]) ∈ (if decide (pub = ToyEd25519.key x07) then [("grant", [x01])] else []).
Proof.
  apply (@context_separation once bytes {[ "k1" := ToyEd25519.key x07 ]} "grant"
           (mkSigned [x01] (replicate 64 x00) "k1") Some "k1" [x01]
           (fun pub => if decide (pub = ToyEd25519.key x07) then [("grant", [x01])] else [])).
  - intros pub m sig Hv. apply andb_true_iff in Hv as [Hv1 Hv2].
    apply bool_decide_eq_true_1 in Hv1, Hv2. subst. exists "grant", [x01].
    split; [|done]. rewrite decide_True by done. by apply list_elem_of_singleton.
  - intros pub c p. case_decide; [|by intros ?%not_elem_of_nil].
    intros Hin%list_elem_of_singleton. by simplify_eq.
  - vm_compute. reflexivity.
  - vm_compute. reflexivity.
Defined.
