(* ===== verification/Trust.v ===== *)
(** * Trust documents (src/internal/types/cluster.go, trustanchors.go, rootkeys.go,
      manifest.go)

    The documents that say who is trusted and the verifiers of their chains: the
    legacy cluster config, the split pair of trust anchors and routine map, and the
    artifact chain of root keys and release manifest.  JSON decoding and SHA-256
    are parameters.  The theorems say exactly what an accepted document proves of
    its signers, its versions and its binding, that fewer signers than the
    threshold never get anchors accepted, and that the fleet helpers (failover
    order, audit key ids) do what their comments say. *)
From Stdlib Require Import ZArith Lia Strings.Byte Strings.Ascii.
From stdpp Require Import base gmap fin_maps fin_sets sets list strings numbers sorting.
From S2P Require Import Prelude Envelope.

Local Open Scope Z_scope.

(** ** Parameters *)

(** [json.Unmarshal] into a document type. *)
Class JSONDecode (A : Type) := Unmarshal : bytes → option A.

Class Sha256 := sha256 : bytes → bytes.

(** ** Documents *)

Record GrantKey := mkGrantKey {
  gk_KeyID : string; gk_PublicKey : bytes; Workspaces : list string }.

Record TrustKey := mkTrustKey { tk_KeyID : string; tk_PublicKey : bytes }.

Record AgentPolicy := mkAgentPolicy {
  ForbidDetach : bool; MaxSessions : Z; MaxDetached : Z;
  RingBufferBytes : Z; DetachedTTLSec : Z; IdleReapSec : Z }.

Record RelayNode := mkRelayNode {
  RegionID : string; RelayID : string; rn_Addrs : list string;
  STUNPort : Z; TURNPort : Z; RelayCertPub : bytes;
  ControlMux : bool; ControlAddr : string; Draining : bool }.

Record ControllerEndpoint := mkControllerEndpoint {
  ControllerID : string; ce_Addrs : list string; ce_RegionID : string;
  ControlAddrs : list string }.

Record ClusterConfig := mkClusterConfig {
  ConfigVersion : Z;
  CARootsPEM : bytes;
  GrantKeys : list GrantKey;
  cc_AgentPolicy : AgentPolicy;
  RelayAddrs : list string;
  Relays : list RelayNode;
  ControllerEndpoints : list ControllerEndpoint;
  TrustKeys : list TrustKey;
  AuditRecipient : string;
  AuditRecipients : list string }.

Record TrustAnchors := mkTrustAnchors {
  AnchorVersion : Z;
  ta_GrantKeys : list GrantKey;
  ta_CARootsPEM : bytes;
  ta_AgentPolicy : AgentPolicy;
  ta_AuditRecipient : string;
  ta_AuditRecipients : list string;
  ta_TrustKeys : list TrustKey;
  Threshold : Z;
  ta_ExpiresAt : Z }.

Record RoutineMap := mkRoutineMap {
  rm_ConfigVersion : Z;
  rm_AnchorVersion : Z;
  AnchorDigest : bytes;
  rm_RelayAddrs : list string;
  rm_Relays : list RelayNode;
  rm_ControllerEndpoints : list ControllerEndpoint }.

Record FleetState := mkFleetState {
  Anchors : TrustAnchors; Map : RoutineMap; AnchorPayload : bytes }.

Record ArtifactKey := mkArtifactKey { ak_KeyID : string; ak_PublicKey : bytes }.

Record RootKeys := mkRootKeys {
  rk_Version : Z; Keys : list ArtifactKey; rk_ExpiresAt : Z }.

Record Manifest := mkManifest {
  Product : string; m_Version : string; OS : string; Arch : string;
  SHA256 : string; Size : Z; CreatedAt : Z }.

Inductive trust_err : Type :=
| TrustEnv (e : env_err)
| BadKeySize (keyID : string)
| NoKeys
| Rollback (got have : Z)
| Expired
| AnchorMismatch (map_v anchors_v : Z)
| DigestMismatch
| BlobSize (got want : Z)
| BlobHash
| BlobRead.

(** ** Key sets *)

(** The loop every key-set builder runs: a key of the wrong size is an error, a
    later entry of the same id replaces an earlier one. *)
Fixpoint collect_keys {K : Type} (id : K → string) (pub : K → bytes) (keys : list K)
    (m : keyset) : result trust_err keyset :=
  match keys with
  | [] => Ok m
  | k :: rest =>
      if negb (length (pub k) =? PublicKeySize)%nat then Err (BadKeySize (id k))
      else collect_keys id pub rest (<[id k := pub k]> m)
  end.

Definition TrustedKeys (c : ClusterConfig) : result trust_err keyset :=
  collect_keys gk_KeyID gk_PublicKey (GrantKeys c) ∅.

Definition TrustedConfigKeys (c : ClusterConfig) : result trust_err keyset :=
  if (length (TrustKeys c) =? 0)%nat then TrustedKeys c
  else collect_keys tk_KeyID tk_PublicKey (TrustKeys c) ∅.

Definition TrustedGrantKeys (a : TrustAnchors) : result trust_err keyset :=
  match collect_keys gk_KeyID gk_PublicKey (ta_GrantKeys a) ∅ with
  | Err e => Err e
  | Ok m => if (size m =? 0)%nat then Err NoKeys else Ok m
  end.

Definition PinnedTrustKeys (a : TrustAnchors) : result trust_err keyset :=
  match collect_keys tk_KeyID tk_PublicKey (ta_TrustKeys a) ∅ with
  | Err e => Err e
  | Ok m => if (size m =? 0)%nat then Err NoKeys else Ok m
  end.

Definition SigningKeys (r : RootKeys) : result trust_err keyset :=
  match collect_keys ak_KeyID ak_PublicKey (Keys r) ∅ with
  | Err e => Err e
  | Ok m => if (size m =? 0)%nat then Err NoKeys else Ok m
  end.

(** [KeyScopes] of the cluster config and of the anchors. *)
Definition scopes_of (keys : list GrantKey) : gmap string (list string) :=
  fold_left (λ m k, <[gk_KeyID k := Workspaces k]> m) keys ∅.

Definition KeyScopes (c : ClusterConfig) : gmap string (list string) := scopes_of (GrantKeys c).
Definition ta_KeyScopes (a : TrustAnchors) : gmap string (list string) := scopes_of (ta_GrantKeys a).

Fixpoint scope_lists (scope : list string) (ws : string) : bool :=
  match scope with
  | [] => false
  | s :: rest => if bool_decide (s = ws) then true else scope_lists rest ws
  end.

Definition WorkspaceInScope (scope : list string) (ws : string) : bool :=
  if (length scope =? 0)%nat then true else scope_lists scope ws.

(** ** Fleet helpers *)

Definition effectiveAuditRecipients (single : string) (recipients : list string) : list string :=
  if (0 <? length recipients)%nat then filter (λ r, r ≠ "") recipients
  else if bool_decide (single ≠ "") then [single]
  else [].

(** [strings.Join(xs, newline)]. *)
Definition newline : string := String (ascii_of_nat 10) EmptyString.
Fixpoint join_lines (xs : list string) : string :=
  match xs with
  | [] => ""
  | [x] => x
  | x :: rest => String.append x (String.append newline (join_lines rest))
  end.

Definition AuditKeyID `{Sha256} (recipients : list string) : string :=
  match recipients with
  | [] => ""
  | [r] => String.append "age-sha256:" (hex_encode (take 8 (sha256 (bytes_of_string r))))
  | _ =>
      let sorted := merge_sort String.le recipients in
      String.append "age-set-sha256:"
        (hex_encode (take 8 (sha256 (bytes_of_string (join_lines sorted)))))
  end.

Section Failover.
(** Whether an address is a literal IP with a port ([net.SplitHostPort] and
    [net.ParseIP]). *)
Context (isIP : string → bool).

Fixpoint ip_first_loop (addrs ips names : list string) : list string :=
  match addrs with
  | [] => ips ++ names
  | a :: rest =>
      if isIP a then ip_first_loop rest (ips ++ [a]) names
      else ip_first_loop rest ips (names ++ [a])
  end.

Definition ipFirstAddrs (addrs : list string) : list string := ip_first_loop addrs [] [].

Definition failover_cols (gws : list ControllerEndpoint) (control : bool) : list (list string) :=
  (λ gw, ipFirstAddrs
           (if control && (0 <? length (ControlAddrs gw))%nat then ControlAddrs gw else ce_Addrs gw))
    <$> gws.

Definition maxLen (cols : list (list string)) : nat := foldr (λ c n, Nat.max (length c) n) 0%nat cols.

(** Round [i] of the interleaving: address [i] of each controller that has one. *)
Definition failover_round (cols : list (list string)) (i : nat) : list string :=
  omap (λ col : list string, col !! i) cols.

Definition FailoverAddrs (gws : list ControllerEndpoint) (control : bool) : list string :=
  let cols := failover_cols gws control in
  concat (failover_round cols <$> seq 0 (maxLen cols)).

End Failover.

Fixpoint find_relay (rs : list RelayNode) (relayID : string) : option RelayNode :=
  match rs with
  | [] => None
  | r :: rest => if bool_decide (RelayID r = relayID) then Some r else find_relay rest relayID
  end.

Definition RelayByID (c : ClusterConfig) (relayID : string) : option RelayNode :=
  find_relay (Relays c) relayID.

Definition RelaysByRegion (c : ClusterConfig) : gmap string (list RelayNode) :=
  fold_left (λ m r, <[RegionID r := (m !!! RegionID r) ++ [r]]> m) (Relays c) ∅.

(** ** Verifiers *)

Fixpoint bytesEqual_loop (a b : bytes) : bool :=
  match a, b with
  | x :: a', y :: b' => if negb (bool_decide (x = y)) then false else bytesEqual_loop a' b'
  | _, _ => true
  end.

Definition bytesEqual (a b : bytes) : bool :=
  if negb (length a =? length b)%nat then false else bytesEqual_loop a b.

Definition contextClusterConfig : string := "cluster-config".
Definition contextRootKeys : string := "artifact-root".
Definition contextManifestForChain : string := "artifact-manifest".
Definition contextTrustAnchors : string := "trust-anchors".
Definition contextRoutineMap : string := "routine-map".

Section Verifiers.
Context `{Ed25519, Sha256} `{JSONDecode ClusterConfig, JSONDecode TrustAnchors,
  JSONDecode RoutineMap, JSONDecode RootKeys, JSONDecode Manifest}.

Definition VerifyClusterConfig (trusted : keyset) (s : option Signed) (currentVersion : Z)
    : result trust_err ClusterConfig :=
  match Verify trusted contextClusterConfig s Unmarshal with
  | Err e => Err (TrustEnv e)
  | Ok (_, c) =>
      if ConfigVersion c <? currentVersion then Err (Rollback (ConfigVersion c) currentVersion)
      else Ok c
  end.

Definition VerifyRootKeys (rootTrusted : keyset) (s : option Signed) (currentVersion now : Z)
    : result trust_err RootKeys :=
  match Verify rootTrusted contextRootKeys s Unmarshal with
  | Err e => Err (TrustEnv e)
  | Ok (_, r) =>
      if rk_Version r <? currentVersion then Err (Rollback (rk_Version r) currentVersion)
      else if negb (IsZero (rk_ExpiresAt r)) && After now (rk_ExpiresAt r) then Err Expired
      else Ok r
  end.

Definition VerifyArtifactChain (rootTrusted : keyset) (rootKeys manifest : option Signed)
    (rootVersion now : Z) : result trust_err (RootKeys * Manifest) :=
  match VerifyRootKeys rootTrusted rootKeys rootVersion now with
  | Err e => Err e
  | Ok rk =>
      match SigningKeys rk with
      | Err e => Err e
      | Ok signers =>
          match Verify signers contextManifestForChain manifest Unmarshal with
          | Err e => Err (TrustEnv e)
          | Ok (_, m) => Ok (rk, m)
          end
      end
  end.

Definition AnchorDigestOf (anchorPayload : bytes) : bytes := sha256 anchorPayload.

Definition VerifyFleetState (pinnedTrustKeys : keyset) (pinnedThreshold : Z)
    (heldAnchorVersion heldConfigVersion : Z) (anchorEnv : option MultiSigned)
    (mapEnv : option Signed) (now : Z) : result trust_err FleetState :=
  match VerifyMultiSig pinnedTrustKeys pinnedThreshold contextTrustAnchors anchorEnv Unmarshal with
  | Err e => Err (TrustEnv e)
  | Ok (anchorPayload, anchors) =>
      if AnchorVersion anchors <? heldAnchorVersion
      then Err (Rollback (AnchorVersion anchors) heldAnchorVersion)
      else if negb (IsZero (ta_ExpiresAt anchors)) && After now (ta_ExpiresAt anchors)
      then Err Expired
      else
        match TrustedGrantKeys anchors with
        | Err e => Err e
        | Ok grantKeys =>
            match Verify grantKeys contextRoutineMap mapEnv Unmarshal with
            | Err e => Err (TrustEnv e)
            | Ok (_, rm) =>
                if rm_ConfigVersion rm <? heldConfigVersion
                then Err (Rollback (rm_ConfigVersion rm) heldConfigVersion)
                else if negb (rm_AnchorVersion rm =? AnchorVersion anchors)
                then Err (AnchorMismatch (rm_AnchorVersion rm) (AnchorVersion anchors))
                else if negb (bytesEqual (AnchorDigest rm) (AnchorDigestOf anchorPayload))
                then Err DigestMismatch
                else Ok (mkFleetState anchors rm anchorPayload)
            end
        end
  end.

(** [VerifyBlob]: the reader's content, or [None] for a read error. *)
Definition VerifyBlob (m : Manifest) (r : option bytes) : option trust_err :=
  match r with
  | None => Some BlobRead
  | Some blob =>
      let n := Z.of_nat (length blob) in
      if negb (n =? Size m) then Some (BlobSize n (Size m))
      else if negb (bool_decide (hex_encode (sha256 blob) = SHA256 m)) then Some BlobHash
      else None
  end.

End Verifiers.

Definition BlobPath (m : Manifest) : string := String.append "/v1/artifacts/" (SHA256 m).

(** ** Lemmas *)

Lemma collect_keys_Ok {K : Type} (id : K → string) (pub : K → bytes) (keys : list K)
    (m m' : keyset) (k : string) (p : bytes) :
  collect_keys id pub keys m = Ok m' → m' !! k = Some p →
  m !! k = Some p ∨ ∃ key, key ∈ keys ∧ id key = k ∧ pub key = p ∧ length p = PublicKeySize.
Proof.
  revert m. induction keys as [|key keys IH]; intros m Hc Hk; simpl in Hc; [simplify_eq; auto|].
  destruct (Nat.eqb_spec (length (pub key)) PublicKeySize) as [Hl|]; [|done]. simpl in Hc.
  destruct (IH _ Hc Hk) as [Hm|(key' & ? & ? & ? & ?)].
  - rewrite lookup_insert_Some in Hm. destruct Hm as [[<- <-]|[_ Hm]]; [right|by left].
    exists key. split_and!; [by left|done..].
  - right. exists key'. split_and!; [by right|done..].
Qed.

Lemma collect_keys_empty {K : Type} (id : K → string) (pub : K → bytes) (keys : list K)
    (m : keyset) (k : string) (p : bytes) :
  collect_keys id pub keys ∅ = Ok m → m !! k = Some p →
  ∃ key, key ∈ keys ∧ id key = k ∧ pub key = p ∧ length p = PublicKeySize.
Proof.
  intros Hc Hk. destruct (collect_keys_Ok id pub keys ∅ m k p Hc Hk) as [Hm|?]; [|done].
  by rewrite lookup_empty in Hm.
Qed.

Lemma bytesEqual_spec (a b : bytes) : bytesEqual a b = true ↔ a = b.
Proof.
  unfold bytesEqual. destruct (Nat.eqb_spec (length a) (length b)) as [Hl|Hl]; simpl; [|naive_solver].
  revert b Hl. induction a as [|x a IH]; intros [|y b] Hl; try done. simpl in Hl |- *.
  destruct (bool_decide_reflect (x = y)) as [->|]; simpl; [|naive_solver].
  rewrite IH by lia. naive_solver.
Qed.

Lemma TrustedGrantKeys_Ok (a : TrustAnchors) (m : keyset) (k : string) (p : bytes) :
  TrustedGrantKeys a = Ok m → m !! k = Some p →
  ∃ gk, gk ∈ ta_GrantKeys a ∧ gk_KeyID gk = k ∧ gk_PublicKey gk = p.
Proof.
  unfold TrustedGrantKeys. intros Hm Hk.
  destruct (collect_keys _ _ _ _) as [m'|] eqn:Hc; [|done]. case_match; simplify_eq.
  destruct (collect_keys_empty _ _ _ _ _ _ Hc Hk) as (gk & ? & ? & ? & _). eauto.
Qed.

Lemma PinnedTrustKeys_Ok (a : TrustAnchors) (m : keyset) (k : string) (p : bytes) :
  PinnedTrustKeys a = Ok m → m !! k = Some p →
  ∃ tk, tk ∈ ta_TrustKeys a ∧ tk_KeyID tk = k ∧ tk_PublicKey tk = p.
Proof.
  unfold PinnedTrustKeys. intros Hm Hk.
  destruct (collect_keys _ _ _ _) as [m'|] eqn:Hc; [|done]. case_match; simplify_eq.
  destruct (collect_keys_empty _ _ _ _ _ _ Hc Hk) as (tk & ? & ? & ? & _). eauto.
Qed.

Lemma SigningKeys_Ok (r : RootKeys) (m : keyset) (k : string) (p : bytes) :
  SigningKeys r = Ok m → m !! k = Some p →
  ∃ ak, ak ∈ Keys r ∧ ak_KeyID ak = k ∧ ak_PublicKey ak = p.
Proof.
  unfold SigningKeys. intros Hm Hk.
  destruct (collect_keys _ _ _ _) as [m'|] eqn:Hc; [|done]. case_match; simplify_eq.
  destruct (collect_keys_empty _ _ _ _ _ _ Hc Hk) as (ak & ? & ? & ? & _). eauto.
Qed.

(** A document is within its validity: no expiry, or not past it. *)
Definition not_expired (expires now : Z) : Prop := expires = time_zero ∨ now ≤ expires.

Lemma expiry_check (expires now : Z) :
  negb (IsZero expires) && After now expires = false ↔ not_expired expires now.
Proof.
  unfold IsZero, After, not_expired. destruct (bool_decide_reflect (expires = time_zero)); simpl.
  - naive_solver.
  - rewrite Z.ltb_ge. naive_solver.
Qed.

Section VerifierLemmas.
Context `{Ed25519, Sha256} `{JSONDecode ClusterConfig, JSONDecode TrustAnchors,
  JSONDecode RoutineMap, JSONDecode RootKeys, JSONDecode Manifest}.

Lemma VerifyClusterConfig_Ok (trusted : keyset) (s : option Signed) (v : Z) (c : ClusterConfig) :
  VerifyClusterConfig trusted s v = Ok c ↔
  v ≤ ConfigVersion c ∧ ∃ k, Verify trusted contextClusterConfig s Unmarshal = Ok (k, c).
Proof.
  unfold VerifyClusterConfig. destruct (Verify _ _ _ _) as [[k c']|]; [|naive_solver].
  destruct (Z.ltb_spec (ConfigVersion c') v); naive_solver lia.
Qed.

Lemma VerifyRootKeys_Ok (trusted : keyset) (s : option Signed) (v now : Z) (r : RootKeys) :
  VerifyRootKeys trusted s v now = Ok r ↔
  v ≤ rk_Version r ∧ not_expired (rk_ExpiresAt r) now ∧
  ∃ k, Verify trusted contextRootKeys s Unmarshal = Ok (k, r).
Proof.
  unfold VerifyRootKeys. destruct (Verify _ _ _ _) as [[k r']|]; [|naive_solver].
  destruct (Z.ltb_spec (rk_Version r') v); [naive_solver lia|].
  destruct (negb _ && _) eqn:E.
  - split; [done|]. intros (_ & Hne & k' & [= <- <-]). apply expiry_check in Hne. congruence.
  - apply expiry_check in E. naive_solver.
Qed.

Lemma VerifyFleetState_Ok (pinned : keyset) (threshold av cv : Z) (ae : option MultiSigned)
    (me : option Signed) (now : Z) (fs : FleetState) :
  VerifyFleetState pinned threshold av cv ae me now = Ok fs ↔
  VerifyMultiSig pinned threshold contextTrustAnchors ae Unmarshal
    = Ok (AnchorPayload fs, Anchors fs) ∧
  av ≤ AnchorVersion (Anchors fs) ∧ not_expired (ta_ExpiresAt (Anchors fs)) now ∧
  (∃ gks k, TrustedGrantKeys (Anchors fs) = Ok gks ∧
            Verify gks contextRoutineMap me Unmarshal = Ok (k, Map fs)) ∧
  cv ≤ rm_ConfigVersion (Map fs) ∧ rm_AnchorVersion (Map fs) = AnchorVersion (Anchors fs) ∧
  AnchorDigest (Map fs) = sha256 (AnchorPayload fs).
Proof.
  unfold VerifyFleetState, AnchorDigestOf. split.
  - intros HV. destruct (VerifyMultiSig _ _ _ _ _) as [[pl a]|]; [|done].
    destruct (Z.ltb_spec (AnchorVersion a) av); [done|].
    destruct (negb _ && _) eqn:He; [done|]. apply expiry_check in He.
    destruct (TrustedGrantKeys a) as [gks|] eqn:Hg; [|done].
    destruct (Verify gks _ _ _) as [[k rm]|] eqn:Hv; [|done].
    destruct (Z.ltb_spec (rm_ConfigVersion rm) cv); [done|].
    destruct (Z.eqb_spec (rm_AnchorVersion rm) (AnchorVersion a)); [|done].
    destruct (bytesEqual _ _) eqn:Hb; [|done]. apply bytesEqual_spec in Hb.
    simplify_eq/=. eauto 10.
  - destruct fs as [a rm pl]. simpl. intros (-> & Hav & He & (gks & k & Hg & Hv) & Hcv & Hbind & Hd).
    destruct (Z.ltb_spec (AnchorVersion a) av); [lia|].
    apply expiry_check in He. rewrite He, Hg, Hv.
    destruct (Z.ltb_spec (rm_ConfigVersion rm) cv); [lia|].
    rewrite Hbind, Z.eqb_refl. simpl. by rewrite (proj2 (bytesEqual_spec _ _) Hd).
Qed.

End VerifierLemmas.

(** *** Failover order *)

Lemma ip_first_loop_spec (isIP : string → bool) (addrs ips names : list string) :
  ip_first_loop isIP addrs ips names
    = (ips ++ filter (λ a, isIP a = true) addrs) ++ (names ++ filter (λ a, isIP a = false) addrs).
Proof.
  revert ips names. induction addrs as [|a addrs IH]; intros ips names; simpl.
  - by rewrite !filter_nil, !app_nil_r.
  - rewrite !filter_cons. destruct (isIP a) eqn:E; rewrite IH;
      repeat case_decide; try congruence; by rewrite <- !app_assoc.
Qed.

Lemma ipFirstAddrs_perm (isIP : string → bool) (addrs : list string) :
  ipFirstAddrs isIP addrs ≡ₚ addrs.
Proof.
  unfold ipFirstAddrs. rewrite ip_first_loop_spec. simpl.
  induction addrs as [|a addrs IH]; [done|]. rewrite !filter_cons.
  destruct (isIP a); simpl; rewrite <- ?Permutation_middle; by rewrite IH.
Qed.

(** Interleaving columns and reading them one by one give the same addresses. *)
Lemma rounds_perm (cols : list (list string)) (n : nat) :
  (∀ c, c ∈ cols → (length c ≤ n)%nat) →
  concat (failover_round cols <$> seq 0 n) ≡ₚ concat cols.
Proof.
  induction cols as [|c cols IH]; intros Hn.
  - assert (∀ k s, concat (failover_round [] <$> seq s k) = []) as ->; [|done].
    intros k. induction k; simpl; auto.
  - assert (∀ k s, (length c ≤ s + k)%nat →
      concat (failover_round (c :: cols) <$> seq s k)
        ≡ₚ drop s c ++ concat (failover_round cols <$> seq s k)) as Hcons.
    { induction k as [|k IHk]; intros s Hs; simpl.
      - rewrite drop_ge by lia. done.
      - rewrite IHk by lia. unfold failover_round at 1. simpl.
        destruct (c !! s) as [a|] eqn:E; simpl.
        + rewrite (drop_S c a s E). simpl. rewrite !app_assoc.
          by rewrite (Permutation_app_comm (omap _ cols)).
        + apply lookup_ge_None in E. rewrite !drop_ge by lia. done. }
    rewrite Hcons by (apply Hn; left). rewrite drop_0. simpl. f_equiv. apply IH.
    intros c' Hc'. apply Hn. by right.
Qed.

Lemma maxLen_ge (cols : list (list string)) (c : list string) :
  c ∈ cols → (length c ≤ maxLen cols)%nat.
Proof. induction 1 as [|c c' cols _ IH]; simpl; unfold maxLen in *; simpl; lia. Qed.

Lemma failover_round_0 (cols : list (list string)) : failover_round cols 0 = omap head cols.
Proof. induction cols as [|[|a c] cols IH]; simpl in *; [done|done|by f_equal]. Qed.

(** ** A small fleet

    Two trust keys with threshold two, one grant key, and a decoder that knows the
    three payloads; used to evaluate the theorems. *)
Module Fixture.

#[export] Instance sha : Sha256 := λ b, take 32 (b ++ replicate 32 x2a).
#[local] Existing Instance ToyEd25519.toy.

Definition pol : AgentPolicy := mkAgentPolicy false 64 16 262144 86400 0.
Definition anchors : TrustAnchors :=
  mkTrustAnchors 3 [mkGrantKey "g1" (ToyEd25519.key x11) []] [] pol "" []
    [mkTrustKey "t1" (ToyEd25519.key x01); mkTrustKey "t2" (ToyEd25519.key x02)] 2 time_zero.
Definition routine : RoutineMap := mkRoutineMap 7 3 (sha256 [x0a]) ["relay:1"] [] [].
Definition config : ClusterConfig :=
  mkClusterConfig 7 [] [mkGrantKey "g1" (ToyEd25519.key x11) ["acme"]] pol [] [] [] [] "" [].
Definition rootkeys : RootKeys := mkRootKeys 4 [mkArtifactKey "s1" (ToyEd25519.key x21)] time_zero.
Definition manifest : Manifest := mkManifest "geneza-agent" "1.2" "linux" "amd64" "00" 1 0.

#[export] Instance dec_anchors : JSONDecode TrustAnchors :=
  λ b, if bool_decide (b = [x0a]) then Some anchors else None.
#[export] Instance dec_routine : JSONDecode RoutineMap :=
  λ b, if bool_decide (b = [x0b]) then Some routine else None.
#[export] Instance dec_config : JSONDecode ClusterConfig :=
  λ b, if bool_decide (b = [x0c]) then Some config else None.
#[export] Instance dec_rootkeys : JSONDecode RootKeys :=
  λ b, if bool_decide (b = [x0d]) then Some rootkeys else None.
#[export] Instance dec_manifest : JSONDecode Manifest :=
  λ b, if bool_decide (b = [x0e]) then Some manifest else None.

Definition pinned : keyset :=
  {[ "t1" := ToyEd25519.key x01; "t2" := ToyEd25519.key x02 ]}.
Definition anchor_env : MultiSigned :=
  mkMultiSigned [x0a] [ToyEd25519.onesig_by x01 "t1" contextTrustAnchors [x0a];
                       ToyEd25519.onesig_by x02 "t2" contextTrustAnchors [x0a]].
Definition map_env : Signed := ToyEd25519.signed_by x11 "g1" contextRoutineMap [x0b].
Definition fleet : FleetState := mkFleetState anchors routine [x0a].

End Fixture.

(** ** Theorems *)

(** C33 (trustanchors.go, VerifyFleetState): what a verified fleet state proves.
    At least the pinned threshold of distinct pinned trust keys signed exactly the
    anchors payload under the anchors context; the anchors are not older than the
    held ones and not expired; the routine map is signed, under its own context, by
    a grant key those anchors list, is not older than the held map, and is bound to
    these anchors by version and by the digest of their exact bytes. *)
Theorem fleet_state_chain `{Ed25519, Sha256} `{JSONDecode ClusterConfig, JSONDecode TrustAnchors,
    JSONDecode RoutineMap, JSONDecode RootKeys, JSONDecode Manifest}
    (pinned : keyset) (threshold av cv : Z) (ae : option MultiSigned) (me : option Signed)
    (now : Z) (fs : FleetState) :
  VerifyFleetState pinned threshold av cv ae me now = Ok fs →
  (∃ env, ae = Some env ∧ AnchorPayload fs = ms_Payload env ∧
     Unmarshal (AnchorPayload fs) = Some (Anchors fs) ∧
     Z.max 1 threshold ≤ Z.of_nat (size (valid_signers pinned
       (signingInput contextTrustAnchors (AnchorPayload fs)) (Sigs env)))) ∧
  av ≤ AnchorVersion (Anchors fs) ∧ not_expired (ta_ExpiresAt (Anchors fs)) now ∧
  (∃ env gk, me = Some env ∧ gk ∈ ta_GrantKeys (Anchors fs) ∧ gk_KeyID gk = KeyID env ∧
     ed25519_Verify (gk_PublicKey gk) (signingInput contextRoutineMap (Payload env)) (Sig env) = true ∧
     Unmarshal (Payload env) = Some (Map fs)) ∧
  cv ≤ rm_ConfigVersion (Map fs) ∧
  rm_AnchorVersion (Map fs) = AnchorVersion (Anchors fs) ∧
  AnchorDigest (Map fs) = AnchorDigestOf (AnchorPayload fs).
Proof.
  intros HV. apply VerifyFleetState_Ok in HV as (Hms & Hav & He & (gks & k & Hg & Hv) & Hcv & Hb & Hd).
  apply VerifyMultiSig_Ok in Hms as (env & -> & Hp & Hu & Hq).
  apply Verify_Ok in Hv as (menv & pub & -> & -> & Ht & _ & _ & Hver & Hum).
  destruct (TrustedGrantKeys_Ok _ _ _ _ Hg Ht) as (gk & Hin & Hid & Hpub). subst pub.
  split; [by eauto 10|]. split_and!; [done..| |done|done|done]. by exists menv, gk.
Qed.

(** [trustanchors.go, VerifyFleetState] A compromise below the threshold is
    contained.  If every pinned key whose signature over the anchors payload can
    be produced is among the compromised ones, and those are fewer than the
    threshold (or none, when the threshold is 0 or 1), no fleet state with that
    payload is ever accepted, whatever the rest of the message is. *)
Theorem below_threshold_rejected `{Ed25519, Sha256} `{JSONDecode ClusterConfig,
    JSONDecode TrustAnchors, JSONDecode RoutineMap, JSONDecode RootKeys, JSONDecode Manifest}
    (pinned : keyset) (compromised : gset string) (threshold av cv : Z) (env : MultiSigned)
    (me : option Signed) (now : Z) :
  (∀ k pub sig, pinned !! k = Some pub →
     ed25519_Verify pub (signingInput contextTrustAnchors (ms_Payload env)) sig = true →
     k ∈ compromised) →
  Z.of_nat (size compromised) < Z.max 1 threshold →
  is_ok (VerifyFleetState pinned threshold av cv (Some env) me now) = false.
Proof.
  intros Hk Hsz. destruct (VerifyFleetState _ _ _ _ _ _ _) as [fs|] eqn:HV; [|done].
  apply VerifyFleetState_Ok in HV as (Hms & _). apply VerifyMultiSig_Ok in Hms as (? & [= <-] & -> & _ & Hq).
  exfalso. assert (valid_signers pinned (signingInput contextTrustAnchors (ms_Payload env)) (Sigs env)
    ⊆ compromised) as Hsub%subseteq_size; [|lia].
  intros k (one & _ & <- & Hg)%elem_of_valid_signers. unfold good_sig in Hg.
  destruct (pinned !! os_KeyID one) as [pub|] eqn:Ht; [|done]. go_bool. by eapply Hk.
Qed.

(** [rootkeys.go, VerifyArtifactChain] Role separation of the artifact chain.
    An accepted manifest is signed, under the manifest context, by a key listed in
    a root-keys document that a pinned root key signed under the root context, that
    is not older than the node's floor and not expired; a key that is not listed,
    the root key included, never gets a manifest accepted. *)
Theorem artifact_chain `{Ed25519, Sha256} `{JSONDecode ClusterConfig, JSONDecode TrustAnchors,
    JSONDecode RoutineMap, JSONDecode RootKeys, JSONDecode Manifest}
    (roots : keyset) (rks ms : option Signed) (rootVersion now : Z) (rk : RootKeys) (m : Manifest) :
  VerifyArtifactChain roots rks ms rootVersion now = Ok (rk, m) ↔
  rootVersion ≤ rk_Version rk ∧ not_expired (rk_ExpiresAt rk) now ∧
  (∃ k, Verify roots contextRootKeys rks Unmarshal = Ok (k, rk)) ∧
  ∃ signers k ak, SigningKeys rk = Ok signers ∧ ak ∈ Keys rk ∧ ak_KeyID ak = k ∧
    signers !! k = Some (ak_PublicKey ak) ∧
    Verify signers contextManifestForChain ms Unmarshal = Ok (k, m).
Proof.
  unfold VerifyArtifactChain. split.
  - intros HV. destruct (VerifyRootKeys _ _ _ _) as [rk'|] eqn:Hr; [|done].
    destruct (SigningKeys rk') as [signers|] eqn:Hs; [|done].
    destruct (Verify signers _ _ _) as [[k m']|] eqn:Hv; [|done]. simplify_eq.
    apply VerifyRootKeys_Ok in Hr as (? & ? & ?).
    pose proof Hv as (menv & pub & _ & -> & Ht & _)%Verify_Ok.
    destruct (SigningKeys_Ok _ _ _ _ Hs Ht) as (ak & ? & ? & <-). eauto 15.
  - intros (Hv & He & Hr & signers & k & ak & Hs & _ & _ & _ & Hm).
    assert (VerifyRootKeys roots rks rootVersion now = Ok rk) as -> by (by apply VerifyRootKeys_Ok).
    by rewrite Hs, Hm.
Qed.

(** [cluster.go, FailoverAddrs] The dial order loses and invents no address,
    and interleaves the controllers: it starts with one address of each controller
    that has any, so consecutive first attempts go to different controllers, and
    that address is a literal IP whenever the controller lists one. *)
Theorem failover_order (isIP : string → bool) (gws : list ControllerEndpoint) (control : bool) :
  let chosen gw := if control && (0 <? length (ControlAddrs gw))%nat
                   then ControlAddrs gw else ce_Addrs gw in
  let firsts := omap head (failover_cols isIP gws control) in
  FailoverAddrs isIP gws control ≡ₚ concat (chosen <$> gws) ∧
  take (length firsts) (FailoverAddrs isIP gws control) = firsts ∧
  (∀ gw a, gw ∈ gws → a ∈ chosen gw → isIP a = true →
     ∃ b, head (ipFirstAddrs isIP (chosen gw)) = Some b ∧ isIP b = true).
Proof.
  intros chosen firsts. unfold FailoverAddrs. split_and!.
  - rewrite rounds_perm by (intros; by apply maxLen_ge). unfold failover_cols. fold chosen.
    clear firsts. induction gws as [|gw gws IH]; simpl; [done|]. by rewrite ipFirstAddrs_perm, IH.
  - subst firsts. destruct (maxLen (failover_cols isIP gws control)) as [|n] eqn:E.
    + simpl. rewrite take_nil. revert E. generalize (failover_cols isIP gws control).
      intros cols. induction cols as [|[|] cols IH]; simpl; unfold maxLen in *; simpl; naive_solver lia.
    + simpl. rewrite failover_round_0. by rewrite take_app_length.
  - intros gw a _ Ha Hip. unfold ipFirstAddrs. rewrite ip_first_loop_spec. simpl.
    destruct (filter (λ a, isIP a = true) (chosen gw)) as [|b l] eqn:E.
    + exfalso. assert (a ∈ filter (λ a, isIP a = true) (chosen gw)) as Hin
        by by apply list_elem_of_filter. rewrite E in Hin. by apply not_elem_of_nil in Hin.
    + exists b. split; [done|]. assert (b ∈ filter (λ a, isIP a = true) (chosen gw)) as Hb
        by (rewrite E; left). by apply list_elem_of_filter in Hb as [? _].
Qed.

(** [cluster.go, AuditKeyID] The audit key id names a set of recipients: it
    does not depend on the order in which they are listed. *)
Theorem AuditKeyID_order `{Sha256} (xs ys : list string) :
  xs ≡ₚ ys → AuditKeyID xs = AuditKeyID ys.
Proof.
  intros Hp. destruct xs as [|x [|x' xs]].
  - apply Permutation_nil_l in Hp as <-. done.
  - apply Permutation_singleton_l in Hp as <-. done.
  - destruct ys as [|y [|y' ys]];
      [by apply Permutation_nil_r in Hp|by apply Permutation_singleton_r in Hp|].
    assert (merge_sort String.le (x :: x' :: xs) = merge_sort String.le (y :: y' :: ys)) as E;
      [|unfold AuditKeyID; by rewrite E].
    apply (Sorted_unique String.le).
    + apply (Sorted_merge_sort _).
    + apply (Sorted_merge_sort _).
    + by rewrite !merge_sort_Permutation.
Qed.

Import Fixture.

Lemma fleet_state_chain_witness :
  VerifyFleetState (H := ToyEd25519.toy) pinned 2 3 7 (Some anchor_env) (Some map_env) 0 = Ok fleet ∧
  2 ≤ Z.of_nat (size (valid_signers (H := ToyEd25519.toy) pinned
                        (signingInput contextTrustAnchors [x0a]) (Sigs anchor_env))).
Proof.
  assert (VerifyFleetState (H := ToyEd25519.toy) pinned 2 3 7 (Some anchor_env) (Some map_env) 0
          = Ok fleet) as HV by (vm_compute; reflexivity).
  split; [exact HV|].
  destruct (fleet_state_chain (H := ToyEd25519.toy) pinned 2 3 7 (Some anchor_env) (Some map_env) 0
              fleet HV) as ((env & Henv & Hp & Hu & Hq) & _).
  injection Henv as <-. exact Hq.
Defined.

Lemma below_threshold_rejected_witness :
  is_ok (VerifyFleetState
           (H := {| ed25519_Verify pub m sig := bool_decide (pub = ToyEd25519.key x01) |})
           pinned 2 3 7 (Some anchor_env) (Some map_env) 0) = false.
Proof.
  apply (below_threshold_rejected
           (H := {| ed25519_Verify pub m sig := bool_decide (pub = ToyEd25519.key x01) |})
           pinned {[ "t1" ]} 2 3 7 anchor_env (Some map_env) 0).
  - intros k pub sig Hk Hv. apply bool_decide_eq_true_1 in Hv. subst pub. unfold pinned in Hk.
    apply lookup_insert_Some in Hk as [[<- _]|[_ Hk]]; [by apply elem_of_singleton|].
    apply lookup_singleton_Some in Hk as [_ Hk]. discriminate Hk.
  - vm_compute. reflexivity.
Defined.

Lemma AuditKeyID_order_witness : AuditKeyID ["age1b"; "age1a"] = AuditKeyID ["age1a"; "age1b"].
Proof. apply (AuditKeyID_order ["age1b"; "age1a"] ["age1a"; "age1b"]). constructor. Defined.
