(* ===== verification/AgentTrust.v ===== *)
(** * The agent's trust state (src/internal/agentd/worker.go, state.go)

    How an agent adopts trust documents: the legacy cluster config, the split pair
    of anchors and routine map, trust on first use, the persisted copies and the
    restart that reloads them.  The worker's trust fields and its state directory
    are the state; every message of the control stream that changes them is a
    handler.  The theorems: versions never go back, a pinned trust root changes only
    by documents a quorum of the previous root signed, rejected messages leave the
    trust untouched, a restart restores what was adopted when the documents are
    self-signed; and two counterexamples, a legacy push that replaces the grant
    keys of a pinned node and a rotation an agent cannot restart from. *)
From Stdlib Require Import ZArith Lia Strings.Byte Strings.Ascii.
From stdpp Require Import base gmap fin_maps fin_sets sets list strings numbers relations.
From S2P Require Import Prelude Envelope Trust.

Local Open Scope Z_scope.

(** ** State *)

(** The state directory: the documents on disk ([None]: no file). *)
Record StateDir := mkStateDir {
  fileClusterConfig : option bytes;
  fileTrustAnchors : option bytes;
  fileRoutineMap : option bytes;
  fileCARoots : bytes }.

Inductive state_file := FClusterConfig | FTrustAnchors | FRoutineMap | FCARoots.

(** The documents of [State] the worker holds in memory (empty: none). *)
Record State := mkState {
  ClusterRaw : bytes;
  AnchorRaw : bytes;
  RoutineMapRaw : bytes;
  st_CARootsPEM : bytes;
  Dir : StateDir }.

Definition SplitMode (s : State) : bool :=
  (0 <? length (AnchorRaw s))%nat && (0 <? length (RoutineMapRaw s))%nat.

(** The trust fields of [Worker]; a nil map or pointer is [None]. [connStale]
    records that the control connection was marked for a re-dial. *)
Record Worker := mkWorker {
  st : State;
  cluster : option ClusterConfig;
  trusted : keyset;
  configTrust : keyset;
  pinnedTrust : option keyset;
  pinnedThreshold : Z;
  anchorVersion : Z;
  anchorRaw : bytes;
  routineRaw : bytes;
  connStale : bool }.

(** What a push did, as the log lines of the handlers tell. *)
Inductive outcome : Type :=
| Rejected (e : trust_err)
| Ignored
| PersistFailed
| Applied.

(** The documents on the control stream that change the trust state. *)
Inductive controller_msg : Type :=
| ControllerMsg_ClusterConfig (raw : bytes)
| ControllerMsg_FleetState (anchors routineMap legacy : bytes).

(** ** Saving: [wr f] says whether the atomic write of a file succeeds *)

Section Saving.
Context (wr : state_file → bool).

Definition SaveClusterConfig (s : State) (raw : bytes) : bool * State :=
  if negb (wr FClusterConfig) then (false, s)
  else (true, mkState raw (AnchorRaw s) (RoutineMapRaw s) (st_CARootsPEM s)
                (mkStateDir (Some raw) (fileTrustAnchors (Dir s)) (fileRoutineMap (Dir s))
                   (fileCARoots (Dir s)))).

Definition SaveCARoots (s : State) (rootsPEM : bytes) : bool * State :=
  if (length rootsPEM =? 0)%nat then (true, s)
  else if negb (wr FCARoots) then (false, s)
  else (true, mkState (ClusterRaw s) (AnchorRaw s) (RoutineMapRaw s) rootsPEM
                (mkStateDir (fileClusterConfig (Dir s)) (fileTrustAnchors (Dir s))
                   (fileRoutineMap (Dir s)) rootsPEM)).

(** The anchors are written first; a failed second write leaves them on disk. *)
Definition SaveFleetState (s : State) (anchorRaw mapRaw : bytes) : bool * State :=
  if negb (wr FTrustAnchors) then (false, s)
  else
    let dir1 := mkStateDir (fileClusterConfig (Dir s)) (Some anchorRaw) (fileRoutineMap (Dir s))
                  (fileCARoots (Dir s)) in
    if negb (wr FRoutineMap)
    then (false, mkState (ClusterRaw s) (AnchorRaw s) (RoutineMapRaw s) (st_CARootsPEM s) dir1)
    else (true, mkState (ClusterRaw s) anchorRaw mapRaw (st_CARootsPEM s)
                  (mkStateDir (fileClusterConfig (Dir s)) (Some anchorRaw) (Some mapRaw)
                     (fileCARoots (Dir s)))).

End Saving.

(** ** Handlers *)

Definition clusterVersion (w : Worker) : Z :=
  match cluster w with None => 0 | Some c => ConfigVersion c end.

Definition keyScopes (w : Worker) : gmap string (list string) :=
  match cluster w with None => ∅ | Some c => KeyScopes c end.

Definition alreadyPinned (w : Worker) : bool :=
  match pinnedTrust w with None => false | Some _ => true end.

Definition relayCertPubs (w : Worker) : list bytes :=
  match cluster w with
  | None => []
  | Some c => filter (λ p, (0 < length p)%nat) (RelayCertPub <$> Relays c)
  end.

Definition clusterViewFromFleetState (fs : FleetState) : ClusterConfig :=
  mkClusterConfig (rm_ConfigVersion (Map fs)) (ta_CARootsPEM (Anchors fs))
    (ta_GrantKeys (Anchors fs)) (ta_AgentPolicy (Anchors fs)) (rm_RelayAddrs (Map fs))
    (rm_Relays (Map fs)) (rm_ControllerEndpoints (Map fs)) []
    (ta_AuditRecipient (Anchors fs)) (ta_AuditRecipients (Anchors fs)).

Definition set_st (w : Worker) (s : State) : Worker :=
  mkWorker s (cluster w) (trusted w) (configTrust w) (pinnedTrust w) (pinnedThreshold w)
    (anchorVersion w) (anchorRaw w) (routineRaw w) (connStale w).

Section Handlers.
Context `{Ed25519, Sha256} `{JSONDecode ClusterConfig, JSONDecode TrustAnchors,
  JSONDecode RoutineMap, JSONDecode RootKeys, JSONDecode Manifest,
  JSONDecode Signed, JSONDecode MultiSigned}.
Context (wr : state_file → bool).

Definition rootsDiffer (rootsPEM held : bytes) : bool :=
  (0 <? length rootsPEM)%nat && negb (bool_decide (rootsPEM = held)).

Definition handleClusterConfig (w : Worker) (raw : bytes) : Worker * outcome :=
  match Unmarshal raw with
  | None => (w, Rejected (TrustEnv ErrUnmarshal))
  | Some env =>
      match VerifyClusterConfig (configTrust w) (Some env) (clusterVersion w) with
      | Err e => (w, Rejected e)
      | Ok newCfg =>
          if ConfigVersion newCfg =? clusterVersion w then (w, Ignored)
          else
            match TrustedKeys newCfg with
            | Err e => (w, Rejected e)
            | Ok newTrusted =>
                match TrustedConfigKeys newCfg with
                | Err e => (w, Rejected e)
                | Ok newConfigTrust =>
                    match SaveClusterConfig wr (st w) raw with
                    | (false, s) => (set_st w s, PersistFailed)
                    | (true, s) =>
                        let rootsChanged := rootsDiffer (CARootsPEM newCfg) (st_CARootsPEM s) in
                        match (if rootsChanged then SaveCARoots wr s (CARootsPEM newCfg)
                               else (true, s)) with
                        | (false, s') => (set_st w s', PersistFailed)
                        | (true, s') =>
                            (mkWorker s' (Some newCfg) newTrusted newConfigTrust (pinnedTrust w)
                               (pinnedThreshold w) (anchorVersion w) (anchorRaw w) (routineRaw w)
                               (connStale w || rootsChanged), Applied)
                        end
                    end
                end
            end
      end
  end.

(** [adoptFleetState]: the new worker, or the error and the worker unchanged but
    for what was saved. *)
Definition adoptFleetState (w : Worker) (fs : FleetState) (aRaw mRaw : bytes)
    : Worker * option outcome :=
  let view := clusterViewFromFleetState fs in
  match TrustedGrantKeys (Anchors fs) with
  | Err e => (w, Some (Rejected e))
  | Ok grantKeys =>
      match PinnedTrustKeys (Anchors fs) with
      | Err e => (w, Some (Rejected e))
      | Ok pinned =>
          let rootsChanged := rootsDiffer (ta_CARootsPEM (Anchors fs)) (st_CARootsPEM (st w)) in
          match (if rootsChanged then SaveCARoots wr (st w) (ta_CARootsPEM (Anchors fs))
                 else (true, st w)) with
          | (false, s) => (set_st w s, Some PersistFailed)
          | (true, s) =>
              (mkWorker s (Some view) grantKeys (configTrust w) (Some pinned)
                 (Threshold (Anchors fs)) (AnchorVersion (Anchors fs)) aRaw mRaw
                 (connStale w || rootsChanged), None)
          end
      end
  end.

(** The trust root a fleet state is verified against: the held one, or on first
    use the one the document itself names. *)
Definition heldTrust (w : Worker) (anchorEnv : MultiSigned)
    : result trust_err (keyset * Z * Z * Z) :=
  match pinnedTrust w with
  | Some pinned => Ok (pinned, pinnedThreshold w, anchorVersion w, clusterVersion w)
  | None =>
      match Unmarshal (ms_Payload anchorEnv) with
      | None => Err (TrustEnv ErrUnmarshal)
      | Some a =>
          match PinnedTrustKeys a with
          | Err e => Err e
          | Ok p => Ok (p, Threshold a, 0, clusterVersion w)
          end
      end
  end.

Definition handleFleetState (now : Z) (w : Worker) (aRaw mRaw : bytes) : Worker * outcome :=
  if (length aRaw =? 0)%nat || (length mRaw =? 0)%nat then (w, Ignored)
  else
    match Unmarshal aRaw with
    | None => (w, Rejected (TrustEnv ErrUnmarshal))
    | Some anchorEnv =>
        match Unmarshal mRaw with
        | None => (w, Rejected (TrustEnv ErrUnmarshal))
        | Some mapEnv =>
            match heldTrust w anchorEnv with
            | Err e => (w, Rejected e)
            | Ok (pinned, threshold, heldAnchorV, heldConfigV) =>
                match VerifyFleetState pinned threshold heldAnchorV heldConfigV
                        (Some anchorEnv) (Some mapEnv) now with
                | Err e => (w, Rejected e)
                | Ok fs =>
                    let sameAnchor := AnchorVersion (Anchors fs) =? anchorVersion w in
                    let sameMap := rm_ConfigVersion (Map fs) =? clusterVersion w in
                    if sameAnchor && sameMap && SplitMode (st w) then (w, Ignored)
                    else
                      match SaveFleetState wr (st w) aRaw mRaw with
                      | (false, s) => (set_st w s, PersistFailed)
                      | (true, s) =>
                          match adoptFleetState (set_st w s) fs aRaw mRaw with
                          | (w', Some o) => (w', o)
                          | (w', None) => (w', Applied)
                          end
                      end
                end
            end
        end
    end.

Definition handleFleetPush (now : Z) (w : Worker) (aRaw mRaw legacy : bytes) : Worker * outcome :=
  if (0 <? length aRaw)%nat && (0 <? length mRaw)%nat then handleFleetState now w aRaw mRaw
  else if alreadyPinned w then (w, Ignored)
  else if (0 <? length legacy)%nat then handleClusterConfig w legacy
  else (w, Ignored).

(** The trust arms of the control stream's receive loop. *)
Definition recv (now : Z) (w : Worker) (m : controller_msg) : Worker * outcome :=
  match m with
  | ControllerMsg_ClusterConfig raw => handleClusterConfig w raw
  | ControllerMsg_FleetState a r l => handleFleetPush now w a r l
  end.

(** ** Reload *)

Definition parseAndCheckClusterConfig (raw : bytes) (minVersion : Z)
    : result trust_err (ClusterConfig * keyset) :=
  match Unmarshal raw with
  | None => Err (TrustEnv ErrUnmarshal)
  | Some env =>
      match Unmarshal (Payload env) with
      | None => Err (TrustEnv ErrUnmarshal)
      | Some unverified =>
          let? trust := TrustedConfigKeys unverified in
          let? cfg := VerifyClusterConfig trust (Some env) minVersion in
          let? grantKeys := TrustedKeys cfg in
          Ok (cfg, grantKeys)
      end
  end.

Definition parseAndCheckFleetState (aRaw mRaw : bytes) (minAnchor minConfig now : Z)
    : result trust_err FleetState :=
  match Unmarshal aRaw with
  | None => Err (TrustEnv ErrUnmarshal)
  | Some anchorEnv =>
      match Unmarshal (ms_Payload anchorEnv) with
      | None => Err (TrustEnv ErrUnmarshal)
      | Some anchors =>
          let? pinned := PinnedTrustKeys anchors in
          match Unmarshal mRaw with
          | None => Err (TrustEnv ErrUnmarshal)
          | Some mapEnv =>
              VerifyFleetState pinned (Threshold anchors) minAnchor minConfig
                (Some anchorEnv) (Some mapEnv) now
          end
      end
  end.

Inductive load_err : Type :=
| LoadTrust (e : trust_err)
| IncompleteState
| AnchorsWithoutMap
| AdoptFailed.

(** The documents part of [LoadState]. *)
Definition LoadState (dir : StateDir) (now : Z) : result load_err State :=
  let check_cluster :=
    match fileClusterConfig dir with
    | Some b => match parseAndCheckClusterConfig b 0 with
                | Err e => Err (LoadTrust e)
                | Ok _ => Ok b
                end
    | None => match fileTrustAnchors dir with
              | None => Err IncompleteState
              | Some _ => Ok []
              end
    end in
  let? clusterRaw := check_cluster in
  match fileTrustAnchors dir with
  | None => Ok (mkState clusterRaw [] [] (fileCARoots dir) dir)
  | Some a =>
      match fileRoutineMap dir with
      | None => Err AnchorsWithoutMap
      | Some m =>
          match parseAndCheckFleetState a m 0 0 now with
          | Err e => Err (LoadTrust e)
          | Ok _ => Ok (mkState clusterRaw a m (fileCARoots dir) dir)
          end
      end
  end.

(** The trust part of [NewWorker]. *)
Definition NewWorker (s : State) (now : Z) : result load_err Worker :=
  let w0 := mkWorker s None ∅ ∅ None 0 0 [] [] false in
  let legacy :=
    if (0 <? length (ClusterRaw s))%nat then
      match parseAndCheckClusterConfig (ClusterRaw s) 0 with
      | Err e => Err (LoadTrust e)
      | Ok (c, gks) =>
          match TrustedConfigKeys c with
          | Err e => Err (LoadTrust e)
          | Ok ct => Ok (mkWorker s (Some c) gks ct None 0 0 [] [] false)
          end
      end
    else Ok w0 in
  let? w1 := legacy in
  if SplitMode s then
    match parseAndCheckFleetState (AnchorRaw s) (RoutineMapRaw s) 0 0 now with
    | Err e => Err (LoadTrust e)
    | Ok fs =>
        match adoptFleetState w1 fs (AnchorRaw s) (RoutineMapRaw s) with
        | (w2, None) => Ok w2
        | (_, Some _) => Err AdoptFailed
        end
    end
  else Ok w1.

(** A restart of the agent from its state directory. *)
Definition restart (dir : StateDir) (now : Z) : result load_err Worker :=
  let? s := LoadState dir now in NewWorker s now.

End Handlers.

(** One message of the stream, at any time, with any of the writes failing, as a
    step of the worker. *)
Inductive step `{Ed25519, Sha256} `{JSONDecode ClusterConfig, JSONDecode TrustAnchors,
  JSONDecode RoutineMap, JSONDecode RootKeys, JSONDecode Manifest,
  JSONDecode Signed, JSONDecode MultiSigned} : Worker → Worker → Prop :=
| step_recv wr now w m : step w (recv wr now w m).1.

(** ** Lemmas *)

(** The trust fields of two workers agree. *)
Definition same_trust (w w' : Worker) : Prop :=
  cluster w' = cluster w ∧ trusted w' = trusted w ∧ configTrust w' = configTrust w ∧
  pinnedTrust w' = pinnedTrust w ∧ pinnedThreshold w' = pinnedThreshold w ∧
  anchorVersion w' = anchorVersion w.

Lemma same_trust_refl (w : Worker) : same_trust w w.
Proof. by unfold same_trust. Qed.

Lemma same_trust_set_st (w : Worker) (s : State) : same_trust w (set_st w s).
Proof. by unfold same_trust. Qed.

#[export] Hint Resolve same_trust_refl same_trust_set_st : geneza.

(** What a worker that holds no pinned root has not adopted. *)
Definition unpinned_wf (w : Worker) : Prop := pinnedTrust w = None → anchorVersion w = 0.

Section AgentLemmas.
Context `{Ed25519, Sha256} `{JSONDecode ClusterConfig, JSONDecode TrustAnchors,
  JSONDecode RoutineMap, JSONDecode RootKeys, JSONDecode Manifest,
  JSONDecode Signed, JSONDecode MultiSigned}.

(** One link of custody: a quorum of the keys [p] at threshold [t] signed anchors
    that name the next keys and threshold. *)
Definition handover (pt pt' : keyset * Z) : Prop :=
  ∃ env a, VerifyMultiSig pt.1 pt.2 contextTrustAnchors (Some env) Unmarshal
             = Ok (ms_Payload env, a) ∧
           PinnedTrustKeys a = Ok pt'.1 ∧ pt'.2 = Threshold a.

Lemma handleClusterConfig_inv (wr : state_file → bool) (w : Worker) (raw : bytes) :
  let '(w', o) := handleClusterConfig wr w raw in
  (o ≠ Applied ∧ same_trust w w') ∨
  (o = Applied ∧ ∃ env cfg, Unmarshal raw = Some env ∧
     VerifyClusterConfig (configTrust w) (Some env) (clusterVersion w) = Ok cfg ∧
     cluster w' = Some cfg ∧ TrustedKeys cfg = Ok (trusted w') ∧
     TrustedConfigKeys cfg = Ok (configTrust w') ∧ pinnedTrust w' = pinnedTrust w ∧
     pinnedThreshold w' = pinnedThreshold w ∧ anchorVersion w' = anchorVersion w).
Proof.
  unfold handleClusterConfig.
  destruct (Unmarshal raw) as [env|]; [|left; auto with geneza].
  destruct (VerifyClusterConfig _ _ _) as [cfg|] eqn:HV; [|left; auto with geneza].
  destruct (ConfigVersion cfg =? _); [left; auto with geneza|].
  destruct (TrustedKeys cfg) as [gks|] eqn:Hg; [|left; auto with geneza].
  destruct (TrustedConfigKeys cfg) as [cts|] eqn:Hc; [|left; auto with geneza].
  destruct (SaveClusterConfig wr (st w) raw) as [[] s]; [|left; auto with geneza].
  destruct (if rootsDiffer _ _ then _ else _) as [[] s']; [|left; auto with geneza].
  right. simpl. eauto 15.
Qed.

Lemma adoptFleetState_inv (wr : state_file → bool) (w : Worker) (fs : FleetState) (a m : bytes) :
  let '(w', o) := adoptFleetState wr w fs a m in
  (o ≠ None ∧ same_trust w w') ∨
  (o = None ∧ TrustedGrantKeys (Anchors fs) = Ok (trusted w') ∧
   (∃ p, PinnedTrustKeys (Anchors fs) = Ok p ∧ pinnedTrust w' = Some p) ∧
   pinnedThreshold w' = Threshold (Anchors fs) ∧ anchorVersion w' = AnchorVersion (Anchors fs) ∧
   cluster w' = Some (clusterViewFromFleetState fs) ∧ configTrust w' = configTrust w).
Proof.
  unfold adoptFleetState.
  destruct (TrustedGrantKeys _) as [gks|] eqn:Hg; [|left; auto with geneza].
  destruct (PinnedTrustKeys _) as [p|] eqn:Hp; [|left; auto with geneza].
  destruct (if rootsDiffer _ _ then _ else _) as [[] s]; [|left; auto with geneza].
  right. simpl. eauto 15.
Qed.

Lemma handleFleetState_inv (wr : state_file → bool) (now : Z) (w : Worker) (aRaw mRaw : bytes) :
  let '(w', o) := handleFleetState wr now w aRaw mRaw in
  same_trust w w' ∨
  (o = Applied ∧ ∃ ae me p t av cv fs,
     Unmarshal aRaw = Some ae ∧ Unmarshal mRaw = Some me ∧
     heldTrust w ae = Ok (p, t, av, cv) ∧
     VerifyFleetState p t av cv (Some ae) (Some me) now = Ok fs ∧
     TrustedGrantKeys (Anchors fs) = Ok (trusted w') ∧
     (∃ p', PinnedTrustKeys (Anchors fs) = Ok p' ∧ pinnedTrust w' = Some p') ∧
     pinnedThreshold w' = Threshold (Anchors fs) ∧
     anchorVersion w' = AnchorVersion (Anchors fs) ∧
     cluster w' = Some (clusterViewFromFleetState fs)).
Proof.
  unfold handleFleetState. destruct (_ || _); [auto with geneza|].
  destruct (Unmarshal aRaw) as [ae|] eqn:Ha; [|auto with geneza].
  destruct (Unmarshal mRaw) as [me|] eqn:Hm; [|auto with geneza].
  destruct (heldTrust w ae) as [[[[p t] av] cv]|] eqn:Hh; [|auto with geneza].
  destruct (VerifyFleetState _ _ _ _ _ _ _) as [fs|] eqn:HV; [|auto with geneza].
  destruct (_ && _ && _); [auto with geneza|].
  destruct (SaveFleetState wr (st w) aRaw mRaw) as [[] s]; [|auto with geneza].
  pose proof (adoptFleetState_inv wr (set_st w s) fs aRaw mRaw) as Hi.
  destruct (adoptFleetState _ _ _ _ _) as [w' [o|]].
  - destruct Hi as [[_ Hs]|[? _]]; [left; exact Hs|done].
  - destruct Hi as [[? _]|(_ & ? & ? & ? & ? & ? & ?)]; [done|].
    right. split; [done|]. exists ae, me, p, t, av, cv, fs. auto 15.
Qed.

(** What one message does to the versions and to the pinned root. *)
Lemma recv_versions (wr : state_file → bool) (now : Z) (w : Worker) (m : controller_msg) :
  unpinned_wf w →
  let w' := (recv wr now w m).1 in
  unpinned_wf w' ∧ clusterVersion w ≤ clusterVersion w' ∧ anchorVersion w ≤ anchorVersion w'.
Proof.
  intros Hwf.
  assert (∀ raw, let w' := (handleClusterConfig wr w raw).1 in
    unpinned_wf w' ∧ clusterVersion w ≤ clusterVersion w' ∧ anchorVersion w ≤ anchorVersion w') as Hcc.
  { intros raw. pose proof (handleClusterConfig_inv wr w raw) as Hi.
    destruct (handleClusterConfig wr w raw) as [w' o]. simpl.
    destruct Hi as [(_ & Hc & _ & _ & Hp & _ & Ha)|(_ & env & cfg & _ & HV & Hc & _ & _ & Hp & _ & Ha)];
      unfold unpinned_wf, clusterVersion in *; rewrite Hc, Hp, Ha; [split_and!; [by auto|lia..]|].
    apply VerifyClusterConfig_Ok in HV as [? _]. split_and!; [by auto|done|lia]. }
  assert (∀ a r, let w' := (handleFleetState wr now w a r).1 in
    unpinned_wf w' ∧ clusterVersion w ≤ clusterVersion w' ∧ anchorVersion w ≤ anchorVersion w') as Hfs.
  { intros a r. pose proof (handleFleetState_inv wr now w a r) as Hi.
    destruct (handleFleetState wr now w a r) as [w' o]. simpl.
    destruct Hi as [(Hc & _ & _ & Hp & _ & Ha)|(_ & ae & me & p & t & av & cv & fs & _ & _ & Hh & HV & _ & (p' & _ & Hp) & _ & Ha & Hc)];
      unfold unpinned_wf, clusterVersion in *; rewrite Hc, Hp, Ha; [split_and!; [by auto|lia..]|].
    apply VerifyFleetState_Ok in HV as (_ & Hav & _ & _ & Hcv & _).
    unfold heldTrust, clusterVersion in Hh. simpl.
    destruct (pinnedTrust w); simplify_eq/=; [split_and!; [by auto|lia..]|].
    destruct (Unmarshal (ms_Payload ae)) as [a'|]; [|done].
    destruct (PinnedTrustKeys a'); simplify_eq/=. rewrite Hwf by done. split_and!; [by auto|lia..]. }
  destruct m as [raw|a r l]; simpl; [apply Hcc|]. unfold handleFleetPush.
  destruct (_ && _); [apply Hfs|]. destruct (alreadyPinned w); [simpl; split_and!; [by auto|lia..]|].
  destruct (0 <? length l)%nat; [apply Hcc|simpl; split_and!; [by auto|lia..]].
Qed.

Lemma recv_custody (wr : state_file → bool) (now : Z) (w : Worker) (m : controller_msg) (p : keyset) :
  pinnedTrust w = Some p →
  let w' := (recv wr now w m).1 in
  ∃ p', pinnedTrust w' = Some p' ∧
    ((p', pinnedThreshold w') = (p, pinnedThreshold w) ∨
     handover (p, pinnedThreshold w) (p', pinnedThreshold w')).
Proof.
  intros Hpin.
  assert (∀ raw, let w' := (handleClusterConfig wr w raw).1 in
    pinnedTrust w' = Some p ∧ pinnedThreshold w' = pinnedThreshold w) as Hcc.
  { intros raw. pose proof (handleClusterConfig_inv wr w raw) as Hi.
    destruct (handleClusterConfig wr w raw) as [w' o]. simpl.
    destruct Hi as [(_ & _ & _ & _ & -> & -> & _)|(_ & ? & ? & _ & _ & _ & _ & _ & -> & -> & _)]; auto. }
  destruct m as [raw|a r l]; simpl.
  { destruct (Hcc raw) as [-> ->]. eauto. }
  unfold handleFleetPush. destruct (_ && _).
  - pose proof (handleFleetState_inv wr now w a r) as Hi.
    destruct (handleFleetState wr now w a r) as [w' o]. simpl.
    destruct Hi as [(_ & _ & _ & -> & -> & _)|(_ & ae & me & q & t & av & cv & fs & _ & _ & Hh & HV & _ & (p' & Hp' & ->) & -> & _)];
      [rewrite Hpin; eauto|].
    unfold heldTrust in Hh. rewrite Hpin in Hh. simplify_eq.
    apply VerifyFleetState_Ok in HV as (Hms & _).
    pose proof Hms as (env & [= <-] & Hpl & _)%VerifyMultiSig_Ok.
    exists p'. split; [done|]. right. exists ae, (Anchors fs). cbn [fst snd]. by rewrite <- Hpl.
  - unfold alreadyPinned. rewrite Hpin. simpl. eauto.
Qed.

End AgentLemmas.

(** *** Reload *)

Section Reload.
Context `{Ed25519, Sha256} `{JSONDecode ClusterConfig, JSONDecode TrustAnchors,
  JSONDecode RoutineMap, JSONDecode RootKeys, JSONDecode Manifest,
  JSONDecode Signed, JSONDecode MultiSigned}.

(** The state directory holds no legacy config, or one that passes its self-check. *)
Definition legacy_loads (dir : StateDir) : Prop :=
  match fileClusterConfig dir with
  | None => True
  | Some b => b ≠ [] ∧ is_ok (parseAndCheckClusterConfig b 0) = true
  end.

(** The anchors of an envelope are also signed by a quorum of the keys they name. *)
Definition self_signed (ae : MultiSigned) (a : TrustAnchors) : Prop :=
  ∃ own, PinnedTrustKeys a = Ok own ∧
    is_ok (VerifyMultiSig own (Threshold a) contextTrustAnchors (Some ae) (Unmarshal (A := TrustAnchors)))
      = true.

Lemma parse_TrustedConfigKeys (b : bytes) (v : Z) (c : ClusterConfig) (gks : keyset) :
  parseAndCheckClusterConfig b v = Ok (c, gks) → is_ok (TrustedConfigKeys c) = true.
Proof.
  unfold parseAndCheckClusterConfig. destruct (Unmarshal b) as [env|]; [|done].
  destruct (Unmarshal (Payload env)) as [u|] eqn:Hu; [|done].
  intros (trust & Ht & Hr)%rbind_Ok. apply rbind_Ok in Hr as (cfg & HV & Hr).
  apply rbind_Ok in Hr as (g & Hg & Hc). simplify_eq.
  apply VerifyClusterConfig_Ok in HV as [_ [k HV]].
  apply Verify_Ok in HV as (env' & pub & [= <-] & _ & _ & _ & _ & _ & Hu').
  assert (u = c) as -> by congruence. by rewrite Ht.
Qed.

(** Self-signed documents verify against the root they name with no floors. *)
Lemma parseAndCheckFleetState_self (aRaw mRaw : bytes) (now : Z) (p : keyset) (t av cv : Z)
    (ae : MultiSigned) (me : Signed) (fs : FleetState) :
  Unmarshal aRaw = Some ae → Unmarshal mRaw = Some me →
  VerifyFleetState p t av cv (Some ae) (Some me) now = Ok fs →
  0 ≤ av → 0 ≤ cv → self_signed ae (Anchors fs) →
  parseAndCheckFleetState aRaw mRaw 0 0 now = Ok fs.
Proof.
  intros Ha Hm HV Hav Hcv (own & Hown & Hself). unfold parseAndCheckFleetState.
  apply VerifyFleetState_Ok in HV as (Hms & Hav' & He & Hg & Hcv' & Hb & Hd).
  pose proof Hms as (env & [= <-] & Hpl & Hu & _)%VerifyMultiSig_Ok.
  rewrite Ha, <- Hpl, Hu, Hown. simpl rbind. rewrite Hm. apply VerifyFleetState_Ok.
  split_and!; auto with lia.
  destruct (VerifyMultiSig own _ _ _ _) as [[pl a]|] eqn:E; [|done].
  pose proof E as (env & [= <-] & Hpl' & Hu' & _)%VerifyMultiSig_Ok. congruence.
Qed.

(** With no failing write, adopting documents whose key sets are usable succeeds. *)
Lemma adoptFleetState_ok (w : Worker) (fs : FleetState) (a m : bytes) (gks own : keyset) :
  TrustedGrantKeys (Anchors fs) = Ok gks → PinnedTrustKeys (Anchors fs) = Ok own →
  ∃ roots roots' stale,
    adoptFleetState (λ _, true) w fs a m =
      (mkWorker (mkState (ClusterRaw (st w)) (AnchorRaw (st w)) (RoutineMapRaw (st w)) roots
                   (mkStateDir (fileClusterConfig (Dir (st w))) (fileTrustAnchors (Dir (st w)))
                      (fileRoutineMap (Dir (st w))) roots'))
         (Some (clusterViewFromFleetState fs)) gks (configTrust w) (Some own)
         (Threshold (Anchors fs)) (AnchorVersion (Anchors fs)) a m stale, None).
Proof.
  intros Hg Hown. unfold adoptFleetState. rewrite Hg, Hown. unfold SaveCARoots. simpl negb.
  destruct w as [[cr ar rr roots [fc fa fr fca]] c tr ct pt pth av aw rw stale]. simpl.
  destruct (rootsDiffer _ _), (length (ta_CARootsPEM (Anchors fs)) =? 0)%nat; simpl; eauto.
Qed.

(** Loading a directory that holds a usable pair. *)
Lemma restart_ok (dir : StateDir) (now : Z) (a m : bytes) (fs : FleetState) (gks own : keyset) :
  legacy_loads dir → fileTrustAnchors dir = Some a → fileRoutineMap dir = Some m →
  a ≠ [] → m ≠ [] → parseAndCheckFleetState a m 0 0 now = Ok fs →
  TrustedGrantKeys (Anchors fs) = Ok gks → PinnedTrustKeys (Anchors fs) = Ok own →
  ∃ w, restart (λ _, true) dir now = Ok w ∧
    cluster w = Some (clusterViewFromFleetState fs) ∧ trusted w = gks ∧ pinnedTrust w = Some own ∧
    pinnedThreshold w = Threshold (Anchors fs) ∧ anchorVersion w = AnchorVersion (Anchors fs).
Proof.
  intros Hleg Hfa Hfm Ha Hm Hparse Hg Hown. destruct dir as [fc fa fr roots]. simpl in Hfa, Hfm. subst.
  unfold restart, LoadState, legacy_loads in *.
  cbn [fileClusterConfig fileTrustAnchors fileRoutineMap fileCARoots] in *. rewrite Hparse.
  assert (∀ c d, SplitMode (mkState c a m roots d) = true) as Hsplit.
  { intros. unfold SplitMode. by destruct a, m. }
  assert (∀ w1, ∃ w, (match adoptFleetState (λ _, true) w1 fs a m with
    | (w2, None) => Ok w2 | (_, Some _) => Err AdoptFailed end : result load_err Worker) = Ok w ∧
    cluster w = Some (clusterViewFromFleetState fs) ∧ trusted w = gks ∧ pinnedTrust w = Some own ∧
    pinnedThreshold w = Threshold (Anchors fs) ∧ anchorVersion w = AnchorVersion (Anchors fs)) as Hadopt.
  { intros w1. destruct (adoptFleetState_ok w1 fs a m gks own Hg Hown) as (r & r' & b & ->). eauto 10. }
  destruct fc as [b|]; [|simpl rbind; unfold NewWorker; cbn [ClusterRaw AnchorRaw RoutineMapRaw];
    simpl rbind; rewrite Hsplit, Hparse; apply Hadopt].
  destruct Hleg as [Hb Hok]. destruct (parseAndCheckClusterConfig b 0) as [[c g]|] eqn:Hc; [|done].
  pose proof (parse_TrustedConfigKeys _ _ _ _ Hc) as Hct.
  simpl rbind. unfold NewWorker. cbn [ClusterRaw AnchorRaw RoutineMapRaw].
  destruct b as [|b0 b]; [done|]. simpl (0 <? _)%nat. cbv iota. rewrite Hc.
  destruct (TrustedConfigKeys c) as [ct|]; [|done]. simpl rbind. rewrite Hsplit, Hparse. apply Hadopt.
Qed.

End Reload.

(** ** A node through an upgrade

    A legacy node whose config [g1] signed, a split pair, a legacy config signed by
    [g1] that names another grant key, and anchors that rotate the trust keys from
    [t1], [t2] to [t3]. *)
Module Upgrade.

#[local] Existing Instance ToyEd25519.toy.
#[export] Instance sha' : Sha256 := Fixture.sha.

Definition rotated : TrustAnchors :=
  mkTrustAnchors 4 [mkGrantKey "g1" (ToyEd25519.key x11) []] [] Fixture.pol "" []
    [mkTrustKey "t3" (ToyEd25519.key x03)] 1 time_zero.
Definition routine2 : RoutineMap := mkRoutineMap 8 4 (sha256 [x1a]) [] [] [].
Definition evil_config : ClusterConfig :=
  mkClusterConfig 9 [] [mkGrantKey "evil" (ToyEd25519.key x66) []] Fixture.pol [] [] [] [] "" [].

#[export] Instance dec_anchors : JSONDecode TrustAnchors := λ b,
  if bool_decide (b = [x0a]) then Some Fixture.anchors
  else if bool_decide (b = [x1a]) then Some rotated else None.
#[export] Instance dec_routine : JSONDecode RoutineMap := λ b,
  if bool_decide (b = [x0b]) then Some Fixture.routine
  else if bool_decide (b = [x1b]) then Some routine2 else None.
#[export] Instance dec_config : JSONDecode ClusterConfig := λ b,
  if bool_decide (b = [x0c]) then Some Fixture.config
  else if bool_decide (b = [x1c]) then Some evil_config else None.
#[export] Instance dec_rootkeys : JSONDecode RootKeys := Fixture.dec_rootkeys.
#[export] Instance dec_manifest : JSONDecode Manifest := Fixture.dec_manifest.
#[export] Instance dec_signed : JSONDecode Signed := λ b,
  if bool_decide (b = [xa1]) then Some Fixture.map_env
  else if bool_decide (b = [xa2]) then Some (ToyEd25519.signed_by x11 "g1" contextRoutineMap [x1b])
  else if bool_decide (b = [xa3]) then Some (ToyEd25519.signed_by x11 "g1" contextClusterConfig [x0c])
  else if bool_decide (b = [xa4]) then Some (ToyEd25519.signed_by x11 "g1" contextClusterConfig [x1c])
  else None.
#[export] Instance dec_multi : JSONDecode MultiSigned := λ b,
  if bool_decide (b = [xb1]) then Some Fixture.anchor_env
  else if bool_decide (b = [xb2]) then
    Some (mkMultiSigned [x1a] [ToyEd25519.onesig_by x01 "t1" contextTrustAnchors [x1a];
                               ToyEd25519.onesig_by x02 "t2" contextTrustAnchors [x1a]])
  else None.

Definition disk_ok (f : state_file) : bool := true.
Definition dir0 : StateDir := mkStateDir (Some [xa3]) None None [].
Definition legacy_node : Worker :=
  match restart disk_ok dir0 0 with
  | Ok w => w
  | Err _ => mkWorker (mkState [] [] [] [] dir0) None ∅ ∅ None 0 0 [] [] false
  end.
Definition pinned_node : Worker :=
  (recv disk_ok 0 legacy_node (ControllerMsg_FleetState [xb1] [xa1] [])).1.
Definition rotated_node : Worker :=
  (recv disk_ok 0 pinned_node (ControllerMsg_FleetState [xb2] [xa2] [])).1.

End Upgrade.

(** ** Theorems *)

(** C1 (worker.go, the adopt handlers): no rollback.  Over any sequence of
    messages, in any order, with any writes failing, the held config version and
    the held anchor version never decrease. *)
Theorem versions_monotone `{Ed25519, Sha256} `{JSONDecode ClusterConfig, JSONDecode TrustAnchors,
    JSONDecode RoutineMap, JSONDecode RootKeys, JSONDecode Manifest,
    JSONDecode Signed, JSONDecode MultiSigned} (w w' : Worker) :
  unpinned_wf w → rtc step w w' →
  clusterVersion w ≤ clusterVersion w' ∧ anchorVersion w ≤ anchorVersion w'.
Proof.
  intros Hwf Hs. induction Hs as [w|w w1 w2 Hstep Hs IH]; [lia|].
  destruct Hstep as [wr now w m]. destruct (recv_versions wr now w m Hwf) as (Hwf' & Hc & Ha).
  destruct (IH Hwf'). lia.
Qed.

(** C14 (worker.go, handleFleetState): custody of the pinned trust root.  Once a
    node has pinned a root it stays pinned, and whatever the controller sends, the
    root it holds is linked to the first one by a chain of anchors, each signed by
    a quorum of the root before it. *)
Theorem pinned_custody `{Ed25519, Sha256} `{JSONDecode ClusterConfig, JSONDecode TrustAnchors,
    JSONDecode RoutineMap, JSONDecode RootKeys, JSONDecode Manifest,
    JSONDecode Signed, JSONDecode MultiSigned} (w w' : Worker) (p : keyset) :
  pinnedTrust w = Some p → rtc step w w' →
  ∃ p', pinnedTrust w' = Some p' ∧
        rtc handover (p, pinnedThreshold w) (p', pinnedThreshold w').
Proof.
  intros Hp Hs. revert p Hp. induction Hs as [w|w w1 w2 Hstep Hs IH]; intros p Hp.
  { exists p. split; [done|]. apply rtc_refl. }
  destruct Hstep as [wr now w m].
  destruct (recv_custody wr now w m p Hp) as (p1 & Hp1 & Hlink).
  destruct (IH p1 Hp1) as (p' & Hp' & Hchain). exists p'. split; [done|].
  destruct Hlink as [E|Hlink]; [by rewrite <- E|by eapply rtc_l].
Qed.

(** [worker.go, handleFleetPush] The grant keys of a pinned node.  A fleet
    push changes the grant keys of a pinned node only to the keys of anchors that a
    quorum of the pinned root signed and that are not older than the held ones;
    in particular the legacy config of the push is never applied. *)
Theorem pinned_push_grant_keys `{Ed25519, Sha256} `{JSONDecode ClusterConfig,
    JSONDecode TrustAnchors, JSONDecode RoutineMap, JSONDecode RootKeys, JSONDecode Manifest,
    JSONDecode Signed, JSONDecode MultiSigned}
    (wr : state_file → bool) (now : Z) (w : Worker) (aRaw mRaw legacy : bytes) (p : keyset) :
  pinnedTrust w = Some p →
  let w' := (handleFleetPush wr now w aRaw mRaw legacy).1 in
  trusted w' = trusted w ∨
  ∃ ae a, VerifyMultiSig p (pinnedThreshold w) contextTrustAnchors (Some ae) Unmarshal
            = Ok (ms_Payload ae, a) ∧
          anchorVersion w ≤ AnchorVersion a ∧ not_expired (ta_ExpiresAt a) now ∧
          TrustedGrantKeys a = Ok (trusted w').
Proof.
  intros Hp. unfold handleFleetPush. destruct (_ && _); [|unfold alreadyPinned; rewrite Hp; by left].
  pose proof (handleFleetState_inv wr now w aRaw mRaw) as Hi.
  destruct (handleFleetState wr now w aRaw mRaw) as [w' o]. simpl.
  destruct Hi as [(_ & -> & _)|(_ & ae & me & q & t & av & cv & fs & _ & _ & Hh & HV & Hg & _)]; [by left|].
  right. unfold heldTrust in Hh. rewrite Hp in Hh. simplify_eq.
  apply VerifyFleetState_Ok in HV as (Hms & Hav & He & _).
  pose proof Hms as (env & [= <-] & Hpl & _)%VerifyMultiSig_Ok. rewrite Hpl in Hms. eauto 10.
Qed.

(** [worker.go and state.go] A restart restores the trust that was adopted.
    After an applied fleet state whose anchors are also signed by a quorum of the
    keys they name, loading the state directory succeeds and gives back the same
    cluster view, grant keys, pinned root, threshold and anchor version. *)
Theorem restart_restores `{Ed25519, Sha256} `{JSONDecode ClusterConfig, JSONDecode TrustAnchors,
    JSONDecode RoutineMap, JSONDecode RootKeys, JSONDecode Manifest,
    JSONDecode Signed, JSONDecode MultiSigned}
    (now : Z) (w w' : Worker) (aRaw mRaw : bytes) :
  handleFleetState (λ _, true) now w aRaw mRaw = (w', Applied) →
  unpinned_wf w → 0 ≤ clusterVersion w → 0 ≤ anchorVersion w →
  legacy_loads (Dir (st w)) →
  (∀ ae a, Unmarshal aRaw = Some ae → Unmarshal (ms_Payload ae) = Some a → self_signed ae a) →
  ∃ w'', restart (λ _, true) (Dir (st w')) now = Ok w'' ∧
    cluster w'' = cluster w' ∧ trusted w'' = trusted w' ∧ pinnedTrust w'' = pinnedTrust w' ∧
    pinnedThreshold w'' = pinnedThreshold w' ∧ anchorVersion w'' = anchorVersion w'.
Proof.
  intros Happ Hwf Hcv0 Hav0 Hleg Hself. unfold handleFleetState in Happ.
  destruct ((length aRaw =? 0)%nat || _) eqn:Hlen; [done|].
  apply orb_false_iff in Hlen as [Hla Hlm]. apply Nat.eqb_neq in Hla, Hlm.
  destruct (Unmarshal aRaw) as [ae|] eqn:Ha; [|done].
  destruct (Unmarshal mRaw) as [me|] eqn:Hm; [|done].
  destruct (heldTrust w ae) as [[[[p t] av] cv]|] eqn:Hh; [|done].
  destruct (VerifyFleetState _ _ _ _ _ _ _) as [fs|] eqn:HV; [|done].
  destruct (_ && _ && _); [done|]. unfold SaveFleetState in Happ. cbn [negb] in Happ.
  assert (0 ≤ av ∧ 0 ≤ cv) as [Hav Hcv].
  { unfold heldTrust in Hh. destruct (pinnedTrust w); simplify_eq; [done|].
    destruct (Unmarshal (ms_Payload ae)) as [a'|]; [|done]. destruct (PinnedTrustKeys a'); simplify_eq. lia. }
  assert (parseAndCheckFleetState aRaw mRaw 0 0 now = Ok fs) as Hparse.
  { eapply parseAndCheckFleetState_self; eauto. apply Hself; [done|].
    pose proof HV as (Hms & _)%VerifyFleetState_Ok.
    pose proof Hms as (env & [= <-] & -> & Hu & _)%VerifyMultiSig_Ok. done. }
  destruct (TrustedGrantKeys (Anchors fs)) as [gks|] eqn:Hg;
    [|unfold adoptFleetState in Happ; rewrite Hg in Happ; simplify_eq].
  destruct (PinnedTrustKeys (Anchors fs)) as [own|] eqn:Hown;
    [|unfold adoptFleetState in Happ; rewrite Hg, Hown in Happ; simplify_eq].
  match type of Happ with context [adoptFleetState _ ?w1 _ _ _] =>
    destruct (adoptFleetState_ok w1 fs aRaw mRaw gks own Hg Hown) as (r & r' & stale & E) end.
  rewrite E in Happ. simplify_eq. cbn [st Dir cluster trusted pinnedTrust pinnedThreshold anchorVersion].
  eapply restart_ok; eauto; by intros ->.
Qed.

Import Upgrade.
#[local] Existing Instance ToyEd25519.toy.

(** [worker.go, the receive loop] A legacy push replaces the grant keys of a
    pinned node.  The bare ClusterConfig message goes to [handleClusterConfig]
    without the [alreadyPinned] guard [handleFleetPush] has: a node that migrated
    and pinned its root still takes a legacy config signed by its old config key
    (here the online grant key), and its grant keys become the ones that config
    names.  The same document inside a FleetState message is ignored. *)
Theorem pinned_node_takes_legacy_config :
  alreadyPinned pinned_node = true ∧
  trusted pinned_node = {[ "g1" := ToyEd25519.key x11 ]} ∧
  (recv disk_ok 0 pinned_node (ControllerMsg_FleetState [] [] [xa4])).2 = Ignored ∧
  (recv disk_ok 0 pinned_node (ControllerMsg_ClusterConfig [xa4])).2 = Applied ∧
  trusted (recv disk_ok 0 pinned_node (ControllerMsg_ClusterConfig [xa4])).1
    = {[ "evil" := ToyEd25519.key x66 ]}.
Proof. split_and!; vm_compute; reflexivity. Qed.

(** [state.go, parseAndCheckFleetState] A rotation an agent cannot restart
    from.  Anchors that hand over to new trust keys, signed by a quorum of the held
    keys, are accepted and adopted at run time; the reload verifies the same
    anchors against the keys they name, which did not sign them, so the next
    restart of the agent fails. *)
Theorem rotation_breaks_restart :
  (recv disk_ok 0 pinned_node (ControllerMsg_FleetState [xb2] [xa2] [])).2 = Applied ∧
  anchorVersion rotated_node = 4 ∧
  pinnedTrust rotated_node = Some {[ "t3" := ToyEd25519.key x03 ]} ∧
  restart disk_ok (Dir (st rotated_node)) 0 = Err (LoadTrust (TrustEnv (ErrThreshold 0 1))).
Proof. split_and!; vm_compute; reflexivity. Qed.

Lemma versions_monotone_witness :
  clusterVersion legacy_node ≤ clusterVersion rotated_node ∧
  anchorVersion legacy_node ≤ anchorVersion rotated_node.
Proof.
  apply (versions_monotone legacy_node rotated_node).
  - vm_compute. reflexivity.
  - eapply rtc_l; [apply (step_recv disk_ok 0 legacy_node (ControllerMsg_FleetState [xb1] [xa1] []))|].
    eapply rtc_l; [apply (step_recv disk_ok 0 _ (ControllerMsg_FleetState [xb2] [xa2] []))|].
    apply rtc_refl.
Defined.

Lemma pinned_custody_witness :
  ∃ p', pinnedTrust rotated_node = Some p' ∧
    rtc handover (Fixture.pinned, pinnedThreshold pinned_node) (p', pinnedThreshold rotated_node).
Proof.
  apply (pinned_custody pinned_node rotated_node Fixture.pinned).
  - vm_compute. reflexivity.
  - eapply rtc_l; [apply (step_recv disk_ok 0 pinned_node (ControllerMsg_FleetState [xb2] [xa2] []))|].
    apply rtc_refl.
Defined.

Lemma pinned_push_grant_keys_witness :
  let w' := (handleFleetPush disk_ok 0 pinned_node [xb2] [xa2] [xa4]).1 in
  trusted w' = trusted pinned_node ∨
  ∃ ae a, VerifyMultiSig Fixture.pinned (pinnedThreshold pinned_node) contextTrustAnchors (Some ae)
            Unmarshal = Ok (ms_Payload ae, a) ∧
          anchorVersion pinned_node ≤ AnchorVersion a ∧ not_expired (ta_ExpiresAt a) 0 ∧
          TrustedGrantKeys a = Ok (trusted w').
Proof.
  apply (pinned_push_grant_keys disk_ok 0 pinned_node [xb2] [xa2] [xa4] Fixture.pinned).
  vm_compute. reflexivity.
Defined.

Lemma restart_restores_witness :
  ∃ w'', restart (λ _, true) (Dir (st pinned_node)) 0 = Ok w'' ∧
    cluster w'' = cluster pinned_node ∧ trusted w'' = trusted pinned_node ∧
    pinnedTrust w'' = pinnedTrust pinned_node ∧
    pinnedThreshold w'' = pinnedThreshold pinned_node ∧
    anchorVersion w'' = anchorVersion pinned_node.
Proof.
  apply (restart_restores 0 legacy_node pinned_node [xb1] [xa1]).
  - vm_compute. reflexivity.
  - vm_compute. reflexivity.
  - vm_compute. discriminate.
  - vm_compute. discriminate.
  - vm_compute. split; [discriminate|reflexivity].
  - intros ae a Hae Ha. assert (ae = Fixture.anchor_env) as -> by (vm_compute in Hae; by injection Hae).
    assert (a = Fixture.anchors) as -> by (vm_compute in Ha; by injection Ha).
    exists Fixture.pinned. vm_compute. auto.
Defined.
