(* ===== verification/Grant.v ===== *)
(** * Session grants (src/internal/types/grant.go, sessionpolicy.go, service.go;
      src/internal/agentd/offer.go)

    The signed single-session credential, the agent's checks of it, the capability
    ceiling it implies and the downgrade check, the services it may name, and the
    agent's gate for an offer and for the tunnel handshake.  The theorems say what
    an accepted offer and an established tunnel prove, that downgrades form a lower
    set under the grant's ceiling, and that a forward target authorizes exactly one
    destination. *)
From Stdlib Require Import ZArith Lia Strings.Byte Strings.Ascii.
From stdpp Require Import base gmap fin_maps sets list strings numbers pretty.
From S2P Require Import Prelude Wire Tunnel Envelope Trust.

Local Open Scope Z_scope.

(** ** Actions, paths and services *)

Definition ActionShell : string := "shell".
Definition ActionExec : string := "exec".
Definition ActionSFTP : string := "sftp".
Definition ActionForward : string := "forward".
Definition ActionAttach : string := "attach".
Definition ActionVPN : string := "vpn".

Definition PathNative : string := "native".
Definition PathWeb : string := "web".

Definition PathSupportsICE (clientPath : string) : bool := bool_decide (clientPath = PathNative).

Definition KindShell : string := "shell".
Definition KindExec : string := "exec".
Definition KindSFTP : string := "sftp".
Definition KindTCP : string := "tcp".
Definition KindRDP : string := "rdp".
Definition KindVNC : string := "vnc".
Definition KindHTTP : string := "http".
Definition KindPostgres : string := "postgres".
Definition KindMySQL : string := "mysql".
Definition KindSubnet : string := "subnet-route".
Definition KindExitNode : string := "exit-node".

Record Service := mkService {
  sv_Name : string; Kind : string; sv_Addr : string; sv_NodeID : string;
  sv_Labels : gmap string string }.

Definition Action (s : Service) : string :=
  if bool_decide (Kind s = KindShell) then ActionShell
  else if bool_decide (Kind s = KindExec) then ActionExec
  else if bool_decide (Kind s = KindSFTP) then ActionSFTP
  else if bool_decide (Kind s = KindSubnet) || bool_decide (Kind s = KindExitNode) then ActionVPN
  else ActionForward.

Definition IsNetwork (s : Service) : bool :=
  bool_decide (Kind s = KindSubnet) || bool_decide (Kind s = KindExitNode).

Definition KnownServiceKind (kind : string) : bool :=
  contains [KindShell; KindExec; KindSFTP; KindTCP; KindRDP; KindVNC; KindHTTP;
            KindPostgres; KindMySQL; KindSubnet; KindExitNode] kind.

(** ** The grant *)

Record RelayCandidate := mkRelayCandidate {
  rc_RegionID : string; rc_RelayID : string; TurnURL : string; TurnUser : string;
  TurnPass : string; Realm : string }.

Record SessionGrant := mkSessionGrant {
  V : Z;
  ID : string;
  User : string;
  Roles : list string;
  WorkspaceID : string;
  NetworkVNI : Z;
  NodeID : string;
  g_Action : string;
  Command : string;
  AttachID : string;
  AllowPTY : bool;
  AllowDetach : bool;
  ForwardTarget : string;
  ClientNoisePub : bytes;
  AgentNoisePub : bytes;
  RelayAddr : string;
  RelayFloor : list string;
  RelayToken : string;
  RelayCandidates : list RelayCandidate;
  ClientPath : string;
  IssuedAt : Z;
  ExpiresAt : Z;
  MaxSessionTTL : Z;
  g_Record : bool;
  g_Service : string;
  ServiceKind : string;
  Routes : list string;
  OverlayIP : string }.

Definition set_ttl (g : SessionGrant) (ttl : Z) : SessionGrant :=
  mkSessionGrant (V g) (ID g) (User g) (Roles g) (WorkspaceID g) (NetworkVNI g) (NodeID g)
    (g_Action g) (Command g) (AttachID g) (AllowPTY g) (AllowDetach g) (ForwardTarget g)
    (ClientNoisePub g) (AgentNoisePub g) (RelayAddr g) (RelayFloor g) (RelayToken g)
    (RelayCandidates g) (ClientPath g) (IssuedAt g) (ExpiresAt g) ttl (g_Record g)
    (g_Service g) (ServiceKind g) (Routes g) (OverlayIP g).

Inductive grant_err : Type :=
| GrantVersion (v : Z)
| GrantNode
| GrantNoiseKey
| GrantNotYetValid
| GrantExpired
| GrantClientKey
| GrantUnknownAction (a : string)
| ExecWithoutCommand
| AttachWithoutID
| ForwardWithoutTarget
| VPNWithoutRoutes
| GrantEnv (e : env_err)
| GrantWorkspace
| GrantKeyScope
| DetachForbidden
| NoWorkspace.

Definition knownAction (a : string) : bool :=
  contains [ActionShell; ActionExec; ActionSFTP; ActionForward; ActionAttach; ActionVPN] a.

Definition Validate (g : SessionGrant) (nodeID : string) (agentNoisePub : bytes) (now : Z)
    : option grant_err :=
  if negb (V g =? 1) then Some (GrantVersion (V g))
  else if negb (bool_decide (NodeID g = nodeID)) then Some GrantNode
  else if negb (bool_decide (AgentNoisePub g = agentNoisePub)) then Some GrantNoiseKey
  else if Before now (IssuedAt g - 2 * minute) then Some GrantNotYetValid
  else if After now (ExpiresAt g) then Some GrantExpired
  else if negb (length (ClientNoisePub g) =? 32)%nat then Some GrantClientKey
  else if negb (knownAction (g_Action g)) then Some (GrantUnknownAction (g_Action g))
  else if bool_decide (g_Action g = ActionExec) && bool_decide (Command g = "")
  then Some ExecWithoutCommand
  else if bool_decide (g_Action g = ActionAttach) && bool_decide (AttachID g = "")
  then Some AttachWithoutID
  else if bool_decide (g_Action g = ActionForward) && bool_decide (ForwardTarget g = "")
  then Some ForwardWithoutTarget
  else if bool_decide (g_Action g = ActionVPN) && (length (Routes g) =? 0)%nat
  then Some VPNWithoutRoutes
  else None.

Definition contextGrant : string := "grant".
Definition ContextSessionPolicy : string := "session-policy".

(** ** Capabilities *)

Record CapsPayload := mkCaps {
  Allow : bool; c_AllowPTY : bool; AllowInput : bool; ForwardTargets : list string;
  AllowSFTPWrite : bool; AllowNewChannels : bool }.

Definition grantImpliedCaps (g : SessionGrant) : CapsPayload :=
  mkCaps true (AllowPTY g) (AllowPTY g)
    (if bool_decide (ForwardTarget g ≠ "") then [ForwardTarget g] else [])
    (bool_decide (g_Action g = ActionSFTP)) true.

Inductive downgrade_err : Type :=
| NilCaps
| GrantsPTY
| GrantsInput
| GrantsSFTPWrite
| AddsForward (target : string).

Fixpoint check_targets (ceil targets : list string) : option downgrade_err :=
  match targets with
  | [] => None
  | t :: rest => if negb (contains ceil t) then Some (AddsForward t) else check_targets ceil rest
  end.

Definition VerifyDowngrade (grant : SessionGrant) (caps : option CapsPayload)
    : option downgrade_err :=
  match caps with
  | None => Some NilCaps
  | Some caps =>
      if negb (Allow caps) then None
      else
        let ceil := grantImpliedCaps grant in
        if c_AllowPTY caps && negb (c_AllowPTY ceil) then Some GrantsPTY
        else if AllowInput caps && negb (AllowInput ceil) then Some GrantsInput
        else if AllowSFTPWrite caps && negb (AllowSFTPWrite ceil) then Some GrantsSFTPWrite
        else check_targets (ForwardTargets ceil) (ForwardTargets caps)
  end.

(** ** The agent's gate *)

Definition maxAgentSessionTTL : Z := 24 * hour.

Definition ExecCommandAllowed (grantCommand requested : string) : bool :=
  bool_decide (grantCommand ≠ "") && bool_decide (grantCommand = requested).

(** [net.JoinHostPort] with a decimal port. *)
Definition JoinHostPort (host : string) (port : N) : string :=
  if has_char ":"%char host
  then String.append "[" (String.append host (String.append "]:" (pretty port)))
  else String.append host (String.append ":" (pretty port)).

Definition ForwardTargetAllowed (grantTarget destAddr : string) (destPort : N) : bool :=
  if bool_decide (grantTarget = "") then false
  else bool_decide (JoinHostPort destAddr destPort = grantTarget).

Section Offers.
Context `{Ed25519} `{JSONDecode SessionGrant, JSONDecode Signed}.

Definition VerifyGrant (trusted : keyset) (s : option Signed) : result grant_err SessionGrant :=
  match Verify trusted contextGrant s Unmarshal with
  | Err e => Err (GrantEnv e)
  | Ok (_, g) => Ok g
  end.

Definition EvaluateOffer (signedGrant : bytes) (trusted : keyset)
    (keyScopes : gmap string (list string)) (selfWorkspace nodeID : string)
    (agentNoisePub : bytes) (pol : AgentPolicy) (now : Z) : result grant_err SessionGrant :=
  match Unmarshal signedGrant with
  | None => Err (GrantEnv ErrUnmarshal)
  | Some env =>
      match VerifyGrant trusted (Some env) with
      | Err e => Err e
      | Ok grant =>
          match Validate grant nodeID agentNoisePub now with
          | Some e => Err e
          | None =>
              if bool_decide (selfWorkspace ≠ "") && bool_decide (WorkspaceID grant ≠ selfWorkspace)
              then Err GrantWorkspace
              else if negb (WorkspaceInScope (default [] (keyScopes !! KeyID env)) (WorkspaceID grant))
              then Err GrantKeyScope
              else if AllowDetach grant && ForbidDetach pol then Err DetachForbidden
              else if (MaxSessionTTL grant <=? 0) || (maxAgentSessionTTL <? MaxSessionTTL grant)
              then Ok (set_ttl grant maxAgentSessionTTL)
              else Ok grant
          end
      end
  end.

(** The decision of [handleSessionOffer]: the acknowledgement and the grant the
    session starts with. *)
Definition handleSessionOffer (signedGrant : bytes) (trusted : keyset)
    (keyScopes : gmap string (list string)) (selfWS nodeID : string)
    (agentNoisePub : bytes) (pol : AgentPolicy) (now : Z) : result grant_err SessionGrant :=
  if bool_decide (selfWS = "") then Err NoWorkspace
  else EvaluateOffer signedGrant trusted keyScopes selfWS nodeID agentNoisePub pol now.

(** The authorize callback of [establishTunnel]; [accept] is the encoded
    acceptance payload. *)
Definition authorizeTunnel (trusted : keyset) (grant : SessionGrant) (accept : option bytes)
    (remoteStatic payload : bytes) : option bytes :=
  match Unmarshal payload with
  | None => None
  | Some env =>
      match VerifyGrant trusted (Some env) with
      | Err _ => None
      | Ok g2 =>
          if negb (bool_decide (ID g2 = ID grant)) then None
          else if negb (bool_decide (remoteStatic = ClientNoisePub grant)) then None
          else accept
      end
  end.

(** The handshake of [establishTunnel] over a raw transport. *)
Definition establishTunnel {N : Noise} (rw : rawconn) (static : DHKey) (trusted : keyset)
    (grant : SessionGrant) (accept : option bytes) : result tunnel_err (Conn N) * rawconn :=
  Server rw static (ID grant) (authorizeTunnel trusted grant accept).

End Offers.

(** [dialRelay]: the addresses tried, in order, until one answers. *)
Definition relayFloor (grant : SessionGrant) : list string :=
  if (length (RelayFloor grant) =? 0)%nat then [RelayAddr grant] else RelayFloor grant.

Fixpoint dial_first {C : Type} (dial : string → option C) (floor : list string) : option C :=
  match floor with
  | [] => None
  | addr :: rest => match dial addr with None => dial_first dial rest | Some c => Some c end
  end.

Definition dialRelay {C : Type} (dial : string → option C) (grant : SessionGrant) : option C :=
  dial_first dial (relayFloor grant).

(** [pinRelayCert]: the check after chain verification, on the leaf's key. *)
Definition pinRelayCert (pins : list bytes) (spki : bytes) : bool :=
  existsb (λ pin, bool_decide (pin = spki)) pins.

(** ** Lemmas *)

(** The grant has the fields its action needs. *)
Definition well_shaped (g : SessionGrant) : Prop :=
  knownAction (g_Action g) = true ∧
  (g_Action g = ActionExec → Command g ≠ "") ∧ (g_Action g = ActionAttach → AttachID g ≠ "") ∧
  (g_Action g = ActionForward → ForwardTarget g ≠ "") ∧ (g_Action g = ActionVPN → Routes g ≠ []).

Lemma shape_guard (P Q : Prop) `{Decision P, Decision Q} :
  bool_decide P && bool_decide Q = false ↔ (P → ¬ Q).
Proof. do 2 case_bool_decide; simpl; naive_solver. Qed.

Lemma Validate_None (g : SessionGrant) (nodeID : string) (pub : bytes) (now : Z) :
  Validate g nodeID pub now = None ↔
  V g = 1 ∧ NodeID g = nodeID ∧ AgentNoisePub g = pub ∧ IssuedAt g - 2 * minute ≤ now ≤ ExpiresAt g ∧
  length (ClientNoisePub g) = 32%nat ∧ well_shaped g.
Proof.
  unfold Validate, Before, After, well_shaped.
  destruct (Z.eqb_spec (V g) 1); [|naive_solver]. simpl.
  case_bool_decide; [|naive_solver]. simpl. case_bool_decide; [|naive_solver]. simpl.
  destruct (Z.ltb_spec now (IssuedAt g - 2 * minute)); [split; [done|intros; lia]|].
  destruct (Z.ltb_spec (ExpiresAt g) now); [split; [done|intros; lia]|].
  destruct (Nat.eqb_spec (length (ClientNoisePub g)) 32); [|naive_solver]. simpl.
  destruct (knownAction (g_Action g)); [|naive_solver]. simpl.
  destruct (bool_decide (g_Action g = ActionExec) && _) eqn:E1.
  { split; [done|]. go_bool. naive_solver. }
  destruct (bool_decide (g_Action g = ActionAttach) && _) eqn:E2.
  { split; [done|]. go_bool. naive_solver. }
  destruct (bool_decide (g_Action g = ActionForward) && _) eqn:E3.
  { split; [done|]. go_bool. naive_solver. }
  rewrite shape_guard in E1, E2, E3.
  destruct (bool_decide (g_Action g = ActionVPN)) eqn:E4; go_bool; destruct (Routes g); simpl; naive_solver.
Qed.

Lemma VerifyGrant_Ok `{Ed25519} `{JSONDecode SessionGrant, JSONDecode Signed}
    (trusted : keyset) (s : option Signed) (g : SessionGrant) :
  VerifyGrant trusted s = Ok g ↔ ∃ k, Verify trusted contextGrant s Unmarshal = Ok (k, g).
Proof. unfold VerifyGrant. destruct (Verify _ _ _ _) as [[k g']|]; naive_solver. Qed.

(** The lifetime the agent imposes. *)
Lemma ttl_clamp (g g' : SessionGrant) :
  (if (MaxSessionTTL g <=? 0) || (maxAgentSessionTTL <? MaxSessionTTL g)
   then Ok (set_ttl g maxAgentSessionTTL) else Ok g) = (Ok g' : result grant_err SessionGrant) ↔
  (0 < MaxSessionTTL g ≤ maxAgentSessionTTL ∧ g' = g) ∨
  (¬ 0 < MaxSessionTTL g ≤ maxAgentSessionTTL ∧ g' = set_ttl g maxAgentSessionTTL).
Proof.
  destruct (Z.leb_spec (MaxSessionTTL g) 0), (Z.ltb_spec maxAgentSessionTTL (MaxSessionTTL g)); simpl;
    (split; [intros [= <-]; first [left; split; [lia|done] | right; split; [lia|done]]
            |intros [[? ->]|[? ->]]; first [done | lia]]).
Qed.

(** *** Capabilities *)

(** [c1] grants nothing [c2] does not: a cut grants nothing at all. *)
Definition caps_le (c1 c2 : CapsPayload) : Prop :=
  Allow c1 = false ∨
  (Allow c2 = true ∧ (c_AllowPTY c1 → c_AllowPTY c2) ∧ (AllowInput c1 → AllowInput c2) ∧
   (AllowSFTPWrite c1 → AllowSFTPWrite c2) ∧ (AllowNewChannels c1 → AllowNewChannels c2) ∧
   ForwardTargets c1 ⊆ ForwardTargets c2).

#[export] Instance caps_le_preorder : PreOrder caps_le.
Proof.
  split.
  - intros c. unfold caps_le. destruct (Allow c); [right|left]; auto 10.
  - intros c1 c2 c3 [?|(?&?&?&?&?&?)] [?|(?&?&?&?&?&?)]; unfold caps_le; try (by left); [congruence|].
    right. split_and!; auto. by transitivity (ForwardTargets c2).
Qed.

Lemma check_targets_None (ceil targets : list string) :
  check_targets ceil targets = None ↔ targets ⊆ ceil.
Proof.
  induction targets as [|t targets IH]; simpl.
  - split; [|done]. intros _ x Hx. by apply not_elem_of_nil in Hx.
  - destruct (contains ceil t) eqn:E; simpl.
    + apply contains_spec in E. rewrite IH. split.
      * intros Hs x [->|?]%elem_of_cons; auto.
      * intros Hs x ?. apply Hs. by right.
    + split; [done|]. intros Hs. exfalso. assert (t ∈ ceil) as ?%contains_spec by (apply Hs; left). congruence.
Qed.

Lemma VerifyDowngrade_None (g : SessionGrant) (c : CapsPayload) :
  VerifyDowngrade g (Some c) = None ↔ caps_le c (grantImpliedCaps g).
Proof.
  unfold VerifyDowngrade, caps_le. destruct (Allow c) eqn:E; simpl; [|naive_solver].
  split.
  - intros HV. right. split; [done|].
    destruct (c_AllowPTY c && negb (AllowPTY g)) eqn:E1; [done|].
    destruct (AllowInput c && negb (AllowPTY g)) eqn:E2; [done|].
    destruct (AllowSFTPWrite c && negb (bool_decide (g_Action g = ActionSFTP))) eqn:E3; [done|].
    apply check_targets_None in HV.
    destruct (c_AllowPTY c), (AllowInput c), (AllowSFTPWrite c), (AllowPTY g),
      (bool_decide (g_Action g = ActionSFTP)); simpl in *; naive_solver.
  - intros [?|(_ & H1 & H2 & H3 & _ & H5)]; [congruence|].
    apply check_targets_None in H5. simpl in H5. rewrite H5.
    destruct (c_AllowPTY c), (AllowInput c), (AllowSFTPWrite c), (AllowPTY g),
      (bool_decide (g_Action g = ActionSFTP)); simpl in *; naive_solver.
Qed.

(** *** Host and port *)

Lemma pretty_no_colon (n : N) : has_char ":"%char (pretty n) = false.
Proof.
  assert (∀ x s, has_char ":"%char s = false → has_char ":"%char (pretty_N_go x s) = false) as Hgo.
  { intros x. induction (N.lt_wf_0 x) as [x _ IH]; intros s Hs.
    destruct (decide (x = 0%N)) as [->|Hx]; [by rewrite pretty_N_go_0|].
    rewrite pretty_N_go_step by lia. apply IH; [apply N.div_lt; lia|].
    simpl. rewrite Hs, orb_false_r. unfold pretty_N_char.
    repeat case_match; vm_compute; reflexivity. }
  unfold pretty, pretty_N. case_decide; [done|]. by apply Hgo.
Qed.

Lemma JoinHostPort_inj (h1 h2 : string) (p1 p2 : N) :
  JoinHostPort h1 p1 = JoinHostPort h2 p2 → h1 = h2 ∧ p1 = p2.
Proof.
  assert (∀ h p, ∃ s, JoinHostPort h p = String.append s (String ":" (pretty p)) ∧
    ((has_char ":"%char h = false ∧ s = h) ∨
     (has_char ":"%char h = true ∧ s = String.append "[" (String.append h "]")))) as Hform.
  { intros h p. unfold JoinHostPort. destruct (has_char ":"%char h) eqn:E.
    - eexists. split; [|right; eauto]. by rewrite !append_assoc.
    - eexists. split; [|left; eauto]. done. }
  intros E. destruct (Hform h1 p1) as (s1 & E1 & H1), (Hform h2 p2) as (s2 & E2 & H2).
  rewrite E1, E2 in E. apply append_sep_inj_r in E as [E Ep]; [|apply pretty_no_colon..].
  apply (inj pretty) in Ep. split; [|done].
  destruct H1 as [[C1 ->]|[C1 ->]], H2 as [[C2 ->]|[C2 ->]]; simplify_eq/=; try done.
  - rewrite has_char_app, C2 in C1. done.
  - rewrite has_char_app, C1 in C2. done.
  - by apply append_sep_inj_r in E as [? _].
Qed.

(** ** A grant, to evaluate the theorems at *)
Module GrantFixture.

#[local] Existing Instance ToyEd25519.toy.

Definition grant : SessionGrant :=
  mkSessionGrant 1 "s-1" "alice" ["dev"] "acme" 7 "node-1" ActionShell "" "" true true ""
    (ToyEd25519.key x12) (ToyEd25519.key x22) "relay:7403" [] "gz-00" [] PathNative
    (1000 * second) (1120 * second) (8 * hour) false "" "" [] "".

#[export] Instance dec_grant : JSONDecode SessionGrant :=
  λ b, if bool_decide (b = [x41]) then Some grant else None.
#[export] Instance dec_env : JSONDecode Signed :=
  λ b, if bool_decide (b = [x42]) then Some (ToyEd25519.signed_by x11 "g1" contextGrant [x41]) else None.

Definition trusted : keyset := {[ "g1" := ToyEd25519.key x11 ]}.

(** The client's first message in the clear: its key and the signed grant. *)
Definition client_raw : rawconn :=
  mkRaw (mkReader (frame (Clear.put_key (ToyEd25519.key x12) [x42])) EOF) (mkWriter [] None).

Definition agent_conn : Conn Clear.noise :=
  @mkConn Clear.noise (mkRaw (mkReader [] EOF) (mkWriter (frame [x01]) None)) 100%nat [] 100%nat
    (ToyEd25519.key x12).

End GrantFixture.

(** ** Theorems *)

Lemma EvaluateOffer_spec `{Ed25519} `{JSONDecode SessionGrant, JSONDecode Signed}
    (raw : bytes) (trusted : keyset) (scopes : gmap string (list string)) (ws nodeID : string)
    (pub : bytes) (pol : AgentPolicy) (now : Z) (g' : SessionGrant) :
  EvaluateOffer raw trusted scopes ws nodeID pub pol now = Ok g' ↔
  ∃ env g, Unmarshal raw = Some env ∧
    Verify trusted contextGrant (Some env) Unmarshal = Ok (KeyID env, g) ∧
    V g = 1 ∧ NodeID g = nodeID ∧ AgentNoisePub g = pub ∧
    IssuedAt g - 2 * minute ≤ now ≤ ExpiresAt g ∧ length (ClientNoisePub g) = 32%nat ∧
    well_shaped g ∧ (ws = "" ∨ WorkspaceID g = ws) ∧
    WorkspaceInScope (default [] (scopes !! KeyID env)) (WorkspaceID g) = true ∧
    (AllowDetach g = true → ForbidDetach pol = false) ∧
    ((0 < MaxSessionTTL g ≤ maxAgentSessionTTL ∧ g' = g) ∨
     (¬ 0 < MaxSessionTTL g ≤ maxAgentSessionTTL ∧ g' = set_ttl g maxAgentSessionTTL)).
Proof.
  unfold EvaluateOffer. destruct (Unmarshal raw) as [env|]; [|naive_solver].
  destruct (VerifyGrant trusted (Some env)) as [g|] eqn:HV.
  2:{ split; [done|]. intros (? & g & [= <-] & HV' & _).
      assert (VerifyGrant trusted (Some env) = Ok g) by (apply VerifyGrant_Ok; eauto). congruence. }
  assert (∀ k g0, Verify trusted contextGrant (Some env) Unmarshal = Ok (k, g0) ↔
    k = KeyID env ∧ g0 = g) as Hu.
  { apply VerifyGrant_Ok in HV as [k HV]. intros k0 g0. rewrite HV.
    apply Verify_Ok in HV as (? & ? & [= <-] & -> & _). naive_solver. }
  destruct (Validate g nodeID pub now) as [ge|] eqn:Hval.
  { split; [done|]. intros (? & g0 & [= <-] & [_ ->]%Hu & Hrest).
    assert (Validate g nodeID pub now = None) by (apply Validate_None; tauto). congruence. }
  apply Validate_None in Hval.
  destruct (bool_decide (ws ≠ "") && _) eqn:Ews.
  { go_bool. split; [done|]. intros (? & g0 & [= <-] & [_ ->]%Hu & _ & _ & _ & _ & _ & _ & Hw & Hs & Hdt & _). by destruct Hw. }
  rewrite shape_guard in Ews.
  destruct (WorkspaceInScope _ _) eqn:Esc; simpl.
  2:{ split; [done|]. intros (? & g0 & [= <-] & [_ ->]%Hu & _ & _ & _ & _ & _ & _ & Hw & Hs & Hdt & _). congruence. }
  destruct (AllowDetach g && ForbidDetach pol) eqn:Ed.
  { go_bool. split; [done|]. intros (? & g0 & [= <-] & [_ ->]%Hu & _ & _ & _ & _ & _ & _ & Hw & Hs & Hdt & _). rewrite Hdt in *; congruence. }
  assert (ws = "" ∨ WorkspaceID g = ws) as Hws.
  { destruct (decide (ws = "")); [by left|]. right. by apply dec_stable, Ews. }
  assert (AllowDetach g = true → ForbidDetach pol = false) as Hd by (intros E; by rewrite E in Ed).
  assert (Verify trusted contextGrant (Some env) Unmarshal = Ok (KeyID env, g)) as Hver by by apply Hu.
  destruct Hval as (? & ? & ? & ? & ? & ?).
  split.
  - intros E. exists env, g. do 11 (split; [by auto|]). by apply ttl_clamp.
  - intros (? & g0 & [= <-] & [_ ->]%Hu & _ & _ & _ & _ & _ & _ & _ & _ & _ & Hlast).
    by apply ttl_clamp.
Qed.

(** C35 (offer.go, EvaluateOffer): what an accepted offer proves.  The agent
    accepts exactly the grants signed under the grant context by a trusted key,
    for this node and this agent key, inside their window, well shaped for their
    action, for the agent's own workspace and inside the signing key's scope, not
    detachable where local policy forbids it; and the accepted grant is the signed
    one with a lifetime that is positive and at most 24 hours. *)
Theorem EvaluateOffer_iff `{Ed25519} `{JSONDecode SessionGrant, JSONDecode Signed}
    (raw : bytes) (trusted : keyset) (scopes : gmap string (list string)) (ws nodeID : string)
    (pub : bytes) (pol : AgentPolicy) (now : Z) (g' : SessionGrant) :
  EvaluateOffer raw trusted scopes ws nodeID pub pol now = Ok g' ↔
  ∃ env g, Unmarshal raw = Some env ∧
    Verify trusted contextGrant (Some env) Unmarshal = Ok (KeyID env, g) ∧
    V g = 1 ∧ NodeID g = nodeID ∧ AgentNoisePub g = pub ∧
    IssuedAt g - 2 * minute ≤ now ≤ ExpiresAt g ∧ length (ClientNoisePub g) = 32%nat ∧
    well_shaped g ∧ (ws = "" ∨ WorkspaceID g = ws) ∧
    WorkspaceInScope (default [] (scopes !! KeyID env)) (WorkspaceID g) = true ∧
    (AllowDetach g = true → ForbidDetach pol = false) ∧
    ((0 < MaxSessionTTL g ≤ maxAgentSessionTTL ∧ g' = g) ∨
     (¬ 0 < MaxSessionTTL g ≤ maxAgentSessionTTL ∧ g' = set_ttl g maxAgentSessionTTL)).
Proof. apply EvaluateOffer_spec. Qed.

(** C36 (offer.go, establishTunnel): an established tunnel is the offered session's.
    When the responder returns a connection, the handshake it ran was that of the agent's
    key and the offered grant's id; the initiator's key which it authenticated is the
    client key of the offered grant and the connection's remote key; and the payload which
    it authenticated was a grant with the same id signed under the grant context by a
    trusted key. *)
Theorem establishTunnel_binds `{Ed25519} `{JSONDecode SessionGrant, JSONDecode Signed} {N : Noise}
    {NP : NoisePeer N} (rw rw' : rawconn) (static : DHKey) (trusted : keyset) (grant : SessionGrant)
    (accept : option bytes) (c : Conn N) :
  establishTunnel rw static trusted grant accept = (Ok c, rw') →
  ∃ hs msg1 r payload o hs1 env k g2,
    opens rw static (ID grant) hs msg1 r payload o hs1 ∧
    PeerStatic hs1 = ClientNoisePub grant ∧ remoteStatic c = ClientNoisePub grant ∧
    Unmarshal payload = Some env ∧ Verify trusted contextGrant (Some env) Unmarshal = Ok (k, g2) ∧
    ID g2 = ID grant.
Proof.
  intros HS. apply Server_Ok in HS as
    (hs & msg1 & r & payload & o & hs1 & acc & msg2 & cs0 & cs1 & hs2 & Ho & Ha & _ & _ & _ & _ & _ & Hrs).
  unfold authorizeTunnel in Ha. destruct (Unmarshal payload) as [env|] eqn:Hu; [|done].
  destruct (VerifyGrant trusted (Some env)) as [g2|] eqn:HV; [|done].
  apply VerifyGrant_Ok in HV as [k HV].
  destruct (bool_decide_reflect (ID g2 = ID grant)) as [Hid|]; [|done]. simpl in Ha.
  destruct (bool_decide_reflect (PeerStatic hs1 = ClientNoisePub grant)) as [Hk|]; [|done].
  exists hs, msg1, r, payload, o, hs1, env, k, g2. split_and!; try done. congruence.
Qed.

(** [sessionpolicy.go, VerifyDowngrade] A delta is accepted exactly if it is
    a full cut or grants nothing beyond the grant's ceiling, and any further
    restriction of accepted capabilities is accepted too. *)
Theorem VerifyDowngrade_ceiling (g : SessionGrant) (c : CapsPayload) :
  (VerifyDowngrade g (Some c) = None ↔
     Allow c = false ∨
     ((c_AllowPTY c = true → AllowPTY g = true) ∧ (AllowInput c = true → AllowPTY g = true) ∧
      (AllowSFTPWrite c = true → g_Action g = ActionSFTP) ∧
      (∀ t, t ∈ ForwardTargets c → t ≠ "" ∧ t = ForwardTarget g))) ∧
  (VerifyDowngrade g (Some c) = None → ∀ c', caps_le c' c → VerifyDowngrade g (Some c') = None) ∧
  VerifyDowngrade g None ≠ None.
Proof.
  split_and!; [|intros Hc c' Hle; apply VerifyDowngrade_None; rewrite VerifyDowngrade_None in Hc; by etrans|done].
  rewrite VerifyDowngrade_None. unfold caps_le, grantImpliedCaps.
  cbn [Allow c_AllowPTY AllowInput AllowSFTPWrite AllowNewChannels ForwardTargets].
  assert (ForwardTargets c ⊆ (if bool_decide (ForwardTarget g ≠ "") then [ForwardTarget g] else []) ↔
    ∀ t, t ∈ ForwardTargets c → t ≠ "" ∧ t = ForwardTarget g) as ->.
  { case_bool_decide; split.
    - intros Hs t Ht%Hs. apply list_elem_of_singleton in Ht as ->. done.
    - intros Hs t [_ ->]%Hs. by apply list_elem_of_singleton.
    - intros Hs t Ht%Hs. by apply not_elem_of_nil in Ht.
    - intros Hs t [? ->]%Hs. done. }
  rewrite !Is_true_true, bool_decide_eq_true. destruct (Allow c); [|tauto].
  split; [intros [?|?]; [done|tauto] | intros [?|?]; [done|right; tauto]].
Qed.

(** [offer.go, ForwardTargetAllowed] A forward grant authorizes one
    destination: if two requested destinations both match a target, they are the
    same host and the same port, IPv6 literals included; an empty target matches
    nothing. *)
Theorem ForwardTargetAllowed_unique (target a1 a2 : string) (p1 p2 : N) :
  ForwardTargetAllowed "" a1 p1 = false ∧
  (ForwardTargetAllowed target a1 p1 = true → ForwardTargetAllowed target a2 p2 = true →
   a1 = a2 ∧ p1 = p2).
Proof.
  split; [done|]. unfold ForwardTargetAllowed. case_bool_decide; [done|].
  intros ?%bool_decide_eq_true_1 ?%bool_decide_eq_true_1. apply JoinHostPort_inj. congruence.
Qed.

Import GrantFixture.
#[local] Existing Instance ToyEd25519.toy.

Lemma establishTunnel_binds_witness :
  ∃ (hs : @HandshakeState Clear.noise) msg1 r payload o hs1 env k g2,
    opens client_raw (mkDHKey (ToyEd25519.key x21) (ToyEd25519.key x22)) (ID grant) hs msg1 r payload o hs1 ∧
    PeerStatic hs1 = ClientNoisePub grant ∧ remoteStatic agent_conn = ClientNoisePub grant ∧
    Unmarshal payload = Some env ∧ Verify trusted contextGrant (Some env) Unmarshal = Ok (k, g2) ∧
    ID g2 = ID grant.
Proof.
  apply (establishTunnel_binds (N := Clear.noise) (NP := Clear.noise_peer) client_raw
           (mkRaw (mkReader [] EOF) (mkWriter (frame [x01]) None))
           (mkDHKey (ToyEd25519.key x21) (ToyEd25519.key x22)) trusted grant (Some [x01]) agent_conn).
  vm_compute. reflexivity.
Defined.
