(* ===== verification/Lease.v ===== *)
(** * Realtime session enforcement (src/internal/agentd/lease.go and the live-session
      part of worker.go)

    The agent's per-session enforcement state and the three signed messages that
    drive it: the fail-closed lease, the downgrade-only delta and the revoke, with
    the lease timer, the forward splices and the sftp channel they tear.  The state
    is the map of live sessions and the log of effects on the rest of the agent
    (cancelled conduits, killed host sessions, pushed host caps, events).  Each
    handler is one step; the timers run between them.  The theorems: only messages
    a trusted grant key signed for this session and client key have an effect,
    epochs only grow and a replay has no effect, live capabilities stay under the
    grant's ceiling, a starved session is torn without killing its host PTY, a
    revoke always kills and acknowledges. *)
From Stdlib Require Import ZArith Lia Strings.Byte Strings.Ascii.
From stdpp Require Import base gmap fin_maps sets list strings numbers relations.
From S2P Require Import Prelude Wire Envelope Trust Grant.

Local Open Scope Z_scope.

(** ** Messages *)

Record LeasePayload := mkLeasePayload {
  lp_SessionID : string; lp_Epoch : Z; ExpiryUnixMs : Z; lp_ClientNoisePub : bytes }.

Record DeltaPayload := mkDeltaPayload {
  dp_SessionID : string; dp_Epoch : Z; Op : string; Target : string;
  dp_Caps : option CapsPayload; LeaseExpiryUnixMs : Z; dp_ClientNoisePub : bytes }.

Record RevokePayload := mkRevokePayload {
  rp_SessionID : string; rp_Epoch : Z; Reason : string; rp_ClientNoisePub : bytes }.

(** The protobuf messages: the session id and the signed envelope; a delta also
    carries the capabilities outside its signature. *)
Record SessionCaps := mkSessionCaps {
  pb_Allow : bool; pb_AllowPty : bool; pb_AllowInput : bool; pb_ForwardTargets : list string;
  pb_AllowSftpWrite : bool; pb_AllowNewChannels : bool }.

Record SessionLease := mkSessionLease { l_SessionId : string; l_Sig : bytes }.
Record SessionPolicyDelta := mkSessionPolicyDelta {
  d_SessionId : string; d_Sig : bytes; d_Caps : option SessionCaps }.
Record SessionRevoke := mkSessionRevoke { r_SessionId : string; r_Sig : bytes }.

Definition capsFromProto (c : option SessionCaps) : option CapsPayload :=
  match c with
  | None => None
  | Some c => Some (mkCaps (pb_Allow c) (pb_AllowPty c) (pb_AllowInput c) (pb_ForwardTargets c)
                      (pb_AllowSftpWrite c) (pb_AllowNewChannels c))
  end.

(** ** State *)

Record trackedSplice := mkSplice { destAddr : string; destPort : N }.

(** [leaseTimer] is the instant the armed timer fires at; [fwds] is keyed by the
    splice's pointer; [sftpCancel] says whether an sftp channel is open. *)
Record liveSession := mkLive {
  ls_grant : SessionGrant;
  pathClass : string;
  clientNoisePub : bytes;
  epoch : Z;
  leaseDeadline : Z;
  leaseTimer : option Z;
  caps : option SessionCaps;
  fwds : gmap nat trackedSplice;
  sftpCancel : bool }.

Inductive effect : Type :=
| Cancel (id : string)
| KillHost (id : string)
| SetHostCaps (id : string) (readOnly newChannels sftpWrite : bool) (forwards : list string)
| EmitRevoked (id reason path : string) (ep : Z)
| CancelSplice (id : string) (ptr : nat)
| CancelSftp (id : string).

Record agent := mkAgent { live : gmap string liveSession; effects : list effect }.

Definition emit (a : agent) (es : list effect) : agent := mkAgent (live a) (effects a ++ es).
Definition set_live (a : agent) (id : string) (ls : liveSession) : agent :=
  mkAgent (<[id := ls]> (live a)) (effects a).
Definition del_live (a : agent) (id : string) : agent := mkAgent (delete id (live a)) (effects a).

(** [time.UnixMilli] and [t.UnixMilli()]. *)
Definition millisecond : Z := 1000000.
Definition of_UnixMilli (ms : Z) : Z := ms * millisecond.
Definition UnixMilli (t : Z) : Z := t / millisecond.

Definition SessionLeaseTTL : Z := 120 * second.

(** ** Timers *)

Definition stopLeaseTimer (ls : liveSession) : liveSession :=
  mkLive (ls_grant ls) (pathClass ls) (clientNoisePub ls) (epoch ls) (leaseDeadline ls) None
    (caps ls) (fwds ls) (sftpCancel ls).

(** The deadline, and the timer that fires then or at once if it has passed. *)
Definition rearmLocked (now : Z) (ls : liveSession) (expiryUnixMs : Z) : liveSession :=
  let deadline := of_UnixMilli expiryUnixMs in
  let d := if deadline - now <? 0 then 0 else deadline - now in
  mkLive (ls_grant ls) (pathClass ls) (clientNoisePub ls) (epoch ls) deadline (Some (now + d))
    (caps ls) (fwds ls) (sftpCancel ls).

Definition armLeaseTimer (now : Z) (a : agent) (id : string) (expiryUnixMs : Z) : agent :=
  match live a !! id with
  | None => a
  | Some ls => set_live a id (rearmLocked now ls expiryUnixMs)
  end.

Definition onLeaseExpired (now : Z) (a : agent) (id : string) : agent :=
  match live a !! id with
  | None => a
  | Some ls =>
      if Before now (leaseDeadline ls) then a
      else emit (del_live a id) [Cancel id]
  end.

(** ** Live sessions *)

Definition registerLive (now : Z) (a : agent) (id : string) (grant : SessionGrant)
    (path : string) : agent :=
  let ls := mkLive grant path (ClientNoisePub grant) 0 time_zero None None ∅ false in
  armLeaseTimer now (set_live a id ls) id (UnixMilli (now + SessionLeaseTTL)).

Definition unregisterLive (a : agent) (id : string) : agent := del_live a id.

(** The host client is reachable or not; its session list and the kill are the
    host's. *)
Definition killHostSession (a : agent) (id : string) : agent := emit a [KillHost id].

Definition revokeLive (a : agent) (id reason : string) : agent :=
  let '(a1, path, ep) :=
    match live a !! id with
    | None => (del_live a id, "", 0)
    | Some ls => (emit (del_live a id) [Cancel id], pathClass ls, epoch ls)
    end in
  emit (killHostSession a1 id) [EmitRevoked id reason path ep].

Definition setHostCaps (a : agent) (id : string) (c : option SessionCaps) : agent :=
  match c with
  | None => a
  | Some c =>
      emit a [SetHostCaps id (negb (pb_AllowInput c)) (pb_AllowNewChannels c)
                (pb_AllowSftpWrite c) (pb_ForwardTargets c)]
  end.

Definition set_fwds (ls : liveSession) (f : gmap nat trackedSplice) : liveSession :=
  mkLive (ls_grant ls) (pathClass ls) (clientNoisePub ls) (epoch ls) (leaseDeadline ls)
    (leaseTimer ls) (caps ls) f (sftpCancel ls).

Definition set_sftp (ls : liveSession) (b : bool) : liveSession :=
  mkLive (ls_grant ls) (pathClass ls) (clientNoisePub ls) (epoch ls) (leaseDeadline ls)
    (leaseTimer ls) (caps ls) (fwds ls) b.

Definition trackSplice (a : agent) (id : string) (ptr : nat) (ts : trackedSplice) : agent :=
  match live a !! id with
  | None => a
  | Some ls => set_live a id (set_fwds ls (<[ptr := ts]> (fwds ls)))
  end.

Definition untrackSplice (a : agent) (id : string) (ptr : nat) : agent :=
  match live a !! id with
  | None => a
  | Some ls => set_live a id (set_fwds ls (delete ptr (fwds ls)))
  end.

Fixpoint targetAllowed (allowed : list string) (addr : string) (port : N) : bool :=
  match allowed with
  | [] => false
  | t :: rest => if ForwardTargetAllowed t addr port then true else targetAllowed rest addr port
  end.

Definition capsAllowForward (c : option SessionCaps) (addr : string) (port : N) : bool :=
  match c with
  | None => true
  | Some c => targetAllowed (pb_ForwardTargets c) addr port
  end.

Definition tearForwards (a : agent) (id : string) (allowed : list string) : agent :=
  match live a !! id with
  | None => a
  | Some ls =>
      emit a (omap (λ e : nat * trackedSplice,
                      if targetAllowed allowed (destAddr e.2) (destPort e.2) then None
                      else Some (CancelSplice id e.1)) (map_to_list (fwds ls)))
  end.

Definition setSftpCancel (a : agent) (id : string) : agent :=
  match live a !! id with None => a | Some ls => set_live a id (set_sftp ls true) end.

Definition clearSftpCancel (a : agent) (id : string) : agent :=
  match live a !! id with None => a | Some ls => set_live a id (set_sftp ls false) end.

Definition tearWrites (a : agent) (id : string) : agent :=
  match live a !! id with
  | None => a
  | Some ls => if sftpCancel ls then emit a [CancelSftp id] else a
  end.

Definition sessionCaps (a : agent) (id : string) : option SessionCaps :=
  match live a !! id with None => None | Some ls => caps ls end.

Definition sessionAudit (a : agent) (id : string) : string * Z :=
  match live a !! id with None => ("", 0) | Some ls => (pathClass ls, epoch ls) end.

(** ** The signed messages *)

Section Enforcement.
Context `{Ed25519} `{JSONDecode Signed, JSONDecode LeasePayload, JSONDecode DeltaPayload,
  JSONDecode RevokePayload}.
Context (trusted : keyset).

Definition verifyEnforcement {A : Type} `{JSONDecode A} (sigBytes : bytes) : result env_err A :=
  match Unmarshal sigBytes with
  | None => Err ErrUnmarshal
  | Some env =>
      match Verify trusted ContextSessionPolicy (Some env) Unmarshal with
      | Err e => Err e
      | Ok (_, p) => Ok p
      end
  end.

Definition with_epoch (ls : liveSession) (e : Z) : liveSession :=
  mkLive (ls_grant ls) (pathClass ls) (clientNoisePub ls) e (leaseDeadline ls)
    (leaseTimer ls) (caps ls) (fwds ls) (sftpCancel ls).

Definition with_caps (ls : liveSession) (c : option SessionCaps) : liveSession :=
  mkLive (ls_grant ls) (pathClass ls) (clientNoisePub ls) (epoch ls) (leaseDeadline ls)
    (leaseTimer ls) c (fwds ls) (sftpCancel ls).

Definition applyLease (now : Z) (a : agent) (l : SessionLease) : agent :=
  match verifyEnforcement (l_Sig l) with
  | Err _ => a
  | Ok p =>
      match live a !! l_SessionId l with
      | None => a
      | Some ls =>
          if negb (bool_decide (lp_SessionID p = l_SessionId l))
             || negb (bool_decide (lp_ClientNoisePub p = clientNoisePub ls))
          then a
          else if lp_Epoch p <=? epoch ls then a
          else set_live a (l_SessionId l)
                 (rearmLocked now (with_epoch ls (lp_Epoch p)) (ExpiryUnixMs p))
      end
  end.

Definition applyDelta (now : Z) (a : agent) (d : SessionPolicyDelta) : agent :=
  match verifyEnforcement (d_Sig d) with
  | Err _ => a
  | Ok p =>
      match live a !! d_SessionId d with
      | None => a
      | Some ls =>
          if negb (bool_decide (dp_SessionID p = d_SessionId d))
             || negb (bool_decide (dp_ClientNoisePub p = clientNoisePub ls))
          then a
          else if dp_Epoch p <=? epoch ls then a
          else
            let id := d_SessionId d in
            let caps := capsFromProto (d_Caps d) in
            match VerifyDowngrade (ls_grant ls) caps with
            | Some _ => a
            | None =>
                if match caps with Some c => negb (Allow c) | None => false end
                then revokeLive a id "policy delta: cut"
                else
                  let ls1 := with_caps (with_epoch ls (dp_Epoch p)) (d_Caps d) in
                  let ls2 := if 0 <? LeaseExpiryUnixMs p
                             then rearmLocked now ls1 (LeaseExpiryUnixMs p) else ls1 in
                  let a1 := set_live a id ls2 in
                  let a2 := setHostCaps a1 id (d_Caps d) in
                  let a3 := tearForwards a2 id
                              (match d_Caps d with Some c => pb_ForwardTargets c | None => [] end) in
                  if negb (match d_Caps d with Some c => pb_AllowSftpWrite c | None => false end)
                  then tearWrites a3 id else a3
            end
      end
  end.

Definition applyRevoke (a : agent) (rev : SessionRevoke) : agent :=
  match verifyEnforcement (r_Sig rev) with
  | Err _ => a
  | Ok p =>
      let id := r_SessionId rev in
      if negb (bool_decide (rp_SessionID p = id)) then a
      else
        match live a !! id with
        | Some ls =>
            if negb (bool_decide (rp_ClientNoisePub p = clientNoisePub ls)) then a
            else if rp_Epoch p <=? epoch ls then a
            else revokeLive a id (Reason p)
        | None => revokeLive a id (Reason p)
        end
  end.

(** What happens to the enforcement state: the messages, the timers and the
    session's own life, at any instant. *)
Inductive event : Type :=
| EvLease (now : Z) (l : SessionLease)
| EvDelta (now : Z) (d : SessionPolicyDelta)
| EvRevoke (r : SessionRevoke)
| EvTimer (now : Z) (id : string)
| EvRegister (now : Z) (id : string) (grant : SessionGrant) (path : string)
| EvUnregister (id : string)
| EvTrack (id : string) (ptr : nat) (ts : trackedSplice)
| EvUntrack (id : string) (ptr : nat)
| EvSftpOpen (id : string)
| EvSftpClose (id : string).

Definition handle (a : agent) (e : event) : agent :=
  match e with
  | EvLease now l => applyLease now a l
  | EvDelta now d => applyDelta now a d
  | EvRevoke r => applyRevoke a r
  | EvTimer now id => onLeaseExpired now a id
  | EvRegister now id g p => registerLive now a id g p
  | EvUnregister id => unregisterLive a id
  | EvTrack id ptr ts => trackSplice a id ptr ts
  | EvUntrack id ptr => untrackSplice a id ptr
  | EvSftpOpen id => setSftpCancel a id
  | EvSftpClose id => clearSftpCancel a id
  end.

Definition run (a : agent) (es : list event) : agent := fold_left handle es a.

End Enforcement.

(** ** Lemmas *)

(** A live session's invariant: live capabilities are under the grant's ceiling and
    never a cut, the client key is the grant's, and a timer is armed that fires no
    earlier than the deadline. *)
Definition session_ok (ls : liveSession) : Prop :=
  (∀ c, caps ls = Some c →
     pb_Allow c = true ∧ VerifyDowngrade (ls_grant ls) (capsFromProto (Some c)) = None) ∧
  clientNoisePub ls = ClientNoisePub (ls_grant ls) ∧
  (∃ f, leaseTimer ls = Some f ∧ leaseDeadline ls ≤ f).

Definition agent_ok (a : agent) : Prop := map_Forall (λ _, session_ok) (live a).

(** How a session may change while it stays registered. *)
Definition evolves (ls ls' : liveSession) : Prop :=
  ls_grant ls' = ls_grant ls ∧ clientNoisePub ls' = clientNoisePub ls ∧ epoch ls ≤ epoch ls' ∧
  (session_ok ls → session_ok ls').

#[export] Instance evolves_preorder : PreOrder evolves.
Proof.
  split.
  - intros ls. by unfold evolves.
  - intros l1 l2 l3 (? & ? & ? & ?) (? & ? & ? & ?). unfold evolves. split_and!; [congruence..|lia|auto].
Qed.

Lemma rearm_ok (now : Z) (ls : liveSession) (ms : Z) :
  (∀ c, caps ls = Some c →
     pb_Allow c = true ∧ VerifyDowngrade (ls_grant ls) (capsFromProto (Some c)) = None) →
  clientNoisePub ls = ClientNoisePub (ls_grant ls) → session_ok (rearmLocked now ls ms).
Proof.
  intros Hc Hk. unfold session_ok, rearmLocked. cbn. split_and!; [done..|].
  eexists. split; [done|]. destruct (Z.ltb_spec (of_UnixMilli ms - now) 0); lia.
Qed.

Lemma evolves_rearm (now : Z) (ls : liveSession) (ms : Z) : evolves ls (rearmLocked now ls ms).
Proof.
  unfold evolves. split_and!; [done..|simpl; lia|]. intros (Hc & Hk & _). by apply rearm_ok.
Qed.

Lemma evolves_epoch (ls : liveSession) (e : Z) : epoch ls < e → evolves ls (with_epoch ls e).
Proof. intros. unfold evolves, session_ok. simpl. split_and!; auto with lia. Qed.

Lemma evolves_caps (ls : liveSession) (c : SessionCaps) :
  VerifyDowngrade (ls_grant ls) (capsFromProto (Some c)) = None → pb_Allow c = true →
  evolves ls (with_caps ls (Some c)).
Proof.
  intros Hd Ha. unfold evolves, session_ok. cbn [ls_grant clientNoisePub epoch caps leaseTimer leaseDeadline with_caps].
  split_and!; auto with lia. intros (_ & Hk & Ht). split_and!; [|done..]. intros c' [= <-]. done.
Qed.

Lemma evolves_fwds (ls : liveSession) (f : gmap nat trackedSplice) : evolves ls (set_fwds ls f).
Proof. unfold evolves, session_ok. simpl. auto with lia. Qed.

Lemma evolves_sftp (ls : liveSession) (b : bool) : evolves ls (set_sftp ls b).
Proof. unfold evolves, session_ok. simpl. auto with lia. Qed.

#[export] Hint Resolve evolves_rearm evolves_epoch evolves_caps evolves_fwds evolves_sftp : geneza.

(** Updating one session in place keeps the others. *)
Lemma set_live_evolves (a : agent) (id id' : string) (ls ls1 ls' : liveSession) :
  live a !! id = Some ls → evolves ls ls1 → live (set_live a id ls1) !! id' = Some ls' →
  ∃ ls0, live a !! id' = Some ls0 ∧ evolves ls0 ls'.
Proof.
  intros Hl He H'. cbn [live set_live] in H'.
  apply lookup_insert_Some in H' as [[<- <-]|[_ H']]; [eauto|].
  exists ls'. split; [done|reflexivity].
Qed.

Lemma live_evolves_refl (a : agent) (id : string) (ls : liveSession) :
  live a !! id = Some ls → ∃ ls0, live a !! id = Some ls0 ∧ evolves ls0 ls.
Proof. intros. exists ls. split; [done|reflexivity]. Qed.

Lemma live_setHostCaps a id c : live (setHostCaps a id c) = live a.
Proof. by destruct c. Qed.
Lemma live_tearForwards a id al : live (tearForwards a id al) = live a.
Proof. unfold tearForwards. by destruct (live a !! id). Qed.
Lemma live_tearWrites a id : live (tearWrites a id) = live a.
Proof. unfold tearWrites. destruct (live a !! id) as [ls|]; [by destruct (sftpCancel ls)|done]. Qed.
Lemma live_revokeLive a id r : live (revokeLive a id r) = delete id (live a).
Proof. unfold revokeLive. by destruct (live a !! id). Qed.

#[export] Hint Rewrite live_setHostCaps live_tearForwards live_tearWrites live_revokeLive : geneza.

Lemma delete_live_evolves (m : gmap string liveSession) (id id' : string) (ls' : liveSession) :
  delete id m !! id' = Some ls' → ∃ ls0, m !! id' = Some ls0 ∧ evolves ls0 ls'.
Proof. intros [_ H]%lookup_delete_Some. exists ls'. split; [done|reflexivity]. Qed.

Section EnforcementLemmas.
Context `{Ed25519} `{JSONDecode Signed, JSONDecode LeasePayload, JSONDecode DeltaPayload,
  JSONDecode RevokePayload}.
Context (trusted : keyset).

Lemma applyLease_evolves now a l id' ls' :
  live (applyLease trusted now a l) !! id' = Some ls' →
  ∃ ls, live a !! id' = Some ls ∧ evolves ls ls'.
Proof.
  unfold applyLease. destruct (verifyEnforcement _ _) as [p|]; [|apply live_evolves_refl].
  destruct (live a !! l_SessionId l) as [ls|] eqn:Hl; [|apply live_evolves_refl].
  destruct (negb _ || negb _); [apply live_evolves_refl|].
  destruct (Z.leb_spec (lp_Epoch p) (epoch ls)); [apply live_evolves_refl|].
  eapply set_live_evolves; [done|]. etrans; [by apply evolves_epoch|apply evolves_rearm].
Qed.

Lemma applyDelta_evolves now a d id' ls' :
  live (applyDelta trusted now a d) !! id' = Some ls' →
  ∃ ls, live a !! id' = Some ls ∧ evolves ls ls'.
Proof.
  unfold applyDelta. destruct (verifyEnforcement _ _) as [p|]; [|apply live_evolves_refl].
  destruct (live a !! d_SessionId d) as [ls|] eqn:Hl; [|apply live_evolves_refl].
  destruct (negb _ || negb _); [apply live_evolves_refl|].
  destruct (Z.leb_spec (dp_Epoch p) (epoch ls)); [apply live_evolves_refl|].
  destruct (VerifyDowngrade _ _) eqn:Hd; [apply live_evolves_refl|].
  destruct (d_Caps d) as [c|] eqn:Hc; [|done].
  cbn [capsFromProto Allow]. destruct (pb_Allow c) eqn:Ha; cbn [negb].
  2:{ rewrite live_revokeLive. apply delete_live_evolves. }
  assert (∀ a0 : agent, live (if negb (pb_AllowSftpWrite c) then tearWrites a0 (d_SessionId d) else a0) = live a0)
    as Hw by (intros; destruct (negb _); [apply live_tearWrites|done]).
  rewrite Hw, live_tearForwards, live_setHostCaps.
  eapply set_live_evolves; [done|].
  assert (evolves ls (with_caps (with_epoch ls (dp_Epoch p)) (Some c))) as He.
  { etrans; [by apply evolves_epoch|]. by apply evolves_caps. }
  destruct (0 <? LeaseExpiryUnixMs p); [|done]. etrans; [done|]. auto with geneza.
Qed.

Lemma applyRevoke_evolves a r id' ls' :
  live (applyRevoke trusted a r) !! id' = Some ls' →
  ∃ ls, live a !! id' = Some ls ∧ evolves ls ls'.
Proof.
  unfold applyRevoke. destruct (verifyEnforcement _ _) as [p|]; [|apply live_evolves_refl].
  destruct (negb _); [apply live_evolves_refl|].
  destruct (live a !! r_SessionId r) as [ls|].
  - destruct (negb _); [apply live_evolves_refl|]. destruct (_ <=? _); [apply live_evolves_refl|].
    rewrite live_revokeLive. apply delete_live_evolves.
  - rewrite live_revokeLive. apply delete_live_evolves.
Qed.

Definition registers (id : string) (e : event) : Prop :=
  match e with EvRegister _ id' _ _ => id' = id | _ => False end.

Lemma registerLive_lookup now a id g p :
  ∃ ls, live (registerLive now a id g p) = <[id := ls]> (live a) ∧ session_ok ls ∧
        ls_grant ls = g ∧ epoch ls = 0 ∧ caps ls = None.
Proof.
  unfold registerLive, armLeaseTimer, set_live. cbn [live]. rewrite lookup_insert_eq. cbn [live].
  rewrite insert_insert_eq. eexists. split; [done|]. split; [|done]. by apply rearm_ok.
Qed.

Lemma handle_evolves a e id ls' :
  ¬ registers id e → live (handle trusted a e) !! id = Some ls' →
  ∃ ls, live a !! id = Some ls ∧ evolves ls ls'.
Proof.
  destruct e as [now l|now d|r|now id0|now id0 g p|id0|id0 ptr ts|id0 ptr|id0|id0]; simpl; intros Hr Hl.
  - by eapply applyLease_evolves.
  - by eapply applyDelta_evolves.
  - by eapply applyRevoke_evolves.
  - revert Hl. unfold onLeaseExpired. destruct (live a !! id0); [|apply live_evolves_refl].
    destruct (Before _ _); [apply live_evolves_refl|apply delete_live_evolves].
  - destruct (registerLive_lookup now a id0 g p) as (ls & E & _). rewrite E in Hl.
    rewrite lookup_insert_ne in Hl by done. by apply live_evolves_refl.
  - by eapply delete_live_evolves.
  - unfold trackSplice in Hl. destruct (live a !! id0) eqn:E; [|by apply live_evolves_refl].
    eapply set_live_evolves; [done|apply evolves_fwds|done].
  - unfold untrackSplice in Hl. destruct (live a !! id0) eqn:E; [|by apply live_evolves_refl].
    eapply set_live_evolves; [done|apply evolves_fwds|done].
  - unfold setSftpCancel in Hl. destruct (live a !! id0) eqn:E; [|by apply live_evolves_refl].
    eapply set_live_evolves; [done|apply evolves_sftp|done].
  - unfold clearSftpCancel in Hl. destruct (live a !! id0) eqn:E; [|by apply live_evolves_refl].
    eapply set_live_evolves; [done|apply evolves_sftp|done].
Qed.

Lemma run_evolves es a id ls' :
  Forall (λ e, ¬ registers id e) es → live (run trusted a es) !! id = Some ls' →
  ∃ ls, live a !! id = Some ls ∧ evolves ls ls'.
Proof.
  intros Hes. revert a. induction Hes as [|e es He _ IH]; intros a Hl; simpl in Hl.
  - by apply live_evolves_refl.
  - destruct (IH _ Hl) as (ls1 & Hl1 & E1). destruct (handle_evolves a e id ls1 He Hl1) as (ls0 & Hl0 & E0).
    exists ls0. split; [done|]. by etrans.
Qed.

Lemma handle_ok a e : agent_ok a → agent_ok (handle trusted a e).
Proof.
  intros Ha id ls' Hl.
  assert (registers id e ∨ ¬ registers id e) as [Hr|Hr]
    by (destruct e; simpl; try (right; tauto); destruct (decide (id0 = id)); auto).
  - destruct e as [| | | |now id0 g p| | | | |]; simpl in Hr; try done. subst id0. simpl in Hl.
    destruct (registerLive_lookup now a id g p) as (ls & E & Hok & _).
    rewrite E, lookup_insert_eq in Hl. by simplify_eq.
  - destruct (handle_evolves a e id ls' Hr Hl) as (ls & Hls & (_ & _ & _ & Hok)).
    apply Hok. by eapply Ha.
Qed.

Lemma run_ok es a : agent_ok a → agent_ok (run trusted a es).
Proof.
  revert a. induction es as [|e es IH]; intros a Ha; [done|]. simpl. apply IH. by apply handle_ok.
Qed.

End EnforcementLemmas.

Lemma targetAllowed_spec (allowed : list string) (addr : string) (port : N) :
  targetAllowed allowed addr port = true ↔
  ∃ t, t ∈ allowed ∧ ForwardTargetAllowed t addr port = true.
Proof.
  induction allowed as [|t allowed IH]; simpl.
  - split; [done|]. intros (t & []%not_elem_of_nil & _).
  - destruct (ForwardTargetAllowed t addr port) eqn:E.
    + split; [|done]. intros _. exists t. split; [left|done].
    + rewrite IH. split.
      * intros (t' & ? & ?). exists t'. split; [by right|done].
      * intros (t' & [->|?]%elem_of_cons & ?); [congruence|eauto].
Qed.

(** ** A session under enforcement, to evaluate the theorems at *)
Module LeaseFixture.

#[local] Existing Instance ToyEd25519.toy.

Definition grant : SessionGrant := GrantFixture.grant.
Definition trusted : keyset := GrantFixture.trusted.
Definition key : bytes := ClientNoisePub grant.

Definition lease1 : LeasePayload := mkLeasePayload "s-1" 1 1200000 key.
(** The signed delta says read-only: no input. *)
Definition readonly : CapsPayload := mkCaps true true false [] false true.
Definition delta2 : DeltaPayload := mkDeltaPayload "s-1" 2 "read_only" "" (Some readonly) 1300000 key.
Definition revoke3 : RevokePayload := mkRevokePayload "s-1" 3 "suspended" key.

#[export] Instance dec_lease : JSONDecode LeasePayload :=
  λ b, if bool_decide (b = [x01]) then Some lease1 else None.
#[export] Instance dec_delta : JSONDecode DeltaPayload :=
  λ b, if bool_decide (b = [x02]) then Some delta2 else None.
#[export] Instance dec_revoke : JSONDecode RevokePayload :=
  λ b, if bool_decide (b = [x03]) then Some revoke3 else None.
(** The envelope of each payload is the payload signed by the grant key. *)
#[export] Instance dec_signed : JSONDecode Signed :=
  λ b, Some (ToyEd25519.signed_by x11 "g1" ContextSessionPolicy b).

Definition now0 : Z := 1000 * second.
Definition start : agent := registerLive now0 (mkAgent ∅ []) "s-1" grant "direct".
Definition the_lease : SessionLease := mkSessionLease "s-1" [x01].
(** The message around the delta says: input allowed. *)
Definition writable : SessionCaps := mkSessionCaps true true true [] false true.
Definition the_delta : SessionPolicyDelta := mkSessionPolicyDelta "s-1" [x02] (Some writable).
Definition the_revoke : SessionRevoke := mkSessionRevoke "s-1" [x03].

End LeaseFixture.

(** ** Theorems *)

(** C30 (lease.go, applyDelta): downgrade only.  Whatever sequence of messages,
    timers and session events runs, the capabilities in force on a live session are
    never a cut, stay under what its grant implies, and let through only forwards
    the grant's own target authorizes. *)
Theorem caps_under_ceiling `{Ed25519} `{JSONDecode Signed, JSONDecode LeasePayload,
    JSONDecode DeltaPayload, JSONDecode RevokePayload} (trusted : keyset) (es : list event)
    (id : string) (ls : liveSession) (c : SessionCaps) :
  live (run trusted (mkAgent ∅ []) es) !! id = Some ls → caps ls = Some c →
  pb_Allow c = true ∧
  (∀ cp, capsFromProto (Some c) = Some cp → caps_le cp (grantImpliedCaps (ls_grant ls))) ∧
  (∀ addr port, capsAllowForward (caps ls) addr port = true →
     ForwardTargetAllowed (ForwardTarget (ls_grant ls)) addr port = true).
Proof.
  intros Hl Hc. assert (agent_ok (run trusted (mkAgent ∅ []) es)) as Hok
    by (apply run_ok; by apply map_Forall_empty).
  destruct (Hok id ls Hl) as (Hcaps & _). destruct (Hcaps c Hc) as [Ha Hd].
  pose proof Hd as Hle%VerifyDowngrade_None. split; [done|]. split; [by intros ? [= <-]|].
  intros addr port. rewrite Hc. cbn [capsAllowForward]. rewrite targetAllowed_spec.
  intros (t & Ht & Hf). destruct Hle as [E|(_ & _ & _ & _ & _ & Hsub)]; [cbn in E; congruence|].
  apply Hsub in Ht. unfold grantImpliedCaps in Ht. cbn [ForwardTargets] in Ht.
  case_bool_decide; [|by apply not_elem_of_nil in Ht]. by apply list_elem_of_singleton in Ht as ->.
Qed.

(** [lease.go, applyLease and applyDelta] Replays have no effect.  Once a live
    session's epoch has reached the epoch of a signed lease or delta, delivering
    that message again, after any other events that do not register the session
    anew, changes nothing. *)
Theorem replay_no_effect `{Ed25519} `{JSONDecode Signed, JSONDecode LeasePayload,
    JSONDecode DeltaPayload, JSONDecode RevokePayload} (trusted : keyset) (a : agent)
    (es : list event) (ls : liveSession) (l : SessionLease) (d : SessionPolicyDelta)
    (lp : LeasePayload) (dp : DeltaPayload) (now : Z) :
  l_SessionId l = d_SessionId d → live a !! l_SessionId l = Some ls →
  Forall (λ e, ¬ registers (l_SessionId l) e) es →
  (verifyEnforcement trusted (l_Sig l) = Ok lp → lp_Epoch lp ≤ epoch ls →
     applyLease trusted now (run trusted a es) l = run trusted a es) ∧
  (verifyEnforcement trusted (d_Sig d) = Ok dp → dp_Epoch dp ≤ epoch ls →
     applyDelta trusted now (run trusted a es) d = run trusted a es).
Proof.
  intros Hid Hl Hes.
  assert (∀ ls', live (run trusted a es) !! l_SessionId l = Some ls' → epoch ls ≤ epoch ls') as Hep.
  { intros ls' Hl'. destruct (run_evolves trusted es a _ ls' Hes Hl') as (ls0 & Hl0 & (_ & _ & ? & _)).
    by simplify_eq. }
  split.
  - intros HV He. unfold applyLease. rewrite HV.
    destruct (live (run trusted a es) !! l_SessionId l) as [ls'|]; [|done].
    destruct (_ || _); [done|]. specialize (Hep ls' eq_refl).
    destruct (Z.leb_spec (lp_Epoch lp) (epoch ls')); [done|lia].
  - intros HV He. unfold applyDelta. rewrite HV, <- Hid.
    destruct (live (run trusted a es) !! l_SessionId l) as [ls'|]; [|done].
    destruct (_ || _); [done|]. specialize (Hep ls' eq_refl).
    destruct (Z.leb_spec (dp_Epoch dp) (epoch ls')); [done|lia].
Qed.

(** [lease.go, onLeaseExpired] Starvation fails closed and spares the PTY.  In
    every reachable state a live session has an armed timer; at or after the
    instant it fires, the expiry handler removes the session and tears its conduit
    and does nothing else (it kills no host session); before the lease deadline the
    handler does nothing. *)
Theorem starvation_fails_closed `{Ed25519} `{JSONDecode Signed, JSONDecode LeasePayload,
    JSONDecode DeltaPayload, JSONDecode RevokePayload} (trusted : keyset) (es : list event)
    (id : string) (ls : liveSession) :
  let a := run trusted (mkAgent ∅ []) es in
  live a !! id = Some ls →
  ∃ fire, leaseTimer ls = Some fire ∧
    (∀ now, fire ≤ now →
       onLeaseExpired now a id = mkAgent (delete id (live a)) (effects a ++ [Cancel id])) ∧
    (∀ now, now < leaseDeadline ls → onLeaseExpired now a id = a).
Proof.
  intros a Hl. assert (agent_ok a) as Hok by (apply run_ok; by apply map_Forall_empty).
  destruct (Hok id ls Hl) as (_ & _ & f & Hf & Hle). exists f. split; [done|].
  unfold onLeaseExpired. rewrite Hl. unfold Before. split; intros now Hnow.
  - destruct (Z.ltb_spec now (leaseDeadline ls)); [lia|done].
  - destruct (Z.ltb_spec now (leaseDeadline ls)); [done|lia].
Qed.

(** [lease.go and worker.go] Authenticity and effect of a revoke.  A revoke
    has an effect only if a trusted key signed its payload under the session-policy
    context for this very session id, and, when the session is live here, for its
    client key with a newer epoch; and then the session is gone, the host session
    is killed, and the revocation is acknowledged, also for a session this worker
    does not hold. *)
Theorem applyRevoke_spec `{Ed25519} `{JSONDecode Signed, JSONDecode LeasePayload,
    JSONDecode DeltaPayload, JSONDecode RevokePayload} (trusted : keyset) (a : agent)
    (r : SessionRevoke) :
  let id := r_SessionId r in
  let a' := applyRevoke trusted a r in
  a' = a ∨
  ∃ env k pub p,
    Unmarshal (r_Sig r) = Some env ∧ trusted !! k = Some pub ∧ KeyID env = k ∧
    ed25519_Verify pub (signingInput ContextSessionPolicy (Payload env)) (Sig env) = true ∧
    Unmarshal (Payload env) = Some p ∧ rp_SessionID p = id ∧
    (∀ ls, live a !! id = Some ls →
       rp_ClientNoisePub p = clientNoisePub ls ∧ epoch ls < rp_Epoch p) ∧
    live a' = delete id (live a) ∧
    ∃ path ep, effects a' = effects a ++ (if decide (is_Some (live a !! id)) then [Cancel id] else [])
                              ++ [KillHost id; EmitRevoked id (Reason p) path ep].
Proof.
  intros id a'. subst a'. unfold applyRevoke, verifyEnforcement.
  destruct (Unmarshal (r_Sig r)) as [env|] eqn:Hu; [|by left].
  destruct (Verify trusted _ (Some env) _) as [[k p]|] eqn:HV; [|by left].
  apply Verify_Ok in HV as (? & pub & [= <-] & -> & Ht & _ & _ & Hver & Hp).
  fold id. destruct (bool_decide_reflect (rp_SessionID p = id)) as [Hid|]; [|by left]. cbn [negb].
  assert (live a !! id = None ∨ ∃ ls, live a !! id = Some ls) as [Hl|[ls Hl]]
    by (destruct (live a !! id); eauto).
  - rewrite Hl. right. exists env, (KeyID env), pub, p. split_and!; auto; [naive_solver|..].
    + apply live_revokeLive.
    + unfold revokeLive. rewrite Hl. exists "", 0. rewrite decide_False by (intros [? ?]; naive_solver).
      cbn. by rewrite <- !app_assoc.
  - rewrite Hl. destruct (bool_decide_reflect (rp_ClientNoisePub p = clientNoisePub ls)); [|by left]. cbn [negb].
    destruct (Z.leb_spec (rp_Epoch p) (epoch ls)); [by left|].
    right. exists env, (KeyID env), pub, p. split_and!; auto; [naive_solver|..].
    + apply live_revokeLive.
    + unfold revokeLive. rewrite Hl. exists (pathClass ls), (epoch ls). rewrite decide_True by eauto.
      cbn. by rewrite <- !app_assoc.
Qed.

Import LeaseFixture.
#[local] Existing Instance ToyEd25519.toy.

(** [lease.go, applyDelta] The signed capabilities of a delta are not the ones
    enforced.  The payload the controller signed carries the capabilities, but the
    handler takes them from the unsigned fields around the signature: here a delta
    signed as read-only (no input) is applied with input allowed. *)
Theorem delta_applies_unsigned_caps :
  verifyEnforcement trusted (d_Sig the_delta) = Ok delta2 ∧
  dp_Caps delta2 = Some readonly ∧ AllowInput readonly = false ∧
  let a' := applyDelta trusted now0 start the_delta in
  sessionCaps a' "s-1" = Some writable ∧ pb_AllowInput writable = true ∧
  effects a' = [SetHostCaps "s-1" false true false []].
Proof. cbv zeta. split_and!; vm_compute; reflexivity. Qed.

Lemma caps_under_ceiling_witness :
  pb_Allow writable = true ∧
  (∀ cp, capsFromProto (Some writable) = Some cp → caps_le cp (grantImpliedCaps grant)) ∧
  (∀ addr port, capsAllowForward (Some writable) addr port = true →
     ForwardTargetAllowed (ForwardTarget grant) addr port = true).
Proof.
  apply (caps_under_ceiling trusted
           [EvRegister now0 "s-1" grant "direct"; EvDelta now0 the_delta] "s-1"
           (mkLive grant "direct" key 2 1300000000000 (Some 1300000000000) (Some writable) ∅ false)
           writable).
  - vm_compute. reflexivity.
  - reflexivity.
Defined.

Lemma replay_no_effect_witness :
  let a := applyLease trusted now0 start the_lease in
  applyLease trusted (now0 + 5) (run trusted a [EvDelta now0 the_delta]) the_lease
    = run trusted a [EvDelta now0 the_delta].
Proof.
  refine (proj1 (replay_no_effect trusted (applyLease trusted now0 start the_lease)
            [EvDelta now0 the_delta]
            (mkLive grant "direct" key 1 1200000000000 (Some 1200000000000) None ∅ false)
            the_lease the_delta lease1 delta2 (now0 + 5) _ _ _) _ _).
  - reflexivity.
  - vm_compute. reflexivity.
  - repeat constructor. simpl. tauto.
  - vm_compute. reflexivity.
  - vm_compute. discriminate.
Defined.

Lemma starvation_fails_closed_witness :
  let a := run trusted (mkAgent ∅ []) [EvRegister now0 "s-1" grant "direct"] in
  ∃ fire, Some 1120000000000 = Some fire ∧
    (∀ now, fire ≤ now →
       onLeaseExpired now a "s-1" = mkAgent (delete "s-1" (live a)) (effects a ++ [Cancel "s-1"])) ∧
    (∀ now, now < 1120000000000 → onLeaseExpired now a "s-1" = a).
Proof.
  apply (starvation_fails_closed trusted [EvRegister now0 "s-1" grant "direct"] "s-1"
           (mkLive grant "direct" key 0 1120000000000 (Some 1120000000000) None ∅ false)).
  vm_compute. reflexivity.
Defined.
