(* ===== verification/Policy.v ===== *)
(** * The policy engine (src/internal/policy/policy.go)

    Roles bound to users and groups, each role a list of allow rules over actions,
    services, labels and clock windows.  YAML decoding is a parameter of [Parse];
    everything else is executable here, the clock windows included: an instant
    carries its zone offset, so weekdays and times of day are computed.  Reasons
    are structured instead of formatted.  The theorems: the engine denies by default
    and its decision is exactly the declared merge of the matching rules
    (permissive for access, detach, record and lifetime, restrictive for read-only
    and presence), it does not depend on the order of roles and rules, native-only
    rules never match another path, role resolution is exact, and a window and its
    reverse split the day. *)
From Stdlib Require Import ZArith Lia Strings.Ascii.
From stdpp Require Import base gmap fin_maps sets list strings numbers sorting.
From S2P Require Import Prelude.

Local Open Scope Z_scope.

(** ** Instants with a zone *)

(** A [time.Time]: nanoseconds since the epoch and the offset of its location in
    seconds. *)
Record gotime := mkTime { t_ns : Z; t_off : Z }.

Definition local_seconds (t : gotime) : Z := t_ns t / second + t_off t.
(** Sunday is 0; the epoch was a Thursday. *)
Definition Weekday (t : gotime) : Z := (local_seconds t / 86400 + 4) mod 7.
Definition Hour (t : gotime) : Z := local_seconds t mod 86400 / 3600.
Definition Minute (t : gotime) : Z := local_seconds t mod 3600 / 60.
Definition tIsZero (t : gotime) : bool := bool_decide (t_ns t = time_zero).

(** [now.Weekday().String()[:3]]. *)
Definition day_name (d : Z) : string :=
  if d =? 0 then "Sun" else if d =? 1 then "Mon" else if d =? 2 then "Tue"
  else if d =? 3 then "Wed" else if d =? 4 then "Thu" else if d =? 5 then "Fri" else "Sat".

(** ** Documents *)

Record TimeWindow := mkWindow { Days : list string; Start : string; End_ : string }.

Record Rule := mkRule {
  Actions : list string;
  Services : list string;
  ServiceKinds : list string;
  r_ServiceLabels : gmap string string;
  r_NodeLabels : gmap string string;
  r_TimeWindow : option TimeWindow;
  r_MaxSessionTTL : Z;
  r_AllowDetach : option bool;
  r_Record : option bool;
  r_ReadOnly : bool;
  ReadOnlyTimeWindow : option TimeWindow;
  r_RequirePresence : bool;
  RequireNative : bool }.

Record Role := mkRole { r_Allow : list Rule }.
Record Binding := mkBinding { b_Role : string; Users : list string; b_Groups : list string }.
Record Doc := mkDoc { d_Roles : gmap string Role; Bindings : list Binding }.

Record Input := mkInput {
  User : string; Groups : list string; in_Roles : list string;
  NodeID : string; NodeName : string; NodeLabels : gmap string string;
  in_Action : string; ClientPath : string;
  in_Service : string; in_ServiceKind : string; in_ServiceLabels : gmap string string;
  Now : gotime }.

Inductive reason : Type :=
| NoRoles (user : string)
| NoRule (roles : list string) (action node : string)
| RoleAllows (role action node : string).

Record Decision := mkDecision {
  Allow : bool; Reason : reason; MatchedRole : string; MaxSessionTTL : Z;
  AllowDetach : bool; d_Record : bool; ReadOnly : bool; RequirePresence : bool }.

(** ** Clock windows *)

(** [fmt.Sscanf]'s skipping of blanks before a number; a line break is an error. *)
Fixpoint skip_blanks (s : string) : option string :=
  match s with
  | EmptyString => Some s
  | String c r =>
      if (nat_of_ascii c =? 10)%nat then None
      else if is_space c then skip_blanks r else Some s
  end.

Definition digit (c : ascii) : option Z :=
  let n := Z.of_nat (nat_of_ascii c) in
  if (48 <=? n) && (n <=? 57) then Some (n - 48) else None.

(** The digits of a decimal number, its value, and what follows it. *)
Fixpoint scan_digits (s : string) (acc : Z) : Z * string :=
  match s with
  | String c r => match digit c with Some d => scan_digits r (acc * 10 + d) | None => (acc, s) end
  | EmptyString => (acc, s)
  end.

(** The verb %d of [fmt.Sscanf] for an int: blanks, a sign, digits, in range. *)
Definition scan_int (s : string) : option (Z * string) :=
  match skip_blanks s with
  | None => None
  | Some s1 =>
      let '(neg, s2) := match s1 with
                        | String "-" r => (true, r)
                        | String "+" r => (false, r)
                        | _ => (false, s1)
                        end in
      match s2 with
      | EmptyString => None
      | String c _ =>
          match digit c with
          | None => None
          | Some _ =>
              let '(v, rest) := scan_digits s2 0 in
              let z := if neg then - v else v in
              if (- 2 ^ 63 <=? z) && (z <? 2 ^ 63) then Some (z, rest) else None
          end
      end
  end.

(** [parse] of [contains]: Sscanf with the format %d:%d. *)
Definition parse_clock (s : string) : option Z :=
  match scan_int s with
  | Some (h, String ":" rest) =>
      match scan_int rest with
      | Some (m, _) => Some (wrap_i64 (h * 60 + m))
      | None => None
      end
  | _ => None
  end.

Fixpoint day_listed (days : list string) (day : string) : bool :=
  match days with
  | [] => false
  | d :: rest =>
      let dd := TrimSpace d in
      if (String.length dd <? 3)%nat then day_listed rest day
      else if EqualFold (String.substring 0 3 dd) day then true
      else day_listed rest day
  end.

Definition minute_of_day (now : gotime) : Z := Hour now * 60 + Minute now.

Definition window_contains (w : TimeWindow) (now : gotime) : bool :=
  if (0 <? length (Days w))%nat && negb (day_listed (Days w) (day_name (Weekday now))) then false
  else
    match parse_clock (Start w), parse_clock (End_ w) with
    | Some start, Some end_ =>
        let cur := minute_of_day now in
        if start <=? end_ then (start <=? cur) && (cur <? end_)
        else (start <=? cur) || (cur <? end_)
    | _, _ => false
    end.

(** ** Matching *)

Fixpoint matchList (list : list string) (v : string) : bool :=
  match list with
  | [] => false
  | x :: rest => if bool_decide (x = "*") || bool_decide (x = v) then true else matchList rest v
  end.

Definition label_ok (labels : gmap string string) (k v : string) : bool :=
  if bool_decide (k = "*") then true
  else match labels !! k with
       | None => false
       | Some got => negb (bool_decide (v ≠ "*") && bool_decide (got ≠ v))
       end.

(** The loop over the selector's entries, in any order. *)
Definition LabelsMatch (selector labels : gmap string string) : bool :=
  forallb (λ e, label_ok labels e.1 e.2) (map_to_list selector).

Fixpoint action_listed (actions : list string) (a : string) : bool :=
  match actions with
  | [] => false
  | x :: rest =>
      if bool_decide (x = "*") || bool_decide (x = a) then true
      else if bool_decide (x = "shell") && bool_decide (a = "attach") then true
      else action_listed rest a
  end.

Definition matches (r : Rule) (i : Input) (now : gotime) : bool :=
  if RequireNative r && negb (bool_decide (ClientPath i = "native")) then false
  else if negb ((length (Actions r) =? 0)%nat || action_listed (Actions r) (in_Action i)) then false
  else if (0 <? length (Services r))%nat && negb (matchList (Services r) (in_Service i)) then false
  else if (0 <? length (ServiceKinds r))%nat && negb (matchList (ServiceKinds r) (in_ServiceKind i))
  then false
  else if negb (LabelsMatch (r_ServiceLabels r) (in_ServiceLabels i)) then false
  else if negb (LabelsMatch (r_NodeLabels r) (NodeLabels i)) then false
  else match r_TimeWindow r with
       | Some w => if negb (window_contains w now) then false else true
       | None => true
       end.

(** ** The engine *)

Definition Records (d : Doc) : bool :=
  existsb (λ e : string * Role, existsb (λ r, match r_Record r with None => true | Some b => b end)
                                  (r_Allow e.2)) (map_to_list (d_Roles d)).

Inductive policy_err : Type := PolicyYAML | UnknownRole (role : string).

Fixpoint check_bindings (roles : gmap string Role) (bs : list Binding) : option policy_err :=
  match bs with
  | [] => None
  | b :: rest => match roles !! b_Role b with
                 | None => Some (UnknownRole (b_Role b))
                 | Some _ => check_bindings roles rest
                 end
  end.

(** [Parse], over the YAML decoder. *)
Definition Parse {B : Type} (yaml : B → option Doc) (b : B) : result policy_err Doc :=
  match yaml b with
  | None => Err PolicyYAML
  | Some d => match check_bindings (d_Roles d) (Bindings d) with
              | Some e => Err e
              | None => Ok d
              end
  end.

Definition binding_matches (b : Binding) (user : string) (groups : list string) : bool :=
  existsb (λ u, bool_decide (u = user)) (Users b) || existsb (contains groups) (b_Groups b).

Fixpoint collect_roles (bs : list Binding) (user : string) (groups : list string)
    (seen : gset string) (roles : list string) : list string :=
  match bs with
  | [] => roles
  | b :: rest =>
      if binding_matches b user groups && negb (bool_decide (b_Role b ∈ seen))
      then collect_roles rest user groups ({[ b_Role b ]} ∪ seen) (roles ++ [b_Role b])
      else collect_roles rest user groups seen roles
  end.

Definition RolesFor (d : Doc) (user : string) (groups : list string) : list string :=
  merge_sort String.le (collect_roles (Bindings d) user groups ∅ []).

(** The decision one matching rule asks for. *)
Definition rule_decision (rname : string) (rule : Rule) (i : Input) (now : gotime) : Decision :=
  mkDecision true (RoleAllows rname (in_Action i) (NodeName i)) rname (r_MaxSessionTTL rule)
    (match r_AllowDetach rule with None => true | Some b => b end)
    (match r_Record rule with None => true | Some b => b end)
    (r_ReadOnly rule || match ReadOnlyTimeWindow rule with
                        | None => false | Some w => window_contains w now end)
    (r_RequirePresence rule).

(** The merge of the loop body. *)
Definition merge (best d : Decision) : Decision :=
  if negb (Allow best) then d
  else
    mkDecision (Allow best) (Reason best) (MatchedRole best)
      (if (MaxSessionTTL d =? 0)
          || (negb (MaxSessionTTL best =? 0) && (MaxSessionTTL best <? MaxSessionTTL d))
       then MaxSessionTTL d else MaxSessionTTL best)
      (if AllowDetach d then true else AllowDetach best)
      (if d_Record d then true else d_Record best)
      (if ReadOnly d then true else ReadOnly best)
      (if RequirePresence d then true else RequirePresence best).

Fixpoint eval_rules (rname : string) (rules : list Rule) (i : Input) (now : gotime)
    (best : Decision) : Decision :=
  match rules with
  | [] => best
  | rule :: rest =>
      eval_rules rname rest i now
        (if matches rule i now then merge best (rule_decision rname rule i now) else best)
  end.

Fixpoint eval_roles (doc : Doc) (roles : list string) (i : Input) (now : gotime)
    (best : Decision) : Decision :=
  match roles with
  | [] => best
  | rname :: rest =>
      eval_roles doc rest i now
        (match d_Roles doc !! rname with
         | None => best
         | Some role => eval_rules rname (r_Allow role) i now best
         end)
  end.

Definition no_decision (r : reason) : Decision := mkDecision false r "" 0 false false false false.

(** The roles the request is evaluated with. *)
Definition roles_of (d : Doc) (i : Input) : list string :=
  if (length (in_Roles i) =? 0)%nat then RolesFor d (User i) (Groups i) else in_Roles i.

(** [clock] is [time.Now()]. *)
Definition now_of (clock : gotime) (i : Input) : gotime := if tIsZero (Now i) then clock else Now i.

Definition Evaluate (d : Doc) (clock : gotime) (i : Input) : Decision :=
  let roles := roles_of d i in
  if (length roles =? 0)%nat then no_decision (NoRoles (User i))
  else eval_roles d roles i (now_of clock i) (no_decision (NoRule roles (in_Action i) (NodeName i))).

(** ** Lemmas *)

(** The rules that apply to a request, with the role that carries them, in the
    order the engine meets them. *)
Definition role_rules (d : Doc) (i : Input) (now : gotime) (rname : string) : list (string * Rule) :=
  match d_Roles d !! rname with
  | None => []
  | Some role => pair rname <$> filter (λ r, matches r i now = true) (r_Allow role)
  end.

Definition matching (d : Doc) (roles : list string) (i : Input) (now : gotime) : list (string * Rule) :=
  roles ≫= role_rules d i now.

Definition decide_rule (i : Input) (now : gotime) (e : string * Rule) : Decision :=
  rule_decision e.1 e.2 i now.

Lemma eval_rules_fold rname rules i now best :
  eval_rules rname rules i now best
    = fold_left merge (decide_rule i now <$> (pair rname <$> filter (λ r, matches r i now = true) rules)) best.
Proof.
  revert best. induction rules as [|r rules IH]; intros best; [done|].
  cbn [eval_rules]. rewrite IH, filter_cons. destruct (matches r i now) eqn:E.
  - rewrite decide_True by done. done.
  - rewrite decide_False by congruence. done.
Qed.

Lemma eval_roles_fold d roles i now best :
  eval_roles d roles i now best = fold_left merge (decide_rule i now <$> matching d roles i now) best.
Proof.
  revert best. induction roles as [|rname roles IH]; intros best; [done|].
  cbn [eval_roles]. rewrite IH. unfold matching. cbn [mbind list_bind].
  rewrite fmap_app, fold_left_app. f_equal. unfold role_rules.
  destruct (d_Roles d !! rname) as [role|]; [|done]. apply eval_rules_fold.
Qed.

Lemma Evaluate_fold (d : Doc) (clock : gotime) (i : Input) :
  let roles := roles_of d i in let now := now_of clock i in
  Evaluate d clock i =
    (if (length roles =? 0)%nat then no_decision (NoRoles (User i))
     else fold_left merge (decide_rule i now <$> matching d roles i now)
            (no_decision (NoRule roles (in_Action i) (NodeName i)))).
Proof. unfold Evaluate. cbv zeta. by rewrite eval_roles_fold. Qed.

(** The lifetime of the merge: unlimited if any is, else the longest. *)
Definition longest (t : Z) (ts : list Z) : Z :=
  if bool_decide (t = 0 ∨ 0 ∈ ts) then 0 else fold_left Z.max ts t.

Lemma longest_cons (t u : Z) (ts : list Z) :
  longest (if (u =? 0) || (negb (t =? 0) && (t <? u)) then u else t) ts = longest t (u :: ts).
Proof.
  unfold longest. destruct (Z.eqb_spec u 0) as [->|Hu]; cbn [orb].
  { rewrite bool_decide_true by (by left). rewrite bool_decide_true by (right; left). done. }
  destruct (Z.eqb_spec t 0) as [->|Ht]; cbn [negb andb].
  { rewrite !bool_decide_true by (by left). done. }
  assert (bool_decide (t = 0 ∨ 0 ∈ u :: ts) = bool_decide (0 ∈ ts)) as ->
    by (apply bool_decide_ext; rewrite elem_of_cons; naive_solver).
  cbn [fold_left]. destruct (Z.ltb_spec t u).
  - replace (Z.max t u) with u by lia.
    by rewrite (bool_decide_ext (u = 0 ∨ 0 ∈ ts) (0 ∈ ts)) by naive_solver.
  - replace (Z.max t u) with t by lia.
    by rewrite (bool_decide_ext (t = 0 ∨ 0 ∈ ts) (0 ∈ ts)) by naive_solver.
Qed.

Lemma fold_merge (ds : list Decision) (best : Decision) :
  Allow best = true →
  let r := fold_left merge ds best in
  Allow r = true ∧ Reason r = Reason best ∧ MatchedRole r = MatchedRole best ∧
  MaxSessionTTL r = longest (MaxSessionTTL best) (MaxSessionTTL <$> ds) ∧
  AllowDetach r = AllowDetach best || existsb AllowDetach ds ∧
  d_Record r = d_Record best || existsb d_Record ds ∧
  ReadOnly r = ReadOnly best || existsb ReadOnly ds ∧
  RequirePresence r = RequirePresence best || existsb RequirePresence ds.
Proof.
  revert best. induction ds as [|d ds IH]; intros best Hb; cbn [fold_left].
  - cbn. rewrite !orb_false_r. split_and!; try done. unfold longest. cbn.
    case_bool_decide as Hz; [|done]. destruct Hz as [?|[]%not_elem_of_nil]; done.
  - destruct (IH (merge best d)) as (H1 & H2 & H3 & H4 & H5 & H6 & H7 & H8);
      [unfold merge; by rewrite Hb|].
    cbv zeta. rewrite H1, H2, H3, H4, H5, H6, H7, H8. unfold merge. rewrite Hb.
    cbn [negb Reason MatchedRole MaxSessionTTL AllowDetach d_Record ReadOnly RequirePresence existsb].
    rewrite fmap_cons, longest_cons.
    destruct (AllowDetach d), (AllowDetach best), (d_Record d), (d_Record best),
      (ReadOnly d), (ReadOnly best), (RequirePresence d), (RequirePresence best); auto 10.
Qed.

(** A rule applies to a request: a role of the principal carries it and it
    matches. *)
Definition applies (d : Doc) (clock : gotime) (i : Input) (rname : string) (rule : Rule) : Prop :=
  rname ∈ roles_of d i ∧
  ∃ role, d_Roles d !! rname = Some role ∧ rule ∈ r_Allow role ∧
          matches rule i (now_of clock i) = true.

Lemma elem_of_matching (d : Doc) (clock : gotime) (i : Input) (rname : string) (rule : Rule) :
  (rname, rule) ∈ matching d (roles_of d i) i (now_of clock i) ↔ applies d clock i rname rule.
Proof.
  unfold matching, applies. rewrite list_elem_of_bind. unfold role_rules. split.
  - intros (r & Hin & Hr). destruct (d_Roles d !! r) as [role|] eqn:E; [|by apply not_elem_of_nil in Hin].
    apply list_elem_of_fmap in Hin as (rule' & [= -> ->] & [Hm Hin]%list_elem_of_filter). eauto 10.
  - intros (Hr & role & E & Hin & Hm). exists rname. rewrite E. split; [|done].
    apply list_elem_of_fmap. exists rule. split; [done|]. by apply list_elem_of_filter.
Qed.

Lemma existsb_matching (f : Decision → bool) (d : Doc) (clock : gotime) (i : Input) :
  existsb f (decide_rule i (now_of clock i) <$> matching d (roles_of d i) i (now_of clock i)) = true ↔
  ∃ rname rule, applies d clock i rname rule ∧
    f (rule_decision rname rule i (now_of clock i)) = true.
Proof.
  rewrite existsb_exists. setoid_rewrite <- list_elem_of_In. setoid_rewrite list_elem_of_fmap. split.
  - intros (x & ([rn ru] & -> & Hin%elem_of_matching) & Hf). eauto.
  - intros (rn & ru & Hin%elem_of_matching & Hf). eexists. split; [|done]. by exists (rn, ru).
Qed.

(** What a decision says, but for its explanation. *)
Definition verdict (r : Decision) : bool * Z * bool * bool * bool * bool :=
  (Allow r, MaxSessionTTL r, AllowDetach r, d_Record r, ReadOnly r, RequirePresence r).

Lemma fold_merge_fields (d0 : Decision) (ds : list Decision) (r : reason) :
  Allow d0 = true →
  let res := fold_left merge (d0 :: ds) (no_decision r) in
  Allow res = true ∧ MaxSessionTTL res = longest (MaxSessionTTL d0) (MaxSessionTTL <$> ds) ∧
  AllowDetach res = existsb AllowDetach (d0 :: ds) ∧ d_Record res = existsb d_Record (d0 :: ds) ∧
  ReadOnly res = existsb ReadOnly (d0 :: ds) ∧
  RequirePresence res = existsb RequirePresence (d0 :: ds).
Proof.
  intros H0. cbn [fold_left]. change (merge (no_decision r) d0) with d0.
  destruct (fold_merge ds d0 H0) as (H1 & _ & _ & H4 & H5 & H6 & H7 & H8).
  cbv zeta. by rewrite H1, H4, H5, H6, H7, H8.
Qed.

Lemma fold_merge_start (d0 : Decision) (ds : list Decision) (r : reason) :
  Allow d0 = true →
  verdict (fold_left merge (d0 :: ds) (no_decision r)) =
    (true, longest (MaxSessionTTL d0) (MaxSessionTTL <$> ds), existsb AllowDetach (d0 :: ds),
     existsb d_Record (d0 :: ds), existsb ReadOnly (d0 :: ds), existsb RequirePresence (d0 :: ds)).
Proof.
  intros H0. destruct (fold_merge_fields d0 ds r H0) as (H1 & H2 & H3 & H4 & H5 & H6).
  unfold verdict. by rewrite H1, H2, H3, H4, H5, H6.
Qed.

(** *** Order *)

Lemma fold_max_spec (ts : list Z) (t : Z) :
  fold_left Z.max ts t ∈ t :: ts ∧ ∀ u, u ∈ t :: ts → u ≤ fold_left Z.max ts t.
Proof.
  revert t. induction ts as [|u ts IH]; intros t; cbn [fold_left].
  - split; [left|]. intros u [->|[]%not_elem_of_nil]%elem_of_cons. done.
  - destruct (IH (Z.max t u)) as [Hin Hle]. split.
    + apply elem_of_cons in Hin as [->|Hin]; [|by do 2 right].
      destruct (Z.max_spec t u) as [[_ ->]|[_ ->]]; [right; left|left].
    + intros v Hv. assert (Z.max t u ≤ fold_left Z.max ts (Z.max t u)) by (apply Hle; left).
      apply elem_of_cons in Hv as [->|[->|Hv]%elem_of_cons]; [lia|lia|]. apply Hle. by right.
Qed.

Lemma longest_perm (t u : Z) (ts us : list Z) : t :: ts ≡ₚ u :: us → longest t ts = longest u us.
Proof.
  intros Hp. unfold longest.
  rewrite (bool_decide_ext (t = 0 ∨ 0 ∈ ts) (u = 0 ∨ 0 ∈ us)).
  - case_bool_decide; [done|].
    destruct (fold_max_spec ts t) as [Hi1 Hl1], (fold_max_spec us u) as [Hi2 Hl2].
    rewrite Hp in Hi1. rewrite <- Hp in Hi2. specialize (Hl1 _ Hi2). specialize (Hl2 _ Hi1). lia.
  - assert (0 ∈ t :: ts ↔ 0 ∈ u :: us) as Hz by (by rewrite Hp). rewrite !elem_of_cons in Hz. naive_solver.
Qed.

Lemma existsb_perm {A : Type} (f : A → bool) (xs ys : list A) :
  xs ≡ₚ ys → existsb f xs = existsb f ys.
Proof.
  induction 1 as [|x xs ys _ IH|x y xs|xs ys zs _ IH1 _ IH2]; simpl; try congruence.
  by destruct (f x), (f y).
Qed.

Lemma verdict_perm (r : reason) (ds ds' : list Decision) :
  Forall (λ d, Allow d = true) ds → ds ≡ₚ ds' →
  verdict (fold_left merge ds (no_decision r)) = verdict (fold_left merge ds' (no_decision r)).
Proof.
  intros Hall Hp. assert (Forall (λ d, Allow d = true) ds') as Hall' by (by rewrite <- Hp).
  destruct ds as [|d ds], ds' as [|d' ds'];
    [done|by apply Permutation_nil_l in Hp|by symmetry in Hp; apply Permutation_nil_l in Hp|].
  rewrite (fold_merge_start d) by (by inversion Hall). rewrite (fold_merge_start d') by (by inversion Hall').
  rewrite !(existsb_perm _ _ _ Hp).
  f_equal. f_equal. f_equal. f_equal. f_equal. apply longest_perm.
  change (MaxSessionTTL d :: (MaxSessionTTL <$> ds)) with (MaxSessionTTL <$> (d :: ds)).
  change (MaxSessionTTL d' :: (MaxSessionTTL <$> ds')) with (MaxSessionTTL <$> (d' :: ds')).
  by rewrite Hp.
Qed.

Lemma verdict_reason (r r' : reason) (ds : list Decision) :
  Forall (λ d, Allow d = true) ds →
  verdict (fold_left merge ds (no_decision r)) = verdict (fold_left merge ds (no_decision r')).
Proof.
  intros Hall. destruct ds as [|d ds]; [done|]. by rewrite !fold_merge_start by (by inversion Hall).
Qed.

(** *** Roles *)

Lemma collect_roles_spec (bs : list Binding) (user : string) (groups : list string)
    (seen : gset string) (roles : list string) :
  (∀ r, r ∈ roles ↔ r ∈ seen) → NoDup roles →
  NoDup (collect_roles bs user groups seen roles) ∧
  ∀ r, r ∈ collect_roles bs user groups seen roles ↔
       r ∈ roles ∨ ∃ b, b ∈ bs ∧ binding_matches b user groups = true ∧ b_Role b = r.
Proof.
  revert seen roles. induction bs as [|b bs IH]; intros seen roles Hseen Hnd; simpl.
  - split; [done|]. intros r. split; [auto|]. intros [?|(b & []%not_elem_of_nil & _)]. done.
  - destruct (binding_matches b user groups) eqn:Hm; simpl;
      [case_bool_decide as Hin; simpl|].
    + destruct (IH seen roles Hseen Hnd) as [? Hr]. split; [done|]. intros r. rewrite Hr. split.
      * intros [?|(b' & ? & ?)]; [by left|right]. exists b'. split; [by right|done].
      * intros [?|(b' & [->|?]%elem_of_cons & ? & Hb)]; [by left| |right; eauto].
        left. apply Hseen. by rewrite <- Hb.
    + destruct (IH ({[b_Role b]} ∪ seen) (roles ++ [b_Role b])) as [? Hr].
      { intros r. rewrite elem_of_app, list_elem_of_singleton, elem_of_union, elem_of_singleton, Hseen. tauto. }
      { apply NoDup_app. split; [done|]. split; [|apply NoDup_singleton].
        intros r Hr ->%list_elem_of_singleton. apply Hin. by apply Hseen. }
      split; [done|]. intros r. rewrite Hr, elem_of_app, list_elem_of_singleton. split.
      * intros [[?| ->]|(b' & ? & ?)]; [by left|right|right].
        -- exists b. split; [left|done].
        -- exists b'. split; [by right|done].
      * intros [?|(b' & [->|?]%elem_of_cons & ? & Hb)]; [by left; left|left; right; done|right; eauto].
    + destruct (IH seen roles Hseen Hnd) as [? Hr]. split; [done|]. intros r. rewrite Hr. split.
      * intros [?|(b' & ? & ?)]; [by left|right]. exists b'. split; [by right|done].
      * intros [?|(b' & [->|?]%elem_of_cons & ? & Hb)]; [by left|congruence|right; eauto].
Qed.

Lemma matches_native (r : Rule) (i : Input) (now : gotime) :
  matches r i now = true → RequireNative r = true → ClientPath i = "native".
Proof.
  unfold matches. intros Hm Hn. rewrite Hn in Hm. by destruct (bool_decide_reflect (ClientPath i = "native")).
Qed.

(** The rule asks for read-only at this instant. *)
Definition imposes_readonly (rule : Rule) (now : gotime) : bool :=
  r_ReadOnly rule || match ReadOnlyTimeWindow rule with
                     | None => false | Some w => window_contains w now end.

Lemma all_allow (i : Input) (now : gotime) (ms : list (string * Rule)) :
  Forall (λ d, Allow d = true) (decide_rule i now <$> ms).
Proof. apply Forall_fmap, list.Forall_forall. done. Qed.

(** A request with the roles of a certificate. *)
Definition with_roles (i : Input) (roles : list string) : Input :=
  mkInput (User i) (Groups i) roles (NodeID i) (NodeName i) (NodeLabels i) (in_Action i)
    (ClientPath i) (in_Service i) (in_ServiceKind i) (in_ServiceLabels i) (Now i).

(** Two documents with the same roles and bindings, up to the order of the rules
    in each role. *)
Definition same_rules (d d' : Doc) : Prop :=
  Bindings d = Bindings d' ∧
  ∀ rn, option_Forall2 (λ r r', r_Allow r ≡ₚ r_Allow r') (d_Roles d !! rn) (d_Roles d' !! rn).

Lemma matching_perm (d d' : Doc) (roles roles' : list string) (i i' : Input) (now : gotime) :
  same_rules d d' → roles ≡ₚ roles' → (∀ r, matches r i now = matches r i' now) →
  matching d roles i now ≡ₚ matching d' roles' i' now.
Proof.
  intros [_ Hd] Hp Hi. unfold matching. rewrite Hp. clear Hp roles.
  induction roles' as [|rn roles IH]; [done|]. rewrite !bind_cons, IH. f_equiv.
  unfold role_rules. specialize (Hd rn). inversion Hd as [r r' Hr E1 E2|E1 E2]; [|done].
  assert (filter (λ r0, matches r0 i now = true) (r_Allow r)
          = filter (λ r0, matches r0 i' now = true) (r_Allow r)) as ->
    by (apply list_filter_iff; intros; by rewrite Hi).
  by rewrite Hr.
Qed.

(** ** Theorems *)

(** C39 (policy.go, Evaluate): the decision is exactly the declared merge.  A
    request is allowed if and only if some rule of some of the principal's roles
    applies (deny by default); read-only and presence hold if any applying rule
    imposes them (most restrictive), detaching and recording if any applying rule
    does not turn them off; the lifetime is 0, which stands for the engine's default, if
    some applying rule sets none and otherwise the longest of them. *)
Theorem Evaluate_decision (d : Doc) (clock : gotime) (i : Input) :
  let r := Evaluate d clock i in
  let now := now_of clock i in
  let app := applies d clock i in
  (Allow r = true ↔ ∃ rn ru, app rn ru) ∧
  (ReadOnly r = true ↔ ∃ rn ru, app rn ru ∧ imposes_readonly ru now = true) ∧
  (RequirePresence r = true ↔ ∃ rn ru, app rn ru ∧ r_RequirePresence ru = true) ∧
  (AllowDetach r = true ↔ ∃ rn ru, app rn ru ∧ r_AllowDetach ru ≠ Some false) ∧
  (d_Record r = true ↔ ∃ rn ru, app rn ru ∧ r_Record ru ≠ Some false) ∧
  (Allow r = true →
     (MaxSessionTTL r = 0 ∧ ∃ rn ru, app rn ru ∧ r_MaxSessionTTL ru = 0) ∨
     ((∃ rn ru, app rn ru ∧ r_MaxSessionTTL ru = MaxSessionTTL r) ∧
      ∀ rn ru, app rn ru → r_MaxSessionTTL ru ≠ 0 ∧ r_MaxSessionTTL ru ≤ MaxSessionTTL r)).
Proof.
  cbv zeta. pose proof (Evaluate_fold d clock i) as E. cbv zeta in E.
  pose proof (λ f, existsb_matching f d clock i) as Hex.
  pose proof (elem_of_matching d clock i) as Hin.
  assert (∀ ru, (match r_AllowDetach ru with None => true | Some b => b end) = true ↔ r_AllowDetach ru ≠ Some false)
    as Hdet by (intros ru; destruct (r_AllowDetach ru) as [[]|]; naive_solver).
  assert (∀ ru, (match r_Record ru with None => true | Some b => b end) = true ↔ r_Record ru ≠ Some false)
    as Hrec by (intros ru; destruct (r_Record ru) as [[]|]; naive_solver).
  destruct (length (roles_of d i) =? 0)%nat eqn:Hlen.
  - apply Nat.eqb_eq, nil_length_inv in Hlen.
    assert (∀ rn ru, ¬ applies d clock i rn ru) as Hno.
    { intros rn ru [Hr _]. rewrite Hlen in Hr. by apply not_elem_of_nil in Hr. }
    rewrite E. cbn. naive_solver.
  - destruct (matching d (roles_of d i) i (now_of clock i)) as [|[rn0 ru0] ms] eqn:Hm.
    + assert (∀ rn ru, ¬ applies d clock i rn ru) as Hno.
      { intros rn ru Hr%Hin. by apply not_elem_of_nil in Hr. }
      rewrite E. cbn. naive_solver.
    + rewrite fmap_cons in E. pose proof (fold_merge_fields (decide_rule i (now_of clock i) (rn0, ru0))
        (decide_rule i (now_of clock i) <$> ms) (NoRule (roles_of d i) (in_Action i) (NodeName i)) eq_refl) as Hv.
      cbv zeta in Hv. rewrite <- E in Hv. setoid_rewrite fmap_cons in Hex.
      destruct Hv as (HA & HT & HD & HR & HRO & HP). rewrite HA, HD, HR, HRO, HP, !Hex. cbn [rule_decision
        AllowDetach d_Record ReadOnly RequirePresence]. setoid_rewrite Hdet. setoid_rewrite Hrec.
      split_and!; [|done..|].
      * split; [|done]. intros _. exists rn0, ru0. apply Hin. left.
      * intros _. rewrite HT. unfold longest. cbn [MaxSessionTTL rule_decision decide_rule fst snd].
        assert (∀ t, t ∈ r_MaxSessionTTL ru0 :: (MaxSessionTTL <$> (decide_rule i (now_of clock i) <$> ms)) ↔
          ∃ rn ru, applies d clock i rn ru ∧ r_MaxSessionTTL ru = t) as Hel.
        { intros t. rewrite elem_of_cons, list_elem_of_fmap. setoid_rewrite list_elem_of_fmap.
          setoid_rewrite <- Hin. setoid_rewrite elem_of_cons. split.
          - intros [->|(dd & -> & [rn ru] & -> & Hr)]; [by exists rn0, ru0; auto|]. exists rn, ru. auto.
          - intros (rn & ru & [[= -> ->]|Hr] & <-); [by left|]. right. eexists. split; [|by exists (rn, ru)]. done. }
        case_bool_decide as Hz.
        -- left. split; [done|]. apply Hel. apply elem_of_cons. naive_solver.
        -- right. destruct (fold_max_spec (MaxSessionTTL <$> (decide_rule i (now_of clock i) <$> ms))
             (r_MaxSessionTTL ru0)) as [Hi Hle]. split; [by apply Hel|].
           intros rn ru Ha. assert (r_MaxSessionTTL ru ∈ r_MaxSessionTTL ru0 ::
             (MaxSessionTTL <$> (decide_rule i (now_of clock i) <$> ms))) as Hr by (apply Hel; eauto).
           split; [|by apply Hle]. intros E0. apply Hz. rewrite E0 in Hr.
           apply elem_of_cons in Hr as [?|?]; auto.
Qed.

(** [policy.go, Evaluate] Order does not matter.  The verdict (access,
    lifetime, detach, record, read-only, presence) is the same whatever the order
    of the principal's roles and of the rules inside each role. *)
Theorem Evaluate_order (d d' : Doc) (clock : gotime) (i : Input) (roles roles' : list string) :
  same_rules d d' → roles ≡ₚ roles' →
  verdict (Evaluate d clock (with_roles i roles)) = verdict (Evaluate d' clock (with_roles i roles')).
Proof.
  intros Hd Hp. rewrite !Evaluate_fold. unfold roles_of. cbn [in_Roles with_roles User Groups in_Action NodeName].
  change (now_of clock (with_roles i roles)) with (now_of clock i).
  change (now_of clock (with_roles i roles')) with (now_of clock i).
  assert (∀ rs rs', rs ≡ₚ rs' →
    verdict (if (length rs =? 0)%nat then no_decision (NoRoles (User i))
       else fold_left merge (decide_rule (with_roles i roles) (now_of clock i)
              <$> matching d rs (with_roles i roles) (now_of clock i)) (no_decision (NoRule rs (in_Action i) (NodeName i))))
    = verdict (if (length rs' =? 0)%nat then no_decision (NoRoles (User i))
       else fold_left merge (decide_rule (with_roles i roles') (now_of clock i)
              <$> matching d' rs' (with_roles i roles') (now_of clock i)) (no_decision (NoRule rs' (in_Action i) (NodeName i))))) as Hv.
  { intros rs rs' Hrs. rewrite (Permutation_length Hrs). case_match; [done|].
    etrans; [apply (verdict_reason _ (NoRule rs' (in_Action i) (NodeName i))), all_allow|].
    apply verdict_perm; [apply all_allow|].
    change (decide_rule (with_roles i roles)) with (decide_rule (with_roles i roles')).
    apply fmap_Permutation. by apply matching_perm. }
  destruct Hd as [Hb Hr]. rewrite (Permutation_length Hp).
  destruct (length roles' =? 0)%nat.
  - unfold RolesFor. rewrite Hb. by apply Hv.
  - by apply Hv.
Qed.

(** [policy.go, matches] Native-only rules fail closed.  A request on any
    other path, an empty or unknown one included, is allowed only by a rule that
    does not require the native client. *)
Theorem require_native_fails_closed (d : Doc) (clock : gotime) (i : Input) :
  Allow (Evaluate d clock i) = true → ClientPath i ≠ "native" →
  ∃ rn ru, applies d clock i rn ru ∧ RequireNative ru = false.
Proof.
  intros Ha Hp. rewrite Evaluate_fold in Ha. cbv zeta in Ha.
  destruct (length (roles_of d i) =? 0)%nat; [done|].
  destruct (matching d (roles_of d i) i (now_of clock i)) as [|[rn ru] ms] eqn:Hm; [done|].
  assert (applies d clock i rn ru) as Happ by (apply elem_of_matching; rewrite Hm; left).
  exists rn, ru. split; [done|]. destruct Happ as (_ & _ & _ & _ & Hmat).
  destruct (RequireNative ru) eqn:E; [|done]. by apply matches_native in Hmat.
Qed.

(** [policy.go, RolesFor] The resolved roles are exactly those of the bindings
    that name the user or one of the groups, each once, in sorted order. *)
Theorem RolesFor_spec (d : Doc) (user : string) (groups : list string) :
  NoDup (RolesFor d user groups) ∧ Sorted String.le (RolesFor d user groups) ∧
  ∀ r, r ∈ RolesFor d user groups ↔
       ∃ b, b ∈ Bindings d ∧ b_Role b = r ∧
            (user ∈ Users b ∨ ∃ g, g ∈ groups ∧ g ∈ b_Groups b).
Proof.
  destruct (collect_roles_spec (Bindings d) user groups ∅ []) as [Hnd Hr];
    [set_solver|constructor|]. unfold RolesFor. split_and!.
  - by rewrite merge_sort_Permutation.
  - apply (Sorted_merge_sort _).
  - intros r. rewrite merge_sort_Permutation, Hr.
    assert (∀ b, binding_matches b user groups = true ↔
      user ∈ Users b ∨ ∃ g, g ∈ groups ∧ g ∈ b_Groups b) as Hb.
    { intros b. unfold binding_matches. rewrite orb_true_iff, !existsb_exists.
      setoid_rewrite <- list_elem_of_In. setoid_rewrite contains_spec.
      setoid_rewrite bool_decide_eq_true. naive_solver. }
    setoid_rewrite Hb. split.
    + intros [[]%not_elem_of_nil|(b & ? & ? & ?)]. eauto.
    + intros (b & ? & ? & ?). right. eauto.
Qed.

(** [policy.go, TimeWindow.contains] Half-open windows and overnight windows.
    For two different clock times, every instant is in exactly one of the window
    from the first to the second and the window from the second to the first; a
    window whose ends are equal, or one of whose ends does not parse, is empty. *)
Theorem window_partition (s e : string) (now : gotime) :
  match parse_clock s, parse_clock e with
  | Some a, Some b =>
      if a =? b then window_contains (mkWindow [] s e) now = false
      else window_contains (mkWindow [] s e) now = negb (window_contains (mkWindow [] e s) now)
  | _, _ => window_contains (mkWindow [] s e) now = false
  end.
Proof.
  unfold window_contains. cbn [Days Start End_ length Nat.ltb Nat.leb andb].
  destruct (parse_clock s) as [a|], (parse_clock e) as [b|]; try done.
  generalize (minute_of_day now). intros cur.
  destruct (Z.eqb_spec a b), (Z.leb_spec a b), (Z.leb_spec b a), (Z.leb_spec a cur), (Z.ltb_spec cur b),
    (Z.leb_spec b cur), (Z.ltb_spec cur a); simpl; try done; lia.
Qed.

(** *** Example policies *)

Definition noon : gotime := mkTime (12 * hour) 0.
Definition plain_rule (services : list string) (ro : option TimeWindow) (native : bool) : Rule :=
  mkRule ["shell"] services [] ∅ ∅ None 0 None None false ro false native.
Definition doc_of (rules : list Rule) : Doc :=
  mkDoc {[ "dev" := mkRole rules ]} [mkBinding "dev" ["alice"] []].
(** Plain node access: no service is named. *)
Definition node_request (path : string) : Input :=
  mkInput "alice" [] [] "n1" "web-1" ∅ "shell" path "" "" ∅ noon.

(** [policy.go, matches] A rule scoped to services can grant plain node
    access.  The comment says a service-scoped rule never does; the wildcard of
    its service list also matches the empty service of a node request. *)
Theorem wildcard_service_grants_node :
  Services (plain_rule ["*"] None false) ≠ [] ∧ in_Service (node_request "native") = "" ∧
  Allow (Evaluate (doc_of [plain_rule ["*"] None false]) noon (node_request "native")) = true ∧
  Allow (Evaluate (doc_of [plain_rule ["pg"] None false]) noon (node_request "native")) = false.
Proof. split_and!; [discriminate|vm_compute; reflexivity..]. Qed.

(** [policy.go, TimeWindow.contains] A malformed read-only window fails open.
    An unparsable window contains no instant, which denies access for an access
    window but lifts the restriction for a read-only one: a session meant to be
    read-only from 00:00 to 24h gets input. *)
Theorem malformed_readonly_window_fails_open :
  let bad := mkWindow [] "00:00" "24h" in
  let good := mkWindow [] "00:00" "24:00" in
  ReadOnly (Evaluate (doc_of [plain_rule [] (Some good) false]) noon (node_request "native")) = true ∧
  Allow (Evaluate (doc_of [plain_rule [] (Some bad) false]) noon (node_request "native")) = true ∧
  ReadOnly (Evaluate (doc_of [plain_rule [] (Some bad) false]) noon (node_request "native")) = false.
Proof. cbv zeta. split_and!; vm_compute; reflexivity. Qed.

Lemma Evaluate_order_witness :
  let r1 := plain_rule [] None false in let r2 := plain_rule ["pg"] None true in
  verdict (Evaluate (doc_of [r1; r2]) noon (with_roles (node_request "web") ["dev"; "ops"]))
  = verdict (Evaluate (doc_of [r2; r1]) noon (with_roles (node_request "web") ["ops"; "dev"])).
Proof.
  cbv zeta. apply Evaluate_order.
  - split; [reflexivity|]. intros rn. unfold doc_of. cbn [d_Roles].
    destruct (decide (rn = "dev")) as [->|Hne].
    + rewrite !lookup_singleton_eq. constructor. simpl. apply Permutation_swap.
    + rewrite !lookup_singleton_ne by congruence. constructor.
  - apply Permutation_swap.
Defined.

Lemma require_native_fails_closed_witness :
  ∃ rn ru, applies (doc_of [plain_rule [] None true; plain_rule [] None false]) noon
             (node_request "web") rn ru ∧ RequireNative ru = false.
Proof.
  apply (require_native_fails_closed (doc_of [plain_rule [] None true; plain_rule [] None false])
           noon (node_request "web")).
  - vm_compute. reflexivity.
  - discriminate.
Defined.
