(* ===== verification/Ring.v ===== *)
(** * Scrollback replay (src/internal/sessionhost/ring.go)

    The bounded scrollback of a session: chunks of output under contiguous sequence
    numbers, evicted oldest-first, replayed to a client that reattaches.  The bytes
    of a chunk live in a store and are reached by pointer, so that the copies the
    code makes and the plaintext it overwrites are visible.  The theorems: the ring
    holds exactly a suffix of the output within its budget, a delta is complete
    exactly when nothing the client misses was evicted and then is exactly what it
    misses, frames already handed out survive later evictions and the final
    zeroization, and no evicted or zeroized chunk leaves plaintext behind. *)
From Stdlib Require Import ZArith Lia Strings.Byte.
From stdpp Require Import base gmap fin_maps sets numbers list strings.
From S2P Require Import Prelude.

Local Open Scope Z_scope.

(** ** The byte store *)

Record mem := mkMem { store : gmap nat bytes; next : nat }.

Definition alloc (m : mem) (data : bytes) : nat * mem :=
  (next m, mkMem (<[next m := data]> (store m)) (S (next m))).

Definition load (m : mem) (p : nat) : bytes := default [] (store m !! p).

(** [zeroBytes]: overwrite in place. *)
Definition zeroBytes (m : mem) (p : nat) : mem :=
  mkMem (<[p := replicate (length (load m p)) x00]> (store m)) (next m).

(** ** The ring *)

Record ringChunk := mkChunk { seq : Z; stderr : bool; data : nat }.

Record ring := mkRing { max : Z; size : Z; chunks : list ringChunk }.

Definition defaultRingBytes : Z := 256 * 1024.

Definition newRing (mx : Z) : ring := mkRing (if mx <=? 0 then defaultRingBytes else mx) 0 [].

(** The eviction loop of [add]. *)
Fixpoint evict (m : mem) (mx sz : Z) (cs : list ringChunk) : mem * Z * list ringChunk :=
  match cs with
  | old :: ((_ :: _) as rest) =>
      if mx <? sz
      then evict (zeroBytes m (data old)) mx (sz - Z.of_nat (length (load m (data old)))) rest
      else (m, sz, cs)
  | _ => (m, sz, cs)
  end.

Definition add (m : mem) (r : ring) (sq : Z) (se : bool) (d : bytes) : mem * ring :=
  let '(p, m1) := alloc m d in
  let '(m2, sz, cs) := evict m1 (max r) (size r + Z.of_nat (length d))
                         (chunks r ++ [mkChunk sq se p]) in
  (m2, mkRing (max r) sz cs).

(** Skipping the chunks the client has. *)
Fixpoint skip_seen (cs : list ringChunk) (after : Z) : list ringChunk :=
  match cs with
  | c :: rest => if seq c <=? after then skip_seen rest after else cs
  | [] => []
  end.

(** Copying the rest. *)
Fixpoint copy_chunks (m : mem) (cs : list ringChunk) : mem * list ringChunk :=
  match cs with
  | [] => (m, [])
  | c :: rest =>
      let '(p, m1) := alloc m (load m (data c)) in
      let '(m2, out) := copy_chunks m1 rest in
      (m2, mkChunk (seq c) (stderr c) p :: out)
  end.

Definition deltaFrom (m : mem) (r : ring) (after cur : Z) : mem * (list ringChunk * bool) :=
  if cur <? after then (m, ([], false))
  else if after =? cur then (m, ([], true))
  else
    match chunks r with
    | [] => (m, ([], false))
    | c0 :: _ =>
        if wrap_u64 (after + 1) <? seq c0 then (m, ([], false))
        else let '(m1, out) := copy_chunks m (skip_seen (chunks r) after) in (m1, (out, true))
    end.

Fixpoint zero_all (m : mem) (cs : list ringChunk) : mem :=
  match cs with [] => m | c :: rest => zero_all (zeroBytes m (data c)) rest end.

Definition zeroize (m : mem) (r : ring) : mem * ring :=
  (zero_all m (chunks r), mkRing (max r) 0 []).

(** The session pump: output frames under the sequence numbers [from], [from+1], ... *)
Fixpoint pump (m : mem) (r : ring) (from : Z) (frames : list (bool * bytes)) : mem * ring :=
  match frames with
  | [] => (m, r)
  | (se, d) :: rest => let '(m1, r1) := add m r from se d in pump m1 r1 (from + 1) rest
  end.

(** ** Abstract view *)

(** What a chunk says. *)
Definition entry := (Z * bool * bytes)%type.
Definition view (m : mem) (cs : list ringChunk) : list entry :=
  (λ c, (seq c, stderr c, load m (data c))) <$> cs.

(** The output so far, numbered. *)
Fixpoint history (from : Z) (frames : list (bool * bytes)) : list entry :=
  match frames with [] => [] | (se, d) :: rest => (from, se, d) :: history (from + 1) rest end.

Definition entry_seq (e : entry) : Z := e.1.1.
Definition bytes_of (es : list entry) : Z := foldr (λ e n, Z.of_nat (length e.2) + n) 0 es.

Definition zeroed (b : bytes) : Prop := Forall (λ x, x = x00) b.

(** The ring holds a suffix of the history within its budget, its chunks have
    pointers of their own, and every other allocated block is zeroed. *)
Definition ring_ok (m : mem) (r : ring) (h : list entry) : Prop :=
  (∃ evicted, h = evicted ++ view m (chunks r)) ∧
  size r = bytes_of (view m (chunks r)) ∧
  (size r ≤ max r ∨ (length (chunks r) ≤ 1)%nat) ∧
  (h ≠ [] → chunks r ≠ []) ∧
  NoDup (data <$> chunks r) ∧ Forall (λ c, (data c < next m)%nat) (chunks r).

(** Blocks allocated by the ring that it no longer holds. *)
Definition no_plaintext (m : mem) (r : ring) : Prop :=
  ∀ p, (p < next m)%nat → p ∈ data <$> chunks r ∨ zeroed (load m p).

(** ** Lemmas *)

Lemma load_zero_eq (m : mem) (p : nat) : zeroed (load (zeroBytes m p) p).
Proof.
  unfold load at 1, zeroBytes. cbn [store]. rewrite lookup_insert_eq. simpl.
  apply Forall_replicate. done.
Qed.

Lemma load_zero_ne (m : mem) (p q : nat) : p ≠ q → load (zeroBytes m p) q = load m q.
Proof. intros. unfold load at 1, zeroBytes. cbn [store]. by rewrite lookup_insert_ne. Qed.

Lemma load_alloc_eq (m : mem) (d : bytes) : load (alloc m d).2 (next m) = d.
Proof. unfold load, alloc. simpl. by rewrite lookup_insert_eq. Qed.

Lemma load_alloc_ne (m : mem) (d : bytes) (q : nat) : q ≠ next m → load (alloc m d).2 q = load m q.
Proof. intros. unfold load, alloc. simpl. by rewrite lookup_insert_ne. Qed.

Lemma view_ext (m1 m2 : mem) (cs : list ringChunk) :
  (∀ c, c ∈ cs → load m1 (data c) = load m2 (data c)) → view m1 cs = view m2 cs.
Proof. intros Hc. unfold view. apply list_fmap_ext. intros i c ?%list_elem_of_lookup_2. by rewrite Hc. Qed.

Lemma view_app (m : mem) (cs cs' : list ringChunk) : view m (cs ++ cs') = view m cs ++ view m cs'.
Proof. apply fmap_app. Qed.

Lemma bytes_of_app (es es' : list entry) : bytes_of (es ++ es') = bytes_of es + bytes_of es'.
Proof. induction es as [|e es IH]; simpl; lia. Qed.

Lemma evict_cons2 (m : mem) (mx sz : Z) (c c2 : ringChunk) (cs : list ringChunk) :
  evict m mx sz (c :: c2 :: cs) =
    if mx <? sz
    then evict (zeroBytes m (data c)) mx (sz - Z.of_nat (length (load m (data c)))) (c2 :: cs)
    else (m, sz, c :: c2 :: cs).
Proof. done. Qed.

(** What the eviction loop does: it drops a prefix whose blocks it zeroes, until the
    rest fits the budget or is the newest chunk alone. *)
Lemma evict_spec (cs : list ringChunk) (m : mem) (mx sz : Z) :
  sz = bytes_of (view m cs) → NoDup (data <$> cs) → cs ≠ [] →
  let '(m', sz', cs') := evict m mx sz cs in
  ∃ old, cs = old ++ cs' ∧ cs' ≠ [] ∧ sz' = bytes_of (view m' cs') ∧
    (sz' ≤ mx ∨ (length cs' ≤ 1)%nat) ∧ next m' = next m ∧
    (∀ p, p ∉ data <$> old → load m' p = load m p) ∧
    (∀ p, p ∈ data <$> old → zeroed (load m' p)).
Proof.
  revert m sz. induction cs as [|c cs IH]; intros m sz Hsz Hnd Hne; [done|].
  assert (∀ m', m' = m → sz ≤ mx ∨ (length (c :: cs) ≤ 1)%nat →
    ∃ old, c :: cs = old ++ c :: cs ∧ c :: cs ≠ [] ∧ sz = bytes_of (view m' (c :: cs)) ∧
    (sz ≤ mx ∨ (length (c :: cs) ≤ 1)%nat) ∧ next m' = next m ∧
    (∀ p, p ∉ data <$> old → load m' p = load m p) ∧ (∀ p, p ∈ data <$> old → zeroed (load m' p))) as Hstop.
  { intros m' -> ?. exists []. split_and!; auto. intros p []%not_elem_of_nil. }
  destruct cs as [|c2 cs]; [apply Hstop; simpl; auto|]. rewrite evict_cons2.
  destruct (Z.ltb_spec mx sz); [|apply Hstop; auto].
  rewrite fmap_cons in Hnd. apply list.NoDup_cons in Hnd as [Hc Hnd].
  specialize (IH (zeroBytes m (data c)) (sz - Z.of_nat (length (load m (data c))))).
  destruct (evict (zeroBytes m (data c)) mx _ (c2 :: cs)) as [[m' sz'] cs'].
  destruct IH as (old & E & H1 & H2 & H3 & H4 & H5 & H6); [|done|done|].
  { rewrite (view_ext _ m); [simpl in Hsz |- *; lia|].
    intros x Hx. apply load_zero_ne. intros E. apply Hc. rewrite E. by apply list_elem_of_fmap_2. }
  exists (c :: old). split_and!; try done.
  - simpl. by rewrite E.
  - intros p Hp. rewrite fmap_cons, not_elem_of_cons in Hp. destruct Hp as [Hpc Hp].
    rewrite H5 by done. by apply load_zero_ne.
  - intros p Hp. rewrite fmap_cons, elem_of_cons in Hp.
    destruct (decide (p ∈ data <$> old)) as [?|Hn]; [auto|]. destruct Hp as [->|?]; [|done].
    rewrite H5 by done. apply load_zero_eq.
Qed.

Lemma add_ok (m : mem) (r : ring) (h : list entry) (sq : Z) (se : bool) (d : bytes) :
  ring_ok m r h →
  let '(m', r') := add m r sq se d in
  ring_ok m' r' (h ++ [(sq, se, d)]) ∧ (no_plaintext m r → no_plaintext m' r') ∧
  max r' = max r ∧ (next m ≤ next m')%nat ∧
  (∀ p, (p < next m)%nat → p ∉ data <$> chunks r → load m' p = load m p) ∧
  (∀ c, c ∈ chunks r' → c ∈ chunks r ∨ (next m ≤ data c)%nat).
Proof.
  intros ((ev & Hh) & Hsz & _ & _ & Hnd & Hlt). unfold add.
  rewrite (surjective_pairing (alloc m d)). change (alloc m d).1 with (next m).
  pose proof (load_alloc_eq m d) as Hld. pose proof (load_alloc_ne m d) as Hlne.
  assert (next (alloc m d).2 = S (next m)) as Hn1 by done.
  generalize dependent (alloc m d).2. intros m1 Hld Hlne Hn1.
  assert (∀ c, c ∈ chunks r → data c ≠ next m) as Hfresh.
  { intros c Hc E. rewrite list.Forall_forall in Hlt. specialize (Hlt c Hc). lia. }
  set (cs := chunks r ++ [mkChunk sq se (next m)]).
  assert (view m1 cs = view m (chunks r) ++ [(sq, se, d)]) as Hview.
  { unfold cs. rewrite view_app. f_equal; [|cbn; by rewrite Hld].
    apply view_ext. intros c Hc. by apply Hlne, Hfresh. }
  assert (NoDup (data <$> cs)) as Hnd'.
  { unfold cs. rewrite fmap_app. apply list.NoDup_app. split; [done|]. split; [|apply NoDup_singleton].
    intros x (c & -> & Hc)%list_elem_of_fmap E%list_elem_of_singleton. by apply (Hfresh c). }
  pose proof (evict_spec cs m1 (max r) (size r + Z.of_nat (length d))) as He.
  destruct (evict m1 (max r) (size r + Z.of_nat (length d)) cs) as [[m2 sz] cs'].
  destruct He as (old & E & Hne & Hsz' & Hbud & Hn2 & Hkeep & Hzero);
    [rewrite Hview, bytes_of_app; simpl; lia|done|unfold cs; by destruct (chunks r)|].
  assert (∀ c, c ∈ cs' → data c ∉ data <$> old) as Hdisj.
  { intros c Hc Ho. rewrite E, fmap_app in Hnd'. apply list.NoDup_app in Hnd' as (_ & Hd & _).
    apply (Hd _ Ho). by apply list_elem_of_fmap_2. }
  assert (view m2 cs' = view m1 cs') as Hv2 by (apply view_ext; intros; by apply Hkeep, Hdisj).
  assert (∀ c, c ∈ cs → (data c < next m2)%nat) as Hlt2.
  { intros c Hc. rewrite Hn2, Hn1. unfold cs in Hc. apply elem_of_app in Hc as [Hc| ->%list_elem_of_singleton]; [|simpl; lia].
    rewrite list.Forall_forall in Hlt. specialize (Hlt c Hc). lia. }
  assert (∀ c, c ∈ cs' → c ∈ cs) as Hsub by (intros; rewrite E; apply elem_of_app; by right).
  cbn [max chunks size]. split_and!; [|..|rewrite Hn2; lia| |].
  - split_and!; cbn [chunks size max]; try done.
    + exists (ev ++ view m1 old). rewrite Hh, <- !app_assoc. f_equal. by rewrite <- Hview, E, view_app, Hv2.
    + rewrite E, fmap_app in Hnd'. by apply list.NoDup_app in Hnd' as (_ & _ & ?).
    + apply list.Forall_forall. auto.
  - intros Hnp q Hq. cbn [chunks]. destruct (decide (q ∈ data <$> old)); [right; auto|].
    rewrite Hn2, Hn1 in Hq. destruct (decide (q = next m)) as [->|Hqn].
    + left. assert (next m ∈ data <$> cs) as Hin by (unfold cs; rewrite fmap_app; apply elem_of_app; right; left).
      rewrite E, fmap_app in Hin. by apply elem_of_app in Hin as [?|?].
    + destruct (Hnp q) as [Hin|Hz]; [lia| |right; by rewrite Hkeep, Hlne].
      left. assert (q ∈ data <$> cs) as Hin' by (unfold cs; rewrite fmap_app; apply elem_of_app; by left).
      rewrite E, fmap_app in Hin'. by apply elem_of_app in Hin' as [?|?].
  - done.
  - intros q Hq Hnin. rewrite Hkeep, Hlne; [done|lia|]. intros Ho.
    assert (q ∈ data <$> cs) as Hin by (rewrite E, fmap_app; apply elem_of_app; by left).
    unfold cs in Hin. rewrite fmap_app in Hin. apply elem_of_app in Hin as [?|Hs]; [done|].
    apply list_elem_of_singleton in Hs. simpl in Hs. lia.
  - intros c Hc%Hsub. unfold cs in Hc. apply elem_of_app in Hc as [?|Hc]; [by left|].
    apply list_elem_of_singleton in Hc as ->. right. simpl. lia.
Qed.

Definition mem0 : mem := mkMem ∅ 0.

Lemma newRing_ok (mx : Z) : ring_ok mem0 (newRing mx) [] ∧ no_plaintext mem0 (newRing mx).
Proof.
  split; [|intros p Hp; cbn in Hp; lia]. unfold ring_ok, newRing. cbn.
  split_and!; first [by exists [] | by right; lia | constructor | done].
Qed.

Lemma pump_ok (frames : list (bool * bytes)) (m : mem) (r : ring) (h : list entry) (from : Z) :
  ring_ok m r h →
  let '(m', r') := pump m r from frames in
  ring_ok m' r' (h ++ history from frames) ∧ (no_plaintext m r → no_plaintext m' r') ∧
  (next m ≤ next m')%nat ∧
  (∀ p, (p < next m)%nat → p ∉ data <$> chunks r → load m' p = load m p) ∧
  (∀ c, c ∈ chunks r' → c ∈ chunks r ∨ (next m ≤ data c)%nat).
Proof.
  revert m r h from. induction frames as [|[se d] frames IH]; intros m r h from Hok; cbn [pump history].
  { rewrite app_nil_r. split_and!; auto. }
  pose proof (add_ok m r h from se d Hok) as Ha. destruct (add m r from se d) as [m1 r1].
  destruct Ha as (Hok1 & Hnp1 & _ & Hn1 & Hk1 & Hc1).
  specialize (IH m1 r1 _ (from + 1) Hok1). destruct (pump m1 r1 (from + 1) frames) as [m2 r2].
  destruct IH as (Hok2 & Hnp2 & Hn2 & Hk2 & Hc2). rewrite <- app_assoc in Hok2.
  split_and!; [done|auto|lia| |].
  - intros p Hp Hnin. rewrite Hk2; [by apply Hk1|lia|].
    intros (c & -> & Hc)%list_elem_of_fmap. destruct (Hc1 c Hc); [|lia].
    apply Hnin. by apply list_elem_of_fmap_2.
  - intros c Hc. destruct (Hc2 c Hc) as [Hc'|?]; [|right; lia]. destruct (Hc1 c Hc'); [by left|right; lia].
Qed.

(** *** Numbering *)

Lemma history_seq_ge (frames : list (bool * bytes)) (from : Z) (e : entry) :
  e ∈ history from frames → from ≤ entry_seq e < from + Z.of_nat (length frames).
Proof.
  revert from. induction frames as [|[se d] frames IH]; intros from; simpl; [by intros []%not_elem_of_nil|].
  intros [->|He%IH]%elem_of_cons; unfold entry_seq in *; simpl in *; lia.
Qed.

Lemma filter_none {A} (P : A → Prop) `{∀ x, Decision (P x)} (l : list A) :
  (∀ x, x ∈ l → ¬ P x) → filter P l = [].
Proof.
  induction l as [|x l IH]; intros Hl; [done|]. rewrite filter_cons_False by (apply Hl; by left).
  apply IH. intros y Hy. apply Hl. by right.
Qed.

Lemma history_lookup (frames : list (bool * bytes)) (from : Z) (k : nat) (e : entry) :
  history from frames !! k = Some e → entry_seq e = from + Z.of_nat k.
Proof.
  revert from k. induction frames as [|[se d] frames IH]; intros from [|k] E; simplify_eq/=.
  - unfold entry_seq. simpl. lia.
  - rewrite (IH _ _ E). lia.
Qed.

Lemma history_prefix (frames : list (bool * bytes)) (from : Z) (ev v : list entry) (e : entry) :
  history from frames = ev ++ v → e ∈ ev → entry_seq e < from + Z.of_nat (length ev).
Proof.
  intros Hh (k & Hk)%list_elem_of_lookup_1. pose proof (lookup_lt_Some _ _ _ Hk).
  rewrite (history_lookup frames from k e); [lia|]. by rewrite Hh, lookup_app_l.
Qed.

Lemma history_suffix (frames : list (bool * bytes)) (from : Z) (ev v : list entry) :
  history from frames = ev ++ v →
  v = history (from + Z.of_nat (length ev)) (drop (length ev) frames).
Proof.
  revert from ev. induction frames as [|[se d] frames IH]; intros from ev E; simpl in E.
  - symmetry in E. apply app_eq_nil in E as [-> ->]. done.
  - destruct ev as [|e ev]; simpl in E |- *; [rewrite Z.add_0_r; by simplify_eq|].
    simplify_eq. rewrite (IH _ _ H). f_equal. lia.
Qed.

Lemma filter_history_all (frames : list (bool * bytes)) (from after : Z) :
  after < from → filter (λ e, after < entry_seq e) (history from frames) = history from frames.
Proof.
  revert from. induction frames as [|[se d] frames IH]; intros from Ha; [done|]. cbn [history].
  rewrite filter_cons, decide_True by (unfold entry_seq; simpl; lia). by rewrite IH by lia.
Qed.

Lemma skip_seen_spec (frames : list (bool * bytes)) (m : mem) (cs : list ringChunk) (from after : Z) :
  view m cs = history from frames →
  view m (skip_seen cs after) = filter (λ e, after < entry_seq e) (history from frames).
Proof.
  revert cs from. induction frames as [|[se d] frames IH]; intros cs from E; simpl in E.
  - apply fmap_nil_inv in E as ->. done.
  - destruct cs as [|c cs]; [done|]. unfold view in E. rewrite fmap_cons in E. simplify_eq/=.
    destruct (Z.leb_spec (seq c) after).
    + rewrite (IH cs (seq c + 1)) by done. rewrite filter_cons, decide_False; [done|]. unfold entry_seq. simpl. lia.
    + change ((seq c, stderr c, load m (data c)) :: history (seq c + 1) frames)
        with (history (seq c) ((stderr c, load m (data c)) :: frames)).
      rewrite filter_history_all by lia. cbn [history]. unfold view. rewrite fmap_cons. by f_equal.
Qed.

Lemma copy_chunks_spec (cs : list ringChunk) (m : mem) :
  Forall (λ c, (data c < next m)%nat) cs →
  let '(m', out) := copy_chunks m cs in
  view m' out = view m cs ∧ (next m ≤ next m')%nat ∧
  (∀ p, (p < next m)%nat → load m' p = load m p) ∧
  Forall (λ c, (next m ≤ data c < next m')%nat) out.
Proof.
  revert m. induction cs as [|c cs IH]; intros m Hlt; cbn [copy_chunks]; [auto|].
  apply list.Forall_cons in Hlt as [Hc Hlt].
  rewrite (surjective_pairing (alloc m _)). change (alloc m (load m (data c))).1 with (next m).
  pose proof (load_alloc_eq m (load m (data c))) as Hld.
  pose proof (load_alloc_ne m (load m (data c))) as Hlne.
  assert (next (alloc m (load m (data c))).2 = S (next m)) as Hn1 by done.
  generalize dependent (alloc m (load m (data c))).2. intros m1 Hld Hlne Hn1.
  specialize (IH m1). destruct (copy_chunks m1 cs) as [m2 out].
  destruct IH as (Hv & Hn & Hk & Hout); [eapply Forall_impl; [exact Hlt|]; simpl; lia|].
  split_and!; [|lia| |].
  - unfold view in *. rewrite !fmap_cons, Hv. cbn. f_equal.
    + rewrite Hk by lia. by rewrite Hld.
    + apply view_ext. intros x Hx. rewrite list.Forall_forall in Hlt. specialize (Hlt x Hx). apply Hlne. lia.
  - intros p Hp. rewrite Hk by lia. apply Hlne. lia.
  - constructor; [simpl; lia|]. eapply Forall_impl; [exact Hout|]. simpl. lia.
Qed.

Lemma skip_seen_sub (cs : list ringChunk) (after : Z) (c : ringChunk) :
  c ∈ skip_seen cs after → c ∈ cs.
Proof.
  induction cs as [|c' cs IH]; simpl; [done|]. destruct (seq c' <=? after); [|done].
  intros ?%IH. by right.
Qed.

Lemma zero_all_spec (cs : list ringChunk) (m : mem) :
  let m' := zero_all m cs in
  next m' = next m ∧ (∀ p, p ∉ data <$> cs → load m' p = load m p) ∧
  (∀ p, p ∈ data <$> cs → zeroed (load m' p)).
Proof.
  revert m. induction cs as [|c cs IH]; intros m; cbn [zero_all].
  - split_and!; auto. intros p []%not_elem_of_nil.
  - destruct (IH (zeroBytes m (data c))) as (Hn & Hk & Hz). cbv zeta in *. split_and!; [done| |].
    + intros p Hp. rewrite fmap_cons, not_elem_of_cons in Hp. destruct Hp.
      rewrite Hk by done. by apply load_zero_ne.
    + intros p Hp. destruct (decide (p ∈ data <$> cs)); [auto|].
      rewrite fmap_cons, elem_of_cons in Hp. destruct Hp as [->|?]; [|done].
      rewrite Hk by done. apply load_zero_eq.
Qed.

(** Handing out a delta touches nothing the ring or anyone else holds. *)
Lemma deltaFrom_frame (m : mem) (r : ring) (h : list entry) (after cur : Z) :
  ring_ok m r h →
  let '(m', (out, ok)) := deltaFrom m r after cur in
  (next m ≤ next m')%nat ∧ (∀ p, (p < next m)%nat → load m' p = load m p) ∧
  Forall (λ c, (next m ≤ data c < next m')%nat) out.
Proof.
  intros (_ & _ & _ & _ & _ & Hlt). unfold deltaFrom.
  destruct (cur <? after); [auto|]. destruct (after =? cur); [auto|].
  destruct (chunks r) as [|c0 cs] eqn:Ec; [auto|]. destruct (_ <? _); [auto|].
  rewrite <- Ec in *. pose proof (copy_chunks_spec (skip_seen (chunks r) after) m) as Hc.
  destruct (copy_chunks m (skip_seen (chunks r) after)) as [m1 out].
  destruct Hc as (_ & ? & ? & ?); [|auto].
  apply list.Forall_forall. intros c Hc%skip_seen_sub. rewrite list.Forall_forall in Hlt. auto.
Qed.

(** The ring after a session's output, from scratch. *)
Lemma pump_new (mx from : Z) (frames : list (bool * bytes)) :
  let '(m, r) := pump mem0 (newRing mx) from frames in
  ring_ok m r (history from frames) ∧ no_plaintext m r.
Proof.
  destruct (newRing_ok mx) as [Hok Hnp].
  pose proof (pump_ok frames mem0 (newRing mx) [] from Hok) as H.
  destruct (pump mem0 (newRing mx) from frames) as [m r]. destruct H as (? & ? & _). auto.
Qed.

(** A delta from a ring that holds a suffix of the history. *)
Lemma deltaFrom_exact (m : mem) (r : ring) (from after : Z) (frames : list (bool * bytes)) :
  0 < from → from + Z.of_nat (length frames) < 2 ^ 64 + 1 → from - 1 ≤ after →
  ring_ok m r (history from frames) →
  let cur := from + Z.of_nat (length frames) - 1 in
  let '(m', (out, ok)) := deltaFrom m r after cur in
  (ok = true ↔ after ≤ cur ∧
     ∀ e, e ∈ history from frames → after < entry_seq e → e ∈ view m (chunks r)) ∧
  (ok = true → view m' out = filter (λ e, after < entry_seq e) (history from frames)).
Proof.
  intros Hfrom Hcur Hafter ((ev & Hh) & _ & _ & Hne & _ & Hlt) cur.
  pose proof (history_suffix frames from ev _ Hh) as Hv.
  assert (filter (λ e, cur < entry_seq e) (history from frames) = []) as Hnone.
  { apply filter_none. intros e He%history_seq_ge. lia. }
  unfold deltaFrom. destruct (Z.ltb_spec cur after).
  { split; [split; [done|lia]|done]. }
  destruct (Z.eqb_spec after cur) as [->|Hac].
  { split; [|by rewrite Hnone]. split; [|done]. intros _. split; [done|].
    intros e He Hs. apply history_seq_ge in He. lia. }
  assert (frames ≠ []) as Hfr by (intros ->; simpl in *; lia).
  destruct (chunks r) as [|c0 cs] eqn:Ec.
  { exfalso. apply Hne; [|done]. by destruct frames as [|[]]. }
  rewrite <- Ec in *. rewrite wrap_u64_small by lia.
  assert (seq c0 = from + Z.of_nat (length ev)) as Hseq.
  { rewrite Ec in Hv. unfold view in Hv. rewrite fmap_cons in Hv.
    destruct (drop (length ev) frames) as [|[]]; simpl in Hv; [done|]. by injection Hv. }
  destruct (Z.ltb_spec (after + 1) (seq c0)) as [Hgap|Hnogap].
  - split; [|done]. split; [done|]. intros [_ Hall]. exfalso.
    destruct (lookup_lt_is_Some_2 ev (Z.to_nat (after + 1 - from))) as [e He]; [lia|].
    assert (e ∈ history from frames) as Hin by (rewrite Hh; apply elem_of_app; left; by eapply list_elem_of_lookup_2).
    assert (entry_seq e = from + Z.of_nat (Z.to_nat (after + 1 - from))) as Hes.
    { apply (history_lookup frames). rewrite Hh, lookup_app_l; [done|]. by eapply lookup_lt_Some. }
    specialize (Hall e Hin ltac:(lia)). rewrite Hv in Hall. apply history_seq_ge in Hall. lia.
  - pose proof (copy_chunks_spec (skip_seen (chunks r) after) m) as Hc.
    destruct (copy_chunks m (skip_seen (chunks r) after)) as [m1 out].
    destruct Hc as (Hview & _).
    { apply Forall_forall. intros c Hc%skip_seen_sub. rewrite Forall_forall in Hlt. auto. }
    pose proof (λ e, history_prefix frames from ev _ e Hh) as Hev.
    split.
    + split; [|done]. intros _. split; [lia|]. intros e He Hs. rewrite Hh in He.
      apply elem_of_app in He as [He|He]; [|done].
      specialize (Hev e He). lia.
    + intros _. rewrite Hview. rewrite (skip_seen_spec _ m _ _ after Hv), <- Hv.
      rewrite Hh, filter_app, (filter_none _ ev); [done|].
      intros e He. specialize (Hev e He). lia.
Qed.

(** ** Theorems *)

(** [ring.go, deltaFrom] A replay is exact or refused.  After any output, for a
    client that saw the frames up to [after], the delta is complete exactly if the
    client is not ahead and every newer frame is still in the ring, and a complete
    delta is exactly the newer frames, in order, with their bytes. *)
Theorem delta_exact (mx from after : Z) (frames : list (bool * bytes)) :
  0 < from → from + Z.of_nat (length frames) < 2 ^ 64 → from - 1 ≤ after →
  let cur := from + Z.of_nat (length frames) - 1 in
  let '(m, r) := pump mem0 (newRing mx) from frames in
  let '(m', (out, ok)) := deltaFrom m r after cur in
  (ok = true ↔ after ≤ cur ∧
     ∀ e, e ∈ history from frames → after < entry_seq e → e ∈ view m (chunks r)) ∧
  (ok = true → view m' out = filter (λ e, after < entry_seq e) (history from frames)).
Proof.
  intros Hfrom Hcur Hafter cur. pose proof (pump_new mx from frames) as Hp.
  destruct (pump mem0 (newRing mx) from frames) as [m r]. destruct Hp as [Hok _].
  apply deltaFrom_exact; [lia..|done].
Qed.

(** [ring.go, add] The budget and the plaintext.  Whatever the output, the ring
    holds its most recent frames within the byte budget (or the newest frame alone),
    its size is exactly their bytes, and every block it evicted is zeroed; after
    [zeroize] every block it ever held is. *)
Theorem ring_bounded (mx from : Z) (frames : list (bool * bytes)) :
  let '(m, r) := pump mem0 (newRing mx) from frames in
  (∃ evicted, history from frames = evicted ++ view m (chunks r)) ∧
  size r = bytes_of (view m (chunks r)) ∧
  (size r ≤ max r ∨ (length (chunks r) ≤ 1)%nat) ∧ (frames ≠ [] → chunks r ≠ []) ∧
  (∀ p, (p < next m)%nat → p ∈ data <$> chunks r ∨ zeroed (load m p)) ∧
  let '(m', r') := zeroize m r in
  chunks r' = [] ∧ size r' = 0 ∧ ∀ p, (p < next m')%nat → zeroed (load m' p).
Proof.
  pose proof (pump_new mx from frames) as Hp.
  destruct (pump mem0 (newRing mx) from frames) as [m r].
  destruct Hp as [(Hh & Hsz & Hb & Hne & _ & _) Hnp]. cbn [zeroize].
  destruct (zero_all_spec (chunks r) m) as (Hn & Hk & Hz). cbv zeta in *.
  split_and!; try done.
  - intros Hf. apply Hne. by destruct frames as [|[]].
  - intros p Hp. destruct (decide (p ∈ data <$> chunks r)); [auto|].
    rewrite Hk by done. rewrite Hn in Hp. by destruct (Hnp p Hp).
Qed.

(** [ring.go, deltaFrom] Frames handed out are copies.  Whatever the session
    outputs afterwards, and after the ring is zeroized, the frames of a delta still
    say what they said when they were handed out. *)
Theorem delta_survives (mx from from' after cur : Z) (frames frames' : list (bool * bytes)) :
  let '(m, r) := pump mem0 (newRing mx) from frames in
  let '(m1, (out, ok)) := deltaFrom m r after cur in
  let '(m2, r2) := pump m1 r from' frames' in
  let '(m3, _) := zeroize m2 r2 in
  view m2 out = view m1 out ∧ view m3 out = view m1 out.
Proof.
  pose proof (pump_new mx from frames) as Hp.
  destruct (pump mem0 (newRing mx) from frames) as [m r]. destruct Hp as [Hok _].
  pose proof (deltaFrom_frame m r _ after cur Hok) as Hd.
  destruct (deltaFrom m r after cur) as [m1 [out ok]]. destruct Hd as (Hn & Hk & Hout).
  assert (ring_ok m1 r (history from frames)) as Hok1.
  { destruct Hok as ((ev & Hh) & Hsz & Hb & Hne & Hnd & Hlt).
    assert (view m1 (chunks r) = view m (chunks r)) as Hv.
    { apply view_ext. intros c Hc. apply Hk. rewrite Forall_forall in Hlt. auto. }
    split_and!; rewrite ?Hv; eauto. eapply Forall_impl; [exact Hlt|]. simpl. lia. }
  pose proof (pump_ok frames' m1 r _ from' Hok1) as Hp2.
  destruct (pump m1 r from' frames') as [m2 r2]. destruct Hp2 as (_ & _ & Hn2 & Hk2 & Hc2).
  cbn [zeroize]. destruct (zero_all_spec (chunks r2) m2) as (_ & Hk3 & _). cbv zeta in Hk3.
  assert (∀ c, c ∈ out → (next m ≤ data c < next m1)%nat) as Hrange by (by apply Forall_forall).
  assert (∀ c, c ∈ chunks r → (data c < next m)%nat) as Hlt.
  { destruct Hok as (_ & _ & _ & _ & _ & Hlt). by apply Forall_forall. }
  assert (view m2 out = view m1 out) as Hv2.
  { apply view_ext. intros c Hc. specialize (Hrange c Hc). apply Hk2; [lia|].
    intros (c' & E & Hc'%Hlt)%list_elem_of_fmap. lia. }
  split; [done|]. rewrite <- Hv2. apply view_ext. intros c Hc. specialize (Hrange c Hc). apply Hk3.
  intros (c' & E & Hc')%list_elem_of_fmap. destruct (Hc2 c' Hc') as [Hin%Hlt|?]; lia.
Qed.

Lemma delta_exact_witness :
  let frames := [(false, [x41; x42]); (true, [x43]); (false, [x44; x45; x46])] in
  let '(m, r) := pump mem0 (newRing 4) 1 frames in
  let '(m', (out, ok)) := deltaFrom m r 1 3 in
  (ok = true ↔ 1 ≤ 3 ∧
     ∀ e, e ∈ history 1 frames → 1 < entry_seq e → e ∈ view m (chunks r)) ∧
  (ok = true → view m' out = filter (λ e, 1 < entry_seq e) (history 1 frames)).
Proof.
  apply (delta_exact 4 1 1 [(false, [x41; x42]); (true, [x43]); (false, [x44; x45; x46])]);
    vm_compute; (reflexivity || discriminate).
Defined.
