(* ===== verification/AuditLog.v ===== *)
(** * The audit chain (src/internal/controller/audit.go)

    The controller's append-only log: records chained by hash and sequence number
    under an HMAC key, a sidecar checkpoint, repair of a torn last line, and the
    queries over the log.  Files are byte strings, every write may fail or stop
    half-way, and a crash may happen between any two of them.  The theorems: after
    any crashes the log opens again and no acknowledged record is lost; a truncated
    log is refused; a log that is accepted holds exactly the records that were
    written; queries show a workspace only its own records and their pages tile the
    matches; and a failed sync that the process survives breaks the chain. *)
From Stdlib Require Import ZArith Lia Strings.Byte Strings.Ascii.
From stdpp Require Import base gmap fin_maps sets numbers list strings.
From S2P Require Import Prelude.

Local Open Scope Z_scope.

(** ** Data *)

(** [hmac.New(sha256.New, key)] over one message. *)
Class Hmac := hmac_sha256 : bytes → bytes → bytes.

(** A nil [Detail] and an empty one are the same to the encoder. *)
Record AuditEvent := mkEvent {
  Seq : Z; TS : Z; Workspace : string; Type_ : string; Actor : string; Node : string;
  Session : string; Detail : gmap string string; Prev : string; Hash : string }.

#[export] Instance AuditEvent_eq_decision : EqDecision AuditEvent.
Proof. solve_decision. Defined.

Record checkpoint := mkCheckpoint { c_Seq : Z; c_Hash : string; c_Count : Z }.

(** [encoding/json] on the two types. *)
Class AuditJSON := {
  Marshal : AuditEvent → option bytes; Unmarshal : bytes → option AuditEvent;
  MarshalChk : checkpoint → option bytes; UnmarshalChk : bytes → option checkpoint }.

Inductive audit_err : Type :=
| KeyMalformed | KeyWrite | Encoding | Malformed | ChainBreak | SeqGap | MACMismatch | TooLong
| TamperedRecord | TamperedChain | TamperedMAC | TruncateFailed
| CheckpointMalformed | Truncated | CheckpointHash | OpenFailed
| WriteFailed | SyncFailed | CheckpointFailed.

#[export] Instance audit_err_eq_decision : EqDecision audit_err.
Proof. solve_decision. Defined.

Definition with_hash (e : AuditEvent) (h : string) : AuditEvent :=
  mkEvent (Seq e) (TS e) (Workspace e) (Type_ e) (Actor e) (Node e) (Session e) (Detail e) (Prev e) h.

(** The open log; [has_chk] is [chkPath != ""]. *)
Record Audit := mkAudit {
  has_chk : bool; key : bytes; last : string; seq : Z; count : Z;
  verifiedAt : Z; verifiedCount : Z; verifiedErr : option audit_err }.

(** The files the log uses ([None]: absent) and what reached the off-box sink. *)
Record world := mkWorld {
  log_file : option bytes; chk_file : option bytes; key_file : option string; mirror : list bytes }.

(** What the operating system answers to one append: a write that stops after [n]
    bytes with an error, a failed sync, a failed checkpoint, a failed sink. *)
Record append_io := mkAppendIO { io_write : option nat; io_sync : bool; io_chk : bool; io_sink : bool }.
Record open_io := mkOpenIO { oi_key : bool; oi_truncate : bool; oi_open : bool; oi_chk : bool }.

(** ** Lines *)

(** The complete lines of a file, and what follows its last newline. *)
Fixpoint split_nl (b : bytes) : list bytes * bytes :=
  match b with
  | [] => ([], [])
  | c :: r =>
      let '(ls, t) := split_nl r in
      if bool_decide (c = x0a) then ([] :: ls, t)
      else match ls with [] => ([], c :: t) | l :: ls' => ((c :: l) :: ls', t) end
  end.

(** [bufio.ScanLines] drops one carriage return at the end of a line. *)
Fixpoint drop_cr (l : bytes) : bytes :=
  match l with
  | [] => []
  | [c] => if bool_decide (c = x0d) then [] else [c]
  | c :: r => c :: drop_cr r
  end.

Definition tokens (b : bytes) : list bytes :=
  let '(ls, t) := split_nl b in ls ++ (if (length t =? 0)%nat then [] else [t]).

(** The scanner's buffer. *)
Definition max_token : Z := 4 * 1024 * 1024.

Section Chain.
Context `{Hmac, AuditJSON}.

Definition auditMAC (key : bytes) (e : AuditEvent) : option string :=
  match Marshal (with_hash e "") with
  | None => None
  | Some b => Some (hex_encode (hmac_sha256 key b))
  end.

(** ** Scanning *)

Record scan_out := mkScan {
  s_seen : list (bytes * AuditEvent); s_prev : string; s_seq : Z; s_count : Z; s_err : option audit_err }.

Fixpoint scan_loop (key : bytes) (toks : list bytes) (seen : list (bytes * AuditEvent))
    (prev : string) (seq count : Z) : scan_out :=
  let stop e := mkScan seen prev seq count e in
  match toks with
  | [] => stop None
  | tok :: rest =>
      if max_token <=? Z.of_nat (length tok) then stop (Some TooLong)
      else
        let line := drop_cr tok in
        if (length line =? 0)%nat then scan_loop key rest seen prev seq count
        else
          match Unmarshal line with
          | None => stop (Some Malformed)
          | Some e =>
              if negb (bool_decide (Prev e = prev)) then stop (Some ChainBreak)
              else if negb (Seq e =? wrap_i64 (seq + 1)) then stop (Some SeqGap)
              else
                match auditMAC key e with
                | None => stop (Some Encoding)
                | Some want =>
                    if negb (bool_decide (Hash e = want)) then stop (Some MACMismatch)
                    else scan_loop key rest (seen ++ [(line, e)]) (Hash e) (Seq e) (count + 1)
                end
          end
  end.

Definition scanAuditFile (file : option bytes) (key : bytes) : scan_out :=
  match file with
  | None => mkScan [] "" 0 0 None
  | Some b => scan_loop key (tokens b) [] "" 0 0
  end.

Definition verifyAuditFile (file : option bytes) (key : bytes) : scan_out := scanAuditFile file key.

(** ** Repair *)

(** The loop over the complete lines; the offset after the last good one. *)
Fixpoint repair_loop (key : bytes) (ls : list bytes) (prev : string) (seq : Z) (lastGoodEnd : nat)
    : result audit_err nat :=
  match ls with
  | [] => Ok lastGoodEnd
  | line :: rest =>
      let end_ := (lastGoodEnd + length line + 1)%nat in
      if (length line =? 0)%nat then repair_loop key rest prev seq end_
      else
        match Unmarshal line with
        | None => Err TamperedRecord
        | Some e =>
            if negb (bool_decide (Prev e = prev)) || negb (Seq e =? wrap_i64 (seq + 1))
            then Err TamperedChain
            else
              match auditMAC key e with
              | None => Err Encoding
              | Some want =>
                  if negb (bool_decide (Hash e = want)) then Err TamperedMAC
                  else repair_loop key rest (Hash e) (Seq e) end_
              end
        end
  end.

(** A torn last line is cut off; [trunc] is whether [os.Truncate] succeeds. *)
Definition repairTornTail (trunc : bool) (file : option bytes) (key : bytes)
    : result audit_err (option bytes) :=
  match file with
  | None => Ok None
  | Some data =>
      let '(ls, tail) := split_nl data in
      let? lastGoodEnd := repair_loop key ls "" 0 0 in
      if (length tail =? 0)%nat then Ok (Some data)
      else if trunc then Ok (Some (take lastGoodEnd data)) else Err TruncateFailed
  end.

(** ** Opening *)

(** [rnd] are the 32 bytes of [rand.Read]. *)
Definition loadOrCreateAuditKey (wr : bool) (rnd : bytes) (w : world) : result audit_err (bytes * world) :=
  match key_file w with
  | Some s =>
      match hex_decode s with
      | Some k => if (length k =? 32)%nat then Ok (take 32 k, w) else Err KeyMalformed
      | None => Err KeyMalformed
      end
  | None =>
      if wr then Ok (rnd, mkWorld (log_file w) (chk_file w) (Some (hex_encode rnd)) (mirror w))
      else Err KeyWrite
  end.

Definition loadCheckpoint (hasPath : bool) (w : world) : result audit_err (option checkpoint) :=
  if negb hasPath then Ok None
  else match chk_file w with
       | None => Ok None
       | Some b => match UnmarshalChk b with None => Err CheckpointMalformed | Some c => Ok (Some c) end
       end.

(** The temporary file and the rename: the old checkpoint or the new one. *)
Definition writeCheckpoint (wr : bool) (w : world) (c : checkpoint) : bool * world :=
  match MarshalChk c with
  | None => (false, w)
  | Some b => if wr then (true, mkWorld (log_file w) (Some b) (key_file w) (mirror w)) else (false, w)
  end.

Definition saveCheckpoint (wr : bool) (w : world) (a : Audit) : bool * world :=
  if negb (has_chk a) then (true, w)
  else writeCheckpoint wr w (mkCheckpoint (seq a) (last a) (count a)).

Definition crosscheck (chk : option checkpoint) (lastHash : string) (lastSeq : Z) : option audit_err :=
  match chk with
  | None => None
  | Some c =>
      if lastSeq <? c_Seq c then Some Truncated
      else if (c_Seq c =? lastSeq) && negb (bool_decide (c_Hash c = lastHash)) then Some CheckpointHash
      else None
  end.

Definition set_log (w : world) (b : option bytes) : world :=
  mkWorld b (chk_file w) (key_file w) (mirror w).

(** A failure leaves the files as they are at that point. *)
Definition OpenAudit (io : open_io) (hasPath : bool) (rnd : bytes) (w : world)
    : result audit_err Audit * world :=
  match loadOrCreateAuditKey (oi_key io) rnd w with
  | Err e => (Err e, w)
  | Ok (k, w1) =>
      match repairTornTail (oi_truncate io) (log_file w1) k with
      | Err e => (Err e, w1)
      | Ok b =>
          let w2 := set_log w1 b in
          let sc := verifyAuditFile b k in
          match s_err sc with
          | Some e => (Err e, w2)
          | None =>
              match loadCheckpoint hasPath w2 with
              | Err e => (Err e, w2)
              | Ok chk =>
                  match crosscheck chk (s_prev sc) (s_seq sc) with
                  | Some e => (Err e, w2)
                  | None =>
                      if negb (oi_open io) then (Err OpenFailed, w2)
                      else
                        let w3 := set_log w2 (Some (default [] b)) in
                        let a := mkAudit hasPath k (s_prev sc) (s_seq sc) (s_count sc) time_zero 0 None in
                        (Ok a, (saveCheckpoint (oi_chk io) w3 a).2)
                  end
              end
          end
      end
  end.

(** ** Appending *)

(** What the caller passes, and the record it becomes. *)
Record request := mkRequest {
  q_ws : string; q_typ : string; q_actor : string; q_node : string; q_session : string;
  q_detail : gmap string string }.

Definition new_event (a : Audit) (now : Z) (q : request) : AuditEvent :=
  mkEvent (wrap_i64 (seq a + 1)) (Unix now) (q_ws q) (q_typ q) (q_actor q) (q_node q) (q_session q)
    (q_detail q) (last a) "".

Definition write_log (w : world) (b : bytes) : world := set_log w (Some (default [] (log_file w) ++ b)).

Definition AppendWS (io : append_io) (now : Z) (q : request) (w : world) (a : Audit)
    : option audit_err * world * Audit :=
  let a1 := mkAudit (has_chk a) (key a) (last a) (seq a) (count a) time_zero
              (verifiedCount a) (verifiedErr a) in
  let e := new_event a now q in
  match auditMAC (key a) e with
  | None => (Some Encoding, w, a1)
  | Some h =>
      match Marshal (with_hash e h) with
      | None => (Some Encoding, w, a1)
      | Some line =>
          match io_write io with
          | Some n => (Some WriteFailed, write_log w (take n (line ++ [x0a])), a1)
          | None =>
              let w1 := write_log w (line ++ [x0a]) in
              if negb (io_sync io) then (Some SyncFailed, w1, a1)
              else
                let a2 := mkAudit (has_chk a) (key a) h (Seq e) (count a + 1) time_zero
                            (verifiedCount a) (verifiedErr a) in
                let '(ok, w2) := saveCheckpoint (io_chk io) w1 a2 in
                if negb ok then (Some CheckpointFailed, w2, a2)
                else (None,
                      if io_sink io
                      then mkWorld (log_file w2) (chk_file w2) (key_file w2) (mirror w2 ++ [line]) else w2,
                      a2)
          end
      end
  end.

(** [Append] is the cluster-scoped event. *)
Definition Append (io : append_io) (now : Z) (typ actor node session : string)
    (detail : gmap string string) (w : world) (a : Audit) : option audit_err * world * Audit :=
  AppendWS io now (mkRequest "" typ actor node session detail) w a.

(** ** Verifying *)

Definition verifyLocked (w : world) (a : Audit) : Z * option audit_err :=
  let sc := verifyAuditFile (log_file w) (key a) in
  match s_err sc with
  | Some e => (s_count sc, Some e)
  | None =>
      match loadCheckpoint (has_chk a) w with
      | Ok (Some c) => (s_count sc, if s_seq sc <? c_Seq c then Some Truncated else None)
      | _ => (s_count sc, None)
      end
  end.

Definition Verify (w : world) (a : Audit) : Z * option audit_err := verifyLocked w a.

Definition verifyCacheTTL : Z := 30 * second.

Definition VerifyCached (now : Z) (w : world) (a : Audit) : Z * option audit_err * Audit :=
  if negb (IsZero (verifiedAt a)) && (now - verifiedAt a <? verifyCacheTTL)
  then (verifiedCount a, verifiedErr a, a)
  else
    let '(n, err) := verifyLocked w a in
    (n, err, mkAudit (has_chk a) (key a) (last a) (seq a) (count a) now n err).

Definition VerifyAuditFile (wr : bool) (rnd : bytes) (w : world) : Z * option audit_err :=
  match loadOrCreateAuditKey wr rnd w with
  | Err e => (0, Some e)
  | Ok (k, w1) => let sc := verifyAuditFile (log_file w1) k in (s_count sc, s_err sc)
  end.

(** ** Queries *)

Record AuditQuery := mkQuery {
  SinceUnix : Z; UntilUnix : Z; q_Type : string; q_Workspace : string; q_Actor : string;
  q_Node : string; Limit : Z; Offset : Z }.

Record AuditPage := mkPage { Lines : list bytes; Total : Z; ChainOK : bool }.

(** [strings.EqualFold]. *)
Variable EqualFold : string → string → bool.

Definition query_matches (q : AuditQuery) (e : AuditEvent) : bool :=
  if (0 <? SinceUnix q) && (TS e <? SinceUnix q) then false
  else if (0 <? UntilUnix q) && (UntilUnix q <? TS e) then false
  else if bool_decide (q_Type q ≠ "") && bool_decide (Type_ e ≠ q_Type q) then false
  else if bool_decide (q_Workspace q ≠ "") && bool_decide (Workspace e ≠ q_Workspace q) then false
  else if bool_decide (q_Actor q ≠ "") && negb (EqualFold (Actor e) (q_Actor q)) then false
  else if bool_decide (q_Node q ≠ "") && bool_decide (Node e ≠ q_Node q) then false
  else true.

Definition matched_lines (q : AuditQuery) (seen : list (bytes * AuditEvent)) : list bytes :=
  fst <$> filter (λ le, query_matches q le.2 = true) seen.

(** The callers pass an offset that is not negative ([Page.normalize]); [None] is a
    slice past the end. *)
Definition QueryPage (w : world) (a : Audit) (q : AuditQuery) : option AuditPage :=
  let limit := if Limit q <=? 0 then 100 else Limit q in
  let sc := scanAuditFile (log_file w) (key a) in
  let matched := matched_lines q (s_seen sc) in
  let total := Z.of_nat (length matched) in
  let end0 := total - Offset q in
  let end_ := if end0 <? 0 then 0 else end0 in
  let start0 := end_ - limit in
  let start := if start0 <? 0 then 0 else start0 in
  if total <? end_ then None
  else Some (mkPage (drop (Z.to_nat start) (take (Z.to_nat end_) matched)) total
               (bool_decide (s_err sc = None))).

Definition Query (w : world) (a : Audit) (sinceUnix : Z) (typeFilter workspace : string) (limit : Z)
    : option (list bytes * bool) :=
  match QueryPage w a (mkQuery sinceUnix 0 typeFilter workspace "" "" limit 0) with
  | Some p => Some (Lines p, ChainOK p)
  | None => None
  end.

End Chain.

(** ** What the log relies on *)

Definition is_i64 (z : Z) : bool := (- 2 ^ 63 <=? z) && (z <? 2 ^ 63).

(** Records the encoder represents without loss: text is UTF-8. *)
Definition encodable (e : AuditEvent) : bool :=
  is_i64 (Seq e) && is_i64 (TS e) && ValidString (Workspace e) && ValidString (Type_ e)
  && ValidString (Actor e) && ValidString (Node e) && ValidString (Session e)
  && forallb (λ kv, ValidString kv.1 && ValidString kv.2) (map_to_list (Detail e))
  && ValidString (Prev e) && ValidString (Hash e).

Definition chk_encodable (c : checkpoint) : bool :=
  is_i64 (c_Seq c) && is_i64 (c_Count c) && ValidString (c_Hash c).

(** [encoding/json]: an object in braces without raw newlines, lossless on records
    whose text is UTF-8; a decoded record has such text. *)
Class AuditJSONLaws (J : AuditJSON) := {
  marshal_text : ∀ e b, Marshal e = Some b → ∃ m, b = x7b :: m ++ [x7d] ∧ x0a ∉ m;
  marshal_unmarshal : ∀ e b, encodable e = true → Marshal e = Some b → Unmarshal b = Some e;
  unmarshal_encodable : ∀ b e, Unmarshal b = Some e → encodable e = true;
  chk_roundtrip : ∀ c b, chk_encodable c = true → MarshalChk c = Some b → UnmarshalChk b = Some c }.

(** ** The chain, abstractly *)

(** Lines and the records they encode. *)
Definition records := list (bytes * AuditEvent).

Definition render (h : records) : bytes := concat ((λ le, le.1 ++ [x0a]) <$> h).
Definition last_hash (prev : string) (h : records) : string := foldl (λ _ le, Hash le.2) prev h.
Definition last_seq (seq : Z) (h : records) : Z := foldl (λ _ le, Seq le.2) seq h.

Definition no_nl (b : bytes) : Prop := x0a ∉ b.

Section Lemmas.
Context {HM : Hmac} {J : AuditJSON} {JL : AuditJSONLaws J}.

Fixpoint chain (key : bytes) (prev : string) (seq : Z) (h : records) : Prop :=
  match h with
  | [] => True
  | (l, e) :: r =>
      Marshal e = Some l ∧ encodable e = true ∧ Z.of_nat (length l) < max_token ∧
      Prev e = prev ∧ Seq e = wrap_i64 (seq + 1) ∧ auditMAC key e = Some (Hash e) ∧
      chain key (Hash e) (Seq e) r
  end.

Lemma chain_app (key : bytes) (h1 h2 : records) (prev : string) (seq : Z) :
  chain key prev seq (h1 ++ h2) ↔
  chain key prev seq h1 ∧ chain key (last_hash prev h1) (last_seq seq h1) h2.
Proof.
  revert prev seq. induction h1 as [|[l e] h1 IH]; intros prev seq; simpl; [tauto|].
  rewrite IH. tauto.
Qed.

Lemma chain_take (key : bytes) (h : records) (j : nat) (prev : string) (seq : Z) :
  chain key prev seq h → chain key prev seq (take j h).
Proof. rewrite <- (take_drop j h) at 1. rewrite chain_app. tauto. Qed.

Lemma last_hash_app (prev : string) (h1 h2 : records) :
  last_hash prev (h1 ++ h2) = last_hash (last_hash prev h1) h2.
Proof. apply foldl_app. Qed.

Lemma last_seq_app (seq : Z) (h1 h2 : records) :
  last_seq seq (h1 ++ h2) = last_seq (last_seq seq h1) h2.
Proof. apply foldl_app. Qed.

Lemma render_app (h1 h2 : records) : render (h1 ++ h2) = render h1 ++ render h2.
Proof. unfold render. by rewrite fmap_app, concat_app. Qed.

(** Below the range of int64 the sequence number is the number of records. *)
Lemma chain_seq (key : bytes) (h : records) (prev : string) (seq : Z) :
  chain key prev seq h → 0 ≤ seq → seq + Z.of_nat (length h) < 2 ^ 63 →
  last_seq seq h = seq + Z.of_nat (length h).
Proof.
  revert prev seq. induction h as [|[l e] h IH]; intros prev seq; simpl; [lia|].
  intros (_ & _ & _ & _ & Hs & _ & Hc) H0 Hb. rewrite wrap_i64_small in Hs by lia.
  rewrite (IH _ _ Hc); lia.
Qed.

Lemma chain_lookup_seq (key : bytes) (h : records) (prev : string) (seq : Z) (i : nat) (le : bytes * AuditEvent) :
  chain key prev seq h → 0 ≤ seq → seq + Z.of_nat (length h) < 2 ^ 63 →
  h !! i = Some le → Seq le.2 = seq + Z.of_nat i + 1.
Proof.
  revert prev seq i. induction h as [|[l e] h IH]; intros prev seq [|i]; simpl; try done;
    intros (_ & _ & _ & _ & Hs & _ & Hc) H0 Hb Hi; rewrite wrap_i64_small in Hs by lia.
  - simplify_eq/=. lia.
  - rewrite (IH _ _ i Hc) by (done || lia). lia.
Qed.

Lemma chain_lookup (key : bytes) (h : records) (prev : string) (seq : Z) (i : nat) (l : bytes) (e : AuditEvent) :
  chain key prev seq h → h !! i = Some (l, e) → encodable e = true ∧ auditMAC key e = Some (Hash e).
Proof.
  revert prev seq i. induction h as [|[l' e'] h IH]; intros prev seq [|i]; simpl; try done;
    intros (_ & ? & _ & _ & _ & ? & Hc) Hi; [by simplify_eq|by eapply IH].
Qed.

Lemma drop_cr_snoc (l : bytes) (c : byte) : c ≠ x0d → drop_cr (l ++ [c]) = l ++ [c].
Proof.
  intros Hc. induction l as [|x l IH]; cbn [app]; [cbn; by rewrite bool_decide_eq_false_2|].
  destruct (l ++ [c]) as [|y r] eqn:E; [by destruct l|].
  change (x :: drop_cr (y :: r) = x :: y :: r). by rewrite IH.
Qed.

(** The shape of an encoded line. *)
Lemma line_shape (e : AuditEvent) (l : bytes) :
  Marshal e = Some l → no_nl l ∧ drop_cr l = l ∧ (length l =? 0)%nat = false.
Proof.
  intros (m & -> & Hm)%marshal_text. split_and!; [|by apply (drop_cr_snoc (x7b :: m))|done].
  unfold no_nl. rewrite elem_of_cons, elem_of_app, list_elem_of_singleton. intuition congruence.
Qed.

Lemma split_nl_line (l rest : bytes) :
  no_nl l → split_nl (l ++ x0a :: rest) = (l :: (split_nl rest).1, (split_nl rest).2).
Proof.
  unfold no_nl. induction l as [|c l IH]; intros Hl; simpl.
  - destruct (split_nl rest). done.
  - apply not_elem_of_cons in Hl as [Hc Hl]. rewrite IH by done.
    by rewrite bool_decide_eq_false_2.
Qed.

Lemma split_nl_tail (t : bytes) : no_nl t → split_nl t = ([], t).
Proof.
  unfold no_nl. induction t as [|c t IH]; intros Ht; simpl; [done|].
  apply not_elem_of_cons in Ht as [Hc Ht]. rewrite IH by done. by rewrite bool_decide_eq_false_2.
Qed.

Lemma split_nl_render (key : bytes) (h : records) (prev : string) (seq : Z) (t : bytes) :
  chain key prev seq h → no_nl t → split_nl (render h ++ t) = (fst <$> h, t).
Proof.
  revert prev seq. induction h as [|[l e] h IH]; intros prev seq.
  { intros _ Ht. by apply split_nl_tail. }
  simpl. intros (Hm & _ & _ & _ & _ & _ & Hc) Ht. apply line_shape in Hm as (Hnl & _).
  change (render ((l, e) :: h)) with ((l ++ [x0a]) ++ render h).
  rewrite <- !app_assoc. simpl. rewrite split_nl_line by done. by rewrite (IH _ _ Hc Ht).
Qed.

Lemma scan_loop_chain (key : bytes) (h seen : records) (prev : string) (seq c : Z) :
  chain key prev seq h →
  scan_loop key (fst <$> h) seen prev seq c
  = mkScan (seen ++ h) (last_hash prev h) (last_seq seq h) (c + Z.of_nat (length h)) None.
Proof.
  revert seen prev seq c. induction h as [|[l e] h IH]; intros seen prev seq c.
  { intros _. simpl. by rewrite app_nil_r, Z.add_0_r. }
  intros (Hm & Henc & Hlen & Hp & Hs & Hmac & Hc). cbn [fmap list_fmap fst scan_loop].
  pose proof (line_shape _ _ Hm) as (_ & Hcr & Hne). rewrite Hcr, Hne.
  rewrite (proj2 (Z.leb_gt _ _)) by lia. rewrite (marshal_unmarshal e l) by done.
  rewrite (bool_decide_eq_true_2 _ Hp), Hs, Z.eqb_refl, <- Hs, Hmac. cbn [negb].
  rewrite bool_decide_eq_true_2 by done. cbn [negb]. rewrite (IH _ _ _ _ Hc), <- app_assoc.
  cbn [app last_hash last_seq foldl length snd]. f_equal. lia.
Qed.

Lemma repair_loop_chain (key : bytes) (h : records) (prev : string) (seq : Z) (n : nat) :
  chain key prev seq h →
  repair_loop key (fst <$> h) prev seq n = Ok (n + length (render h))%nat.
Proof.
  revert prev seq n. induction h as [|[l e] h IH]; intros prev seq n.
  { intros _. simpl. f_equal. lia. }
  intros (Hm & Henc & Hlen & Hp & Hs & Hmac & Hc). cbn [fmap list_fmap fst repair_loop].
  pose proof (line_shape _ _ Hm) as (_ & _ & Hne). rewrite Hne, (marshal_unmarshal e l) by done.
  rewrite (bool_decide_eq_true_2 _ Hp), Hs, Z.eqb_refl, <- Hs, Hmac. cbn [negb orb].
  rewrite bool_decide_eq_true_2 by done. cbn [negb]. rewrite (IH _ _ _ Hc). f_equal.
  change (render ((l, e) :: h)) with ((l ++ [x0a]) ++ render h). rewrite !length_app. simpl. lia.
Qed.

Lemma scan_render (key : bytes) (h : records) :
  chain key "" 0 h →
  scanAuditFile (Some (render h)) key
  = mkScan h (last_hash "" h) (last_seq 0 h) (Z.of_nat (length h)) None.
Proof.
  intros Hc. unfold scanAuditFile, tokens.
  pose proof (split_nl_render key h "" 0 [] Hc) as Hs. rewrite app_nil_r in Hs.
  rewrite Hs by apply not_elem_of_nil. cbn [length Nat.eqb]. rewrite app_nil_r.
  by rewrite (scan_loop_chain _ _ _ _ _ _ Hc).
Qed.

Lemma repair_render (key : bytes) (h : records) (t : bytes) :
  chain key "" 0 h → no_nl t →
  repairTornTail true (Some (render h ++ t)) key = Ok (Some (render h)).
Proof.
  intros Hc Ht. unfold repairTornTail. rewrite (split_nl_render key h "" 0 t Hc Ht).
  rewrite (repair_loop_chain _ _ _ _ _ Hc). cbn [rbind]. destruct t as [|x t].
  - by rewrite app_nil_r.
  - cbn [length Nat.eqb Nat.add]. by rewrite take_app_length.
Qed.

(** *** Opening a log that holds a chain *)

(** The checkpoint, if there is one, is the one of some prefix of the records. *)
Definition chk_ok (w : world) (h : records) : Prop :=
  ∀ b, chk_file w = Some b → ∃ c j, UnmarshalChk b = Some c ∧ (j ≤ length h)%nat ∧
    c_Seq c = Z.of_nat j ∧ c_Hash c = last_hash "" (take j h).

(** The log file: complete records, then what a crash left of one. *)
Definition log_ok (k : bytes) (w : world) (h : records) (t : bytes) : Prop :=
  chain k "" 0 h ∧ Z.of_nat (length h) < 2 ^ 63 ∧ no_nl t ∧ chk_ok w h ∧
  (log_file w = Some (render h ++ t) ∨ log_file w = None ∧ h = [] ∧ t = []).

(** The open log agrees with its records. *)
Definition agrees (hasPath : bool) (k : bytes) (h : records) (a : Audit) : Prop :=
  has_chk a = hasPath ∧ key a = k ∧ last a = last_hash "" h ∧
  seq a = Z.of_nat (length h) ∧ count a = Z.of_nat (length h).

Lemma ValidString_last_hash (k : bytes) (h : records) (prev : string) (seq : Z) :
  chain k prev seq h → ValidString prev = true → ValidString (last_hash prev h) = true.
Proof.
  revert prev seq. induction h as [|[l e] h IH]; intros prev seq; simpl; [done|].
  intros (_ & He & _ & _ & _ & _ & Hc) _. apply (IH _ _ Hc).
  unfold encodable in He. by apply andb_true_iff in He as [_ ?].
Qed.

Lemma saveCheckpoint_ok (wr : bool) (w : world) (k : bytes) (h : records) (a : Audit) (hasPath : bool) :
  chain k "" 0 h → Z.of_nat (length h) < 2 ^ 63 → chk_ok w h → agrees hasPath k h a →
  chk_ok (saveCheckpoint wr w a).2 h ∧ log_file (saveCheckpoint wr w a).2 = log_file w ∧
  key_file (saveCheckpoint wr w a).2 = key_file w.
Proof.
  intros Hc Hlen Hw (_ & _ & Hlast & Hseq & Hcount). unfold saveCheckpoint.
  destruct (has_chk a); [|done]. cbn [negb]. unfold writeCheckpoint.
  destruct (MarshalChk _) as [b|] eqn:Eb; [|done]. destruct wr; [|done]. split_and!; [|done..].
  intros b' Hb'. cbn in Hb'. simplify_eq. eexists _, (length h). split.
  - apply (chk_roundtrip _ _) in Eb; [done|]. unfold chk_encodable, is_i64. cbn.
    rewrite Hlast, (ValidString_last_hash k h "" 0) by done. rewrite !andb_true_iff, !Z.leb_le, !Z.ltb_lt. lia.
  - split; [done|]. cbn. rewrite take_ge by done. auto.
Qed.

Lemma crosscheck_ok (k : bytes) (w : world) (h : records) (hasPath : bool) :
  chain k "" 0 h → Z.of_nat (length h) < 2 ^ 63 → chk_ok w h →
  ∃ chk, loadCheckpoint hasPath w = Ok chk ∧
         crosscheck chk (last_hash "" h) (Z.of_nat (length h)) = None.
Proof.
  intros Hc Hlen Hw. unfold loadCheckpoint. destruct hasPath; [|by exists None]. cbn [negb].
  destruct (chk_file w) as [b|] eqn:Eb; [|by exists None].
  destruct (Hw b Eb) as (c & j & -> & Hj & Hs & Hh). exists (Some c). split; [done|].
  unfold crosscheck. rewrite Hs. destruct (Z.ltb_spec (Z.of_nat (length h)) (Z.of_nat j)); [lia|].
  destruct (Z.eqb_spec (Z.of_nat j) (Z.of_nat (length h))); [|done].
  rewrite Hh, take_ge by lia. by rewrite bool_decide_eq_true_2.
Qed.

(** The repair keeps the complete records and drops what a crash left. *)
Lemma repair_ok (k : bytes) (w : world) (h : records) (t : bytes) (trunc : bool) :
  log_ok k w h t →
  match repairTornTail trunc (log_file w) k with
  | Ok b => default [] b = render h ∧ (b = None → h = []) ∧
      scanAuditFile b k = mkScan h (last_hash "" h) (Z.of_nat (length h)) (Z.of_nat (length h)) None
  | Err _ => trunc = false
  end.
Proof.
  intros (Hc & Hlen & Ht & _ & [Hf|(Hf & -> & ->)]); rewrite Hf; [|done].
  assert (scanAuditFile (Some (render h)) k
          = mkScan h (last_hash "" h) (Z.of_nat (length h)) (Z.of_nat (length h)) None) as Hsc.
  { rewrite scan_render by done. by rewrite (chain_seq k h "" 0) by (done || lia). }
  unfold repairTornTail. rewrite (split_nl_render k h "" 0 t Hc Ht).
  rewrite (repair_loop_chain _ _ _ _ _ Hc). cbn [rbind]. destruct t as [|x t].
  - by rewrite app_nil_r.
  - cbn [length Nat.eqb Nat.add]. rewrite take_app_length. by destruct trunc.
Qed.

Lemma log_ok_set_log (k : bytes) (w : world) (h : records) (t : bytes) (b : option bytes) :
  log_ok k w h t → default [] b = render h → (b = None → h = []) → log_ok k (set_log w b) h [].
Proof.
  intros (Hc & Hlen & _ & Hchk & _) Hb Hn. split_and!; auto; [by apply not_elem_of_nil|].
  rewrite app_nil_r. destruct b; [left; by rewrite <- Hb|right; auto].
Qed.

(** Opening recovers exactly the complete records; it fails only if the operating
    system does, and then leaves a log that opens. *)
Lemma open_spec (io : open_io) (hasPath : bool) (rnd k : bytes) (w w1 : world) (h : records) (t : bytes) :
  loadOrCreateAuditKey (oi_key io) rnd w = Ok (k, w1) → log_ok k w1 h t →
  let '(r, w') := OpenAudit io hasPath rnd w in
  key_file w' = key_file w1 ∧
  match r with
  | Ok a => agrees hasPath k h a ∧ log_ok k w' h [] ∧ log_file w' = Some (render h)
  | Err _ => (∃ t', log_ok k w' h t') ∧ (oi_truncate io = false ∨ oi_open io = false)
  end.
Proof.
  intros Hk Hlog. unfold OpenAudit. rewrite Hk. pose proof Hlog as (Hc & Hlen & _ & Hchk & _).
  pose proof (repair_ok k w1 h t (oi_truncate io) Hlog) as Hr.
  destruct (repairTornTail (oi_truncate io) (log_file w1) k) as [b|]; [|eauto].
  destruct Hr as (Hb & Hn & Hsc). unfold verifyAuditFile. rewrite Hsc. cbn [s_err s_prev s_seq s_count].
  destruct (crosscheck_ok k (set_log w1 b) h hasPath) as (chk & -> & ->); [done..|].
  destruct (oi_open io); cbn [negb]; [|split; [done|]; split; [exists []; by eapply log_ok_set_log|auto]].
  set (a := mkAudit hasPath k (last_hash "" h) _ _ time_zero 0 None).
  destruct (saveCheckpoint_ok (oi_chk io) (set_log (set_log w1 b) (Some (default [] b))) k h a hasPath)
    as (H1 & H2 & H3); [done..|].
  rewrite Hb in *. rewrite H2, H3. split; [done|]. split_and!; try done.
  split_and!; [done..|by apply not_elem_of_nil|done|left; by rewrite H2, app_nil_r].
Qed.

(** *** Appending to it *)

(** Requests the log can read back: UTF-8 text, and the line it writes within the
    scanner's buffer. *)
Definition recordable (a : Audit) (now : Z) (q : request) : Prop :=
  encodable (new_event a now q) = true ∧ seq a < 2 ^ 63 - 2 ∧
  ∀ hsh line, auditMAC (key a) (new_event a now q) = Some hsh →
    Marshal (with_hash (new_event a now q) hsh) = Some line → Z.of_nat (length line) < max_token.

Lemma encodable_with_hash (e : AuditEvent) (hsh : string) :
  encodable e = true → ValidString hsh = true → encodable (with_hash e hsh) = true.
Proof. unfold encodable. intros [He _]%andb_true_iff Hh. cbn. by rewrite He, Hh. Qed.

Lemma auditMAC_with_hash (k : bytes) (e : AuditEvent) (hsh : string) :
  auditMAC k (with_hash e hsh) = auditMAC k e.
Proof. done. Qed.

Lemma chk_ok_snoc (w w' : world) (h : records) (le : bytes * AuditEvent) :
  chk_ok w h → chk_file w' = chk_file w → chk_ok w' (h ++ [le]).
Proof.
  intros Hw E b Hb. rewrite E in Hb. destruct (Hw b Hb) as (c & j & Hc & Hj & Hs & Hh).
  exists c, j. rewrite length_app. split_and!; [done|lia|done|]. by rewrite take_app_le by lia.
Qed.

(** The chain extended by the record an append makes. *)
Lemma chain_snoc (hasPath : bool) (k : bytes) (h : records) (a : Audit) (now : Z) (q : request)
    (hsh : string) (line : bytes) :
  chain k "" 0 h → agrees hasPath k h a → recordable a now q →
  auditMAC (key a) (new_event a now q) = Some hsh →
  Marshal (with_hash (new_event a now q) hsh) = Some line →
  let h' := h ++ [(line, with_hash (new_event a now q) hsh)] in
  chain k "" 0 h' ∧ Z.of_nat (length h') < 2 ^ 63 - 1 ∧ last_hash "" h' = hsh ∧
  Seq (new_event a now q) = Z.of_nat (length h').
Proof.
  intros Hc (_ & Hk & Hlast & Hseq & _) (Henc & Hb & Hlen) Hm Hl. cbv zeta.
  assert (Seq (new_event a now q) = Z.of_nat (length h) + 1) as Hs.
  { cbn. rewrite Hseq, wrap_i64_small; lia. }
  rewrite length_app, last_hash_app, chain_app. cbn [length]. split_and!; try done; try lia.
  cbn [chain]. rewrite (chain_seq k h "" 0 Hc) by lia.
  split_and!; auto; try (by eapply Hlen).
  - apply encodable_with_hash; [done|]. unfold auditMAC in Hm.
    destruct (Marshal (with_hash (new_event a now q) "")); simplify_eq. apply ValidString_hex.
  - change (Seq (new_event a now q) = wrap_i64 (Z.of_nat (length h) + 1)). rewrite wrap_i64_small; lia.
  - rewrite auditMAC_with_hash, <- Hk. done.
Qed.

(** What one append can leave behind, whatever the operating system answers. *)
Lemma append_spec (io : append_io) (hasPath : bool) (k : bytes) (h : records) (w : world) (a : Audit)
    (now : Z) (q : request) :
  log_ok k w h [] → log_file w = Some (render h) → agrees hasPath k h a → recordable a now q →
  let '(err, w', a') := AppendWS io now q w a in
  ∃ h' t, log_ok k w' h' t ∧ log_file w' = Some (render h' ++ t) ∧ key_file w' = key_file w ∧
    (h' = h ∧ err ≠ None ∨
     ∃ line hsh, h' = h ++ [(line, with_hash (new_event a now q) hsh)]) ∧
    (io_write io = None → io_sync io = true →
       t = [] ∧ agrees hasPath k h' a' ∧ (err = None → last a' = last_hash "" h')).
Proof.
  intros Hlog Hf Hag Hrec. pose proof Hlog as (Hc & Hlen & _ & Hchk & _). unfold AppendWS.
  assert (∀ a', agrees hasPath k h a' → ∀ err : option audit_err, err ≠ None →
    ∃ h' t, log_ok k w h' t ∧ log_file w = Some (render h' ++ t) ∧ key_file w = key_file w ∧
    (h' = h ∧ err ≠ None ∨ ∃ line hsh, h' = h ++ [(line, with_hash (new_event a now q) hsh)]) ∧
    (io_write io = None → io_sync io = true →
       t = [] ∧ agrees hasPath k h' a' ∧ (err = None → last a' = last_hash "" h'))) as Hnop.
  { intros a' Ha' err Herr. exists h, []. rewrite app_nil_r. split_and!; auto. by intros. }
  destruct (auditMAC (key a) (new_event a now q)) as [hsh|] eqn:Em; [|by apply Hnop].
  destruct (Marshal (with_hash (new_event a now q) hsh)) as [line|] eqn:El; [|by apply Hnop].
  pose proof (chain_snoc hasPath k h a now q hsh line Hc Hag Hrec Em El) as (Hc' & Hlen' & Hlh & Hs).
  set (h' := h ++ [(line, with_hash (new_event a now q) hsh)]) in *.
  assert (render h' = render h ++ line ++ [x0a]) as Hr.
  { unfold h'. rewrite render_app. cbn. by rewrite app_nil_r. }
  assert (Z.of_nat (length h') < 2 ^ 63) as Hlen2 by lia.
  assert (∀ w', log_file w' = Some (render h') → chk_ok w' h' → log_ok k w' h' []) as Hok'.
  { intros w' Hw' Hc2. split_and!; [done..|by apply not_elem_of_nil|done|left; by rewrite app_nil_r]. }
  assert (chk_ok (write_log w (line ++ [x0a])) h') as Hchk' by (by eapply chk_ok_snoc).
  assert (log_file (write_log w (line ++ [x0a])) = Some (render h')) as Hf'.
  { cbn. by rewrite Hf, Hr. }
  destruct (io_write io) as [n|].
  - destruct (decide (n ≤ length line)%nat) as [Hn|Hn].
    + exists h, (take n line). cbn [write_log set_log log_file key_file]. rewrite take_app_le by done.
      rewrite Hf. cbn [default]. split_and!; [|done|done|by left|done].
      split_and!; [done..| |done|left; first [done|cbn; by rewrite Hf]].
      apply line_shape in El as (Hnl & _). intros Hin. apply Hnl.
      rewrite <- (take_drop n line). apply elem_of_app. by left.
    + rewrite take_ge by (rewrite length_app; simpl; lia).
      exists h', []. rewrite app_nil_r, Hlh. split_and!; auto; [right; by exists line, hsh|done].
  - destruct (io_sync io); cbn [negb].
    2:{ exists h', []. rewrite app_nil_r, Hlh. split_and!; auto; [right; by exists line, hsh|done]. }
    set (a2 := mkAudit (has_chk a) (key a) hsh _ _ time_zero _ _).
    assert (agrees hasPath k h' a2) as Ha2.
    { destruct Hag as (? & ? & ? & ? & Hcnt). split_and!; cbn; auto.
      unfold h'. rewrite length_app, Hcnt. simpl. lia. }
    pose proof (saveCheckpoint_ok (io_chk io) _ k h' a2 hasPath Hc' Hlen2 Hchk' Ha2) as (S1 & S2 & S3).
    destruct (saveCheckpoint (io_chk io) (write_log w (line ++ [x0a])) a2) as [ok w2].
    cbn [snd] in *. rewrite Hf' in S2.
    destruct ok; cbn [negb]; [destruct (io_sink io)|];
      (exists h', []; rewrite app_nil_r, Hlh; split_and!; auto; right; by exists line, hsh).
Qed.

(** *** The log over restarts and crashes *)

(** The files, the process if it runs, and the records whose append returned. *)
Record sys := mkSys { sw : world; proc : option Audit; acked : list AuditEvent }.

(** A process that goes on after an append saw the write and the sync succeed; one
    that did not may have crashed anywhere in it. *)
Inductive astep (hasPath : bool) : sys → sys → Prop :=
| st_open io rnd w r w' k : length rnd = 32%nat → OpenAudit io hasPath rnd w = (r, w') →
    astep hasPath (mkSys w None k)
      (mkSys w' (match r with Ok a => Some a | Err _ => None end) k)
| st_append io now q w a err w' a' k : recordable a now q → io_write io = None → io_sync io = true →
    AppendWS io now q w a = (err, w', a') →
    astep hasPath (mkSys w (Some a) k)
      (mkSys w' (Some a')
         (if bool_decide (err = None) then k ++ [with_hash (new_event a now q) (last a')] else k))
| st_crash_append io now q w a err w' a' k : recordable a now q → AppendWS io now q w a = (err, w', a') →
    astep hasPath (mkSys w (Some a) k) (mkSys w' None k)
| st_stop w a k : astep hasPath (mkSys w (Some a) k) (mkSys w None k).

Definition sys0 : sys := mkSys (mkWorld None None None []) None [].

Definition sys_ok (hasPath : bool) (s : sys) : Prop :=
  (key_file (sw s) = None ∧ log_file (sw s) = None ∧ chk_file (sw s) = None ∧ proc s = None ∧ acked s = []) ∨
  ∃ k h t, length k = 32%nat ∧ key_file (sw s) = Some (hex_encode k) ∧ log_ok k (sw s) h t ∧
    sublist (acked s) (snd <$> h) ∧
    ∀ a, proc s = Some a → t = [] ∧ log_file (sw s) = Some (render h) ∧ agrees hasPath k h a.

Lemma load_key (wr : bool) (rnd k : bytes) (w : world) :
  key_file w = Some (hex_encode k) → length k = 32%nat → loadOrCreateAuditKey wr rnd w = Ok (k, w).
Proof.
  intros Hk Hl. unfold loadOrCreateAuditKey. rewrite Hk, hex_decode_encode, Hl. cbn [Nat.eqb].
  by rewrite take_ge by lia.
Qed.

(** The key an open in a good state works with, and the log it finds. *)
Lemma open_key (hasPath wr : bool) (rnd : bytes) (s : sys) :
  sys_ok hasPath s → proc s = None → length rnd = 32%nat →
  loadOrCreateAuditKey wr rnd (sw s) = Err KeyWrite ∧ wr = false ∨
  ∃ k w1 h t, loadOrCreateAuditKey wr rnd (sw s) = Ok (k, w1) ∧ length k = 32%nat ∧
    key_file w1 = Some (hex_encode k) ∧ log_ok k w1 h t ∧ sublist (acked s) (snd <$> h).
Proof.
  intros [(Hk & Hl & Hc & _ & Ha)|(k & h & t & Hlen & Hk & Hlog & Hsub & _)] Hp Hr.
  - unfold loadOrCreateAuditKey. rewrite Hk. destruct wr; [right|by left].
    eexists rnd, _, [], []. split; [done|]. rewrite Ha, Hl, Hc. split_and!; try done.
    split_and!; [done|done|by apply not_elem_of_nil|done|by right].
  - right. exists k, (sw s), h, t. by rewrite (load_key wr rnd k).
Qed.

Lemma step_open_ok (hasPath : bool) (io : open_io) (rnd : bytes) (w : world) (k : list AuditEvent) :
  sys_ok hasPath (mkSys w None k) → length rnd = 32%nat →
  let '(r, w') := OpenAudit io hasPath rnd w in
  sys_ok hasPath (mkSys w' (match r with Ok a => Some a | Err _ => None end) k).
Proof.
  intros Hok Hr. destruct (open_key hasPath (oi_key io) rnd _ Hok eq_refl Hr)
    as [[He _]|(ky & w1 & h & t & Hk & Hlen & Hkf & Hlog & Hsub)]; cbn [sw acked] in *.
  { unfold OpenAudit. by rewrite He. }
  pose proof (open_spec io hasPath rnd ky w w1 h t Hk Hlog) as Ho.
  destruct (OpenAudit io hasPath rnd w) as [[a|e] w']; destruct Ho as (Hkf' & Ho); right.
  - destruct Ho as (Ha & Hl & Hf). exists ky, h, []. cbn [sw acked proc].
    split_and!; try done; [congruence|]. by intros a' [= <-].
  - destruct Ho as ((t' & Hl) & _). exists ky, h, t'. cbn [sw acked proc]. split_and!; try done; congruence.
Qed.

Lemma step_append_ok (hasPath : bool) (io : append_io) (now : Z) (q : request) (w : world) (a : Audit)
    (k : list AuditEvent) :
  sys_ok hasPath (mkSys w (Some a) k) → recordable a now q →
  let '(err, w', a') := AppendWS io now q w a in
  sys_ok hasPath (mkSys w' None k) ∧
  (io_write io = None → io_sync io = true →
   sys_ok hasPath (mkSys w' (Some a')
     (if bool_decide (err = None) then k ++ [with_hash (new_event a now q) (last a')] else k))).
Proof.
  intros [(_ & _ & _ & ? & _)|(ky & h & t & Hlen & Hkf & Hlog & Hsub & Hp)] Hrec; [done|].
  cbn [sw acked proc] in *. destruct (Hp a eq_refl) as (-> & Hf & Hag).
  pose proof (append_spec io hasPath ky h w a now q Hlog Hf Hag Hrec) as Hs.
  destruct (AppendWS io now q w a) as [[err w'] a'].
  destruct Hs as (h' & t & Hl' & Hf' & Hk' & Hh & Hrun).
  assert (sublist k (snd <$> h')) as Hsub'.
  { destruct Hh as [[-> _]|(line & hsh & ->)]; [done|]. rewrite fmap_app. by apply sublist_inserts_r. }
  split.
  - right. exists ky, h', t. cbn [sw acked proc]. split_and!; try done. congruence.
  - intros Hw Hsy. destruct (Hrun Hw Hsy) as (-> & Ha' & Hlast). rewrite app_nil_r in Hf'.
    right. exists ky, h', []. cbn [sw acked proc]. split_and!; try done; [congruence| |by intros ? [= <-]].
    case_bool_decide as Herr; [|done]. rewrite (Hlast Herr).
    destruct Hh as [[_ ?]|(line & hsh & ->)]; [done|]. rewrite last_hash_app, fmap_app. cbn.
    by apply sublist_app.
Qed.

Lemma reachable_ok (hasPath : bool) (s : sys) : rtc (astep hasPath) sys0 s → sys_ok hasPath s.
Proof.
  intros Hr. assert (sys_ok hasPath sys0) as H0 by (by left).
  induction Hr as [|s1 s2 s3 Hs Hr IH]; [done|]. apply IH. clear IH Hr.
  destruct Hs as [io rnd w r w' k Hlen Ho|io now q w a err w' a' k Hrec Hw Hsy Ha|
                  io now q w a err w' a' k Hrec Ha|w a k].
  - pose proof (step_open_ok hasPath io rnd w k H0 Hlen) as Hs. by rewrite Ho in Hs.
  - pose proof (step_append_ok hasPath io now q w a k H0 Hrec) as Hs. rewrite Ha in Hs. by apply Hs.
  - pose proof (step_append_ok hasPath io now q w a k H0 Hrec) as Hs. rewrite Ha in Hs. by apply Hs.
  - destruct H0 as [(_ & _ & _ & ? & _)|(ky & h & t & ? & ? & ? & ? & _)]; [done|].
    right. exists ky, h, t. by split_and!.
Qed.

(** *** Logs an adversary wrote *)

(** What the scanner checked of the records it let through. *)
Fixpoint linked (key : bytes) (prev : string) (seq : Z) (h : records) : Prop :=
  match h with
  | [] => True
  | (l, e) :: r =>
      Unmarshal l = Some e ∧ Prev e = prev ∧ Seq e = wrap_i64 (seq + 1) ∧
      auditMAC key e = Some (Hash e) ∧ linked key (Hash e) (Seq e) r
  end.

Lemma scan_loop_sound (key : bytes) (toks : list bytes) (seen : records) (prev : string) (seq c : Z) :
  ∃ h, s_seen (scan_loop key toks seen prev seq c) = seen ++ h ∧ linked key prev seq h ∧
    s_seq (scan_loop key toks seen prev seq c) = last_seq seq h.
Proof.
  revert seen prev seq c. induction toks as [|tok toks IH]; intros seen prev seq c.
  { exists []. cbn. by rewrite app_nil_r. }
  assert (∃ h, seen = seen ++ h ∧ linked key prev seq h ∧ seq = last_seq seq h) as Hstop
    by (exists []; by rewrite app_nil_r).
  cbn [scan_loop]. destruct (max_token <=? _); [done|]. destruct (length (drop_cr tok) =? 0)%nat; [apply IH|].
  destruct (Unmarshal (drop_cr tok)) as [e|] eqn:Eu; [|done].
  case_bool_decide as Hp; cbn [negb]; [|done].
  destruct (Z.eqb_spec (Seq e) (wrap_i64 (seq + 1))) as [Hs|]; cbn [negb]; [|done].
  destruct (auditMAC key e) as [want|] eqn:Em; [|done].
  case_bool_decide as Hh; cbn [negb]; [|done]. subst want.
  destruct (IH (seen ++ [(drop_cr tok, e)]) (Hash e) (Seq e) (c + 1)) as (h & -> & Hl & ->).
  exists ((drop_cr tok, e) :: h). rewrite <- app_assoc. by split_and!.
Qed.

Lemma linked_elem (k : bytes) (h : records) (prev : string) (seq : Z) (l : bytes) (e : AuditEvent) :
  linked k prev seq h → (l, e) ∈ h → Unmarshal l = Some e.
Proof.
  revert prev seq. induction h as [|[l' e'] h IH]; intros prev seq; cbn; [by intros _ ?%not_elem_of_nil|].
  intros (Hu & _ & _ & _ & Hl) [?|?]%elem_of_cons; [by simplify_eq|by eapply IH].
Qed.

(** The record a cleared encoding stands for. *)
Lemma issued_eq (k : bytes) (e e0 : AuditEvent) (l : bytes) :
  Unmarshal l = Some e → encodable e0 = true →
  auditMAC k e = Some (Hash e) → auditMAC k e0 = Some (Hash e0) →
  Marshal (with_hash e "") = Marshal (with_hash e0 "") → e = e0.
Proof.
  intros He He0 Hm Hm0 E. unfold auditMAC in Hm, Hm0. rewrite E in Hm.
  destruct (Marshal (with_hash e0 "")) as [b|] eqn:Eb; [|done].
  assert (Hash e = Hash e0) as Hh by congruence.
  apply unmarshal_encodable in He.
  assert (Unmarshal b = Some (with_hash e "")) as H1 by (apply marshal_unmarshal; [by apply encodable_with_hash|done]).
  assert (Unmarshal b = Some (with_hash e0 "")) as H2 by (apply marshal_unmarshal; [by apply encodable_with_hash|done]).
  rewrite H1 in H2. destruct e, e0. cbn in *. by simplify_eq.
Qed.

(** Records that link to an honest log and were all issued by it continue it. *)
Lemma linked_prefix (k : bytes) (h1 h2 r : records) :
  chain k "" 0 (h1 ++ h2) → Z.of_nat (length (h1 ++ h2)) < 2 ^ 63 - 1 →
  linked k (last_hash "" h1) (Z.of_nat (length h1)) r →
  (∀ le, le ∈ r → ∃ le0, le0 ∈ h1 ++ h2 ∧ Marshal (with_hash le.2 "") = Marshal (with_hash le0.2 "")) →
  (snd <$> r) `prefix_of` (snd <$> h2) ∧ last_seq (Z.of_nat (length h1)) r = Z.of_nat (length h1 + length r).
Proof.
  revert h1 h2. induction r as [|[l e] r IH]; intros h1 h2 Hc Hlen Hl Hiss.
  { split; [apply prefix_nil|]. cbn. lia. }
  destruct Hl as (Hu & Hp & Hs & Hm & Hl).
  destruct (Hiss (l, e) ltac:(by left)) as ([l0 e0] & Hin & E). cbn [snd] in E.
  apply list_elem_of_lookup_1 in Hin as (i & Hi).
  assert (encodable e0 = true ∧ auditMAC k e0 = Some (Hash e0)) as [He0 Hm0] by (by eapply chain_lookup).
  assert (e = e0) as -> by (by eapply issued_eq).
  pose proof (chain_lookup_seq k _ "" 0 i _ Hc ltac:(lia) ltac:(lia) Hi) as Hsi. cbn [snd] in Hsi.
  rewrite length_app in Hlen. rewrite Hs, wrap_i64_small in Hsi by lia.
  assert (i = length h1) as -> by lia. rewrite lookup_app_r, Nat.sub_diag in Hi by lia.
  destruct h2 as [|le2 h2]; [done|]. cbn in Hi. simplify_eq.
  assert (Seq e0 = Z.of_nat (length (h1 ++ [(l0, e0)]))) as Hse
    by (rewrite Hs, wrap_i64_small, length_app by lia; simpl; lia).
  destruct (IH (h1 ++ [(l0, e0)]) h2) as [Hpre Hls].
  - by rewrite <- app_assoc.
  - rewrite !length_app in *. simpl in *. lia.
  - rewrite last_hash_app. rewrite <- Hse. done.
  - intros le Hle. rewrite <- app_assoc. apply Hiss. by right.
  - split; [cbn; by apply prefix_cons|]. cbn [last_seq foldl snd]. rewrite Hse. unfold last_seq in Hls.
    rewrite Hls, length_app. simpl. lia.
Qed.

(** Cutting a log anywhere leaves some of its records and part of one. *)
Lemma take_render (k : bytes) (h : records) (prev : string) (seq : Z) (n : nat) :
  chain k prev seq h → (n < length (render h))%nat →
  ∃ j t, (j < length h)%nat ∧ no_nl t ∧ take n (render h) = render (take j h) ++ t.
Proof.
  revert prev seq n. induction h as [|[l e] h IH]; intros prev seq n Hc Hn; [simpl in Hn; lia|].
  destruct Hc as (Hm & _ & _ & _ & _ & _ & Hc). apply line_shape in Hm as (Hnl & _).
  change (render ((l, e) :: h)) with ((l ++ [x0a]) ++ render h) in *.
  destruct (decide (n ≤ length l)%nat) as [Hl|Hl].
  - exists 0%nat, (take n l). rewrite <- app_assoc, take_app_le by done. split_and!; [simpl; lia| |done].
    intros Hin. apply Hnl. rewrite <- (take_drop n l). apply elem_of_app. by left.
  - rewrite length_app in Hn. assert (length (l ++ [x0a]) = S (length l)) as El by (rewrite length_app; simpl; lia).
    destruct (IH _ _ (n - S (length l))%nat Hc) as (j & t & Hj & Ht & E); [lia|].
    exists (S j), t. split_and!; [simpl; lia|done|]. rewrite take_app_ge, El, E by lia.
    cbn [take]. change (render ((l, e) :: take j h)) with ((l ++ [x0a]) ++ render (take j h)).
    by rewrite <- !app_assoc.
Qed.

(** After an acknowledged append the checkpoint is that of the whole log. *)
Lemma acknowledged (s : sys) (a a' : Audit) (io : append_io) (now : Z) (q : request) (w' : world) :
  rtc (astep true) sys0 s → proc s = Some a → recordable a now q →
  AppendWS io now q (sw s) a = (None, w', a') →
  ∃ h b, chain (key a') "" 0 h ∧ Z.of_nat (length h) < 2 ^ 63 - 1 ∧ (0 < length h)%nat ∧
    length (key a') = 32%nat ∧ key_file w' = Some (hex_encode (key a')) ∧
    log_file w' = Some (render h) ∧ chk_file w' = Some b ∧
    UnmarshalChk b = Some (mkCheckpoint (Z.of_nat (length h)) (last_hash "" h) (Z.of_nat (length h))).
Proof.
  intros Hr Hp Hrec HA. apply reachable_ok in Hr as [(_ & _ & _ & Hn & _)|(k & h & t & Hk & Hkf & Hlog & _ & Ha)];
    [congruence|]. destruct (Ha a Hp) as (-> & Hf & Hag). pose proof Hlog as (Hc & _).
  unfold AppendWS in HA. destruct (auditMAC (key a) (new_event a now q)) as [hsh|] eqn:Em; [|done].
  destruct (Marshal (with_hash (new_event a now q) hsh)) as [line|] eqn:El; [|done].
  destruct (io_write io); [done|]. destruct (io_sync io); cbn [negb] in HA; [|done].
  pose proof (chain_snoc true k h a now q hsh line Hc Hag Hrec Em El) as (Hc' & Hlen' & Hlh & Hs).
  set (h' := h ++ [(line, with_hash (new_event a now q) hsh)]) in *. cbv zeta in HA.
  destruct Hag as (Hp1 & Hkk & _ & _ & Hcnt). unfold saveCheckpoint in HA. cbn [has_chk] in HA.
  rewrite Hp1 in HA. cbn [negb] in HA. unfold writeCheckpoint in HA.
  destruct (MarshalChk _) as [b|] eqn:Eb; [|done]. destruct (io_chk io); [|done]. cbn [negb] in HA.
  exists h', b. assert (length h' = S (length h)) as Hl1 by (unfold h'; rewrite length_app; simpl; lia).
  assert (count a + 1 = Z.of_nat (length h')) as Hcnt' by lia.
  rewrite Hs, Hcnt' in Eb. cbn [last seq count] in Eb. apply chk_roundtrip in Eb.
  2:{ unfold chk_encodable, is_i64. cbn. rewrite <- Hlh, (ValidString_last_hash k h' "" 0) by done.
      rewrite !andb_true_iff, !Z.leb_le, !Z.ltb_lt. lia. }
  assert (render h' = render h ++ line ++ [x0a]) as Hren by (unfold h'; rewrite render_app; cbn; by rewrite app_nil_r).
  rewrite Hlh, Hren. destruct (io_sink io); simplify_eq; cbn; rewrite Hf; split_and!; auto; lia.
Qed.

End Lemmas.

(** *** Pages *)

Lemma matched_workspace (EqualFold : string → string → bool) (q : AuditQuery) (seen : records) (l : bytes) :
  q_Workspace q ≠ "" → l ∈ matched_lines EqualFold q seen →
  ∃ e, (l, e) ∈ seen ∧ Workspace e = q_Workspace q.
Proof.
  intros Hq Hl. unfold matched_lines in Hl. apply list_elem_of_fmap in Hl as ([l' e] & -> & Hin).
  apply list_elem_of_filter in Hin as [Hm Hin]. exists e. split; [done|].
  unfold query_matches in Hm. cbn [snd] in Hm. rewrite (bool_decide_eq_true_2 _ Hq) in Hm.
  repeat case_match; try done.
  match goal with H : true && bool_decide _ = false |- _ => apply bool_decide_eq_false_1, dec_stable in H end.
  done.
Qed.

(** The lines of the page at an offset. *)
Definition page_at `{Hmac, AuditJSON} (EqualFold : string → string → bool) (w : world) (a : Audit)
    (q : AuditQuery) (off : Z) : list bytes :=
  match QueryPage EqualFold w a
          (mkQuery (SinceUnix q) (UntilUnix q) (q_Type q) (q_Workspace q) (q_Actor q) (q_Node q) (Limit q) off) with
  | Some p => Lines p
  | None => []
  end.

Lemma page_at_lines `{Hmac, AuditJSON} (EqualFold : string → string → bool) (w : world) (a : Audit)
    (q : AuditQuery) (off : Z) :
  0 < Limit q → 0 ≤ off →
  let m := matched_lines EqualFold q (s_seen (scanAuditFile (log_file w) (key a))) in
  page_at EqualFold w a q off
  = drop (length m - Z.to_nat off - Z.to_nat (Limit q)) (take (length m - Z.to_nat off) m).
Proof.
  intros Hlim Hoff m. unfold page_at, QueryPage. cbn [Limit Offset].
  change (matched_lines EqualFold (mkQuery (SinceUnix q) (UntilUnix q) (q_Type q) (q_Workspace q) (q_Actor q)
    (q_Node q) (Limit q) off)) with (matched_lines EqualFold q). fold m.
  rewrite (proj2 (Z.leb_gt (Limit q) 0)) by lia.
  destruct (Z.ltb_spec (Z.of_nat (length m) - off) 0).
  - rewrite (proj2 (Z.ltb_lt (0 - Limit q) 0)), (proj2 (Z.ltb_ge _ 0)) by lia. cbn [Lines].
    f_equal; [lia|]. f_equal. lia.
  - rewrite (proj2 (Z.ltb_ge (Z.of_nat (length m)) _)) by lia.
    destruct (Z.ltb_spec (Z.of_nat (length m) - off - Limit q) 0); cbn [Lines];
      (f_equal; [lia|]; f_equal; lia).
Qed.

(** ** A codec that satisfies the laws *)

Module AuditFixture.

#[export] Instance hmac : Hmac := λ k m, take 32 (reverse m ++ k).

Definition q0 : request := mkRequest "acme" "login" "ana" "" "" ∅.
Definition now0 : Z := 7 * second.
Definition rnd : bytes := replicate 32 x5a.

(** A record as a number: that of the list of its fields' numbers. *)
Definition event_fields (e : AuditEvent) : list positive :=
  [encode (Seq e); encode (TS e); encode (Workspace e); encode (Type_ e); encode (Actor e); encode (Node e);
   encode (Session e); encode (Detail e); encode (Prev e); encode (Hash e)].

Definition of_event_fields (l : list positive) : option AuditEvent :=
  match l with
  | [a; b; c; d; e; f; g; h; i; j] =>
      a ← decode a; b ← decode b; c ← decode c; d ← decode d; e ← decode e; f ← decode f;
      g ← decode g; h ← decode h; i ← decode i; j ← decode j; Some (mkEvent a b c d e f g h i j)
  | _ => None
  end.

#[export] Instance event_countable : Countable AuditEvent.
Proof.
  refine (inj_countable event_fields of_event_fields _). intros []. cbn [of_event_fields event_fields mbind option_bind].
  by rewrite !decode_encode.
Defined.

#[export] Instance checkpoint_eq_decision : EqDecision checkpoint.
Proof. solve_decision. Defined.

#[export] Instance checkpoint_countable : Countable checkpoint.
Proof.
  refine (inj_countable' (λ c, (c_Seq c, c_Hash c, c_Count c)) (λ t, mkCheckpoint t.1.1 t.1.2 t.2) _). by intros [].
Defined.

(** A number in binary digits. *)
Fixpoint digits (p : positive) : bytes :=
  match p with xH => [] | xO p => x30 :: digits p | xI p => x31 :: digits p end.

Fixpoint of_digits (b : bytes) : option positive :=
  match b with
  | [] => Some xH
  | x30 :: b => xO <$> of_digits b
  | x31 :: b => xI <$> of_digits b
  | _ => None
  end.

Lemma of_digits_digits (p : positive) : of_digits (digits p) = Some p.
Proof. induction p as [p IH|p IH|]; cbn; by rewrite ?IH. Qed.

Lemma digits_no_nl (p : positive) : x0a ∉ digits p.
Proof. induction p; cbn; rewrite ?elem_of_cons; [by intros [|]..|by apply not_elem_of_nil]. Qed.

(** In braces. *)
Definition braced (p : positive) : bytes := x7b :: digits p ++ [x7d].

Definition of_braced (b : bytes) : option positive :=
  match b with
  | x7b :: r => match list.last r with Some x7d => of_digits (removelast r) | _ => None end
  | _ => None
  end.

Lemma of_braced_braced (p : positive) : of_braced (braced p) = Some p.
Proof. unfold of_braced, braced. rewrite last_snoc, removelast_last. apply of_digits_digits. Qed.

#[export] Instance json : AuditJSON := {
  Marshal e := Some (braced (encode e));
  Unmarshal b :=
    match p ← of_braced b; decode p with
    | Some e => if encodable e then Some e else None
    | None => None
    end;
  MarshalChk c := Some (braced (encode c)); UnmarshalChk b := p ← of_braced b; decode p }.

#[export] Instance json_laws : AuditJSONLaws json.
Proof.
  split.
  - intros e b [= <-]. exists (digits (encode e)). split; [done|apply digits_no_nl].
  - intros e b He [= <-]. cbn [Unmarshal json]. rewrite of_braced_braced. cbn [mbind option_bind]. by rewrite decode_encode, He.
  - intros b e. cbn [Unmarshal json]. destruct (_ ← of_braced b; _) as [e'|]; [|done]. destruct (encodable e') eqn:E; [|done].
    by intros [= <-].
  - intros c b _ [= <-]. cbn [UnmarshalChk json]. rewrite of_braced_braced. apply decode_encode.
Qed.

(** The first record of a log. *)
Definition e1 : AuditEvent := mkEvent 1 7 "acme" "login" "ana" "" "" ∅ "" "".
Definition h1 : string := Eval vm_compute in default "" (auditMAC rnd e1).
Definition line1 : bytes := Eval vm_compute in default [] (Marshal (with_hash e1 h1)).
Definition chk0 : bytes := Eval vm_compute in default [] (MarshalChk (mkCheckpoint 0 "" 0)).
Definition chk1 : bytes := Eval vm_compute in default [] (MarshalChk (mkCheckpoint 1 h1 1)).

Definition all_ok : open_io := mkOpenIO true true true true.
Definition io_ok : append_io := mkAppendIO None true true true.
(** A fresh log and the state after one acknowledged append. *)
Definition a0 : Audit := mkAudit true rnd "" 0 0 time_zero 0 None.
Definition w0 : world := mkWorld (Some []) (Some chk0) (Some (hex_encode rnd)) [].
Definition a1 : Audit := mkAudit true rnd h1 1 1 time_zero 0 None.
Definition w1 : world := mkWorld (Some (line1 ++ [x0a])) (Some chk1) (Some (hex_encode rnd)) [line1].

Lemma open0 : OpenAudit all_ok true rnd (sw sys0) = (Ok a0, w0).
Proof. vm_compute. reflexivity. Qed.

Lemma append1 : AppendWS io_ok now0 q0 w0 a0 = (None, w1, a1).
Proof. vm_compute. reflexivity. Qed.

Lemma recordable0 : recordable a0 now0 q0.
Proof.
  split; [vm_compute; reflexivity|]. split; [vm_compute; reflexivity|].
  intros hsh line Hh Hl. assert (hsh = h1) as -> by (vm_compute in Hh; by injection Hh as <-).
  assert (line = line1) as -> by (vm_compute in Hl; by injection Hl as <-). vm_compute. reflexivity.
Qed.

Lemma reach0 : rtc (astep true) sys0 (mkSys w0 (Some a0) []).
Proof. eapply rtc_l; [|apply rtc_refl]. apply (st_open true all_ok rnd _ (Ok a0) w0 []); [done|apply open0]. Qed.

End AuditFixture.

(** ** Theorems *)

Section Theorems.
Context {HM : Hmac} {J : AuditJSON} {JL : AuditJSONLaws J}.

Lemma verify_ok (hasPath : bool) (k : bytes) (h : records) (w : world) (a : Audit) :
  log_ok k w h [] → log_file w = Some (render h) → agrees hasPath k h a →
  verifyLocked w a = (Z.of_nat (length h), None).
Proof.
  intros (Hc & Hlen & _ & Hchk & _) Hf (Hp & Hk & _). unfold verifyLocked, verifyAuditFile.
  rewrite Hk, Hf, scan_render, (chain_seq k h "" 0) by (done || lia). cbn [s_err s_count s_seq].
  unfold loadCheckpoint. destruct (has_chk a); [|done]. cbn [negb].
  destruct (chk_file w) as [b|] eqn:Eb; [|done]. destruct (Hchk b Eb) as (c & j & -> & Hj & Hs & _).
  by rewrite (proj2 (Z.ltb_ge _ _)) by lia.
Qed.

(** C31 (audit.go): crash consistency of the audit log.  However many times the
    controller appended an event (of UTF-8 text, whose line fits the reader's buffer),
    crashed inside an append (with any part of the line on disk and the checkpoint
    written or not) and reopened, the log opens, verifies, and holds every acknowledged
    record, in order. *)
Theorem crash_consistency (hasPath : bool) (s : sys) (io : open_io) (rnd : bytes) :
  rtc (astep hasPath) sys0 s → proc s = None → length rnd = 32%nat →
  oi_key io = true → oi_truncate io = true → oi_open io = true →
  ∃ a w', OpenAudit io hasPath rnd (sw s) = (Ok a, w') ∧
    let sc := scanAuditFile (log_file w') (key a) in
    s_err sc = None ∧ sublist (acked s) (snd <$> s_seen sc) ∧
    last a = s_prev sc ∧ seq a = s_seq sc ∧ verifyLocked w' a = (s_count sc, None).
Proof.
  intros Hr Hp Hrnd Hk Htr Hop. apply reachable_ok in Hr.
  destruct (open_key hasPath (oi_key io) rnd s Hr Hp Hrnd) as [[_ ?]|(k & w1 & h & t & Hl & _ & _ & Hlog & Hsub)];
    [congruence|].
  pose proof (open_spec io hasPath rnd k (sw s) w1 h t Hl Hlog) as Ho.
  destruct (OpenAudit io hasPath rnd (sw s)) as [[a|e] w']; destruct Ho as (_ & Ho);
    [|destruct Ho as (_ & [?|?]); congruence].
  destruct Ho as (Ha & Hlog' & Hf). exists a, w'. split; [done|]. cbv zeta.
  rewrite (verify_ok hasPath k h w' a) by done. destruct Ha as (_ & Hka & Hla & Hsa & _).
  destruct Hlog' as (Hc & Hlen & _). rewrite Hf, Hka, scan_render, (chain_seq k h "" 0) by (done || lia).
  by split_and!.
Qed.

(** [audit.go, OpenAudit] Truncation is detected.  After an acknowledged append,
    a log file cut short at any byte, or removed, does not open any more: the
    checkpoint remembers the records that are gone. *)
Theorem truncation_detected (s : sys) (a a' : Audit) (io : append_io) (now : Z) (q : request)
    (w' : world) (file : bytes) (n : nat) (oio : open_io) (rnd : bytes) :
  rtc (astep true) sys0 s → proc s = Some a → recordable a now q →
  AppendWS io now q (sw s) a = (None, w', a') →
  log_file w' = Some file → (n < length file)%nat → oi_truncate oio = true →
  (OpenAudit oio true rnd (set_log w' (Some (take n file)))).1 = Err Truncated ∧
  (OpenAudit oio true rnd (set_log w' None)).1 = Err Truncated.
Proof.
  intros Hr Hp Hrec HA Hf Hn Htr.
  destruct (acknowledged s a a' io now q w' Hr Hp Hrec HA) as (h & b & Hc & Hlen & Hpos & Hk & Hkf & Hlf & Hcf & Hcu).
  rewrite Hlf in Hf. simplify_eq.
  assert (∀ f j t, (j < length h)%nat → log_ok (key a') (mkWorld f None None []) (take j h) t →
    (OpenAudit oio true rnd (set_log w' f)).1 = Err Truncated) as Hcut.
  { intros f j t Hj Hlog. unfold OpenAudit. rewrite (load_key _ _ (key a')) by done. cbn [set_log log_file].
    pose proof (repair_ok _ _ _ _ (oi_truncate oio) Hlog) as Hrep. cbn [log_file] in Hrep.
    destruct (repairTornTail (oi_truncate oio) f (key a')) as [g|]; [|congruence].
    destruct Hrep as (_ & _ & Hsc). unfold verifyAuditFile. rewrite Hsc. cbn [s_err s_prev s_seq].
    unfold loadCheckpoint. cbn [negb chk_file set_log]. rewrite Hcf, Hcu. unfold crosscheck. cbn [c_Seq].
    rewrite length_take, (proj2 (Z.ltb_lt _ _)) by lia. done. }
  split.
  - destruct (take_render _ h "" 0 n Hc Hn) as (j & t & Hj & Ht & E). apply (Hcut _ j t); [done|].
    rewrite E. split_and!; [by apply chain_take|rewrite length_take; lia|done|done|by left].
  - apply (Hcut None 0%nat []); [done|]. split_and!; [done|done|by apply not_elem_of_nil|done|by right].
Qed.

(** [audit.go, scanAuditFile and OpenAudit] An accepted log is the log that was
    written.  Replace the log file after an acknowledged append by any bytes at all:
    if it opens, and every tag in it is over a record the controller tagged (the
    attacker does not have the key), then it holds exactly the records the
    controller wrote, all of them, in their order. *)
Theorem accepted_is_written (s : sys) (a a' a2 : Audit) (io : append_io) (now : Z) (q : request)
    (w' w2 : world) (forged : bytes) (oio : open_io) (rnd : bytes) :
  rtc (astep true) sys0 s → proc s = Some a → recordable a now q →
  AppendWS io now q (sw s) a = (None, w', a') →
  OpenAudit oio true rnd (set_log w' (Some forged)) = (Ok a2, w2) →
  let written := s_seen (scanAuditFile (log_file w') (key a')) in
  let accepted := s_seen (scanAuditFile (log_file w2) (key a2)) in
  (∀ le, le ∈ accepted → ∃ le0, le0 ∈ written ∧
     Marshal (with_hash le.2 "") = Marshal (with_hash le0.2 "")) →
  snd <$> accepted = snd <$> written.
Proof.
  intros Hr Hp Hrec HA HO written accepted Hiss.
  destruct (acknowledged s a a' io now q w' Hr Hp Hrec HA) as (h & b & Hc & Hlen & Hpos & Hk & Hkf & Hlf & Hcf & Hcu).
  assert (written = h) as Hw by (unfold written; by rewrite Hlf, scan_render).
  unfold OpenAudit in HO. rewrite (load_key _ _ (key a')) in HO by done. cbn [set_log log_file] in HO.
  destruct (repairTornTail (oi_truncate oio) (Some forged) (key a')) as [g|] eqn:Eg; [|done].
  assert (∃ f, g = Some f) as [f ->].
  { unfold repairTornTail in Eg. destruct (split_nl forged). destruct (repair_loop _ _ _ _ _); [|done].
    cbn in Eg. repeat case_match; simplify_eq; eauto. }
  unfold verifyAuditFile in HO. destruct (s_err (scanAuditFile (Some f) (key a'))) eqn:Es; [done|].
  unfold loadCheckpoint in HO. cbn [negb chk_file set_log] in HO. rewrite Hcf, Hcu in HO.
  unfold crosscheck in HO. cbn [c_Seq] in HO.
  destruct (Z.ltb_spec (s_seq (scanAuditFile (Some f) (key a'))) (Z.of_nat (length h))) as [|Hge]; [done|].
  destruct (_ && _); [done|]. destruct (negb (oi_open oio)); [done|].
  assert (accepted = s_seen (scanAuditFile (Some f) (key a'))) as Hacc.
  { unfold accepted. simplify_eq. cbn [key]. f_equal. f_equal. unfold saveCheckpoint, writeCheckpoint.
    repeat case_match; done. }
  destruct (scan_loop_sound (key a') (tokens f) [] "" 0 0) as (r & Hr1 & Hlk & Hr2).
  change (scan_loop (key a') (tokens f) [] "" 0 0) with (scanAuditFile (Some f) (key a')) in *.
  cbn [app] in Hr1. rewrite <- Hacc in Hr1. rewrite Hr1, Hw in *.
  destruct (linked_prefix (key a') [] h r) as [Hpre Hls]; [done..|].
  cbn [length Nat.add] in Hls. change (Z.of_nat 0) with 0 in Hls.
  apply prefix_length_eq; [done|]. rewrite !length_fmap. lia.
Qed.

End Theorems.

(** [audit.go, QueryPage] What a query returns.  With a workspace set, every
    line returned is a verified record of that workspace; and the pages at offsets
    0, limit, 2*limit, ..., put together from the last one back, are exactly the most
    recent matches, each once: enough pages give all of them. *)
Theorem query_pages `{Hmac, AuditJSON} (EqualFold : string → string → bool) (w : world) (a : Audit)
    (q : AuditQuery) (n : nat) :
  0 < Limit q →
  let m := matched_lines EqualFold q (s_seen (scanAuditFile (log_file w) (key a))) in
  concat (reverse ((λ i, page_at EqualFold w a q (Z.of_nat i * Limit q)) <$> List.seq 0 n))
    = drop (length m - n * Z.to_nat (Limit q)) m ∧
  (q_Workspace q ≠ "" → ∀ off l, 0 ≤ off → l ∈ page_at EqualFold w a q off →
     ∃ e, Unmarshal l = Some e ∧ Workspace e = q_Workspace q).
Proof.
  intros Hlim m. split.
  - induction n as [|n IH]; [cbn; by rewrite Nat.sub_0_r, drop_all|].
    rewrite seq_S, fmap_app, reverse_app, concat_app, IH. cbn [fmap list_fmap Nat.add].
    cbn [reverse rev_append concat]. unfold reverse. cbn [rev_append concat]. rewrite app_nil_r.
    rewrite page_at_lines by lia. fold m. rewrite Z2Nat.inj_mul, Nat2Z.id, Nat.mul_succ_l by lia.
    rewrite drop_take_drop by lia. f_equal. lia.
  - intros Hq off l Hoff Hl. rewrite page_at_lines in Hl by done. fold m in Hl.
    apply subseteq_drop, subseteq_take in Hl.
    destruct (matched_workspace EqualFold q _ l Hq Hl) as (e & Hin & He). exists e. split; [|done].
    destruct (log_file w) as [f|]; [|by apply not_elem_of_nil in Hin].
    destruct (scan_loop_sound (key a) (tokens f) [] "" 0 0) as (r & Hr & Hlk & _).
    unfold scanAuditFile in Hin. rewrite Hr in Hin. by eapply linked_elem.
Qed.

#[local] Existing Instance AuditFixture.hmac.
#[local] Existing Instance AuditFixture.json.
#[local] Existing Instance AuditFixture.json_laws.

(** [audit.go, AppendWS] A failed sync breaks the chain.  When the sync of a
    record fails, the record is in the file but the process keeps its old hash and
    sequence number; the next append is acknowledged with the same number, and from
    then on the log neither verifies nor opens. *)
Theorem failed_sync_breaks_chain :
  let '(err1, w1, b1) := AppendWS (mkAppendIO None false true true)
        AuditFixture.now0 AuditFixture.q0 AuditFixture.w0 AuditFixture.a0 in
  let '(err2, w2, b2) := AppendWS AuditFixture.io_ok
        AuditFixture.now0 AuditFixture.q0 w1 b1 in
  err1 = Some SyncFailed ∧ err2 = None ∧
  verifyLocked w2 b2 = (1, Some ChainBreak) ∧
  (OpenAudit AuditFixture.all_ok true AuditFixture.rnd w2).1 = Err TamperedChain.
Proof. vm_compute. split_and!; reflexivity. Qed.

(** ** Witnesses *)

Lemma crash_consistency_witness :
  ∃ a w', OpenAudit AuditFixture.all_ok true AuditFixture.rnd
            (set_log AuditFixture.w0 (Some (take 2 AuditFixture.line1))) = (Ok a, w') ∧
    let sc := scanAuditFile (log_file w') (key a) in
    s_err sc = None ∧ sublist [] (snd <$> s_seen sc) ∧
    last a = s_prev sc ∧ seq a = s_seq sc ∧ verifyLocked w' a = (s_count sc, None).
Proof.
  apply (crash_consistency true (mkSys (set_log AuditFixture.w0 (Some (take 2 AuditFixture.line1))) None []));
    [|reflexivity..].
  eapply rtc_r; [exact AuditFixture.reach0|].
  eapply (st_crash_append true (mkAppendIO (Some 2%nat) true true true) AuditFixture.now0 AuditFixture.q0
            _ _ (Some WriteFailed)); [exact AuditFixture.recordable0|vm_compute; reflexivity].
Defined.

Lemma truncation_detected_witness :
  (OpenAudit AuditFixture.all_ok true AuditFixture.rnd
     (set_log AuditFixture.w1 (Some (take 3 (AuditFixture.line1 ++ [x0a]))))).1 = Err Truncated ∧
  (OpenAudit AuditFixture.all_ok true AuditFixture.rnd (set_log AuditFixture.w1 None)).1 = Err Truncated.
Proof.
  apply (truncation_detected (mkSys AuditFixture.w0 (Some AuditFixture.a0) []) AuditFixture.a0 AuditFixture.a1
           AuditFixture.io_ok AuditFixture.now0 AuditFixture.q0 AuditFixture.w1 (AuditFixture.line1 ++ [x0a]) 3);
    [exact AuditFixture.reach0|reflexivity|exact AuditFixture.recordable0|exact AuditFixture.append1
    |reflexivity|cbn; lia|reflexivity].
Defined.

(** The same file with an empty line added still opens, with the same record. *)
Lemma accepted_is_written_witness :
  snd <$> s_seen (scanAuditFile (Some (AuditFixture.line1 ++ [x0a; x0a])) AuditFixture.rnd)
  = snd <$> s_seen (scanAuditFile (log_file AuditFixture.w1) AuditFixture.rnd).
Proof.
  apply (accepted_is_written (mkSys AuditFixture.w0 (Some AuditFixture.a0) []) AuditFixture.a0 AuditFixture.a1
           AuditFixture.a1 AuditFixture.io_ok AuditFixture.now0 AuditFixture.q0 AuditFixture.w1
           (set_log AuditFixture.w1 (Some (AuditFixture.line1 ++ [x0a; x0a])))
           (AuditFixture.line1 ++ [x0a; x0a]) AuditFixture.all_ok AuditFixture.rnd);
    [exact AuditFixture.reach0|reflexivity|exact AuditFixture.recordable0|exact AuditFixture.append1
    |vm_compute; reflexivity|].
  intros le Hle. exists le. split; [|reflexivity].
  assert (E : s_seen (scanAuditFile (log_file AuditFixture.w1) (key AuditFixture.a1))
              = s_seen (scanAuditFile (log_file (set_log AuditFixture.w1 (Some (AuditFixture.line1 ++ [x0a; x0a]))))
                          (key AuditFixture.a1))) by (vm_compute; reflexivity).
  rewrite E. exact Hle.
Defined.

Lemma query_pages_witness :
  let q := mkQuery 0 0 "login" "acme" "" "" 1 0 in
  let m := matched_lines (λ s t, bool_decide (s = t)) q
             (s_seen (scanAuditFile (log_file AuditFixture.w1) (key AuditFixture.a1))) in
  concat (reverse ((λ i, page_at (λ s t, bool_decide (s = t)) AuditFixture.w1 AuditFixture.a1 q (Z.of_nat i * 1))
                   <$> List.seq 0 2)) = drop (length m - 2 * 1) m ∧
  (q_Workspace q ≠ "" → ∀ off l, 0 ≤ off →
     l ∈ page_at (λ s t, bool_decide (s = t)) AuditFixture.w1 AuditFixture.a1 q off →
     ∃ e, Unmarshal l = Some e ∧ Workspace e = q_Workspace q).
Proof. apply (query_pages (λ s t, bool_decide (s = t)) AuditFixture.w1 AuditFixture.a1 (mkQuery 0 0 "login" "acme" "" "" 1 0) 2). reflexivity. Defined.
