(* ===== verification/DenyCache.v ===== *)
(** * Revocation, suspension and the deny cache
    (src/internal/controller/denycache.go, authzstate.go, auth.go)

    Every authenticated call checks that its certificate is not revoked and its
    principal not suspended; both reads go through a short-lived cache shared by all
    requests.  A lookup is two critical sections with a store read between them, so
    the model runs any number of lookups interleaved with the writes, invalidations,
    flushes, garbage collection and the clock.  The theorems: a lookup that starts
    after a deny was written and invalidated is denied, whatever stale reads were in
    flight; without the invalidation a stale allow lapses; a faulting global store
    never opens access; and a call reaches its handler only past the method's trust
    level and both checks. *)
From Stdlib Require Import ZArith Lia Strings.Ascii.
From stdpp Require Import base gmap fin_maps sets numbers list strings relations.
From S2P Require Import Prelude.

Local Open Scope Z_scope.

(** ** The store (authzstate.go, store.go) *)

Definition normProvider (provider : string) : string := trim_prefix provider "device:".

Definition principalKey (ws provider subject : string) : string :=
  String.append ws (String.append "|" (String.append (normProvider provider) (String.append "|" subject))).

Definition suspendable (subject : string) : bool := bool_decide (subject ≠ "").

Record SuspensionRecord := mkSuspension {
  s_Workspace : string; s_Provider : string; s_Subject : string; s_Username : string;
  s_Reason : string; SuspendedBy : string; SuspendedUnix : Z }.

Record RevokedCert := mkRevokedCert { Serial : string; RevokedUnix : Z; By : string; rc_Reason : string }.

(** The two buckets; a suspension row that does not decode is [None]. *)
Record denyStore := mkDenyStore {
  revokedCerts : gmap string RevokedCert; suspensions : gmap string (option SuspensionRecord) }.

Definition RevokeCert (st : denyStore) (rec : RevokedCert) : denyStore :=
  mkDenyStore (<[Serial rec := rec]> (revokedCerts st)) (suspensions st).

Definition IsCertRevokedE (st : denyStore) (serialHex : string) : bool :=
  bool_decide (is_Some (revokedCerts st !! serialHex)).

Definition SuspendPrincipal (now : Z) (st : denyStore) (ws provider subject username by_ reason : string)
    : option denyStore :=
  if bool_decide (subject = "") then None
  else Some (mkDenyStore (revokedCerts st)
         (<[principalKey ws provider subject :=
              Some (mkSuspension ws (normProvider provider) subject username reason by_ (Unix now))]>
            (suspensions st))).

Definition LiftSuspension (st : denyStore) (ws provider subject : string) : denyStore :=
  mkDenyStore (revokedCerts st) (delete (principalKey ws provider subject) (suspensions st)).

(** Any row denies, a corrupt one too. *)
Definition isSuspendedTx (st : denyStore) (ws provider subject : string) : bool :=
  if negb (suspendable subject) then false
  else match suspensions st !! principalKey ws provider subject with
       | None => false
       | Some None => true
       | Some (Some _) => true
       end.

Definition IsSuspendedE (st : denyStore) (ws provider subject : string) : bool :=
  if negb (suspendable subject) then false else isSuspendedTx st ws provider subject.

Definition suspendedSet (st : denyStore) : gset string := dom (suspensions st).

(** ** The cache *)

Record denyEntry := mkDenyEntry { deny : bool; expires : Z }.

Record denyCache := mkDenyCache {
  revEntries : gmap string denyEntry; suspEntries : gmap string denyEntry;
  gen : Z; ttl : Z; failClosed : bool }.

Definition newDenyCache (ttl : Z) (failClosed : bool) : denyCache := mkDenyCache ∅ ∅ 0 ttl failClosed.

Definition denyCacheTTL : Z := 3 * second.

(** What is looked up: a certificate or a principal. *)
Inductive check : Type :=
| Cert (serial : string)
| Principal (ws provider subject : string).

#[export] Instance check_eq_decision : EqDecision check.
Proof. solve_decision. Defined.

(** The map a check uses ([false]: revocations) and its key in it. *)
Definition slot (k : check) : bool * string :=
  match k with
  | Cert s => (false, s)
  | Principal ws p s => (true, principalKey ws p s)
  end.

Definition entries (c : denyCache) (b : bool) : gmap string denyEntry :=
  if b then suspEntries c else revEntries c.
Definition entry_at (c : denyCache) (sl : bool * string) : option denyEntry := entries c sl.1 !! sl.2.

Definition set_entries (c : denyCache) (b : bool) (m : gmap string denyEntry) : denyCache :=
  if b then mkDenyCache (revEntries c) m (gen c) (ttl c) (failClosed c)
  else mkDenyCache m (suspEntries c) (gen c) (ttl c) (failClosed c).

Definition bump (c : denyCache) : denyCache :=
  mkDenyCache (revEntries c) (suspEntries c) (wrap_u64 (gen c + 1)) (ttl c) (failClosed c).

(** The authoritative read behind a check. *)
Definition load_check (st : denyStore) (k : check) : bool :=
  match k with
  | Cert s => IsCertRevokedE st s
  | Principal ws p s => IsSuspendedE st ws p s
  end.

(** [lookup], first critical section: a fresh entry, or the stale one and the
    generation to load under. *)
Definition lookup_enter (c : denyCache) (now : Z) (sl : bool * string) : bool + (option denyEntry * Z) :=
  match entry_at c sl with
  | Some ent => if Before now (expires ent) then inl (deny ent) else inr (Some ent, gen c)
  | None => inr (None, gen c)
  end.

(** Second critical section, after the load ([None]: it faulted); [now2] is the
    clock when the result is stored. *)
Definition lookup_finish (c : denyCache) (now2 : Z) (sl : bool * string) (ent : option denyEntry) (g : Z)
    (loaded : option bool) : denyCache * bool :=
  match loaded with
  | Some d =>
      (if gen c =? g
       then set_entries c sl.1 (<[sl.2 := mkDenyEntry d (now2 + ttl c)]> (entries c sl.1)) else c, d)
  | None =>
      if negb (failClosed c)
      then match ent with Some e => (c, deny e) | None => (c, false) end
      else (c, true)
  end.

(** The whole call, when nothing runs in between. *)
Definition lookup (c : denyCache) (now now2 : Z) (sl : bool * string) (loader : option bool)
    : denyCache * bool :=
  match lookup_enter c now sl with
  | inl d => (c, d)
  | inr (ent, g) => lookup_finish c now2 sl ent g loader
  end.

Definition certRevoked (c : denyCache) (now now2 : Z) (serial : string) (loader : option bool) : denyCache * bool :=
  lookup c now now2 (slot (Cert serial)) loader.

Definition suspended (c : denyCache) (now now2 : Z) (key : string) (loader : option bool) : denyCache * bool :=
  lookup c now now2 (true, key) loader.

Definition invalidateRevoked (c : denyCache) (serial : string) : denyCache :=
  bump (set_entries c false (delete serial (revEntries c))).

Definition invalidateSuspension (c : denyCache) (ws provider subject : string) : denyCache :=
  bump (set_entries c true (delete (principalKey ws provider subject) (suspEntries c))).

Definition invalidate (c : denyCache) (k : check) : denyCache :=
  match k with
  | Cert s => invalidateRevoked c s
  | Principal ws p s => invalidateSuspension c ws p s
  end.

Definition flush (c : denyCache) : denyCache :=
  bump (mkDenyCache ∅ ∅ (gen c) (ttl c) (failClosed c)).

Definition gc (c : denyCache) (now : Z) : denyCache :=
  let live := filter (λ ke : string * denyEntry, Before now (expires ke.2) = true) in
  mkDenyCache (live (revEntries c)) (live (suspEntries c)) (gen c) (ttl c) (failClosed c).

(** ** Concurrent requests *)

(** Where a lookup is: called at an instant, loading under a generation, loaded,
    done. *)
Inductive tstate : Type :=
| Called (k : check) (now : Z)
| Loading (k : check) (ent : option denyEntry) (g : Z)
| Loaded (k : check) (ent : option denyEntry) (g : Z) (r : option bool)
| Done (k : check) (verdict : bool).

Record cstate := mkCState { cache : denyCache; cstore : denyStore; clock : Z; threads : gmap nat tstate }.

Definition set_thread (s : cstate) (c : denyCache) (i : nat) (t : tstate) : cstate :=
  mkCState c (cstore s) (clock s) (<[i := t]> (threads s)).

(** One step of one request, of the writers, of the sweeper, or of time; [faults]
    is whether store reads may fail. *)
Inductive cstep (faults : bool) : cstate → cstate → Prop :=
| c_call s i k : threads s !! i = None → cstep faults s (set_thread s (cache s) i (Called k (clock s)))
| c_hit s i k now d : threads s !! i = Some (Called k now) →
    lookup_enter (cache s) now (slot k) = inl d → cstep faults s (set_thread s (cache s) i (Done k d))
| c_miss s i k now ent g : threads s !! i = Some (Called k now) →
    lookup_enter (cache s) now (slot k) = inr (ent, g) →
    cstep faults s (set_thread s (cache s) i (Loading k ent g))
| c_load s i k ent g r : threads s !! i = Some (Loading k ent g) →
    r = Some (load_check (cstore s) k) ∨ faults = true ∧ r = None →
    cstep faults s (set_thread s (cache s) i (Loaded k ent g r))
| c_finish s i k ent g r c' v : threads s !! i = Some (Loaded k ent g r) →
    lookup_finish (cache s) (clock s) (slot k) ent g r = (c', v) →
    cstep faults s (set_thread s c' i (Done k v))
| c_write s st' : cstep faults s (mkCState (cache s) st' (clock s) (threads s))
| c_invalidate s k : cstep faults s (mkCState (invalidate (cache s) k) (cstore s) (clock s) (threads s))
| c_flush s : cstep faults s (mkCState (flush (cache s)) (cstore s) (clock s) (threads s))
| c_gc s now : cstep faults s (mkCState (gc (cache s) now) (cstore s) (clock s) (threads s))
| c_tick s d : 0 ≤ d → cstep faults s (mkCState (cache s) (cstore s) (clock s + d) (threads s)).

(** Executions in which the 64-bit generation does not wrap. *)
Definition run_step (faults : bool) (s s' : cstate) : Prop :=
  cstep faults s s' ∧ gen (cache s) < 2 ^ 64 - 1.

(** The store denies whatever is looked up under a slot. *)
Definition slot_denied (st : denyStore) (sl : bool * string) : Prop :=
  ∀ k, slot k = sl → load_check st k = true.

(** Executions during which it does (no lift). *)
Definition denied_step (faults : bool) (sl : bool * string) (s s' : cstate) : Prop :=
  run_step faults s s' ∧ slot_denied (cstore s') sl.

Definition start_state (ttl : Z) (fc : bool) (st : denyStore) (now : Z) : cstate :=
  mkCState (newDenyCache ttl fc) st now ∅.

(** ** The interceptors (auth.go) *)

Record Identity := mkIdentity {
  Kind : string; i_Workspace : string; i_Name : string; Roles : list string;
  Provider : string; Subject : string; i_ClientPath : string }.

Definition KindNode : string := "node".
Definition KindUser : string := "user".
Definition KindRelay : string := "relay".

Definition hasRole (ident : Identity) (role : string) : bool := existsb (λ r, bool_decide (r = role)) (Roles ident).

Definition roleAdmin : string := "admin".
Definition rolePlatformAdmin : string := "platform-admin".
Definition reservedRoles (r : string) : bool := bool_decide (r = roleAdmin) || bool_decide (r = rolePlatformAdmin).

Fixpoint stripReservedRoles (roles : list string) : list string :=
  match roles with
  | [] => []
  | r :: rest => if reservedRoles r then stripReservedRoles rest else r :: stripReservedRoles rest
  end.

Inductive auth_err : Type :=
| Unauthenticated | WrongKind | AdminRequired | MethodNotAllowed | CredentialRevoked | AuthorizationSuspended.

#[export] Instance auth_err_eq_decision : EqDecision auth_err.
Proof. solve_decision. Defined.

(** The verified peer: its identity and the serial of its leaf ([None] without one). *)
Record peerInfo := mkPeerInfo { identity : Identity; leaf : option string }.

Definition need_kind (pi : option peerInfo) (kind : string) : option auth_err :=
  match pi with
  | None => Some Unauthenticated
  | Some p => if bool_decide (Kind (identity p) = kind) then None else Some WrongKind
  end.

Definition authorize (pi : option peerInfo) (fullMethod : string) : option auth_err :=
  if has_prefix fullMethod "/geneza.v1.Enrollment/" then None
  else if has_prefix fullMethod "/geneza.v1.NodeControl/" then need_kind pi KindNode
  else if has_prefix fullMethod "/geneza.v1.RelayRegistry/" then need_kind pi KindRelay
  else if has_prefix fullMethod "/geneza.v1.WorkspaceAPI/" then need_kind pi KindUser
  else if has_prefix fullMethod "/geneza.v1.ClusterAPI/" then
    match pi with
    | None => Some Unauthenticated
    | Some p => if negb (bool_decide (Kind (identity p) = KindUser)) || negb (hasRole (identity p) "admin")
                then Some AdminRequired else None
    end
  else Some MethodNotAllowed.

(** The checks of a call, with what the store answers ([None]: a fault); the calls
    of one request run one after the other. *)
Definition checkNotRevoked (c : denyCache) (now : Z) (pi : option peerInfo) (load : check → option bool)
    : denyCache * option auth_err :=
  match pi with
  | Some (mkPeerInfo _ (Some serial)) =>
      let '(c', d) := certRevoked c now now serial (load (Cert serial)) in
      (c', if d then Some CredentialRevoked else None)
  | _ => (c, None)
  end.

Definition checkNotSuspended (c : denyCache) (now : Z) (pi : option peerInfo) (load : check → option bool)
    : denyCache * option auth_err :=
  match pi with
  | Some p =>
      let id := identity p in
      if bool_decide (Kind id = KindUser) then
        let key := principalKey (i_Workspace id) (Provider id) (Subject id) in
        let '(c', d) := suspended c now now key
                          (load (Principal (i_Workspace id) (Provider id) (Subject id))) in
        (c', if d then Some AuthorizationSuspended else None)
      else (c, None)
  | None => (c, None)
  end.

(** [None]: the handler runs. *)
Definition authInterceptor (c : denyCache) (now : Z) (pi : option peerInfo) (fullMethod : string)
    (load : check → option bool) : denyCache * option auth_err :=
  match authorize pi fullMethod with
  | Some e => (c, Some e)
  | None =>
      let '(c1, r1) := checkNotRevoked c now pi load in
      match r1 with
      | Some e => (c1, Some e)
      | None => checkNotSuspended c1 now pi load
      end
  end.

(** ** Lemmas: the cache operations, slot by slot *)

Lemma entry_at_set (c : denyCache) (b : bool) (m : gmap string denyEntry) (sl : bool * string) :
  entry_at (set_entries c b m) sl = if bool_decide (sl.1 = b) then m !! sl.2 else entry_at c sl.
Proof. destruct sl as [[] k], b; done. Qed.

Lemma entry_at_invalidate (c : denyCache) (k : check) (sl : bool * string) :
  entry_at (invalidate c k) sl = if bool_decide (sl = slot k) then None else entry_at c sl.
Proof.
  assert (∀ b x (m : gmap string denyEntry), m = entries c b →
    entry_at (set_entries c b (delete x m)) sl
    = if bool_decide (sl = (b, x)) then None else entry_at c sl) as Hdel.
  { intros b x m ->. rewrite entry_at_set. destruct sl as [b' y]. cbn [fst snd]. unfold entry_at. cbn [fst snd].
    repeat case_bool_decide; simplify_eq; try done.
    - by rewrite lookup_delete_eq.
    - rewrite lookup_delete_ne by congruence. done. }
  destruct k; apply Hdel; done.
Qed.

Lemma gen_invalidate (c : denyCache) (k : check) : gen (invalidate c k) = wrap_u64 (gen c + 1).
Proof. by destruct k. Qed.
Lemma ttl_invalidate (c : denyCache) (k : check) : ttl (invalidate c k) = ttl c.
Proof. by destruct k. Qed.
Lemma failClosed_invalidate (c : denyCache) (k : check) : failClosed (invalidate c k) = failClosed c.
Proof. by destruct k. Qed.

Lemma entry_at_flush (c : denyCache) (sl : bool * string) : entry_at (flush c) sl = None.
Proof. by destruct sl as [[] k]. Qed.

Lemma entry_at_gc (c : denyCache) (now : Z) (sl : bool * string) (e : denyEntry) :
  entry_at (gc c now) sl = Some e → entry_at c sl = Some e.
Proof. destruct sl as [[] k]; unfold entry_at; cbn; by intros [? _]%map_lookup_filter_Some. Qed.

(** What finishing a lookup stores. *)
Lemma finish_spec (c c' : denyCache) (now2 : Z) (sl : bool * string) (ent : option denyEntry) (g : Z)
    (r : option bool) (v : bool) :
  lookup_finish c now2 sl ent g r = (c', v) →
  gen c' = gen c ∧ ttl c' = ttl c ∧ failClosed c' = failClosed c ∧
  (∀ sl' e, entry_at c' sl' = Some e → entry_at c sl' = Some e ∨
     sl' = sl ∧ gen c = g ∧ ∃ d, r = Some d ∧ e = mkDenyEntry d (now2 + ttl c)) ∧
  (∀ d, r = Some d → v = d) ∧ (r = None → failClosed c = true → v = true).
Proof.
  unfold lookup_finish. destruct r as [d|].
  - intros [= <- <-]. destruct (Z.eqb_spec (gen c) g) as [Hg|]; [|split_and!; auto; naive_solver].
    split_and!; [by destruct sl as [[] ?]..| |naive_solver|done].
    intros sl' e. rewrite entry_at_set. case_bool_decide as Hb; [|auto].
    intros He. destruct (decide (sl'.2 = sl.2)) as [E|E].
    + rewrite E, lookup_insert_eq in He. simplify_eq. right. destruct sl', sl. cbn in *. subst. naive_solver.
    + rewrite lookup_insert_ne in He by done. left. unfold entry_at. by rewrite Hb.
  - destruct (failClosed c) eqn:Ef; cbn [negb]; [|destruct ent]; intros [= <- <-]; split_and!; auto; naive_solver.
Qed.

(** ** Lemmas: executions *)

Definition thread_gen (t : tstate) : option Z :=
  match t with Loading _ _ g | Loaded _ _ g _ => Some g | _ => None end.

(** Generations in flight are not from the future, and entries expire within a ttl. *)
Definition cstate_ok (fc : bool) (t : Z) (s : cstate) : Prop :=
  0 ≤ gen (cache s) ∧ ttl (cache s) = t ∧ failClosed (cache s) = fc ∧
  (∀ i ts g, threads s !! i = Some ts → thread_gen ts = Some g → g ≤ gen (cache s)) ∧
  (∀ sl e, entry_at (cache s) sl = Some e → expires e ≤ clock s + t).

Lemma enter_gen (c : denyCache) (now : Z) (sl : bool * string) (ent : option denyEntry) (g : Z) :
  lookup_enter c now sl = inr (ent, g) → g = gen c.
Proof. unfold lookup_enter. repeat case_match; intros; by simplify_eq. Qed.

(** A thread moving without touching the cache. *)
Lemma cstate_ok_thread (fc : bool) (t : Z) (s : cstate) (i : nat) (ts : tstate) :
  cstate_ok fc t s → (∀ g, thread_gen ts = Some g → g ≤ gen (cache s)) →
  cstate_ok fc t (set_thread s (cache s) i ts).
Proof.
  intros (H1 & H2 & H3 & H4 & H5) Hts. split_and!; auto. intros j ts' g. cbn.
  destruct (decide (i = j)) as [->|]; [rewrite lookup_insert_eq; naive_solver|rewrite lookup_insert_ne by done; eauto].
Qed.

Lemma step_ok (faults fc : bool) (t : Z) (s s' : cstate) :
  cstate_ok fc t s → run_step faults s s' → cstate_ok fc t s'.
Proof.
  intros Hok [Hs Hw]. pose proof Hok as (H1 & H2 & H3 & H4 & H5).
  destruct Hs as [s i k Hi|s i k now d Hi He|s i k now ent g Hi He|s i k ent g r Hi Hr|
    s i k ent g r c' v Hi Hf|s st'|s k|s|s now|s d Hd].
  - by apply cstate_ok_thread.
  - by apply cstate_ok_thread.
  - apply cstate_ok_thread; [done|]. apply enter_gen in He. cbn. naive_solver lia.
  - apply cstate_ok_thread; [done|]. cbn. intros g' [= <-]. by eapply H4.
  - apply finish_spec in Hf as (Hg & Ht & Hfc & He & _). split_and!; cbn; [lia|congruence..| |].
    + intros j ts g'. rewrite Hg. destruct (decide (i = j)) as [->|];
        [rewrite lookup_insert_eq; naive_solver|rewrite lookup_insert_ne by done; eauto].
    + intros sl e [?|(-> & _ & d & _ & ->)]%He; [eauto|]. cbn. lia.
  - done.
  - split_and!; cbn; rewrite ?gen_invalidate, ?ttl_invalidate, ?failClosed_invalidate, ?wrap_u64_small; auto; try lia.
    + intros i ts g Hi Ht. specialize (H4 i ts g Hi Ht). lia.
    + intros sl e. rewrite entry_at_invalidate. case_bool_decide; [done|eauto].
  - split_and!; cbn; rewrite ?wrap_u64_small; auto; try lia.
    + intros i ts g Hi Ht. specialize (H4 i ts g Hi Ht). lia.
    + intros sl e. by rewrite entry_at_flush.
  - split_and!; auto. intros sl e He%entry_at_gc. eauto.
  - split_and!; cbn; auto. intros sl e He. specialize (H5 sl e He). lia.
Qed.

Lemma deny_reachable_ok (faults fc : bool) (t : Z) (st : denyStore) (now : Z) (s : cstate) :
  rtc (run_step faults) (start_state t fc st now) s → cstate_ok fc t s.
Proof.
  intros Hr. assert (cstate_ok fc t (start_state t fc st now)) as H0.
  { split_and!; try done. intros [[] k] e; done. }
  induction Hr; eauto using step_ok.
Qed.

(** While a slot is denied: allows in the cache end by [T], and no stale load can be
    stored any more. *)
Definition draining (sl : bool * string) (T : Z) (s : cstate) : Prop :=
  (∀ e, entry_at (cache s) sl = Some e → deny e = false → expires e ≤ T) ∧
  (∀ i k ent g, threads s !! i = Some (Loaded k ent g (Some false)) → slot k = sl → g < gen (cache s)).

Lemma draining_thread (sl : bool * string) (T : Z) (s : cstate) (i : nat) (ts : tstate) :
  draining sl T s → (∀ k ent g, ts ≠ Loaded k ent g (Some false) ∨ slot k ≠ sl) →
  draining sl T (set_thread s (cache s) i ts).
Proof.
  intros [Ha Hb] Hts. split; [done|]. intros j k ent g. cbn.
  destruct (decide (i = j)) as [->|]; [rewrite lookup_insert_eq|rewrite lookup_insert_ne by done; eauto].
  intros [= ->] Hk. destruct (Hts k ent g); done.
Qed.

Lemma draining_step (faults fc : bool) (t : Z) (sl : bool * string) (T : Z) (s s' : cstate) :
  cstate_ok fc t s → draining sl T s → denied_step faults sl s s' → draining sl T s'.
Proof.
  intros (H1 & _) Hdr [[Hs Hw] Hden]. pose proof Hdr as [Ha Hb].
  destruct Hs as [s i k Hi|s i k now d Hi He|s i k now ent g Hi He|s i k ent g r Hi Hr|
    s i k ent g r c' v Hi Hf|s st'|s k|s|s now|s d Hd]; try (apply draining_thread; [done|]; intros; left; discriminate).
  - apply draining_thread; [done|]. intros k' ent' g'. destruct (decide (slot k' = sl)) as [E|]; [|auto].
    left. intros [= <- <- <- ->]. destruct Hr as [[= Hr]|[_ ?]]; [|done].
    pose proof (Hden k E) as Hl. cbn in Hl. congruence.
  - apply finish_spec in Hf as (Hg & _ & _ & He & _). split; cbn.
    + intros e [?|(-> & Hgen & d & -> & ->)]%He; [auto|]. intros Hd. cbn in Hd. subst d.
      specialize (Hb i k ent g Hi eq_refl). lia.
    + intros j k' ent' g'. rewrite Hg. destruct (decide (i = j)) as [->|];
        [by rewrite lookup_insert_eq|rewrite lookup_insert_ne by done; eauto].
  - done.
  - split; cbn; rewrite ?gen_invalidate, ?wrap_u64_small by lia.
    + intros e. rewrite entry_at_invalidate. case_bool_decide; [done|auto].
    + intros i k' ent g Hi Hk. specialize (Hb i k' ent g Hi Hk). lia.
  - split; cbn; rewrite ?wrap_u64_small by lia.
    + intros e. by rewrite entry_at_flush.
    + intros i k' ent g Hi Hk. specialize (Hb i k' ent g Hi Hk). lia.
  - split; [|done]. intros e He%entry_at_gc. auto.
  - done.
Qed.

(** A lookup that starts at [T] or later is denied. *)
Definition denies_from (sl : bool * string) (T : Z) (i : nat) (s : cstate) : Prop :=
  T ≤ clock s ∧
  ∀ ts, threads s !! i = Some ts →
    match ts with
    | Called k now => slot k = sl → T ≤ now
    | Loading _ _ _ => True
    | Loaded k _ _ r => slot k = sl → r ≠ Some false
    | Done k v => slot k = sl → v = true
    end.

Lemma denies_step (faults fc : bool) (t : Z) (sl : bool * string) (T : Z) (i : nat) (s s' : cstate) :
  cstate_ok fc t s → draining sl T s → faults = false ∨ fc = true →
  (∀ k ent g, threads s !! i = Some (Loaded k ent g None) → faults = true) →
  denies_from sl T i s → denied_step faults sl s s' →
  denies_from sl T i s' ∧ (∀ k ent g, threads s' !! i = Some (Loaded k ent g None) → faults = true).
Proof.
  intros (_ & _ & Hfc & _) [Ha _] Hfault Hnf [HT Hi] [[Hs _] Hden].
  assert (∀ c j ts, set_thread s c j ts = s' →
    (j = i → match ts with
      | Called k now => slot k = sl → T ≤ now
      | Loading _ _ _ => True
      | Loaded k _ _ r => (slot k = sl → r ≠ Some false) ∧ (r = None → faults = true)
      | Done k v => slot k = sl → v = true end) →
    denies_from sl T i s' ∧ (∀ k ent g, threads s' !! i = Some (Loaded k ent g None) → faults = true)) as Hset.
  { intros c j ts <- Hj. split; [split; [done|]|]; cbn.
    - intros ts'. destruct (decide (j = i)) as [->|]; [rewrite lookup_insert_eq|rewrite lookup_insert_ne by done; apply Hi].
      intros [= <-]. specialize (Hj eq_refl). destruct ts; naive_solver.
    - intros k ent g. destruct (decide (j = i)) as [->|];
        [rewrite lookup_insert_eq; intros [= ->]; naive_solver|rewrite lookup_insert_ne by done; eauto]. }
  destruct Hs as [s j k Hj|s j k now d Hj He|s j k now ent g Hj He|s j k ent g r Hj Hr|
    s j k ent g r c' v Hj Hf|s st'|s k|s|s now|s d Hd]; try (by split; [split|]);
    try (eapply Hset; [reflexivity|intros ->]).
  - done.
  - intros Hk. unfold lookup_enter in He. rewrite Hk in He.
    destruct (entry_at (cache s) sl) as [e|] eqn:Ee; [|done]. unfold Before in He.
    destruct (Z.ltb_spec now (expires e)); [|done]. injection He as <-. destruct (deny e) eqn:Ed; [done|].
    specialize (Ha e eq_refl Ed). specialize (Hi _ Hj Hk). lia.
  - done.
  - split; [|naive_solver]. intros Hk. destruct Hr as [->|[_ ->]]; [|done].
    pose proof (Hden k Hk) as Hl. cbn in Hl. congruence.
  - intros Hk. apply finish_spec in Hf as (_ & _ & _ & _ & Hv & Hn). specialize (Hi _ Hj Hk).
    destruct r as [[]|]; [by rewrite (Hv true)|done|].
    apply Hn; [done|]. destruct Hfault as [->|]; [|congruence]. by specialize (Hnf _ _ _ Hj).
  - split; [split; [cbn; lia|done]|done].
Qed.

Lemma run_denies (faults fc : bool) (t : Z) (sl : bool * string) (T : Z) (i : nat) (s s' : cstate) :
  cstate_ok fc t s → draining sl T s → faults = false ∨ fc = true → T ≤ clock s → threads s !! i = None →
  rtc (denied_step faults sl) s s' →
  ∀ k v, threads s' !! i = Some (Done k v) → slot k = sl → v = true.
Proof.
  intros Hok Hdr Hf HT Hi Hr.
  assert (denies_from sl T i s ∧ ∀ k ent g, threads s !! i = Some (Loaded k ent g None) → faults = true) as H0.
  { split; [split; [done|]|]; intros; congruence. }
  clear HT Hi. induction Hr as [s|s1 s2 s3 Hs Hr IH].
  - intros k v Hk. by apply H0 in Hk.
  - destruct H0 as [H1 H2]. pose proof Hs as [Hrun _].
    apply IH; eauto using step_ok, draining_step, denies_step.
Qed.

Lemma draining_run (faults fc : bool) (t : Z) (sl : bool * string) (T : Z) (s s' : cstate) :
  cstate_ok fc t s → draining sl T s → rtc (denied_step faults sl) s s' →
  cstate_ok fc t s' ∧ draining sl T s'.
Proof.
  intros Hok Hdr Hr. induction Hr as [s|s1 s2 s3 Hs Hr IH]; [done|]. pose proof Hs as [Hrun _].
  apply IH; eauto using step_ok, draining_step.
Qed.

(** The last character of a key decides whether it is a keyable principal's. *)
Fixpoint ends_with (c : ascii) (s : string) : bool :=
  match s with
  | EmptyString => false
  | String a EmptyString => bool_decide (a = c)
  | String _ r => ends_with c r
  end.

Lemma ends_with_append (c : ascii) (s t : string) :
  t ≠ "" → ends_with c (String.append s t) = ends_with c t.
Proof.
  intros Ht. induction s as [|a s IH]; [done|]. cbn [String.append].
  destruct (String.append s t) as [|b r] eqn:E; [destruct s; done|]. rewrite <- IH. done.
Qed.

(** Suspending a principal denies its slot. *)
Lemma suspend_denies (now : Z) (st st' : denyStore) (ws p s u by_ r : string) :
  SuspendPrincipal now st ws p s u by_ r = Some st' → ends_with "|" s = false →
  slot_denied st' (slot (Principal ws p s)).
Proof.
  unfold SuspendPrincipal. case_bool_decide as Hs; [done|]. intros [= <-] He k Hk.
  destruct k as [|ws' p' s']; [done|]. cbn in Hk. injection Hk as Hk. cbn [load_check]. unfold IsSuspendedE, isSuspendedTx.
  assert (suspendable s' = true) as ->.
  { unfold suspendable. apply bool_decide_eq_true_2. intros ->.
    assert (ends_with "|" (principalKey ws' p' "") = true) as H1.
    { unfold principalKey. by rewrite !ends_with_append by (by destruct (normProvider p')). }
    rewrite Hk in H1. unfold principalKey in H1.
    rewrite !ends_with_append in H1 by (done || by destruct (normProvider p)). congruence. }
  cbn [negb suspensions]. by rewrite Hk, lookup_insert_eq.
Qed.

(** *** The interceptors *)

Lemma need_kind_None (pi : option peerInfo) (kind : string) :
  need_kind pi kind = None ↔ ∃ p, pi = Some p ∧ Kind (identity p) = kind.
Proof. unfold need_kind. destruct pi; [case_bool_decide|]; naive_solver. Qed.

Lemma hasRole_spec (i : Identity) (r : string) : hasRole i r = true ↔ r ∈ Roles i.
Proof. apply contains_spec. Qed.

(** No login-derived role set carries cluster authority. *)
Lemma stripReservedRoles_spec (roles : list string) (r : string) :
  r ∈ stripReservedRoles roles ↔ r ∈ roles ∧ r ≠ roleAdmin ∧ r ≠ rolePlatformAdmin.
Proof.
  induction roles as [|x roles IH]; cbn [stripReservedRoles].
  - split; [by intros ?%not_elem_of_nil|by intros [?%not_elem_of_nil _]].
  - unfold reservedRoles. rewrite elem_of_cons. repeat case_bool_decide; cbn [orb]; rewrite ?elem_of_cons, IH;
      subst; intuition congruence.
Qed.

Lemma admin_None (pi : option peerInfo) :
  match pi with
  | None => Some Unauthenticated
  | Some p => if negb (bool_decide (Kind (identity p) = KindUser)) || negb (hasRole (identity p) "admin")
              then Some AdminRequired else None
  end = None ↔ ∃ p, pi = Some p ∧ Kind (identity p) = KindUser ∧ "admin" ∈ Roles (identity p).
Proof.
  destruct pi as [p|]; [|naive_solver]. pose proof (hasRole_spec (identity p) "admin") as Hr.
  case_bool_decide; [|naive_solver]. destruct (hasRole (identity p) "admin"); cbn; naive_solver.
Qed.

(** No method belongs to two services. *)
Ltac two_services :=
  match goal with
  | H1 : has_prefix ?m ?p = true, H2 : has_prefix ?m ?q = true |- _ =>
      exfalso; refine (has_prefix_disjoint p q m _ _ H1 H2); vm_compute; reflexivity
  end.

(** The trust level of a method, service by service: their prefixes are disjoint. *)
Lemma authorize_spec (pi : option peerInfo) (m : string) :
  authorize pi m = None ↔
  has_prefix m "/geneza.v1.Enrollment/" = true ∨
  ∃ p, pi = Some p ∧
    (has_prefix m "/geneza.v1.NodeControl/" = true ∧ Kind (identity p) = KindNode ∨
     has_prefix m "/geneza.v1.RelayRegistry/" = true ∧ Kind (identity p) = KindRelay ∨
     has_prefix m "/geneza.v1.WorkspaceAPI/" = true ∧ Kind (identity p) = KindUser ∨
     has_prefix m "/geneza.v1.ClusterAPI/" = true ∧ Kind (identity p) = KindUser ∧
       "admin" ∈ Roles (identity p)).
Proof.
  unfold authorize.
  destruct (has_prefix m "/geneza.v1.Enrollment/") eqn:E1; [naive_solver|].
  destruct (has_prefix m "/geneza.v1.NodeControl/") eqn:E2,
    (has_prefix m "/geneza.v1.RelayRegistry/") eqn:E3, (has_prefix m "/geneza.v1.WorkspaceAPI/") eqn:E4,
    (has_prefix m "/geneza.v1.ClusterAPI/") eqn:E5; try two_services;
    rewrite ?need_kind_None, ?admin_None;
    (split;
     [ (intros (p & -> & Hp); right; exists p; tauto) || (intros; discriminate)
     | intros [?|(p & -> & [[? ?]|[[? ?]|[[? ?]|(? & ? & ?)]]])]; try discriminate; eauto ]).
Qed.

Lemma checkNotRevoked_spec (c : denyCache) (now : Z) (pi : option peerInfo) (load : check → option bool) :
  (checkNotRevoked c now pi load).2 = None ↔
  ∀ p serial, pi = Some p → leaf p = Some serial →
    (certRevoked c now now serial (load (Cert serial))).2 = false.
Proof.
  unfold checkNotRevoked. destruct pi as [[id [serial|]]|]; [|split; [naive_solver|done]..].
  destruct (certRevoked c now now serial (load (Cert serial))) as [c' []] eqn:E; cbn [snd].
  - split; [done|]. intros H. specialize (H _ serial eq_refl eq_refl). by rewrite E in H.
  - split; [|done]. intros _ p s [= <-] [= <-]. by rewrite E.
Qed.

Lemma checkNotSuspended_spec (c : denyCache) (now : Z) (pi : option peerInfo) (load : check → option bool) :
  (checkNotSuspended c now pi load).2 = None ↔
  ∀ p, pi = Some p → Kind (identity p) = KindUser →
    let id := identity p in
    (suspended c now now (principalKey (i_Workspace id) (Provider id) (Subject id))
       (load (Principal (i_Workspace id) (Provider id) (Subject id)))).2 = false.
Proof.
  unfold checkNotSuspended. destruct pi as [p|]; [|split; [naive_solver|done]].
  case_bool_decide as Hk; [|split; [naive_solver|done]]. cbv zeta.
  destruct (suspended c now now _ _) as [c' []] eqn:E; cbn [snd].
  - split; [done|]. intros H. specialize (H p eq_refl Hk). by rewrite E in H.
  - split; [|done]. intros _ p' [= <-] _. by rewrite E.
Qed.

(** ** Theorems *)

(** [denycache.go, lookup] An invalidation beats the cache.  Let a revocation or
    suspension be in the store when the cache is invalidated.  Whatever lookups were
    in flight, with whatever stale reads, and however the requests, flushes, sweeps
    and the clock interleave afterwards, every lookup of it that starts after the
    invalidation is denied, as long as nobody lifts it (and, on a store that fails
    open, as long as reads do not fault). *)
Theorem invalidation_beats_cache (faults fc : bool) (t now : Z) (st : denyStore) (s0 s2 : cstate)
    (k k' : check) (i : nat) (v : bool) :
  rtc (run_step faults) (start_state t fc st now) s0 → gen (cache s0) < 2 ^ 64 - 1 →
  slot_denied (cstore s0) (slot k) → faults = false ∨ fc = true →
  let s1 := mkCState (invalidate (cache s0) k) (cstore s0) (clock s0) (threads s0) in
  rtc (denied_step faults (slot k)) s1 s2 →
  threads s1 !! i = None → threads s2 !! i = Some (Done k' v) → slot k' = slot k → v = true.
Proof.
  intros Hr Hg Hden Hf s1 Hr2 Hi. pose proof (deny_reachable_ok _ _ _ _ _ _ Hr) as Hok.
  assert (cstate_ok fc t s1) as Hok1 by (eapply (step_ok faults); [exact Hok|split; [constructor|done]]).
  eapply (run_denies faults fc t (slot k) (clock s1)); try done.
  split; cbn.
  - intros e. by rewrite entry_at_invalidate, bool_decide_eq_true_2.
  - intros j k2 ent g Hj _. destruct Hok as (H1 & _ & _ & H4 & _). specialize (H4 j _ g Hj eq_refl).
    rewrite gen_invalidate, wrap_u64_small; lia.
Qed.

(** [denycache.go] A stale allow lapses.  When only the store was written (a
    peer controller's revocation, a lost invalidation), then once no request holds a
    read from before the write, every lookup that starts a ttl later is denied. *)
Theorem stale_allow_lapses (faults fc : bool) (t now : Z) (st : denyStore) (s0 s1 s2 : cstate)
    (k k' : check) (i : nat) (v : bool) :
  rtc (run_step faults) (start_state t fc st now) s0 → faults = false ∨ fc = true →
  (∀ j k2 ent g, threads s0 !! j = Some (Loaded k2 ent g (Some false)) → slot k2 ≠ slot k) →
  rtc (denied_step faults (slot k)) s0 s1 → clock s0 + t ≤ clock s1 → threads s1 !! i = None →
  rtc (denied_step faults (slot k)) s1 s2 →
  threads s2 !! i = Some (Done k' v) → slot k' = slot k → v = true.
Proof.
  intros Hr Hf Hno Hr1 Hclk Hi Hr2. pose proof (deny_reachable_ok _ _ _ _ _ _ Hr) as Hok.
  assert (draining (slot k) (clock s0 + t) s0) as Hdr.
  { destruct Hok as (_ & _ & _ & _ & H5). split; [eauto|]. intros j k2 ent g Hj E. by apply Hno in Hj. }
  destruct (draining_run faults fc t _ _ s0 s1 Hok Hdr Hr1) as [Hok1 Hdr1].
  by eapply (run_denies faults fc t (slot k) (clock s0 + t)).
Qed.

(** [auth.go] What reaches a handler.  The interceptors let a call through
    exactly if its method belongs to a known service whose kind of certificate the
    peer presented (with the admin role for the cluster service; none needed to
    enroll), the deny cache does not deny its certificate, and not its principal
    when it is a user. *)
Theorem interceptor_spec (c : denyCache) (now : Z) (pi : option peerInfo) (m : string)
    (load : check → option bool) :
  (authInterceptor c now pi m load).2 = None ↔
  (has_prefix m "/geneza.v1.Enrollment/" = true ∨
   ∃ p, pi = Some p ∧
     (has_prefix m "/geneza.v1.NodeControl/" = true ∧ Kind (identity p) = KindNode ∨
      has_prefix m "/geneza.v1.RelayRegistry/" = true ∧ Kind (identity p) = KindRelay ∨
      has_prefix m "/geneza.v1.WorkspaceAPI/" = true ∧ Kind (identity p) = KindUser ∨
      has_prefix m "/geneza.v1.ClusterAPI/" = true ∧ Kind (identity p) = KindUser ∧
        "admin" ∈ Roles (identity p))) ∧
  (∀ p serial, pi = Some p → leaf p = Some serial →
     (certRevoked c now now serial (load (Cert serial))).2 = false) ∧
  (∀ p, pi = Some p → Kind (identity p) = KindUser →
     let id := identity p in
     let c1 := (checkNotRevoked c now pi load).1 in
     (suspended c1 now now (principalKey (i_Workspace id) (Provider id) (Subject id))
        (load (Principal (i_Workspace id) (Provider id) (Subject id)))).2 = false).
Proof.
  unfold authInterceptor. rewrite <- authorize_spec. destruct (authorize pi m); [naive_solver|].
  pose proof (checkNotRevoked_spec c now pi load) as Hrev.
  destruct (checkNotRevoked c now pi load) as [c1 [e|]]; cbn [fst snd] in *; [naive_solver|].
  rewrite checkNotSuspended_spec. naive_solver.
Qed.

(** ** Witnesses *)

Module DenyFixture.

Definition k : check := Principal "acme" "device:keystone" "u1".
Definition st0 : denyStore := mkDenyStore ∅ ∅.
Definition st1 : denyStore :=
  mkDenyStore ∅ {[ principalKey "acme" "keystone" "u1" :=
                     Some (mkSuspension "acme" "keystone" "u1" "ana" "left" "root" 0) ]}.

Lemma st1_denies : slot_denied st1 (slot k).
Proof.
  apply (suspend_denies 0 st0 st1 "acme" "device:keystone" "u1" "ana" "root" "left");
    vm_compute; reflexivity.
Qed.

(** A request reads "not suspended" and stalls; then the suspension is written. *)
Definition a0 : cstate := start_state denyCacheTTL true st0 0.
Definition a1 : cstate := set_thread a0 (cache a0) 0 (Called k 0).
Definition a2 : cstate := set_thread a1 (cache a1) 0 (Loading k None 0).
Definition a3 : cstate := set_thread a2 (cache a2) 0 (Loaded k None 0 (Some false)).
Definition stalled : cstate := mkCState (cache a3) st1 (clock a3) (threads a3).

Lemma stalled_reachable : rtc (run_step true) a0 stalled.
Proof.
  apply (rtc_l _ _ a1); [split; [by apply c_call|vm_compute; reflexivity]|].
  apply (rtc_l _ _ a2); [split; [by eapply c_miss; [apply lookup_insert_eq|vm_compute; reflexivity]|vm_compute; reflexivity]|].
  apply (rtc_l _ _ a3); [split; [eapply c_load; [apply lookup_insert_eq|left; vm_compute; reflexivity]|vm_compute; reflexivity]|].
  apply (rtc_l _ _ stalled); [split; [apply c_write|vm_compute; reflexivity]|]. apply rtc_refl.
Qed.

(** The cache is invalidated; a second request starts; the stalled one finishes
    first; the second one finishes. *)
Definition b0 : cstate := mkCState (invalidate (cache stalled) k) (cstore stalled) (clock stalled) (threads stalled).
Definition b1 : cstate := set_thread b0 (cache b0) 1 (Called k 0).
Definition b2 : cstate := set_thread b1 (cache b1) 0 (Done k false).
Definition b3 : cstate := set_thread b2 (cache b2) 1 (Loading k None 1).
Definition b4 : cstate := set_thread b3 (cache b3) 1 (Loaded k None 1 (Some true)).
Definition b5 : cstate :=
  set_thread b4 (set_entries (cache b4) true
                   {[ principalKey "acme" "keystone" "u1" := mkDenyEntry true denyCacheTTL ]}) 1 (Done k true).

Lemma run_after : rtc (denied_step true (slot k)) b0 b5.
Proof.
  assert (∀ s s', cstep true s s' → gen (cache s) = 1 → cstore s' = st1 → denied_step true (slot k) s s') as Hst.
  { intros s s' Hs Hg E. split; [split; [done|rewrite Hg; lia]|rewrite E; apply st1_denies]. }
  apply (rtc_l _ _ b1); [apply Hst; [by apply c_call|done..]|].
  apply (rtc_l _ _ b2); [apply Hst; [eapply c_finish; [vm_compute; reflexivity|vm_compute; reflexivity]|done..]|].
  apply (rtc_l _ _ b3); [apply Hst; [eapply c_miss; [vm_compute; reflexivity|vm_compute; reflexivity]|done..]|].
  apply (rtc_l _ _ b4); [apply Hst; [eapply c_load; [vm_compute; reflexivity|left; vm_compute; reflexivity]|done..]|].
  apply (rtc_l _ _ b5); [apply Hst; [eapply c_finish; [vm_compute; reflexivity|vm_compute; reflexivity]|done..]|].
  apply rtc_refl.
Qed.

(** Only the store is written, and the ttl passes. *)
Definition c0 : cstate := start_state denyCacheTTL true st1 0.
Definition c1 : cstate := mkCState (cache c0) (cstore c0) (clock c0 + denyCacheTTL) (threads c0).
Definition c2 : cstate := set_thread c1 (cache c1) 0 (Called k denyCacheTTL).
Definition c3 : cstate := set_thread c2 (cache c2) 0 (Loading k None 0).
Definition c4 : cstate := set_thread c3 (cache c3) 0 (Loaded k None 0 None).
Definition c5 : cstate := set_thread c4 (cache c4) 0 (Done k true).

Lemma run_ttl : rtc (denied_step true (slot k)) c0 c1 ∧ rtc (denied_step true (slot k)) c1 c5.
Proof.
  assert (∀ s s', cstep true s s' → gen (cache s) = 0 → cstore s' = st1 → denied_step true (slot k) s s') as Hst.
  { intros s s' Hs Hg E. split; [split; [done|rewrite Hg; lia]|rewrite E; apply st1_denies]. }
  split; [apply rtc_once, Hst; [by apply c_tick|done..]|].
  apply (rtc_l _ _ c2); [apply Hst; [by apply c_call|done..]|].
  apply (rtc_l _ _ c3); [apply Hst; [eapply c_miss; [vm_compute; reflexivity|vm_compute; reflexivity]|done..]|].
  apply (rtc_l _ _ c4); [apply Hst; [eapply c_load; [vm_compute; reflexivity|by right]|done..]|].
  apply (rtc_l _ _ c5); [apply Hst; [eapply c_finish; [vm_compute; reflexivity|vm_compute; reflexivity]|done..]|].
  apply rtc_refl.
Qed.

End DenyFixture.

Lemma invalidation_beats_cache_witness :
  threads DenyFixture.b5 !! 0%nat = Some (Done DenyFixture.k false) ∧
  ∀ v, threads DenyFixture.b5 !! 1%nat = Some (Done DenyFixture.k v) → v = true.
Proof.
  split; [vm_compute; reflexivity|]. intros v Hv.
  apply (invalidation_beats_cache true true denyCacheTTL 0 DenyFixture.st0 DenyFixture.stalled DenyFixture.b5
           DenyFixture.k DenyFixture.k 1 v);
    [exact DenyFixture.stalled_reachable|vm_compute; reflexivity|exact DenyFixture.st1_denies|right; reflexivity
    |exact DenyFixture.run_after|vm_compute; reflexivity|exact Hv|reflexivity].
Defined.

Lemma stale_allow_lapses_witness :
  ∀ v, threads DenyFixture.c5 !! 0%nat = Some (Done DenyFixture.k v) → v = true.
Proof.
  intros v Hv.
  apply (stale_allow_lapses true true denyCacheTTL 0 DenyFixture.st1 DenyFixture.c0 DenyFixture.c1 DenyFixture.c5
           DenyFixture.k DenyFixture.k 0 v);
    [apply rtc_refl|right; reflexivity|intros j k2 ent g Hj; discriminate Hj|exact (proj1 DenyFixture.run_ttl)
    |vm_compute; discriminate|reflexivity|exact (proj2 DenyFixture.run_ttl)|exact Hv|reflexivity].
Defined.
