(* ===== verification/Overlay.v ===== *)
(** * Overlay addresses and pages
    (src/internal/controller/overlay.go, pagination.go)

    The allocator of per-session client addresses, the stable machine addresses, the
    host addresses of an arbitrary subnet, and the page bounds of the list views.
    The theorems: an allocated address was free and is in its range, allocation
    fails only when the pool is exhausted, the subnet allocator terminates and finds
    the first free host, and the pages of a list tile it. *)
From Stdlib Require Import ZArith Lia Strings.Byte.
From stdpp Require Import base gmap fin_maps sets numbers pretty list strings.
From S2P Require Import Prelude.

Local Open Scope Z_scope.

(** ** Session addresses *)

Definition OverlayResolverIP : string := "100.64.0.53".
Definition overlayClientFirst : Z := 128.
Definition overlayClientLast : Z := 254.
Definition overlayMachineFirst : Z := 2.
Definition overlayMachineLast : Z := 126.

(** [fmt.Sprintf("100.64.0.%d", x)]. *)
Definition overlay_ip (x : Z) : string := String.append "100.64.0." (pretty x).

Record overlayAllocator := mkOverlay { used : gset string; next : Z }.

Definition newOverlayAllocator : overlayAllocator := mkOverlay ∅ overlayClientFirst.

Definition span : nat := Z.to_nat (overlayClientLast - overlayClientFirst + 1).

Fixpoint alloc_loop (n : nat) (a : overlayAllocator) : option string * overlayAllocator :=
  match n with
  | O => (None, a)
  | S n' =>
      let x := next a in
      let nx := if overlayClientLast <? next a + 1 then overlayClientFirst else next a + 1 in
      let ip := overlay_ip x in
      if bool_decide (ip ∈ used a) then alloc_loop n' (mkOverlay (used a) nx)
      else (Some ip, mkOverlay ({[ip]} ∪ used a) nx)
  end.

Definition alloc (a : overlayAllocator) : option string * overlayAllocator := alloc_loop span a.

Definition release (a : overlayAllocator) (ip : string) : overlayAllocator :=
  if bool_decide (ip = "") then a else mkOverlay (used a ∖ {[ip]}) (next a).

(** ** Machine addresses *)

Fixpoint machine_loop (n : nat) (x : Z) (used : gset string) : option string :=
  match n with
  | O => None
  | S n' =>
      let ip := overlay_ip x in
      if bool_decide (ip = OverlayResolverIP) || bool_decide (ip ∈ used)
      then machine_loop n' (x + 1) used else Some ip
  end.

Definition allocMachineIP (used : gset string) : option string :=
  machine_loop (Z.to_nat (overlayMachineLast - overlayMachineFirst + 1)) overlayMachineFirst used.

(** ** Hosts of a subnet *)

(** A [net.IP] is its bytes, most significant first. *)
Definition ip_value (ip : bytes) : Z := foldl (λ v b, v * 256 + Z_of_byte b) 0 ip.

(** [incIP], least significant byte first: increment, stop unless it wrapped to 0. *)
Fixpoint inc_bytes (rev_ip : bytes) : bytes :=
  match rev_ip with
  | [] => []
  | b :: r =>
      let b' := byte_of_Z (Z_of_byte b + 1) in
      if Z_of_byte b' =? 0 then b' :: inc_bytes r else b' :: r
  end.
Definition incIP (ip : bytes) : bytes := rev (inc_bytes (rev ip)).

(** A parsed subnet: its network address (already masked), 4 bytes or 16, and the
    number of leading ones of its mask. *)
Record IPNet := mkIPNet { net_ip : bytes; ones : Z }.
Definition bits (n : IPNet) : Z := 8 * Z.of_nat (length (net_ip n)).
Definition host_bits (n : IPNet) : Z := bits n - ones n.

(** [ipnet.Contains]: the same network number. *)
Definition Contains (n : IPNet) (ip : bytes) : bool :=
  (length ip =? length (net_ip n))%nat && (Z.shiftr (ip_value ip) (host_bits n) =? Z.shiftr (ip_value (net_ip n)) (host_bits n)).

(** Only IPv4 subnets have a broadcast address. *)
Definition isBroadcast (ip : bytes) (n : IPNet) : bool :=
  (length ip =? 4)%nat && (Z.lor (ip_value ip) (Z.ones (host_bits n)) =? ip_value ip).

Section Subnet.
(** [net.IP.String]. *)
Variable ip_string : bytes → string.

(** The search loop, with the number of iterations it may take. *)
Fixpoint cidr_loop (fuel : nat) (n : IPNet) (controller cur : bytes) (used : gset string)
    : option (option string) :=
  if negb (Contains n cur) then Some None
  else
    match fuel with
    | O => None
    | S fuel' =>
        let s := ip_string cur in
        if negb (isBroadcast cur n) && negb (bool_decide (s = ip_string controller)) && negb (bool_decide (s ∈ used))
        then Some (Some s)
        else cidr_loop fuel' n controller (incIP cur) used
    end.

Inductive cidr_err : Type := BadCIDR | TooSmall | Exhausted.

(** [net.ParseCIDR] gives [parsed]; a subnet of [h] host bits has [2^h] addresses. *)
Definition allocIPInCIDR (parsed : option IPNet) (used : gset string) : option (result cidr_err string) :=
  match parsed with
  | None => Some (Err BadCIDR)
  | Some n =>
      if host_bits n <? 2 then Some (Err TooSmall)
      else
        let controller := incIP (net_ip n) in
        match cidr_loop (Z.to_nat (2 ^ host_bits n)) n controller (incIP controller) used with
        | None => None
        | Some (Some s) => Some (Ok s)
        | Some None => Some (Err Exhausted)
        end
  end.
End Subnet.

(** ** Pages *)

Definition defaultPageLimit : Z := 100.
Definition maxPageLimit : Z := 1000.

Record Page := mkPage { Limit : Z; Offset : Z }.

Definition normalize (p : Page) : Z * Z :=
  let limit := if Limit p <=? 0 then defaultPageLimit else Limit p in
  let limit := if maxPageLimit <? limit then maxPageLimit else limit in
  let offset := if Offset p <? 0 then 0 else Offset p in
  (limit, offset).

Definition bounds (p : Page) (total : Z) : Z * Z :=
  let '(limit, offset) := normalize p in
  let lo := if total <? offset then total else offset in
  let hi := if total <? lo + limit then total else lo + limit in
  (lo, hi).

(** [all[lo:hi]]. *)
Definition page_of {A : Type} (p : Page) (all : list A) : list A :=
  let '(lo, hi) := bounds p (Z.of_nat (length all)) in
  take (Z.to_nat (hi - lo)) (drop (Z.to_nat lo) all).

(** ** Lemmas *)

Lemma overlay_ip_inj (x y : Z) : overlay_ip x = overlay_ip y → x = y.
Proof. unfold overlay_ip. cbn. intros E. by injection E as E%(inj pretty). Qed.

Definition in_clients (x : Z) : Prop := overlayClientFirst ≤ x ≤ overlayClientLast.

(** The [i]-th address the search looks at. *)
Definition nth_client (nx : Z) (i : Z) : Z := overlayClientFirst + (nx - overlayClientFirst + i) mod 127.

Lemma alloc_loop_spec (n : nat) (a : overlayAllocator) :
  in_clients (next a) →
  let '(r, a') := alloc_loop n a in
  in_clients (next a') ∧
  match r with
  | Some ip => (ip ∉ used a) ∧ used a' = {[ip]} ∪ used a ∧ ∃ x, in_clients x ∧ ip = overlay_ip x
  | None => used a' = used a ∧ ∀ i, (i < n)%nat → overlay_ip (nth_client (next a) (Z.of_nat i)) ∈ used a
  end.
Proof.
  unfold in_clients, nth_client, overlayClientFirst, overlayClientLast.
  revert a. induction n as [|n IH]; intros a Ha; cbn [alloc_loop].
  { split; [done|]. split; [done|]. lia. }
  set (nx := if overlayClientLast <? next a + 1 then overlayClientFirst else next a + 1).
  assert (128 ≤ nx ≤ 254 ∧ (nx - 128) mod 127 = (next a - 128 + 1) mod 127) as [Hnx Hmod].
  { unfold nx, overlayClientLast, overlayClientFirst. destruct (Z.ltb_spec 254 (next a + 1)); split; try lia.
    - replace (next a) with 254 by lia. done.
    - f_equal. lia. }
  case_bool_decide as Hu; [|split; [done|]; split_and!; [done|done|by exists (next a)]].
  specialize (IH (mkOverlay (used a) nx) Hnx). cbn [used next] in IH.
  destruct (alloc_loop n (mkOverlay (used a) nx)) as [[ip|] a']; destruct IH as (Hr & IH); split; auto.
  destruct IH as [Hus Hall]. split; [done|]. intros [|i] Hi.
  - rewrite Z.add_0_r, Z.mod_small by lia. by replace (128 + (next a - 128)) with (next a) by lia.
  - specialize (Hall i ltac:(lia)). rewrite <- Z.add_mod_idemp_l, Hmod, Z.add_mod_idemp_l in Hall by lia.
    replace (next a - 128 + Z.of_nat (S i)) with (next a - 128 + 1 + Z.of_nat i) by lia. done.
Qed.

Lemma machine_loop_spec (n : nat) (x : Z) (us : gset string) :
  match machine_loop n x us with
  | Some ip => (ip ∉ us) ∧ ip ≠ OverlayResolverIP ∧ ∃ y, x ≤ y < x + Z.of_nat n ∧ ip = overlay_ip y
  | None => ∀ y, x ≤ y < x + Z.of_nat n → overlay_ip y = OverlayResolverIP ∨ overlay_ip y ∈ us
  end.
Proof.
  revert x. induction n as [|n IH]; intros x; cbn [machine_loop]; [lia|].
  destruct (bool_decide_reflect (overlay_ip x = OverlayResolverIP)) as [Hr|Hr],
    (bool_decide_reflect (overlay_ip x ∈ us)) as [Hu|Hu]; cbn [orb];
    try (specialize (IH (x + 1)); destruct (machine_loop n (x + 1) us) as [ip|];
         [destruct IH as (? & ? & y & ? & ?); split_and!; [done|done|exists y; split; [lia|done]]
         |intros y Hy; destruct (decide (y = x)) as [->|]; [auto|apply IH; lia]]).
  split_and!; [done|done|]. exists x. split; [lia|done].
Qed.

(** *** Addresses as numbers *)

Fixpoint le_value (l : bytes) : Z :=
  match l with [] => 0 | b :: r => Z_of_byte b + 256 * le_value r end.

Lemma le_value_bound (l : bytes) : 0 ≤ le_value l < 256 ^ Z.of_nat (length l).
Proof.
  induction l as [|b l IH]; [done|]. cbn [le_value length]. pose proof (Z_of_byte_range b).
  rewrite Nat2Z.inj_succ, Z.pow_succ_r by lia. lia.
Qed.

Lemma le_value_app (l1 l2 : bytes) :
  le_value (l1 ++ l2) = le_value l1 + 256 ^ Z.of_nat (length l1) * le_value l2.
Proof.
  induction l1 as [|b l1 IH]; cbn [app le_value length]; [lia|].
  rewrite IH, Nat2Z.inj_succ, Z.pow_succ_r by lia. ring.
Qed.

Lemma ip_value_le (ip : bytes) : ip_value ip = le_value (rev ip).
Proof.
  unfold ip_value. rewrite <- (rev_involutive ip) at 1. induction (rev ip) as [|b l IH]; [done|].
  cbn [rev le_value]. rewrite foldl_app. cbn [foldl]. rewrite IH. lia.
Qed.

Lemma inc_bytes_value (l : bytes) :
  le_value (inc_bytes l) = (le_value l + 1) mod 256 ^ Z.of_nat (length l) ∧ length (inc_bytes l) = length l.
Proof.
  induction l as [|b l [IHv IHl]]; cbn [inc_bytes]; [done|].
  pose proof (Z_of_byte_range b) as Hb. pose proof (le_value_bound l) as Hl.
  rewrite Z_of_byte_of_Z. cbn [length]. rewrite Nat2Z.inj_succ, Z.pow_succ_r by lia.
  assert (0 < 256 ^ Z.of_nat (length l)) as Hp by (apply Z.pow_pos_nonneg; lia).
  destruct (Z.eqb_spec ((Z_of_byte b + 1) mod 256) 0) as [E|E]; cbn [le_value length]; rewrite Z_of_byte_of_Z.
  - assert (Z_of_byte b = 255) as Hbv.
    { destruct (decide (Z_of_byte b = 255)); [done|]. rewrite Z.mod_small in E; lia. }
    split; [|lia]. rewrite Hbv, IHv.
    replace (255 + 256 * le_value l + 1) with (256 * (le_value l + 1)) by lia.
    by rewrite Z.mul_mod_distr_l by lia.
  - assert (Z_of_byte b + 1 < 256) as Hlt.
    { destruct (decide (Z_of_byte b + 1 < 256)); [done|]. replace (Z_of_byte b + 1) with 256 in E by lia. done. }
    split; [|lia]. rewrite Z.mod_small by lia. cbn [le_value]. rewrite Z.mod_small; nia.
Qed.

Lemma ip_value_bound (ip : bytes) : 0 ≤ ip_value ip < 256 ^ Z.of_nat (length ip).
Proof. rewrite ip_value_le. pose proof (le_value_bound (rev ip)) as H. by rewrite length_rev in H. Qed.

Lemma incIP_value (ip : bytes) :
  ip_value (incIP ip) = (ip_value ip + 1) mod 256 ^ Z.of_nat (length ip) ∧ length (incIP ip) = length ip.
Proof.
  unfold incIP. rewrite !ip_value_le, rev_involutive, length_rev.
  destruct (inc_bytes_value (rev ip)) as [-> ->]. by rewrite length_rev.
Qed.

(** The [k]-th address of a subnet. *)
Fixpoint ip_at (n : IPNet) (k : nat) : bytes :=
  match k with O => net_ip n | S k' => incIP (ip_at n k') end.

Definition subnet_ok (n : IPNet) : Prop :=
  (length (net_ip n) = 4 ∨ length (net_ip n) = 16)%nat ∧ 0 < ones n ≤ bits n ∧
  ip_value (net_ip n) mod 2 ^ host_bits n = 0.

Lemma subnet_size (n : IPNet) : subnet_ok n →
  256 ^ Z.of_nat (length (net_ip n)) = 2 ^ ones n * 2 ^ host_bits n ∧ 0 < 2 ^ host_bits n ∧ 2 ≤ 2 ^ ones n ∧
  ∃ q, ip_value (net_ip n) = q * 2 ^ host_bits n ∧ 0 ≤ q < 2 ^ ones n.
Proof.
  intros (_ & Ho & Hm).
  assert (256 ^ Z.of_nat (length (net_ip n)) = 2 ^ ones n * 2 ^ host_bits n) as Hs.
  { rewrite <- Z.pow_add_r by (unfold host_bits; lia). change 256 with (2 ^ 8). rewrite <- Z.pow_mul_r by lia.
    f_equal. unfold host_bits, bits. lia. }
  assert (0 < 2 ^ host_bits n) as Hp by (apply Z.pow_pos_nonneg; unfold host_bits; lia).
  assert (2 ^ 1 ≤ 2 ^ ones n) as H2 by (apply Z.pow_le_mono_r; lia).
  split_and!; [done|done|lia|]. exists (ip_value (net_ip n) / 2 ^ host_bits n).
  pose proof (Z.div_mod (ip_value (net_ip n)) (2 ^ host_bits n) ltac:(lia)) as Hd.
  pose proof (ip_value_bound (net_ip n)) as Hb. split; [lia|]. split; [apply Z.div_pos; lia|].
  apply Z.div_lt_upper_bound; lia.
Qed.

Lemma ip_at_value (n : IPNet) (k : nat) : subnet_ok n → Z.of_nat k < 2 ^ host_bits n →
  ip_value (ip_at n k) = ip_value (net_ip n) + Z.of_nat k ∧ length (ip_at n k) = length (net_ip n).
Proof.
  intros Hn. destruct (subnet_size n Hn) as (Hs & Hp & H2 & q & Hq & Hqr).
  induction k as [|k IH]; intros Hk; [split; [cbn [ip_at]; lia|done]|]. cbn [ip_at].
  destruct IH as [IHv IHl]; [lia|]. destruct (incIP_value (ip_at n k)) as [Hv Hl].
  split; [|congruence]. rewrite Hv, IHv, IHl, Hs, Hq. rewrite Z.mod_small; [lia|]. nia.
Qed.

Lemma Contains_at (n : IPNet) (k : nat) : subnet_ok n → Z.of_nat k ≤ 2 ^ host_bits n →
  Contains n (ip_at n k) = bool_decide (Z.of_nat k < 2 ^ host_bits n).
Proof.
  intros Hn Hk. destruct (subnet_size n Hn) as (Hs & Hp & H2 & q & Hq & Hqr). pose proof Hn as (_ & Ho & _).
  assert (0 ≤ host_bits n) as Hh by (unfold host_bits; lia).
  unfold Contains. rewrite !Z.shiftr_div_pow2 by done.
  destruct (decide (Z.of_nat k < 2 ^ host_bits n)) as [Hlt|Hge].
  - destruct (ip_at_value n k Hn Hlt) as [-> ->]. rewrite Nat.eqb_refl, bool_decide_eq_true_2 by done.
    apply Z.eqb_eq. rewrite Hq, Z.div_add_l, Z.div_mul, Z.div_small by lia. lia.
  - rewrite bool_decide_eq_false_2 by done. apply andb_false_iff. right. apply Z.eqb_neq.
    destruct k as [|k]; [cbn in Hge; lia|]. cbn [ip_at].
    destruct (ip_at_value n k Hn ltac:(lia)) as [Hv Hl]. destruct (incIP_value (ip_at n k)) as [Hv' _].
    rewrite Hv', Hv, Hl, Hs, Hq. replace (q * 2 ^ host_bits n + Z.of_nat k + 1) with ((q + 1) * 2 ^ host_bits n) by lia.
    rewrite Z.mul_mod_distr_r, !Z.div_mul by lia. intros E.
    destruct (decide (q + 1 = 2 ^ ones n)) as [E1|]; [rewrite E1, Z.mod_same in E; lia|rewrite Z.mod_small in E; lia].
Qed.

Lemma Contains_at_false (n : IPNet) : subnet_ok n → Contains n (ip_at n (Z.to_nat (2 ^ host_bits n))) = false.
Proof.
  intros Hn. destruct (subnet_size n Hn) as (_ & Hp & _).
  rewrite Contains_at by (done || lia). apply bool_decide_eq_false_2. lia.
Qed.

(** Whether an address of a subnet may be handed out: not its broadcast address. *)
Definition usable (n : IPNet) (k : nat) : bool := negb (isBroadcast (ip_at n k) n).

Lemma cidr_loop_spec (ip_string : bytes → string) (n : IPNet) (us : gset string) (fuel k : nat) :
  subnet_ok n → (∀ i j, Z.of_nat i < 2 ^ host_bits n → Z.of_nat j < 2 ^ host_bits n →
     ip_string (ip_at n i) = ip_string (ip_at n j) → i = j) →
  2 ≤ host_bits n → (2 ≤ k)%nat → Z.of_nat k ≤ 2 ^ host_bits n → 2 ^ host_bits n - Z.of_nat k ≤ Z.of_nat fuel →
  ∃ r, cidr_loop ip_string fuel n (ip_at n 1) (ip_at n k) us = Some r ∧
    match r with
    | Some s => ∃ j, (k ≤ j)%nat ∧ Z.of_nat j < 2 ^ host_bits n ∧ usable n j = true ∧ s = ip_string (ip_at n j) ∧
        (s ∉ us) ∧ ∀ i, (k ≤ i < j)%nat → usable n i = false ∨ ip_string (ip_at n i) ∈ us
    | None => ∀ i, (k ≤ i)%nat → Z.of_nat i < 2 ^ host_bits n → usable n i = false ∨ ip_string (ip_at n i) ∈ us
    end.
Proof.
  intros Hn Hinj Hh. revert k. induction fuel as [|fuel IH]; intros k Hk2 Hk Hf.
  - assert (Z.of_nat k = 2 ^ host_bits n) as Ek by lia. exists None. cbn [cidr_loop].
    rewrite Contains_at, bool_decide_eq_false_2 by (done || lia). split; [done|]. intros i Hi Hi2. lia.
  - cbn [cidr_loop]. rewrite Contains_at by (done || lia). case_bool_decide as Hlt; cbn [negb];
      [|exists None; split; [done|]; intros; lia].
    assert (4 ≤ 2 ^ host_bits n) as H4 by (change 4 with (2 ^ 2); apply Z.pow_le_mono_r; lia).
    rewrite (bool_decide_eq_false_2 (ip_string (ip_at n k) = _)) by (intros E; apply Hinj in E; lia).
    fold (usable n k). destruct (usable n k) eqn:Eu; cbn [andb negb].
    + case_bool_decide as Hu; cbn [negb].
      * destruct (IH (S k)) as (r & Hr & Hspec); [lia..|]. exists r. split; [exact Hr|]. clear Hr.
        destruct r as [s|].
        -- destruct Hspec as (j & ? & ? & ? & ? & ? & Hall). exists j. split_and!; auto; [lia|].
           intros i Hi. destruct (decide (i = k)) as [->|]; [auto|apply Hall; lia].
        -- intros i Hi Hi2. destruct (decide (i = k)) as [->|]; [auto|apply Hspec; lia].
      * eexists. split; [done|]. exists k. split_and!; auto; lia.
    + destruct (IH (S k)) as (r & Hr & Hspec); [lia..|]. exists r. split; [exact Hr|]. clear Hr.
      destruct r as [s|].
      * destruct Hspec as (j & ? & ? & ? & ? & ? & Hall). exists j. split_and!; auto; [lia|].
        intros i Hi. destruct (decide (i = k)) as [->|]; [auto|apply Hall; lia].
      * intros i Hi Hi2. destruct (decide (i = k)) as [->|]; [auto|apply Hspec; lia].
Qed.

(** Whatever the counter, an allocated address was free and is marked. *)
Lemma alloc_marks (a : overlayAllocator) :
  match alloc a with
  | (Some ip, a') => (ip ∉ used a) ∧ used a' = {[ip]} ∪ used a ∧ ip ≠ ""
  | (None, a') => used a' = used a
  end.
Proof.
  unfold alloc. generalize span. intros n. revert a. induction n as [|n IH]; intros a; [done|].
  cbn [alloc_loop]. set (nx := if _ <? _ then _ else _). case_bool_decide as E.
  - specialize (IH (mkOverlay (used a) nx)). destruct (alloc_loop n _) as [[ip|] a']; exact IH.
  - done.
Qed.

(** ** Theorems *)

(** [overlay.go, alloc and release] The allocator is sound and complete.  From
    any state reached by allocating and releasing, an allocated address is one of
    the 127 client addresses, was free and is marked; allocation fails only if all
    of them are taken; and what is released is free again. *)
Theorem alloc_sound (ops : list (option string)) :
  let step a (op : option string) := match op with None => (alloc a).2 | Some ip => release a ip end in
  let a := foldl step newOverlayAllocator ops in
  (match alloc a with
   | (Some ip, a') => (ip ∉ used a) ∧ used a' = {[ip]} ∪ used a ∧
       ∃ x, overlayClientFirst ≤ x ≤ overlayClientLast ∧ ip = overlay_ip x
   | (None, a') => used a' = used a ∧
       ∀ x, overlayClientFirst ≤ x ≤ overlayClientLast → overlay_ip x ∈ used a
   end) ∧
  ∀ ip, ip ≠ "" → ip ∉ used (release a ip).
Proof.
  intros step a. assert (in_clients (next a)) as Ha.
  { unfold a. assert (in_clients (next newOverlayAllocator)) as H0 by done. revert H0.
    generalize newOverlayAllocator as b. induction ops as [|op ops IH]; intros b Hb; [done|].
    cbn [foldl]. apply IH. destruct op as [ip|]; cbn.
    - unfold release. by case_bool_decide.
    - pose proof (alloc_loop_spec span b Hb) as Hs. unfold alloc. destruct (alloc_loop span b). by destruct Hs. }
  split.
  - pose proof (alloc_loop_spec span a Ha) as Hs. unfold alloc.
    destruct (alloc_loop span a) as [[ip|] a']; destruct Hs as (_ & Hs); [done|].
    destruct Hs as [Hus Hall]. split; [done|]. intros x Hx.
    unfold in_clients, overlayClientFirst, overlayClientLast in *.
    pose proof (Z.mod_pos_bound (x - next a) 127 ltac:(lia)).
    specialize (Hall (Z.to_nat ((x - next a) mod 127)) ltac:(change span with 127%nat; lia)).
    unfold nth_client, overlayClientFirst in Hall. rewrite Z2Nat.id in Hall by lia.
    rewrite Z.add_mod_idemp_r, Z.mod_small in Hall by lia.
    by replace (128 + (next a - 128 + (x - next a))) with x in Hall by lia.
  - intros ip Hip. unfold release. rewrite bool_decide_eq_false_2 by done. cbn. set_solver.
Qed.

(** [overlay.go, allocMachineIP] A machine address is free, is not the resolver's and
    is in its range; the search fails only if every other one is taken. *)
Theorem allocMachineIP_spec (us : gset string) :
  match allocMachineIP us with
  | Some ip => (ip ∉ us) ∧ ip ≠ OverlayResolverIP ∧
      ∃ x, overlayMachineFirst ≤ x ≤ overlayMachineLast ∧ ip = overlay_ip x
  | None => ∀ x, overlayMachineFirst ≤ x ≤ overlayMachineLast →
      overlay_ip x = OverlayResolverIP ∨ overlay_ip x ∈ us
  end.
Proof.
  unfold allocMachineIP. pose proof (machine_loop_spec 125 2 us) as H.
  change (Z.to_nat (overlayMachineLast - overlayMachineFirst + 1)) with 125%nat. change overlayMachineFirst with 2.
  unfold overlayMachineFirst, overlayMachineLast.
  destruct (machine_loop 125 2 us).
  - destruct H as (? & ? & x & ? & ?). split_and!; [done|done|]. exists x. split; [lia|done].
  - intros x Hx. apply H. lia.
Qed.

(** [overlay.go, allocIPInCIDR] The subnet allocator terminates and is exact.
    For any subnet that is not the whole address space, with distinct addresses
    printed differently, the search stops within the size of the subnet; it returns
    the first host after the reserved ones that is not the broadcast address and not
    taken, and reports exhaustion only if there is none. *)
Theorem allocIPInCIDR_spec (ip_string : bytes → string) (n : IPNet) (us : gset string) :
  subnet_ok n → (∀ i j, Z.of_nat i < 2 ^ host_bits n → Z.of_nat j < 2 ^ host_bits n →
     ip_string (ip_at n i) = ip_string (ip_at n j) → i = j) →
  let free k := usable n k = true ∧ ip_string (ip_at n k) ∉ us in
  match allocIPInCIDR ip_string (Some n) us with
  | Some (Ok s) => ∃ k, (2 ≤ k)%nat ∧ Z.of_nat k < 2 ^ host_bits n ∧ free k ∧ s = ip_string (ip_at n k) ∧
      ∀ j, (2 ≤ j < k)%nat → ¬ free j
  | Some (Err TooSmall) => host_bits n < 2
  | Some (Err Exhausted) => 2 ≤ host_bits n ∧ ∀ k, (2 ≤ k)%nat → Z.of_nat k < 2 ^ host_bits n → ¬ free k
  | _ => False
  end.
Proof.
  intros Hn Hinj free. unfold allocIPInCIDR. destruct (Z.ltb_spec (host_bits n) 2) as [|Hh]; [done|].
  assert (4 ≤ 2 ^ host_bits n) as H4 by (change 4 with (2 ^ 2); apply Z.pow_le_mono_r; lia).
  change (incIP (net_ip n)) with (ip_at n 1). change (incIP (ip_at n 1)) with (ip_at n 2).
  destruct (cidr_loop_spec ip_string n us (Z.to_nat (2 ^ host_bits n)) 2 Hn Hinj Hh) as (r & -> & Hr); [lia..|].
  assert (∀ k, usable n k = false ∨ ip_string (ip_at n k) ∈ us → ¬ free k) as Hnf
    by (intros k [E|E] [? ?]; congruence).
  destruct r as [s|].
  - destruct Hr as (k & Hk & Hk2 & Hu & -> & Hnot & Hall). exists k.
    split; [done|]. split; [done|]. split; [by split|]. split; [done|].
    intros j Hj. apply Hnf, Hall. lia.
  - split; [done|]. intros k Hk Hk2. apply Hnf, Hr; lia.
Qed.

Lemma subnet29_ok : subnet_ok (mkIPNet [x0a; x07; x00; x00] 29).
Proof. split; [by left|]. split; [unfold bits; cbn; lia|vm_compute; reflexivity]. Qed.

Lemma allocIPInCIDR_spec_witness :
  let n := mkIPNet [x0a; x07; x00; x00] 29 in
  let us : gset string := {[ "2"; "4" ]} in
  let show (ip : bytes) := pretty (ip_value ip - ip_value [x0a; x07; x00; x00]) in
  let free k := usable n k = true ∧ show (ip_at n k) ∉ us in
  match allocIPInCIDR show (Some n) us with
  | Some (Ok s) => ∃ k, (2 ≤ k)%nat ∧ Z.of_nat k < 2 ^ host_bits n ∧ free k ∧ s = show (ip_at n k) ∧
      ∀ j, (2 ≤ j < k)%nat → ¬ free j
  | Some (Err TooSmall) => host_bits n < 2
  | Some (Err Exhausted) => 2 ≤ host_bits n ∧ ∀ k, (2 ≤ k)%nat → Z.of_nat k < 2 ^ host_bits n → ¬ free k
  | _ => False
  end.
Proof.
  intros n us show. apply (allocIPInCIDR_spec show n us).
  - exact subnet29_ok.
  - intros i j Hi Hj E. unfold show in E. apply (inj pretty) in E. pose proof subnet29_ok as Hn.
    destruct (ip_at_value n i Hn Hi) as [Ei _]. destruct (ip_at_value n j Hn Hj) as [Ej _]. lia.
Defined.

(** [pagination.go, bounds] Pages of any size tile a list: following the offsets from 0
    in steps of the normalized limit gives back every element once, in order. *)
Theorem pages_tile {A : Type} (limit : Z) (all : list A) (n : nat) :
  let lim := (normalize (mkPage limit 0)).1 in
  concat ((λ i, page_of (mkPage limit (Z.of_nat i * lim)) all) <$> seq 0 n) = take (n * Z.to_nat lim) all.
Proof.
  intros lim. assert (0 < lim ≤ maxPageLimit) as Hlim.
  { unfold lim, normalize, defaultPageLimit, maxPageLimit. cbn. destruct (Z.leb_spec limit 0); cbn; [lia|].
    destruct (Z.ltb_spec 1000 limit); cbn; lia. }
  assert (∀ i, page_of (mkPage limit (Z.of_nat i * lim)) all
               = take (Z.to_nat lim) (drop (i * Z.to_nat lim) all)) as Hp.
  { intros i. unfold page_of, bounds.
    assert (normalize (mkPage limit (Z.of_nat i * lim)) = (lim, Z.of_nat i * lim)) as ->.
    { unfold normalize. cbn [Limit Offset]. by rewrite (proj2 (Z.ltb_ge (Z.of_nat i * lim) 0)) by nia. }
    assert (Z.to_nat (Z.of_nat i * lim) = (i * Z.to_nat lim)%nat) as Ei by (rewrite Z2Nat.inj_mul, Nat2Z.id by lia; done).
    destruct (Z.ltb_spec (Z.of_nat (length all)) (Z.of_nat i * lim)) as [Hgt|Hle].
    - rewrite (proj2 (Z.ltb_lt _ _)) by lia. rewrite (drop_ge all (i * Z.to_nat lim)) by lia.
      rewrite Nat2Z.id, drop_all. by rewrite !take_nil.
    - rewrite Ei. destruct (Z.ltb_spec (Z.of_nat (length all)) (Z.of_nat i * lim + lim)).
      + rewrite !take_ge; [done|rewrite length_drop; lia..].
      + f_equal. lia. }
  induction n as [|n IH]; [done|]. rewrite seq_S, fmap_app, concat_app, IH. cbn [fmap list_fmap concat Nat.add].
  rewrite app_nil_r, Hp, Nat.mul_succ_l. by rewrite take_take_drop.
Qed.
