(* ===== verification/Proc.v ===== *)
(** * Handlers as programs of atomic actions

    The controller's handlers run concurrently; each store transaction, each use of
    a structure under its mutex and each message pushed on a stream is atomic, and
    other handlers run between two of them.  A handler is a [prog]: a tree of atomic
    actions on the shared state.  [run] executes one handler alone; [istep]
    interleaves any number of them with the steps of the environment.  [acts R] says
    every action of a program makes a transition of [R], whatever the others did
    before it; it composes over [bind] and loops, so a property of all interleavings
    follows from the transitions the handlers are made of.

    The file also holds the record-update notation of the controller's records and
    bbolt's [db.Update], which rolls back when its closure returns an error. *)
From Stdlib Require Import ZArith Lia.
From stdpp Require Import base gmap list strings relations.
From S2P Require Import Prelude.

(** ** Record update *)

(** [eta r] rebuilds [r] from its projections; a setter replaces one of them. *)
Class Eta (R : Type) := eta : R → R.
Class Setter {R T : Type} (proj : R → T) := set_field : (T → T) → R → R.

Ltac solve_setter :=
  match goal with
  | |- @Setter ?R ?T ?proj =>
      let e := constr:(@eta R _) in
      let e := eval hnf in e in
      exact (fun (f : T -> T) (r : R) =>
        ltac:(let t := eval cbv beta in (e r) in
              match t with
              | context C [proj r] => let t' := context C [f (proj r)] in exact t'
              end))
  end.

#[export] Hint Extern 1 (Setter _) => solve_setter : typeclass_instances.

Notation "r <| p := v |>" := (set_field (proj := p) (fun _ => v) r)
  (at level 1, p at level 200, v at level 200, left associativity,
   format "r  <| p  :=  v |>") : go_scope.
Notation "r <| p ::= f |>" := (set_field (proj := p) f r)
  (at level 1, p at level 200, f at level 200, left associativity,
   format "r  <| p  ::=  f |>") : go_scope.

(** ** Transactions *)

(** [db.Update(fn)]: what the closure wrote is kept only when it returns no error. *)
Definition Update {S E A : Type} (fn : S → result E A * S) (s : S) : result E A * S :=
  match fn s with
  | (Ok a, s') => (Ok a, s')
  | (Err e, _) => (Err e, s)
  end.

Lemma Update_err {S E A : Type} (fn : S → result E A * S) (s s' : S) (e : E) :
  Update fn s = (Err e, s') → s' = s.
Proof. unfold Update. destruct (fn s) as [[] ?]; naive_solver. Qed.

Lemma Update_ok {S E A : Type} (fn : S → result E A * S) (s s' : S) (a : A) :
  Update fn s = (Ok a, s') ↔ fn s = (Ok a, s').
Proof. unfold Update. destruct (fn s) as [[] ?]; naive_solver. Qed.

(** ** Programs *)

Inductive prog (S A : Type) : Type :=
| Ret (a : A)
| Act {X : Type} (act : S → X * S) (k : X → prog S A).
Arguments Ret {S A} a.
Arguments Act {S A X} act k.

Section Prog.
Context {S : Type}.

Fixpoint pbind {A B : Type} (f : A → prog S B) (p : prog S A) : prog S B :=
  match p with
  | Ret a => f a
  | Act act k => Act act (λ x, pbind f (k x))
  end.

#[export] Instance prog_ret : MRet (prog S) := λ A a, Ret a.
#[export] Instance prog_bind : MBind (prog S) := λ A B f p, pbind f p.

(** One atomic action, and the reads and writes it is made of. *)
Definition atomic {X : Type} (act : S → X * S) : prog S X := Act act Ret.
Definition read {X : Type} (f : S → X) : prog S X := atomic (λ s, (f s, s)).
Definition write (f : S → S) : prog S unit := atomic (λ s, (tt, f s)).

(** [for _, x := range xs { f(x) }], and the same with an accumulator. *)
Fixpoint each {A : Type} (xs : list A) (f : A → prog S unit) : prog S unit :=
  match xs with
  | [] => mret tt
  | x :: rest => f x ≫= λ _, each rest f
  end.

Fixpoint each_acc {A B : Type} (xs : list A) (b : B) (f : B → A → prog S B) : prog S B :=
  match xs with
  | [] => mret b
  | x :: rest => f b x ≫= λ b', each_acc rest b' f
  end.

(** [if err != nil { return err }] after a call. *)
Definition bind_ok {E A B : Type} (p : prog S (result E A)) (f : A → prog S (result E B))
    : prog S (result E B) :=
  pbind (λ r, match r with Ok a => f a | Err e => Ret (Err e) end) p.

(** A handler on its own. *)
Fixpoint run {A : Type} (p : prog S A) (s : S) : A * S :=
  match p with
  | Ret a => (a, s)
  | Act act k => let '(x, s') := act s in run (k x) s'
  end.

(** Any number of handlers, interleaved at their actions, in an environment. *)
Inductive istep (env : S → S → Prop) : list (prog S unit) * S → list (prog S unit) * S → Prop :=
| step_act (ts : list (prog S unit)) (i : nat) (X : Type) (act : S → X * S)
    (k : X → prog S unit) (s : S) :
    ts !! i = Some (Act act k) →
    istep env (ts, s) (<[i := k (act s).1]> ts, (act s).2)
| step_env (ts : list (prog S unit)) (s s' : S) :
    env s s' → istep env (ts, s) (ts, s').

(** Every action of the program is a transition of [R]. *)
Fixpoint acts {A : Type} (R : S → S → Prop) (p : prog S A) : Prop :=
  match p with
  | Ret _ => True
  | Act act k => (∀ s, R s (act s).2) ∧ ∀ x, acts R (k x)
  end.

(** The program answers after at most [k] of its actions, whatever it reads. *)
Fixpoint within {A : Type} (k : nat) (p : prog S A) {struct p} : Prop :=
  match p, k with
  | Ret _, _ => True
  | Act _ _, O => False
  | Act _ next, Datatypes.S k => ∀ x, within k (next x)
  end.

Lemma within_bind {A B : Type} (k j : nat) (p : prog S A) (f : A → prog S B) :
  within k p → (∀ a, within j (f a)) → within (k + j) (p ≫= f).
Proof.
  revert k. induction p as [a|X act next IH]; intros k Hp Hf.
  - change (within (k + j) (f a)). specialize (Hf a). clear Hp. revert k. generalize j, Hf. clear.
    induction (f a) as [b|X act next IH]; intros j Hj k; [done|]. destruct j as [|j]; [done|].
    rewrite Nat.add_succ_r. intros x. by apply IH.
  - destruct k as [|k]; [done|]. intros x. by apply IH.
Qed.

Lemma acts_bind {A B : Type} (R : S → S → Prop) (p : prog S A) (f : A → prog S B) :
  acts R p → (∀ a, acts R (f a)) → acts R (p ≫= f).
Proof.
  intros Hp Hf. induction p as [a|X act k IH]; simpl in *; [apply Hf|].
  destruct Hp as [H1 H2]. split; [done|]. intros x. by apply IH.
Qed.

Lemma acts_bind_ok {E A B : Type} (R : S → S → Prop) (p : prog S (result E A))
    (f : A → prog S (result E B)) :
  acts R p → (∀ a, acts R (f a)) → acts R (bind_ok p f).
Proof. intros Hp Hf. apply (acts_bind R p); [done|]. intros [a|e]; [apply Hf|done]. Qed.

Lemma acts_ret {A : Type} (R : S → S → Prop) (a : A) : acts R (mret a : prog S A).
Proof. done. Qed.

Lemma acts_atomic {X : Type} (R : S → S → Prop) (act : S → X * S) :
  (∀ s, R s (act s).2) → acts R (atomic act).
Proof. done. Qed.

Lemma acts_read {X : Type} (R : S → S → Prop) `{!Reflexive R} (f : S → X) : acts R (read f).
Proof. split; simpl; done. Qed.

Lemma acts_each {A : Type} (R : S → S → Prop) (xs : list A) (f : A → prog S unit) :
  (∀ x, acts R (f x)) → acts R (each xs f).
Proof. intros Hf. induction xs; simpl; [done|]. apply acts_bind; [apply Hf|done]. Qed.

Lemma acts_each_acc {A B : Type} (R : S → S → Prop) (xs : list A) (b : B) (f : B → A → prog S B) :
  (∀ b x, acts R (f b x)) → acts R (each_acc xs b f).
Proof.
  intros Hf. revert b. induction xs; intros b; simpl; [done|]. apply acts_bind; [apply Hf|done].
Qed.

Lemma acts_mono {A : Type} (R R' : S → S → Prop) (p : prog S A) :
  (∀ s s', R s s' → R' s s') → acts R p → acts R' p.
Proof. intros HR. induction p; simpl; [done|]. intros [H1 H2]. auto. Qed.

Lemma run_bind {A B : Type} (p : prog S A) (f : A → prog S B) (s : S) :
  run (p ≫= f) s = run (f (run p s).1) (run p s).2.
Proof.
  revert s. induction p as [a|X act k IH]; intros s; simpl; [done|].
  destruct (act s) as [x s']. apply IH.
Qed.

Lemma run_bind_ok {E A B : Type} (p : prog S (result E A)) (f : A → prog S (result E B)) (s : S) :
  run (bind_ok p f) s =
  match (run p s).1 with Ok a => run (f a) (run p s).2 | Err e => (Err e, (run p s).2) end.
Proof.
  unfold bind_ok. change (pbind ?f p) with (p ≫= f). rewrite run_bind. by destruct (run p s).1.
Qed.

Lemma run_acts {A : Type} (R : S → S → Prop) (p : prog S A) (s : S) :
  acts R p → rtc R s (run p s).2.
Proof.
  revert s. induction p as [a|X act k IH]; intros s; simpl; [done|]. intros [H1 H2].
  specialize (H1 s). destruct (act s) as [x s']. simpl in *. eapply rtc_l; [done|]. by apply IH.
Qed.

(** The transitions of an interleaving are those of its handlers and of the
    environment. *)
Lemma interleaving_acts (env R : S → S → Prop) (c c' : list (prog S unit) * S) :
  rtc (istep env) c c' → Forall (acts R) c.1 →
  rtc (λ a b, R a b ∨ env a b) c.2 c'.2 ∧ Forall (acts R) c'.1.
Proof.
  intros Hr. induction Hr as [c|c1 c2 c3 Hs _ IH]; [done|]. intros Hf.
  destruct Hs as [ts i X act k s Hi|ts s s' He]; simpl in *.
  - assert (Hk : acts R (Act act k)) by by eapply Forall_lookup_1. destruct Hk as [H1 H2].
    destruct IH as [IH1 IH2]; [by apply Forall_insert|].
    split; [|done]. eapply rtc_l; [left; apply H1|done].
  - destruct (IH Hf) as [IH1 IH2]. split; [|done]. eapply rtc_l; [by right|done].
Qed.

(** An invariant of every transition is an invariant of every interleaving. *)
Lemma interleaving_invariant (env R : S → S → Prop) (I : S → Prop)
    (ts ts' : list (prog S unit)) (s s' : S) :
  (∀ a b, I a → R a b → I b) → (∀ a b, I a → env a b → I b) → Forall (acts R) ts →
  rtc (istep env) (ts, s) (ts', s') → I s → I s'.
Proof.
  intros HR He Hf Hr. apply (interleaving_acts env R) in Hr as [Hr _]; [|done]. simpl in Hr.
  induction Hr as [|a b c [H|H] _ IH]; eauto.
Qed.

(** The interleaving a list of thread numbers picks. *)
Fixpoint schedule (picks : list nat) (c : list (prog S unit) * S) : list (prog S unit) * S :=
  match picks with
  | [] => c
  | i :: rest =>
      match c.1 !! i with
      | Some (Act act k) => schedule rest (<[i := k (act c.2).1]> c.1, (act c.2).2)
      | _ => schedule rest c
      end
  end.

Lemma schedule_run (env : S → S → Prop) (picks : list nat) (c : list (prog S unit) * S) :
  rtc (istep env) c (schedule picks c).
Proof.
  revert c. induction picks as [|i rest IH]; intros [ts s]; simpl; [done|].
  destruct (ts !! i) as [[a|X act k]|] eqn:E; try apply IH. eapply rtc_l; [|apply IH]. by constructor.
Qed.

End Prog.

(** A program among the steps of an environment: the invariant [I] holds before and
    after every action, wherever it is cut short, and the assertion [Q] of its answer
    holds when it finishes.  [P] and [Q] are facts the environment cannot undo. *)
Section Hoare.
Context {S : Type} (env : S → S → Prop) (I : S → Prop).

Fixpoint safe {A : Type} (p : prog S A) (Q : A → S → Prop) (s : S) : Prop :=
  ∀ s', rtc env s s' →
    I s' ∧ match p with
           | Ret a => Q a s'
           | Act act k => safe (k (act s').1) Q (act s').2
           end.

Definition stable (P : S → Prop) : Prop := ∀ s s', I s → P s → env s s' → P s'.

Definition triple {A : Type} (P : S → Prop) (p : prog S A) (Q : A → S → Prop) : Prop :=
  ∀ s, I s → P s → safe p Q s.

Context (env_I : ∀ s s', I s → env s s' → I s').

Lemma env_rtc (P : S → Prop) (s s' : S) : stable P → rtc env s s' → I s → P s → I s' ∧ P s'.
Proof using env_I. intros HP Hr. induction Hr; [done|]. intros HI Hs. apply IHHr; [by eapply env_I|by eapply HP]. Qed.

Lemma safe_bind {A B : Type} (p : prog S A) (f : A → prog S B) (R : A → S → Prop) (Q : B → S → Prop) (s : S) :
  safe p R s → (∀ a s', I s' → R a s' → safe (f a) Q s') → safe (p ≫= f) Q s.
Proof.
  revert s. induction p as [a|X act k IH]; intros s Hp Hf.
  - destruct (Hp s (rtc_refl _ _)) as [HI HR]. by apply Hf.
  - intros s' Hr. destruct (Hp s' Hr) as [HI Hk]. split; [done|]. by apply IH.
Qed.

Lemma safe_mono {A : Type} (p : prog S A) (Q Q' : A → S → Prop) (s : S) :
  (∀ a s', I s' → Q a s' → Q' a s') → safe p Q s → safe p Q' s.
Proof.
  intros HQ. revert s. induction p as [a|X act k IH]; intros s Hp s' Hr; destruct (Hp s' Hr) as [HI Hk];
    split; auto.
Qed.

Lemma triple_ret {A : Type} (P : S → Prop) (a : A) (Q : A → S → Prop) :
  stable P → (∀ s, I s → P s → Q a s) → triple P (mret a) Q.
Proof using env_I.
  intros HP HQ s HI Hs s' Hr. destruct (env_rtc P s s' HP Hr HI Hs). split; [done|]. by apply HQ.
Qed.

Lemma triple_bind {A B : Type} (P : S → Prop) (p : prog S A) (f : A → prog S B) (R : A → S → Prop)
    (Q : B → S → Prop) :
  triple P p R → (∀ a, triple (R a) (f a) Q) → triple P (p ≫= f) Q.
Proof. intros Hp Hf s HI Hs. apply (safe_bind p f R); [by apply Hp|]. intros a s' HI' HR. by apply Hf. Qed.

Lemma triple_atomic {X : Type} (P : S → Prop) (act : S → X * S) (Q : X → S → Prop) :
  stable P → (∀ x, stable (Q x)) → (∀ s, I s → P s → I (act s).2 ∧ Q (act s).1 (act s).2) →
  triple P (atomic act) Q.
Proof using env_I.
  intros HP HQ H s HI Hs s' Hr. destruct (env_rtc P s s' HP Hr HI Hs) as [HI' Hs']. split; [done|].
  destruct (H s' HI' Hs') as [HI2 HQ2]. intros s2 Hr2. by apply (env_rtc (Q (act s').1) (act s').2 s2).
Qed.

Lemma triple_pre {A : Type} (P P' : S → Prop) (p : prog S A) (Q : A → S → Prop) :
  (∀ s, I s → P' s → P s) → triple P p Q → triple P' p Q.
Proof. intros HP H s HI Hs. apply H; auto. Qed.

Lemma triple_post {A : Type} (P : S → Prop) (p : prog S A) (Q Q' : A → S → Prop) :
  (∀ a s, I s → Q a s → Q' a s) → triple P p Q → triple P p Q'.
Proof. intros HQ H s HI Hs. apply (safe_mono p Q); auto. Qed.

(** A program made of transitions that keep the invariant and an assertion. *)
Lemma triple_acts {A : Type} (R : S → S → Prop) (P : S → Prop) (p : prog S A) :
  stable P → (∀ s s', I s → P s → R s s' → I s' ∧ P s') → acts R p → triple P p (λ _, P).
Proof using env_I.
  intros HP HR. induction p as [a|X act k IH]; intros Ha s HI Hs s' Hr;
    destruct (env_rtc P s s' HP Hr HI Hs) as [HI' Hs']; (split; [done|]); [done|].
  destruct Ha as [H1 H2]. destruct (HR s' (act s').2 HI' Hs' (H1 s')). by apply IH.
Qed.

Lemma triple_pure {A : Type} (Φ : Prop) (P : S → Prop) (p : prog S A) (Q : A → S → Prop) :
  (Φ → triple P p Q) → triple (λ s, Φ ∧ P s) p Q.
Proof. intros H s HI [HΦ Hs]. by apply H. Qed.

Lemma triple_read {X : Type} (P : S → Prop) (f : S → X) (Q : X → S → Prop) :
  stable P → (∀ x, stable (Q x)) → (∀ s, I s → P s → Q (f s) s) → triple P (read f) Q.
Proof using env_I. intros HP HQ H. apply triple_atomic; [done|done|]. intros s HI Hs. by split; [|apply H]. Qed.

(** A program in its environment, step by step. *)
Inductive pstep {A : Type} : prog S A * S → prog S A * S → Prop :=
| pstep_act (X : Type) (act : S → X * S) (k : X → prog S A) (s : S) :
    pstep (Act act k, s) (k (act s).1, (act s).2)
| pstep_env (p : prog S A) (s s' : S) : env s s' → pstep (p, s) (p, s').

Lemma safe_pstep {A : Type} (c c' : prog S A * S) (Q : A → S → Prop) :
  rtc pstep c c' → safe c.1 Q c.2 → I c'.2 ∧ safe c'.1 Q c'.2.
Proof.
  intros Hr. induction Hr as [[p s]|c1 c2 c3 Hs _ IH]; intros Hp.
  - simpl in *. split; [|done]. destruct p; apply (Hp s (rtc_refl _ _)).
  - apply IH. clear IH. destruct Hs as [X act k s|p s s' He]; simpl in *.
    + by apply (Hp s (rtc_refl _ _)).
    + destruct p; intros s2 Hr2; apply Hp; by eapply rtc_l.
Qed.

(** The first [k] actions of a program, and all of them. *)
Fixpoint play {A : Type} (k : nat) (p : prog S A) (s : S) : prog S A * S :=
  match k, p with
  | Datatypes.S k, Act act next => play k (next (act s).1) (act s).2
  | _, _ => (p, s)
  end.

Lemma play_pstep {A : Type} (k : nat) (p : prog S A) (s : S) : rtc pstep (p, s) (play k p s).
Proof.
  revert p s. induction k as [|k IH]; intros [a|X act next] s; cbn; try done.
  eapply rtc_l; [apply pstep_act|apply IH].
Qed.

Lemma run_pstep {A : Type} (p : prog S A) (s : S) : rtc pstep (p, s) (mret (run p s).1, (run p s).2).
Proof.
  revert s. induction p as [a|X act next IH]; intros s; [done|]. eapply rtc_l; [apply pstep_act|]. cbn [run].
  destruct (act s) as [x s']. apply IH.
Qed.

End Hoare.

Notation "x ←? m ; k" := (bind_ok m (λ x, k))
  (at level 20, m at level 100, k at level 200, only parsing) : go_scope.

#[export] Hint Resolve acts_bind acts_bind_ok acts_ret acts_atomic acts_each acts_each_acc : geneza.

(** Splits [acts R] along the program: binds, loops, branches. *)
Ltac acts_split :=
  repeat match goal with
  | |- acts _ (_ ≫= _) => apply acts_bind; [|intros ?]
  | |- acts _ (bind_ok _ _) => apply acts_bind_ok; [|intros ?]
  | |- acts _ (mret _) => apply acts_ret
  | |- acts _ (Ret _) => exact I
  | |- acts _ (each _ _) => apply acts_each; intros ?
  | |- acts _ (each_acc _ _ _) => apply acts_each_acc; intros ? ?
  | |- acts _ (match ?x with _ => _ end) => destruct x
  | |- acts _ (let '(_, _) := ?x in _) => destruct x
  end.

(** Splits a handler down to the leaves the database [steps] knows. *)
Create HintDb steps.

Ltac handler_steps :=
  repeat first
    [ progress acts_split
    | solve [eauto 2 with steps] ].
