(* ===== verification/Codec.v ===== *)
(** * A concrete codec for the witnesses

    [json.Marshal] and [json.Unmarshal] are parameters of the model; the theorems that
    compose a signer with a verifier assume that decoding inverts encoding on values
    whose strings are UTF-8 (the package replaces what is not).  This file gives a byte
    codec of the signed payloads with that law, so those assumptions have a model in
    which every theorem can be evaluated. *)
From Stdlib Require Import ZArith Lia Strings.Byte Strings.Ascii.
From stdpp Require Import base gmap list strings.
From S2P Require Import Prelude Envelope Trust Grant Lease.
Local Open Scope Z_scope.

(** [json.Marshal]. *)
Class JSONEncode (A : Type) := Marshal : A → option bytes.

(** The strings of a value are UTF-8.  Bytes are base64 in JSON and always pass. *)
Class JSONText (A : Type) := text_ok : A → bool.

(** Decoding inverts encoding on such values. *)
Class JSONLaw (A : Type) `{JSONText A, JSONEncode A, JSONDecode A} : Prop :=
  unmarshal_marshal (a : A) (b : bytes) : text_ok a = true → Marshal a = Some b → Unmarshal b = Some a.

(** Encoding does not fail. *)
Class JSONTotal (A : Type) `{JSONEncode A} : Prop := marshal_total (a : A) : is_Some (Marshal a).

#[export] Instance Signed_text : JSONText Signed := λ e, ValidString (KeyID e).
#[export] Instance Lease_text : JSONText LeasePayload := λ p, ValidString (lp_SessionID p).
#[export] Instance Caps_text : JSONText CapsPayload := λ c, forallb ValidString (ForwardTargets c).
#[export] Instance Delta_text : JSONText DeltaPayload := λ p,
  ValidString (dp_SessionID p) && ValidString (Op p) && ValidString (Target p) &&
  match dp_Caps p with Some c => text_ok c | None => true end.
#[export] Instance Revoke_text : JSONText RevokePayload := λ p, ValidString (rp_SessionID p) && ValidString (Reason p).
#[export] Instance Candidate_text : JSONText RelayCandidate := λ c,
  forallb ValidString [rc_RegionID c; rc_RelayID c; TurnURL c; TurnUser c; TurnPass c; Realm c].
#[export] Instance Grant_text : JSONText SessionGrant := λ g,
  forallb ValidString [ID g; User g; WorkspaceID g; NodeID g; g_Action g; Command g; AttachID g; ForwardTarget g;
    RelayAddr g; RelayToken g; ClientPath g; g_Service g; ServiceKind g; OverlayIP g] &&
  forallb ValidString (Roles g ++ RelayFloor g ++ Routes g) && forallb text_ok (RelayCandidates g).

Module Codec.

(** A self-delimiting encoding: [get] reads one value and leaves the rest. *)
Class Ser (A : Type) := {
  put : A → bytes;
  get : bytes → option (A * bytes);
  get_put (a : A) (rest : bytes) : get (put a ++ rest) = Some (a, rest) }.

#[export] Instance ser_byte : Ser byte.
Proof.
  refine {| put b := [b]; get l := match l with b :: r => Some (b, r) | [] => None end |}. done.
Defined.

#[export] Instance ser_bool : Ser bool.
Proof.
  refine {| put b := [if (b : bool) then x01 else x00];
            get l := match l with x00 :: r => Some (false, r) | x01 :: r => Some (true, r) | _ => None end |}.
  by intros [].
Defined.

#[export] Instance ser_pair {A B : Type} `{Ser A, Ser B} : Ser (A * B).
Proof.
  refine {| put p := put p.1 ++ put p.2;
            get l := match get l with
                     | Some (a, r) => match get r with Some (b, r) => Some ((a, b), r) | None => None end
                     | None => None
                     end |}.
  intros [a b] rest. simpl. by rewrite <- app_assoc, get_put, get_put.
Defined.

(** A value through an isomorphism. *)
Definition ser_iso {A B : Type} `{Ser B} (f : A → B) (g : B → A) (Hgf : ∀ a, g (f a) = a) : Ser A.
Proof.
  refine {| put a := put (f a); get l := match get l with Some (b, r) => Some (g b, r) | None => None end |}.
  intros a rest. by rewrite get_put, Hgf.
Defined.

(** Lists, each element after a continuation mark. *)
Fixpoint put_list {A : Type} `{Ser A} (l : list A) : bytes :=
  match l with [] => [x00] | a :: r => x01 :: put a ++ put_list r end.

Fixpoint get_list {A : Type} `{Ser A} (fuel : nat) (l : bytes) : option (list A * bytes) :=
  match fuel, l with
  | S n, x01 :: r =>
      match get r with
      | Some (a, r) => match get_list n r with Some (l, r) => Some (a :: l, r) | None => None end
      | None => None
      end
  | _, x00 :: r => Some ([], r)
  | _, _ => None
  end.

Lemma get_put_list {A : Type} `{Ser A} (l : list A) (rest : bytes) (fuel : nat) :
  (length (put_list l) ≤ fuel)%nat → get_list fuel (put_list l ++ rest) = Some (l, rest).
Proof.
  revert fuel. induction l as [|a l IH]; intros fuel Hf; simpl in *; [by destruct fuel|].
  destruct fuel as [|n]; [lia|]. rewrite length_app in Hf. simpl.
  by rewrite <- app_assoc, get_put, IH by lia.
Qed.

#[export] Instance ser_list {A : Type} `{Ser A} : Ser (list A).
Proof.
  refine {| put := put_list; get l := get_list (length l) l |}.
  intros l rest. apply get_put_list. rewrite length_app. lia.
Defined.

Definition pos_bits (p : positive) : list bool :=
  (fix go p := match p with xH => [] | xO p => false :: go p | xI p => true :: go p end)%positive p.
Definition bits_pos (l : list bool) : positive :=
  foldr (λ (b : bool) p, if b then xI p else xO p) xH l.

#[export] Instance ser_positive : Ser positive.
Proof. refine (ser_iso pos_bits bits_pos _). intros p. induction p; simpl; [by f_equal..|done]. Defined.

#[export] Instance ser_Z : Ser Z.
Proof.
  refine (ser_iso (λ z, match z with Z0 => (false, (false, 1%positive))
                                | Zpos p => (true, (false, p)) | Zneg p => (true, (true, p)) end)
                  (λ t, if t.1 then if t.2.1 then Zneg t.2.2 else Zpos t.2.2 else Z0) _).
  by intros [].
Defined.

#[export] Instance ser_string : Ser string.
Proof.
  refine (ser_iso (λ s, map byte_of_ascii (String.list_ascii_of_string s))
                  (λ l, String.string_of_list_ascii (map ascii_of_byte l)) _).
  intros s. rewrite map_map, (map_ext _ id), map_id.
  - apply String.string_of_list_ascii_of_string.
  - apply ascii_of_byte_of_ascii.
Defined.

#[export] Instance ser_option {A : Type} `{Ser A} : Ser (option A).
Proof. refine (ser_iso (λ o, match o with Some a => [a] | None => [] end) head _). by intros []. Defined.

(** The signed payloads and the envelope, field by field. *)
#[export] Instance ser_Signed : Ser Signed.
Proof. refine (ser_iso (λ e, (Payload e, (Sig e, KeyID e))) (λ t, mkSigned t.1 t.2.1 t.2.2) _). by intros []. Defined.

#[export] Instance ser_Lease : Ser LeasePayload.
Proof.
  refine (ser_iso (λ p, (lp_SessionID p, (lp_Epoch p, (ExpiryUnixMs p, lp_ClientNoisePub p))))
            (λ t, mkLeasePayload t.1 t.2.1 t.2.2.1 t.2.2.2) _).
  by intros [].
Defined.

#[export] Instance ser_Caps : Ser CapsPayload.
Proof.
  refine (ser_iso (λ c, (Allow c, (c_AllowPTY c, (AllowInput c, (ForwardTargets c,
                          (AllowSFTPWrite c, AllowNewChannels c))))))
            (λ t, mkCaps t.1 t.2.1 t.2.2.1 t.2.2.2.1 t.2.2.2.2.1 t.2.2.2.2.2) _).
  by intros [].
Defined.

#[export] Instance ser_Delta : Ser DeltaPayload.
Proof.
  refine (ser_iso (λ p, (dp_SessionID p, (dp_Epoch p, (Op p, (Target p, (dp_Caps p,
                          (LeaseExpiryUnixMs p, dp_ClientNoisePub p)))))))
            (λ t, mkDeltaPayload t.1 t.2.1 t.2.2.1 t.2.2.2.1 t.2.2.2.2.1 t.2.2.2.2.2.1 t.2.2.2.2.2.2) _).
  by intros [].
Defined.

#[export] Instance ser_Revoke : Ser RevokePayload.
Proof.
  refine (ser_iso (λ p, (rp_SessionID p, (rp_Epoch p, (Reason p, rp_ClientNoisePub p))))
            (λ t, mkRevokePayload t.1 t.2.1 t.2.2.1 t.2.2.2) _).
  by intros [].
Defined.

#[export] Instance ser_Candidate : Ser RelayCandidate.
Proof.
  refine (ser_iso (λ c, (rc_RegionID c, (rc_RelayID c, (TurnURL c, (TurnUser c, (TurnPass c, Realm c))))))
            (λ t, mkRelayCandidate t.1 t.2.1 t.2.2.1 t.2.2.2.1 t.2.2.2.2.1 t.2.2.2.2.2) _).
  by intros [].
Defined.

#[export] Instance ser_Grant : Ser SessionGrant.
Proof.
  refine (ser_iso
    (λ g, ((V g, (ID g, (User g, (Roles g, (WorkspaceID g, (NetworkVNI g, (NodeID g, g_Action g))))))),
          ((Command g, (AttachID g, (AllowPTY g, (AllowDetach g, (ForwardTarget g, (ClientNoisePub g,
            (AgentNoisePub g, RelayAddr g))))))),
           ((RelayFloor g, (RelayToken g, (RelayCandidates g, (ClientPath g, (IssuedAt g, ExpiresAt g))))),
            (MaxSessionTTL g, (g_Record g, (g_Service g, (ServiceKind g, (Routes g, OverlayIP g)))))))))
    (λ '((v, (id, (u, (ro, (w, (vni, (n, a))))))),
         ((c, (at_, (pty, (det, (ft, (cn, (an, ra))))))),
          ((rf, (rt, (rc, (cp, (ia, ea))))), (ttl, (re, (sv, (sk, (rts, oip)))))))),
       mkSessionGrant v id u ro w vni n a c at_ pty det ft cn an ra rf rt rc cp ia ea ttl re sv sk rts oip) _).
  by intros [].
Defined.

(** Encoding, decoding and their law. *)
#[export] Instance enc {A : Type} `{Ser A} : JSONEncode A := λ a, Some (put a).
#[export] Instance dec {A : Type} `{Ser A} : JSONDecode A :=
  λ b, match get b with Some (a, []) => Some a | _ => None end.

#[export] Instance law {A : Type} `{Ser A, JSONText A} : JSONLaw A.
Proof.
  intros a b _ [= <-]. unfold Unmarshal, dec. by rewrite <- (app_nil_r (put a)), get_put.
Qed.

#[export] Instance total {A : Type} `{Ser A} : JSONTotal A.
Proof. intros a. by eexists. Qed.

End Codec.
