(* ===== verification/Login.v ===== *)
(** * Browser sessions, device logins and single-use codes

    The login tables of the controller's store (controller/session.go, device.go and
    handoff.go): browser sessions, WebSocket tickets, RFC 8628 device grants and the
    hand-off and launch codes.  Every operation is one bbolt transaction, written as
    its closure run by [Update], which discards the closure's writes when it returns
    an error.

    The theorems: a code, a ticket and a device grant are spent at most once in any
    sequence of transactions; the three ways to spend a code are mutually exclusive;
    a certificate is issued only for an approved, unexpired grant of a principal that
    is not suspended, and with the tuple its approver bound; and, because the
    transaction rolls back, a failed redemption does not burn the code and the
    device endpoint never answers [slow_down]. *)
From Stdlib Require Import ZArith Lia Strings.Byte Strings.Ascii.
From stdpp Require Import base gmap list strings relations.
From S2P Require Import Prelude Envelope Trust DenyCache Proc.
Local Open Scope Z_scope.

(** ** Rows *)

Record WSTicket := mkWSTicket {
  TicketHash : string; SessionTokenHash : string; wt_NodeID : string; wt_ExpiresUnix : Z }.

Definition sessionKindTenant : string := "tenant".
Definition sessionKindCluster : string := "cluster".
Definition sessionKindLaunch : string := "launch".

Record SessionScope := mkScope {
  sc_NodeID : string; sc_NodeName : string; Actions : list string;
  Cloud : string; Instance_ : string; Embed : bool }.

Definition allowsNode (sc : option SessionScope) (nodeID : string) : bool :=
  match sc with
  | None => true
  | Some sc => bool_decide (sc_NodeID sc ≠ "") && bool_decide (sc_NodeID sc = nodeID)
  end.

Definition allowsAction (sc : option SessionScope) (action : string) : bool :=
  match sc with
  | None => true
  | Some sc => contains (Actions sc) action
  end.

Record AuthSession := mkAuthSession {
  TokenHash : string; as_Kind : string; as_User : string; as_Provider : string;
  Source : string; as_Subject : string; as_Workspace : string; as_Roles : list string;
  as_Groups : list string; Admin : bool; KSTokenHash : string; Scope : option SessionScope;
  as_CreatedUnix : Z; as_ExpiresUnix : Z; MaxExpiresUnix : Z; UpstreamExp : Z;
  LastSeenUnix : Z; UserAgent : string; Revoked : bool }.

#[export] Instance eta_AuthSession : Eta AuthSession := λ r,
  mkAuthSession (TokenHash r) (as_Kind r) (as_User r) (as_Provider r) (Source r) (as_Subject r)
    (as_Workspace r) (as_Roles r) (as_Groups r) (Admin r) (KSTokenHash r) (Scope r)
    (as_CreatedUnix r) (as_ExpiresUnix r) (MaxExpiresUnix r) (UpstreamExp r) (LastSeenUnix r)
    (UserAgent r) (Revoked r).

Record sessionInput := mkSessionInput {
  si_Provider : string; si_Source : string; si_User : string; si_Subject : string;
  si_Workspace : string; si_Roles : list string; si_Groups : list string;
  si_UpstreamExp : Z; si_KSTokenHash : string; si_UserAgent : string;
  si_Scope : option SessionScope; MaxTTL : Z; AbsoluteTTL : Z }.

Inductive device_state : Type := DevicePending | DeviceApproved | DeviceDenied | DeviceRedeemed.

#[export] Instance device_state_eq_decision : EqDecision device_state.
Proof. solve_decision. Defined.

Record DeviceGrant := mkDeviceGrant {
  DeviceHash : string; UserCodeHash : string; CSRPem : bytes; ClientName : string;
  SourceIP : string; dg_State : device_state;
  ApprovedUser : string; ApprovedSubject : string; ApprovedProvider : string;
  ApprovedWS : string; ApprovedRoles : list string; dg_UpstreamExp : Z; dg_ApprovedBy : string;
  dg_CreatedUnix : Z; dg_ExpiresUnix : Z; Interval : Z; LastPollUnix : Z }.

#[export] Instance eta_DeviceGrant : Eta DeviceGrant := λ r,
  mkDeviceGrant (DeviceHash r) (UserCodeHash r) (CSRPem r) (ClientName r) (SourceIP r) (dg_State r)
    (ApprovedUser r) (ApprovedSubject r) (ApprovedProvider r) (ApprovedWS r) (ApprovedRoles r)
    (dg_UpstreamExp r) (dg_ApprovedBy r) (dg_CreatedUnix r) (dg_ExpiresUnix r) (Interval r)
    (LastPollUnix r).

Record HandoffRecord := mkHandoff {
  CodeHash : string; CookieHash : string; Session : sessionInput; hr_ExpiresUnix : Z }.

(** The buckets [sessions_auth], [ws_tickets], [device_codes], [user_codes] and
    [handoff_codes]. *)
Record loginStore := mkLoginStore {
  sessions_auth : gmap string AuthSession;
  ws_tickets : gmap string WSTicket;
  device_codes : gmap string DeviceGrant;
  user_codes : gmap string string;
  handoff_codes : gmap string HandoffRecord }.

#[export] Instance eta_loginStore : Eta loginStore := λ s,
  mkLoginStore (sessions_auth s) (ws_tickets s) (device_codes s) (user_codes s) (handoff_codes s).

Inductive login_err : Type :=
| LoginNotFound
| InvalidTicket
| InvalidCode
| CodeExpired
| WrongKindOfCode
| CookieMismatch
| MustBeBound
| NotAwaitingBind
| GrantNotPending
| GrantExpired_
| TokenError (code : string)
| IssueFailed.

(** ** Secrets and codes *)

Definition hashToken `{Sha256} (token : string) : string := hex_encode (sha256 (bytes_of_string token)).

(** [strings.NewReplacer("-", "", " ", "")]. *)
Fixpoint strip_separators (s : string) : string :=
  match s with
  | EmptyString => EmptyString
  | String c r =>
      if Ascii.eqb c "-" || Ascii.eqb c " " then strip_separators r else String c (strip_separators r)
  end.

Definition normalizeUserCode (s : string) : string := strip_separators (upper_string (TrimSpace s)).

(** ** Browser sessions *)

Section Login.
Context `{Sha256}.

Definition PutAuthSession (rec : AuthSession) (st : loginStore) : loginStore :=
  st <| sessions_auth ::= <[TokenHash rec := rec]> |>.

Definition GetAuthSession (st : loginStore) (tokenHash : string) : option AuthSession :=
  sessions_auth st !! tokenHash.

Definition DeleteAuthSession (tokenHash : string) (st : loginStore) : loginStore :=
  st <| sessions_auth ::= delete tokenHash |>.

(** The rows a predicate selects are deleted and counted. *)
Definition kill_sessions (dead : AuthSession → bool) (st : loginStore) : nat * loginStore :=
  (size (filter (λ '(_, rec), dead rec = true) (sessions_auth st)),
   st <| sessions_auth ::= filter (λ '(_, rec), dead rec = false) |>).

Definition RevokeAuthSessionsForUser (user : string) (st : loginStore) : nat * loginStore :=
  kill_sessions (λ rec, bool_decide (as_User rec = user)) st.

Definition RevokeAuthSessionsForSubject (provider subject : string) (st : loginStore)
    : nat * loginStore :=
  if bool_decide (subject = "") then (0%nat, st)
  else
    let want := trim_prefix provider "device:" in
    kill_sessions (λ rec, bool_decide (trim_prefix (as_Provider rec) "device:" = want)
                          && bool_decide (as_Subject rec = subject)) st.

Definition SweepExpiredAuthSessions (now : Z) (st : loginStore) : nat * loginStore :=
  kill_sessions (λ rec, (0 <? as_ExpiresUnix rec) && (as_ExpiresUnix rec <=? now)) st.

(** ** WebSocket tickets *)

(** [ticket] is the random secret, [now] the controller's clock. *)
Definition MintWSTicket (ticket sessionTokenHash nodeID : string) (now ttl : Z) (st : loginStore)
    : loginStore :=
  let rec := mkWSTicket (hashToken ticket) sessionTokenHash nodeID (Unix (now + ttl)) in
  st <| ws_tickets ::= <[TicketHash rec := rec]> |>.

Definition RedeemWSTicket (ticket : string) (now : Z) : loginStore →
    result login_err (string * string) * loginStore :=
  let th := hashToken ticket in
  Update (λ st,
    match ws_tickets st !! th with
    | None => (Err InvalidTicket, st)
    | Some rec =>
        let st := st <| ws_tickets ::= delete th |> in
        if wt_ExpiresUnix rec <=? now then (Err InvalidTicket, st)
        else (Ok (SessionTokenHash rec, wt_NodeID rec), st)
    end).

(** ** Hand-off and launch codes *)

Definition PutHandoff (rec : HandoffRecord) (st : loginStore) : loginStore :=
  st <| handoff_codes ::= <[CodeHash rec := rec]> |>.

Definition RedeemHandoff (code cookie : string) (now : Z) : loginStore →
    result login_err sessionInput * loginStore :=
  let ch := hashToken code in
  Update (λ st,
    match handoff_codes st !! ch with
    | None => (Err InvalidCode, st)
    | Some rec =>
        let st := st <| handoff_codes ::= delete ch |> in
        if hr_ExpiresUnix rec <=? now then (Err CodeExpired, st)
        else
          match si_Scope (Session rec) with
          | Some _ => (Err WrongKindOfCode, st)
          | None =>
              if bool_decide (CookieHash rec = "") || bool_decide (CookieHash rec ≠ hashToken cookie)
              then (Err CookieMismatch, st)
              else (Ok (Session rec), st)
          end
    end).

Definition RedeemLaunch (code cookie : string) (now : Z) : loginStore →
    result login_err sessionInput * loginStore :=
  let ch := hashToken code in
  Update (λ st,
    match handoff_codes st !! ch with
    | None => (Err InvalidCode, st)
    | Some rec =>
        let st := st <| handoff_codes ::= delete ch |> in
        if hr_ExpiresUnix rec <=? now then (Err CodeExpired, st)
        else
          match si_Scope (Session rec) with
          | None => (Err WrongKindOfCode, st)
          | Some scope =>
              if bool_decide (CookieHash rec ≠ "") then
                if bool_decide (CookieHash rec ≠ hashToken cookie) then (Err CookieMismatch, st)
                else (Ok (Session rec), st)
              else if negb (Embed scope) then (Err MustBeBound, st)
              else (Ok (Session rec), st)
          end
    end).

Definition RedeemLaunchBind (code : string) (now : Z) : loginStore →
    result login_err sessionInput * loginStore :=
  let ch := hashToken code in
  Update (λ st,
    match handoff_codes st !! ch with
    | None => (Err InvalidCode, st)
    | Some rec =>
        let st := st <| handoff_codes ::= delete ch |> in
        if hr_ExpiresUnix rec <=? now then (Err CodeExpired, st)
        else
          match si_Scope (Session rec) with
          | None => (Err WrongKindOfCode, st)
          | Some scope =>
              if bool_decide (CookieHash rec ≠ "") || Embed scope then (Err NotAwaitingBind, st)
              else (Ok (Session rec), st)
          end
    end).

Definition SweepExpiredHandoffs (now : Z) (st : loginStore) : nat * loginStore :=
  (size (filter (λ '(_, rec), hr_ExpiresUnix rec ≤ now) (handoff_codes st)),
   st <| handoff_codes ::= filter (λ '(_, rec), ¬ hr_ExpiresUnix rec ≤ now) |>).

(** ** Device grants *)

Definition PutDeviceGrant (g : DeviceGrant) (st : loginStore) : loginStore :=
  st <| device_codes ::= <[DeviceHash g := g]> |> <| user_codes ::= <[UserCodeHash g := DeviceHash g]> |>.

Definition GetDeviceGrantByUserCode (userCode : string) (st : loginStore) : option DeviceGrant :=
  user_codes st !! hashToken (normalizeUserCode userCode) ≫= λ dh, device_codes st !! dh.

(** [mutate] fills the approval fields; [now] is the controller's clock. *)
Definition ApproveDeviceGrant (userCode : string) (now : Z)
    (mutate : DeviceGrant → result login_err DeviceGrant) : loginStore →
    result login_err unit * loginStore :=
  Update (λ st,
    match user_codes st !! hashToken (normalizeUserCode userCode) with
    | None => (Err LoginNotFound, st)
    | Some dh =>
        match device_codes st !! dh with
        | None => (Err LoginNotFound, st)
        | Some g =>
            if bool_decide (dg_State g ≠ DevicePending) then (Err GrantNotPending, st)
            else if dg_ExpiresUnix g <=? now then (Err GrantExpired_, st)
            else match mutate g with
                 | Err e => (Err e, st)
                 | Ok g' => (Ok tt, st <| device_codes ::= <[DeviceHash g' := g']> |>)
                 end
        end
    end).

Definition DenyDeviceGrant (userCode : string) (now : Z) : loginStore →
    result login_err unit * loginStore :=
  ApproveDeviceGrant userCode now (λ g, Ok (g <| dg_State := DeviceDenied |>)).

(** [tx.Bucket(bucketDeviceCodes).Delete] and [tx.Bucket(bucketUserCodes).Delete]. *)
Definition drop_grant (dh : string) (g : DeviceGrant) (st : loginStore) : loginStore :=
  st <| device_codes ::= delete dh |> <| user_codes ::= delete (UserCodeHash g) |>.

(** [issue] signs the certificate of the approved tuple. *)
Definition PollDeviceGrant (deny : denyStore) (deviceCode : string) (now : Z)
    (issue : DeviceGrant → option bytes) : loginStore → result login_err bytes * loginStore :=
  let dh := hashToken deviceCode in
  Update (λ st,
    match device_codes st !! dh with
    | None => (Err (TokenError "expired_token"), st)
    | Some g =>
        if dg_ExpiresUnix g <=? now then (Err (TokenError "expired_token"), drop_grant dh g st)
        else
          match dg_State g with
          | DeviceDenied => (Err (TokenError "access_denied"), drop_grant dh g st)
          | DeviceRedeemed => (Err (TokenError "expired_token"), st)
          | DeviceApproved =>
              if isSuspendedTx deny (ApprovedWS g) (ApprovedProvider g) (ApprovedSubject g)
              then (Err (TokenError "access_denied"), st)
              else match issue g with
                   | None => (Err IssueFailed, st)
                   | Some pem =>
                       (Ok pem, st <| device_codes ::= <[DeviceHash g := g <| dg_State := DeviceRedeemed |>]> |>)
                   end
          | DevicePending =>
              if (0 <? LastPollUnix g) && (now - LastPollUnix g <? Interval g) then
                (Err (TokenError "slow_down"),
                 st <| device_codes ::= <[dh := g <| Interval ::= Z.add 5 |> <| LastPollUnix := now |>]> |>)
              else
                (Err (TokenError "authorization_pending"),
                 st <| device_codes ::= <[dh := g <| LastPollUnix := now |>]> |>)
          end
    end).

Definition countDeviceGrants (st : loginStore) : nat := size (device_codes st).

Definition SweepExpiredDeviceGrants (now : Z) (st : loginStore) : nat * loginStore :=
  let dead := filter (λ g, dg_ExpiresUnix g ≤ now) (map_to_list (device_codes st)).*2 in
  (length dead, foldr (λ g st, drop_grant (DeviceHash g) g st) st dead).

(** The grant [handleDeviceAuthorize] stores: pending, never polled.  [poll] is the
    configured interval in seconds. *)
Definition new_grant (deviceCode userCode : string) (csr : bytes) (clientName ip : string)
    (now ttl poll : Z) : DeviceGrant :=
  let interval := if poll <? 1 then 5 else poll in
  let clientName := if bool_decide (clientName = "") then "geneza-cli" else clientName in
  mkDeviceGrant (hashToken deviceCode) (hashToken (normalizeUserCode userCode)) csr clientName ip
    DevicePending "" "" "" "" [] 0 "" (Unix now) (Unix (now + ttl)) interval 0.

(** ** Every transaction on the login tables *)

(** The approval of [handleDeviceApprove]: the approver's own tuple. *)
Definition approve_as (user subject provider ws : string) (roles : list string) (expires : Z)
    (g : DeviceGrant) : result login_err DeviceGrant :=
  Ok (g <| dg_State := DeviceApproved |> <| ApprovedUser := user |> <| ApprovedSubject := subject |>
        <| ApprovedProvider := provider |> <| ApprovedWS := ws |> <| ApprovedRoles := roles |>
        <| dg_ApprovedBy := user |> <| dg_UpstreamExp := expires |>).

Inductive login_op : Type :=
| OpPutAuth (rec : AuthSession)
| OpDeleteAuth (tokenHash : string)
| OpRevokeUser (user : string)
| OpRevokeSubject (provider subject : string)
| OpSweepAuth (now : Z)
| OpMintTicket (ticket sessionTokenHash nodeID : string) (now ttl : Z)
| OpRedeemTicket (ticket : string) (now : Z)
| OpPutHandoff (rec : HandoffRecord)
| OpRedeemHandoff (code cookie : string) (now : Z)
| OpRedeemLaunch (code cookie : string) (now : Z)
| OpRedeemBind (code : string) (now : Z)
| OpSweepHandoffs (now : Z)
| OpAuthorize (deviceCode userCode : string) (csr : bytes) (clientName ip : string) (now ttl poll : Z)
| OpApprove (userCode : string) (now : Z) (user subject provider ws : string) (roles : list string)
    (expires : Z)
| OpDeny (userCode : string) (now : Z)
| OpPoll (deny : denyStore) (deviceCode : string) (now : Z) (issue : DeviceGrant → option bytes)
| OpSweepGrants (now : Z).

(** What a transaction hands out: an opened session, a ticket's session and node, a
    certificate, or nothing. *)
Inductive login_out : Type :=
| OutNone
| OutErr (e : login_err)
| OutTicket (ticketHash sessionTokenHash nodeID : string)
| OutSession (codeHash : string) (si : sessionInput)
| OutCert (deviceHash : string) (pem : bytes).

Definition out_of {A : Type} (f : A → login_out) (p : result login_err A * loginStore)
    : login_out * loginStore :=
  (match p.1 with Ok a => f a | Err e => OutErr e end, p.2).

Definition login_exec (o : login_op) (st : loginStore) : login_out * loginStore :=
  match o with
  | OpPutAuth rec => (OutNone, PutAuthSession rec st)
  | OpDeleteAuth th => (OutNone, DeleteAuthSession th st)
  | OpRevokeUser u => (OutNone, (RevokeAuthSessionsForUser u st).2)
  | OpRevokeSubject p s => (OutNone, (RevokeAuthSessionsForSubject p s st).2)
  | OpSweepAuth now => (OutNone, (SweepExpiredAuthSessions now st).2)
  | OpMintTicket t sh n now ttl => (OutNone, MintWSTicket t sh n now ttl st)
  | OpRedeemTicket t now =>
      out_of (λ '(sh, n), OutTicket (hashToken t) sh n) (RedeemWSTicket t now st)
  | OpPutHandoff rec => (OutNone, PutHandoff rec st)
  | OpRedeemHandoff c k now => out_of (OutSession (hashToken c)) (RedeemHandoff c k now st)
  | OpRedeemLaunch c k now => out_of (OutSession (hashToken c)) (RedeemLaunch c k now st)
  | OpRedeemBind c now => out_of (OutSession (hashToken c)) (RedeemLaunchBind c now st)
  | OpSweepHandoffs now => (OutNone, (SweepExpiredHandoffs now st).2)
  | OpAuthorize dc uc csr cn ip now ttl poll =>
      (OutNone, PutDeviceGrant (new_grant dc uc csr cn ip now ttl poll) st)
  | OpApprove uc now u s p w r e => out_of (λ _, OutNone) (ApproveDeviceGrant uc now (approve_as u s p w r e) st)
  | OpDeny uc now => out_of (λ _, OutNone) (DenyDeviceGrant uc now st)
  | OpPoll d dc now issue => out_of (OutCert (hashToken dc)) (PollDeviceGrant d dc now issue st)
  | OpSweepGrants now => (OutNone, (SweepExpiredDeviceGrants now st).2)
  end.

Fixpoint login_run (os : list login_op) (st : loginStore) : list login_out * loginStore :=
  match os with
  | [] => ([], st)
  | o :: rest =>
      let '(x, st1) := login_exec o st in
      let '(xs, st2) := login_run rest st1 in (x :: xs, st2)
  end.

(** ** Lemmas *)

(** The secrets that may be spent, by the table that holds their hash. *)
Inductive secret : Type :=
| Ticket (h : string)
| Code (h : string)
| Device (h : string).

#[export] Instance secret_eq_decision : EqDecision secret.
Proof. solve_decision. Defined.

(** The secret a transaction creates, and the one its answer spends. *)
Definition issued (o : login_op) : option secret :=
  match o with
  | OpMintTicket t _ _ _ _ => Some (Ticket (hashToken t))
  | OpPutHandoff rec => Some (Code (CodeHash rec))
  | OpAuthorize dc _ _ _ _ _ _ _ => Some (Device (hashToken dc))
  | _ => None
  end.

Definition spent (x : login_out) : option secret :=
  match x with
  | OutTicket h _ _ => Some (Ticket h)
  | OutSession h _ => Some (Code h)
  | OutCert h _ => Some (Device h)
  | _ => None
  end.

(** Grants are stored under their own hash. *)
Definition login_wf (st : loginStore) : Prop :=
  ∀ h g, device_codes st !! h = Some g → DeviceHash g = h.

(** A secret that can no longer be spent. *)
Definition dead (k : secret) (st : loginStore) : Prop :=
  match k with
  | Ticket h => ws_tickets st !! h = None
  | Code h => handoff_codes st !! h = None
  | Device h => ∀ g, device_codes st !! h = Some g → dg_State g = DeviceRedeemed
  end.

Lemma drop_grants_lookup (l : list DeviceGrant) (st : loginStore) (h : string) (g : DeviceGrant) :
  device_codes (foldr (λ g st, drop_grant (DeviceHash g) g st) st l) !! h = Some g →
  device_codes st !! h = Some g.
Proof.
  induction l as [|g1 l IH]; simpl; [done|]. intros E. apply IH.
  cbn in E. by apply lookup_delete_Some in E as [_ E].
Qed.

Lemma drop_grants_other (l : list DeviceGrant) (st : loginStore) :
  ws_tickets (foldr (λ g st, drop_grant (DeviceHash g) g st) st l) = ws_tickets st ∧
  handoff_codes (foldr (λ g st, drop_grant (DeviceHash g) g st) st l) = handoff_codes st.
Proof. induction l as [|g1 l IH]; simpl; [done|]. cbn. apply IH. Qed.


(** The tables the redemptions touch, on each of their branches. *)
Lemma drop_grants_user_codes (l : list DeviceGrant) (st : loginStore) (uch dh : string) :
  user_codes (foldr (λ g st, drop_grant (DeviceHash g) g st) st l) !! uch = Some dh →
  user_codes st !! uch = Some dh.
Proof.
  induction l as [|g1 l IH]; simpl; [done|]. intros E. apply IH.
  cbn in E. by apply lookup_delete_Some in E as [_ E].
Qed.

Ltac login_cases :=
  unfold login_exec, out_of, RedeemWSTicket, RedeemHandoff, RedeemLaunch, RedeemLaunchBind,
    DenyDeviceGrant, ApproveDeviceGrant, PollDeviceGrant, Update in *;
  go_cases.

Lemma login_exec_wf (o : login_op) (st : loginStore) : login_wf st → login_wf (login_exec o st).2.
Proof.
  intros Hwf h g. destruct o; login_cases; try (by apply Hwf); intros Hg.
  all: try (apply lookup_insert_Some in Hg as [[<- <-]|[_ Hg]]; [|by apply Hwf]); try done.
  all: try by (eapply Hwf; eassumption).
  - unfold RevokeAuthSessionsForSubject in Hg. case_match; by apply Hwf.
  - cbn in Hg. apply lookup_insert_Some in Hg as [[<- <-]|[_ Hg]]; [done|by apply Hwf].
  - by apply Hwf, (drop_grants_lookup _ _ _ _ Hg).
Qed.

(** A ticket row appears only when it is minted; spending it removes it. *)
Lemma tickets_step (o : login_op) (st : loginStore) (h : string) :
  (is_Some (ws_tickets (login_exec o st).2 !! h) →
     issued o = Some (Ticket h) ∨ is_Some (ws_tickets st !! h)) ∧
  (spent (login_exec o st).1 = Some (Ticket h) →
     is_Some (ws_tickets st !! h) ∧ ws_tickets (login_exec o st).2 !! h = None).
Proof.
  destruct o; login_cases; split; auto; try done; intros Hh; simplify_eq.
  - unfold RevokeAuthSessionsForSubject in Hh. case_match; auto.
  - cbn in Hh. apply lookup_insert_is_Some in Hh as [<-|[_ Hh]]; auto.
  - right. apply lookup_delete_is_Some in Hh. tauto.
  - split; [by eexists|apply lookup_delete_eq].
  - right. cbn in Hh. by rewrite (proj1 (drop_grants_other _ _)) in Hh.
Qed.

Lemma codes_step (o : login_op) (st : loginStore) (h : string) :
  (is_Some (handoff_codes (login_exec o st).2 !! h) →
     issued o = Some (Code h) ∨ is_Some (handoff_codes st !! h)) ∧
  (spent (login_exec o st).1 = Some (Code h) →
     is_Some (handoff_codes st !! h) ∧ handoff_codes (login_exec o st).2 !! h = None).
Proof.
  destruct o; login_cases; split; auto; try done; intros Hh; simplify_eq.
  all: try (split; [by eexists|apply lookup_delete_eq]).
  all: try (right; apply lookup_delete_is_Some in Hh; tauto).
  - unfold RevokeAuthSessionsForSubject in Hh. case_match; auto.
  - cbn in Hh. apply lookup_insert_is_Some in Hh as [<-|[_ Hh]]; auto.
  - right. cbn in Hh. destruct Hh as [r Hh]. apply map_lookup_filter_Some in Hh as [Hh _]. by eexists.
  - right. cbn in Hh. by rewrite (proj2 (drop_grants_other _ _)) in Hh.
Qed.

(** A grant appears only when it is authorized, and never leaves [DeviceRedeemed]. *)
Lemma grants_step (o : login_op) (st : loginStore) (h : string) (g' : DeviceGrant) :
  login_wf st → device_codes (login_exec o st).2 !! h = Some g' →
  issued o = Some (Device h) ∨
  ∃ g, device_codes st !! h = Some g ∧ (dg_State g = DeviceRedeemed → dg_State g' = DeviceRedeemed).
Proof.
  intros Hwf. destruct o; login_cases; try (by eauto); intros Hg'.
  all: try (apply lookup_insert_Some in Hg' as [[<- <-]|[_ Hg']]; [right|by eauto]).
  all: try (exists d; erewrite (Hwf _ d) by done; split; [done|]; cbn; go_bool; intros; congruence).
  - unfold RevokeAuthSessionsForSubject in Hg'. case_match; eauto.
  - cbn in Hg'. apply lookup_insert_Some in Hg' as [[<- <-]|[_ Hg']]; eauto.
  - right. exists g'. split; [by apply (drop_grants_lookup _ _ _ _ Hg')|done].
Qed.

Lemma grants_spend (o : login_op) (st : loginStore) (h : string) :
  login_wf st → spent (login_exec o st).1 = Some (Device h) →
  ∃ g, device_codes st !! h = Some g ∧ dg_State g = DeviceApproved ∧
  ∀ g', device_codes (login_exec o st).2 !! h = Some g' → dg_State g' = DeviceRedeemed.
Proof.
  intros Hwf. destruct o; login_cases; intros; simplify_eq.
  exists d. split; [done|]. split; [done|]. intros g' Hg'.
  erewrite (Hwf _ d) in Hg' by done. rewrite lookup_insert_eq in Hg'. by simplify_eq.
Qed.

(** A dead secret stays dead, and is not spent, until it is issued again. *)
Lemma login_exec_dead (k : secret) (o : login_op) (st : loginStore) :
  login_wf st → issued o ≠ Some k → dead k st →
  spent (login_exec o st).1 ≠ Some k ∧ dead k (login_exec o st).2.
Proof.
  intros Hwf Hi Hd. destruct k as [h|h|h]; simpl in *.
  - destruct (tickets_step o st h) as [H1 H2]. rewrite Hd in H1, H2. split.
    + intros E. by destruct (H2 E) as [[? ?] _].
    + apply eq_None_not_Some. intros E. destruct (H1 E) as [?|[? ?]]; done.
  - destruct (codes_step o st h) as [H1 H2]. rewrite Hd in H1, H2. split.
    + intros E. by destruct (H2 E) as [[? ?] _].
    + apply eq_None_not_Some. intros E. destruct (H1 E) as [?|[? ?]]; done.
  - split.
    + intros E. destruct (grants_spend o st h Hwf E) as (g & Hg & Hs & _).
      rewrite (Hd _ Hg) in Hs. done.
    + intros g' Hg'. destruct (grants_step o st h g' Hwf Hg') as [?|(g & Hg & Hs)]; [done|].
      apply Hs, Hd, Hg.
Qed.

Lemma login_exec_spent (k : secret) (o : login_op) (st : loginStore) :
  login_wf st → spent (login_exec o st).1 = Some k → dead k (login_exec o st).2.
Proof.
  intros Hwf E. destruct k as [h|h|h]; simpl.
  - by apply tickets_step.
  - by apply codes_step.
  - by destruct (grants_spend o st h Hwf E) as (g & _ & _ & Hd).
Qed.

(** The times an answer list spends a secret. *)
Definition times_spent (k : secret) (xs : list login_out) : nat :=
  length (filter (λ x, spent x = Some k) xs).

Lemma dead_never_spent (k : secret) (os : list login_op) (st : loginStore) :
  login_wf st → Forall (λ o, issued o ≠ Some k) os → dead k st →
  times_spent k (login_run os st).1 = 0%nat.
Proof.
  intros Hwf Hf. revert st Hwf. induction Hf as [|o os Ho _ IH]; intros st Hwf Hd; [done|]. simpl.
  destruct (login_exec_dead k o st Hwf Ho Hd) as [Hs Hd'].
  pose proof (login_exec_wf o st Hwf) as Hwf'.
  destruct (login_exec o st) as [x st1]. simpl in *. specialize (IH st1 Hwf' Hd').
  destruct (login_run os st1) as [xs st2]. simpl in *. unfold times_spent in *.
  by rewrite filter_cons_False.
Qed.

(** Where a stored grant comes from: the request that opened it and, once approved,
    the approval that bound its tuple. *)
Definition opened_by (o : login_op) (g : DeviceGrant) : Prop :=
  match o with
  | OpAuthorize dc uc csr cn ip now ttl poll =>
      let g0 := new_grant dc uc csr cn ip now ttl poll in
      DeviceHash g = DeviceHash g0 ∧ UserCodeHash g = UserCodeHash g0 ∧ CSRPem g = CSRPem g0 ∧
      dg_ExpiresUnix g = dg_ExpiresUnix g0
  | _ => False
  end.

Definition bound_by (o : login_op) (g : DeviceGrant) : Prop :=
  match o with
  | OpApprove uc now u s p w r e =>
      ApprovedUser g = u ∧ ApprovedSubject g = s ∧ ApprovedProvider g = p ∧ ApprovedWS g = w ∧
      ApprovedRoles g = r ∧ dg_UpstreamExp g = e ∧ now < dg_ExpiresUnix g
  | _ => False
  end.

(** The user code a request shows, or an approval names, by its hash. *)
Definition code_hash (o : login_op) : option string :=
  match o with
  | OpAuthorize _ uc _ _ _ _ _ _ | OpApprove uc _ _ _ _ _ _ _ => Some (hashToken (normalizeUserCode uc))
  | _ => None
  end.

(** The device code a request draws. *)
Definition device_hash (o : login_op) : option string :=
  match o with OpAuthorize dc _ _ _ _ _ _ _ => Some (hashToken dc) | _ => None end.

(** An approval of the grant, by a user code that was shown with its device code. *)
Definition approved (pre : list login_op) (g : DeviceGrant) : Prop :=
  ∃ o uch, o ∈ pre ∧ bound_by o g ∧ code_hash o = Some uch ∧
    ∃ o', o' ∈ pre ∧ device_hash o' = Some (DeviceHash g) ∧ code_hash o' = Some uch.

Definition grant_ok (pre : list login_op) (g : DeviceGrant) : Prop :=
  (∃ o, o ∈ pre ∧ opened_by o g) ∧ LastPollUnix g = 0 ∧
  (dg_State g = DeviceApproved ∨ dg_State g = DeviceRedeemed → approved pre g).

Definition history_ok (pre : list login_op) (st : loginStore) : Prop :=
  login_wf st ∧ (∀ h g, device_codes st !! h = Some g → grant_ok pre g) ∧
  (∀ uch dh, user_codes st !! uch = Some dh →
     ∃ o, o ∈ pre ∧ device_hash o = Some dh ∧ code_hash o = Some uch).

Lemma elem_of_snoc_l (pre : list login_op) (o o' : login_op) : o' ∈ pre → o' ∈ pre ++ [o].
Proof. intros Ho. apply elem_of_app. by left. Qed.

Lemma elem_of_snoc_r (pre : list login_op) (o : login_op) : o ∈ pre ++ [o].
Proof. apply elem_of_app. right. by apply list_elem_of_singleton. Qed.

Lemma approved_snoc (pre : list login_op) (o : login_op) (g g' : DeviceGrant) :
  DeviceHash g' = DeviceHash g → (∀ o2, bound_by o2 g → bound_by o2 g') →
  approved pre g → approved (pre ++ [o]) g'.
Proof.
  intros Ed Hb (o1 & uch & Hin & H1 & Hc & o2 & Hin2 & Hd & Hc2). exists o1, uch. rewrite Ed.
  split_and!; [by apply elem_of_snoc_l|auto|done|]. exists o2. split; [by apply elem_of_snoc_l|done].
Qed.

Lemma grant_ok_snoc (pre : list login_op) (o : login_op) (g : DeviceGrant) :
  grant_ok pre g → grant_ok (pre ++ [o]) g.
Proof.
  intros ((o1 & ? & ?) & Hl & Hb). split; [|split; [done|]].
  - exists o1. split; [by apply elem_of_snoc_l|done].
  - intros Hs%Hb. by eapply approved_snoc.
Qed.

Lemma grant_ok_opened (pre : list login_op) (o : login_op) (g : DeviceGrant) :
  opened_by o g → LastPollUnix g = 0 → dg_State g = DevicePending → grant_ok (pre ++ [o]) g.
Proof.
  intros Ho Hl Hs. split; [|split; [done|]].
  - exists o. split; [apply elem_of_snoc_r|done].
  - rewrite Hs. intros [?|?]; done.
Qed.

(** A rewrite of a grant that keeps what it was opened with. *)
Lemma grant_ok_rewrite (pre : list login_op) (o : login_op) (g g' : DeviceGrant) :
  grant_ok pre g → DeviceHash g' = DeviceHash g → UserCodeHash g' = UserCodeHash g →
  CSRPem g' = CSRPem g → dg_ExpiresUnix g' = dg_ExpiresUnix g → LastPollUnix g' = LastPollUnix g →
  (dg_State g' = DeviceApproved ∨ dg_State g' = DeviceRedeemed →
     approved (pre ++ [o]) g' ∨
     (dg_State g = DeviceApproved ∧ ∀ o2, bound_by o2 g → bound_by o2 g')) →
  grant_ok (pre ++ [o]) g'.
Proof.
  intros ((o1 & Hin & Ho1) & Hl & Hb) E1 E2 E3 E4 E5 Hs. split; [|split; [congruence|]].
  - exists o1. split; [by apply elem_of_snoc_l|]. destruct o1; simpl in *; try done.
    by rewrite E1, E2, E3, E4.
  - intros Hst. destruct (Hs Hst) as [Hob|[Ha Hk]]; [done|]. eapply approved_snoc; [done|done|auto].
Qed.

(** The rows of the user codes come from requests. *)
Lemma user_codes_step (pre : list login_op) (o : login_op) (st : loginStore) (uch dh : string) :
  history_ok pre st → user_codes (login_exec o st).2 !! uch = Some dh →
  ∃ o', o' ∈ pre ++ [o] ∧ device_hash o' = Some dh ∧ code_hash o' = Some uch.
Proof.
  intros (_ & _ & Hu) Hg.
  assert (user_codes st !! uch = Some dh →
    ∃ o', o' ∈ pre ++ [o] ∧ device_hash o' = Some dh ∧ code_hash o' = Some uch) as Hkeep.
  { intros (o' & Hin & Ho')%Hu. exists o'. split; [by apply elem_of_snoc_l|done]. }
  destruct o; login_cases; try (by apply Hkeep).
  all: try (cbn in Hg; apply lookup_delete_Some in Hg as [_ Hg]; by apply Hkeep).
  - unfold RevokeAuthSessionsForSubject in Hg. case_match; by apply Hkeep.
  - cbn in Hg. apply lookup_insert_Some in Hg as [[<- <-]|[_ Hg]]; [|by apply Hkeep].
    eexists. split; [apply elem_of_snoc_r|done].
  - by apply Hkeep, (drop_grants_user_codes _ _ _ _ Hg).
Qed.

Lemma history_step (pre : list login_op) (o : login_op) (st : loginStore) :
  history_ok pre st → history_ok (pre ++ [o]) (login_exec o st).2.
Proof.
  intros Hst. pose proof Hst as (Hwf & Hh & Hu).
  split; [by apply login_exec_wf|]. split; [|intros uch dh; by apply user_codes_step]. intros h g Hg.
  assert (Hkeep : ∀ h g, device_codes st !! h = Some g → grant_ok (pre ++ [o]) g)
    by (intros; eapply grant_ok_snoc, Hh; eassumption).
  destruct o; login_cases; try (by eapply Hkeep).
  all: try (apply lookup_insert_Some in Hg as [[<- <-]|[_ Hg]]; [|by eapply Hkeep]).
  - unfold RevokeAuthSessionsForSubject in Hg. case_match; by eapply Hkeep.
  - cbn in Hg. apply lookup_insert_Some in Hg as [[<- <-]|[_ Hg]]; [|by eapply Hkeep].
    by apply grant_ok_opened.
  - eapply grant_ok_rewrite; [eapply Hh; eassumption|done..|]. intros _. left.
    match goal with E : user_codes st !! _ = Some _ |- _ => destruct (Hu _ _ E) as (o' & Hin & Hd & Hc) end.
    match goal with E : device_codes st !! _ = Some _ |- _ => pose proof (Hwf _ _ E) as Ed end.
    go_bool. eexists _, _. split; [apply elem_of_snoc_r|]. split; [by cbn|]. split; [done|].
    exists o'. split; [by apply elem_of_snoc_l|]. cbn. by rewrite Ed.
  - eapply grant_ok_rewrite; [eapply Hh; eassumption|done..|]. cbn. intros [?|?]; done.
  - eapply grant_ok_rewrite; [eapply Hh; eassumption|done..|]. intros _. right. split; [done|].
    by intros [] .
  - by eapply Hkeep, (drop_grants_lookup _ _ _ _ Hg).
Qed.

Lemma poll_inv (deny : denyStore) (dc : string) (now : Z) (issue : DeviceGrant → option bytes)
    (st : loginStore) (pem : bytes) :
  (PollDeviceGrant deny dc now issue st).1 = Ok pem →
  ∃ g, device_codes st !! hashToken dc = Some g ∧ dg_State g = DeviceApproved ∧
       now < dg_ExpiresUnix g ∧
       isSuspendedTx deny (ApprovedWS g) (ApprovedProvider g) (ApprovedSubject g) = false ∧
       issue g = Some pem.
Proof. login_cases; intros; simplify_eq. go_bool. by exists d. Qed.

(** What the trace of [os] issued, seen from the history before it. *)
Lemma run_certs (pre os : list login_op) (st : loginStore) (i : nat) (h : string) (pem : bytes) :
  history_ok pre st → (login_run os st).1 !! i = Some (OutCert h pem) →
  ∃ deny dc now issue g,
    os !! i = Some (OpPoll deny dc now issue) ∧ hashToken dc = h ∧ issue g = Some pem ∧
    isSuspendedTx deny (ApprovedWS g) (ApprovedProvider g) (ApprovedSubject g) = false ∧
    now < dg_ExpiresUnix g ∧ DeviceHash g = h ∧
    (∃ o, o ∈ pre ++ take i os ∧ opened_by o g) ∧ approved (pre ++ take i os) g.
Proof.
  revert pre st i. induction os as [|o os IH]; intros pre st i Hh; simpl; [done|].
  pose proof (history_step pre o st Hh) as Hh'.
  destruct (login_exec o st) as [x st1] eqn:Ex. simpl in Hh'.
  destruct (login_run os st1) as [xs st2] eqn:Er. simpl. destruct i as [|i]; simpl.
  - intros [= ->]. destruct o; simpl in Ex; try (unfold out_of in Ex; repeat case_match); simplify_eq.
    match goal with E : (PollDeviceGrant _ _ _ _ _).1 = _ |- _ => apply poll_inv in E as (g & Hg & Hs & He & Hn & Hi) end.
    destruct Hh as (Hwf & Hh & _). destruct (Hh _ _ Hg) as (Ho & _ & Hb).
    do 4 eexists. exists g. rewrite app_nil_r. split_and!; try done; [by apply Hwf|auto].
  - intros Hx. specialize (IH (pre ++ [o]) st1 i Hh'). rewrite Er in IH. simpl in IH.
    destruct (IH Hx) as (deny & dc & now & issue & g & Hi). exists deny, dc, now, issue, g.
    by rewrite <- app_assoc in Hi.
Qed.

(** When each redemption succeeds. *)
Lemma RedeemHandoff_Ok (code k : string) (n : Z) (st : loginStore) (s : sessionInput) :
  (RedeemHandoff code k n st).1 = Ok s ↔
  ∃ rec, handoff_codes st !! hashToken code = Some rec ∧ n < hr_ExpiresUnix rec ∧
    si_Scope s = None ∧ CookieHash rec ≠ "" ∧ CookieHash rec = hashToken k ∧ s = Session rec.
Proof.
  unfold RedeemHandoff, Update. split.
  - intros E. go_cases. go_bool. by exists h.
  - intros (rec & -> & He & Hs & Hc & Hk & ->). rewrite (proj2 (Z.leb_gt _ _) He), Hs.
    by rewrite !bool_decide_eq_false_2 by auto.
Qed.

Lemma RedeemLaunch_Ok (code k : string) (n : Z) (st : loginStore) (s : sessionInput) :
  (RedeemLaunch code k n st).1 = Ok s ↔
  ∃ rec sc, handoff_codes st !! hashToken code = Some rec ∧ n < hr_ExpiresUnix rec ∧
    si_Scope s = Some sc ∧ s = Session rec ∧
    (CookieHash rec ≠ "" ∧ CookieHash rec = hashToken k ∨ CookieHash rec = "" ∧ Embed sc = true).
Proof.
  unfold RedeemLaunch, Update. split.
  - intros E. go_cases; go_bool; eauto 12.
  - intros (rec & sc & -> & He & Hs & -> & Hc). rewrite (proj2 (Z.leb_gt _ _) He), Hs.
    destruct Hc as [[Hn Hk]|[Hn Hk]].
    + rewrite bool_decide_eq_true_2, bool_decide_eq_false_2 by auto. done.
    + rewrite bool_decide_eq_false_2 by auto. by rewrite Hk.
Qed.

Lemma RedeemLaunchBind_Ok (code : string) (n : Z) (st : loginStore) (s : sessionInput) :
  (RedeemLaunchBind code n st).1 = Ok s ↔
  ∃ rec sc, handoff_codes st !! hashToken code = Some rec ∧ n < hr_ExpiresUnix rec ∧
    si_Scope s = Some sc ∧ s = Session rec ∧ CookieHash rec = "" ∧ Embed sc = false.
Proof.
  unfold RedeemLaunchBind, Update. split.
  - intros E. go_cases; go_bool; eauto 12.
  - intros (rec & sc & -> & He & Hs & -> & Hc & Hm). rewrite (proj2 (Z.leb_gt _ _) He), Hs, Hm.
    by rewrite bool_decide_eq_false_2 by auto.
Qed.

Definition login0 : loginStore := mkLoginStore ∅ ∅ ∅ ∅ ∅.

Lemma history_empty : history_ok [] login0.
Proof. split_and!; intros h g Hg; cbn in Hg; by rewrite lookup_empty in Hg. Qed.

Lemma elem_of_take_all (os : list login_op) (i : nat) (o : login_op) : o ∈ take i os → o ∈ os.
Proof. intros Ho. rewrite <- (take_drop i os). apply elem_of_app. by left. Qed.

(** Two requests that draw the same device code are one, if no code is drawn twice. *)
Lemma drawn_once (os : list login_op) (o o' : login_op) (h : string) :
  NoDup (omap device_hash os) → o ∈ os → o' ∈ os →
  device_hash o = Some h → device_hash o' = Some h → o = o'.
Proof.
  assert (∀ l, o ∈ l → device_hash o = Some h → h ∈ omap device_hash l) as Hin1
    by (intros l Hi Hd; apply list_elem_of_omap; eauto).
  assert (∀ l, o' ∈ l → device_hash o' = Some h → h ∈ omap device_hash l) as Hin2
    by (intros l Hi Hd; apply list_elem_of_omap; eauto).
  intros Hn Ho Ho' Hd Hd'. induction os as [|x os IH]; [by apply not_elem_of_nil in Ho|].
  cbn in Hn. apply elem_of_cons in Ho as [->|Ho], Ho' as [->|Ho']; [done| | |].
  - rewrite Hd in Hn. apply NoDup_cons in Hn as [Hn _]. destruct Hn. auto.
  - rewrite Hd' in Hn. apply NoDup_cons in Hn as [Hn _]. destruct Hn. auto.
  - apply IH; [|done..]. destruct (device_hash x); [by apply NoDup_cons in Hn as [_ Hn]|done].
Qed.

(** ** Theorems *)

(** C37 (session.go, RedeemWSTicket; handoff.go, the redeem transactions; device.go,
    PollDeviceGrant): a secret is spent at most once.  In any sequence of
    transactions on the login tables, from any state with the grants under their keys, a ticket, a hand-off or launch
    code, or a device grant that is not issued again is answered with a session, a
    node or a certificate at most once. *)
Theorem spent_once (k : secret) (os : list login_op) (st : loginStore) :
  login_wf st → Forall (λ o, issued o ≠ Some k) os →
  (times_spent k (login_run os st).1 ≤ 1)%nat.
Proof.
  intros Hwf Hf. revert st Hwf. induction Hf as [|o os Ho Hf IH]; intros st Hwf; [by auto|]. simpl.
  pose proof (login_exec_wf o st Hwf) as Hwf'.
  pose proof (login_exec_spent k o st Hwf) as Hd.
  destruct (login_exec o st) as [x st1]. simpl in *.
  specialize (IH st1 Hwf'). pose proof (dead_never_spent k os st1 Hwf' Hf) as H0.
  destruct (login_run os st1) as [xs st2]. simpl in *. unfold times_spent in *.
  destruct (decide (spent x = Some k)) as [E|E].
  - rewrite filter_cons_True by done. simpl. rewrite H0 by auto. lia.
  - by rewrite filter_cons_False.
Qed.

(** [handoff.go, RedeemHandoff, RedeemLaunch, RedeemLaunchBind] The ways to spend
    a code exclude one another.  Of one stored code, whatever the cookies and the
    clock, at most one of the three transactions can succeed; a hand-off opens an
    unscoped session and the two launch redemptions a scoped one, and a launch is
    opened without its cookie only when it is an embedded one. *)
Theorem redeem_exclusive (code k1 k2 : string) (n1 n2 n3 : Z) (st : loginStore) :
  let h := (RedeemHandoff code k1 n1 st).1 in
  let l := (RedeemLaunch code k2 n2 st).1 in
  let b := (RedeemLaunchBind code n3 st).1 in
  is_ok h && is_ok l = false ∧ is_ok h && is_ok b = false ∧ is_ok l && is_ok b = false ∧
  (∀ s, h = Ok s → si_Scope s = None) ∧
  (∀ s, l = Ok s → ∃ sc rec, si_Scope s = Some sc ∧
     handoff_codes st !! hashToken code = Some rec ∧
     (CookieHash rec = hashToken k2 ∨ CookieHash rec = "" ∧ Embed sc = true)) ∧
  (∀ s, b = Ok s → ∃ sc, si_Scope s = Some sc ∧ Embed sc = false).
Proof.
  intros h l b. subst h l b.
  pose proof (RedeemHandoff_Ok code k1 n1 st) as Hh.
  pose proof (RedeemLaunch_Ok code k2 n2 st) as Hl.
  pose proof (RedeemLaunchBind_Ok code n3 st) as Hb.
  destruct (RedeemHandoff code k1 n1 st).1 as [s1|e1], (RedeemLaunch code k2 n2 st).1 as [s2|e2],
    (RedeemLaunchBind code n3 st).1 as [s3|e3]; simpl.
  all: try (destruct (proj1 (Hh _) eq_refl) as (r1 & Hr1 & _ & Hs1 & _ & _ & E1)).
  all: try (destruct (proj1 (Hl _) eq_refl) as (r2 & sc2 & Hr2 & _ & Hs2 & E2 & Hc2)).
  all: try (destruct (proj1 (Hb _) eq_refl) as (r3 & sc3 & Hr3 & _ & Hs3 & E3 & Hc3 & Hm3)).
  all: simplify_eq; try (exfalso; destruct_or?; destruct_and?; congruence).
  all: repeat split; intros s E; simplify_eq; try done.
  all: first [eexists _, _; split; [eassumption|split; [eassumption|tauto]] | by eauto].
Qed.

(** [handoff.go, RedeemHandoff] A wrong cookie does not burn the code.  The
    closure deletes the code before it checks the cookie, but it then returns an
    error and bbolt rolls the deletion back: after any number of attempts with wrong
    cookies the code is still redeemable with the right one. *)
Theorem wrong_cookie_does_not_burn (code good : string) (now : Z) (attempts : list (string * Z))
    (rec : HandoffRecord) (st : loginStore) :
  handoff_codes st !! hashToken code = Some rec → now < hr_ExpiresUnix rec →
  si_Scope (Session rec) = None → CookieHash rec = hashToken good → CookieHash rec ≠ "" →
  Forall (λ a, hashToken a.1 ≠ CookieHash rec) attempts →
  let st' := (login_run (map (λ a, OpRedeemHandoff code a.1 a.2) attempts) st).2 in
  (RedeemHandoff code good now st').1 = Ok (Session rec).
Proof.
  intros Hr He Hs Hc Hn Hf st'. assert (st' = st) as ->.
  { subst st'. induction Hf as [|[k n] l Hk _ IH]; [done|]. cbn [map login_run login_exec].
    assert (Hx : (RedeemHandoff code k n st).2 = st).
    { destruct (RedeemHandoff code k n st) as [[s|e] st1] eqn:E; [|by apply (Update_err _ _ _ _ E)].
      assert (E1 : (RedeemHandoff code k n st).1 = Ok s) by by rewrite E.
      apply RedeemHandoff_Ok in E1 as (r & ? & _ & _ & _ & ? & _). by simplify_eq/=. }
    unfold out_of. cbn [fst snd]. rewrite Hx. by destruct (login_run _ st) as [xs st2]. }
  apply RedeemHandoff_Ok. by exists rec.
Qed.

(** C38 (console_device.go and device.go, the device flow): a certificate is bound to
    its approval.  In any sequence of transactions from empty tables, a certificate
    handed out by a poll was issued for a grant of the polled device code, opened by an
    earlier request; its tuple is that of an earlier approval, made before the grant
    expired, by a user code which an earlier request showed with that device code; the
    grant had not expired at the poll, and its principal was not suspended.  If no two
    requests draw the same device code, the approval was by the grant's own user code. *)
Theorem certificate_bound_to_approval (os : list login_op) (i : nat) (h : string) (pem : bytes) :
  (login_run os login0).1 !! i = Some (OutCert h pem) →
  ∃ deny dc now issue g o oa ou uch,
    os !! i = Some (OpPoll deny dc now issue) ∧ hashToken dc = h ∧ DeviceHash g = h ∧ issue g = Some pem ∧
    isSuspendedTx deny (ApprovedWS g) (ApprovedProvider g) (ApprovedSubject g) = false ∧
    now < dg_ExpiresUnix g ∧
    (o ∈ take i os ∧ opened_by o g) ∧ (oa ∈ take i os ∧ bound_by oa g ∧ code_hash oa = Some uch) ∧
    (ou ∈ take i os ∧ device_hash ou = Some h ∧ code_hash ou = Some uch) ∧
    (NoDup (omap device_hash os) → UserCodeHash g = uch).
Proof.
  intros Hr. apply (run_certs []) in Hr as
    (deny & dc & now & issue & g & Hi & Hh & His & Hs & Ht & Hd & (o & Hin & Ho) & oa & uch & Ha1 & Ha2 & Ha3 & ou & Hu1 & Hu2 & Hu3);
    [|apply history_empty].
  rewrite Hd in Hu2. exists deny, dc, now, issue, g, o, oa, ou, uch. split_and!; try done. intros Hn.
  assert (o = ou) as <-.
  { apply (drawn_once os o ou h); [done|by eapply elem_of_take_all|by eapply elem_of_take_all| |done].
    destruct o; try done. cbn. f_equal. destruct Ho as [Ho _]. by rewrite <- Hd, Ho. }
  destruct o; try done. destruct Ho as (_ & -> & _). by injection Hu3.
Qed.

(** [device.go, PollDeviceGrant] [slow_down] is never answered.  The poll records
    its time in the transaction and then returns the RFC 8628 error, so the record is
    rolled back: in any sequence of transactions from empty tables no answer is
    [slow_down], however fast the client polls. *)
Theorem slow_down_never_answered (os : list login_op) :
  OutErr (TokenError "slow_down") ∉ (login_run os login0).1.
Proof.
  enough (Hg : ∀ pre st, history_ok pre st → OutErr (TokenError "slow_down") ∉ (login_run os st).1).
  { apply (Hg []), history_empty. }
  induction os as [|o os IH]; intros pre st Hh; simpl; [set_solver|].
  pose proof (IH (pre ++ [o]) _ (history_step pre o st Hh)) as IHo.
  destruct (login_exec o st) as [x st1] eqn:Ex. simpl in IHo.
  destruct (login_run os st1) as [xs st2]. simpl in *. apply not_elem_of_cons. split; [|done].
  intros <-. destruct Hh as (_ & Hh & _). destruct o; simpl in Ex; try done; login_cases; go_bool.
  match goal with E : device_codes st !! _ = Some _ |- _ => destruct (Hh _ _ E) as (_ & Hl & _) end. lia.
Qed.

End Login.

(** ** Concrete logins *)
Module LoginFixture.

#[local] Existing Instance Fixture.sha.

Definition si : sessionInput :=
  mkSessionInput "keystone" "" "alice" "u1" "acme" ["dev"] [] 0 "" "" None 0 0.
Definition handoff : HandoffRecord := mkHandoff (hashToken "code") (hashToken "cookie") si 100.
Definition st1 : loginStore := PutHandoff handoff login0.

Definition nobody : denyStore := mkDenyStore ∅ ∅.
Definition flow : list login_op :=
  [OpAuthorize "dev" "K7QW-3FMP" [x2d] "" "10.0.0.1" 0 (600 * second) 5;
   OpApprove "k7qw 3fmp" 10 "alice" "u1" "keystone" "acme" ["dev"] 1000;
   OpPoll nobody "dev" 20 (λ _, Some [x2a])].

End LoginFixture.

#[local] Existing Instance Fixture.sha.

Lemma spent_once_witness :
  let os := [OpRedeemHandoff "code" "wrong" 5; OpRedeemHandoff "code" "cookie" 6;
             OpRedeemHandoff "code" "cookie" 7] in
  (times_spent (Code (hashToken "code")) (login_run os LoginFixture.st1).1 ≤ 1)%nat.
Proof.
  intros os. apply (spent_once (Code (hashToken "code")) os LoginFixture.st1).
  - intros h g Hg. cbn in Hg. by rewrite lookup_empty in Hg.
  - subst os. repeat constructor; discriminate.
Defined.

Lemma wrong_cookie_does_not_burn_witness :
  (RedeemHandoff "code" "cookie" 50
     (login_run [OpRedeemHandoff "code" "guess" 10] LoginFixture.st1).2).1 = Ok LoginFixture.si.
Proof.
  apply (wrong_cookie_does_not_burn "code" "cookie" 50 [("guess", 10)] LoginFixture.handoff
           LoginFixture.st1); [reflexivity..|discriminate|].
  constructor; [discriminate|constructor].
Defined.

Lemma certificate_bound_to_approval_witness :
  ∃ dc g oa,
    hashToken dc = hashToken "dev" ∧ DeviceHash g = hashToken "dev" ∧
    oa ∈ take 2 LoginFixture.flow ∧ bound_by oa g ∧ code_hash oa = Some (UserCodeHash g).
Proof.
  destruct (certificate_bound_to_approval LoginFixture.flow 2 (hashToken "dev") [x2a])
    as (deny & dc & now & issue & g & o & oa & ou & uch & _ & H1 & H2 & _ & _ & _ & _ & (H3 & H4 & H5) & _ & H6).
  - vm_compute. reflexivity.
  - exists dc, g, oa. rewrite H6; [auto|]. apply (bool_decide_unpack _). vm_compute. exact I.
Defined.
