(* ===== verification/Members.v ===== *)
(** * Workspace members, roles and the presence factor

    The membership rows of a workspace and the one source of a principal's roles
    (controller/membership.go), the choice of a workspace at login
    (console_session.go), the lifetime of the certificate a device login yields
    (console_device.go, identity.go) and the presence factors (presence.go).

    The theorems: member keys are unambiguous, no row and no resolved role set ever
    carries a reserved cluster role, exactly one principal becomes the first admin of
    an empty workspace, and a hardware credential shuts the software factor out; it
    does so under the provider name it was enrolled with only, which a device login
    does not carry.  A certificate never outlives its approver's session, except when
    that session has already ended. *)
From Stdlib Require Import ZArith Lia Strings.Byte Strings.Ascii.
From stdpp Require Import base gmap list strings sorting relations.
From S2P Require Import Prelude Envelope Trust Policy DenyCache Proc Login.
Local Open Scope Z_scope.

(** ** Rows *)

Record EnrolledCredential := mkCredential {
  ec_Kind : string; ec_PublicKey : bytes; AAGUID : bytes; SignCount : Z }.

Record MemberRecord := mkMember {
  mr_Provider : string; Username : string; mr_Subject : string; SourceUID : string;
  mr_Roles : list string; mr_Groups : list string; AddedBy : string; mr_CreatedUnix : Z;
  UpdatedUnix : Z; PresenceCredentials : list EnrolledCredential }.

#[export] Instance eta_MemberRecord : Eta MemberRecord := λ r,
  mkMember (mr_Provider r) (Username r) (mr_Subject r) (SourceUID r) (mr_Roles r) (mr_Groups r)
    (AddedBy r) (mr_CreatedUnix r) (UpdatedUnix r) (PresenceCredentials r).

(** The member rows, by workspace and key. *)
Abbreviation memberStore := (gmap (string * string) MemberRecord).

Definition memberKey (provider subject : string) : string :=
  String.append provider (String.append ":" subject).

Definition roleWSAdmin : string := "ws-admin".
Definition providerKeystone : string := "keystone".

Inductive member_err : Type := BadMemberIdentity | MemberNotFound.

Definition validateMemberIdentity (provider subject : string) : option member_err :=
  if bool_decide (provider = "") || bool_decide (subject = "") then Some BadMemberIdentity
  else if has_char ":"%char provider || has_char ":"%char subject then Some BadMemberIdentity
  else None.

(** ** Operations *)

Definition PutMember (ws : string) (rec : MemberRecord) (st : memberStore)
    : result member_err unit * memberStore :=
  match validateMemberIdentity (mr_Provider rec) (mr_Subject rec) with
  | Some e => (Err e, st)
  | None =>
      let rec := rec <| mr_Roles ::= stripReservedRoles |> in
      (Ok tt, <[(ws, memberKey (mr_Provider rec) (mr_Subject rec)) := rec]> st)
  end.

Definition GetMember (st : memberStore) (ws provider subject : string) : option MemberRecord :=
  st !! (ws, memberKey provider subject).

Definition DeleteMember (ws provider subject : string) (st : memberStore) : memberStore :=
  delete (ws, memberKey provider subject) st.

Definition credential_known (cred : EnrolledCredential) (cs : list EnrolledCredential) : bool :=
  existsb (λ c, bytesEqual (ec_PublicKey c) (ec_PublicKey cred) && bool_decide (ec_Kind c = ec_Kind cred)) cs.

(** [now] is the controller's clock in seconds. *)
Definition AddPresenceCredential (now : Z) (ws provider subject : string) (cred : EnrolledCredential)
    (st : memberStore) : result member_err unit * memberStore :=
  match validateMemberIdentity provider subject with
  | Some e => (Err e, st)
  | None =>
      let rec := default (mkMember provider subject subject "" [] [] "" now 0 [])
                   (st !! (ws, memberKey provider subject)) in
      if credential_known cred (PresenceCredentials rec) then (Ok tt, st)
      else
        let rec := rec <| PresenceCredentials ::= λ l, l ++ [cred] |> <| UpdatedUnix := now |> in
        (Ok tt, <[(ws, memberKey provider subject) := rec]> st)
  end.

(** [sort.Strings] of a set. *)
Definition string_le (a b : string) : Prop := String.leb a b = true.
#[export] Instance string_le_dec : RelDecision string_le := λ a b, decide (String.leb a b = true).

Definition sort_strings (l : list string) : list string := merge_sort string_le l.

(** The workspaces with a row for the principal, each once, in order. *)
Definition ListMemberWorkspaces (st : memberStore) (provider subject : string) : list string :=
  let key := memberKey provider subject in
  sort_strings (elements (list_to_set
    ((filter (λ e : (string * string) * MemberRecord, e.1.2 = key) (map_to_list st)).*1.*1) : gset string)).

(** A workspace without any row. *)
Definition ws_empty (st : memberStore) (ws : string) : bool :=
  bool_decide (filter (λ e : (string * string) * MemberRecord, e.1.1 = ws) (map_to_list st) = []).

(** The answer is the first-admin flag; the stored row is handed back to the caller. *)
Definition UpsertFirstAdmin (clock : Z) (ws : string) (rec : MemberRecord) (st : memberStore)
    : result member_err (bool * MemberRecord) * memberStore :=
  match validateMemberIdentity (mr_Provider rec) (mr_Subject rec) with
  | Some e => (Err e, st)
  | None =>
      let now := if UpdatedUnix rec =? 0 then clock else UpdatedUnix rec in
      let key := (ws, memberKey (mr_Provider rec) (mr_Subject rec)) in
      match st !! key with
      | Some ex =>
          let ex := ex <| Username := Username rec |> <| mr_Groups := mr_Groups rec |>
                       <| SourceUID := if bool_decide (SourceUID rec = "") then SourceUID ex else SourceUID rec |>
                       <| UpdatedUnix := now |> in
          (Ok (false, ex), <[key := ex]> st)
      | None =>
          let first := ws_empty st ws in
          let rec := if first then rec <| mr_Roles := [roleWSAdmin] |>
                                       <| AddedBy := if bool_decide (AddedBy rec = "") then "auto:first-user" else AddedBy rec |>
                     else rec in
          let rec := rec <| mr_Roles ::= stripReservedRoles |>
                         <| mr_CreatedUnix := if mr_CreatedUnix rec =? 0 then now else mr_CreatedUnix rec |>
                         <| UpdatedUnix := now |> in
          (Ok (first, rec), <[key := rec]> st)
      end
  end.

(** ** Roles and workspaces *)

(** [policyFor(ws).RolesFor]; the deny-all engine of an unknown workspace has none. *)
Definition engine_roles (engine : option Doc) (user : string) (groups : list string) : list string :=
  match engine with None => [] | Some d => RolesFor d user groups end.

(** [GetMember] failing for another reason than absence counts as no row. *)
Definition rolesForMember (st : memberStore) (engine : option Doc)
    (ws provider user subject : string) (groups : list string) : list string :=
  let row := GetMember st ws provider subject in
  let stored := match row with Some rec => mr_Roles rec | None => [] end in
  let effectiveGroups := match row with Some rec => mr_Groups rec | None => groups end in
  let configured := if bool_decide (provider = providerKeystone) then []
                    else engine_roles engine user effectiveGroups in
  sort_strings (stripReservedRoles (elements (list_to_set (stored ++ configured) : gset string))).

Definition workspacesForUserStore (st : memberStore) (configured : list string)
    (provider subject : string) : list string :=
  sort_strings (elements (list_to_set (configured ++ ListMemberWorkspaces st provider subject) : gset string)).

(** The answer is [(ws, ambiguous, ok)]. *)
Definition resolveLoginWorkspace (requested : string) (cands : list string) : string * bool * bool :=
  if bool_decide (requested ≠ "") then
    if contains cands requested then (requested, false, true) else ("", false, false)
  else match cands with
       | [] => ("", false, false)
       | [w] => (w, false, true)
       | _ => ("", true, false)
       end.

(** ** The certificate of a device login *)

(** The lifetime [handleDeviceToken] asks for, and the one [issueUserCertPath] signs. *)
Definition device_ttl (configured upstreamExp now : Z) : Z :=
  if 0 <? upstreamExp then
    let d := upstreamExp * second - now in if d <? configured then d else configured
  else configured.

Definition issued_ttl (configured ttl : Z) : Z :=
  if (ttl <=? 0) || (configured <? ttl) then configured else ttl.

(** ** Presence factors (presence.go) *)

Record Attestation := mkAttestation {
  at_Kind : string; at_SessionID : string; at_Signature : bytes; Counter : Z;
  ClientData : bytes; ChallengeID : bytes }.

Inductive presence_err : Type :=
| ChallengeMismatch | SessionMismatch | CounterZero | WebauthnUnimplemented
| SoftwareDisabled | SoftwareRefused | UnknownFactor | NonMonotonicCounter | PrincipalSuspended
| NoSuchSessionP.

#[export] Instance presence_err_eq_decision : EqDecision presence_err.
Proof. solve_decision. Defined.

(** The registered factors. *)
Inductive factor : Type := softwareFactor | webauthnFactor.

Definition factor_Verify (f : factor) (att : Attestation) (challenge : bytes) (sessionID : string)
    : result presence_err Z :=
  match f with
  | softwareFactor =>
      if (length challenge =? 0)%nat || negb (bool_decide (ClientData att = challenge))
      then Err ChallengeMismatch
      else if negb (bool_decide (at_SessionID att = sessionID)) then Err SessionMismatch
      else if Counter att =? 0 then Err CounterZero
      else Ok (Counter att)
  | webauthnFactor => Err WebauthnUnimplemented
  end.

(** [presenceRegistry.Get]. *)
Definition registry_Get (allowSoftware : bool) (kind : string) (enrolled : list EnrolledCredential)
    : result presence_err factor :=
  if bool_decide (kind = "software") then
    if negb allowSoftware then Err SoftwareDisabled
    else if existsb (λ c, bool_decide (ec_Kind c ≠ "") && bool_decide (ec_Kind c ≠ "software")) enrolled
    then Err SoftwareRefused
    else Ok softwareFactor
  else if bool_decide (kind = "webauthn") then Ok webauthnFactor
  else Err UnknownFactor.

Definition enrolledCreds (st : memberStore) (ws provider subject : string) : list EnrolledCredential :=
  match GetMember st ws provider subject with Some m => PresenceCredentials m | None => [] end.

(** [verifyBeat]; [fresh] is the challenge it mints, [heartbeat] the interval and
    [nowUnix] the clock, in seconds. *)
Definition verifyBeat (allowSoftware : bool) (heartbeat nowUnix : Z) (fresh : bytes)
    (att : Attestation) (sessionID : string) (cur prev : bytes) (prevUnix : Z)
    (enrolled : list EnrolledCredential) : result presence_err bytes :=
  match registry_Get allowSoftware (at_Kind att) enrolled with
  | Err e => Err e
  | Ok f =>
      let challenge :=
        if negb (length prev =? 0)%nat && bool_decide (ClientData att = prev)
           && (nowUnix - prevUnix <? heartbeat)
        then prev else cur in
      match factor_Verify f att challenge sessionID with
      | Err e => Err e
      | Ok _ => Ok fresh
      end
  end.

(** ** Every operation on the member rows *)

Inductive member_op : Type :=
| MPut (ws : string) (rec : MemberRecord)
| MDelete (ws provider subject : string)
| MAddCredential (now : Z) (ws provider subject : string) (cred : EnrolledCredential)
| MUpsert (clock : Z) (ws : string) (rec : MemberRecord).

Definition member_exec (o : member_op) (st : memberStore) : memberStore :=
  match o with
  | MPut ws rec => (PutMember ws rec st).2
  | MDelete ws p s => DeleteMember ws p s st
  | MAddCredential now ws p s c => (AddPresenceCredential now ws p s c st).2
  | MUpsert clock ws rec => (UpsertFirstAdmin clock ws rec st).2
  end.

Definition member_run (os : list member_op) (st : memberStore) : memberStore :=
  fold_left (λ st o, member_exec o st) os st.

(** ** Lemmas *)

Lemma validate_None (provider subject : string) :
  validateMemberIdentity provider subject = None ↔
  provider ≠ "" ∧ subject ≠ "" ∧ has_char ":"%char provider = false ∧ has_char ":"%char subject = false.
Proof.
  unfold validateMemberIdentity. split.
  - intros E. go_cases. go_bool. done.
  - intros (H1 & H2 & H3 & H4). rewrite !bool_decide_eq_false_2 by done. by rewrite H3, H4.
Qed.

(** Keys of validated identities are unambiguous. *)
Lemma memberKey_inj (p1 s1 p2 s2 : string) :
  has_char ":"%char p1 = false → has_char ":"%char p2 = false →
  memberKey p1 s1 = memberKey p2 s2 → p1 = p2 ∧ s1 = s2.
Proof. unfold memberKey. apply append_sep_inj. Qed.

(** The provider of a key whose subject has no colon. *)
Lemma memberKey_inj_r (p1 s1 p2 s2 : string) :
  has_char ":"%char s1 = false → has_char ":"%char s2 = false →
  memberKey p1 s1 = memberKey p2 s2 → p1 = p2 ∧ s1 = s2.
Proof. unfold memberKey. apply append_sep_inj_r. Qed.

Definition unreserved (roles : list string) : Prop := Forall (λ r, reservedRoles r = false) roles.

Definition members_ok (st : memberStore) : Prop :=
  map_Forall (λ k rec, unreserved (mr_Roles rec) ∧ k.2 = memberKey (mr_Provider rec) (mr_Subject rec) ∧
                       validateMemberIdentity (mr_Provider rec) (mr_Subject rec) = None) st.

Lemma reservedRoles_false (r : string) :
  reservedRoles r = false ↔ r ≠ roleAdmin ∧ r ≠ rolePlatformAdmin.
Proof. unfold reservedRoles. rewrite orb_false_iff, !bool_decide_eq_false. done. Qed.

Lemma stripped_unreserved (roles : list string) : unreserved (stripReservedRoles roles).
Proof.
  apply list.Forall_forall. intros r Hr. apply reservedRoles_false.
  by apply stripReservedRoles_spec in Hr as [_ Hr].
Qed.

Lemma member_exec_ok (o : member_op) (st : memberStore) : members_ok st → members_ok (member_exec o st).
Proof.
  intros Hok. destruct o as [ws rec|ws p s|now ws p s c|clock ws rec]; simpl.
  - unfold PutMember. destruct (validateMemberIdentity _ _) eqn:Hv; [done|].
    apply map_Forall_insert_2; [|done]. split; [apply stripped_unreserved|done].
  - by apply map_Forall_delete.
  - unfold AddPresenceCredential. destruct (validateMemberIdentity p s) eqn:Hv; [done|].
    case_match; [done|]. apply map_Forall_insert_2; [|done].
    destruct (st !! (ws, memberKey p s)) as [r|] eqn:Hr; simpl; [|by repeat constructor].
    apply (map_Forall_lookup_1 _ _ _ _ Hok Hr).
  - unfold UpsertFirstAdmin. destruct (validateMemberIdentity _ _) eqn:Hv; [done|].
    destruct (st !! _) as [ex|] eqn:Hr; apply map_Forall_insert_2; try done.
    + exact (map_Forall_lookup_1 _ _ _ _ Hok Hr).
    + split; [apply stripped_unreserved|]. destruct (ws_empty st ws); (split; [reflexivity|exact Hv]).
Qed.

Lemma member_run_ok (os : list member_op) (st : memberStore) : members_ok st → members_ok (member_run os st).
Proof. revert st. induction os; simpl; auto using member_exec_ok. Qed.

Lemma sort_strings_elem (l : list string) (x : string) : x ∈ sort_strings l ↔ x ∈ l.
Proof. unfold sort_strings. by rewrite merge_sort_Permutation. Qed.

Lemma ws_empty_spec (st : memberStore) (ws : string) :
  ws_empty st ws = true ↔ ∀ k, st !! (ws, k) = None.
Proof.
  unfold ws_empty. rewrite bool_decide_eq_true. split.
  - intros E k. apply eq_None_not_Some. intros [r Hr].
    assert (Hin : ((ws, k), r) ∈ filter (λ e : (string * string) * MemberRecord, e.1.1 = ws) (map_to_list st)).
    { apply list_elem_of_filter. split; [done|]. by apply elem_of_map_to_list. }
    rewrite E in Hin. by apply not_elem_of_nil in Hin.
  - intros Hn. destruct (filter _ _) as [|[[w k] r] l] eqn:E; [done|]. exfalso.
    assert (Hin : ((w, k), r) ∈ filter (λ e : (string * string) * MemberRecord, e.1.1 = ws) (map_to_list st))
      by (rewrite E; apply elem_of_cons; by left).
    apply list_elem_of_filter in Hin as [Hw Hin]. simpl in Hw. subst w.
    apply elem_of_map_to_list in Hin. by rewrite Hn in Hin.
Qed.

(** The first-admin answers of a sequence of operations. *)
Fixpoint first_admins (ws : string) (os : list member_op) (st : memberStore) : nat :=
  match os with
  | [] => 0
  | o :: rest =>
      (match o with
       | MUpsert clock w rec =>
           match (UpsertFirstAdmin clock w rec st).1 with
           | Ok (true, _) => if bool_decide (w = ws) then 1 else 0
           | _ => 0
           end
       | _ => 0
       end + first_admins ws rest (member_exec o st))%nat
  end.

Definition deletes_in (ws : string) (o : member_op) : Prop :=
  match o with MDelete w _ _ => w = ws | _ => False end.

(** Without deletions a workspace that has a member keeps one. *)
Lemma member_exec_nonempty (ws k : string) (o : member_op) (st : memberStore) :
  ¬ deletes_in ws o → is_Some (st !! (ws, k)) → is_Some (member_exec o st !! (ws, k)).
Proof.
  intros Hd Hs. destruct o as [w rec|w p s|now w p s c|clock w rec]; simpl in *.
  - unfold PutMember. case_match; [done|]. apply lookup_insert_is_Some'. by right.
  - unfold DeleteMember. rewrite lookup_delete_ne by congruence. done.
  - unfold AddPresenceCredential. repeat case_match; try done. apply lookup_insert_is_Some'. by right.
  - unfold UpsertFirstAdmin. repeat case_match; simpl; try done; apply lookup_insert_is_Some'; by right.
Qed.

Lemma first_admins_zero (ws k : string) (os : list member_op) (st : memberStore) :
  Forall (λ o, ¬ deletes_in ws o) os → is_Some (st !! (ws, k)) → first_admins ws os st = 0%nat.
Proof.
  intros Hf. revert st. induction Hf as [|o os Ho _ IH]; intros st Hs; [done|]. cbn [first_admins].
  rewrite (IH _ (member_exec_nonempty ws k o st Ho Hs)).
  destruct o; try done. case_match; try done. case_match. case_match; try done. case_bool_decide; [|done].
  subst. exfalso. unfold UpsertFirstAdmin in *. go_cases.
  assert (He : ws_empty st ws = true) by done. apply (proj1 (ws_empty_spec st ws)) with (k := k) in He.
  rewrite He in Hs. by destruct Hs.
Qed.

(** The credentials of a row are kept by every operation that does not rewrite it. *)
Definition rewrites (ws key : string) (o : member_op) : Prop :=
  match o with
  | MPut w rec => w = ws ∧ memberKey (mr_Provider rec) (mr_Subject rec) = key
  | MDelete w p s => w = ws ∧ memberKey p s = key
  | _ => False
  end.

Definition has_hardware (cs : list EnrolledCredential) : Prop :=
  Exists (λ c, ec_Kind c ≠ "" ∧ ec_Kind c ≠ "software") cs.

Lemma member_exec_hardware (ws key : string) (o : member_op) (st : memberStore) (rec : MemberRecord) :
  ¬ rewrites ws key o → st !! (ws, key) = Some rec → has_hardware (PresenceCredentials rec) →
  ∃ rec', member_exec o st !! (ws, key) = Some rec' ∧ has_hardware (PresenceCredentials rec').
Proof.
  intros Hd Hr Hh. destruct o as [w r|w p s|now w p s c|clock w r]; simpl in *.
  - unfold PutMember. case_match; [by eauto|]. exists rec. simpl.
    rewrite lookup_insert_ne; [done|]. intros [= -> E]. by apply Hd.
  - exists rec. unfold DeleteMember. rewrite lookup_delete_ne; [done|]. intros [= -> E]. by apply Hd.
  - unfold AddPresenceCredential. case_match; [by eauto|]. case_match; [by eauto|].
    destruct (decide ((w, memberKey p s) = (ws, key))) as [E|E].
    + rewrite E, Hr. eexists. split; [apply lookup_insert_eq|]. cbn. by apply Exists_app; left.
    + exists rec. simpl. by rewrite lookup_insert_ne.
  - unfold UpsertFirstAdmin. case_match; [by eauto|].
    destruct (decide ((w, memberKey (mr_Provider r) (mr_Subject r)) = (ws, key))) as [E|E].
    + rewrite E, Hr. eexists. split; [apply lookup_insert_eq|]. done.
    + exists rec. case_match; simpl; by rewrite lookup_insert_ne.
Qed.

Lemma hardware_refuses_software (allow : bool) (cs : list EnrolledCredential) (f : factor) :
  has_hardware cs → registry_Get allow "software" cs ≠ Ok f.
Proof.
  intros Hh. unfold registry_Get. rewrite bool_decide_eq_true_2 by done. destruct allow; [|done]. simpl.
  replace (existsb _ cs) with true; [done|]. symmetry. apply existsb_exists.
  apply Exists_exists in Hh as (c & Hc & H1 & H2). exists c. split; [by apply list_elem_of_In|].
  by rewrite !bool_decide_eq_true_2.
Qed.

Lemma add_hardware (t : Z) (ws provider subject : string) (cred : EnrolledCredential) (st : memberStore) :
  validateMemberIdentity provider subject = None → ec_Kind cred ≠ "" → ec_Kind cred ≠ "software" →
  ∃ rec, (AddPresenceCredential t ws provider subject cred st).2 !! (ws, memberKey provider subject)
           = Some rec ∧ has_hardware (PresenceCredentials rec).
Proof.
  intros Hv H1 H2. unfold AddPresenceCredential. rewrite Hv.
  set (row := default _ _). destruct (credential_known cred (PresenceCredentials row)) eqn:E; simpl.
  - unfold credential_known in E. apply existsb_exists in E as (c & Hc & Hk). go_bool.
    subst row. destruct (st !! _) as [rec|]; simpl in *; [|done]. exists rec. split; [done|].
    apply Exists_exists. exists c. split; [by apply list_elem_of_In|]. by rewrite H0.
  - eexists. split; [apply lookup_insert_eq|]. cbn. apply Exists_app. right. by constructor.
Qed.

(** A row is only ever stored under a provider without a colon. *)
Lemma no_device_row (st : memberStore) (ws provider subject : string) :
  members_ok st → has_char ":"%char provider = true → has_char ":"%char subject = false →
  GetMember st ws provider subject = None.
Proof.
  intros Hok Hp Hs. apply eq_None_not_Some. intros [rec Hr].
  destruct (map_Forall_lookup_1 _ _ _ _ Hok Hr) as (_ & E & Hv). simpl in E.
  apply validate_None in Hv as (_ & _ & Hp' & Hs').
  apply memberKey_inj_r in E as [E _]; [|done..]. by rewrite <- E, Hp in Hp'.
Qed.

(** A first-admin answer stores a row. *)
Lemma first_admin_row (clock : Z) (ws : string) (rec rec' : MemberRecord) (st : memberStore) :
  (UpsertFirstAdmin clock ws rec st).1 = Ok (true, rec') →
  is_Some ((UpsertFirstAdmin clock ws rec st).2 !! (ws, memberKey (mr_Provider rec) (mr_Subject rec))).
Proof.
  unfold UpsertFirstAdmin. repeat case_match; simpl; try done; intros _; rewrite lookup_insert_eq; by eexists.
Qed.

Lemma first_admins_bound (ws : string) (os : list member_op) (st : memberStore) :
  Forall (λ o, ¬ deletes_in ws o) os → (first_admins ws os st ≤ 1)%nat.
Proof.
  intros Hf. revert st. induction Hf as [|o os Ho Hf IH]; intros st; [simpl; lia|]. cbn [first_admins].
  specialize (IH (member_exec o st)). destruct o as [| | |clock w rec]; try done.
  destruct (UpsertFirstAdmin clock w rec st).1 as [[[] rec']|] eqn:E; try done.
  case_bool_decide; [|done]. subst. apply first_admin_row in E.
  cbn [member_exec]. rewrite (first_admins_zero ws _ os _ Hf E). lia.
Qed.

(** ** Theorems *)

(** [membership.go, PutMember, UpsertFirstAdmin, rolesForMember] Roles come from
    the member row and the policy, and are never cluster roles.  After any sequence
    of operations from an empty table, the roles resolved for a principal are exactly
    the unreserved ones of its row and, except for keystone principals, of the policy
    with the groups its row gives it (or, without a row, the ones it logged in with);
    and no stored row carries a reserved role. *)
Theorem rolesForMember_spec (os : list member_op) (engine : option Doc)
    (ws provider user subject : string) (groups : list string) :
  let st := member_run os ∅ in
  let row := GetMember st ws provider subject in
  (∀ r, r ∈ rolesForMember st engine ws provider user subject groups ↔
     r ≠ roleAdmin ∧ r ≠ rolePlatformAdmin ∧
     ((∃ rec, row = Some rec ∧ r ∈ mr_Roles rec) ∨
      provider ≠ providerKeystone ∧
      r ∈ engine_roles engine user (match row with Some rec => mr_Groups rec | None => groups end))) ∧
  (∀ k rec, st !! k = Some rec → unreserved (mr_Roles rec)).
Proof.
  intros st row. split.
  - intros r. unfold rolesForMember. rewrite sort_strings_elem, stripReservedRoles_spec, elem_of_elements.
    rewrite elem_of_list_to_set, elem_of_app. fold row.
    assert (Hrow : r ∈ match row with Some rec => mr_Roles rec | None => [] end ↔
                   ∃ rec, row = Some rec ∧ r ∈ mr_Roles rec).
    { destruct row as [rec|]; [split; [by eauto|by intros (? & [= <-] & ?)]|].
      rewrite elem_of_nil. split; [done|]. by intros (? & ? & ?). }
    rewrite Hrow. case_bool_decide; rewrite ?elem_of_nil; tauto.
  - intros k rec Hr. assert (Hok : members_ok st) by apply member_run_ok, map_Forall_empty.
    apply (map_Forall_lookup_1 _ _ _ _ Hok Hr).
Qed.

(** [membership.go, UpsertFirstAdmin] Exactly one first admin.  In any sequence of
    operations that deletes no member of a workspace that starts without any, at most
    one login is answered as the first admin; it is the first login of a valid
    identity when no row was written before it, and its stored roles are [ws-admin]. *)
Theorem first_admin_once (ws : string) (os : list member_op) (st : memberStore) (clock : Z)
    (rec : MemberRecord) :
  Forall (λ o, ¬ deletes_in ws o) os →
  (first_admins ws os st ≤ 1)%nat ∧
  ((∀ k, st !! (ws, k) = None) → validateMemberIdentity (mr_Provider rec) (mr_Subject rec) = None →
     first_admins ws (MUpsert clock ws rec :: os) st = 1%nat ∧
     ∃ rec', (UpsertFirstAdmin clock ws rec st).1 = Ok (true, rec') ∧ mr_Roles rec' = [roleWSAdmin]).
Proof.
  intros Hf. split; [by apply first_admins_bound|]. intros He Hv.
  assert (Hup : ∃ rec', (UpsertFirstAdmin clock ws rec st).1 = Ok (true, rec') ∧ mr_Roles rec' = [roleWSAdmin]).
  { unfold UpsertFirstAdmin. rewrite Hv, He, (proj2 (ws_empty_spec st ws) He). by eexists. }
  split; [|done]. destruct Hup as (rec' & E & _). cbn [first_admins]. rewrite E.
  rewrite bool_decide_eq_true_2 by done. apply first_admin_row in E.
  cbn [member_exec]. by rewrite (first_admins_zero ws _ os _ Hf E).
Qed.

(** [presence.go, presenceRegistry.Get; membership.go, AddPresenceCredential] An
    enrolled hardware factor shuts the software stub out.  Once a hardware credential
    is added for a principal, no later sequence of operations that leaves its row in
    place lets a beat of kind [software] pass under that provider name. *)
Theorem hardware_shuts_software_out (os os' : list member_op) (t : Z)
    (ws provider subject : string) (cred : EnrolledCredential)
    (allow : bool) (hb nowUnix : Z) (fresh : bytes) (att : Attestation) (sid : string)
    (cur prev : bytes) (prevUnix : Z) :
  validateMemberIdentity provider subject = None → ec_Kind cred ≠ "" → ec_Kind cred ≠ "software" →
  Forall (λ o, ¬ rewrites ws (memberKey provider subject) o) os' → at_Kind att = "software" →
  let st := member_run (os ++ MAddCredential t ws provider subject cred :: os') ∅ in
  is_ok (verifyBeat allow hb nowUnix fresh att sid cur prev prevUnix
           (enrolledCreds st ws provider subject)) = false.
Proof.
  intros Hv Hk1 Hk2 Hf Ha st.
  assert (Hst : ∃ rec, st !! (ws, memberKey provider subject) = Some rec ∧
                       has_hardware (PresenceCredentials rec)).
  { subst st. unfold member_run. rewrite fold_left_app. simpl.
    set (st0 := fold_left _ os ∅).
    assert (H0 : ∃ rec, (AddPresenceCredential t ws provider subject cred st0).2 !! (ws, memberKey provider subject)
              = Some rec ∧ has_hardware (PresenceCredentials rec)) by (by apply add_hardware).
    revert H0. generalize (AddPresenceCredential t ws provider subject cred st0).2. clear st0.
    induction Hf as [|o os' Ho _ IH]; intros st (rec & Hr & Hh); simpl; [by eauto|].
    apply IH. by eapply member_exec_hardware. }
  destruct Hst as (rec & Hr & Hh). unfold enrolledCreds, GetMember. rewrite Hr.
  unfold verifyBeat. rewrite Ha. destruct (registry_Get allow "software" _) as [f|e] eqn:E; [|done].
  by apply hardware_refuses_software in E.
Qed.

(** [presence.go, enrolledCreds; console_device.go, handleDeviceToken] A device
    login evades the hardware gate.  The certificate of a device login carries the
    provider with the prefix [device:], and [enrolledCreds] looks the row up under
    that name, under which no operation ever stores one: whatever was enrolled, a
    software beat with the current challenge passes for the session of a device
    login. *)
Theorem device_login_evades_hardware_gate (os : list member_op) (ws provider subject sid : string)
    (cur fresh : bytes) (hb nowUnix prevUnix counter : Z) :
  has_char ":"%char subject = false → cur ≠ [] → counter ≠ 0 →
  let st := member_run os ∅ in
  verifyBeat true hb nowUnix fresh (mkAttestation "software" sid [] counter cur []) sid cur [] prevUnix
    (enrolledCreds st ws (String.append "device:" provider) subject) = Ok fresh.
Proof.
  intros Hs Hc Hn st. unfold enrolledCreds.
  rewrite no_device_row; [|apply member_run_ok, map_Forall_empty|done..].
  unfold verifyBeat, registry_Get, factor_Verify. simpl.
  rewrite !bool_decide_eq_true_2 by done. destruct cur; [done|]. simpl.
  by rewrite (proj2 (Z.eqb_neq counter 0) Hn).
Qed.

(** [console_device.go, handleDeviceToken; identity.go, issueUserCertPath] The
    lifetime of a device certificate.  While the approver's session lasts, the
    certificate ends with it at the latest; once the approver's session has ended,
    the computed lifetime is not positive and the issuer replaces it by the full
    configured one. *)
Theorem device_cert_lifetime (configured upstreamExp now : Z) :
  0 < configured → 0 < upstreamExp →
  let ttl := issued_ttl configured (device_ttl configured upstreamExp now) in
  (now < upstreamExp * second → 0 < ttl ≤ configured ∧ now + ttl ≤ upstreamExp * second) ∧
  (upstreamExp * second ≤ now → ttl = configured).
Proof.
  intros Hc Hu ttl. subst ttl. unfold issued_ttl, device_ttl.
  rewrite (proj2 (Z.ltb_lt 0 upstreamExp) Hu).
  destruct (Z.ltb_spec (upstreamExp * second - now) configured).
  - destruct (Z.leb_spec (upstreamExp * second - now) 0); simpl; [lia|].
    destruct (Z.ltb_spec configured (upstreamExp * second - now)); lia.
  - destruct (Z.leb_spec configured 0); [lia|]. simpl. rewrite Z.ltb_irrefl. lia.
Qed.

(** ** The theorems at concrete members *)
Module MemberFixture.

Definition alice : MemberRecord := mkMember "keystone" "alice" "u1" "cloud" ["ws-member"] [] "" 0 0 [].
Definition bob : MemberRecord := mkMember "keystone" "bob" "u2" "cloud" ["ws-member"; "admin"] [] "" 0 0 [].
Definition yubikey : EnrolledCredential := mkCredential "webauthn" [x01; x02] [] 0.

End MemberFixture.

Lemma first_admin_once_witness :
  first_admins "acme" [MUpsert 5 "acme" MemberFixture.alice; MUpsert 6 "acme" MemberFixture.bob] ∅ = 1%nat.
Proof.
  apply (first_admin_once "acme" [MUpsert 6 "acme" MemberFixture.bob] ∅ 5 MemberFixture.alice).
  - constructor; [intros []|constructor].
  - intros k. apply lookup_empty.
  - vm_compute. reflexivity.
Defined.

Lemma hardware_shuts_software_out_witness :
  let st := member_run ([MUpsert 5 "acme" MemberFixture.alice]
              ++ MAddCredential 6 "acme" "keystone" "u1" MemberFixture.yubikey
              :: [MUpsert 7 "acme" MemberFixture.alice]) ∅ in
  is_ok (verifyBeat true 30 100 [x09] (mkAttestation "software" "s-1" [] 1 [x07] []) "s-1" [x07] [] 0
           (enrolledCreds st "acme" "keystone" "u1")) = false.
Proof.
  apply (hardware_shuts_software_out [MUpsert 5 "acme" MemberFixture.alice]
           [MUpsert 7 "acme" MemberFixture.alice] 6 "acme" "keystone" "u1" MemberFixture.yubikey
           true 30 100 [x09] (mkAttestation "software" "s-1" [] 1 [x07] []) "s-1" [x07] [] 0).
  - vm_compute. reflexivity.
  - discriminate.
  - discriminate.
  - constructor; [intros []|constructor].
  - reflexivity.
Defined.

Lemma device_login_evades_hardware_gate_witness :
  let st := member_run [MAddCredential 6 "acme" "keystone" "u1" MemberFixture.yubikey] ∅ in
  verifyBeat true 30 100 [x09] (mkAttestation "software" "s-1" [] 1 [x07] []) "s-1" [x07] [] 0
    (enrolledCreds st "acme" "device:keystone" "u1") = Ok [x09].
Proof.
  apply (device_login_evades_hardware_gate [MAddCredential 6 "acme" "keystone" "u1" MemberFixture.yubikey]
           "acme" "keystone" "u1" "s-1" [x07] [x09] 30 100 0 1).
  - reflexivity.
  - discriminate.
  - discriminate.
Defined.

Lemma device_cert_lifetime_witness :
  issued_ttl (8 * hour) (device_ttl (8 * hour) 1000 (1001 * second)) = 8 * hour.
Proof. apply (device_cert_lifetime (8 * hour) 1000 (1001 * second)); vm_compute; congruence. Defined.
