(* ===== verification/Store.v ===== *)
(** * The controller's shared state and its store transactions

    The rows the controller keeps about nodes, quarantines and remote-access sessions
    (controller/store.go and authzstate.go), the in-memory structures its handlers
    share (deny cache, overlay allocators, agent registry, session signaling), and
    the transactions on them as atomic actions of [Proc.prog].

    A transaction may fail: [faults] is the environment's script of outcomes, one per
    fallible action, a missing entry being success.  [FaultBegin] fails before the
    closure runs; [FaultCommit] runs the closure and discards what it wrote, so the
    variables it captured and the memory it changed are kept.  What the controller
    puts on a stream, and the events it audits, are recorded in order. *)
From Stdlib Require Import ZArith Lia.
From stdpp Require Import base gmap list strings pretty relations.
From S2P Require Import Prelude Envelope Trust Grant Policy Lease DenyCache Overlay Proc Login Members.
Local Open Scope Z_scope.

(** ** Rows *)

Record PlatformRecord := mkPlatform {
  pf_OS : string; pf_Arch : string; Hostname : string; AgentVersion : string;
  Distro : string; DistroVersion : string; OSPretty : string; HostUUID : string }.

(** [NodeRecord]. *)
Module NR.

Record NodeRecord := mk {
  WorkspaceID : string; ID : string; Name : string; Labels : gmap string string;
  NoisePub : bytes; Platform : PlatformRecord; CreatedUnix : Z;
  Approved : bool; ApprovedBy : string; ApprovedAtUnix : Z;
  OverlayIP : string; WGPub : bytes; Region : string;
  ApprovedBinaryHash : bytes; ApprovedBinaryCreatedUnix : Z;
  LastBinaryHash : bytes; LastMeasuredUnix : Z }.

#[export] Instance eta_NodeRecord : Eta NodeRecord := λ r,
  mk (WorkspaceID r) (ID r) (Name r) (Labels r) (NoisePub r) (Platform r) (CreatedUnix r)
    (Approved r) (ApprovedBy r) (ApprovedAtUnix r) (OverlayIP r) (WGPub r) (Region r)
    (ApprovedBinaryHash r) (ApprovedBinaryCreatedUnix r) (LastBinaryHash r) (LastMeasuredUnix r).

End NR.
#[export] Existing Instance NR.eta_NodeRecord.

Record QuarantineRecord := mkQuarantine {
  qr_Workspace : string; qr_NodeID : string; qr_Reason : string; qr_Detail : gmap string string;
  QuarantinedBy : string; QuarantinedUnix : Z; qr_HostUUID : string }.

Inductive session_state : Type :=
| SessionPending | SessionActive | SessionDetached | SessionEnded | SessionRevoked.

#[export] Instance session_state_eq_decision : EqDecision session_state.
Proof. solve_decision. Defined.

(** [SessionRecord]. *)
Module SR.

Record SessionRecord := mk {
  WorkspaceID : string; ID : string; User : string; Provider : string; Subject : string;
  NodeID : string; NodeName : string; Action : string; State : session_state;
  HostSessionID : string; StartedUnix : Z; EndedUnix : Z; ExitCode : Z; Detachable : bool;
  Recorded : bool; Roles : list string; Service : string; ServiceKind : string;
  ServiceLabels : gmap string string; ClientPath : string; OverlayIP : string;
  ClientNoisePub : bytes; GrantAllowPTY : bool; GrantForwardTargets : list string;
  EnforcementEpoch : Z; RehomeEpoch : Z; GrantScope : bytes; RevokeReason : string;
  RevokeDelivered : bool; RequirePresence : bool; LastPresenceUnix : Z;
  LastPresenceCounter : Z; PresenceChallenge : bytes; PrevPresenceChallenge : bytes;
  PrevChallengeUnix : Z }.

#[export] Instance eta_SessionRecord : Eta SessionRecord := λ r,
  mk (WorkspaceID r) (ID r) (User r) (Provider r) (Subject r) (NodeID r) (NodeName r) (Action r)
    (State r) (HostSessionID r) (StartedUnix r) (EndedUnix r) (ExitCode r) (Detachable r)
    (Recorded r) (Roles r) (Service r) (ServiceKind r) (ServiceLabels r) (ClientPath r)
    (OverlayIP r) (ClientNoisePub r) (GrantAllowPTY r) (GrantForwardTargets r)
    (EnforcementEpoch r) (RehomeEpoch r) (GrantScope r) (RevokeReason r) (RevokeDelivered r)
    (RequirePresence r) (LastPresenceUnix r) (LastPresenceCounter r) (PresenceChallenge r)
    (PrevPresenceChallenge r) (PrevChallengeUnix r).

End SR.
#[export] Existing Instance SR.eta_SessionRecord.

(** ** Messages and in-memory structures *)

(** [ControllerEnforcement], and what the controller puts on an agent's stream. *)
Inductive enforcement : Type :=
| EnfLease (l : SessionLease)
| EnfDelta (d : SessionPolicyDelta)
| EnfRevoke (r : SessionRevoke).

Inductive agent_msg : Type :=
| MsgEnforce (e : enforcement)
| MsgOffer (sessionID : string) (signedGrant : bytes)
| MsgFleet (version : Z).

Inductive effect : Type :=
| ToAgent (nodeID : string) (m : agent_msg)
| ToClient (sessionID : string) (e : enforcement)
| RepushNetworks (ws : string).

(** [sigEntry], without the ICE buffer. *)
Record sigEntry := mkSigEntry {
  sg_ws : string; sg_nodeID : string; sg_user : string; sg_subject : string;
  sg_provider : string; toControl : list enforcement; controlAttached : bool; sg_expiry : Z }.

#[export] Instance eta_sigEntry : Eta sigEntry := λ e,
  mkSigEntry (sg_ws e) (sg_nodeID e) (sg_user e) (sg_subject e) (sg_provider e) (toControl e)
    (controlAttached e) (sg_expiry e).

(** [agentHandle], the controller's end of one control stream, and the affinity row of
    a node. *)
Record agentHandle := mkHandle {
  h_nodeID : string; h_Services : list Service; LastSeen : Z; observedIP : string;
  h_affinityEpoch : Z; wgPorts : gmap Z Z }.

#[export] Instance eta_agentHandle : Eta agentHandle := λ h,
  mkHandle (h_nodeID h) (h_Services h) (LastSeen h) (observedIP h) (h_affinityEpoch h) (wgPorts h).

Record agentAffinityRow := mkAffinityRow {
  ControllerID : string; af_Epoch : Z; ClaimedUnix : Z }.

(** One audited event. *)
Record audit_event := mkAudit {
  ae_ws : string; ae_type : string; ae_actor : string; ae_node : string; ae_session : string;
  ae_detail : gmap string string }.

Inductive fault : Type := FaultNone | FaultBegin | FaultCommit.

Record server := mkServer {
  (* the store *)
  nodes : gmap (string * string) NR.NodeRecord;
  nodeWS : gmap string string;
  quarantines : gmap string QuarantineRecord;
  sessions : gmap (string * string) SR.SessionRecord;
  denies : denyStore;
  login : loginStore;
  members : memberStore;
  artifacts : list Manifest;
  relays : gmap string Z;
  controllers : gmap string Z;
  affinity : gmap string agentAffinityRow;
  adv_services : gmap (string * string) (Z * list Service);
  (* memory *)
  deny_cache : denyCache;
  overlays : gmap string overlayAllocator;
  policyEngines : gmap string Doc;
  agents : gmap string nat;
  handles : list agentHandle;
  signals : gmap string sigEntry;
  (* outputs *)
  audits : list audit_event;
  effects : list effect;
  (* environment *)
  now_ns : Z;
  faults : list fault }.

#[export] Instance eta_server : Eta server := λ s,
  mkServer (nodes s) (nodeWS s) (quarantines s) (sessions s) (denies s) (login s) (members s) (artifacts s)
    (relays s) (controllers s) (affinity s) (adv_services s) (deny_cache s) (overlays s)
    (policyEngines s) (agents s) (handles s) (signals s) (audits s) (effects s) (now_ns s) (faults s).

Abbreviation M := (prog server).

(** ** Actions *)

Inductive store_err : Type :=
| ErrNotFound | ErrStore | ErrAmbiguous | ErrHashLength | ErrUnkeyable.

#[export] Instance store_err_eq_decision : EqDecision store_err.
Proof. solve_decision. Defined.

Definition next_fault (s : server) : fault := default FaultNone (head (faults s)).
Definition tick (s : server) : server := s <| faults ::= tail |>.

(** [s.db.Update] and [s.db.View]. *)
Definition tx {A : Type} (fn : server → result store_err A * server) : M (result store_err A) :=
  atomic (λ s,
    match next_fault s with
    | FaultNone => Update fn (tick s)
    | _ => (Err ErrStore, tick s)
    end).

Definition view {A : Type} (fn : server → result store_err A) : M (result store_err A) :=
  atomic (λ s,
    match next_fault s with
    | FaultNone => (fn s, tick s)
    | _ => (Err ErrStore, tick s)
    end).

(** [time.Now()]. *)
Definition now : M Z := read now_ns.

(** [s.audit.AppendWS] and [s.audit.Append]. *)
Definition AppendWS (ws typ actor node session : string) (detail : gmap string string)
    : M (option store_err) :=
  atomic (λ s,
    match next_fault s with
    | FaultNone =>
        (None, tick s <| audits ::= λ l, l ++ [mkAudit ws typ actor node session detail] |>)
    | _ => (Some ErrStore, tick s)
    end).

Definition Append (typ actor node session : string) (detail : gmap string string)
    : M (option store_err) := AppendWS "" typ actor node session detail.

(** [Registry.Online], [Registry.Services] and [agentHandle.send] through the registry:
    whether the message was put on a live stream. *)
Definition Online (nodeID : string) : M bool := read (λ s, bool_decide (is_Some (agents s !! nodeID))).

Definition handle_of (s : server) (nodeID : string) : option agentHandle :=
  agents s !! nodeID ≫= λ h, handles s !! h.

Definition Services (nodeID : string) : M (option (list Service)) :=
  read (λ s, option_map h_Services (handle_of s nodeID)).

Definition send (nodeID : string) (m : agent_msg) : M bool :=
  atomic (λ s,
    match agents s !! nodeID with
    | None => (false, s)
    | Some _ =>
        match next_fault s with
        | FaultNone => (true, tick s <| effects ::= λ l, l ++ [ToAgent nodeID m] |>)
        | _ => (false, tick s)
        end
    end).

(** [agentHandle.send] on a stream at hand. *)
Definition handle_send (nodeID : string) (m : agent_msg) : M bool :=
  atomic (λ s,
    match next_fault s with
    | FaultNone => (true, tick s <| effects ::= λ l, l ++ [ToAgent nodeID m] |>)
    | _ => (false, tick s)
    end).

(** [overlayFor(ws).release(ip)]. *)
Definition overlay_of (s : server) (ws : string) : overlayAllocator :=
  default newOverlayAllocator (overlays s !! ws).

Definition overlay_release (ws ip : string) (s : server) : server :=
  s <| overlays ::= <[ws := release (overlay_of s ws) ip]> |>.

(** ** Nodes (store.go) *)

Definition PutNode (ws : string) (n : NR.NodeRecord) : M (result store_err unit) :=
  tx (λ s, (Ok tt, s <| nodes ::= <[(ws, NR.ID n) := n <| NR.WorkspaceID := ws |>]> |>
                     <| nodeWS ::= <[NR.ID n := ws]> |>)).

Definition get_node (s : server) (ws id : string) : result store_err NR.NodeRecord :=
  of_option ErrNotFound (nodes s !! (ws, id)).

Definition GetNode (ws id : string) : M (result store_err NR.NodeRecord) := view (λ s, get_node s ws id).

Definition WorkspaceForNode (id : string) : M (result store_err string) :=
  view (λ s, of_option ErrNotFound (nodeWS s !! id)).

Definition ListAllNodes : M (result store_err (list NR.NodeRecord)) :=
  view (λ s, Ok (map_to_list (nodes s)).*2).

(** The rows of the node itself; the other tables it cleans (modules, inventory, images)
    are not part of [server]. *)
Definition DeleteNode (ws id : string) : M (result store_err unit) :=
  tx (λ s, match nodes s !! (ws, id) with
           | None => (Err ErrNotFound, s)
           | Some _ => (Ok tt, s <| nodes ::= delete (ws, id) |> <| nodeWS ::= delete id |>)
           end).

Definition quarantineKey (ws nodeID : string) : string := String.append ws (String.append "|" nodeID).

Definition SetNodeApproval (ws id : string) (approve : bool) (by_ : string) (at_ : Z)
    : M (result store_err NR.NodeRecord) :=
  tx (λ s,
    match get_node s ws id with
    | Err e => (Err e, s)
    | Ok n =>
        let n := n <| NR.Approved := approve |>
                   <| NR.ApprovedBy := if approve then by_ else "" |>
                   <| NR.ApprovedAtUnix := if approve then Unix at_ else 0 |> in
        let s := s <| nodes ::= <[(ws, id) := n]> |> in
        (Ok n, if approve then s <| quarantines ::= delete (quarantineKey ws id) |> else s)
    end).

Definition sha256Len : nat := 32.

(** The answer is [(drift, pinned, rec)]. *)
Definition RecordNodeMeasurement (ws nodeID : string) (binHash : bytes) (atUnix : Z)
    : M (result store_err (bool * bool * NR.NodeRecord)) :=
  if negb (length binHash =? sha256Len)%nat then mret (Err ErrHashLength)
  else tx (λ s,
    match get_node s ws nodeID with
    | Err e => (Err e, s)
    | Ok rec =>
        let rec := rec <| NR.LastBinaryHash := binHash |> <| NR.LastMeasuredUnix := atUnix |> in
        let pinned := NR.Approved rec && (length (NR.ApprovedBinaryHash rec) =? 0)%nat in
        let drift := NR.Approved rec && negb (length (NR.ApprovedBinaryHash rec) =? 0)%nat
                     && negb (bool_decide (NR.ApprovedBinaryHash rec = binHash)) in
        let rec := if pinned then rec <| NR.ApprovedBinaryHash := binHash |> else rec in
        (Ok (drift, pinned, rec), s <| nodes ::= <[(ws, nodeID) := rec]> |>)
    end).

Definition RepinBaseline (ws nodeID : string) (binHash : bytes) (createdUnix : Z)
    : M (result store_err unit) :=
  tx (λ s,
    match get_node s ws nodeID with
    | Err e => (Err e, s)
    | Ok n =>
        let n := n <| NR.ApprovedBinaryHash := binHash |> <| NR.ApprovedBinaryCreatedUnix := createdUnix |>
                   <| NR.LastBinaryHash := binHash |> in
        (Ok tt, s <| nodes ::= <[(ws, nodeID) := n]> |>)
    end).

(** The nodes of a workspace with a name. *)
Definition named_nodes (s : server) (ws name : string) : list NR.NodeRecord :=
  filter (λ n, NR.Name n = name)
    (filter (λ e : (string * string) * NR.NodeRecord, e.1.1 = ws) (map_to_list (nodes s))).*2.

Definition FindNode (ws idOrName : string) : M (result store_err NR.NodeRecord) :=
  r ← GetNode ws idOrName;
  match r with
  | Ok n => mret (Ok n)
  | Err ErrNotFound =>
      view (λ s, match named_nodes s ws idOrName with
                 | [] => Err ErrNotFound
                 | [n] => Ok n
                 | _ => Err ErrAmbiguous
                 end)
  | Err e => mret (Err e)
  end.

(** ** Quarantines (authzstate.go) *)

Definition QuarantineNode (ws nodeID reason by_ : string) (detail : gmap string string)
    : M (result store_err NR.NodeRecord) :=
  tx (λ s,
    match get_node s ws nodeID with
    | Err e => (Err e, s)
    | Ok n =>
        let n := n <| NR.Approved := false |> <| NR.ApprovedBy := "" |> <| NR.ApprovedAtUnix := 0 |> in
        let rec := mkQuarantine ws nodeID reason detail by_ (Unix (now_ns s))
                     (HostUUID (NR.Platform n)) in
        (Ok n, s <| nodes ::= <[(ws, nodeID) := n]> |>
                 <| quarantines ::= <[quarantineKey ws nodeID := rec]> |>)
    end).

Definition GetQuarantine (ws nodeID : string) : M (result store_err QuarantineRecord) :=
  view (λ s, of_option ErrNotFound (quarantines s !! quarantineKey ws nodeID)).

(** The last match of the scan. *)
Definition FindQuarantineByHostUUID (ws uuid : string) : M (result store_err QuarantineRecord) :=
  if bool_decide (uuid = "") then mret (Err ErrNotFound)
  else view (λ s, of_option ErrNotFound
         (last (filter (λ q, qr_Workspace q = ws ∧ qr_HostUUID q = uuid) (map_to_list (quarantines s)).*2))).

(** ** Published releases (store.go) *)

Definition publishedManifestMatch (product sha256hex : string) (m : Manifest) : bool :=
  bool_decide (Product m = product) && EqualFold (SHA256 m) sha256hex.

Definition PublishedManifestForHash (product sha256hex : string) : M (result store_err Manifest) :=
  if bool_decide (sha256hex = "") then mret (Err ErrNotFound)
  else view (λ s, of_option ErrNotFound
         (head (filter (λ m, publishedManifestMatch product sha256hex m = true) (artifacts s)))).

(** ** Sessions (store.go) *)

Definition PutSession (ws : string) (rec : SR.SessionRecord) : M (result store_err unit) :=
  tx (λ s, (Ok tt, s <| sessions ::= <[(ws, SR.ID rec) := rec <| SR.WorkspaceID := ws |>]> |>)).

Definition GetSession (ws id : string) : M (result store_err SR.SessionRecord) :=
  view (λ s, of_option ErrNotFound (sessions s !! (ws, id))).

(** The closure returns what it captured and the new row; [mem] is what it does to
    memory.  The answer is the error, and the captured value if the closure ran. *)
Definition UpdateSession {X : Type} (ws id : string) (fn : SR.SessionRecord → X * SR.SessionRecord)
    (mem : SR.SessionRecord → server → server) : M (option store_err * option X) :=
  atomic (λ s,
    match next_fault s with
    | FaultBegin => ((Some ErrStore, None), tick s)
    | flt =>
        match sessions s !! (ws, id) with
        | None => ((Some ErrNotFound, None), tick s)
        | Some rec =>
            let '(x, rec') := fn rec in
            let s := mem rec (tick s) in
            match flt with
            | FaultCommit => ((Some ErrStore, Some x), s)
            | _ => ((None, Some x), s <| sessions ::= <[(ws, id) := rec']> |>)
            end
        end
    end).

(** The order of the rows is the store's; the callers treat each row on its own. *)
Definition ListSessions (ws : string) : M (result store_err (list SR.SessionRecord)) :=
  view (λ s, Ok (filter (λ e : (string * string) * SR.SessionRecord, e.1.1 = ws)
                   (map_to_list (sessions s))).*2).

Definition ListAllSessions : M (result store_err (list SR.SessionRecord)) :=
  view (λ s, Ok (map_to_list (sessions s)).*2).

(** ** Suspensions and login rows *)

(** A read error answers [false]: the store's [IsSuspended] fails open. *)
Definition IsSuspended (ws provider subject : string) : M bool :=
  r ← view (λ s, Ok (IsSuspendedE (denies s) ws provider subject));
  mret (match r with Ok b => b | Err _ => false end).

Definition SuspendPrincipal_tx (ws provider subject username by_ reason : string)
    : M (result store_err unit) :=
  tx (λ s, match SuspendPrincipal (now_ns s) (denies s) ws provider subject username by_ reason with
           | None => (Err ErrUnkeyable, s)
           | Some d => (Ok tt, s <| denies := d |>)
           end).

Definition LiftSuspension_tx (ws provider subject : string) : M (result store_err unit) :=
  tx (λ s, (Ok tt, s <| denies ::= λ d, LiftSuspension d ws provider subject |>)).

(** A transaction on the login tables. *)
Definition login_tx {A : Type} (fn : loginStore → A * loginStore) : M (result store_err A) :=
  tx (λ s, let '(a, l) := fn (login s) in (Ok a, s <| login := l |>)).

(** The presence rows of relays and controllers, by the second they were last seen. *)
Definition ExpireStaleRelays (ttl : Z) : M (result store_err unit) :=
  tx (λ s, (Ok tt, s <| relays ::= filter (λ e, Unix (now_ns s - ttl) ≤ e.2) |>)).

Definition ExpireStaleControllers (ttl : Z) : M (result store_err unit) :=
  tx (λ s, (Ok tt, s <| controllers ::= filter (λ e, Unix (now_ns s - ttl) ≤ e.2) |>)).

(** ** The agent registry (registry.go) and the affinity directory (affinity.go) *)

(** A handle is its index in [handles]; the answer is the new handle and the one it
    displaced. *)
Definition Register (nodeID : string) (services : list Service) : M (nat * option nat) :=
  atomic (λ s,
    let h := length (handles s) in
    ((h, agents s !! nodeID),
     s <| handles ::= λ l, l ++ [mkHandle nodeID services (now_ns s) "" 0 ∅] |>
       <| agents ::= <[nodeID := h]> |>)).

Definition Unregister (nodeID : string) (h : nat) : M unit :=
  write (λ s, if bool_decide (agents s !! nodeID = Some h) then s <| agents ::= delete nodeID |> else s).

Definition on_handle (h : nat) (f : agentHandle → agentHandle) : M unit :=
  write (λ s, s <| handles ::= alter f h |>).

Definition setAffinityEpoch (h : nat) (epoch : Z) : M unit :=
  on_handle h (λ x, x <| h_affinityEpoch := epoch |>).

Definition setObservedIP (h : nat) (ip : string) : M unit :=
  on_handle h (λ x, x <| observedIP := ip |>).

Definition cloneSnapshot (h : nat) : M (string * Z) :=
  read (λ s, match handles s !! h with Some x => (observedIP x, LastSeen x) | None => ("", 0) end).

Definition setWGPort (h : nat) (vni port : Z) : M bool :=
  atomic (λ s,
    match handles s !! h with
    | None => (false, s)
    | Some x =>
        if default 0 (wgPorts x !! vni) =? port then (false, s)
        else (true, s <| handles ::= alter (λ x, x <| wgPorts ::= <[vni := port]> |>) h |>)
    end).

Definition ClaimAgentAffinity (nodeID controllerID : string) (t : Z) : M (result store_err Z) :=
  tx (λ s,
    let epoch := wrap_i64 (match affinity s !! nodeID with Some r => af_Epoch r | None => 0 end + 1) in
    (Ok epoch, s <| affinity ::= <[nodeID := mkAffinityRow controllerID epoch (Unix t)]> |>)).

Definition AgentAffinity (nodeID : string) : M (option (string * Z)) :=
  r ← view (λ s, of_option ErrNotFound (affinity s !! nodeID));
  mret (match r with Ok row => Some (ControllerID row, af_Epoch row) | Err _ => None end).

Definition ReleaseAgentAffinity (nodeID controllerID : string) (epoch : Z) : M (result store_err unit) :=
  tx (λ s,
    match affinity s !! nodeID with
    | None => (Ok tt, s)
    | Some row =>
        if negb (bool_decide (ControllerID row = controllerID)) || negb (af_Epoch row =? epoch)
        then (Ok tt, s) else (Ok tt, s <| affinity ::= delete nodeID |>)
    end).

Definition PutAdvertisedServices (ws nodeID : string) (epoch : Z) (svcs : list Service)
    : M (result store_err unit) :=
  tx (λ s,
    if match adv_services s !! (ws, nodeID) with Some r => epoch <? r.1 | None => false end
    then (Ok tt, s) else (Ok tt, s <| adv_services ::= <[(ws, nodeID) := (epoch, svcs)]> |>)).

Definition AdvertisedServices (ws nodeID : string) : M (result store_err (list Service)) :=
  view (λ s, Ok (match adv_services s !! (ws, nodeID) with Some r => r.2 | None => [] end)).

Definition ClearAdvertisedServices (ws nodeID : string) (epoch : Z) : M (result store_err unit) :=
  tx (λ s,
    match adv_services s !! (ws, nodeID) with
    | None => (Ok tt, s)
    | Some r => if negb (r.1 =? epoch) then (Ok tt, s)
                else (Ok tt, s <| adv_services ::= delete (ws, nodeID) |>)
    end).

(** ** Session signaling (sessionsignal.go, sessioncontrol.go) *)

Definition sessionEntryTTL : Z := 3 * minute.
Definition toControl_cap : nat := 16.

(** [sigEntry.close]: an attached [SessionControl] stream flushes what is buffered and
    returns; without one the buffer is lost. *)
Definition close_entry (id : string) (e : sigEntry) (s : server) : server :=
  if controlAttached e then s <| effects ::= λ l, l ++ map (ToClient id) (toControl e) |> else s.

Definition drop_entry (id : string) (s : server) : server :=
  match signals s !! id with
  | None => s
  | Some e => close_entry id e s <| signals ::= delete id |>
  end.

Definition register (id ws nodeID user subject provider : string) : M unit :=
  write (λ s, s <| signals ::= <[id := mkSigEntry ws nodeID user subject provider [] false
                                        (now_ns s + sessionEntryTTL)]> |>).

Definition unregister (id : string) : M unit := write (drop_entry id).

(** [get]: an expired entry is closed and dropped on access. *)
Definition sig_get (id : string) (s : server) : option sigEntry * server :=
  match signals s !! id with
  | None => (None, s)
  | Some e => if sg_expiry e <=? now_ns s then (None, drop_entry id s) else (Some e, s)
  end.

Definition touch (id : string) : M unit :=
  write (λ s, match signals s !! id with
              | None => s
              | Some e => s <| signals ::= <[id := e <| sg_expiry := now_ns s + sessionEntryTTL |>]> |>
              end).

Definition sweepExpired : M unit :=
  write (λ s, foldr (λ '(id, e) s, if sg_expiry e <=? now_ns s then drop_entry id s else s) s
                (map_to_list (signals s))).

(** Whether the buffer took the push. *)
Definition deliverControl (id : string) (m : enforcement) : M bool :=
  atomic (λ s,
    match sig_get id s with
    | (None, s) => (false, s)
    | (Some e, s) =>
        if (length (toControl e) <? toControl_cap)%nat
        then (true, s <| signals ::= <[id := e <| toControl ::= λ q, q ++ [m] |>]> |>)
        else (false, s)
    end).

(** The caller of a session's signaling is the principal the session was made for. *)
Definition authorizes (e : sigEntry) (ident : Identity) : bool :=
  if negb (bool_decide (i_Workspace ident = sg_ws e)) then false
  else if bool_decide (sg_subject e ≠ "") then
    bool_decide (Subject ident = sg_subject e)
    && bool_decide (normProvider (Provider ident) = normProvider (sg_provider e))
  else bool_decide (i_Name ident = sg_user e).

Inductive control_err : Type := NoSuchSession | OtherPrincipal | AlreadyAttached.

(** [SessionControl] up to its loop, one turn of the loop, and its return. *)
Definition SessionControl_open (ident : Identity) (id : string) : M (option control_err) :=
  e ← atomic (sig_get id);
  match e with
  | None => mret (Some NoSuchSession)
  | Some e =>
      if negb (authorizes e ident) then mret (Some OtherPrincipal)
      else atomic (λ s, match signals s !! id with
                        | None => (Some NoSuchSession, s)
                        | Some e => if controlAttached e then (Some AlreadyAttached, s)
                                    else (None, s <| signals ::= <[id := e <| controlAttached := true |>]> |>)
                        end)
  end.

Definition SessionControl_turn (id : string) : M unit :=
  write (λ s, match signals s !! id with
              | Some e =>
                  match controlAttached e, toControl e with
                  | true, m :: q => s <| signals ::= <[id := e <| toControl := q |>]> |>
                                      <| effects ::= λ l, l ++ [ToClient id m] |>
                  | _, _ => s
                  end
              | None => s
              end).

Definition SessionControl_detach (id : string) : M unit :=
  write (λ s, match signals s !! id with
              | Some e => s <| signals ::= <[id := e <| controlAttached := false |>]> |>
              | None => s
              end).
