(* ===== verification/Sessions.v ===== *)
(** * Continuous authorization of live sessions

    The enforcement side of the controller: signed leases, revokes and deltas with
    their epochs (controller/sessionenforce.go), the sweep that re-authorizes every
    live session, revocation and its redelivery, the fan-outs by principal, user and
    node (controller/continuousauthz.go), the events a node reports about its sessions
    (nodecontrol.go, [handleSessionEvent]) and the presence heartbeat (presence.go).
    The handlers are programs over [Store.server], with the in-process router of a
    single controller.

    This file holds the definitions; their theorems are in Control, Sweep and Fanout. *)
From Stdlib Require Import ZArith Lia.
From stdpp Require Import base gmap list strings pretty relations.
From S2P Require Import Prelude Envelope Trust Grant Policy Lease DenyCache Overlay Proc Codec.
From S2P Require Import Login Members Store.
Local Open Scope Z_scope.

(** ** Parameters *)

(** The controller's grant key, which also signs session policy. *)
Class GrantKeys := { grantKey : signer; grantKeyID : string }.

(** The text [fmt.Sprintf] makes of a policy verdict, and the offset of local time. *)
Class Rendering := { reason_text : reason → string; zone_offset : Z → Z }.

(** [cfg.Presence]: TTL and heartbeat interval, in nanoseconds, and the software stub. *)
Record presence_config := mkPresenceConfig { p_TTL : Z; HeartbeatInterval : Z; AllowSoftware : bool }.

Definition relayStaleTTL : Z := 60 * second.
Definition controllerStaleTTL : Z := 60 * second.

Section Sessions.
Context `{GrantKeys, Rendering} `{JSONEncode LeasePayload, JSONEncode DeltaPayload,
  JSONEncode RevokePayload, JSONEncode Signed}.
Context (presence : presence_config).

(** ** Signed enforcement messages (sessionenforce.go) *)

(** The answer is what the closure captured, [0] when it did not run. *)
Definition nextEpoch (ws sessionID : string) : M Z :=
  r ← UpdateSession ws sessionID
        (λ r, let e := wrap_i64 (SR.EnforcementEpoch r + 1) in
              (e, r <| SR.EnforcementEpoch := e |>)) (λ _ s, s);
  mret (default 0 r.2).

Definition signEnvelope {A : Type} `{JSONEncode A} (payload : A) : result env_err bytes :=
  match Sign Marshal grantKey grantKeyID ContextSessionPolicy payload with
  | Err e => Err e
  | Ok env => of_option ErrMarshal (Marshal env)
  end.

Definition leaseExpiryMs : M Z := t ← now; mret (UnixMilli (t + SessionLeaseTTL)).

Definition signLease (sessionID : string) (epoch expiryMs : Z) (clientNoisePub : bytes)
    : result env_err SessionLease :=
  let? sig := signEnvelope (mkLeasePayload sessionID epoch expiryMs clientNoisePub) in
  Ok (mkSessionLease sessionID sig).

Definition signRevoke (rec : SR.SessionRecord) (epoch : Z) (reason : string)
    : result env_err SessionRevoke :=
  let? sig := signEnvelope (mkRevokePayload (SR.ID rec) epoch reason (SR.ClientNoisePub rec)) in
  Ok (mkSessionRevoke (SR.ID rec) sig).

Definition capsToTypes (c : option SessionCaps) : option CapsPayload :=
  match c with
  | None => None
  | Some c => Some (mkCaps (pb_Allow c) (pb_AllowPty c) (pb_AllowInput c) (pb_ForwardTargets c)
                      (pb_AllowSftpWrite c) (pb_AllowNewChannels c))
  end.

Definition signDelta (rec : SR.SessionRecord) (epoch : Z) (op target : string)
    (caps : option SessionCaps) (expiryMs : Z) : result env_err SessionPolicyDelta :=
  let? sig := signEnvelope (mkDeltaPayload (SR.ID rec) epoch op target (capsToTypes caps) expiryMs
                              (SR.ClientNoisePub rec)) in
  Ok (mkSessionPolicyDelta (SR.ID rec) sig caps).

(** ** Revocation (continuousauthz.go, streamrouter.go) *)

Definition signRevokeRec (rec : SR.SessionRecord) (reason : string) : M (result env_err SessionRevoke) :=
  epoch ← nextEpoch (SR.WorkspaceID rec) (SR.ID rec);
  mret (signRevoke rec epoch reason).

(** [inprocRouter.SendRevoke]: whether it reached a stream, and the signed message. *)
Definition SendRevoke (rec : SR.SessionRecord) (reason : string)
    : M (bool * result env_err SessionRevoke) :=
  r ← signRevokeRec rec reason;
  match r with
  | Err e => mret (false, Err e)
  | Ok rev => b ← send (SR.NodeID rec) (MsgEnforce (EnfRevoke rev)); mret (b, Ok rev)
  end.

Definition live_state (st : session_state) : bool :=
  bool_decide (st = SessionActive) || bool_decide (st = SessionDetached).

Definition bool_text (b : bool) : string := if b then "true" else "false".

Definition revokeSession (rec : SR.SessionRecord) (reason : string) : M (option store_err) :=
  if negb (live_state (SR.State rec)) && negb (bool_decide (SR.State rec = SessionPending))
  then mret None
  else
    p ← SendRevoke rec reason;
    _ ← (match p.2 with
         | Ok rev => b ← deliverControl (SR.ID rec) (EnfRevoke rev); mret tt
         | Err _ => mret tt
         end);
    t ← now;
    _ ← UpdateSession (SR.WorkspaceID rec) (SR.ID rec)
          (λ r, (tt, r <| SR.State := SessionRevoked |> <| SR.EndedUnix := Unix t |>
                       <| SR.RevokeReason := reason |> <| SR.RevokeDelivered := false |>))
          (λ r s, overlay_release (SR.WorkspaceID rec) (SR.OverlayIP r) s);
    _ ← unregister (SR.ID rec);
    AppendWS (SR.WorkspaceID rec) "session_revoked" "" (SR.NodeID rec) (SR.ID rec)
      (<["user" := SR.User rec]> (<["reason" := reason]> {[ "pushed" := bool_text p.1 ]})).

Definition confirmRevokeDelivered (ws sessionID nodeID : string) : M unit :=
  r ← UpdateSession ws sessionID
        (λ r, if bool_decide (SR.State r = SessionRevoked) && negb (SR.RevokeDelivered r)
              then (true, r <| SR.RevokeDelivered := true |>) else (false, r)) (λ _ s, s);
  if default false r.2
  then _ ← AppendWS ws "session_revoke_confirmed" "" nodeID sessionID ∅; mret tt
  else mret tt.

Definition rePushRevoke (rec : SR.SessionRecord) : M unit :=
  _ ← SendRevoke rec (SR.RevokeReason rec); mret tt.

(** ** The lease and the read-only delta *)

Definition refreshLease (rec : SR.SessionRecord) : M unit :=
  epoch ← nextEpoch (SR.WorkspaceID rec) (SR.ID rec);
  expiry ← leaseExpiryMs;
  match signLease (SR.ID rec) epoch expiry (SR.ClientNoisePub rec) with
  | Err _ => mret tt
  | Ok lease =>
      _ ← send (SR.NodeID rec) (MsgEnforce (EnfLease lease));
      _ ← touch (SR.ID rec);
      _ ← deliverControl (SR.ID rec) (EnfLease lease);
      mret tt
  end.

Definition readonly_caps (rec : SR.SessionRecord) : SessionCaps :=
  mkSessionCaps true (SR.GrantAllowPTY rec) false (SR.GrantForwardTargets rec) false true.

Definition pushReadOnlyDelta (rec : SR.SessionRecord) : M unit :=
  epoch ← nextEpoch (SR.WorkspaceID rec) (SR.ID rec);
  expiry ← leaseExpiryMs;
  match signDelta rec epoch "read_only" "" (Some (readonly_caps rec)) expiry with
  | Err _ => mret tt
  | Ok delta =>
      _ ← send (SR.NodeID rec) (MsgEnforce (EnfDelta delta));
      _ ← touch (SR.ID rec);
      _ ← deliverControl (SR.ID rec) (EnfDelta delta);
      mret tt
  end.

(** ** Re-authorization *)

Record verdict := mkVerdict { v_Allow : bool; v_Reason : string; v_ReadOnly : bool }.

Definition denied (why : string) : verdict := mkVerdict false why false.

(** [policyFor(ws).Evaluate]: an unknown workspace denies. *)
Definition policy_verdict (engine : option Doc) (i : Input) (clock : gotime) : verdict :=
  match engine with
  | None => denied "unknown workspace"
  | Some d => let r := Evaluate d clock i in mkVerdict (Policy.Allow r) (reason_text (Policy.Reason r)) (Policy.ReadOnly r)
  end.

Definition session_input (rec : SR.SessionRecord) (labels : gmap string string) (t : gotime) : Input :=
  mkInput (SR.User rec) [] (SR.Roles rec) (SR.NodeID rec) (SR.NodeName rec) labels (SR.Action rec)
    (SR.ClientPath rec) (SR.Service rec) (SR.ServiceKind rec) (SR.ServiceLabels rec) t.

Definition local_time (t : Z) : gotime := mkTime t (zone_offset t).

Definition nodeLookup := string → string → M (option NR.NodeRecord).

Definition storeNodeLookup : nodeLookup := λ ws id,
  r ← GetNode ws id; mret (match r with Ok n => Some n | Err _ => None end).

Definition presence_stale (rec : SR.SessionRecord) (t : Z) : bool :=
  (0 <? p_TTL presence) && SR.RequirePresence rec
  && (p_TTL presence / second <? Unix t - SR.LastPresenceUnix rec).

Definition reauthorizeWith (rec : SR.SessionRecord) (getNode : nodeLookup) : M verdict :=
  susp ← IsSuspended (SR.WorkspaceID rec) (SR.Provider rec) (SR.Subject rec);
  if (susp : bool) then mret (denied "principal suspended")
  else
    t ← now;
    if presence_stale rec t then mret (denied "presence expired")
    else
      node ← getNode (SR.WorkspaceID rec) (SR.NodeID rec);
      match node with
      | Some n =>
          if negb (NR.Approved n) then mret (denied "node approval revoked")
          else
            engine ← read (λ s, policyEngines s !! SR.WorkspaceID rec);
            t ← now;
            mret (policy_verdict engine (session_input rec (NR.Labels n) (local_time t)) (local_time t))
      | None =>
          engine ← read (λ s, policyEngines s !! SR.WorkspaceID rec);
          t ← now;
          mret (policy_verdict engine (session_input rec ∅ (local_time t)) (local_time t))
      end.

Definition driveLiveSessionWith (rec : SR.SessionRecord) (getNode : nodeLookup) : M unit :=
  d ← reauthorizeWith rec getNode;
  if negb (v_Allow d) then
    _ ← revokeSession rec (String.append "continuous-authz: " (v_Reason d)); mret tt
  else if v_ReadOnly d then pushReadOnlyDelta rec
  else refreshLease rec.

Definition driveLiveSession (rec : SR.SessionRecord) : M unit := driveLiveSessionWith rec storeNodeLookup.

(** The key of the sweep's node index: the workspace, a NUL and the node id. *)
Definition index_key (ws id : string) : string := String.append ws (String (Ascii.ascii_of_nat 0) id).

Definition node_index (all : list NR.NodeRecord) : gmap string NR.NodeRecord :=
  foldl (λ m n, <[index_key (NR.WorkspaceID n) (NR.ID n) := n]> m) ∅ all.

Definition prefetched (idx : gmap string NR.NodeRecord) : nodeLookup := λ ws id,
  mret (idx !! index_key ws id).

(** One session of the sweep. *)
Definition sweep_session (lookup : nodeLookup) (rec : SR.SessionRecord) : M unit :=
  if live_state (SR.State rec) then driveLiveSessionWith rec lookup
  else if bool_decide (SR.State rec = SessionRevoked) && negb (SR.RevokeDelivered rec) then
    on ← Online (SR.NodeID rec);
    if (on : bool) then rePushRevoke rec else mret tt
  else mret tt.

(** Expired logins, grants, codes, presence rows and signaling entries go first. *)
Definition sweep_housekeeping : M unit :=
  t ← now;
  _ ← login_tx (SweepExpiredAuthSessions (Unix t));
  _ ← login_tx (SweepExpiredDeviceGrants (Unix t));
  _ ← login_tx (SweepExpiredHandoffs (Unix t));
  _ ← ExpireStaleRelays relayStaleTTL;
  _ ← ExpireStaleControllers controllerStaleTTL;
  sweepExpired.

Definition reauthSweep : M unit :=
  _ ← sweep_housekeeping;
  r ← ListAllSessions;
  match r with
  | Err _ => mret tt
  | Ok recs =>
      all ← ListAllNodes;
      let lookup := match all with Ok ns => prefetched (node_index ns) | Err _ => storeNodeLookup end in
      each recs (sweep_session lookup)
  end.

Definition redeliverPendingRevokes (nodeID : string) : M unit :=
  r ← ListAllSessions;
  match r with
  | Err _ => mret tt
  | Ok recs =>
      each recs (λ rec,
        if negb (bool_decide (SR.NodeID rec = nodeID)) then mret tt
        else match SR.State rec with
             | SessionRevoked => if SR.RevokeDelivered rec then mret tt else rePushRevoke rec
             | SessionActive | SessionDetached => driveLiveSession rec
             | _ => mret tt
             end)
  end.

(** ** Fan-outs *)

Definition revokeByID (ws sessionID reason : string) : M (option store_err) :=
  r ← GetSession ws sessionID;
  match r with
  | Err e => mret (Some e)
  | Ok rec => revokeSession rec reason
  end.

(** The live sessions a predicate selects are revoked; the answer counts the
    revocations that were audited. *)
Definition revoke_selected (sel : SR.SessionRecord → bool) (reason : string)
    (recs : list SR.SessionRecord) : M nat :=
  each_acc recs 0%nat (λ n rec,
    if negb (sel rec) then mret n
    else if negb (live_state (SR.State rec)) then mret n
    else e ← revokeSession rec reason; mret (match e with None => S n | Some _ => n end)).

Definition same_principal (ws provider subject : string) (rec : SR.SessionRecord) : bool :=
  bool_decide (SR.WorkspaceID rec = ws)
  && bool_decide (normProvider (SR.Provider rec) = normProvider provider)
  && bool_decide (SR.Subject rec = subject).

Definition revokeBySubject (ws provider subject reason : string) : M nat :=
  if bool_decide (subject = "") then mret 0%nat
  else
    r ← ListAllSessions;
    match r with
    | Err _ => mret 0%nat
    | Ok recs => revoke_selected (same_principal ws provider subject) reason recs
    end.

Definition revokeByNodeID (ws nodeID reason : string) : M nat :=
  r ← ListAllSessions;
  match r with
  | Err _ => mret 0%nat
  | Ok recs =>
      revoke_selected (λ rec, bool_decide (SR.WorkspaceID rec = ws) && bool_decide (SR.NodeID rec = nodeID))
        reason recs
  end.

Definition revokeUser (user reason : string) : M (result store_err nat) :=
  r ← ListAllSessions;
  match r with
  | Err e => mret (Err e)
  | Ok recs =>
      n ← revoke_selected (λ rec, bool_decide (SR.User rec = user)) reason recs;
      _ ← login_tx (RevokeAuthSessionsForUser user);
      mret (Ok n)
  end.

Definition revokeUserInWorkspace (ws user reason : string) : M (result store_err nat) :=
  r ← ListAllSessions;
  match r with
  | Err e => mret (Err e)
  | Ok recs =>
      n ← revoke_selected (λ rec, bool_decide (SR.WorkspaceID rec = ws) && bool_decide (SR.User rec = user))
            reason recs;
      mret (Ok n)
  end.

(** [PublishSuspend] does nothing on the in-process router. *)
Definition suspendPrincipal (ws provider subject username by_ reason : string) : M (option store_err) :=
  r ← SuspendPrincipal_tx ws provider subject username by_ reason;
  match r with
  | Err e => mret (Some e)
  | Ok _ =>
      _ ← write (λ s, s <| deny_cache ::= λ c, invalidateSuspension c ws provider subject |>);
      n ← revokeBySubject ws provider subject (String.append "suspended: " reason);
      _ ← login_tx (RevokeAuthSessionsForSubject provider subject);
      _ ← AppendWS ws "principal_suspended" username "" ""
            (<["workspace" := ws]> (<["provider" := normProvider provider]> (<["subject" := subject]>
              (<["by" := by_]> (<["reason" := reason]> {[ "tunnels_revoked" := pretty n ]})))));
      mret None
  end.

Definition liftSuspension (ws provider subject by_ : string) : M (option store_err) :=
  r ← LiftSuspension_tx ws provider subject;
  match r with
  | Err e => mret (Some e)
  | Ok _ =>
      _ ← write (λ s, s <| deny_cache ::= λ c, invalidateSuspension c ws provider subject |>);
      _ ← AppendWS ws "principal_unsuspended" "" "" ""
            (<["workspace" := ws]> (<["provider" := normProvider provider]> (<["subject" := subject]>
              {[ "by" := by_ ]})));
      mret None
  end.

(** A peer controller announced a suspension. *)
Definition onSuspendFanout (ws provider subject : string) : M unit :=
  if bool_decide (subject = "") then mret tt
  else
    _ ← write (λ s, s <| deny_cache ::= λ c, invalidateSuspension c ws provider subject |>);
    r ← ListAllSessions;
    match r with
    | Err _ => mret tt
    | Ok recs =>
        each recs (λ rec,
          if negb (same_principal ws provider subject rec) then mret tt
          else
            on ← Online (SR.NodeID rec);
            if negb on then mret tt
            else if live_state (SR.State rec) then
              _ ← revokeSession rec (String.append "suspended: " (normProvider provider)); mret tt
            else if bool_decide (SR.State rec = SessionRevoked) && negb (SR.RevokeDelivered rec)
            then rePushRevoke rec
            else mret tt)
    end.

(** ** Events a node reports (nodecontrol.go) *)

Record SessionEvent := mkSessionEvent {
  ev_SessionId : string; Event : string; ev_HostSessionId : string; ev_ExitCode : Z;
  Detail : string; PathClass : string; ev_Epoch : Z }.

Definition terminal (st : session_state) : bool :=
  bool_decide (st = SessionEnded) || bool_decide (st = SessionRevoked).

(** What an event does to the node's own session row. *)
Definition event_update (ev : SessionEvent) (t : Z) (r : SR.SessionRecord) : SR.SessionRecord :=
  if bool_decide (Event ev = "established") || bool_decide (Event ev = "attached") then
    if terminal (SR.State r) then r else r <| SR.State := SessionActive |>
  else if bool_decide (Event ev = "detached") then
    if terminal (SR.State r) then r else r <| SR.State := SessionDetached |>
  else if bool_decide (Event ev = "ended") then
    (if bool_decide (SR.State r = SessionRevoked) then r else r <| SR.State := SessionEnded |>)
      <| SR.EndedUnix := Unix t |> <| SR.ExitCode := ev_ExitCode ev |>
  else
    (if bool_decide (SR.State r = SessionRevoked) then r else r <| SR.State := SessionEnded |>)
      <| SR.EndedUnix := Unix t |>.

(** The closure [update]: only the node's own sessions move. *)
Definition update_own (ws nodeID : string) (ev : SessionEvent) (ends : bool) : M unit :=
  t ← now;
  _ ← UpdateSession ws (ev_SessionId ev)
        (λ r, if negb (bool_decide (SR.NodeID r = nodeID)) then (tt, r)
              else
                let r := if bool_decide (ev_HostSessionId ev ≠ "")
                         then r <| SR.HostSessionID := ev_HostSessionId ev |> else r in
                (tt, event_update ev t r))
        (λ r s, if ends && bool_decide (SR.NodeID r = nodeID)
                then overlay_release (SR.WorkspaceID r) (SR.OverlayIP r) s else s);
  mret tt.

Definition handleSessionEvent (ws nodeID : string) (ev : SessionEvent) : M unit :=
  let ev_is e := bool_decide (Event ev = e) in
  _ ← (if ev_is "established" || ev_is "attached" || ev_is "detached" then update_own ws nodeID ev false
       else if ev_is "ended" || ev_is "rejected" then
         _ ← update_own ws nodeID ev true; unregister (ev_SessionId ev)
       else if ev_is "revoked" then confirmRevokeDelivered ws (ev_SessionId ev) nodeID
       else mret tt);
  _ ← Append "session_event" "" nodeID (ev_SessionId ev)
        (<["event" := Event ev]> (<["detail" := Detail ev]>
          (<["host_session_id" := ev_HostSessionId ev]> (<["exit_code" := pretty (ev_ExitCode ev)]>
            (<["path_class" := PathClass ev]> {[ "epoch" := pretty (ev_Epoch ev) ]})))));
  mret tt.

(** ** The presence heartbeat (presence.go, userapi.go) *)

(** [fresh] is the challenge the controller would mint. *)
Definition verifyPresenceSession (ws sessionID : string) (att : Attestation) (fresh : bytes)
    : M (result presence_err (option bytes)) :=
  r ← GetSession ws sessionID;
  match r with
  | Err _ => mret (Err NoSuchSessionP)
  | Ok rec =>
      susp ← IsSuspended (SR.WorkspaceID rec) (SR.Provider rec) (SR.Subject rec);
      if (susp : bool) then mret (Err PrincipalSuspended)
      else if negb (SR.RequirePresence rec) || (p_TTL presence <=? 0) then mret (Ok None)
      else if Counter att <=? SR.LastPresenceCounter rec then mret (Err NonMonotonicCounter)
      else
        enrolled ← view (λ s, Ok (enrolledCreds (members s) ws (SR.Provider rec) (SR.Subject rec)));
        t ← now;
        match verifyBeat (AllowSoftware presence) (HeartbeatInterval presence / second) (Unix t) fresh att
                sessionID (SR.PresenceChallenge rec) (SR.PrevPresenceChallenge rec)
                (SR.PrevChallengeUnix rec) (match enrolled with Ok l => l | Err _ => [] end) with
        | Err e => mret (Err e)
        | Ok next =>
            t ← now;
            _ ← UpdateSession ws sessionID
                  (λ r, (tt, r <| SR.PrevPresenceChallenge := SR.PresenceChallenge r |>
                               <| SR.PrevChallengeUnix := Unix t |> <| SR.PresenceChallenge := next |>
                               <| SR.LastPresenceUnix := Unix t |>
                               <| SR.LastPresenceCounter := Counter att |>)) (λ _ s, s);
            mret (Ok (Some next))
        end
  end.

Inductive heartbeat_err : Type := HBNoSession | HBOtherPrincipal | HBPresence (e : presence_err).

Definition beats_own_session (ident : Identity) (rec : SR.SessionRecord) : bool :=
  if bool_decide (SR.Subject rec ≠ "") then
    bool_decide (Subject ident = SR.Subject rec)
    && bool_decide (normProvider (Provider ident) = normProvider (SR.Provider rec))
  else bool_decide (i_Name ident = SR.User rec).

Definition Heartbeat (ident : Identity) (sid : string) (att : Attestation) (fresh : bytes)
    : M (result heartbeat_err (option bytes)) :=
  r ← GetSession (i_Workspace ident) sid;
  match r with
  | Err _ => mret (Err HBNoSession)
  | Ok rec =>
      if negb (beats_own_session ident rec) then mret (Err HBOtherPrincipal)
      else
        v ← verifyPresenceSession (i_Workspace ident) sid att fresh;
        mret (match v with Ok n => Ok n | Err e => Err (HBPresence e) end)
  end.

(** [UploadRecording]'s last step: the replay badge. *)
Definition mark_recorded (ws sessionID : string) : M unit :=
  _ ← UpdateSession ws sessionID (λ r, (tt, r <| SR.Recorded := true |>)) (λ _ s, s); mret tt.
End Sessions.
