(* ===== verification/Nodes.v ===== *)
(** * Node admission, quarantine and binary drift

    The admission gate of a node and its measured binary (controller/continuousauthz.go,
    [quarantineNode] to [rebaselineNode]), node removal (adminapi.go), the registration
    of a control stream (nodecontrol.go) and the stable overlay address (dns.go), as programs over [Store.server].

    This file holds the definitions; their theorems are in Control and Fanout. *)
From Stdlib Require Import ZArith Lia.
From stdpp Require Import base gmap list strings pretty relations.
From S2P Require Import Prelude Envelope Trust Grant Policy Lease DenyCache Overlay Proc Codec Login.
From S2P Require Import Members Store Sessions.
Local Open Scope Z_scope.

Section Nodes.
Context `{GrantKeys, Rendering} `{JSONEncode LeasePayload, JSONEncode DeltaPayload,
  JSONEncode RevokePayload, JSONEncode Signed}.
Context (presence : presence_config) (controllerID : string).

(** The overlay peers of a workspace are pushed again. *)
Definition repushAllNetworks (ws : string) : M unit :=
  write (λ s, s <| effects ::= λ l, l ++ [RepushNetworks ws] |>).

(** ** Quarantine and approval *)

(** The caller's detail never overrides the three fields of the event. *)
Definition quarantine_detail (reason by_ : string) (revoked : nat) (detail : gmap string string)
    : gmap string string :=
  (<["reason" := reason]> (<["by" := by_]> {[ "sessions_revoked" := pretty revoked ]})) ∪ detail.

Definition quarantineNode (ws nodeID reason by_ : string) (detail : gmap string string)
    : M (option store_err) :=
  r ← QuarantineNode ws nodeID reason by_ detail;
  match r with
  | Err e => mret (Some e)
  | Ok _ =>
      revoked ← revokeByNodeID ws nodeID (String.append "quarantined: " reason);
      _ ← repushAllNetworks ws;
      _ ← AppendWS ws "node_quarantined" by_ nodeID "" (quarantine_detail reason by_ revoked detail);
      mret None
  end.

Inductive approve_err : Type :=
| ReasonRequired | ApproveStore (e : store_err).

Definition approveNodeWithReason (ws : string) (node : NR.NodeRecord) (approve : bool)
    (reason by_ : string) : M (option approve_err) :=
  let reason := TrimSpace reason in
  if negb approve then
    let reason := if bool_decide (reason = "") then "manual" else reason in
    r ← quarantineNode ws (NR.ID node) reason by_ {[ "name" := NR.Name node ]};
    mret (option_map ApproveStore r)
  else
    q ← GetQuarantine ws (NR.ID node);
    if match q with Err e => bool_decide (e ≠ ErrNotFound) | Ok _ => false end
    then mret (Some (ApproveStore ErrStore))
    else if is_ok q && bool_decide (reason = "") then mret (Some ReasonRequired)
    else
      t ← now;
      r ← SetNodeApproval ws (NR.ID node) true by_ t;
      match r with
      | Err e => mret (Some (ApproveStore e))
      | Ok _ =>
          let detail := <["decision" := "approve"]> {[ "name" := NR.Name node ]} in
          let detail := if bool_decide (reason = "") then detail else <["reason" := reason]> detail in
          let detail := match q with Ok q => <["cleared_quarantine" := qr_Reason q]> detail | Err _ => detail end in
          _ ← AppendWS (NR.WorkspaceID node) "node_approval" by_ (NR.ID node) "" detail;
          _ ← repushAllNetworks ws;
          mret None
      end.

(** ** Binary drift *)

(** The measurement is older than a fresh re-approval: the approval wins.  A failed
    quarantine still closes the admission gate. *)
Definition driftQuarantine (ws nodeID reason : string) (measuredUnix : Z) (detail : gmap string string)
    : M unit :=
  fresh ← GetNode ws nodeID;
  if match fresh with Ok n => NR.Approved n && (measuredUnix <? NR.ApprovedAtUnix n) | Err _ => false end
  then mret tt
  else
    r ← quarantineNode ws nodeID reason "system" detail;
    match r with
    | None => mret tt
    | Some _ => t ← now; _ ← SetNodeApproval ws nodeID false "system" t; mret tt
    end.

Definition evaluateBinaryDrift (ws nodeID : string) (binHash : bytes) : M unit :=
  if (length binHash =? 0)%nat then mret tt
  else
    t ← now;
    let measuredUnix := Unix t in
    r ← RecordNodeMeasurement ws nodeID binHash measuredUnix;
    match r with
    | Err _ => mret tt
    | Ok (drift, pinned, node) =>
        if (pinned : bool) then
          m ← PublishedManifestForHash "geneza-agent" (hex_encode binHash);
          match m with
          | Ok m => _ ← RepinBaseline ws nodeID binHash (Unix (CreatedAt m)); mret tt
          | Err _ => mret tt
          end
        else if negb drift then mret tt
        else
          m ← PublishedManifestForHash "geneza-agent" (hex_encode binHash);
          match m with
          | Ok m =>
              if (0 <? NR.ApprovedBinaryCreatedUnix node)
                 && (Unix (CreatedAt m) <? NR.ApprovedBinaryCreatedUnix node)
              then driftQuarantine ws nodeID "binary_downgrade" measuredUnix
                     (<["measured_hash" := hex_encode binHash]> {[ "to_version" := m_Version m ]})
              else
                p ← RepinBaseline ws nodeID binHash (Unix (CreatedAt m));
                match p with
                | Err _ => mret tt
                | Ok _ =>
                    _ ← AppendWS ws "node_binary_updated" "system" nodeID ""
                          (<["binary_hash" := hex_encode binHash]> {[ "version" := m_Version m ]});
                    mret tt
                end
          | Err e =>
              driftQuarantine ws nodeID "binary_tamper" measuredUnix
                (<["measured_hash" := hex_encode binHash]>
                   (if bool_decide (e = ErrNotFound)
                    then {[ "expected_hash" := hex_encode (NR.ApprovedBinaryHash node) ]}
                    else {[ "lookup_error" := "store" ]}))
          end
    end.

Inductive rebaseline_err : Type :=
| RebaselineReason | NoMeasurement | MeasurementChanged | RebaselineStore (e : store_err)
| RebaselineApprove (e : approve_err).

(** The answer is [(hash, approved, err)]. *)
Definition rebaselineNode (ws nodeRef reason expectHash by_ : string)
    : M (string * bool * option rebaseline_err) :=
  let reason := TrimSpace reason in
  if bool_decide (reason = "") then mret ("", false, Some RebaselineReason)
  else
    r ← FindNode ws nodeRef;
    match r with
    | Err e => mret ("", false, Some (RebaselineStore e))
    | Ok node =>
        if (length (NR.LastBinaryHash node) =? 0)%nat then mret ("", false, Some NoMeasurement)
        else
          let measured := hex_encode (NR.LastBinaryHash node) in
          let want := TrimSpace expectHash in
          if bool_decide (want ≠ "") && negb (EqualFold want measured)
          then mret ("", false, Some MeasurementChanged)
          else
            p ← RepinBaseline ws (NR.ID node) (NR.LastBinaryHash node) 0;
            match p with
            | Err e => mret ("", false, Some (RebaselineStore e))
            | Ok _ =>
                a ← AppendWS ws "node_rebaselined" by_ (NR.ID node) ""
                      (<["binary_hash" := measured]>
                        (<["previous_hash" := hex_encode (NR.ApprovedBinaryHash node)]> {[ "reason" := reason ]}));
                match a with
                | Some e => mret ("", false, Some (RebaselineStore e))
                | None =>
                    if NR.Approved node then mret (measured, true, None)
                    else
                      e ← approveNodeWithReason ws node true (String.append "rebaseline: " reason) by_;
                      mret (match e with
                            | Some e => (measured, false, Some (RebaselineApprove e))
                            | None => (measured, true, None)
                            end)
                end
            end
    end.

(** [RemoveNode] after the role check. *)
Definition RemoveNode (ws nodeRef by_ : string) : M (option store_err) :=
  r ← FindNode ws nodeRef;
  match r with
  | Err e => mret (Some e)
  | Ok node =>
      l ← ListSessions ws;
      _ ← (match l with
           | Ok recs =>
               each recs (λ rec,
                 if bool_decide (SR.NodeID rec = NR.ID node) && live_state (SR.State rec)
                 then _ ← revokeSession rec "node removed"; mret tt else mret tt)
           | Err _ => mret tt
           end);
      d ← DeleteNode ws (NR.ID node);
      match d with
      | Err e => mret (Some e)
      | Ok _ =>
          a ← AppendWS ws "node_remove" by_ (NR.ID node) "" {[ "name" := NR.Name node ]};
          match a with
          | Some e => mret (Some e)
          | None => _ ← repushAllNetworks ws; mret None
          end
      end
  end.
(** ** The control stream (nodecontrol.go) *)

Record ServiceAdvert := mkAdvert {
  ad_Name : string; ad_Kind : string; ad_Addr : string; ad_Labels : gmap string string }.

Record AgentHello := mkHello {
  he_NodeId : string; he_Version : string; he_Services : list ServiceAdvert; HomeRegion : string;
  ClusterConfigVersion : Z }.

Definition servicesFromHello (nodeID : string) (adverts : list ServiceAdvert) : list Service :=
  map (λ a, mkService (ad_Name a) (ad_Kind a) (ad_Addr a) nodeID (ad_Labels a))
    (filter (λ a, ad_Name a ≠ "" ∧ KnownServiceKind (ad_Kind a) = true) adverts).

Definition canonicalRegion (region : string) : string :=
  if bool_decide (region = "") then "default" else region.

Definition cloneConflictWindow : Z := 30 * second.

(** The node's home region, read and written back in two transactions. *)
Definition refresh_region (ws nodeID region : string) : M unit :=
  let hr := canonicalRegion region in
  if bool_decide (hr = "") then mret tt
  else
    r ← GetNode ws nodeID;
    match r with
    | Ok nr => if bool_decide (NR.Region nr = hr) then mret tt
               else _ ← PutNode ws (nr <| NR.Region := hr |>); mret tt
    | Err _ => mret tt
    end.

(** Two hosts present one identity at once: the stream displaced one that was beating
    from another address. *)
Definition clone_check (ws nodeID : string) (h : nat) (displaced : option nat) (host : string) : M unit :=
  _ ← setObservedIP h host;
  match displaced with
  | None => mret tt
  | Some d =>
      if (d =? h)%nat then mret tt
      else
        snap ← cloneSnapshot d;
        t ← now;
        if bool_decide (snap.1 ≠ "") && negb (bool_decide (snap.1 = host))
           && (t - snap.2 <? cloneConflictWindow)
        then
          _ ← quarantineNode ws nodeID "identity_clone" "system"
                (<["observed_ip" := host]> {[ "conflict_ip" := snap.1 ]});
          mret tt
        else mret tt
  end.

(** The deferred teardown of a stream. *)
Definition Stream_close (ws nodeID : string) (h : nat) : M unit :=
  _ ← Unregister nodeID h;
  ep ← read (λ s, match handles s !! h with Some x => h_affinityEpoch x | None => 0 end);
  _ ← (if ep =? 0 then mret tt
       else
         _ ← ReleaseAgentAffinity nodeID controllerID ep;
         _ ← ClearAdvertisedServices ws nodeID ep;
         mret tt);
  _ ← Append "node_disconnected" "" nodeID "" ∅;
  mret tt.

Inductive stream_err : Type :=
| HelloMismatch | NotEnrolled | ClaimFailed | StreamAudit | StreamSend.

(** [Stream] up to its receive loop, without the best-effort pushes of desired state;
    [host] is the peer's address when it parses, [ccVersion] the current cluster
    configuration. *)
Definition Stream_open (ccVersion : Z) (ident : Identity) (hello : AgentHello) (host : option string)
    : M (result stream_err nat) :=
  let ws := i_Workspace ident in
  let nodeID := i_Name ident in
  if negb (bool_decide (he_NodeId hello = nodeID)) then mret (Err HelloMismatch)
  else
    n ← GetNode ws nodeID;
    if negb (is_ok n) then mret (Err NotEnrolled)
    else
      let services := servicesFromHello nodeID (he_Services hello) in
      p ← Register nodeID services;
      t ← now;
      c ← ClaimAgentAffinity nodeID controllerID t;
      match c with
      | Err _ => _ ← Unregister nodeID p.1; mret (Err ClaimFailed)
      | Ok epoch =>
          _ ← setAffinityEpoch p.1 epoch;
          _ ← PutAdvertisedServices ws nodeID epoch services;
          _ ← refresh_region ws nodeID (HomeRegion hello);
          _ ← (match host with
               | Some ip => clone_check ws nodeID p.1 p.2 ip
               | None => mret tt
               end);
          a ← Append "node_connected" "" nodeID ""
                (<["version" := he_Version hello]> {[ "config" := pretty (ClusterConfigVersion hello) ]});
          match a with
          | Some _ => _ ← Stream_close ws nodeID p.1; mret (Err StreamAudit)
          | None =>
              sent ← (if ClusterConfigVersion hello <? ccVersion
                      then handle_send nodeID (MsgFleet ccVersion) else mret true);
              if negb sent then _ ← Stream_close ws nodeID p.1; mret (Err StreamSend)
              else _ ← redeliverPendingRevokes presence nodeID; mret (Ok p.1)
          end
      end.

(** The messages of the receive loop that change this state; the others are acks
    (Broker.v), metrics, inventory and ICE signaling. *)
Inductive agent_report : Type :=
| ReportHeartbeat (binaryHash : bytes)
| ReportEvent (ev : SessionEvent)
| ReportEndpoints (ports : list (Z * Z)).

Definition Stream_recv (ident : Identity) (h : nat) (m : agent_report) : M unit :=
  match m with
  | ReportHeartbeat bh =>
      t ← now;
      _ ← on_handle h (λ x, x <| LastSeen := t |>);
      if (0 <? length bh)%nat then evaluateBinaryDrift (i_Workspace ident) (i_Name ident) bh else mret tt
  | ReportEvent ev => handleSessionEvent (i_Workspace ident) (i_Name ident) ev
  | ReportEndpoints ports =>
      changed ← each_acc ports false (λ b p, c ← setWGPort h p.1 p.2; mret (c || b));
      if (changed : bool) then repushAllNetworks (i_Workspace ident) else mret tt
  end.

(** ** The stable overlay address (dns.go) *)

(** The body under [overlayMu]. *)
Definition ensureNodeOverlayIP (node : NR.NodeRecord) : M (option string) :=
  if bool_decide (NR.OverlayIP node ≠ "") then mret (Some (NR.OverlayIP node))
  else
    fresh ← GetNode (NR.WorkspaceID node) (NR.ID node);
    if match fresh with Ok n => bool_decide (NR.OverlayIP n ≠ "") | Err _ => false end
    then mret (match fresh with Ok n => Some (NR.OverlayIP n) | Err _ => None end)
    else
      all ← view (λ s, Ok (filter (λ e : (string * string) * NR.NodeRecord, e.1.1 = NR.WorkspaceID node)
                             (map_to_list (nodes s))).*2);
      let used := match all with
                  | Ok l => list_to_set (filter (λ ip, ip ≠ "") (map NR.OverlayIP l))
                  | Err _ => ∅
                  end in
      match allocMachineIP used with
      | None => mret None
      | Some ip =>
          let updated := match fresh with Ok n => n | Err _ => node end in
          r ← PutNode (NR.WorkspaceID updated) (updated <| NR.OverlayIP := ip |>);
          mret (match r with Ok _ => Some ip | Err _ => None end)
      end.

End Nodes.
