(* ===== verification/Enrolling.v ===== *)
(** * Enrollment of nodes and their pairing with instances (enroll.go, console_pair.go)

    The handler that admits a new node, from the evidence its provider verified, and the
    handler by which an operator pairs a node with the instance it reports, as programs
    over [Store.server].  The verification of the evidence, the issuing of the
    certificate, the drawing of ids and the list of bindings are values of the call. *)
From Stdlib Require Import ZArith Lia Strings.Byte Strings.Ascii.
From stdpp Require Import base gmap list strings.
From S2P Require Import Prelude Proc Store Nodes.
Local Open Scope Z_scope.

(** ** Labels *)

Definition reservedLabelPrefix : string := "os:".
Definition launchInstanceLabel : string := "os:instance".
Definition launchProjectLabel : string := "os:project".
Definition osCloudLabel : string := "os:cloud".
Definition claimedInstanceLabel : string := "os.claim:instance".
Definition claimedProjectLabel : string := "os.claim:project".

(** A missing key of a Go map reads as the empty string. *)
Definition label (m : gmap string string) (k : string) : string := default "" (m !! k).

Definition mergeEnrollLabels (agent provider : gmap string string) : gmap string string :=
  provider ∪ filter (λ e, has_prefix e.1 reservedLabelPrefix = false) agent.

Definition crossCheckInstanceClaim (agent provider : gmap string string) : bool :=
  let pinned := label provider launchInstanceLabel in
  let claimed := label agent claimedInstanceLabel in
  bool_decide (pinned = "") || bool_decide (claimed = "") || bool_decide (pinned = claimed).

(** The nodes of a workspace; their order is left open and not used. *)
Definition ListNodes (ws : string) : M (result store_err (list NR.NodeRecord)) :=
  view (λ s, Ok (filter (λ e : (string * string) * NR.NodeRecord, e.1.1 = ws) (map_to_list (nodes s))).*2).

(** Whether a node holds the instance of the labels. *)
Definition holds_instance (labels : gmap string string) (n : NR.NodeRecord) : bool :=
  bool_decide (label (NR.Labels n) launchInstanceLabel = label labels launchInstanceLabel) &&
  negb (bool_decide (label (NR.Labels n) osCloudLabel ≠ "") &&
        negb (bool_decide (label (NR.Labels n) osCloudLabel = label labels osCloudLabel))).

(** The labels as the function leaves them, or a refusal. *)
Definition enforceInstanceUniqueness (ws : string) (labels : gmap string string) : M (option (gmap string string)) :=
  if bool_decide (label labels launchInstanceLabel = "") then mret (Some labels)
  else
    l ← ListNodes ws;
    mret (match l with
          | Err _ => Some (delete launchInstanceLabel labels)
          | Ok l => if existsb (holds_instance labels) l then None else Some labels
          end).

(** ** Enrollment *)

Record EnrollRequest := mkEnrollRequest {
  er_Provider : string; er_RequestedName : string; er_NoiseStaticPub : bytes; er_CsrPem : bytes; er_WgStaticPub : bytes;
  er_Platform : PlatformRecord; er_Labels : gmap string string }.

(** What a provider verified. *)
Record EnrollResult := mkEnrollResult {
  res_Labels : gmap string string; SuggestedName : string; AutoApprove : bool; res_Workspace : string }.

Record enroll_env := mkEnrollEnv { configured : bool; verified : option EnrollResult; new_nodeID : option string; issued : bool }.

Inductive enroll_err : Type :=
| UnknownProvider | EnrollAudit | NotVerified | BadNoiseKey | NoCSR | BadWGKey | NodeIDRand | ClaimMismatch | DuplicateInstance | BadCSR
| EnrollStore.

Definition defaultWorkspace : string := "default".

(** The closure [deny]: the refusal is audited, and a failure of that is the answer.  The
    [reason] is without the text of the error that follows it. *)
Definition enroll_deny (req : EnrollRequest) (reason : string) (e : enroll_err) : M (result enroll_err NR.NodeRecord) :=
  a ← Append "enroll" (er_Provider req) "" ""
        (<["decision" := "deny"]> (<["reason" := reason]> {[ "requested_name" := er_RequestedName req ]}));
  mret (Err (match a with Some _ => EnrollAudit | None => e end)).

(** Automatic approval, narrowed by the proof of the instance and by a quarantine of the host. *)
Definition proven (req : EnrollRequest) (provLabels : gmap string string) : bool :=
  bool_decide (label provLabels launchInstanceLabel = "") ||
  bool_decide (label (er_Labels req) claimedInstanceLabel = label provLabels launchInstanceLabel).

Definition not_quarantined (ws : string) (req : EnrollRequest) (nodeID name : string) (autoApprove : bool) : M bool :=
  let hu := HostUUID (er_Platform req) in
  if bool_decide (hu ≠ "") && autoApprove then
    q ← FindQuarantineByHostUUID ws hu;
    match q with
    | Ok _ => _ ← Append "enroll_quarantined_identity" (er_Provider req) nodeID "" (<["host_uuid" := hu]> {[ "name" := name ]}); mret false
    | Err ErrNotFound => mret true
    | Err _ => mret false
    end
  else mret autoApprove.

Definition enrolled (ws nodeID name : string) (labels : gmap string string) (req : EnrollRequest) (autoApprove : bool) (t : Z) :
    NR.NodeRecord :=
  NR.mk ws nodeID name labels (er_NoiseStaticPub req) (er_Platform req) (Unix t) autoApprove
    (if autoApprove then String.append "auto:" (er_Provider req) else "") (if autoApprove then Unix t else 0) "" (er_WgStaticPub req) "" [] 0
    [] 0.

Definition Enroll (env : enroll_env) (req : EnrollRequest) : M (result enroll_err NR.NodeRecord) :=
  if negb (configured env) then mret (Err UnknownProvider)
  else match verified env with
  | None => enroll_deny req "provider" NotVerified
  | Some res =>
      let ws := first_of (res_Workspace res) defaultWorkspace in
      if negb (length (er_NoiseStaticPub req) =? 32)%nat then enroll_deny req "bad noise static key length" BadNoiseKey
      else if (length (er_CsrPem req) =? 0)%nat then enroll_deny req "missing CSR" NoCSR
      else if negb (length (er_WgStaticPub req) =? 0)%nat && negb (length (er_WgStaticPub req) =? 32)%nat
      then enroll_deny req "bad wg static key length" BadWGKey
      else match new_nodeID env with
      | None => mret (Err NodeIDRand)
      | Some nodeID =>
          let name := first_of (first_of (first_of (er_RequestedName req) (SuggestedName res)) (Hostname (er_Platform req))) nodeID in
          if negb (crossCheckInstanceClaim (er_Labels req) (res_Labels res)) then enroll_deny req "instance claim mismatch" ClaimMismatch
          else
            let unproven := AutoApprove res && negb (proven req (res_Labels res)) in
            _ ← (if unproven
                 then Append "enroll_unproven_instance" (er_Provider req) "" ""
                        (<["instance" := label (res_Labels res) launchInstanceLabel]> {[ "claimed" := label (er_Labels req) claimedInstanceLabel ]})
                 else mret None);
            u ← enforceInstanceUniqueness ws (mergeEnrollLabels (er_Labels req) (res_Labels res));
            match u with
            | None => enroll_deny req "duplicate instance" DuplicateInstance
            | Some labels =>
                if negb (issued env) then enroll_deny req "bad CSR" BadCSR
                else
                  autoApprove ← not_quarantined ws req nodeID name (AutoApprove res && negb unproven);
                  t ← now;
                  let rec := enrolled ws nodeID name labels req autoApprove t in
                  p ← PutNode ws rec;
                  match p with
                  | Err _ => mret (Err EnrollStore)
                  | Ok _ =>
                      a ← Append "enroll" (er_Provider req) nodeID ""
                            (<["decision" := "allow"]> (<["name" := name]> {[ "approved" := if autoApprove : bool then "true" else "false" ]}));
                      match a with
                      | Some _ => mret (Err EnrollAudit)
                      | None => _ ← (if autoApprove : bool then repushAllNetworks ws else mret tt); mret (Ok rec)
                      end
                  end
            end
      end
  end.

(** ** Pairing (console_pair.go) *)

Record consoleUser := mkConsoleUser { cu_Workspace : string; cu_Name : string; cu_Provider : string }.

Inductive pair_err : Type :=
| OperatorOnly | PairNoNode | NoClaim | OtherInstance | NoBinding | OtherProject | PairDuplicate | PairStore.

(** The bindings as [ListSourceBindings] returns them: a key and a workspace. *)
Definition workspaceOpenStackBinding (bindings : option (list (string * string))) (ws : string) : option (string * string) :=
  match bindings with
  | None => None
  | Some all =>
      match omap (λ b : string * string, if bool_decide (b.2 = ws) then cut_prefix b.1 "openstack:project:" else None) all with
      | [b] =>
          match split_first ":" b with
          | Some (svc, proj) => if bool_decide (svc = "") || bool_decide (proj = "") then None else Some (svc, proj)
          | None => None
          end
      | _ => None
      end
  end.

Definition handlePairInstance (u : consoleUser) (ref bodyInstance : string) (bindings : option (list (string * string))) :
    M (result pair_err NR.NodeRecord) :=
  if bool_decide (cu_Provider u = "keystone") then mret (Err OperatorOnly)
  else
    f ← FindNode (cu_Workspace u) ref;
    match f with
    | Err _ => mret (Err PairNoNode)
    | Ok node =>
        let claimed := label (NR.Labels node) claimedInstanceLabel in
        if bool_decide (claimed = "") then mret (Err NoClaim)
        else if bool_decide (bodyInstance ≠ "") && negb (bool_decide (bodyInstance = claimed)) then mret (Err OtherInstance)
        else match workspaceOpenStackBinding bindings (cu_Workspace u) with
        | None => mret (Err NoBinding)
        | Some (svcUID, project) =>
            let cp := label (NR.Labels node) claimedProjectLabel in
            if bool_decide (cp ≠ "") && negb (bool_decide (cp = project)) then mret (Err OtherProject)
            else
              let labels := <[osCloudLabel := svcUID]> (<[launchProjectLabel := project]> (<[launchInstanceLabel := claimed]> (NR.Labels node))) in
              e ← enforceInstanceUniqueness (cu_Workspace u) labels;
              match e with
              | None => mret (Err PairDuplicate)
              | Some labels =>
                  let node := node <| NR.Labels := labels |> in
                  p ← PutNode (cu_Workspace u) node;
                  match p with
                  | Err _ => mret (Err PairStore)
                  | Ok _ =>
                      _ ← AppendWS (cu_Workspace u) "node_instance_paired" (String.append "console:" (cu_Name u)) (NR.ID node) ""
                            (<["instance" := claimed]> (<["project" := project]> (<["cloud" := svcUID]> {[ "provider" := cu_Provider u ]})));
                      mret (Ok node)
                  end
              end
        end
    end.

(** ** What enrollment grants *)

(** A reserved label of a new node is one the evidence pinned. *)
Lemma reserved_from_evidence (agent provider : gmap string string) (k v : string) :
  has_prefix k reservedLabelPrefix = true → mergeEnrollLabels agent provider !! k = Some v → provider !! k = Some v.
Proof.
  intros Hk. unfold mergeEnrollLabels. rewrite lookup_union_Some_raw. intros [?|[_ Hf]]; [done|].
  apply map_lookup_filter_Some in Hf as [_ Hf]. cbn in Hf. congruence.
Qed.

(** An approval needs a quarantine lookup that found nothing. *)
Lemma approval_checked (ws : string) (req : EnrollRequest) (nodeID name : string) (auto : bool) (s : server) :
  HostUUID (er_Platform req) ≠ "" → (run (not_quarantined ws req nodeID name auto) s).1 = true →
  auto = true ∧ next_fault s = FaultNone ∧
  ∀ k q, quarantines s !! k = Some q → qr_Workspace q = ws → qr_HostUUID q ≠ HostUUID (er_Platform req).
Proof.
  intros Hu. unfold not_quarantined. rewrite bool_decide_eq_true_2 by done. destruct auto; cbn [andb]; [|done].
  rewrite run_bind. unfold FindQuarantineByHostUUID. rewrite bool_decide_eq_false_2 by done. unfold view, atomic. cbn [run].
  destruct (next_fault s) eqn:Ef; cbn [fst snd]; [|done|done].
  destruct (last (filter _ _)) as [q|] eqn:El; cbn [of_option]; [by rewrite run_bind|]. intros _. split_and!; [done|done|].
  intros k q Hk Hw Hh. apply last_None in El. assert (q ∈ filter (λ q, qr_Workspace q = ws ∧ qr_HostUUID q = HostUUID (er_Platform req))
    (map_to_list (quarantines s)).*2) as Hin.
  { apply list_elem_of_filter. split; [done|]. apply list_elem_of_fmap. exists (k, q). split; [done|]. by apply elem_of_map_to_list. }
  rewrite El in Hin. by apply elem_of_nil in Hin.
Qed.
