(* ===== verification/Broker.v ===== *)
(** * The session broker (controller/broker.go, userapi.go)

    [CreateSession] turns an authenticated request into a signed single-session grant:
    it resolves the node and the service, applies the admission gate, the suspension
    gate and the policy, signs the grant, records the session, offers it to the agent
    and arms the first lease.  [ReissueGrant] re-mints the rendezvous of a live
    session.  Both are programs over [Store.server], so other handlers may run between
    any two of their steps.

    Randomness (ids, tokens, challenges), the live relay fleet and the agent's answer
    are arguments.  TURN credentials, which ride the offer and the response beside the
    grant, are left out. *)
From Stdlib Require Import ZArith Lia Strings.Byte Strings.Ascii.
From stdpp Require Import base gmap list strings pretty relations.
From S2P Require Import Prelude Wire Tunnel Envelope Trust Grant Policy Lease DenyCache Overlay Proc Codec Login.
From S2P Require Import Members Store Sessions.
Local Open Scope Z_scope.

(** ** Forward targets *)

Inductive target_err : Type := TargetNotHostPort | TargetEmptyHost | TargetBadPort (port : string).

Definition validForwardTarget (t : string) : option target_err :=
  match SplitHostPort t with
  | None => Some TargetNotHostPort
  | Some (host, port) =>
      if bool_decide (host = "") then Some TargetEmptyHost
      else match Atoi port with
           | None => Some (TargetBadPort port)
           | Some p => if (p <? 1) || (65535 <? p) then Some (TargetBadPort port) else None
           end
  end.

(** ** Services and relays *)

Definition implicitServices (nodeID : string) : list Service :=
  [mkService "shell" KindShell "" nodeID ∅; mkService "exec" KindExec "" nodeID ∅;
   mkService "sftp" KindSFTP "" nodeID ∅].

Definition named (name : string) (l : list Service) : option Service :=
  head (filter (λ svc, sv_Name svc = name) l).

Definition resolveService (nodeID name : string) : M (option Service) :=
  match named name (implicitServices nodeID) with
  | Some svc => mret (Some svc)
  | None =>
      adv ← Services nodeID;
      match adv with
      | Some l => mret (named name l)
      | None =>
          ws ← WorkspaceForNode nodeID;
          match ws with
          | Err _ => mret None
          | Ok ws =>
              l ← AdvertisedServices ws nodeID;
              mret (match l with Ok l => named name l | Err _ => None end)
          end
      end
  end.

Definition excludeRelayAddr (floor : list string) (dead : string) : list string :=
  if bool_decide (dead = "") then floor
  else let out := filter (λ a, a ≠ dead) floor in
       if (length out =? 0)%nat then floor else out.

Definition excludeRelayCandidate (cands : list RelayCandidate) (deadID : string) : list RelayCandidate :=
  if bool_decide (deadID = "") then cands else filter (λ c, rc_RelayID c ≠ deadID) cands.

(** [vniForWorkspace]: FNV-1a on 32 bits, cut to 24. *)
Definition fnv_step (h : Z) (c : ascii) : Z :=
  wrap_u32 (Z.lxor h (Z.of_N (N_of_ascii c)) * 16777619).

Definition vniForWorkspace (id : string) : Z :=
  if bool_decide (id = "default") then 1
  else
    let v := Z.land (fold_left fnv_step (String.list_ascii_of_string id) 2166136261) 16777215 in
    if (v =? 0) || (v =? 1) then v + 2 else v.

(** ** Configuration, requests and answers *)

Record ControllerEndpoint := mkEndpoint { ep_ControllerID : string; ep_Addrs : list string }.

(** The fields of [Broker] that are fixed at start. [p2pHook] is [sessionP2P != nil],
    [SessionP2P] the configuration switch of the hook. *)
Record broker_config := mkBrokerConfig {
  relayAddrs : list string; grantTTL : Z; defaultMaxTTL : Z; p2pHook : bool; SessionP2P : bool;
  presenceHeartbeat : Z; b_controllerID : string; clusterControllers : list ControllerEndpoint }.

Record CreateSessionRequest := mkRequest {
  rq_Node : string; rq_Action : string; rq_Service : string; rq_Command : string;
  rq_ForwardTarget : string; rq_AttachSessionId : string; WantPty : bool; WantDetachable : bool;
  rq_ClientNoisePub : bytes; rq_ClientPath : string; rq_HomeRegion : string }.

(** What a call draws from the system: the new ids ([None] when the source fails), the
    challenge, the healthy relay addresses ([None] without the resolver), the signed
    candidates for a session, and the agent's answer to the offer. *)
Record broker_env := mkBrokerEnv {
  new_sessionID : option string; new_token : option string; new_challenge : bytes;
  liveFloor : option (list string); candidates : string → string → string → list RelayCandidate;
  offer_answer : result string (bool * string) }.

Inductive session_response : Type :=
| Redirect (controllerID : string) (addrs : list string)
| Created (signedGrant : bytes) (relayAddr : string) (relayFloor : list string) (relayToken : string)
    (agentNoisePub : bytes) (sessionID : string) (cands : list RelayCandidate)
    (presence : option (Z * bytes)).

Inductive broker_err : Type :=
| NodeNotFound (ref : string) | ResolveNode (e : store_err) | ServiceNotFound (name : string)
| UnknownAction (a : string) | ExecRequiresCommand | BadForwardTarget (e : target_err)
| VPNRequiresRoute | AttachRequiresID | BadClientKey | AttachDenied | NodePending | Suspended
| NodeOffline | PolicyDenied (reason : string) | DetachNotPermitted | PresenceNeedsNative
| RandFailed | BadRoute (cidr : string) | OverlayExhausted | SignFailed | StoreFailed
| OfferRejected (reason : string) | AuditFailed | IndexPanic.

(** [policyFor(ws).Evaluate], with the reason it gives. *)
Definition engine_evaluate `{Rendering} (engine : option Doc) (clock : gotime) (i : Input)
    : Decision * string :=
  match engine with
  | None => (no_decision (NoRoles ""), "unknown workspace"%string)
  | Some d => let r := Evaluate d clock i in (r, reason_text (Policy.Reason r))
  end.

(** The failures of an attach, which the caller collapses to one denial. *)
Inductive attach_err : Type :=
| AttachSession (e : store_err) | AttachOwner | AttachNoHost | AttachState | AttachNode (e : store_err)
| AttachOtherNode.

Section Broker.
Context `{GrantKeys, Rendering} `{JSONEncode LeasePayload, JSONEncode SessionGrant, JSONEncode Signed}.
Context (validCIDR : string → bool) (cfg : broker_config).
Context (quote : string → string) (attach_text : attach_err → string).

Definition floorAddrs (live : option (list string)) : list string :=
  match live with
  | Some (a :: l) => a :: l
  | _ => relayAddrs cfg
  end.

Definition redirectFor (nodeID : string) : M (option (string * list string)) :=
  if (length (clusterControllers cfg) =? 0)%nat then mret None
  else
    a ← AgentAffinity nodeID;
    mret (match a with
          | None => None
          | Some (owner, _) =>
              if bool_decide (owner = "") || bool_decide (owner = b_controllerID cfg) then None
              else match head (filter (λ gw, ep_ControllerID gw = owner ∧ ep_Addrs gw ≠ [])
                                 (clusterControllers cfg)) with
                   | Some gw => Some (owner, ep_Addrs gw)
                   | None => None
                   end
          end).

(** ** Denials and attachment *)

Definition deny (user : string) (req : CreateSessionRequest) (nodeID reason : string)
    (denyErr : broker_err) : M broker_err :=
  r ← Append "session_request" user nodeID ""
        (<["decision" := "deny"]> (<["action" := rq_Action req]> (<["reason" := reason]>
          (<["node_arg" := rq_Node req]> {[ "client_path" := rq_ClientPath req ]}))));
  mret (match r with Some _ => AuditFailed | None => denyErr end).

Definition resolveAttach (ws user : string) (req : CreateSessionRequest)
    : M (result attach_err (SR.SessionRecord * NR.NodeRecord)) :=
  r ← GetSession ws (rq_AttachSessionId req);
  match r with
  | Err e => mret (Err (AttachSession e))
  | Ok rec =>
      if negb (bool_decide (SR.User rec = user)) then mret (Err AttachOwner)
      else if bool_decide (SR.HostSessionID rec = "") then mret (Err AttachNoHost)
      else if negb (live_state (SR.State rec)) then mret (Err AttachState)
      else
        n ← GetNode ws (SR.NodeID rec);
        match n with
        | Err e => mret (Err (AttachNode e))
        | Ok node =>
            if bool_decide (rq_Node req = "") then mret (Ok (rec, node))
            else
              named ← FindNode ws (rq_Node req);
              mret (match named with
                    | Ok x => if bool_decide (NR.ID x = NR.ID node) then Ok (rec, node) else Err AttachOtherNode
                    | Err _ => Err AttachOtherNode
                    end)
        end
  end.

Definition find_target (ws ref : string) : M (result broker_err NR.NodeRecord) :=
  r ← FindNode ws ref;
  mret (match r with
        | Ok n => Ok n
        | Err e => Err (if bool_decide (e = ErrNotFound) then NodeNotFound ref else ResolveNode e)
        end).

(** ** The stages of [createSession] *)

(** What is asked for, once a named service is resolved on its node. *)
Record target := mkTarget {
  tg_action : string; tg_forward : string; tg_node : option NR.NodeRecord; tg_svcName : string;
  tg_svcKind : string; tg_svcLabels : gmap string string; tg_routes : list string }.

Definition service_target (req : CreateSessionRequest) (node : NR.NodeRecord) (svc : Service) : target :=
  mkTarget (Action svc)
    (if contains [KindSubnet; KindExitNode; KindShell; KindExec; KindSFTP] (Grant.Kind svc)
     then rq_ForwardTarget req else sv_Addr svc)
    (Some node) (sv_Name svc) (Grant.Kind svc) (sv_Labels svc)
    (if bool_decide (Grant.Kind svc = KindSubnet) then [sv_Addr svc]
     else if bool_decide (Grant.Kind svc = KindExitNode) then ["0.0.0.0/0"%string] else []).

Definition resolve_target (ws : string) (req : CreateSessionRequest) : M (result broker_err target) :=
  if bool_decide (rq_Service req ≠ "") || bool_decide (rq_Action req = "connect")
     || bool_decide (rq_Action req = ActionVPN)
  then
    node ←? find_target ws (rq_Node req);
    svc ← resolveService (NR.ID node) (rq_Service req);
    mret (match svc with
          | None => Err (ServiceNotFound (rq_Service req))
          | Some svc => Ok (service_target req node svc)
          end)
  else mret (Ok (mkTarget (rq_Action req) (rq_ForwardTarget req) None "" "" ∅ [])).

(** The request-shape validation. *)
Definition request_shape (req : CreateSessionRequest) (tg : target) : option broker_err :=
  let is_a a := bool_decide (tg_action tg = a) in
  if negb (knownAction (tg_action tg)) then Some (UnknownAction (tg_action tg))
  else if is_a ActionExec && bool_decide (rq_Command req = "") then Some ExecRequiresCommand
  else match (if is_a ActionForward then validForwardTarget (tg_forward tg) else None) with
       | Some e => Some (BadForwardTarget e)
       | None =>
           if is_a ActionVPN && (length (tg_routes tg) =? 0)%nat then Some VPNRequiresRoute
           else if is_a ActionAttach && bool_decide (rq_AttachSessionId req = "") then Some AttachRequiresID
           else if negb (length (rq_ClientNoisePub req) =? 32)%nat then Some BadClientKey
           else None
       end.

(** The node, and the record an attach continues. *)
Definition resolve_node (ident : Identity) (req : CreateSessionRequest) (tg : target)
    : M (result broker_err (option SR.SessionRecord * NR.NodeRecord)) :=
  if bool_decide (tg_action tg = ActionAttach) then
    r ← resolveAttach (i_Workspace ident) (i_Name ident) req;
    match r with
    | Ok (rec, node) => mret (Ok (Some rec, node))
    | Err e => e ← deny (i_Name ident) req "" (attach_text e) AttachDenied; mret (Err e)
    end
  else match tg_node tg with
       | Some node => mret (Ok (None, node))
       | None => node ←? find_target (i_Workspace ident) (rq_Node req); mret (Ok (None, node))
       end.

(** The admission, suspension and liveness gates; [Ok (Some _)] redirects. *)
Definition gates (ident : Identity) (req : CreateSessionRequest) (node : NR.NodeRecord)
    : M (result broker_err (option (string * list string))) :=
  if negb (NR.Approved node) then
    e ← deny (i_Name ident) req (NR.ID node) "node pending approval" NodePending; mret (Err e)
  else
    susp ← IsSuspended (i_Workspace ident) (Provider ident) (Subject ident);
    if (susp : bool) then
      e ← deny (i_Name ident) req (NR.ID node) "principal suspended" Suspended; mret (Err e)
    else
      on ← Online (NR.ID node);
      if (on : bool) then mret (Ok None)
      else
        red ← redirectFor (NR.ID node);
        mret (match red with Some r => Ok (Some r) | None => Err NodeOffline end).

Definition broker_input (ident : Identity) (node : NR.NodeRecord) (tg : target) (clientPath : string)
    (t : gotime) : Input :=
  mkInput (i_Name ident) [] (DenyCache.Roles ident) (NR.ID node) (NR.Name node) (NR.Labels node)
    (tg_action tg) clientPath (tg_svcName tg) (tg_svcKind tg) (tg_svcLabels tg) t.

Definition detach_reason (node : NR.NodeRecord) (d : Decision) : string :=
  String.append "detachable sessions not permitted on node " (String.append (NR.Name node)
    (String.append " by role " (quote (MatchedRole d)))).

Definition presence_reason (node : NR.NodeRecord) : string :=
  String.append "presence-required target " (String.append (NR.Name node)
    " is only reachable via the native client (not the web path)").

(** The policy decision and the two refusals that depend on it. *)
Definition decide_policy (ident : Identity) (req : CreateSessionRequest) (clientPath : string)
    (node : NR.NodeRecord) (tg : target) (t : Z) : M (result broker_err (Decision * string)) :=
  engine ← read (λ s, policyEngines s !! i_Workspace ident);
  clock ← now;
  let refuse why err := e ← deny (i_Name ident) req (NR.ID node) why err; mret (Err e) in
  let '(d, reason) := engine_evaluate engine (local_time clock)
                        (broker_input ident node tg clientPath (local_time t)) in
  if negb (Policy.Allow d) then refuse reason (PolicyDenied reason)
  else if WantDetachable req && negb (Policy.AllowDetach d)
  then refuse (detach_reason node d) DetachNotPermitted
  else if bool_decide (clientPath = PathWeb) && Policy.RequirePresence d
  then refuse (presence_reason node) PresenceNeedsNative
  else mret (Ok (d, reason)).

(** The grant and the session record it is kept under. *)
Definition session_ttl (d : Decision) : Z :=
  if (0 <? Policy.MaxSessionTTL d) && (Policy.MaxSessionTTL d <? defaultMaxTTL cfg)
  then Policy.MaxSessionTTL d else defaultMaxTTL cfg.

Definition new_session_grant (ident : Identity) (req : CreateSessionRequest) (clientPath : string)
    (node : NR.NodeRecord) (tg : target) (attachRec : option SR.SessionRecord) (d : Decision) (t : Z)
    (sessionID relayToken overlayIP relayAddr : string) (floor : list string)
    (cands : list RelayCandidate) : SessionGrant :=
  mkSessionGrant 1 sessionID (i_Name ident) (DenyCache.Roles ident) (i_Workspace ident)
    (vniForWorkspace (i_Workspace ident)) (NR.ID node) (tg_action tg) (rq_Command req)
    (match attachRec with Some r => SR.HostSessionID r | None => "" end) (WantPty req)
    (WantDetachable req && Policy.AllowDetach d) (tg_forward tg) (rq_ClientNoisePub req)
    (NR.NoisePub node) relayAddr floor relayToken cands clientPath t (t + grantTTL cfg)
    (session_ttl d) (Policy.d_Record d && negb (bool_decide (tg_action tg = ActionVPN)))
    (tg_svcName tg) (tg_svcKind tg) (tg_routes tg) overlayIP.

Definition new_session_record (ident : Identity) (clientPath : string) (node : NR.NodeRecord)
    (tg : target) (d : Decision) (t : Z) (grant : SessionGrant) (signedBytes challenge : bytes)
    : SR.SessionRecord :=
  SR.mk (i_Workspace ident) (Grant.ID grant) (i_Name ident) (Provider ident) (Subject ident)
    (NR.ID node) (NR.Name node) (tg_action tg) SessionPending (Grant.AttachID grant) (Unix t) 0 0
    (Grant.AllowDetach grant) false (DenyCache.Roles ident) (g_Service grant) (Grant.ServiceKind grant)
    (tg_svcLabels tg) clientPath (Grant.OverlayIP grant) (Grant.ClientNoisePub grant)
    (Grant.AllowPTY grant)
    (if bool_decide (ForwardTarget grant ≠ "") then [ForwardTarget grant] else [])
    0 0 signedBytes "" false (Policy.RequirePresence d)
    (if Policy.RequirePresence d then Unix t else 0) 0
    (if Policy.RequirePresence d then challenge else []) [] 0.

Definition sign_grant (g : SessionGrant) : option bytes :=
  match Sign Marshal grantKey grantKeyID contextGrant g with
  | Err _ => None
  | Ok env => Marshal env
  end.

(** [SendOffer]: whether the agent accepted, and the reason otherwise. *)
Definition SendOffer (nodeID sessionID : string) (signedBytes : bytes)
    (answer : result string (bool * string)) : M (bool * string) :=
  on ← Online nodeID;
  if negb on then
    mret (false, String.append "node " (String.append nodeID " is not connected"))
  else
    sent ← send nodeID (MsgOffer sessionID signedBytes);
    mret (if negb sent then (false, String.append "send offer to " nodeID)
          else match answer with
               | Ok (accepted, reason) => (accepted, reason)
               | Err why => (false, why)
               end).

(** The offer and what follows the agent's answer; the flag is [overlayCommitted]. *)
Definition offer_session (env : broker_env) (ident : Identity) (req : CreateSessionRequest)
    (node : NR.NodeRecord) (tg : target) (d : Decision) (reason : string) (grant : SessionGrant)
    (rec : SR.SessionRecord) : M (bool * result broker_err session_response) :=
  let ws := i_Workspace ident in
  let sessionID := Grant.ID grant in
  _ ← (if p2pHook cfg && PathSupportsICE (Grant.ClientPath grant) && SessionP2P cfg
       then register sessionID ws (NR.ID node) (i_Name ident) (Subject ident) (Provider ident)
       else mret tt);
  a ← SendOffer (NR.ID node) sessionID (SR.GrantScope rec) (offer_answer env);
  if negb a.1 then
    _ ← (if p2pHook cfg then unregister sessionID else mret tt);
    t ← now;
    _ ← UpdateSession ws sessionID
          (λ r, (tt, r <| SR.State := SessionEnded |> <| SR.EndedUnix := Unix t |>)) (λ _ s, s);
    e ← deny (i_Name ident) req (NR.ID node) (String.append "agent rejected offer: " a.2)
          (OfferRejected a.2);
    mret (false, Err e)
  else
    r ← AppendWS ws "session_request" (i_Name ident) (NR.ID node) sessionID
          (<["decision" := "allow"]> (<["action" := tg_action tg]> (<["role" := MatchedRole d]>
            (<["reason" := reason]> (<["client_path" := rq_ClientPath req]>
              {[ "detachable" := bool_text (Grant.AllowDetach grant) ]})))));
    match r with
    | Some _ => mret (true, Err AuditFailed)
    | None =>
        _ ← (if p2pHook cfg then refreshLease rec else mret tt);
        mret (true, Ok (Created (SR.GrantScope rec) (Grant.RelayAddr grant) (RelayFloor grant)
                          (RelayToken grant) (NR.NoisePub node) sessionID (RelayCandidates grant)
                          (if Policy.RequirePresence d
                           then Some (presenceHeartbeat cfg / 1000000, SR.PresenceChallenge rec)
                           else None)))
    end.

(** From the overlay address to the offer; the address of an aborted session is handed
    back. *)
Definition grant_session (env : broker_env) (ident : Identity) (req : CreateSessionRequest)
    (clientPath : string) (node : NR.NodeRecord) (tg : target) (attachRec : option SR.SessionRecord)
    (d : Decision) (reason : string) (t : Z) (sessionID relayToken overlayIP : string)
    : M (bool * result broker_err session_response) :=
  match floorAddrs (liveFloor env) with
  | [] => mret (false, Err IndexPanic)
  | addr :: rest =>
      let cands := if p2pHook cfg && PathSupportsICE clientPath
                   then candidates env sessionID (rq_HomeRegion req) (NR.Region node) else [] in
      let grant := new_session_grant ident req clientPath node tg attachRec d t sessionID relayToken
                     overlayIP addr (addr :: rest) cands in
      match sign_grant grant with
      | None => mret (false, Err SignFailed)
      | Some signedBytes =>
          let rec := new_session_record ident clientPath node tg d t grant signedBytes (new_challenge env) in
          r ← PutSession (i_Workspace ident) rec;
          match r with
          | Err _ => mret (false, Err StoreFailed)
          | Ok _ => offer_session env ident req node tg d reason grant rec
          end
      end
  end.

(** The overlay address of a VPN session: its routes are checked first. *)
Definition overlay_alloc (ws : string) (tg : target) : M (result broker_err string) :=
  if bool_decide (tg_action tg = ActionVPN) then
    match head (filter (λ c, validCIDR c = false) (tg_routes tg)) with
    | Some c => mret (Err (BadRoute c))
    | None =>
        atomic (λ s, let '(ip, a) := alloc (overlay_of s ws) in
                     let s := s <| overlays ::= <[ws := a]> |> in
                     (match ip with Some ip => Ok ip | None => Err OverlayExhausted end, s))
    end
  else mret (Ok ""%string).

Definition createSession (env : broker_env) (ident : Identity) (req : CreateSessionRequest)
    (clientPath : string) : M (result broker_err session_response) :=
  t ← now;
  tg ←? resolve_target (i_Workspace ident) req;
  match request_shape req tg with
  | Some e => mret (Err e)
  | None =>
      p ←? resolve_node ident req tg;
      let '(attachRec, node) := p in
      red ←? gates ident req node;
      match red with
      | Some (owner, addrs) => mret (Ok (Redirect owner addrs))
      | None =>
          dr ←? decide_policy ident req clientPath node tg t;
          match new_sessionID env, new_token env with
          | Some sessionID, Some relayToken =>
              ip ←? overlay_alloc (i_Workspace ident) tg;
              r ← grant_session env ident req clientPath node tg attachRec dr.1 dr.2 t sessionID
                    relayToken ip;
              _ ← (if negb r.1 && bool_decide (ip ≠ "")
                   then write (overlay_release (i_Workspace ident) ip) else mret tt);
              mret r.2
          | _, _ => mret (Err RandFailed)
          end
      end
  end.

(** The user API: the path is the certificate's pin, never the request's. *)
Definition CreateSession (env : broker_env) (ident : Identity) (req : CreateSessionRequest)
    : M (result broker_err session_response) :=
  createSession env ident req (if bool_decide (i_ClientPath ident = PathWeb) then PathWeb else PathNative).

(** ** Re-issue *)

Inductive reissue_err : Type :=
| ReissueNoSession | ReissueState | NoScope | ScopeDecode | NodeUnavailable | ReissueStore (e : store_err)
| ReissueRand | NoRelay | ReissueSign.

Record ReissuedGrant := mkReissued { rg_Epoch : Z; SignedGrant : bytes; rg_Grant : SessionGrant }.

(** What a re-issue changes of the original grant. *)
Definition rehomed_grant (orig : SessionGrant) (rec : SR.SessionRecord) (node : NR.NodeRecord) (t : Z)
    (relayToken relayAddr : string) (floor : list string) (cands : list RelayCandidate) : SessionGrant :=
  let reattach := SR.Detachable rec && bool_decide (SR.HostSessionID rec ≠ "")
                  && bool_decide (g_Action orig = ActionShell) in
  mkSessionGrant (V orig) (Grant.ID orig) (Grant.User orig) (Grant.Roles orig) (Grant.WorkspaceID orig)
    (NetworkVNI orig) (Grant.NodeID orig) (if reattach then ActionAttach else g_Action orig)
    (Command orig) (if reattach then SR.HostSessionID rec else AttachID orig) (AllowPTY orig)
    (Grant.AllowDetach orig) (ForwardTarget orig) (Grant.ClientNoisePub orig) (NR.NoisePub node)
    relayAddr floor relayToken cands (Grant.ClientPath orig) t (t + grantTTL cfg)
    (Grant.MaxSessionTTL orig) (g_Record orig) (g_Service orig) (Grant.ServiceKind orig) (Routes orig)
    (Grant.OverlayIP orig).

Definition ReissueGrant `{JSONDecode SessionGrant, JSONDecode Signed} (env : broker_env)
    (ws sessionID deadRelayID deadRelayAddr : string) (appliedEpoch : Z)
    : M (result reissue_err ReissuedGrant) :=
  r ← GetSession ws sessionID;
  match r with
  | Err _ => mret (Err ReissueNoSession)
  | Ok rec =>
      if negb (live_state (SR.State rec)) then mret (Err ReissueState)
      else if (length (SR.GrantScope rec) =? 0)%nat then mret (Err NoScope)
      else match Unmarshal (SR.GrantScope rec) ≫= λ e : Signed, Unmarshal (Payload e) with
           | None => mret (Err ScopeDecode)
           | Some orig =>
               n ← GetNode ws (SR.NodeID rec);
               match n with
               | Err _ => mret (Err NodeUnavailable)
               | Ok node =>
                   if negb (length (NR.NoisePub node) =? 32)%nat then mret (Err NodeUnavailable)
                   else
                     u ← UpdateSession ws sessionID
                           (λ r, if appliedEpoch <? SR.RehomeEpoch r then (SR.RehomeEpoch r, r)
                                 else let e := wrap_i64 (SR.RehomeEpoch r + 1) in
                                      (e, r <| SR.RehomeEpoch := e |>)) (λ _ s, s);
                     match u with
                     | (Some e, _) => mret (Err (ReissueStore e))
                     | (None, epoch) =>
                         match new_token env, excludeRelayAddr (floorAddrs (liveFloor env)) deadRelayAddr with
                         | None, _ => mret (Err ReissueRand)
                         | _, [] => mret (Err NoRelay)
                         | Some relayToken, addr :: rest =>
                             t ← now;
                             let cands :=
                               if p2pHook cfg && PathSupportsICE (SR.ClientPath rec)
                               then excludeRelayCandidate (candidates env (SR.ID rec) "" (NR.Region node))
                                      deadRelayID
                               else [] in
                             let grant := rehomed_grant orig rec node t relayToken addr (addr :: rest) cands in
                             mret (match sign_grant grant with
                                   | None => Err ReissueSign
                                   | Some b => Ok (mkReissued (default 0 epoch) b grant)
                                   end)
                         end
                     end
               end
           end
  end.

End Broker.

(** ** A small fleet, to evaluate the theorems at *)
Module Fleet.

Export Codec.
#[export] Existing Instance ToyEd25519.toy.

#[export] Instance keys : GrantKeys :=
  {| grantKey := λ m, Some (ToyEd25519.sign (ToyEd25519.key x11) m); grantKeyID := "g1" |}.
#[export] Instance text : Rendering := {| reason_text := λ _, "policy"%string; zone_offset := λ _, 0 |}.

Definition presence : presence_config := mkPresenceConfig (90 * second) (30 * second) true.
Definition config : broker_config :=
  mkBrokerConfig ["relay:7403"%string] (2 * minute) (8 * hour) true true (30 * second) "gw-1" [].
Definition validCIDR (s : string) : bool := has_char "/"%char s.
Definition quote (s : string) : string := s.
Definition attach_text (e : attach_err) : string := "attach".

Definition node : NR.NodeRecord :=
  NR.mk "acme" "node-1" "web" ∅ (ToyEd25519.key x22) (mkPlatform "linux" "amd64" "web" "1" "" "" "" "uuid-1") 0
    true "root" 500 "" [] "eu" [] 0 [] 0.

Definition session : SR.SessionRecord :=
  SR.mk "acme" "s-1" "alice" "oidc" "sub-a" "node-1" "web" ActionShell SessionActive "" 900 0 0 true false
    ["dev"%string] "" "" ∅ PathNative "" (ToyEd25519.key x12) true [] 3 0 [] "" false false 0 0 [] [] 0.

Definition handle0 : agentHandle := mkHandle "node-1" [] (1000 * second) "10.0.0.1" 1 ∅.

(** [dev] may open shells. *)
Definition policy : Doc := doc_of [plain_rule [] None false].

Definition ident : Identity := mkIdentity KindUser "acme" "alice" ["dev"%string] "oidc" "sub-a" "".
Definition node_ident : Identity := mkIdentity KindNode "acme" "node-1" [] "" "" "".

Definition ask (action : string) : CreateSessionRequest :=
  mkRequest "web" action "" "" "" "" true false (ToyEd25519.key x12) "native" "".

Definition env : broker_env :=
  mkBrokerEnv (Some "s-2"%string) (Some "tok"%string) [] None (λ _ _ _, []) (Ok (true, ""%string)).

Definition start : server :=
  mkServer {[ ("acme", "node-1")%string := node ]} {[ "node-1" := "acme" ]}%string ∅
    {[ ("acme", "s-1")%string := session ]} (mkDenyStore ∅ ∅) (mkLoginStore ∅ ∅ ∅ ∅ ∅) ∅ [] ∅ ∅ ∅ ∅
    (newDenyCache (5 * second) false) ∅ {[ "acme"%string := policy ]} {[ "node-1"%string := 0%nat ]} [handle0]
    ∅ [] [] (1000 * second) [].

End Fleet.
