(* ===== verification/Control.v ===== *)
(** * The controller's handlers, interleaved

    Every request the modelled part of the controller serves, as one type with its
    handler, and the transitions all of them are made of.  A run is any interleaving
    of any number of requests, at the granularity of store transactions, together
    with an environment that moves the clock and decides which transactions fail.

    The theorems hold for every such run: a session that ended never comes back and
    keeps the principal, the node and the ceiling it was granted with; the rows of the
    store stay under their keys; a quarantine row keeps the admission gate closed,
    except for the two handlers that read a node and write it back. *)
From Stdlib Require Import ZArith Lia.
From stdpp Require Import base gmap list strings pretty relations.
From S2P Require Import Prelude Envelope Trust Grant Policy Lease DenyCache Overlay Proc Codec Login.
From S2P Require Import Members Store Sessions Nodes Enrolling Broker.
Local Open Scope Z_scope.

(** ** Transitions *)

(** What a transition may do to a session's row. *)
Inductive rec_step : SR.SessionRecord → SR.SessionRecord → Prop :=
| rs_same r : rec_step r r
| rs_epoch r : rec_step r (r <| SR.EnforcementEpoch := wrap_i64 (SR.EnforcementEpoch r + 1) |>)
| rs_revoke r t reason :
    rec_step r (r <| SR.State := SessionRevoked |> <| SR.EndedUnix := t |>
                  <| SR.RevokeReason := reason |> <| SR.RevokeDelivered := false |>)
| rs_confirm r : SR.State r = SessionRevoked → rec_step r (r <| SR.RevokeDelivered := true |>)
| rs_event r nodeID ev t :
    SR.NodeID r = nodeID →
    rec_step r (event_update ev t
      (if bool_decide (ev_HostSessionId ev ≠ "") then r <| SR.HostSessionID := ev_HostSessionId ev |> else r))
| rs_refused r t : rec_step r (r <| SR.State := SessionEnded |> <| SR.EndedUnix := t |>)
| rs_beat r t next counter :
    rec_step r (r <| SR.PrevPresenceChallenge := SR.PresenceChallenge r |>
                  <| SR.PrevChallengeUnix := t |> <| SR.PresenceChallenge := next |>
                  <| SR.LastPresenceUnix := t |> <| SR.LastPresenceCounter := counter |>)
| rs_recorded r : rec_step r (r <| SR.Recorded := true |>)
| rs_rehome r : rec_step r (r <| SR.RehomeEpoch := wrap_i64 (SR.RehomeEpoch r + 1) |>).

(** The tables the theorems speak of are untouched. *)
Definition frame (s s' : server) : Prop :=
  sessions s' = sessions s ∧ nodes s' = nodes s ∧ nodeWS s' = nodeWS s ∧ quarantines s' = quarantines s.

#[export] Instance frame_refl : Reflexive frame.
Proof. done. Qed.

#[export] Instance frame_trans : Transitive frame.
Proof. intros ? ? ? (?&?&?&?) (?&?&?&?). repeat split; congruence. Qed.

(** A node's row changes in place, with its quarantine row; [n'] keeps [n]'s key. *)
Inductive node_step (ws id : string) (n : NR.NodeRecord) :
    gmap string QuarantineRecord → NR.NodeRecord → gmap string QuarantineRecord → Prop :=
| ns_approve q by_ t :
    node_step ws id n q (n <| NR.Approved := true |> <| NR.ApprovedBy := by_ |>
                           <| NR.ApprovedAtUnix := t |>) (delete (quarantineKey ws id) q)
| ns_unapprove q :
    node_step ws id n q (n <| NR.Approved := false |> <| NR.ApprovedBy := "" |>
                           <| NR.ApprovedAtUnix := 0 |>) q
| ns_quarantine q row :
    qr_Workspace row = ws → qr_NodeID row = id →
    node_step ws id n q (n <| NR.Approved := false |> <| NR.ApprovedBy := "" |>
                           <| NR.ApprovedAtUnix := 0 |>) (<[quarantineKey ws id := row]> q)
| ns_measure q n' :
    NR.Approved n' = NR.Approved n → NR.WorkspaceID n' = NR.WorkspaceID n → NR.ID n' = NR.ID n →
    node_step ws id n q n' q.

(** The session ids the broker may mint. *)
Section Steps.
Context (minted : string → Prop).

(** The transactional transitions. *)
Inductive tx_step : server → server → Prop :=
| st_frame s s' : frame s s' → tx_step s s'
| st_session s s' ws id r r' :
    sessions s !! (ws, id) = Some r → rec_step r r' →
    sessions s' = <[(ws, id) := r']> (sessions s) →
    nodes s' = nodes s → nodeWS s' = nodeWS s → quarantines s' = quarantines s → tx_step s s'
| st_new_session s s' r :
    SR.State r = SessionPending → minted (SR.ID r) →
    sessions s' = <[(SR.WorkspaceID r, SR.ID r) := r]> (sessions s) →
    nodes s' = nodes s → nodeWS s' = nodeWS s → quarantines s' = quarantines s → tx_step s s'
| st_node s s' ws id n n' :
    nodes s !! (ws, id) = Some n → node_step ws id n (quarantines s) n' (quarantines s') →
    nodes s' = <[(ws, id) := n']> (nodes s) →
    sessions s' = sessions s → nodeWS s' = nodeWS s → tx_step s s'
| st_delete s s' ws id :
    nodes s' = delete (ws, id) (nodes s) → nodeWS s' = delete id (nodeWS s) →
    sessions s' = sessions s → quarantines s' = quarantines s → tx_step s s'.

(** And the write of a node as its caller has it. *)
Inductive put_step : server → server → Prop :=
| ps_put s s' ws n :
    nodes s' = <[(ws, NR.ID n) := n <| NR.WorkspaceID := ws |>]> (nodes s) →
    nodeWS s' = <[NR.ID n := ws]> (nodeWS s) →
    sessions s' = sessions s → quarantines s' = quarantines s → put_step s s'.

Definition any_step (s s' : server) : Prop := tx_step s s' ∨ put_step s s'.

#[local] Instance tx_step_refl : Reflexive tx_step.
Proof. intros s. by apply st_frame. Qed.

#[local] Instance any_step_refl : Reflexive any_step.
Proof. intros s. by left. Qed.


(** ** Leaf actions *)

Lemma acts_any {A : Type} (p : M A) : acts tx_step p → acts any_step p.
Proof. apply acts_mono. by left. Qed.

Lemma tx_frame {A : Type} (fn : server → result store_err A * server) :
  (∀ s, frame s (fn s).2) → acts tx_step (tx fn).
Proof.
  intros Hf. apply acts_atomic. intros s. apply st_frame. unfold tx.
  destruct (next_fault s); simpl; try done.
  unfold Update. specialize (Hf (tick s)). by destruct (fn (tick s)) as [[]?].
Qed.

Lemma view_tx_step {A : Type} (fn : server → result store_err A) : acts tx_step (view fn).
Proof. apply acts_atomic. intros s. apply st_frame. unfold view. by destruct (next_fault s). Qed.

Lemma read_tx_step {X : Type} (f : server → X) : acts tx_step (read f).
Proof. apply acts_read, _. Qed.

Lemma now_tx_step : acts tx_step now.
Proof. apply read_tx_step. Qed.

Lemma write_frame (f : server → server) : (∀ s, frame s (f s)) → acts tx_step (write f).
Proof. intros Hf. apply acts_atomic. intros s. by apply st_frame. Qed.

Lemma AppendWS_tx_step (ws typ actor node session : string) (detail : gmap string string) :
  acts tx_step (AppendWS ws typ actor node session detail).
Proof. apply acts_atomic. intros s. apply st_frame. unfold AppendWS. by destruct (next_fault s). Qed.

Lemma send_tx_step (nodeID : string) (m : agent_msg) : acts tx_step (send nodeID m).
Proof.
  apply acts_atomic. intros s. apply st_frame. unfold send.
  destruct (agents s !! nodeID); [|done]. by destruct (next_fault s).
Qed.

Lemma handle_send_tx_step (nodeID : string) (m : agent_msg) : acts tx_step (handle_send nodeID m).
Proof.
  apply acts_atomic. intros s. apply st_frame. unfold handle_send. by destruct (next_fault s).
Qed.

(** The session transaction: the closure makes a row transition and touches memory
    outside the tables. *)
Lemma UpdateSession_tx_step {X : Type} (ws id : string) (fn : SR.SessionRecord → X * SR.SessionRecord)
    (mem : SR.SessionRecord → server → server) :
  (∀ r, rec_step r (fn r).2) → (∀ r s, frame s (mem r s)) → acts tx_step (UpdateSession ws id fn mem).
Proof.
  intros Hfn Hmem. apply acts_atomic. intros s. unfold UpdateSession.
  destruct (next_fault s) eqn:Ef; try (by apply st_frame);
    (destruct (sessions s !! (ws, id)) as [r|] eqn:Er; [|by apply st_frame]);
    specialize (Hfn r); destruct (fn r) as [x r'] eqn:Efn; simpl in Hfn |- *;
    destruct (Hmem r (tick s)) as (H1 & H2 & H3 & H4).
  - eapply (st_session _ _ ws id r r'); try done; simpl; by rewrite H1.
  - by apply st_frame.
Qed.

(** [Hint]s find a leaf by its head; the frame side conditions compute. *)
Lemma drop_entry_frame (id : string) (s : server) : frame s (drop_entry id s).
Proof. unfold drop_entry, close_entry. repeat case_match; done. Qed.

Lemma sig_get_frame (id : string) (s : server) : frame s (sig_get id s).2.
Proof. unfold sig_get. repeat case_match; try done. apply drop_entry_frame. Qed.

Lemma sweepExpired_frame (l : list (string * sigEntry)) (s : server) :
  frame s (foldr (λ '(id, e) s, if sg_expiry e <=? now_ns s then drop_entry id s else s) s l).
Proof.
  induction l as [|[id e] l IH]; [done|]. simpl. case_match; [|done].
  etransitivity; [apply IH|]. apply drop_entry_frame.
Qed.

Lemma deliverControl_tx_step (id : string) (m : enforcement) : acts tx_step (deliverControl id m).
Proof.
  apply acts_atomic. intros s. apply st_frame. unfold deliverControl.
  pose proof (sig_get_frame id s) as Hf. destruct (sig_get id s) as [[e|] s1]; [|done]. by case_match.
Qed.

Lemma unregister_tx_step (id : string) : acts tx_step (unregister id).
Proof. apply write_frame. intros. apply drop_entry_frame. Qed.

Lemma register_tx_step (id ws nodeID user subject provider : string) :
  acts tx_step (register id ws nodeID user subject provider).
Proof. by apply write_frame. Qed.

Lemma touch_tx_step (id : string) : acts tx_step (touch id).
Proof. apply write_frame. intros s. by case_match. Qed.

Lemma sweepExpired_tx_step : acts tx_step sweepExpired.
Proof. apply write_frame. intros s. apply sweepExpired_frame. Qed.

Lemma login_tx_step {A : Type} (fn : loginStore → A * loginStore) : acts tx_step (login_tx fn).
Proof. apply tx_frame. intros s. by destruct (fn (login s)). Qed.

Lemma on_handle_tx_step (h : nat) (f : agentHandle → agentHandle) : acts tx_step (on_handle h f).
Proof. by apply write_frame. Qed.

(** *** Node transactions *)

Lemma tx_node {A : Type} (ws id : string) (fn : server → result store_err A * server) :
  (∀ s, match fn s with
        | (Err _, _) => True
        | (Ok _, s') =>
            ∃ n n', nodes s !! (ws, id) = Some n ∧ node_step ws id n (quarantines s) n' (quarantines s') ∧
              nodes s' = <[(ws, id) := n']> (nodes s) ∧ sessions s' = sessions s ∧ nodeWS s' = nodeWS s
        end) →
  acts tx_step (tx fn).
Proof.
  intros Hf. apply acts_atomic. intros s. unfold tx.
  destruct (next_fault s); try (by apply st_frame). unfold Update.
  specialize (Hf (tick s)). destruct (fn (tick s)) as [[a|e] s']; simpl; [|by apply st_frame].
  destruct Hf as (n & n' & H1 & H2 & H3 & H4 & H5). by eapply (st_node _ _ ws id n n').
Qed.

Lemma SetNodeApproval_tx_step (ws id : string) (approve : bool) (by_ : string) (at_ : Z) :
  acts tx_step (SetNodeApproval ws id approve by_ at_).
Proof.
  apply (tx_node ws id). intros s. unfold get_node.
  destruct (nodes s !! (ws, id)) as [n|] eqn:En; simpl; [|done].
  destruct approve; (exists n; eexists; split; [done|]; split; [constructor|done]).
Qed.

Lemma QuarantineNode_tx_step (ws id reason by_ : string) (detail : gmap string string) :
  acts tx_step (QuarantineNode ws id reason by_ detail).
Proof.
  apply (tx_node ws id). intros s. unfold get_node.
  destruct (nodes s !! (ws, id)) as [n|] eqn:En; simpl; [|done].
  exists n; eexists; split; [done|]; split; [by constructor|done].
Qed.

Lemma RecordNodeMeasurement_tx_step (ws id : string) (binHash : bytes) (atUnix : Z) :
  acts tx_step (RecordNodeMeasurement ws id binHash atUnix).
Proof.
  unfold RecordNodeMeasurement. case_match; [done|]. apply (tx_node ws id). intros s. unfold get_node.
  destruct (nodes s !! (ws, id)) as [n|] eqn:En; simpl; [|done].
  exists n; eexists; split; [done|]; split; [|done]. by apply ns_measure; case_match.
Qed.

Lemma RepinBaseline_tx_step (ws id : string) (binHash : bytes) (created : Z) :
  acts tx_step (RepinBaseline ws id binHash created).
Proof.
  apply (tx_node ws id). intros s. unfold get_node.
  destruct (nodes s !! (ws, id)) as [n|] eqn:En; simpl; [|done].
  exists n; eexists; split; [done|]; split; [|done]. by apply ns_measure.
Qed.

Lemma DeleteNode_tx_step (ws id : string) : acts tx_step (DeleteNode ws id).
Proof.
  apply acts_atomic. intros s. unfold tx. destruct (next_fault s); try (by apply st_frame).
  unfold Update. simpl. destruct (nodes s !! (ws, id)); simpl; [|by apply st_frame].
  by apply (st_delete _ _ ws id).
Qed.

Lemma PutSession_tx_step (ws : string) (rec : SR.SessionRecord) :
  SR.WorkspaceID rec = ws → SR.State rec = SessionPending → minted (SR.ID rec) →
  acts tx_step (PutSession ws rec).
Proof.
  intros <- Hp Hm. apply acts_atomic. intros s. unfold PutSession, tx.
  destruct (next_fault s); try (by apply st_frame). simpl.
  apply (st_new_session _ _ rec); try done. simpl. by destruct rec.
Qed.

Lemma PutNode_any_step (ws : string) (n : NR.NodeRecord) : acts any_step (PutNode ws n).
Proof.
  apply acts_atomic. intros s. unfold PutNode, tx.
  destruct (next_fault s); try (by left; apply st_frame). right. by apply (ps_put _ _ ws n).
Qed.

#[local] Hint Resolve view_tx_step read_tx_step now_tx_step AppendWS_tx_step send_tx_step handle_send_tx_step
  deliverControl_tx_step unregister_tx_step register_tx_step touch_tx_step sweepExpired_tx_step
  login_tx_step on_handle_tx_step SetNodeApproval_tx_step QuarantineNode_tx_step
  RecordNodeMeasurement_tx_step RepinBaseline_tx_step DeleteNode_tx_step : steps.

(** ** Handlers *)

Context `{GrantKeys, Rendering} `{JSONEncode LeasePayload, JSONEncode DeltaPayload,
  JSONEncode RevokePayload, JSONEncode SessionGrant, JSONEncode Signed}.
Context (presence : presence_config) (controllerID : string).

Lemma Online_tx_step (nodeID : string) : acts tx_step (Online nodeID).
Proof. apply read_tx_step. Qed.

Lemma IsSuspended_tx_step (ws provider subject : string) : acts tx_step (IsSuspended ws provider subject).
Proof. unfold IsSuspended. handler_steps. Qed.

Lemma nextEpoch_tx_step (ws id : string) : acts tx_step (nextEpoch ws id).
Proof.
  unfold nextEpoch. handler_steps. apply UpdateSession_tx_step; [|done]. intros r. apply rs_epoch.
Qed.
#[local] Hint Resolve Online_tx_step IsSuspended_tx_step nextEpoch_tx_step : steps.

Lemma SendRevoke_tx_step (rec : SR.SessionRecord) (reason : string) : acts tx_step (SendRevoke rec reason).
Proof. unfold SendRevoke, signRevokeRec. handler_steps. Qed.
#[local] Hint Resolve SendRevoke_tx_step : steps.

Lemma revokeSession_tx_step (rec : SR.SessionRecord) (reason : string) :
  acts tx_step (revokeSession rec reason).
Proof.
  unfold revokeSession. handler_steps. apply UpdateSession_tx_step; [|done]. intros r. apply rs_revoke.
Qed.

Lemma rePushRevoke_tx_step (rec : SR.SessionRecord) : acts tx_step (rePushRevoke rec).
Proof. unfold rePushRevoke. handler_steps. Qed.

Lemma refreshLease_tx_step (rec : SR.SessionRecord) : acts tx_step (refreshLease rec).
Proof. unfold refreshLease, leaseExpiryMs. handler_steps. Qed.

Lemma pushReadOnlyDelta_tx_step (rec : SR.SessionRecord) : acts tx_step (pushReadOnlyDelta rec).
Proof. unfold pushReadOnlyDelta, leaseExpiryMs. handler_steps. Qed.
#[local] Hint Resolve revokeSession_tx_step rePushRevoke_tx_step refreshLease_tx_step
  pushReadOnlyDelta_tx_step : steps.

Lemma driveLiveSessionWith_tx_step (rec : SR.SessionRecord) (getNode : nodeLookup) :
  (∀ ws id, acts tx_step (getNode ws id)) → acts tx_step (driveLiveSessionWith presence rec getNode).
Proof. intros Hg. unfold driveLiveSessionWith, reauthorizeWith. handler_steps. Qed.

Lemma storeNodeLookup_tx_step (ws id : string) : acts tx_step (storeNodeLookup ws id).
Proof. unfold storeNodeLookup, GetNode. handler_steps. Qed.
#[local] Hint Resolve storeNodeLookup_tx_step : steps.

Lemma driveLiveSession_tx_step (rec : SR.SessionRecord) : acts tx_step (driveLiveSession presence rec).
Proof. apply driveLiveSessionWith_tx_step, storeNodeLookup_tx_step. Qed.
#[local] Hint Resolve driveLiveSession_tx_step : steps.

Lemma sweep_session_tx_step (lookup : nodeLookup) (rec : SR.SessionRecord) :
  (∀ ws id, acts tx_step (lookup ws id)) → acts tx_step (sweep_session presence lookup rec).
Proof.
  intros Hl. unfold sweep_session. handler_steps. by apply driveLiveSessionWith_tx_step.
Qed.

Lemma reauthSweep_tx_step : acts tx_step (reauthSweep presence).
Proof.
  unfold reauthSweep, sweep_housekeeping, ExpireStaleRelays, ExpireStaleControllers, ListAllSessions, ListAllNodes.
  handler_steps; try (by apply tx_frame). apply sweep_session_tx_step. intros. case_match; [done|].
  apply storeNodeLookup_tx_step.
Qed.

Lemma redeliverPendingRevokes_tx_step (nodeID : string) : acts tx_step (redeliverPendingRevokes presence nodeID).
Proof. unfold redeliverPendingRevokes, ListAllSessions. handler_steps. Qed.

Lemma revoke_selected_tx_step (sel : SR.SessionRecord → bool) (reason : string) (recs : list SR.SessionRecord) :
  acts tx_step (revoke_selected sel reason recs).
Proof. unfold revoke_selected. handler_steps. Qed.
#[local] Hint Resolve revoke_selected_tx_step redeliverPendingRevokes_tx_step : steps.

Lemma revokeByID_tx_step (ws id reason : string) : acts tx_step (revokeByID ws id reason).
Proof. unfold revokeByID, GetSession. handler_steps. Qed.

Lemma revokeBySubject_tx_step (ws provider subject reason : string) :
  acts tx_step (revokeBySubject ws provider subject reason).
Proof. unfold revokeBySubject, ListAllSessions. handler_steps. Qed.

Lemma revokeByNodeID_tx_step (ws nodeID reason : string) : acts tx_step (revokeByNodeID ws nodeID reason).
Proof. unfold revokeByNodeID, ListAllSessions. handler_steps. Qed.

Lemma revokeUser_tx_step (user reason : string) : acts tx_step (revokeUser user reason).
Proof. unfold revokeUser, ListAllSessions. handler_steps. Qed.

Lemma revokeUserInWorkspace_tx_step (ws user reason : string) :
  acts tx_step (revokeUserInWorkspace ws user reason).
Proof. unfold revokeUserInWorkspace, ListAllSessions. handler_steps. Qed.
#[local] Hint Resolve revokeBySubject_tx_step revokeByNodeID_tx_step : steps.

Lemma suspendPrincipal_tx_step (ws provider subject username by_ reason : string) :
  acts tx_step (suspendPrincipal ws provider subject username by_ reason).
Proof.
  unfold suspendPrincipal, SuspendPrincipal_tx. handler_steps; [apply tx_frame|by apply write_frame].
  intros s. by case_match.
Qed.

Lemma liftSuspension_tx_step (ws provider subject by_ : string) :
  acts tx_step (liftSuspension ws provider subject by_).
Proof.
  unfold liftSuspension, LiftSuspension_tx. handler_steps; [by apply tx_frame|by apply write_frame].
Qed.

Lemma onSuspendFanout_tx_step (ws provider subject : string) : acts tx_step (onSuspendFanout ws provider subject).
Proof. unfold onSuspendFanout, ListAllSessions. handler_steps. by apply write_frame. Qed.

Lemma confirmRevokeDelivered_tx_step (ws id nodeID : string) : acts tx_step (confirmRevokeDelivered ws id nodeID).
Proof.
  unfold confirmRevokeDelivered. handler_steps. apply UpdateSession_tx_step; [|done]. intros r.
  case_bool_decide; simpl; [|constructor]. destruct (SR.RevokeDelivered r); by constructor.
Qed.

Lemma update_own_tx_step (ws nodeID : string) (ev : SessionEvent) (ends : bool) :
  acts tx_step (update_own ws nodeID ev ends).
Proof.
  unfold update_own. handler_steps. apply UpdateSession_tx_step.
  - intros r. case_bool_decide; simpl; [|constructor]. by apply (rs_event r nodeID).
  - intros r s. by case_match.
Qed.
#[local] Hint Resolve confirmRevokeDelivered_tx_step update_own_tx_step : steps.

Lemma handleSessionEvent_tx_step (ws nodeID : string) (ev : SessionEvent) :
  acts tx_step (handleSessionEvent ws nodeID ev).
Proof. unfold handleSessionEvent, Append. handler_steps. Qed.

Lemma Heartbeat_tx_step (ident : Identity) (sid : string) (att : Attestation) (fresh : bytes) :
  acts tx_step (Heartbeat presence ident sid att fresh).
Proof.
  unfold Heartbeat, verifyPresenceSession, GetSession. handler_steps.
  apply UpdateSession_tx_step; [|done]. intros r. apply rs_beat.
Qed.

Lemma mark_recorded_tx_step (ws id : string) : acts tx_step (mark_recorded ws id).
Proof. unfold mark_recorded. handler_steps. apply UpdateSession_tx_step; [|done]. intros r. constructor. Qed.

#[local] Hint Resolve handleSessionEvent_tx_step : steps.

(** *** Nodes *)

Lemma repushAllNetworks_tx_step (ws : string) : acts tx_step (repushAllNetworks ws).
Proof. by apply write_frame. Qed.
#[local] Hint Resolve repushAllNetworks_tx_step : steps.

Lemma quarantineNode_tx_step (ws nodeID reason by_ : string) (detail : gmap string string) :
  acts tx_step (quarantineNode ws nodeID reason by_ detail).
Proof. unfold quarantineNode. handler_steps. Qed.
#[local] Hint Resolve quarantineNode_tx_step : steps.

Lemma approveNodeWithReason_tx_step (ws : string) (node : NR.NodeRecord) (approve : bool) (reason by_ : string) :
  acts tx_step (approveNodeWithReason ws node approve reason by_).
Proof. unfold approveNodeWithReason, GetQuarantine. handler_steps. Qed.
#[local] Hint Resolve approveNodeWithReason_tx_step : steps.

Lemma driftQuarantine_tx_step (ws nodeID reason : string) (measured : Z) (detail : gmap string string) :
  acts tx_step (driftQuarantine ws nodeID reason measured detail).
Proof. unfold driftQuarantine, GetNode. handler_steps. Qed.
#[local] Hint Resolve driftQuarantine_tx_step : steps.

Lemma evaluateBinaryDrift_tx_step (ws nodeID : string) (binHash : bytes) :
  acts tx_step (evaluateBinaryDrift ws nodeID binHash).
Proof. unfold evaluateBinaryDrift, PublishedManifestForHash. handler_steps. Qed.

Lemma FindNode_tx_step (ws ref : string) : acts tx_step (FindNode ws ref).
Proof. unfold FindNode, GetNode. handler_steps. Qed.
#[local] Hint Resolve FindNode_tx_step evaluateBinaryDrift_tx_step : steps.

Lemma rebaselineNode_tx_step (ws ref reason expect by_ : string) :
  acts tx_step (rebaselineNode ws ref reason expect by_).
Proof. unfold rebaselineNode. handler_steps. Qed.

Lemma RemoveNode_tx_step (ws ref by_ : string) : acts tx_step (RemoveNode ws ref by_).
Proof. unfold RemoveNode, ListSessions. handler_steps. Qed.

Lemma Unregister_tx_step (nodeID : string) (h : nat) : acts tx_step (Unregister nodeID h).
Proof. apply write_frame. intros s. by case_match. Qed.

Lemma Stream_close_tx_step (ws nodeID : string) (h : nat) : acts tx_step (Stream_close controllerID ws nodeID h).
Proof.
  unfold Stream_close, ReleaseAgentAffinity, ClearAdvertisedServices, Append.
  handler_steps; try apply Unregister_tx_step; apply tx_frame; intros s; by repeat case_match.
Qed.
#[local] Hint Resolve Unregister_tx_step Stream_close_tx_step : steps.

Lemma clone_check_tx_step (ws nodeID : string) (h : nat) (displaced : option nat) (host : string) :
  acts tx_step (clone_check ws nodeID h displaced host).
Proof. unfold clone_check, setObservedIP, cloneSnapshot. handler_steps. Qed.
#[local] Hint Resolve clone_check_tx_step : steps.

Lemma Stream_recv_tx_step (ident : Identity) (h : nat) (m : agent_report) :
  acts tx_step (Stream_recv ident h m).
Proof.
  unfold Stream_recv, setWGPort. handler_steps. apply acts_atomic. intros s. apply st_frame.
  by repeat case_match.
Qed.

(** The two read-then-write handlers. *)
Lemma refresh_region_any_step (ws nodeID region : string) : acts any_step (refresh_region ws nodeID region).
Proof.
  unfold refresh_region, GetNode. acts_split; try apply PutNode_any_step. apply acts_any, view_tx_step.
Qed.

Lemma ensureNodeOverlayIP_any_step (node : NR.NodeRecord) : acts any_step (ensureNodeOverlayIP node).
Proof.
  unfold ensureNodeOverlayIP, GetNode. acts_split; try apply PutNode_any_step; apply acts_any, view_tx_step.
Qed.

Lemma enforceInstanceUniqueness_any_step (ws : string) (labels : gmap string string) : acts any_step (enforceInstanceUniqueness ws labels).
Proof. unfold enforceInstanceUniqueness, ListNodes. acts_split; apply acts_any; eauto 2 with steps. Qed.

Lemma handlePairInstance_any_step (u : consoleUser) (ref instance : string) (bindings : option (list (string * string))) :
  acts any_step (handlePairInstance u ref instance bindings).
Proof.
  unfold handlePairInstance. acts_split; try apply PutNode_any_step; try apply enforceInstanceUniqueness_any_step;
    apply acts_any; eauto 2 with steps.
Qed.

Lemma Enroll_any_step (env : enroll_env) (req : EnrollRequest) : acts any_step (Enroll env req).
Proof.
  unfold Enroll, enroll_deny, not_quarantined, FindQuarantineByHostUUID, Append, repushAllNetworks.
  acts_split; try apply PutNode_any_step; try apply enforceInstanceUniqueness_any_step; apply acts_any; eauto 2 with steps.
Qed.

Lemma Stream_open_any_step (ccVersion : Z) (ident : Identity) (hello : AgentHello) (host : option string) :
  acts any_step (Stream_open presence controllerID ccVersion ident hello host).
Proof.
  unfold Stream_open, GetNode, Register, ClaimAgentAffinity, setAffinityEpoch, PutAdvertisedServices, Append.
  acts_split; try apply refresh_region_any_step; apply acts_any; eauto 2 with steps.
  - apply acts_atomic. intros s. by apply st_frame.
  - by apply tx_frame.
  - apply tx_frame. intros s. by case_match.
Qed.

(** *** The broker *)

Context (validCIDR : string → bool) (cfg : broker_config).
Context (quote : string → string) (attach_text : attach_err → string).

Lemma find_target_tx_step (ws ref : string) : acts tx_step (find_target ws ref).
Proof. unfold find_target. handler_steps. Qed.

Lemma deny_tx_step (user : string) (req : CreateSessionRequest) (nodeID reason : string) (e : broker_err) :
  acts tx_step (deny user req nodeID reason e).
Proof. unfold deny, Append. handler_steps. Qed.
#[local] Hint Resolve find_target_tx_step deny_tx_step : steps.

Lemma resolve_target_tx_step (ws : string) (req : CreateSessionRequest) : acts tx_step (resolve_target ws req).
Proof.
  unfold resolve_target, resolveService, Services, WorkspaceForNode, AdvertisedServices. handler_steps.
Qed.

Lemma resolve_node_tx_step (ident : Identity) (req : CreateSessionRequest) (tg : target) :
  acts tx_step (resolve_node attach_text ident req tg).
Proof. unfold resolve_node, resolveAttach, GetSession, GetNode. handler_steps. Qed.

Lemma gates_tx_step (ident : Identity) (req : CreateSessionRequest) (node : NR.NodeRecord) :
  acts tx_step (gates cfg ident req node).
Proof. unfold gates, redirectFor, AgentAffinity. handler_steps. Qed.

Lemma decide_policy_tx_step (ident : Identity) (req : CreateSessionRequest) (clientPath : string)
    (node : NR.NodeRecord) (tg : target) (t : Z) :
  acts tx_step (decide_policy quote ident req clientPath node tg t).
Proof. unfold decide_policy. handler_steps. Qed.

Lemma offer_session_tx_step (env : broker_env) (ident : Identity) (req : CreateSessionRequest)
    (node : NR.NodeRecord) (tg : target) (d : Decision) (reason : string) (grant : SessionGrant)
    (rec : SR.SessionRecord) :
  acts tx_step (offer_session cfg env ident req node tg d reason grant rec).
Proof.
  unfold offer_session, SendOffer. handler_steps. apply UpdateSession_tx_step; [|done]. intros r.
  apply rs_refused.
Qed.
#[local] Hint Resolve resolve_target_tx_step resolve_node_tx_step gates_tx_step decide_policy_tx_step
  offer_session_tx_step : steps.

Lemma grant_session_tx_step (env : broker_env) (ident : Identity) (req : CreateSessionRequest)
    (clientPath : string) (node : NR.NodeRecord) (tg : target) (attachRec : option SR.SessionRecord)
    (d : Decision) (reason : string) (t : Z) (sessionID relayToken overlayIP : string) :
  minted sessionID →
  acts tx_step (grant_session cfg env ident req clientPath node tg attachRec d reason t sessionID
                  relayToken overlayIP).
Proof. intros Hm. unfold grant_session. handler_steps. by apply PutSession_tx_step. Qed.

Lemma overlay_alloc_tx_step (ws : string) (tg : target) : acts tx_step (overlay_alloc validCIDR ws tg).
Proof.
  unfold overlay_alloc. handler_steps. apply acts_atomic. intros s. apply st_frame.
  by destruct (alloc (overlay_of s ws)).
Qed.
#[local] Hint Resolve overlay_alloc_tx_step : steps.

Lemma CreateSession_tx_step (env : broker_env) (ident : Identity) (req : CreateSessionRequest) :
  (∀ id, new_sessionID env = Some id → minted id) →
  acts tx_step (CreateSession validCIDR cfg quote attach_text env ident req).
Proof.
  intros Hm. unfold CreateSession, createSession.
  destruct (new_sessionID env) as [id|]; acts_split; eauto 2 with steps.
  - by apply grant_session_tx_step, Hm.
  - by apply write_frame.
Qed.

Lemma ReissueGrant_tx_step `{JSONDecode SessionGrant, JSONDecode Signed} (env : broker_env)
    (ws id deadID deadAddr : string) (applied : Z) :
  acts tx_step (ReissueGrant cfg env ws id deadID deadAddr applied).
Proof.
  unfold ReissueGrant, GetSession, GetNode. handler_steps. apply UpdateSession_tx_step; [|done].
  intros r. case_match; constructor.
Qed.

End Steps.

(** ** Requests *)

Section Requests.
Context `{GrantKeys, Rendering} `{JSONEncode LeasePayload, JSONEncode DeltaPayload,
  JSONEncode RevokePayload, JSONEncode SessionGrant, JSONEncode Signed}.
Context `{JSONDecode SessionGrant, JSONDecode Signed}.
Context (presence : presence_config) (validCIDR : string → bool) (cfg : broker_config).
Context (quote : string → string) (attach_text : attach_err → string).

(** What may reach the controller, with the values each call draws. *)
Inductive request : Type :=
| QSweep
| QStreamOpen (ccVersion : Z) (ident : Identity) (hello : AgentHello) (host : option string)
| QStreamRecv (ident : Identity) (h : nat) (m : agent_report)
| QStreamClose (ws nodeID : string) (h : nat)
| QCreateSession (env : broker_env) (ident : Identity) (req : CreateSessionRequest)
| QReissue (env : broker_env) (ws id deadID deadAddr : string) (applied : Z)
| QHeartbeat (ident : Identity) (sid : string) (att : Attestation) (fresh : bytes)
| QRevoke (ws id reason : string)
| QRevokeUser (user reason : string)
| QRevokeUserInWorkspace (ws user reason : string)
| QSuspend (ws provider subject username by_ reason : string)
| QLift (ws provider subject by_ : string)
| QSuspendFanout (ws provider subject : string)
| QApproveNode (ws : string) (node : NR.NodeRecord) (approve : bool) (reason by_ : string)
| QQuarantine (ws nodeID reason by_ : string) (detail : gmap string string)
| QRebaseline (ws ref reason expect by_ : string)
| QRemoveNode (ws ref by_ : string)
| QRecorded (ws id : string)
| QOverlayIP (node : NR.NodeRecord)
| QPairInstance (u : consoleUser) (ref instance : string) (bindings : option (list (string * string)))
| QEnroll (env : enroll_env) (req : EnrollRequest).

Definition call {A : Type} (p : M A) : M unit := _ ← p; mret tt.

Definition handle (q : request) : M unit :=
  match q with
  | QSweep => reauthSweep presence
  | QStreamOpen ccVersion ident hello host =>
      call (Stream_open presence (b_controllerID cfg) ccVersion ident hello host)
  | QStreamRecv ident h m => Stream_recv ident h m
  | QStreamClose ws nodeID h => Stream_close (b_controllerID cfg) ws nodeID h
  | QCreateSession env ident req => call (CreateSession validCIDR cfg quote attach_text env ident req)
  | QReissue env ws id deadID deadAddr applied => call (ReissueGrant cfg env ws id deadID deadAddr applied)
  | QHeartbeat ident sid att fresh => call (Heartbeat presence ident sid att fresh)
  | QRevoke ws id reason => call (revokeByID ws id reason)
  | QRevokeUser user reason => call (revokeUser user reason)
  | QRevokeUserInWorkspace ws user reason => call (revokeUserInWorkspace ws user reason)
  | QSuspend ws provider subject username by_ reason =>
      call (suspendPrincipal ws provider subject username by_ reason)
  | QLift ws provider subject by_ => call (liftSuspension ws provider subject by_)
  | QSuspendFanout ws provider subject => onSuspendFanout ws provider subject
  | QApproveNode ws node approve reason by_ => call (approveNodeWithReason ws node approve reason by_)
  | QQuarantine ws nodeID reason by_ detail => call (quarantineNode ws nodeID reason by_ detail)
  | QRebaseline ws ref reason expect by_ => call (rebaselineNode ws ref reason expect by_)
  | QRemoveNode ws ref by_ => call (RemoveNode ws ref by_)
  | QRecorded ws id => mark_recorded ws id
  | QOverlayIP node => call (ensureNodeOverlayIP node)
  | QPairInstance u ref instance bindings => call (handlePairInstance u ref instance bindings)
  | QEnroll env req => call (Enroll env req)
  end.

(** The session id a request would mint. *)
Definition mints (q : request) : option string :=
  match q with QCreateSession env _ _ => new_sessionID env | _ => None end.

(** The requests that put a whole node: three write back the row they read, and an
    enrollment writes that of a new id. *)
Definition writes_back (q : request) : bool :=
  match q with QStreamOpen _ _ _ _ | QOverlayIP _ | QPairInstance _ _ _ _ | QEnroll _ _ => true | _ => false end.

(** The environment: the clock, and the failures to come. *)
Definition environment (s s' : server) : Prop :=
  ∃ t f, s' = s <| now_ns := t |> <| faults := f |>.

Lemma environment_frame (s s' : server) : environment s s' → frame s s'.
Proof. by intros (t & f & ->). Qed.

Lemma call_acts {A : Type} (R : server → server → Prop) (p : M A) : acts R p → acts R (call p).
Proof. intros Hp. unfold call. by acts_split. Qed.

Lemma handle_tx_step (minted : string → Prop) (q : request) :
  writes_back q = false → (∀ id, mints q = Some id → minted id) → acts (tx_step minted) (handle q).
Proof.
  intros Hq Hm. destruct q; try done; cbn [handle]; try apply call_acts.
  - apply reauthSweep_tx_step.
  - apply Stream_recv_tx_step.
  - apply Stream_close_tx_step.
  - by apply CreateSession_tx_step.
  - apply ReissueGrant_tx_step.
  - apply Heartbeat_tx_step.
  - apply revokeByID_tx_step.
  - apply revokeUser_tx_step.
  - apply revokeUserInWorkspace_tx_step.
  - apply suspendPrincipal_tx_step.
  - apply liftSuspension_tx_step.
  - apply onSuspendFanout_tx_step.
  - apply approveNodeWithReason_tx_step.
  - apply quarantineNode_tx_step.
  - apply rebaselineNode_tx_step.
  - apply RemoveNode_tx_step.
  - apply mark_recorded_tx_step.
Qed.

Lemma handle_any_step (minted : string → Prop) (q : request) :
  (∀ id, mints q = Some id → minted id) → acts (any_step minted) (handle q).
Proof.
  intros Hm. destruct (writes_back q) eqn:E; [|by apply acts_any, handle_tx_step].
  destruct q; try done; apply call_acts; [apply Stream_open_any_step|apply ensureNodeOverlayIP_any_step|
    apply handlePairInstance_any_step|apply Enroll_any_step].
Qed.

(** Any run of the requests [qs]. *)
Definition reaches (qs : list request) (s s' : server) : Prop :=
  ∃ ts, rtc (istep environment) (map handle qs, s) (ts, s').

Lemma reaches_invariant (minted : string → Prop) (I : server → Prop) (qs : list request) (s s' : server) :
  (∀ q id, q ∈ qs → mints q = Some id → minted id) →
  (∀ a b, I a → any_step minted a b → I b) → reaches qs s s' → I s → I s'.
Proof.
  intros Hm HI [ts Hr]. eapply interleaving_invariant; [apply HI| | |done].
  - intros a b Ha Hb. apply (HI a b Ha). left. by apply st_frame, environment_frame.
  - apply Forall_map, list.Forall_forall. intros q Hq. apply handle_any_step. eauto.
Qed.

Lemma reaches_tx_invariant (I : server → Prop) (qs : list request) (s s' : server) :
  (∀ q, q ∈ qs → writes_back q = false) →
  (∀ a b, I a → tx_step (λ _, True) a b → I b) → reaches qs s s' → I s → I s'.
Proof.
  intros Hw HI [ts Hr]. eapply interleaving_invariant; [apply HI| | |done].
  - intros a b Ha Hb. apply (HI a b Ha). by apply st_frame, environment_frame.
  - apply Forall_map, list.Forall_forall. intros q Hq. apply handle_tx_step; [auto|done].
Qed.

(** ** Invariants *)

(** What a session was granted with: who, where, what, and the ceiling. *)
Definition granted (r : SR.SessionRecord) :=
  ((SR.WorkspaceID r, SR.ID r, SR.User r, SR.Provider r, SR.Subject r, SR.NodeID r, SR.NodeName r),
   (SR.Action r, SR.Service r, SR.ServiceKind r, SR.ServiceLabels r, SR.Roles r, SR.ClientPath r),
   (SR.ClientNoisePub r, SR.GrantAllowPTY r, SR.GrantForwardTargets r, SR.GrantScope r, SR.OverlayIP r,
    SR.RequirePresence r, SR.Detachable r, SR.StartedUnix r)).

Lemma event_update_granted (ev : SessionEvent) (t : Z) (r : SR.SessionRecord) :
  granted (event_update ev t r) = granted r ∧
  (terminal (SR.State r) = true → terminal (SR.State (event_update ev t r)) = true).
Proof. unfold event_update. split; [by repeat case_match|]. intros T. by repeat case_match. Qed.

Lemma rec_step_granted (r r' : SR.SessionRecord) :
  rec_step r r' → granted r' = granted r ∧ (terminal (SR.State r) = true → terminal (SR.State r') = true).
Proof.
  intros Hs. destruct Hs as [| | | |r nodeID ev t _| | | |]; try done.
  case_match; [|apply event_update_granted].
  exact (event_update_granted ev t (r <| SR.HostSessionID := ev_HostSessionId ev |>)).
Qed.

(** The row of a session whose id is not minted again. *)
Definition row_kept (k : string * string) (r : SR.SessionRecord) (s : server) : Prop :=
  ∃ r', sessions s !! k = Some r' ∧ granted r' = granted r ∧
    (terminal (SR.State r) = true → terminal (SR.State r') = true).

Lemma row_kept_step (k : string * string) (r : SR.SessionRecord) (s s' : server) :
  any_step (λ id, id ≠ k.2) s s' → row_kept k r s → row_kept k r s'.
Proof.
  intros Hs. assert (sessions s' = sessions s → row_kept k r s → row_kept k r s') as Hsame.
  { unfold row_kept. by intros ->. }
  revert Hsame.
  destruct Hs as [[u v Hf|u v ws id a b Ha Hab Hs _ _ _|u v a _ Hm Hs _ _ _
                   |u v ws id n n' _ _ _ Hs _|u v ws id _ _ Hs _]|[u v ws n _ _ Hs _]]; intros Hsame;
    try (by apply Hsame); try (by apply Hsame, Hf); intros (r1 & Hk & Hg & Ht); unfold row_kept; rewrite Hs.
  - destruct (decide ((ws, id) = k)) as [<-|Hne].
    + rewrite lookup_insert_eq. rewrite Hk in Ha. injection Ha as <-. apply rec_step_granted in Hab as [E1 E2].
      exists b. split; [done|]. split; [congruence|auto].
    + rewrite lookup_insert_ne by done. eauto.
  - rewrite lookup_insert_ne by (intros <-; by apply Hm). eauto.
Qed.

(** Rows are stored under their own keys. *)
Definition typed (s : server) : Prop :=
  (∀ k r, sessions s !! k = Some r → k = (SR.WorkspaceID r, SR.ID r)) ∧
  (∀ k n, nodes s !! k = Some n → k = (NR.WorkspaceID n, NR.ID n)) ∧
  (∀ k q, quarantines s !! k = Some q → k = quarantineKey (qr_Workspace q) (qr_NodeID q)).

Lemma typed_insert {A : Type} (m : gmap (string * string) A) (key : A → string * string) (k : string * string) (a : A) :
  (∀ k a, m !! k = Some a → k = key a) → k = key a → ∀ k' a', <[k := a]> m !! k' = Some a' → k' = key a'.
Proof. intros Hm Hk k' a' [[<- <-]|[_ ?]]%lookup_insert_Some; [done|by apply Hm]. Qed.

Lemma node_step_key (ws id : string) (n n' : NR.NodeRecord) (q q' : gmap string QuarantineRecord) :
  node_step ws id n q n' q' → NR.WorkspaceID n' = NR.WorkspaceID n ∧ NR.ID n' = NR.ID n.
Proof. by intros []. Qed.

Lemma node_step_quarantines (ws id : string) (n n' : NR.NodeRecord) (q q' : gmap string QuarantineRecord) :
  node_step ws id n q n' q' → (∀ k r, q !! k = Some r → k = quarantineKey (qr_Workspace r) (qr_NodeID r)) →
  ∀ k r, q' !! k = Some r → k = quarantineKey (qr_Workspace r) (qr_NodeID r).
Proof.
  intros [] Hq k r Hk; try by apply Hq.
  - apply lookup_delete_Some in Hk as [_ Hk]. by apply Hq.
  - apply lookup_insert_Some in Hk as [[<- <-]|[_ Hk]]; [congruence|by apply Hq].
Qed.

Lemma typed_step (minted : string → Prop) (s s' : server) : any_step minted s s' → typed s → typed s'.
Proof.
  intros Hs. unfold typed.
  destruct Hs as [[u v (E1&E2&_&E3)|u v ws id a b Ha Hab -> -> _ ->|u v a _ _ -> -> _ ->
                   |u v ws id n n' Hn Hst -> -> _|u v ws id -> _ -> ->]|[u v ws n -> _ -> ->]];
    intros (H1' & H2' & H3').
  - by rewrite E1, E2, E3.
  - split; [|done]. apply (typed_insert _ (λ r, (SR.WorkspaceID r, SR.ID r))); [done|].
    apply rec_step_granted in Hab as [Hg _]. rewrite (H1' _ _ Ha). unfold granted in Hg. congruence.
  - split; [|done]. by apply (typed_insert _ (λ r, (SR.WorkspaceID r, SR.ID r))).
  - split; [done|]. split; [|by eapply node_step_quarantines].
    apply (typed_insert _ (λ n, (NR.WorkspaceID n, NR.ID n))); [done|].
    apply node_step_key in Hst as [-> ->]. by apply H2'.
  - split; [done|]. split; [|done]. intros k n [_ Hk]%lookup_delete_Some. by apply H2'.
  - split; [done|]. split; [|done]. by apply (typed_insert _ (λ n, (NR.WorkspaceID n, NR.ID n))).
Qed.

(** A quarantine row keeps its node's admission gate closed. *)
Definition gate_closed (s : server) : Prop :=
  ∀ k q n, quarantines s !! k = Some q → nodes s !! (qr_Workspace q, qr_NodeID q) = Some n →
    NR.Approved n = false.

(** A node's own transition keeps the rows that are not its own, and closes or
    removes its own. *)
Lemma node_step_gate (ws id : string) (n n' : NR.NodeRecord) (qs qs' : gmap string QuarantineRecord)
    (k : string) (q : QuarantineRecord) :
  node_step ws id n qs n' qs' → qs' !! k = Some q → k = quarantineKey (qr_Workspace q) (qr_NodeID q) →
  ((ws, id) ≠ (qr_Workspace q, qr_NodeID q) → qs !! k = Some q) ∧
  ((ws, id) = (qr_Workspace q, qr_NodeID q) →
     NR.Approved n' = false ∨ (qs !! k = Some q ∧ NR.Approved n' = NR.Approved n)).
Proof.
  intros Hs Hk Hkey. destruct Hs as [qs by_ t|qs|qs row Hw Hi|qs n' Ha _ _]; simpl; try (by auto).
  - apply lookup_delete_Some in Hk as [Hne Hk]. split; [done|]. intros [= -> ->]. by destruct Hne.
  - split; [|auto]. intros Hne. apply lookup_insert_Some in Hk as [[_ <-]|[_ Hk]]; [|done].
    destruct Hne. congruence.
Qed.

Lemma gate_closed_step (minted : string → Prop) (s s' : server) :
  tx_step minted s s' → typed s ∧ gate_closed s → typed s' ∧ gate_closed s'.
Proof.
  intros Hs [Ht Hg]. assert (typed s') as Ht' by (by eapply typed_step; [left|]). split; [done|].
  destruct Ht' as (_ & _ & Hq). revert Hg Hq. clear Ht. unfold gate_closed.
  destruct Hs as [u v (_&->&_&->)|u v ws id a b _ _ _ -> _ ->|u v a _ _ _ -> _ ->
                   |u v ws id n n' Hn Hst -> _ _|u v ws id -> _ _ ->]; try done.
  - intros Hg Hq k q m Hk Hm. destruct (node_step_gate _ _ _ _ _ _ k q Hst Hk) as [E1 E2]; [by apply Hq|].
    destruct (decide ((ws, id) = (qr_Workspace q, qr_NodeID q))) as [Ek|Hne].
    + rewrite <- Ek, lookup_insert_eq in Hm. injection Hm as <-. destruct (E2 Ek) as [?|[Hk' ->]]; [done|].
      eapply Hg; [exact Hk'|]. by rewrite <- Ek.
    + rewrite lookup_insert_ne in Hm by done. eapply Hg; [by apply E1|done].
  - intros Hg _ k q m Hk [_ Hm]%lookup_delete_Some. by eapply Hg.
Qed.

(** ** Theorems *)

(** C16 (store.go, UpdateSession and its callers): a session that ended stays ended.
    Take any interleaving of any requests, none of which mints the id of a session
    that exists: sweeps, control streams and whatever events nodes report, offers and
    their refusals, re-issues, heartbeats, revocations, suspensions, node quarantines
    and removals, under any clock and any failing transactions.  The session's row is
    still there; its principal, node, action, service, key and ceiling are the ones it
    was granted with; and if it had ended or was revoked, it is so still. *)
Theorem session_end_is_final (qs : list request) (s s' : server) (ws id : string) (r : SR.SessionRecord) :
  sessions s !! (ws, id) = Some r → (∀ q, q ∈ qs → mints q ≠ Some id) → reaches qs s s' →
  ∃ r', sessions s' !! (ws, id) = Some r' ∧ granted r' = granted r ∧
    (terminal (SR.State r) = true → terminal (SR.State r') = true).
Proof.
  intros Hr Hm Hs. apply (reaches_invariant (λ i, i ≠ id) (row_kept (ws, id) r) qs s s'); [| |done|].
  - intros q i Hq E ->. by apply (Hm q).
  - intros a b Ha Hb. by eapply row_kept_step.
  - by exists r.
Qed.

(** C21 (store.go, authzstate.go): rows stay under their keys.  In every run of the
    requests, a session's and a node's row carry the workspace and the id they are
    stored under, and a quarantine row the workspace and the node of its key. *)
Theorem store_typed (qs : list request) (s s' : server) : typed s → reaches qs s s' → typed s'.
Proof.
  intros Ht Hs. apply (reaches_invariant (λ _, True) typed qs s s'); [done| |done|done].
  intros a b Ha Hb. by eapply typed_step.
Qed.

(** C17 (authzstate.go, QuarantineNode; store.go, SetNodeApproval): a quarantine holds.
    While a node has a quarantine row, its admission gate is closed: in every run of
    the requests other than the enrollment of a new node and the three that write back
    a node as they read it earlier (the opening of a control stream, the allocation of
    an overlay address and the pairing with an instance), however approvals,
    quarantines, drift verdicts, re-baselines and removals of the same node interleave
    and whichever of their transactions fail. *)
Theorem quarantine_holds (qs : list request) (s s' : server) :
  typed s → gate_closed s → (∀ q, q ∈ qs → writes_back q = false) → reaches qs s s' →
  gate_closed s'.
Proof.
  intros Ht Hg Hw Hs.
  apply (reaches_tx_invariant (λ s, typed s ∧ gate_closed s) qs s s' Hw); [|done|done].
  intros a b Ha Hb. by eapply gate_closed_step.
Qed.

End Requests.


(** ** A race *)

Section Race.
Import Fleet.

(** The state a schedule of the requests leads to. *)
Definition scheduled (picks : list nat) (qs : list request) (s : server) : server :=
  (schedule picks (map (handle presence validCIDR config quote attach_text) qs, s)).2.

Lemma scheduled_reaches (picks : list nat) (qs : list request) (s : server) :
  reaches presence validCIDR config quote attach_text qs s (scheduled picks qs s).
Proof.
  exists (schedule picks (map (handle presence validCIDR config quote attach_text) qs, s)).1.
  unfold scheduled. rewrite <- surjective_pairing. apply schedule_run.
Qed.

Definition reconnect : request :=
  QStreamOpen 7 node_ident (mkHello "node-1" "1" [] "us" 7) None.
Definition quarantine : request := QQuarantine "acme" "node-1" "compromised" "root" ∅.

Lemma start_typed : typed start ∧ gate_closed start.
Proof.
  split; [split_and!|]; intros k r; cbn [sessions nodes quarantines start].
  - by intros [<- <-]%lookup_singleton_Some.
  - by intros [<- <-]%lookup_singleton_Some.
  - by rewrite lookup_empty.
  - by rewrite lookup_empty.
Qed.

(** [nodecontrol.go, Stream] The home-region refresh undoes a quarantine.  A node
    opens its control stream, naming a new home region, while an administrator
    quarantines it: the stream's handler reads the row, the quarantine commits, and
    the handler writes the row back as it read it.  The quarantine row is there and
    the node is approved again. *)
Theorem region_refresh_reopens_gate :
  ∃ s' n, typed start ∧ gate_closed start ∧
    reaches presence validCIDR config quote attach_text [reconnect; quarantine] start s' ∧
    is_Some (quarantines s' !! quarantineKey "acme" "node-1") ∧
    nodes s' !! ("acme", "node-1") = Some n ∧ NR.Approved n = true.
Proof.
  exists (scheduled (replicate 7 0%nat ++ replicate 20 1%nat ++ replicate 20 0%nat)
            [reconnect; quarantine] start), (node <| NR.Region := "us" |>). split_and!.
  - apply start_typed.
  - apply start_typed.
  - apply scheduled_reaches.
  - vm_compute. eauto.
  - by vm_compute.
  - done.
Qed.

(** [console_pair.go, handlePairInstance] So does the pairing of a node with its instance. *)
Definition claiming : server :=
  start <| nodes ::= alter (λ n, n <| NR.Labels := {[ claimedInstanceLabel := "vm-1"%string ]} |>) ("acme", "node-1")%string |>.
Definition pair : request :=
  QPairInstance (mkConsoleUser "acme" "root" "local") "node-1" "" (Some [("openstack:project:c:p", "acme")])%string.

Theorem pairing_reopens_gate :
  ∃ s' n, reaches presence validCIDR config quote attach_text [pair; quarantine] claiming s' ∧
    is_Some (quarantines s' !! quarantineKey "acme" "node-1") ∧
    nodes s' !! ("acme", "node-1") = Some n ∧ NR.Approved n = true.
Proof.
  assert (let s' := scheduled (replicate 2 0%nat ++ replicate 20 1%nat ++ replicate 20 0%nat) [pair; quarantine] claiming in
    bool_decide (is_Some (quarantines s' !! quarantineKey "acme" "node-1")) &&
    match nodes s' !! ("acme", "node-1") with Some n => NR.Approved n | None => false end = true) as Hs by (vm_compute; reflexivity).
  cbv zeta in Hs. pose proof (scheduled_reaches (replicate 2 0%nat ++ replicate 20 1%nat ++ replicate 20 0%nat) [pair; quarantine] claiming) as Hr.
  revert Hs Hr. generalize (scheduled (replicate 2 0%nat ++ replicate 20 1%nat ++ replicate 20 0%nat) [pair; quarantine] claiming).
  intros s' [Hq%bool_decide_eq_true Hn]%andb_true_iff Hr. destruct (nodes s' !! ("acme", "node-1")) as [n|] eqn:En; [|done]. by exists s', n.
Qed.

(** [broker.go, createSession] A revocation that arrives while the offer is out is lost.
    An administrator revokes the pending session; the agent's acknowledgement then times
    out and the broker marks the session ended over the revocation.  The agent, which may
    have started the session, is owed a revoke that no sweep will send again. *)
Theorem refused_offer_forgets_revoke :
  let slow := mkBrokerEnv (Some "s-2"%string) (Some "tok"%string) [] None (λ _ _ _, []) (Err "timeout"%string) in
  ∃ s' r, reaches presence validCIDR config quote attach_text
      [QCreateSession slow ident (ask ActionShell); QRevoke "acme" "s-2" "leaked"] start s' ∧
    sessions s' !! ("acme", "s-2")%string = Some r ∧ SR.RevokeReason r = "leaked" ∧
    SR.RevokeDelivered r = false ∧ SR.State r = SessionEnded.
Proof.
  intros slow. set (qs := [QCreateSession slow ident (ask ActionShell); QRevoke "acme" "s-2" "leaked"]).
  set (picks := replicate 11 0%nat ++ replicate 20 1%nat ++ replicate 20 0%nat).
  pose proof (scheduled_reaches picks qs start) as Hr.
  assert (match sessions (scheduled picks qs start) !! ("acme", "s-2")%string with
          | Some r => bool_decide (SR.RevokeReason r = "leaked"%string) && negb (SR.RevokeDelivered r)
                      && bool_decide (SR.State r = SessionEnded)
          | None => false
          end = true) as Hs by (vm_compute; reflexivity).
  revert Hr Hs. generalize (scheduled picks qs start). intros s' Hr Hs. exists s'.
  destruct (sessions s' !! ("acme", "s-2")%string) as [r|]; [|done]. exists r.
  apply andb_true_iff in Hs as [[H1%bool_decide_eq_true H2%negb_true_iff]%andb_true_iff H3%bool_decide_eq_true].
  done.
Qed.

(** Two requests on the session of [start], step by step in turn. *)
Definition established : request :=
  QStreamRecv node_ident 0 (ReportEvent (mkSessionEvent "s-1" "established" "" 0 "" "" 0)).
Definition revoked_start : server := start <| sessions ::= alter (λ r, r <| SR.State := SessionRevoked |>) ("acme", "s-1")%string |>.
Definition in_turn (s : server) : server :=
  scheduled (concat (replicate 30 [0%nat; 1%nat])) [established; QSweep] s.

Lemma session_end_is_final_witness :
  ∃ r', sessions (in_turn revoked_start) !! ("acme", "s-1") = Some r' ∧ granted r' = granted session ∧
    terminal (SR.State r') = true.
Proof.
  destruct (session_end_is_final presence validCIDR config quote attach_text [established; QSweep]
              revoked_start (in_turn revoked_start) "acme" "s-1" (session <| SR.State := SessionRevoked |>))
    as (r' & H1 & H2 & H3).
  - vm_compute. reflexivity.
  - intros q Hq. repeat (apply elem_of_cons in Hq as [->|Hq]; [vm_compute; discriminate|]).
    by apply not_elem_of_nil in Hq.
  - apply scheduled_reaches.
  - exists r'. split; [exact H1|]. split; [exact H2|]. apply H3. vm_compute. reflexivity.
Defined.

Lemma store_typed_witness : typed (in_turn start).
Proof.
  apply (store_typed presence validCIDR config quote attach_text [established; QSweep] start).
  - apply start_typed.
  - apply scheduled_reaches.
Defined.

Lemma quarantine_holds_witness :
  gate_closed (scheduled (concat (replicate 30 [0%nat; 1%nat])) [quarantine; QSweep] start).
Proof.
  apply (quarantine_holds presence validCIDR config quote attach_text [quarantine; QSweep] start).
  - apply start_typed.
  - apply start_typed.
  - intros q Hq. repeat (apply elem_of_cons in Hq as [->|Hq]; [vm_compute; reflexivity|]).
    by apply not_elem_of_nil in Hq.
  - apply scheduled_reaches.
Defined.

End Race.
