(* ===== verification/Sweep.v ===== *)
(** * One sweep, end to end

    What the continuous-authorization sweep (controller/continuousauthz.go) does to the
    whole store and puts on the agents' streams, as a function of the state it starts
    in; what an agent (agentd/lease.go) does with the messages it is sent; and the two
    together: after one sweep and the delivery of its messages, every live session is
    cut, read-only or leased as the current policy says.

    The sweep is run alone and without store failures here; Control.v covers the
    interleavings. *)
From Stdlib Require Import ZArith Lia Strings.Byte.
From stdpp Require Import base gmap list strings pretty relations.
From S2P Require Import Prelude Envelope Trust Grant Policy Lease DenyCache Overlay Proc Codec Login.
From S2P Require Import Members Store Sessions Nodes Broker Control.
Local Open Scope Z_scope.

(** ** Runs without failures *)

(** What a handler of the sweep never touches, on a store without failures. *)
Definition stable (s s' : server) : Prop :=
  (nodes s' = nodes s ∧ quarantines s' = quarantines s) ∧ denies s' = denies s ∧ policyEngines s' = policyEngines s ∧
  agents s' = agents s ∧ now_ns s' = now_ns s ∧ faults s' = [] ∧ Store.effects s `prefix_of` Store.effects s'.

(** The messages put on the agents' streams, in order. *)
Definition to_agent (e : effect) : option (string * agent_msg) :=
  match e with ToAgent nodeID m => Some (nodeID, m) | _ => None end.
Definition mail (s : server) : list (string * agent_msg) := omap to_agent (Store.effects s).

Lemma elem_of_mail (nodeID : string) (m : agent_msg) (s : server) :
  (nodeID, m) ∈ mail s ↔ ToAgent nodeID m ∈ Store.effects s.
Proof.
  unfold mail. rewrite list_elem_of_omap. split; [|by eexists].
  intros ([] & He & E); simplify_eq/=. done.
Qed.

(** A run that leaves the sessions alone and sends no agent anything. *)
Definition quiet (s s' : server) : Prop :=
  faults s = [] → (stable s s' ∧ sessions s' = sessions s) ∧ mail s' = mail s.

Lemma stable_refl (s : server) : faults s = [] → stable s s.
Proof. done. Qed.

#[export] Instance stable_trans : Transitive stable.
Proof.
  intros a b c ([]&?&?&?&?&?&?) ([]&?&?&?&?&?&?). repeat split; try congruence. by etransitivity.
Qed.

#[export] Instance quiet_refl : Reflexive quiet.
Proof. by intros s Hf. Qed.

#[export] Instance quiet_trans : Transitive quiet.
Proof.
  intros a b c Hab Hbc Hf. destruct (Hab Hf) as [[H1 E1] M1]. assert (faults b = []) as Hf' by apply H1.
  destruct (Hbc Hf') as [[H2 E2] M2]. split; [|congruence].
  split; [by etransitivity; [exact H1|]|congruence].
Qed.

Lemma run_mute {A : Type} (p : M A) (s : server) : acts quiet p → quiet s (Proc.run p s).2.
Proof. intros Hp. apply (run_acts quiet p s) in Hp. by induction Hp; [|etransitivity]. Qed.

Lemma run_quiet {A : Type} (p : M A) (s : server) :
  acts quiet p → faults s = [] → stable s (Proc.run p s).2 ∧ sessions (Proc.run p s).2 = sessions s.
Proof. intros Hp Hf. by apply run_mute. Qed.

Lemma tick_nil (s : server) : faults s = [] → tick s = s.
Proof. destruct s. simpl. by intros ->. Qed.

Lemma next_fault_nil (s : server) : faults s = [] → next_fault s = FaultNone.
Proof. unfold next_fault. by intros ->. Qed.

Lemma run_tx {A : Type} (fn : server → result store_err A * server) (s : server) :
  faults s = [] → Proc.run (tx fn) s = Update fn s.
Proof.
  intros Hf. simpl. rewrite (next_fault_nil s Hf), (tick_nil s Hf). by destruct (Update fn s).
Qed.

Lemma run_view {A : Type} (fn : server → result store_err A) (s : server) :
  faults s = [] → Proc.run (view fn) s = (fn s, s).
Proof. intros Hf. simpl. by rewrite (next_fault_nil s Hf), (tick_nil s Hf). Qed.

Lemma run_UpdateSession {X : Type} (ws id : string) (fn : SR.SessionRecord → X * SR.SessionRecord)
    (mem : SR.SessionRecord → server → server) (s : server) (r : SR.SessionRecord) :
  faults s = [] → sessions s !! (ws, id) = Some r →
  Proc.run (UpdateSession ws id fn mem) s =
  ((None, Some (fn r).1), (mem r s) <| sessions ::= <[(ws, id) := (fn r).2]> |>).
Proof.
  intros Hf Hr. simpl. rewrite (next_fault_nil s Hf), Hr, (tick_nil s Hf). by destruct (fn r).
Qed.

Lemma run_send (nodeID : string) (m : agent_msg) (s : server) :
  faults s = [] →
  Proc.run (send nodeID m) s =
  match agents s !! nodeID with
  | None => (false, s)
  | Some _ => (true, s <| Store.effects ::= λ l, l ++ [ToAgent nodeID m] |>)
  end.
Proof.
  intros Hf. unfold send, atomic. cbn [Proc.run]. destruct (agents s !! nodeID); [|done].
  by rewrite (next_fault_nil s Hf), tick_nil.
Qed.

(** ** Quiet actions *)

Lemma quiet_write (f : server → server) :
  (∀ s, faults s = [] → (stable s (f s) ∧ sessions (f s) = sessions s) ∧ mail (f s) = mail s) → acts quiet (write f).
Proof. intros Hf. apply acts_atomic. exact Hf. Qed.

Lemma to_client_mail (id : string) (l : list enforcement) : omap to_agent (map (ToClient id) l) = [].
Proof. by induction l. Qed.

Lemma drop_entry_quiet (id : string) (s : server) : quiet s (drop_entry id s).
Proof.
  intros Hf. unfold drop_entry, close_entry, stable, mail.
  repeat case_match; simpl; repeat split; try done; [by eexists|].
  by rewrite omap_app, to_client_mail, app_nil_r.
Qed.

Lemma AppendWS_quiet (ws typ actor node session : string) (detail : gmap string string) :
  acts quiet (AppendWS ws typ actor node session detail).
Proof. apply acts_atomic. intros s Hf. unfold AppendWS. by rewrite (next_fault_nil s Hf), tick_nil. Qed.

Lemma view_quiet {A : Type} (fn : server → result store_err A) : acts quiet (view fn).
Proof. apply acts_atomic. intros s Hf. by rewrite (next_fault_nil s Hf), tick_nil. Qed.

Lemma read_quiet {X : Type} (f : server → X) : acts quiet (read f).
Proof. apply acts_read, _. Qed.

Lemma tx_quiet {A : Type} (fn : server → result store_err A * server) :
  (∀ s, faults s = [] → (stable s (fn s).2 ∧ sessions (fn s).2 = sessions s) ∧ mail (fn s).2 = mail s) →
  acts quiet (tx fn).
Proof.
  intros H. apply acts_atomic. intros s Hf. rewrite (next_fault_nil s Hf), tick_nil by done.
  unfold Update. specialize (H s Hf). by destruct (fn s) as [[]?].
Qed.

Lemma sig_get_quiet (id : string) (s : server) : quiet s (sig_get id s).2.
Proof. unfold sig_get. repeat case_match; try done. apply drop_entry_quiet. Qed.

Lemma deliverControl_quiet (id : string) (m : enforcement) : acts quiet (deliverControl id m).
Proof.
  apply acts_atomic. intros s Hf. destruct (sig_get_quiet id s Hf) as [H1 H2].
  destruct (sig_get id s) as [[e|] s1]; [|done]. by case_match.
Qed.

Lemma unregister_quiet (id : string) : acts quiet (unregister id).
Proof. apply quiet_write. intros s Hf. by apply drop_entry_quiet. Qed.

Lemma touch_quiet (id : string) : acts quiet (touch id).
Proof. apply quiet_write. intros s Hf. by case_match. Qed.

Lemma sweepExpired_quiet : acts quiet sweepExpired.
Proof.
  apply acts_atomic. intros s. simpl. generalize (map_to_list (signals s)). intros l.
  induction l as [|[id e] l IH]; [done|]. simpl. case_match; [|done].
  etransitivity; [exact IH|]. apply drop_entry_quiet.
Qed.

Lemma login_tx_quiet {A : Type} (fn : loginStore → A * loginStore) : acts quiet (login_tx fn).
Proof. apply tx_quiet. intros s Hf. by destruct (fn (login s)). Qed.

#[export] Hint Resolve AppendWS_quiet view_quiet read_quiet deliverControl_quiet
  unregister_quiet touch_quiet sweepExpired_quiet login_tx_quiet : steps.

(** ** One session *)

Section Sweep.
Context `{GrantKeys, Rendering} `{JSONEncode LeasePayload, JSONEncode DeltaPayload,
  JSONEncode RevokePayload, JSONEncode Signed}.
Context (presence : presence_config).

Definition key (r : SR.SessionRecord) : string * string := (SR.WorkspaceID r, SR.ID r).
Definition next (r : SR.SessionRecord) : Z := wrap_i64 (SR.EnforcementEpoch r + 1).
Definition bump (r : SR.SessionRecord) : SR.SessionRecord := r <| SR.EnforcementEpoch := next r |>.

(** What reaches the stream of [r]'s node, if it is connected. *)
Definition mailed (s : server) (r : SR.SessionRecord) (m : option enforcement) : list (string * agent_msg) :=
  match m, agents s !! SR.NodeID r with
  | Some e, Some _ => [(SR.NodeID r, MsgEnforce e)]
  | _, _ => []
  end.

(** The sweep of [r] replaced its row by [r'], touched no other, and put [m] on the
    node's stream if there is one, and nothing else on any. *)
Definition swept (s s' : server) (r r' : SR.SessionRecord) (m : option enforcement) : Prop :=
  stable s s' ∧ sessions s' = <[key r := r']> (sessions s) ∧ mail s' = mail s ++ mailed s r m.

Lemma swept_sent (s s' : server) (r r' : SR.SessionRecord) (m : option enforcement) (e : enforcement) :
  swept s s' r r' m → m = Some e → is_Some (agents s !! SR.NodeID r) →
  ToAgent (SR.NodeID r) (MsgEnforce e) ∈ Store.effects s'.
Proof.
  intros (_ & _ & Hm) -> [h Ho]. apply elem_of_mail. rewrite Hm. unfold mailed. rewrite Ho.
  apply elem_of_app. right. by left.
Qed.

Lemma swept_quiet {A : Type} (p : M A) (s s1 : server) (r r' : SR.SessionRecord) (m : option enforcement) :
  acts quiet p → swept s s1 r r' m → swept s (Proc.run p s1).2 r r' m.
Proof.
  intros Hp (Hst & Hse & Hef). assert (faults s1 = []) as Hf by apply Hst.
  destruct (run_mute p s1 Hp Hf) as [[Hs E] Em]. split; [by etransitivity|]. split; congruence.
Qed.

Lemma run_nextEpoch (s : server) (r : SR.SessionRecord) :
  faults s = [] → sessions s !! key r = Some r →
  Proc.run (nextEpoch (SR.WorkspaceID r) (SR.ID r)) s =
    (next r, s <| sessions ::= <[key r := bump r]> |>).
Proof.
  intros Hf Hr. unfold nextEpoch. rewrite run_bind, (run_UpdateSession _ _ _ _ s r Hf Hr). done.
Qed.

Lemma bumped (s : server) (r : SR.SessionRecord) :
  faults s = [] → sessions s !! key r = Some r →
  swept s (s <| sessions ::= <[key r := bump r]> |>) r (bump r) None.
Proof. intros Hf Hr. split; [done|]. split; [done|]. symmetry. apply app_nil_r. Qed.

(** The message reaches the stream of a connected node. *)
Lemma swept_send (s s1 : server) (r r' : SR.SessionRecord) (e : enforcement) :
  swept s s1 r r' None →
  swept s (Proc.run (send (SR.NodeID r) (MsgEnforce e)) s1).2 r r' (Some e).
Proof.
  intros (Hst & Hse & Hm). assert (faults s1 = []) as Hf by apply Hst.
  cbn [mailed] in Hm. rewrite app_nil_r in Hm. rewrite (run_send _ _ s1 Hf). unfold swept, mailed.
  replace (agents s1) with (agents s) by (by destruct Hst as (_&_&_&->&_)).
  destruct (agents s !! SR.NodeID r) as [h|]; [|by rewrite app_nil_r]. cbn [snd]. split; [|split; [done|]].
  - etransitivity; [exact Hst|]. unfold stable. simpl. repeat split; try done. by eexists.
  - unfold mail in *. cbn. by rewrite omap_app, Hm.
Qed.

Definition revoke_push (r : SR.SessionRecord) (reason : string) : option enforcement :=
  match signRevoke r (next r) reason with Ok v => Some (EnfRevoke v) | Err _ => None end.

Lemma SendRevoke_swept (s : server) (r : SR.SessionRecord) (reason : string) :
  faults s = [] → sessions s !! key r = Some r →
  swept s (Proc.run (SendRevoke r reason) s).2 r (bump r) (revoke_push r reason).
Proof.
  intros Hf Hr. unfold SendRevoke, signRevokeRec, revoke_push. rewrite !run_bind, run_nextEpoch by done.
  cbn [fst snd Proc.run mret prog_ret]. destruct (signRevoke r (next r) reason) as [v|e] eqn:E.
  - rewrite run_bind. cbn [fst snd Proc.run mret prog_ret]. by eapply swept_send, bumped.
  - by apply bumped.
Qed.

Definition revoked_row (r : SR.SessionRecord) (t : Z) (reason : string) : SR.SessionRecord :=
  (bump r) <| SR.State := SessionRevoked |> <| SR.EndedUnix := Unix t |>
    <| SR.RevokeReason := reason |> <| SR.RevokeDelivered := false |>.

(** A session transaction after the sweep of [r] has begun. *)
Lemma swept_update (s s1 : server) (r r' : SR.SessionRecord) (m : option enforcement)
    (fn : SR.SessionRecord → unit * SR.SessionRecord) (mem : SR.SessionRecord → server → server) :
  (∀ r s, quiet s (mem r s)) → swept s s1 r r' m →
  swept s (Proc.run (UpdateSession (SR.WorkspaceID r) (SR.ID r) fn mem) s1).2 r (fn r').2 m.
Proof.
  intros Hm (Hst & Hse & Hef). assert (faults s1 = []) as Hf by apply Hst.
  rewrite (run_UpdateSession _ _ _ _ s1 r' Hf) by (rewrite Hse; apply lookup_insert_eq).
  destruct (Hm r' s1 Hf) as [[Hq Eq] Em]. cbn [snd]. split; [|split].
  - etransitivity; [exact Hst|]. exact Hq.
  - cbn. rewrite Eq, Hse. apply insert_insert_eq.
  - change (mail (mem r' s1) = mail s ++ mailed s r m). congruence.
Qed.

(** The same, ahead of a continuation. *)
Lemma wp_quiet {A B : Type} (p : M A) (k : A → M B) (s s1 : server) (r r' : SR.SessionRecord)
    (m : option enforcement) (Q : server → Prop) :
  swept s s1 r r' m → acts quiet p → (∀ a s2, swept s s2 r r' m → Q (Proc.run (k a) s2).2) →
  Q (Proc.run (p ≫= k) s1).2.
Proof. intros Hs Hp HQ. rewrite run_bind. apply HQ. by apply swept_quiet. Qed.

Lemma wp_now {B : Type} (k : Z → M B) (s s1 : server) (r r' : SR.SessionRecord)
    (m : option enforcement) (Q : server → Prop) :
  swept s s1 r r' m → Q (Proc.run (k (now_ns s)) s1).2 → Q (Proc.run (now ≫= k) s1).2.
Proof. intros (Hst & _). rewrite run_bind. cbn. by destruct Hst as (_&_&_&_&->&_). Qed.

Lemma wp_send {B : Type} (e : enforcement) (k : bool → M B) (s s1 : server) (r r' : SR.SessionRecord)
    (Q : server → Prop) :
  swept s s1 r r' None → (∀ b s2, swept s s2 r r' (Some e) → Q (Proc.run (k b) s2).2) →
  Q (Proc.run (send (SR.NodeID r) (MsgEnforce e) ≫= k) s1).2.
Proof. intros Hs HQ. rewrite run_bind. apply HQ. by eapply swept_send. Qed.

Lemma wp_update {B : Type} (fn : SR.SessionRecord → unit * SR.SessionRecord)
    (mem : SR.SessionRecord → server → server) (k : option store_err * option unit → M B) (s s1 : server)
    (r r' : SR.SessionRecord) (m : option enforcement) (Q : server → Prop) :
  swept s s1 r r' m → (∀ r s, quiet s (mem r s)) →
  (∀ x s2, swept s s2 r (fn r').2 m → Q (Proc.run (k x) s2).2) →
  Q (Proc.run (UpdateSession (SR.WorkspaceID r) (SR.ID r) fn mem ≫= k) s1).2.
Proof. intros Hs Hm HQ. rewrite run_bind. apply HQ. by apply swept_update. Qed.

Lemma revokeSession_swept (s : server) (r : SR.SessionRecord) (reason : string) :
  faults s = [] → sessions s !! key r = Some r → live_state (SR.State r) = true →
  swept s (Proc.run (revokeSession r reason) s).2 r (revoked_row r (now_ns s) reason) (revoke_push r reason).
Proof.
  intros Hf Hr Hl. unfold revokeSession. rewrite Hl. cbn [negb andb]. rewrite run_bind.
  pose proof (SendRevoke_swept s r reason Hf Hr) as Hs.
  destruct (Proc.run (SendRevoke r reason) s) as [p s1]. cbn [fst snd] in *.
  eapply wp_quiet; [exact Hs|handler_steps|]. clear Hs. intros _ s2 Hs.
  eapply wp_now; [exact Hs|]. eapply wp_update; [exact Hs|done|]. clear Hs. intros _ s3 Hs.
  eapply wp_quiet; [exact Hs|apply unregister_quiet|]. clear Hs. intros _ s4 Hs.
  eapply swept_quiet; [apply AppendWS_quiet|exact Hs].
Qed.

(** The lease and the read-only delta the sweep signs for a session. *)
Definition expiry_ms (s : server) : Z := UnixMilli (now_ns s + SessionLeaseTTL).

Definition lease_push (s : server) (r : SR.SessionRecord) : option enforcement :=
  match signLease (SR.ID r) (next r) (expiry_ms s) (SR.ClientNoisePub r) with
  | Ok l => Some (EnfLease l)
  | Err _ => None
  end.

Definition delta_push (s : server) (r : SR.SessionRecord) : option enforcement :=
  match signDelta r (next r) "read_only" "" (Some (readonly_caps r)) (expiry_ms s) with
  | Ok d => Some (EnfDelta d)
  | Err _ => None
  end.

Lemma refreshLease_swept (s : server) (r : SR.SessionRecord) :
  faults s = [] → sessions s !! key r = Some r →
  swept s (Proc.run (refreshLease r) s).2 r (bump r) (lease_push s r).
Proof.
  intros Hf Hr. unfold refreshLease, lease_push. rewrite run_bind, run_nextEpoch by done. cbn [fst snd].
  pose proof (bumped s r Hf Hr) as Hs. unfold leaseExpiryMs. rewrite run_bind.
  change (Proc.run (t ← now; mret (UnixMilli (t + SessionLeaseTTL))) ?x) with (expiry_ms s, x). cbn [fst snd].
  destruct (signLease _ _ _ _) as [l|e]; [|exact Hs].
  eapply wp_send; [exact Hs|]. clear Hs. intros _ s1 Hs.
  eapply wp_quiet; [exact Hs|apply touch_quiet|]. clear Hs. intros _ s2 Hs.
  eapply wp_quiet; [exact Hs|apply deliverControl_quiet|]. by intros _ s3.
Qed.

Lemma pushReadOnlyDelta_swept (s : server) (r : SR.SessionRecord) :
  faults s = [] → sessions s !! key r = Some r →
  swept s (Proc.run (pushReadOnlyDelta r) s).2 r (bump r) (delta_push s r).
Proof.
  intros Hf Hr. unfold pushReadOnlyDelta, delta_push. rewrite run_bind, run_nextEpoch by done. cbn [fst snd].
  pose proof (bumped s r Hf Hr) as Hs. unfold leaseExpiryMs. rewrite run_bind.
  change (Proc.run (t ← now; mret (UnixMilli (t + SessionLeaseTTL))) ?x) with (expiry_ms s, x). cbn [fst snd].
  destruct (signDelta _ _ _ _ _ _) as [d|e]; [|exact Hs].
  eapply wp_send; [exact Hs|]. clear Hs. intros _ s1 Hs.
  eapply wp_quiet; [exact Hs|apply touch_quiet|]. clear Hs. intros _ s2 Hs.
  eapply wp_quiet; [exact Hs|apply deliverControl_quiet|]. by intros _ s3.
Qed.

(** ** The verdict *)

Definition current_verdict (s : server) (r : SR.SessionRecord) : verdict :=
  let engine := policyEngines s !! SR.WorkspaceID r in
  let t := local_time (now_ns s) in
  if IsSuspendedE (denies s) (SR.WorkspaceID r) (SR.Provider r) (SR.Subject r)
  then denied "principal suspended"
  else if presence_stale presence r (now_ns s) then denied "presence expired"
  else match nodes s !! (SR.WorkspaceID r, SR.NodeID r) with
       | Some n => if negb (NR.Approved n) then denied "node approval revoked"
                   else policy_verdict engine (session_input r (NR.Labels n) t) t
       | None => policy_verdict engine (session_input r ∅ t) t
       end.

(** A lookup that answers with the node's row. *)
Definition faithful (lookup : nodeLookup) (s0 : server) (r : SR.SessionRecord) : Prop :=
  ∀ s, faults s = [] → nodes s = nodes s0 →
    Proc.run (lookup (SR.WorkspaceID r) (SR.NodeID r)) s = (nodes s0 !! (SR.WorkspaceID r, SR.NodeID r), s).

Lemma run_IsSuspended (ws provider subject : string) (s : server) :
  faults s = [] → Proc.run (IsSuspended ws provider subject) s = (IsSuspendedE (denies s) ws provider subject, s).
Proof. intros Hf. unfold IsSuspended. by rewrite run_bind, run_view. Qed.

Lemma run_read {X B : Type} (f : server → X) (k : X → M B) (s : server) :
  Proc.run (read f ≫= k) s = Proc.run (k (f s)) s.
Proof. done. Qed.

Lemma reauthorizeWith_run (lookup : nodeLookup) (s : server) (r : SR.SessionRecord) :
  faults s = [] → faithful lookup s r →
  Proc.run (reauthorizeWith presence r lookup) s = (current_verdict s r, s).
Proof.
  intros Hf Hl. unfold reauthorizeWith, current_verdict. rewrite run_bind, run_IsSuspended by done.
  cbn [fst snd]. destruct (IsSuspendedE _ _ _ _); [done|]. unfold now. rewrite run_read.
  destruct (presence_stale presence r (now_ns s)); [done|]. rewrite run_bind, Hl by done. cbn [fst snd].
  destruct (nodes s !! _) as [n|]; [destruct (NR.Approved n); [|done]|]; cbn [negb]; by rewrite !run_read.
Qed.

Lemma storeNodeLookup_faithful (s : server) (r : SR.SessionRecord) : faithful storeNodeLookup s r.
Proof.
  intros s1 Hf <-. unfold storeNodeLookup, GetNode. rewrite run_bind, run_view by done. cbn [fst snd].
  unfold get_node. by destruct (nodes s1 !! _).
Qed.

(** ** What one sweep does to a row, and what it pushes *)

Definition owed (r : SR.SessionRecord) : bool :=
  bool_decide (SR.State r = SessionRevoked) && negb (SR.RevokeDelivered r).

Definition connected (s : server) (r : SR.SessionRecord) : Prop := is_Some (agents s !! SR.NodeID r).

Definition deny_reason (v : verdict) : string := String.append "continuous-authz: " (v_Reason v).

Definition sweep_row (s : server) (r : SR.SessionRecord) : SR.SessionRecord :=
  if live_state (SR.State r) then
    let v := current_verdict s r in
    if v_Allow v then bump r else revoked_row r (now_ns s) (deny_reason v)
  else if owed r && bool_decide (is_Some (agents s !! SR.NodeID r)) then bump r else r.

Definition sweep_push (s : server) (r : SR.SessionRecord) : option enforcement :=
  if live_state (SR.State r) then
    let v := current_verdict s r in
    if v_Allow v then if v_ReadOnly v then delta_push s r else lease_push s r
    else revoke_push r (deny_reason v)
  else if owed r then revoke_push r (SR.RevokeReason r) else None.

(** What one sweep puts on the streams for [r]. *)
Definition sweep_mail (s : server) (r : SR.SessionRecord) : list (string * agent_msg) :=
  mailed s r (sweep_push s r).

Lemma swept_same (s : server) (r : SR.SessionRecord) (m : option enforcement) :
  faults s = [] → sessions s !! key r = Some r → (m = None ∨ ¬ connected s r) → swept s s r r m.
Proof.
  intros Hf Hr Hm. split; [done|]. split; [by rewrite insert_id|]. unfold mailed, connected in *.
  destruct m, (agents s !! _); try by rewrite app_nil_r. by destruct Hm as [|[]].
Qed.

Lemma sweep_session_swept (lookup : nodeLookup) (s : server) (r : SR.SessionRecord) :
  faults s = [] → sessions s !! key r = Some r → faithful lookup s r →
  swept s (Proc.run (sweep_session presence lookup r) s).2 r (sweep_row s r) (sweep_push s r).
Proof.
  intros Hf Hr Hl. unfold sweep_session, sweep_row, sweep_push.
  destruct (live_state (SR.State r)) eqn:El.
  - unfold driveLiveSessionWith. rewrite run_bind, reauthorizeWith_run by done. cbn [fst snd].
    destruct (v_Allow _); cbn [negb]; [|rewrite run_bind; by apply revokeSession_swept].
    destruct (v_ReadOnly _); [by apply pushReadOnlyDelta_swept|by apply refreshLease_swept].
  - fold (owed r). destruct (owed r); cbn [andb]; [|apply swept_same; auto].
    unfold Online. rewrite run_read. case_bool_decide as Ho; [|apply swept_same; auto].
    unfold rePushRevoke. rewrite run_bind. by apply SendRevoke_swept.
Qed.

(** Nothing the verdict depends on moves during a sweep. *)
Lemma sweep_stable (s0 s : server) (r : SR.SessionRecord) :
  stable s0 s → sweep_row s r = sweep_row s0 r ∧ sweep_mail s r = sweep_mail s0 r.
Proof.
  intros ([En _] & Ed & Ep & Ea & Et & _). unfold sweep_row, sweep_mail, sweep_push, mailed, delta_push,
    lease_push, expiry_ms, current_verdict. by rewrite En, Ed, Ep, Ea, Et.
Qed.

Lemma each_swept (lookup : nodeLookup) (s0 : server) (l : list SR.SessionRecord) (s : server) :
  stable s0 s → NoDup (key <$> l) → (∀ r, r ∈ l → sessions s !! key r = Some r ∧ faithful lookup s0 r) →
  let s' := (Proc.run (each l (sweep_session presence lookup)) s).2 in
  stable s0 s' ∧
  (∀ r, r ∈ l → sessions s' !! key r = Some (sweep_row s0 r)) ∧
  (∀ k, k ∉ key <$> l → sessions s' !! k = sessions s !! k) ∧
  mail s' = mail s ++ mjoin (sweep_mail s0 <$> l).
Proof.
  revert s. induction l as [|r l IH]; intros s Hs Hnd Hl s'.
  { subst s'. simpl. rewrite app_nil_r. split_and!; try done. intros r Hr. by apply not_elem_of_nil in Hr. }
  assert (faults s = []) as Hf by apply Hs. apply NoDup_cons in Hnd as [Hni Hnd].
  destruct (Hl r) as [Hr Hfa]; [by left|].
  assert (faithful lookup s r) as Hfa' by (destruct Hs as [[En _] _]; intros u Hu Eu; rewrite En; apply Hfa; congruence).
  subst s'. cbn [each]. rewrite run_bind.
  pose proof (sweep_session_swept lookup s r Hf Hr Hfa') as (Hst & Hse & Hef).
  destruct (Proc.run (sweep_session presence lookup r) s) as [[] s1]. cbn [fst snd] in *.
  destruct (sweep_stable s0 s r Hs) as [Erow Email].
  destruct (IH s1) as (I1 & I2 & I3 & I4); [by etransitivity|done| |].
  { intros r2 Hr2. rewrite Hse, lookup_insert_ne; [apply Hl; by right|].
    intros E. apply Hni. rewrite E. by apply list_elem_of_fmap_2. }
  split_and!; [done| | |].
  - intros r2 [->|Hr2]%elem_of_cons; [|by apply I2]. rewrite I3, Hse, lookup_insert_eq by done. by rewrite Erow.
  - intros k Hk. apply not_elem_of_cons in Hk as [Hk1 Hk2]. rewrite I3, Hse, lookup_insert_ne by done. done.
  - fold (sweep_mail s r) in Hef. rewrite I4, Hef, Email. cbn. by rewrite app_assoc.
Qed.

(** ** The node index of the sweep *)

Definition nul : Ascii.ascii := Ascii.ascii_of_nat 0.

(** Workspace ids have no NUL. *)
Definition nul_free (s : server) : Prop :=
  (∀ k r, sessions s !! k = Some r → has_char nul (SR.WorkspaceID r) = false) ∧
  (∀ k n, nodes s !! k = Some n → has_char nul (NR.WorkspaceID n) = false).

Lemma index_fold (l : list NR.NodeRecord) (m : gmap string NR.NodeRecord) (k : string) :
  foldl (λ m n, <[index_key (NR.WorkspaceID n) (NR.ID n) := n]> m) m l !! k =
  match last (filter (λ n, index_key (NR.WorkspaceID n) (NR.ID n) = k) l) with
  | Some n => Some n
  | None => m !! k
  end.
Proof.
  revert m. induction l as [|n l IH]; intros m; [done|]. cbn [foldl]. rewrite IH, filter_cons.
  case_decide as E.
  - rewrite last_cons. destruct (last (filter _ l)); [done|]. by rewrite E, lookup_insert_eq.
  - destruct (last (filter _ l)); [done|]. by rewrite lookup_insert_ne.
Qed.

Lemma prefetched_faithful (s : server) (r : SR.SessionRecord) (k : string * string) :
  typed s → nul_free s → sessions s !! k = Some r →
  faithful (prefetched (node_index (map_to_list (nodes s)).*2)) s r.
Proof.
  intros (_ & Ht & _) [Hr Hn] Hk u _ _. unfold prefetched, node_index. cbn [Proc.run mret prog_ret].
  f_equal. rewrite index_fold, lookup_empty.
  set (ix := filter _ _).
  assert (∀ n, n ∈ ix ↔ nodes s !! (SR.WorkspaceID r, SR.NodeID r) = Some n) as Hix.
  { intros n. unfold ix. rewrite list_elem_of_filter, list_elem_of_fmap. split.
    - intros [E ([kk n'] & -> & Hm)]. apply elem_of_map_to_list in Hm. simpl in *.
      apply append_sep_inj in E as [E1 E2]; [|by eapply Hn|by eapply Hr].
      rewrite <- E1, <- E2, <- (Ht _ _ Hm). done.
    - intros Hm. pose proof (Ht _ _ Hm) as E. rewrite E in Hm. injection E as -> ->. split; [done|].
      exists ((NR.WorkspaceID n, NR.ID n), n). split; [done|]. by apply elem_of_map_to_list. }
  destruct (last ix) as [n|] eqn:E.
  - symmetry. apply Hix. apply last_Some in E as [l ->]. apply elem_of_app. right. by left.
  - apply last_None in E. destruct (nodes s !! _) as [n|]; [|done].
    assert (n ∈ ix) as Hin by by apply Hix. rewrite E in Hin. by apply not_elem_of_nil in Hin.
Qed.

(** ** The sweep *)

(** The session rows are under their keys. *)
Definition keyed (s : server) : Prop := ∀ k r, sessions s !! k = Some r → k = key r.

Lemma map_to_list_keys (s : server) :
  keyed s → key <$> (map_to_list (sessions s)).*2 = (map_to_list (sessions s)).*1.
Proof.
  intros Ht. rewrite <- list_fmap_compose. apply list_fmap_ext. intros i [k r] Hi.
  apply list_elem_of_lookup_2, elem_of_map_to_list, Ht in Hi. done.
Qed.

Lemma sweep_housekeeping_quiet : acts quiet sweep_housekeeping.
Proof.
  unfold sweep_housekeeping, now, ExpireStaleRelays, ExpireStaleControllers.
  handler_steps; by apply tx_quiet.
Qed.

Lemma sweep_run (s : server) :
  faults s = [] → typed s → nul_free s →
  let s' := (Proc.run (reauthSweep presence) s).2 in
  sessions s' = sweep_row s <$> sessions s ∧
  mail s' = mail s ++ mjoin (sweep_mail s <$> (map_to_list (sessions s)).*2) ∧ stable s s'.
Proof.
  intros Hf Ht Hn s'. subst s'. unfold reauthSweep. rewrite run_bind.
  destruct (run_mute sweep_housekeeping s sweep_housekeeping_quiet Hf) as [[Hst Ese] Em].
  destruct (Proc.run sweep_housekeeping s) as [[] s1]. cbn [fst snd] in *.
  assert (faults s1 = []) as Hf1 by apply Hst. assert (nodes s1 = nodes s) as En by apply Hst.
  rewrite run_bind. unfold ListAllSessions. rewrite run_view by done. cbn [fst snd].
  rewrite run_bind. unfold ListAllNodes. rewrite run_view by done. cbn [fst snd]. rewrite Ese, En.
  set (lookup := prefetched _).
  destruct (each_swept lookup s (map_to_list (sessions s)).*2 s1) as (I1 & I2 & I3 & I4); [done| | |].
  { rewrite (map_to_list_keys s (proj1 Ht)). apply NoDup_fst_map_to_list. }
  { intros r ([k r'] & -> & Hr%elem_of_map_to_list)%list_elem_of_fmap. cbn [snd].
    assert (k = key r') as -> by by apply Ht. split; [by rewrite Ese|]. by eapply prefetched_faithful. }
  assert (∀ k r, sessions s !! k = Some r → r ∈ (map_to_list (sessions s)).*2 ∧ k = key r) as Hin.
  { intros k r Hr. split; [|by apply Ht]. apply list_elem_of_fmap. exists (k, r).
    split; [done|]. by apply elem_of_map_to_list. }
  split_and!; [|by rewrite I4, Em|exact I1].
  - apply map_eq. intros k. rewrite lookup_fmap. destruct (sessions s !! k) as [r|] eqn:Ek.
    + destruct (Hin k r Ek) as [Hr ->]. by apply I2.
    + rewrite I3; [by rewrite Ese, Ek|]. rewrite (map_to_list_keys s (proj1 Ht)).
      intros ([k' r] & -> & Hr%elem_of_map_to_list)%list_elem_of_fmap. simpl in *. congruence.
Qed.

Lemma sweep_sent (s : server) (k : string * string) (r : SR.SessionRecord) (e : enforcement) :
  faults s = [] → typed s → nul_free s →
  sessions s !! k = Some r → sweep_push s r = Some e → connected s r →
  ToAgent (SR.NodeID r) (MsgEnforce e) ∈ Store.effects (Proc.run (reauthSweep presence) s).2.
Proof.
  intros Hf Ht Hn Hr He [h Hc]. destruct (sweep_run s Hf Ht Hn) as (_ & Hm & _).
  apply elem_of_mail. rewrite Hm. apply elem_of_app. right. apply list_elem_of_join.
  exists (sweep_mail s r). split; [unfold sweep_mail, mailed; rewrite He, Hc; by left|].
  apply list_elem_of_fmap_2, list_elem_of_fmap. exists (k, r). split; [done|]. by apply elem_of_map_to_list.
Qed.

(** The session a message is about. *)
Definition enf_session (e : enforcement) : string :=
  match e with EnfLease l => l_SessionId l | EnfDelta d => d_SessionId d | EnfRevoke v => r_SessionId v end.

Lemma sweep_push_session (s : server) (r : SR.SessionRecord) (e : enforcement) :
  sweep_push s r = Some e → enf_session e = SR.ID r.
Proof.
  unfold sweep_push, delta_push, lease_push, revoke_push, signDelta, signLease, signRevoke.
  intros E. repeat (case_match; simplify_eq/=); try done; by destruct (signEnvelope _); simplify_eq/=.
Qed.

(** Whatever a sweep sends is the push of some row. *)
Lemma sweep_mail_from (s : server) (nodeID : string) (m : agent_msg) :
  (nodeID, m) ∈ mjoin (sweep_mail s <$> (map_to_list (sessions s)).*2) →
  ∃ k r e, sessions s !! k = Some r ∧ sweep_push s r = Some e ∧ enf_session e = SR.ID r ∧
    connected s r ∧ nodeID = SR.NodeID r ∧ m = MsgEnforce e.
Proof.
  intros (l & Hin & (r & -> & ([k r'] & -> & Hk%elem_of_map_to_list)%list_elem_of_fmap)%list_elem_of_fmap)%list_elem_of_join.
  unfold sweep_mail, mailed in Hin. cbn [snd] in *. exists k, r'.
  destruct (sweep_push s r') as [e|] eqn:Ee, (agents s !! SR.NodeID r') as [h|] eqn:Eh; try by apply not_elem_of_nil in Hin.
  apply list_elem_of_singleton in Hin. injection Hin as -> ->. exists e. unfold connected. rewrite Eh.
  split_and!; try done. by eapply sweep_push_session.
Qed.

(** C18 (continuousauthz.go, reauthSweep): one sweep is exact.  On a store without
    failures, with its rows under their keys and no NUL in a workspace's name, whatever the
    session rows and the index of nodes it prefetches, every live session whose principal is
    suspended, whose presence lapsed, whose node lost its approval or which the policy now denies is revoked
    with that reason and a fresh epoch; every other live session only takes a fresh
    epoch; a revocation still owed to a connected node takes one too; all other rows
    are unchanged.  Each connected node is sent the signed revoke, read-only delta or
    lease of each of its sessions, and the sweep puts nothing else on any stream. *)
Theorem sweep_exact (s : server) :
  faults s = [] → typed s → nul_free s →
  let s' := (Proc.run (reauthSweep presence) s).2 in
  sessions s' = sweep_row s <$> sessions s ∧
  (∀ k r e, sessions s !! k = Some r → sweep_push s r = Some e → connected s r →
     ToAgent (SR.NodeID r) (MsgEnforce e) ∈ Store.effects s') ∧
  mail s' = mail s ++ mjoin (sweep_mail s <$> (map_to_list (sessions s)).*2).
Proof.
  intros Hf Ht Hn s'. destruct (sweep_run s Hf Ht Hn) as (? & ? & _). split_and!; [done| |done].
  intros k r e Hr He Hc. by eapply sweep_sent.
Qed.

End Sweep.

(** ** At the agent *)

Section Agent.
Context `{Ed25519, GrantKeys, Rendering} `{JSONEncode Signed, JSONEncode LeasePayload,
  JSONEncode DeltaPayload, JSONEncode RevokePayload}.
Context `{JSONDecode Signed, JSONDecode LeasePayload, JSONDecode DeltaPayload, JSONDecode RevokePayload}.
Context `{!JSONLaw Signed, !JSONLaw LeasePayload, !JSONLaw DeltaPayload, !JSONLaw RevokePayload}.
Context `{!JSONTotal Signed, !JSONTotal LeasePayload, !JSONTotal DeltaPayload, !JSONTotal RevokePayload}.
Context (presence : presence_config) (trusted : keyset) (pub : bytes).

(** The agent trusts the controller's grant key, and the key signs. *)
Definition key_trusted : Prop :=
  (trusted !! grantKeyID = Some pub ∧ ValidString grantKeyID = true) ∧ length pub = PublicKeySize ∧
  ∀ m, ∃ sig, grantKey m = Some sig ∧ length sig = SignatureSize ∧ ed25519_Verify pub m sig = true.

Definition deliver (t : Z) (a : agent) (e : enforcement) : agent :=
  match e with
  | EnfLease l => applyLease trusted t a l
  | EnfDelta d => applyDelta trusted t a d
  | EnfRevoke v => applyRevoke trusted a v
  end.

Lemma signEnvelope_verifies {A : Type} `{JSONText A, JSONEncode A, JSONDecode A, !JSONLaw A, !JSONTotal A} (p : A) :
  key_trusted → text_ok p = true → ∃ b, signEnvelope p = Ok b ∧ verifyEnforcement trusted b = Ok p.
Proof.
  intros ([Hk Hid] & Hl & Hs) Hp0. unfold signEnvelope, verifyEnforcement.
  destruct (marshal_total p) as [pb Hp].
  destruct (Hs (signingInput ContextSessionPolicy pb)) as (sig & Hsg & Hsl & Hv).
  set (env := mkSigned pb sig grantKeyID). destruct (marshal_total env) as [b Hb]. exists b.
  assert (Sign Marshal grantKey grantKeyID ContextSessionPolicy p = Ok env) as ->.
  { unfold Sign. by rewrite Hp, Hsg, Hsl, Nat.eqb_refl. }
  rewrite Hb, (unmarshal_marshal env b Hid Hb). split; [done|].
  assert (Verify trusted ContextSessionPolicy (Some env) Unmarshal = Ok (grantKeyID, p)) as ->; [|done].
  apply Verify_Ok. exists env, pub. split_and!; try done. by apply unmarshal_marshal.
Qed.

(** What the record and the reason put in a message is UTF-8. *)
Definition readable (r : SR.SessionRecord) (reason : string) : Prop :=
  ValidString (SR.ID r) = true ∧ forallb ValidString (SR.GrantForwardTargets r) = true ∧ ValidString reason = true.

(** The agent holds the session the record describes, and has seen no later epoch. *)
Definition agrees (r : SR.SessionRecord) (ls : liveSession) : Prop :=
  clientNoisePub ls = SR.ClientNoisePub r ∧ AllowPTY (ls_grant ls) = SR.GrantAllowPTY r ∧
  ForwardTargets (grantImpliedCaps (ls_grant ls)) = SR.GrantForwardTargets r ∧ epoch ls < next r.

Lemma lease_obeyed (s : server) (r : SR.SessionRecord) (ls : liveSession) (t : Z) (a : agent) :
  key_trusted → ValidString (SR.ID r) = true → live a !! SR.ID r = Some ls → agrees r ls →
  ∃ e, lease_push s r = Some e ∧
    live (deliver t a e) !! SR.ID r = Some (rearmLocked t (with_epoch ls (next r)) (expiry_ms s)).
Proof.
  intros Hk Hu Hl (Hc & _ & _ & He). unfold lease_push, signLease.
  destruct (signEnvelope_verifies (mkLeasePayload (SR.ID r) (next r) (expiry_ms s) (SR.ClientNoisePub r)) Hk Hu)
    as (b & -> & Hv). eexists. split; [done|]. cbn [deliver]. unfold applyLease. cbn [l_Sig l_SessionId].
  rewrite Hv, Hl. cbn [lp_SessionID lp_ClientNoisePub lp_Epoch ExpiryUnixMs].
  rewrite !bool_decide_eq_true_2 by done. cbn [negb orb].
  destruct (Z.leb_spec (next r) (epoch ls)); [lia|]. apply lookup_insert_eq.
Qed.

Lemma revoke_obeyed (r : SR.SessionRecord) (reason : string) (a : agent) :
  key_trusted → readable r reason → (∀ ls, live a !! SR.ID r = Some ls → agrees r ls) →
  ∃ e, revoke_push r reason = Some e ∧ ∀ t, deliver t a e = revokeLive a (SR.ID r) reason.
Proof.
  intros Hk (Hu & _ & Hr) Hl. unfold revoke_push, signRevoke.
  destruct (signEnvelope_verifies (mkRevokePayload (SR.ID r) (next r) reason (SR.ClientNoisePub r)) Hk)
    as (b & -> & Hv); [unfold text_ok, Revoke_text; cbn; by rewrite Hu, Hr|]. eexists. split; [done|]. intros t. cbn [deliver]. unfold applyRevoke.
  cbn [r_Sig r_SessionId]. rewrite Hv. cbn [rp_SessionID rp_ClientNoisePub rp_Epoch Lease.Reason].
  rewrite bool_decide_eq_true_2 by done. cbn [negb]. destruct (live a !! SR.ID r) as [ls|]; [|done].
  destruct (Hl ls) as (Hc & _ & _ & He); [done|]. rewrite bool_decide_eq_true_2 by done. cbn [negb].
  destruct (Z.leb_spec (next r) (epoch ls)); [lia|done].
Qed.

Lemma revokeLive_spec (a : agent) (id reason : string) :
  live (revokeLive a id reason) !! id = None ∧ KillHost id ∈ Lease.effects (revokeLive a id reason) ∧
  (∃ path ep, EmitRevoked id reason path ep ∈ Lease.effects (revokeLive a id reason)) ∧
  (is_Some (live a !! id) → Cancel id ∈ Lease.effects (revokeLive a id reason)).
Proof.
  unfold revokeLive. destruct (live a !! id) as [ls|] eqn:E; cbn.
  - split; [apply lookup_delete_eq|]. split; [|split].
    + apply elem_of_app. left. apply elem_of_app. right. by left.
    + do 2 eexists. apply elem_of_app. right. by left.
    + intros _. do 2 (apply elem_of_app; left). apply elem_of_app. right. by left.
  - split; [apply lookup_delete_eq|]. split; [|split].
    + apply elem_of_app. left. apply elem_of_app. right. by left.
    + do 2 eexists. apply elem_of_app. right. by left.
    + by intros [].
Qed.

Lemma readonly_downgrade (r : SR.SessionRecord) (ls : liveSession) :
  agrees r ls → VerifyDowngrade (ls_grant ls) (capsFromProto (Some (readonly_caps r))) = None.
Proof.
  intros (_ & Hp & Hf & _). apply VerifyDowngrade_None. right. cbn in *. rewrite Hp, Hf.
  split_and!; done.
Qed.

Lemma delta_obeyed (s : server) (r : SR.SessionRecord) (ls : liveSession) (t : Z) (a : agent) :
  key_trusted → ValidString (SR.ID r) = true → forallb ValidString (SR.GrantForwardTargets r) = true →
  live a !! SR.ID r = Some ls → agrees r ls → 0 ≤ now_ns s →
  ∃ e, delta_push s r = Some e ∧
    live (deliver t a e) !! SR.ID r =
      Some (rearmLocked t (with_caps (with_epoch ls (next r)) (Some (readonly_caps r))) (expiry_ms s)).
Proof.
  intros Hk Hu Hfw Hl Ha Ht. pose proof Ha as (Hc & _ & _ & He). unfold delta_push, signDelta.
  destruct (signEnvelope_verifies (mkDeltaPayload (SR.ID r) (next r) "read_only" ""
    (capsToTypes (Some (readonly_caps r))) (expiry_ms s) (SR.ClientNoisePub r)) Hk)
    as (b & -> & Hv); [unfold text_ok, Delta_text, text_ok, Caps_text; cbn; by rewrite Hu, Hfw|]. eexists. split; [done|]. cbn [deliver]. unfold applyDelta.
  cbn [d_Sig d_SessionId d_Caps]. rewrite Hv, Hl.
  cbn [dp_SessionID dp_ClientNoisePub dp_Epoch LeaseExpiryUnixMs].
  rewrite !bool_decide_eq_true_2 by done. cbn [negb orb].
  destruct (Z.leb_spec (next r) (epoch ls)); [lia|]. rewrite (readonly_downgrade r ls Ha).
  assert ((0 <? expiry_ms s) = true) as ->.
  { apply Z.ltb_lt, Z.div_str_pos. unfold SessionLeaseTTL, millisecond, second. lia. }
  cbn [capsFromProto readonly_caps Grant.Allow pb_Allow negb pb_AllowSftpWrite pb_ForwardTargets setHostCaps].
  unfold tearWrites, tearForwards. repeat case_match; simpl; apply lookup_insert_eq.
Qed.

(** The agent's session, [ls] before, is as the controller's current verdict says. *)
Definition enforced (s : server) (r : SR.SessionRecord) (ls : liveSession) (a : agent) : Prop :=
  let v := current_verdict presence s r in
  if v_Allow v then
    ∃ ls', live a !! SR.ID r = Some ls' ∧ leaseDeadline ls' = of_UnixMilli (expiry_ms s) ∧
      caps ls' = (if v_ReadOnly v then Some (readonly_caps r) else caps ls)
  else live a !! SR.ID r = None ∧ Cancel (SR.ID r) ∈ Lease.effects a ∧ KillHost (SR.ID r) ∈ Lease.effects a.

(** C19 (continuousauthz.go, sessionenforce.go, with agentd/lease.go): the sweep is
    obeyed.  For every live session of a connected node, the sweep puts on the node's
    stream a message which the agent, if it holds the session and trusts the grant
    key (and the text of the message is UTF-8, as JSON needs), verifies and applies: a session that is no longer authorized is gone from the
    agent and its channels are cut; one that the policy now makes read-only loses its
    input and its writes; any other keeps its capabilities; and the lease of those
    that remain runs to two minutes after the sweep. *)
Theorem sweep_enforced (s : server) (k : string * string) (r : SR.SessionRecord) (a : agent)
    (ls : liveSession) :
  faults s = [] → typed s → nul_free s → 0 ≤ now_ns s → key_trusted →
  sessions s !! k = Some r → live_state (SR.State r) = true → connected s r →
  live a !! SR.ID r = Some ls → agrees r ls → readable r (deny_reason (current_verdict presence s r)) →
  ∃ e, ToAgent (SR.NodeID r) (MsgEnforce e) ∈ Store.effects (Proc.run (reauthSweep presence) s).2 ∧
    ∀ t, enforced s r ls (deliver t a e).
Proof.
  intros Hf Ht Hn Hnow Hk Hr Hlive Hc Hl Ha Hre. pose proof Hre as (Hu & Hfw & _).
  assert (∀ e, sweep_push presence s r = Some e →
    ToAgent (SR.NodeID r) (MsgEnforce e) ∈ Store.effects (Proc.run (reauthSweep presence) s).2) as Hpush
    by (intros e He; by eapply sweep_sent). unfold enforced.
  unfold sweep_push in Hpush. rewrite Hlive in Hpush.
  destruct (v_Allow (current_verdict presence s r)); [destruct (v_ReadOnly (current_verdict presence s r))|].
  - destruct (delta_obeyed s r ls 0 a) as (e & He & _); try done. exists e. split; [by apply Hpush|].
    intros t. destruct (delta_obeyed s r ls t a) as (e' & He' & Hd); try done.
    rewrite He in He'. injection He' as <-. by eexists.
  - destruct (lease_obeyed s r ls 0 a) as (e & He & _); try done. exists e. split; [by apply Hpush|].
    intros t. destruct (lease_obeyed s r ls t a) as (e' & He' & Hd); try done.
    rewrite He in He'. injection He' as <-. by eexists.
  - destruct (revoke_obeyed r (deny_reason (current_verdict presence s r)) a) as (e & He & Hd); [done|done| |].
    { intros ls' E. rewrite Hl in E. by injection E as <-. }
    exists e. split; [by apply Hpush|]. intros t. rewrite Hd.
    destruct (revokeLive_spec a (SR.ID r) (deny_reason (current_verdict presence s r))) as (? & ? & _ & Hcan).
    split_and!; [done|by apply Hcan|done].
Qed.

(** ** A revocation that is owed *)

Definition revoked_event (id : string) (reason path : string) (ep : Z) : SessionEvent :=
  mkSessionEvent id "revoked" "" 0 reason path ep.

Lemma run_confirmRevokeDelivered (s : server) (r : SR.SessionRecord) (nodeID : string) :
  faults s = [] → sessions s !! key r = Some r → owed r = true →
  let s' := (Proc.run (confirmRevokeDelivered (SR.WorkspaceID r) (SR.ID r) nodeID) s).2 in
  faults s' = [] ∧ sessions s' = <[key r := r <| SR.RevokeDelivered := true |>]> (sessions s).
Proof.
  intros Hf Hr Ho s'. subst s'. unfold confirmRevokeDelivered.
  rewrite run_bind, (run_UpdateSession _ _ _ _ s r Hf Hr). fold (owed r). rewrite Ho. cbn [fst snd default].
  destruct (run_quiet (_ ← AppendWS (SR.WorkspaceID r) "session_revoke_confirmed" "" nodeID (SR.ID r) ∅;
              mret tt) (s <| sessions ::= <[key r := r <| SR.RevokeDelivered := true |>]> |>))
    as [Hst E]; [handler_steps|done|]. split; [apply Hst|exact E].
Qed.

Lemma run_confirm (s : server) (r : SR.SessionRecord) (nodeID reason path : string) (ep : Z) :
  faults s = [] → sessions s !! key r = Some r → owed r = true →
  sessions (Proc.run (handleSessionEvent (SR.WorkspaceID r) nodeID
                        (revoked_event (SR.ID r) reason path ep)) s).2
    = <[key r := r <| SR.RevokeDelivered := true |>]> (sessions s).
Proof.
  intros Hf Hr Ho. unfold handleSessionEvent. cbn [Event revoked_event ev_SessionId].
  rewrite !bool_decide_eq_false_2 by done. cbn [orb]. rewrite bool_decide_eq_true_2, run_bind by done.
  destruct (run_confirmRevokeDelivered s r nodeID Hf Hr Ho) as [Hf1 <-].
  apply run_quiet; [|done]. unfold Append. handler_steps.
Qed.

Definition settled (r : SR.SessionRecord) : Prop :=
  SR.State r = SessionRevoked ∧ SR.RevokeDelivered r = true.

Lemma settled_stays (s : server) (k : string * string) (r : SR.SessionRecord) :
  faults s = [] → typed s → nul_free s → sessions s !! k = Some r → settled r →
  let s' := (Proc.run (reauthSweep presence) s).2 in
  sessions s' !! k = Some r ∧
  ∃ out, mail s' = mail s ++ out ∧
    ∀ nodeID m, (nodeID, m) ∈ out →
      ∃ e k' r', m = MsgEnforce e ∧ sessions s !! k' = Some r' ∧ k' ≠ k ∧
        nodeID = SR.NodeID r' ∧ enf_session e = SR.ID r'.
Proof.
  intros Hf Ht Hn Hk [Hs Hd]. destruct (sweep_run presence s Hf Ht Hn) as (Erow & Em & _). cbv zeta. split.
  - rewrite Erow, lookup_fmap, Hk. cbn. unfold sweep_row, owed. by rewrite Hs, Hd.
  - eexists. split; [exact Em|]. intros nodeID m (k' & r' & e & Hr' & He & Hid & _ & -> & ->)%sweep_mail_from.
    exists e, k', r'. split_and!; try done. intros ->. rewrite Hk in Hr'. injection Hr' as <-.
    unfold sweep_push, owed in He. by rewrite Hs, Hd in He.
Qed.

(** C20 (continuousauthz.go, reauthSweep and confirmRevokeDelivered; nodecontrol.go,
    handleSessionEvent; agentd/lease.go, applyRevoke): an owed revocation is paid.
    Whatever happened before, once the node of a revoked session is connected, the
    next sweep sends it the revoke under a fresh epoch, with the reason it was revoked
    for (UTF-8, as JSON needs); an agent that holds the session tears it down, one that no longer does kills
    what its session host kept; and when its report comes back the debt is settled.  A
    later sweep that finds the session's row settled leaves it settled, and every message it
    sends is the push of another session's row: the revoke is not sent again. *)
Theorem owed_revoke_settles (s : server) (k : string * string) (r : SR.SessionRecord) (a : agent) :
  faults s = [] → typed s → nul_free s → key_trusted →
  sessions s !! k = Some r → owed r = true → connected s r →
  (∀ ls, live a !! SR.ID r = Some ls → agrees r ls) → readable r (SR.RevokeReason r) →
  let s1 := (Proc.run (reauthSweep presence) s).2 in
  ∃ e, ToAgent (SR.NodeID r) (MsgEnforce e) ∈ Store.effects s1 ∧
    (∀ t, live (deliver t a e) !! SR.ID r = None ∧ KillHost (SR.ID r) ∈ Lease.effects (deliver t a e) ∧
       ∃ path ep, EmitRevoked (SR.ID r) (SR.RevokeReason r) path ep ∈ Lease.effects (deliver t a e)) ∧
    (∀ reason path ep,
       let s2 := (Proc.run (handleSessionEvent (SR.WorkspaceID r) (SR.NodeID r)
                              (revoked_event (SR.ID r) reason path ep)) s1).2 in
       ∃ r2, sessions s2 !! k = Some r2 ∧ settled r2) ∧
    (∀ s3 r3, faults s3 = [] → typed s3 → nul_free s3 → sessions s3 !! k = Some r3 → settled r3 →
       let s4 := (Proc.run (reauthSweep presence) s3).2 in
       sessions s4 !! k = Some r3 ∧
       ∃ out, mail s4 = mail s3 ++ out ∧
         ∀ nodeID m, (nodeID, m) ∈ out →
           ∃ e' k' r', m = MsgEnforce e' ∧ sessions s3 !! k' = Some r' ∧ k' ≠ k ∧
             nodeID = SR.NodeID r' ∧ enf_session e' = SR.ID r').
Proof.
  intros Hf Ht Hn Hk Hr Ho Hc Hag Hre s1. destruct (sweep_run presence s Hf Ht Hn) as (Erow & _ & Hst).
  assert (SR.State r = SessionRevoked ∧ live_state (SR.State r) = false) as [Hrev Hnl].
  { unfold owed in Ho. apply andb_true_iff in Ho as [->%bool_decide_eq_true _]. done. }
  destruct (revoke_obeyed r (SR.RevokeReason r) a Hk Hre Hag) as (e & He & Hd).
  assert (k = key r) as -> by by apply Ht.
  exists e. split_and!.
  - eapply sweep_sent; try done. unfold sweep_push. by rewrite Hnl, Ho.
  - intros t. rewrite Hd. destruct (revokeLive_spec a (SR.ID r) (SR.RevokeReason r)) as (? & ? & ? & _). done.
  - intros reason path ep. assert (sessions s1 !! key r = Some (bump r)) as Hb.
    { unfold s1. rewrite Erow, lookup_fmap, Hr. cbn. unfold sweep_row. rewrite Hnl, Ho.
      by rewrite bool_decide_eq_true_2. }
    assert (faults s1 = []) as Hf1 by apply Hst. cbv zeta.
    pose proof (run_confirm s1 (bump r) (SR.NodeID r) reason path ep Hf1 Hb Ho) as E.
    exists ((bump r) <| SR.RevokeDelivered := true |>).
    split; [by etransitivity; [exact (f_equal (λ m, m !! key r) E)|apply lookup_insert_eq]|].
    split; [exact Hrev|done].
  - intros s3 r3. apply settled_stays.
Qed.

End Agent.

(** ** Witnesses *)

Section Witnesses.
Import Fleet.

Lemma start_ok : faults start = [] ∧ typed start ∧ nul_free start.
Proof.
  split; [done|]. split; [apply start_typed|].
  split; intros k r; cbn [sessions nodes start]; by intros [<- <-]%lookup_singleton_Some.
Qed.

Lemma sweep_exact_witness :
  sessions (Proc.run (reauthSweep presence) start).2 = sweep_row presence start <$> sessions start.
Proof. apply (sweep_exact presence start); apply start_ok. Defined.

Definition trusted : keyset := {[ "g1"%string := ToyEd25519.key x11 ]}.

Lemma fleet_key_trusted : key_trusted trusted (ToyEd25519.key x11).
Proof.
  split; [by vm_compute|]. split; [done|]. intros m. eexists. split; [done|].
  split; [|by apply bool_decide_eq_true_2].
  unfold ToyEd25519.sign. rewrite length_take, !length_app, !length_replicate. unfold SignatureSize. lia.
Qed.

(** The agent of [LeaseFixture] holds the session of [start]. *)
Definition held : liveSession :=
  rearmLocked LeaseFixture.now0
    (mkLive LeaseFixture.grant "direct" LeaseFixture.key 0 time_zero None None ∅ false)
    (UnixMilli (LeaseFixture.now0 + SessionLeaseTTL)).

Lemma sweep_enforced_witness :
  ∃ e, ToAgent "node-1" (MsgEnforce e) ∈ Store.effects (Proc.run (reauthSweep presence) start).2 ∧
    ∀ t, enforced presence start session held (deliver trusted t LeaseFixture.start e).
Proof.
  apply (sweep_enforced presence trusted (ToyEd25519.key x11) start ("acme", "s-1")%string session
           LeaseFixture.start held).
  - apply start_ok.
  - apply start_ok.
  - apply start_ok.
  - vm_compute. discriminate.
  - apply fleet_key_trusted.
  - vm_compute. reflexivity.
  - vm_compute. reflexivity.
  - eexists. vm_compute. reflexivity.
  - vm_compute. reflexivity.
  - split_and!; vm_compute; reflexivity.
  - split_and!; vm_compute; reflexivity.
Defined.

(** The session was revoked while its node was away. *)
Definition owing : SR.SessionRecord :=
  session <| SR.State := SessionRevoked |> <| SR.RevokeReason := "suspended" |>.
Definition owing_start : server := start <| sessions := {[ ("acme", "s-1")%string := owing ]} |>.

Lemma owing_start_ok : typed owing_start ∧ nul_free owing_start.
Proof.
  destruct start_ok as (_ & Ht & Hn).
  split; [split; [|apply Ht]|split; [|apply Hn]]; intros k r;
    change (sessions owing_start) with ({[ ("acme", "s-1")%string := owing ]} : gmap _ _);
    by intros [<- <-]%lookup_singleton_Some.
Qed.

Lemma owed_revoke_settles_witness :
  ∃ e, ToAgent "node-1" (MsgEnforce e) ∈ Store.effects (Proc.run (reauthSweep presence) owing_start).2 ∧
    (∀ t, live (deliver trusted t LeaseFixture.start e) !! "s-1" = None).
Proof.
  destruct (owed_revoke_settles presence trusted (ToyEd25519.key x11) owing_start ("acme", "s-1")%string owing
              LeaseFixture.start) as (e & H1 & H2 & _).
  - reflexivity.
  - apply owing_start_ok.
  - apply owing_start_ok.
  - apply fleet_key_trusted.
  - vm_compute. reflexivity.
  - vm_compute. reflexivity.
  - eexists. vm_compute. reflexivity.
  - intros ls Hl. assert (ls = held) as -> by (vm_compute in Hl; injection Hl as <-; vm_compute; reflexivity).
    split_and!; vm_compute; reflexivity.
  - split_and!; vm_compute; reflexivity.
  - exists e. split; [exact H1|]. intros t. apply H2.
Defined.

End Witnesses.
