(* ===== verification/Brokering.v ===== *)
(** * What the broker promises

    Theorems on [Broker.CreateSession] and [Broker.ReissueGrant], run alone: a session
    that is created passed every gate, under the path its caller's certificate pins,
    and its signed grant is one the agent's own gate (Grant.v) accepts; every decision
    is audited or not answered; an aborted session leaves no overlay address behind; a
    re-issued grant authorizes nothing the original did not. *)
From Stdlib Require Import ZArith Lia Strings.Byte Strings.Ascii.
From stdpp Require Import base gmap list strings pretty relations.
From S2P Require Import Prelude Wire Tunnel Envelope Trust Grant Policy Lease DenyCache Overlay Proc Codec.
From S2P Require Import Login Members Store Sessions Nodes Broker Control Sweep.
Local Open Scope Z_scope.

(** ** Reads *)

(** On a store without failures a read-only handler changes nothing. *)
Definition unchanged (s s' : server) : Prop := faults s = [] → s' = s.

Lemma run_unchanged {A : Type} (p : M A) (s : server) :
  acts unchanged p → faults s = [] → Proc.run p s = ((Proc.run p s).1, s).
Proof.
  intros Hp Hf. assert ((Proc.run p s).2 = s) as E.
  { apply (run_acts unchanged p s) in Hp. induction Hp as [|a b c Hab _ IH]; [done|].
    rewrite (Hab Hf) in IH. by apply IH. }
  rewrite <- E at 3. apply surjective_pairing.
Qed.

Lemma view_unchanged {A : Type} (fn : server → result store_err A) : acts unchanged (view fn).
Proof. apply acts_atomic. intros s Hf. by rewrite (next_fault_nil s Hf), tick_nil. Qed.

Lemma read_unchanged {X : Type} (f : server → X) : acts unchanged (read f).
Proof. apply acts_read. by intros s Hf. Qed.

#[export] Hint Resolve view_unchanged read_unchanged : steps.

Lemma FindNode_unchanged (ws ref : string) : acts unchanged (FindNode ws ref).
Proof. unfold FindNode, GetNode. handler_steps. Qed.
#[export] Hint Resolve FindNode_unchanged : steps.

(** A node of the workspace. *)
Definition node_of (s : server) (ws : string) (n : NR.NodeRecord) : Prop :=
  ∃ k, nodes s !! (ws, k) = Some n.

Lemma named_nodes_of (s : server) (ws name : string) (n : NR.NodeRecord) :
  n ∈ named_nodes s ws name → node_of s ws n.
Proof.
  unfold named_nodes. intros [_ Hn]%list_elem_of_filter.
  apply list_elem_of_fmap in Hn as ([[w k] n'] & -> & Hn). apply list_elem_of_filter in Hn as [Hw Hn].
  apply elem_of_map_to_list in Hn. simpl in Hw. subst w. by exists k.
Qed.

Lemma FindNode_ok (ws ref : string) (s : server) (n : NR.NodeRecord) :
  faults s = [] → (Proc.run (FindNode ws ref) s).1 = Ok n → node_of s ws n.
Proof.
  intros Hf. unfold FindNode, GetNode. rewrite run_bind, run_view by done. cbn [fst snd]. unfold get_node.
  destruct (nodes s !! (ws, ref)) as [n'|] eqn:E; simpl.
  - intros [= ->]. by exists ref.
  - rewrite (next_fault_nil s Hf). simpl. destruct (named_nodes s ws ref) as [|n1 []] eqn:En; try done.
    intros [= <-]. apply (named_nodes_of s ws ref). rewrite En. by left.
Qed.

Lemma find_target_ok (ws ref : string) (s : server) :
  faults s = [] → Proc.run (find_target ws ref) s = ((Proc.run (find_target ws ref) s).1, s) ∧
  ∀ n, (Proc.run (find_target ws ref) s).1 = Ok n → node_of s ws n.
Proof.
  intros Hf. split; [apply run_unchanged; [unfold find_target; handler_steps|done]|].
  intros n. unfold find_target. rewrite run_bind. cbn [Proc.run mret prog_ret fst].
  destruct (Proc.run (FindNode ws ref) s).1 as [n'|e] eqn:E; [|discriminate].
  intros [= <-]. by apply (FindNode_ok ws ref).
Qed.

(** ** The stages *)

Section Stages.
Context `{GrantKeys, Rendering} `{JSONEncode LeasePayload, JSONEncode SessionGrant, JSONEncode Signed}.
Context (validCIDR : string → bool) (cfg : broker_config).
Context (quote : string → string) (attach_text : attach_err → string).

Lemma resolve_target_ok (ws : string) (req : CreateSessionRequest) (s : server) :
  faults s = [] → Proc.run (resolve_target ws req) s = ((Proc.run (resolve_target ws req) s).1, s) ∧
  ∀ tg n, (Proc.run (resolve_target ws req) s).1 = Ok tg → tg_node tg = Some n → node_of s ws n.
Proof.
  intros Hf. destruct (find_target_ok ws (rq_Node req) s Hf) as [E Hn]. unfold resolve_target. split.
  - apply run_unchanged; [|done].
    unfold find_target, resolveService, Services, WorkspaceForNode, AdvertisedServices. handler_steps.
  - intros tg n. case_match; [|by intros [= <-]]. rewrite run_bind_ok, E. cbn [fst snd].
    destruct (Proc.run (find_target ws (rq_Node req)) s).1 as [n'|e]; [|done].
    rewrite run_bind. cbn [Proc.run mret prog_ret fst]. case_match; [|done]. intros [= <-] [= <-]. by apply Hn.
Qed.

Lemma request_shape_None (req : CreateSessionRequest) (tg : target) :
  request_shape req tg = None →
  knownAction (tg_action tg) = true ∧ length (rq_ClientNoisePub req) = 32%nat ∧
  (tg_action tg = ActionExec → rq_Command req ≠ "") ∧
  (tg_action tg = ActionForward → tg_forward tg ≠ "") ∧
  (tg_action tg = ActionVPN → tg_routes tg ≠ []).
Proof.
  unfold request_shape. destruct (knownAction (tg_action tg)); [|done]. cbn [negb].
  destruct (bool_decide (tg_action tg = ActionExec) && _) eqn:E1; [done|].
  destruct (if bool_decide (tg_action tg = ActionForward) then _ else _) eqn:E2; [done|].
  destruct (bool_decide (tg_action tg = ActionVPN) && _) eqn:E3; [done|].
  destruct (bool_decide (tg_action tg = ActionAttach) && _) eqn:E4; [done|].
  destruct (Nat.eqb_spec (length (rq_ClientNoisePub req)) 32); [|done]. intros _.
  split_and!; try done.
  - intros Ha. rewrite bool_decide_eq_true_2 in E1 by done. by apply bool_decide_eq_false in E1.
  - intros Ha Hft. rewrite bool_decide_eq_true_2, Hft in E2 by done. done.
  - intros Ha Hr. rewrite bool_decide_eq_true_2, Hr in E3 by done. done.
Qed.

(** A record an attach may continue. *)
Definition attachable (s : server) (ident : Identity) (req : CreateSessionRequest)
    (rec : SR.SessionRecord) : Prop :=
  sessions s !! (i_Workspace ident, rq_AttachSessionId req) = Some rec ∧ SR.User rec = i_Name ident ∧
  SR.HostSessionID rec ≠ "" ∧ live_state (SR.State rec) = true.

Lemma resolveAttach_unchanged (ws user : string) (req : CreateSessionRequest) :
  acts unchanged (resolveAttach ws user req).
Proof. unfold resolveAttach, GetSession, GetNode. handler_steps. Qed.

Lemma resolveAttach_ok (ident : Identity) (req : CreateSessionRequest) (s : server)
    (rec : SR.SessionRecord) (n : NR.NodeRecord) :
  faults s = [] →
  (Proc.run (resolveAttach (i_Workspace ident) (i_Name ident) req) s).1 = Ok (rec, n) →
  attachable s ident req rec ∧ nodes s !! (i_Workspace ident, SR.NodeID rec) = Some n.
Proof.
  intros Hf. unfold resolveAttach, GetSession, GetNode. rewrite run_bind, run_view by done. cbn [fst snd].
  destruct (sessions s !! _) as [r|] eqn:Er; cbn [of_option]; [|done].
  case_bool_decide as Hu; [|done]. cbn [negb]. case_bool_decide as Hh; [done|].
  destruct (live_state (SR.State r)) eqn:El; [|done]. cbn [negb].
  rewrite run_bind, run_view by done. cbn [fst snd]. unfold get_node.
  destruct (nodes s !! _) as [n'|] eqn:En; cbn [of_option]; [|done].
  case_bool_decide as Hq.
  - intros [= <- <-]. done.
  - rewrite run_bind. cbn [Proc.run mret prog_ret fst].
    destruct (Proc.run (FindNode _ _) s).1 as [x|]; [|done]. case_bool_decide; [|done]. by intros [= <- <-].
Qed.

Lemma resolve_node_ok (ident : Identity) (req : CreateSessionRequest) (tg : target) (s s1 : server)
    (att : option SR.SessionRecord) (n : NR.NodeRecord) :
  faults s = [] → (∀ n, tg_node tg = Some n → node_of s (i_Workspace ident) n) →
  Proc.run (resolve_node attach_text ident req tg) s = (Ok (att, n), s1) →
  s1 = s ∧ node_of s (i_Workspace ident) n ∧
  (tg_action tg = ActionAttach → ∃ rec, att = Some rec ∧ attachable s ident req rec) ∧
  (tg_action tg ≠ ActionAttach → att = None).
Proof.
  intros Hf Htg. unfold resolve_node. case_bool_decide as Ha.
  - rewrite run_bind, (run_unchanged _ s (resolveAttach_unchanged _ _ _) Hf). cbn [fst snd].
    destruct (Proc.run (resolveAttach _ _ req) s).1 as [[rec node]|e] eqn:E.
    + intros [= <- <- <-]. apply resolveAttach_ok in E as [E1 E2]; [|done]. split; [done|].
      split; [by eexists|]. split; [by eauto|done].
    + rewrite run_bind. by intros [=].
  - destruct (tg_node tg) as [node|].
    + intros [= <- <- <-]. split; [done|]. split; [by apply Htg|done].
    + destruct (find_target_ok (i_Workspace ident) (rq_Node req) s Hf) as [E Hn].
      rewrite run_bind_ok, E. cbn [fst snd].
      destruct (Proc.run (find_target _ _) s).1 as [node|e]; [|done].
      intros [= <- <- <-]. split; [done|]. split; [by apply Hn|done].
Qed.

Lemma gates_ok (ident : Identity) (req : CreateSessionRequest) (n : NR.NodeRecord) (s s1 : server) :
  faults s = [] → Proc.run (gates cfg ident req n) s = (Ok None, s1) →
  s1 = s ∧ NR.Approved n = true ∧
  IsSuspendedE (denies s) (i_Workspace ident) (Provider ident) (Subject ident) = false ∧
  is_Some (agents s !! NR.ID n).
Proof.
  intros Hf. unfold gates. destruct (NR.Approved n); cbn [negb]; [|rewrite run_bind; by intros [=]].
  rewrite run_bind, run_IsSuspended by done. cbn [fst snd].
  destruct (IsSuspendedE _ _ _ _); [rewrite run_bind; by intros [=]|].
  unfold Online. rewrite run_read. case_bool_decide as Ho; [by intros [= <-]|].
  rewrite run_bind. cbn [Proc.run mret prog_ret]. by case_match.
Qed.

Lemma decide_policy_ok (ident : Identity) (req : CreateSessionRequest) (path : string)
    (n : NR.NodeRecord) (tg : target) (t : Z) (s s1 : server) (d : Decision) (reason : string) :
  Proc.run (decide_policy quote ident req path n tg t) s = (Ok (d, reason), s1) →
  s1 = s ∧ ∃ doc, policyEngines s !! i_Workspace ident = Some doc ∧
    d = Evaluate doc (local_time (now_ns s)) (broker_input ident n tg path (local_time t)) ∧
    Policy.Allow d = true ∧ (WantDetachable req = true → Policy.AllowDetach d = true) ∧
    (path = PathWeb → Policy.RequirePresence d = false).
Proof.
  unfold decide_policy. rewrite run_read. unfold now. rewrite run_read. unfold engine_evaluate. cbv zeta.
  destruct (policyEngines s !! i_Workspace ident) as [doc|];
    [|cbn [no_decision Policy.Allow negb]; rewrite run_bind; by intros [=]].
  set (dd := Evaluate _ _ _).
  destruct (Policy.Allow dd) eqn:Ea; cbn [negb]; [|rewrite run_bind; by intros [=]].
  destruct (WantDetachable req && negb (Policy.AllowDetach dd)) eqn:Ed; [rewrite run_bind; by intros [=]|].
  destruct (bool_decide (path = PathWeb) && Policy.RequirePresence dd) eqn:Ep; [rewrite run_bind; by intros [=]|].
  intros [= <- <- <-]. split; [done|]. exists doc. split_and!; try done.
  - intros Hw. rewrite Hw in Ed. by destruct (Policy.AllowDetach dd).
  - intros ->. by rewrite bool_decide_eq_true_2 in Ep.
Qed.

Lemma offer_session_ok (env : broker_env) (ident : Identity) (req : CreateSessionRequest)
    (n : NR.NodeRecord) (tg : target) (d : Decision) (reason : string) (grant : SessionGrant)
    (rec : SR.SessionRecord) (s s1 : server) (c : bool) (b : bytes) (addr : string) (floor : list string)
    (tok : string) (npub : bytes) (sid : string) (cands : list RelayCandidate) (pr : option (Z * bytes)) :
  Proc.run (offer_session cfg env ident req n tg d reason grant rec) s
    = ((c, Ok (Created b addr floor tok npub sid cands pr)), s1) →
  c = true ∧ b = SR.GrantScope rec ∧ sid = Grant.ID grant.
Proof.
  unfold offer_session. rewrite run_bind.
  match goal with |- context [Proc.run (if ?c then ?a else ?b) s] => destruct (Proc.run (if c then a else b) s) as [[] s2] end.
  cbn [fst snd]. rewrite run_bind. destruct (Proc.run (SendOffer _ _ _ _) s2) as [[acc why] s3].
  cbn [fst snd]. destruct acc; cbn [negb].
  - rewrite run_bind. destruct (Proc.run (AppendWS _ _ _ _ _ _) s3) as [[e|] s4]; cbn [fst snd]; [by intros [=]|].
    rewrite run_bind. cbn [Proc.run mret prog_ret]. by intros [= <- <- _ _ _ _ <-].
  - do 4 (rewrite run_bind; cbv beta). cbn [Proc.run mret prog_ret fst snd]. by intros [=].
Qed.

Lemma grant_session_ok (env : broker_env) (ident : Identity) (req : CreateSessionRequest) (path : string)
    (n : NR.NodeRecord) (tg : target) (att : option SR.SessionRecord) (d : Decision) (reason : string)
    (t : Z) (id token ip : string) (s s1 : server) (c : bool) (b : bytes) (addr : string)
    (floor : list string) (tok : string) (npub : bytes) (sid : string) (cands : list RelayCandidate)
    (pr : option (Z * bytes)) :
  Proc.run (grant_session cfg env ident req path n tg att d reason t id token ip) s
    = ((c, Ok (Created b addr floor tok npub sid cands pr)), s1) →
  c = true ∧ sid = id ∧
  ∃ a rest cs, sign_grant (new_session_grant cfg ident req path n tg att d t id token ip a (a :: rest) cs) = Some b.
Proof.
  unfold grant_session. destruct (floorAddrs cfg (liveFloor env)) as [|a rest]; [by intros [=]|].
  set (cs := if p2pHook cfg && _ then _ else _).
  destruct (sign_grant _) as [sb|] eqn:Es; [|by intros [=]]. rewrite run_bind.
  destruct (Proc.run (PutSession _ _) s) as [[u|e] s2]; cbn [fst snd]; [|by intros [=]].
  intros (-> & -> & ->)%offer_session_ok. split; [done|]. split; [done|]. by exists a, rest, cs.
Qed.

(** ** A created session *)

(** Every gate, in the state the request found. *)
Definition authorized (s : server) (ident : Identity) (req : CreateSessionRequest) (path : string)
    (n : NR.NodeRecord) (tg : target) (d : Decision) : Prop :=
  node_of s (i_Workspace ident) n ∧ NR.Approved n = true ∧
  IsSuspendedE (denies s) (i_Workspace ident) (Provider ident) (Subject ident) = false ∧
  is_Some (agents s !! NR.ID n) ∧
  (∃ doc, policyEngines s !! i_Workspace ident = Some doc ∧
     d = Evaluate doc (local_time (now_ns s)) (broker_input ident n tg path (local_time (now_ns s)))) ∧
  Policy.Allow d = true ∧ (WantDetachable req = true → Policy.AllowDetach d = true) ∧
  (path = PathWeb → Policy.RequirePresence d = false).

Lemma createSession_ok (env : broker_env) (ident : Identity) (req : CreateSessionRequest) (path : string)
    (s s1 : server) (b : bytes) (addr : string) (floor : list string) (tok : string) (npub : bytes)
    (sid : string) (cands : list RelayCandidate) (pr : option (Z * bytes)) :
  faults s = [] →
  Proc.run (createSession validCIDR cfg quote attach_text env ident req path) s
    = (Ok (Created b addr floor tok npub sid cands pr), s1) →
  ∃ n tg att d token ip a rest cs,
    authorized s ident req path n tg d ∧ request_shape req tg = None ∧
    (tg_action tg = ActionAttach → ∃ rec, att = Some rec ∧ attachable s ident req rec) ∧
    (tg_action tg ≠ ActionAttach → att = None) ∧ new_sessionID env = Some sid ∧
    sign_grant (new_session_grant cfg ident req path n tg att d (now_ns s) sid token ip a (a :: rest) cs) = Some b.
Proof.
  intros Hf. unfold createSession, now. rewrite run_read, run_bind_ok.
  destruct (resolve_target_ok (i_Workspace ident) req s Hf) as [E Htg]. rewrite E. cbn [fst snd].
  destruct (Proc.run (resolve_target (i_Workspace ident) req) s).1 as [tg|e]; [|by intros [=]].
  destruct (request_shape req tg) eqn:Hsh; [by intros [=]|]. rewrite run_bind_ok.
  destruct (Proc.run (resolve_node attach_text ident req tg) s) as [[[att n]|e] s2] eqn:E2; [|by intros [=]].
  apply resolve_node_ok in E2 as (-> & Hn & Ha1 & Ha2); [|done|eauto]. cbn [fst snd].
  rewrite run_bind_ok. destruct (Proc.run (gates cfg ident req n) s) as [[[[o l]|]|e] s3] eqn:E3; [by intros [=]| |by intros [=]].
  apply gates_ok in E3 as (-> & Hap & Hsu & Hon); [|done]. cbn [fst snd]. rewrite run_bind_ok.
  destruct (Proc.run (decide_policy quote ident req path n tg (now_ns s)) s) as [[[d reason]|e] s4] eqn:E4; [|by intros [=]].
  apply decide_policy_ok in E4 as (-> & doc & Hdoc & Hd & Hal & Hdet & Hweb). cbn [fst snd].
  destruct (new_sessionID env) as [id|]; [|by intros [=]]. destruct (new_token env) as [token|]; [|by intros [=]].
  rewrite run_bind_ok. destruct (Proc.run (overlay_alloc validCIDR (i_Workspace ident) tg) s) as [[ip|e] s5]; [|by intros [=]].
  cbn [fst snd]. rewrite run_bind.
  destruct (Proc.run (grant_session _ _ _ _ _ _ _ _ _ _ _ _ _ _) s5) as [[c r] s6] eqn:E6.
  rewrite run_bind. cbn [Proc.run mret prog_ret fst snd]. intros [= -> _].
  apply grant_session_ok in E6 as (_ & -> & a & rest & cs & Hs).
  exists n, tg, att, d, token, ip, a, rest, cs. split; [|done].
  split_and!; try done. by exists doc.
Qed.

End Stages.

Section Promises.
Context `{Ed25519, GrantKeys, Rendering} `{JSONEncode LeasePayload, JSONEncode SessionGrant, JSONEncode Signed}.
Context `{JSONDecode SessionGrant, JSONDecode Signed, !JSONLaw SessionGrant, !JSONLaw Signed}.
Context (validCIDR : string → bool) (cfg : broker_config).
Context (quote : string → string) (attach_text : attach_err → string).

Lemma sign_grant_verifies (trusted : keyset) (pub : bytes) (g : SessionGrant) (b : bytes) :
  key_trusted trusted pub → text_ok g = true → sign_grant g = Some b →
  ∃ env, Unmarshal b = Some env ∧ KeyID env = grantKeyID ∧
    Verify trusted contextGrant (Some env) Unmarshal = Ok (KeyID env, g).
Proof.
  intros ([Hk Hid] & Hl & Hs) Hg. unfold sign_grant, Sign. destruct (Marshal g) as [p|] eqn:Ep; [|done].
  destruct (Hs (signingInput contextGrant p)) as (sig & -> & Hsl & Hv). rewrite Hsl, Nat.eqb_refl. cbn [negb].
  intros Hb. exists (mkSigned p sig grantKeyID). split; [by apply unmarshal_marshal|]. split; [done|].
  apply Verify_Ok. exists (mkSigned p sig grantKeyID), pub. split_and!; try done. by apply unmarshal_marshal.
Qed.

Lemma new_grant_shaped (s : server) (ident : Identity) (req : CreateSessionRequest) (path : string)
    (n : NR.NodeRecord) (tg : target) (att : option SR.SessionRecord) (d : Decision) (t : Z)
    (id token ip a : string) (fl : list string) (cs : list RelayCandidate) :
  request_shape req tg = None →
  (tg_action tg = ActionAttach → ∃ rec, att = Some rec ∧ attachable s ident req rec) →
  length (rq_ClientNoisePub req) = 32%nat ∧
  well_shaped (new_session_grant cfg ident req path n tg att d t id token ip a fl cs).
Proof.
  intros (Hk & Hl & He & Hf & Hv)%request_shape_None Ha. split; [done|].
  split_and!; try done. intros (rec & -> & _ & _ & Hh & _)%Ha. exact Hh.
Qed.

(** The path a certificate pins. *)
Definition pinned (ident : Identity) : string :=
  if bool_decide (i_ClientPath ident = PathWeb) then PathWeb else PathNative.


(** ** Audited decisions *)

(** The refusals that are decisions, as opposed to malformed or unanswerable requests. *)
Definition decision (e : broker_err) : bool :=
  match e with
  | AttachDenied | NodePending | Suspended | PolicyDenied _ | DetachNotPermitted | PresenceNeedsNative
  | OfferRejected _ => true
  | _ => false
  end.

Definition deny_logged (user : string) (s : server) : Prop :=
  ∃ node detail, mkAudit "" "session_request" user node "" detail ∈ audits s ∧
    detail !! "decision"%string = Some "deny"%string.

Definition allow_logged (ws user sid : string) (s : server) : Prop :=
  ∃ node detail, mkAudit ws "session_request" user node sid detail ∈ audits s ∧
    detail !! "decision"%string = Some "allow"%string.

(** A program whose refusals that are decisions were logged. *)
Definition logs {A : Type} (user : string) (p : M (result broker_err A)) : Prop :=
  ∀ s e, (Proc.run p s).1 = Err e → decision e = true → deny_logged user (Proc.run p s).2.

Lemma logs_bind_ok {A B : Type} (user : string) (p : M (result broker_err A))
    (f : A → M (result broker_err B)) :
  logs user p → (∀ a, logs user (f a)) → logs user (bind_ok p f).
Proof.
  intros Hp Hf s e. rewrite run_bind_ok. specialize (Hp s).
  destruct (Proc.run p s) as [[a|e'] s1]; cbn [fst snd] in *; [apply Hf|]. intros [= <-]. by apply Hp.
Qed.

Lemma logs_bind {A B : Type} (user : string) (p : M A) (f : A → M (result broker_err B)) :
  (∀ a, logs user (f a)) → logs user (p ≫= f).
Proof. intros Hf s e. rewrite run_bind. apply Hf. Qed.

Lemma logs_ret {A : Type} (user : string) (r : result broker_err A) :
  (∀ e, r = Err e → decision e = false) → logs user (mret r).
Proof. intros Hr s e He Hd. cbn in He. rewrite (Hr e He) in Hd. done. Qed.

Lemma AppendWS_logged (ws typ actor node session : string) (detail : gmap string string) (s s1 : server) :
  Proc.run (AppendWS ws typ actor node session detail) s = (None, s1) →
  mkAudit ws typ actor node session detail ∈ audits s1.
Proof.
  unfold AppendWS. cbn [Proc.run atomic]. destruct (next_fault s); try done.
  intros [= <-]. apply elem_of_app. right. by left.
Qed.

Lemma deny_logs (user : string) (req : CreateSessionRequest) (node reason : string) (e e' : broker_err)
    (s s1 : server) :
  Proc.run (deny user req node reason e) s = (e', s1) → decision e' = true → deny_logged user s1.
Proof.
  unfold deny, Append. rewrite run_bind. destruct (Proc.run (AppendWS _ _ _ _ _ _) s) as [[x|] s2] eqn:E.
  - by intros [= <- <-].
  - intros [= <- <-] _. exists node. eexists. split; [exact (AppendWS_logged _ _ _ _ _ _ _ _ E)|].
    by rewrite lookup_insert_eq.
Qed.

Lemma logs_deny {A : Type} (user : string) (req : CreateSessionRequest) (node reason : string) (e : broker_err) :
  logs user (e' ← deny user req node reason e; mret (Err e') : M (result broker_err A)).
Proof.
  intros s e'. rewrite run_bind. destruct (Proc.run (deny _ _ _ _ _) s) as [x s1] eqn:E.
  cbn. intros [= <-]. by eapply deny_logs.
Qed.

Lemma find_target_logs (user ws ref : string) : logs user (find_target ws ref).
Proof.
  apply logs_bind. intros [n|e]; apply logs_ret; [done|]. intros e' [= <-]. by case_match.
Qed.

Lemma resolve_target_logs (user ws : string) (req : CreateSessionRequest) : logs user (resolve_target ws req).
Proof.
  unfold resolve_target. case_match; [|by apply logs_ret]. apply logs_bind_ok; [apply find_target_logs|].
  intros n. apply logs_bind. intros [svc|]; by apply logs_ret; intros e [= <-].
Qed.

Lemma resolve_node_logs (ident : Identity) (req : CreateSessionRequest) (tg : target) :
  logs (i_Name ident) (resolve_node attach_text ident req tg).
Proof.
  unfold resolve_node. case_match.
  - apply logs_bind. intros [[rec n]|e]; [by apply logs_ret|apply logs_deny].
  - case_match; [by apply logs_ret|]. apply logs_bind_ok; [apply find_target_logs|]. intros n. by apply logs_ret.
Qed.

Lemma gates_logs (ident : Identity) (req : CreateSessionRequest) (n : NR.NodeRecord) :
  logs (i_Name ident) (gates cfg ident req n).
Proof.
  unfold gates. case_match; [apply logs_deny|]. apply logs_bind. intros [|]; [apply logs_deny|].
  apply logs_bind. intros [|]; [by apply logs_ret|]. apply logs_bind.
  intros [r|]; by apply logs_ret; intros e [= <-].
Qed.

Lemma decide_policy_logs (ident : Identity) (req : CreateSessionRequest) (path : string)
    (n : NR.NodeRecord) (tg : target) (t : Z) :
  logs (i_Name ident) (decide_policy quote ident req path n tg t).
Proof.
  unfold decide_policy. apply logs_bind. intros engine. apply logs_bind. intros clock. cbv zeta.
  destruct (engine_evaluate _ _ _) as [d reason].
  repeat case_match; first [apply logs_deny | by apply logs_ret].
Qed.

(** The audit log only grows. *)
Definition grows (s s' : server) : Prop := audits s `prefix_of` audits s'.

#[local] Instance grows_refl : Reflexive grows.
Proof. intros s. unfold grows. done. Qed.

Lemma run_grows {A : Type} (p : M A) (s : server) : acts grows p → grows s (Proc.run p s).2.
Proof.
  intros Hp%(run_acts grows p s). unfold grows in *. induction Hp; [done|]. by etransitivity.
Qed.

Lemma refreshLease_grows (rec : SR.SessionRecord) : acts grows (refreshLease rec).
Proof.
  unfold refreshLease, nextEpoch, leaseExpiryMs. acts_split; try apply acts_read, _; apply acts_atomic; intros s.
  - unfold grows. repeat case_match; simplify_eq/=; done.
  - unfold grows. case_match; [|done]. by destruct (next_fault s).
  - unfold grows. by case_match.
  - unfold grows, sig_get, drop_entry, close_entry. repeat case_match; simplify_eq/=; done.
Qed.

(** The end of [createSession]: refusals are logged, and so is the answer. *)
Lemma offer_session_logs (env : broker_env) (ident : Identity) (req : CreateSessionRequest)
    (n : NR.NodeRecord) (tg : target) (d : Decision) (reason : string) (grant : SessionGrant)
    (rec : SR.SessionRecord) (s s1 : server) (c : bool) (r : result broker_err session_response) :
  Proc.run (offer_session cfg env ident req n tg d reason grant rec) s = ((c, r), s1) →
  match r with
  | Err e => decision e = true → deny_logged (i_Name ident) s1
  | Ok _ => allow_logged (i_Workspace ident) (i_Name ident) (Grant.ID grant) s1
  end.
Proof.
  unfold offer_session. rewrite run_bind.
  match goal with |- context [Proc.run (if ?c then ?a else ?b) s] => destruct (Proc.run (if c then a else b) s) as [[] s2] end.
  cbn [fst snd]. rewrite run_bind. destruct (Proc.run (SendOffer _ _ _ _) s2) as [[acc why] s3].
  cbn [fst snd]. destruct acc; cbn [negb].
  - rewrite run_bind. destruct (Proc.run (AppendWS _ _ _ _ _ _) s3) as [[e|] s4] eqn:Ea; cbn [fst snd].
    { by intros [= <- <- <-]. }
    rewrite run_bind. cbn [Proc.run mret prog_ret]. intros [= <- <- <-]. apply AppendWS_logged in Ea.
    match goal with |- allow_logged _ _ _ (Proc.run ?p _).2 => assert (acts grows p) as Hg end.
    { case_match; [apply refreshLease_grows|done]. }
    apply (run_grows _ s4) in Hg as [tl Hg]. exists (NR.ID n). eexists. rewrite Hg.
    split; [apply elem_of_app; left; exact Ea|]. by rewrite lookup_insert_eq.
  - do 3 (rewrite run_bind; cbv beta).
    rewrite run_bind. destruct (Proc.run (deny _ _ _ _ _) _) as [e s4] eqn:Ed.
    intros [= <- <- <-]. by eapply deny_logs.
Qed.

Lemma grant_session_logs (env : broker_env) (ident : Identity) (req : CreateSessionRequest) (path : string)
    (n : NR.NodeRecord) (tg : target) (att : option SR.SessionRecord) (d : Decision) (reason : string)
    (t : Z) (id token ip : string) (s s1 : server) (c : bool) (r : result broker_err session_response) :
  Proc.run (grant_session cfg env ident req path n tg att d reason t id token ip) s = ((c, r), s1) →
  match r with
  | Err e => decision e = true → deny_logged (i_Name ident) s1
  | Ok _ => allow_logged (i_Workspace ident) (i_Name ident) id s1
  end.
Proof.
  unfold grant_session. destruct (floorAddrs cfg (liveFloor env)) as [|a rest]; [by intros [= <- <- <-]|].
  destruct (sign_grant _) as [sb|] eqn:Es; [|by intros [= <- <- <-]]. rewrite run_bind.
  destruct (Proc.run (PutSession _ _) s) as [[u|e] s2]; cbn [fst snd]; [|by intros [= <- <- <-]].
  apply offer_session_logs.
Qed.

Lemma overlay_alloc_logs (user ws : string) (tg : target) : logs user (overlay_alloc validCIDR ws tg).
Proof.
  unfold overlay_alloc. case_match; [|by apply logs_ret].
  case_match; [by apply logs_ret; intros e [= <-]|]. intros s e. cbn.
  destruct (alloc (overlay_of s ws)) as [[ip|] a]; cbn; by intros [= <-].
Qed.

(** The answer has its event in the log. *)
Definition on_record (ident : Identity) (r : result broker_err session_response) (s : server) : Prop :=
  match r with
  | Ok (Created _ _ _ _ _ sid _ _) => allow_logged (i_Workspace ident) (i_Name ident) sid s
  | Ok (Redirect _ _) => True
  | Err e => decision e = true → deny_logged (i_Name ident) s
  end.

Definition answers (ident : Identity) (p : M (result broker_err session_response)) : Prop :=
  ∀ s, on_record ident (Proc.run p s).1 (Proc.run p s).2.

Lemma answers_bind_ok {A : Type} (ident : Identity) (p : M (result broker_err A))
    (f : A → M (result broker_err session_response)) :
  logs (i_Name ident) p → (∀ a, answers ident (f a)) → answers ident (bind_ok p f).
Proof.
  intros Hp Hf s. rewrite run_bind_ok. specialize (Hp s).
  destruct (Proc.run p s) as [[a|e] s1]; cbn [fst snd] in *; [apply Hf|].
  exact (Hp e eq_refl).
Qed.

Lemma request_shape_decision (req : CreateSessionRequest) (tg : target) (e : broker_err) :
  request_shape req tg = Some e → decision e = false.
Proof. unfold request_shape. repeat case_match; intros; simplify_eq/=; done. Qed.

Lemma grant_and_release_answers (env : broker_env) (ident : Identity) (req : CreateSessionRequest)
    (path : string) (n : NR.NodeRecord) (tg : target) (att : option SR.SessionRecord) (d : Decision)
    (reason : string) (t : Z) (id token ip : string) :
  answers ident (r ← grant_session cfg env ident req path n tg att d reason t id token ip;
                 _ ← (if negb r.1 && bool_decide (ip ≠ "")
                      then write (overlay_release (i_Workspace ident) ip) else mret tt);
                 mret r.2).
Proof.
  intros s. rewrite run_bind.
  destruct (Proc.run (grant_session _ _ _ _ _ _ _ _ _ _ _ _ _ _) s) as [[c r] s1] eqn:E.
  rewrite run_bind. cbn [Proc.run mret prog_ret fst snd].
  match goal with |- context [Proc.run (if ?b then ?x else ?y) s1] =>
    assert (audits (Proc.run (if b then x else y) s1).2 = audits s1) as Eau by (by destruct b) end.
  pose proof (grant_session_logs _ _ _ _ _ _ _ _ _ _ _ _ _ _ _ _ _ E) as Hl.
  unfold on_record, allow_logged, deny_logged in *. rewrite Eau.
  destruct r as [[o l|b a f tk np sid cs pr]|e]; [done| |done].
  by apply grant_session_ok in E as (_ & -> & _).
Qed.

(** [broker.go, createSession and deny] No audit record, no answer.  Whatever
    fails in the store or in the audit log, a caller who is told that the session was
    created finds an allow event for it in the log, and a caller who is refused by a
    gate, by the policy or by the agent finds a deny event. *)
Theorem decisions_audited (env : broker_env) (ident : Identity) (req : CreateSessionRequest) (s : server) :
  let p := Proc.run (CreateSession validCIDR cfg quote attach_text env ident req) s in
  match p.1 with
  | Ok (Created _ _ _ _ _ sid _ _) => allow_logged (i_Workspace ident) (i_Name ident) sid p.2
  | Ok (Redirect _ _) => True
  | Err e => decision e = true → deny_logged (i_Name ident) p.2
  end.
Proof.
  revert s. change (answers ident (CreateSession validCIDR cfg quote attach_text env ident req)).
  intros s. unfold CreateSession, createSession, now. rewrite run_read. revert s.
  match goal with |- ∀ s, _ => intros s; generalize (now_ns s); intros t; revert s end.
  apply answers_bind_ok; [apply resolve_target_logs|]. intros tg.
  destruct (request_shape req tg) as [e|] eqn:Esh.
  { intros s. cbn. by rewrite (request_shape_decision _ _ _ Esh). }
  apply answers_bind_ok; [apply resolve_node_logs|]. intros [att n].
  apply answers_bind_ok; [apply gates_logs|]. intros [[o l]|]; [by intros s|].
  apply answers_bind_ok; [apply decide_policy_logs|]. intros [d reason].
  destruct (new_sessionID env) as [id|]; [|by intros s]. destruct (new_token env) as [token|]; [|by intros s].
  apply answers_bind_ok; [apply overlay_alloc_logs|]. intros ip. apply grant_and_release_answers.
Qed.

(** ** The overlay address of an aborted session *)

Definition same_overlays (s s' : server) : Prop := overlays s' = overlays s.

#[local] Instance same_overlays_refl : Reflexive same_overlays.
Proof. done. Qed.

Lemma run_same_overlays {A : Type} (p : M A) (s : server) :
  acts same_overlays p → overlays (Proc.run p s).2 = overlays s.
Proof.
  intros Hp%(run_acts same_overlays p s). unfold same_overlays in *. induction Hp; [done|congruence].
Qed.

Lemma atomic_same_overlays {X : Type} (act : server → X * server) :
  (∀ s, overlays (act s).2 = overlays s) → acts same_overlays (atomic act).
Proof. exact (acts_atomic same_overlays act). Qed.

Lemma view_same_overlays {A : Type} (fn : server → result store_err A) : acts same_overlays (view fn).
Proof. apply atomic_same_overlays. intros s. by destruct (next_fault s). Qed.

Lemma read_same_overlays {X : Type} (f : server → X) : acts same_overlays (read f).
Proof. apply acts_read, _. Qed.

Lemma AppendWS_same_overlays (ws typ actor node session : string) (detail : gmap string string) :
  acts same_overlays (AppendWS ws typ actor node session detail).
Proof. apply atomic_same_overlays. intros s. by destruct (next_fault s). Qed.

Lemma send_same_overlays (nodeID : string) (m : agent_msg) : acts same_overlays (send nodeID m).
Proof. apply atomic_same_overlays. intros s. case_match; [|done]. by destruct (next_fault s). Qed.

Lemma UpdateSession_same_overlays {X : Type} (ws id : string) (fn : SR.SessionRecord → X * SR.SessionRecord) :
  acts same_overlays (UpdateSession ws id fn (λ _ s, s)).
Proof. apply atomic_same_overlays. intros s. repeat case_match; simplify_eq/=; done. Qed.

Lemma drop_entry_overlays (id : string) (s : server) : overlays (drop_entry id s) = overlays s.
Proof. unfold drop_entry, close_entry. by repeat case_match. Qed.

#[local] Hint Resolve view_same_overlays read_same_overlays AppendWS_same_overlays send_same_overlays
  UpdateSession_same_overlays : steps.

Lemma unregister_same_overlays (id : string) : acts same_overlays (unregister id).
Proof. apply atomic_same_overlays. intros s. apply drop_entry_overlays. Qed.
#[local] Hint Resolve unregister_same_overlays : steps.

Lemma refreshLease_same_overlays (rec : SR.SessionRecord) : acts same_overlays (refreshLease rec).
Proof.
  unfold refreshLease, nextEpoch, leaseExpiryMs, now, touch, deliverControl, sig_get. handler_steps;
    apply atomic_same_overlays; intros s; [by case_match|].
  repeat case_match; simplify_eq/=; try done. apply drop_entry_overlays.
Qed.
#[local] Hint Resolve refreshLease_same_overlays : steps.

Lemma deny_same_overlays (user : string) (req : CreateSessionRequest) (node reason : string) (e : broker_err) :
  acts same_overlays (deny user req node reason e).
Proof. unfold deny, Append. handler_steps. Qed.
#[local] Hint Resolve deny_same_overlays : steps.

Lemma stages_same_overlays (ident : Identity) (req : CreateSessionRequest) (path : string)
    (n : NR.NodeRecord) (tg : target) (t : Z) :
  acts same_overlays (resolve_target (i_Workspace ident) req) ∧
  acts same_overlays (resolve_node attach_text ident req tg) ∧
  acts same_overlays (gates cfg ident req n) ∧
  acts same_overlays (decide_policy quote ident req path n tg t).
Proof.
  split_and!.
  - unfold resolve_target, find_target, FindNode, GetNode, resolveService, Services, WorkspaceForNode,
      AdvertisedServices. handler_steps.
  - unfold resolve_node, resolveAttach, find_target, FindNode, GetSession, GetNode. handler_steps.
  - unfold gates, IsSuspended, Online, redirectFor, AgentAffinity. handler_steps.
  - unfold decide_policy, now. handler_steps.
Qed.

Lemma grant_session_same_overlays (env : broker_env) (ident : Identity) (req : CreateSessionRequest)
    (path : string) (n : NR.NodeRecord) (tg : target) (att : option SR.SessionRecord) (d : Decision)
    (reason : string) (t : Z) (id token ip : string) :
  acts same_overlays (grant_session cfg env ident req path n tg att d reason t id token ip).
Proof.
  unfold grant_session, offer_session, SendOffer, Online, now, PutSession, register. handler_steps;
    apply atomic_same_overlays; intros u; [|done]. by destruct (next_fault u).
Qed.

(** Only a failed audit of an accepted session is an error that keeps the address. *)
Lemma committed_error (env : broker_env) (ident : Identity) (req : CreateSessionRequest)
    (path : string) (n : NR.NodeRecord) (tg : target) (att : option SR.SessionRecord) (d : Decision)
    (reason : string) (t : Z) (id token ip : string) (s s1 : server) (e : broker_err) :
  Proc.run (grant_session cfg env ident req path n tg att d reason t id token ip) s = ((true, Err e), s1) →
  e = AuditFailed.
Proof.
  unfold grant_session, offer_session. destruct (floorAddrs cfg (liveFloor env)) as [|a rest]; [by intros [=]|].
  destruct (sign_grant _) as [sb|]; [|by intros [=]]. rewrite run_bind.
  destruct (Proc.run (PutSession _ _) s) as [[u|e'] s2]; cbn [fst snd]; [|by intros [=]]. rewrite run_bind.
  match goal with |- context [Proc.run (if ?c then ?x else ?y) s2] => destruct (Proc.run (if c then x else y) s2) as [[] s3] end.
  cbn [fst snd]. rewrite run_bind. destruct (Proc.run (SendOffer _ _ _ _) s3) as [[acc why] s4].
  cbn [fst snd]. destruct acc; cbn [negb].
  - rewrite run_bind. destruct (Proc.run (AppendWS _ _ _ _ _ _) s4) as [[x|] s5]; cbn [fst snd]; [by intros [= <-]|].
    rewrite run_bind. by intros [=].
  - do 4 (rewrite run_bind; cbv beta). by intros [=].
Qed.

(** The pool of a workspace, as the set of addresses in use. *)
Definition pool (s : server) (ws : string) : gset string := used (overlay_of s ws).

Lemma overlay_alloc_pool (ws : string) (tg : target) (s s1 : server) (r : result broker_err string) :
  Proc.run (overlay_alloc validCIDR ws tg) s = (r, s1) →
  match r with
  | Err _ => ∀ w, pool s1 w = pool s w
  | Ok ip => (ip = "" ∧ ∀ w, pool s1 w = pool s w) ∨
             (ip ≠ "" ∧ (ip ∉ pool s ws) ∧ pool s1 ws = {[ip]} ∪ pool s ws ∧ ∀ w, w ≠ ws → pool s1 w = pool s w)
  end.
Proof.
  unfold overlay_alloc. case_match; [|intros [= <- <-]; by left].
  case_match; [by intros [= <- <-]|]. cbn. pose proof (alloc_marks (overlay_of s ws)) as Ha.
  destruct (alloc (overlay_of s ws)) as [[ip|] a]; intros [= <- <-].
  - right. destruct Ha as (H1' & H2' & H3'). unfold pool, overlay_of. cbn. rewrite lookup_insert_eq.
    split_and!; [done|done|done|]. intros w Hw. by rewrite lookup_insert_ne.
  - intros w. unfold pool, overlay_of. cbn. destruct (decide (w = ws)) as [->|Hw].
    + by rewrite lookup_insert_eq.
    + by rewrite lookup_insert_ne.
Qed.

Lemma release_pool (ws ip : string) (s : server) (w : string) :
  ip ≠ "" → pool (overlay_release ws ip s) w = if decide (w = ws) then pool s ws ∖ {[ip]} else pool s w.
Proof.
  intros Hip. unfold pool, overlay_release, overlay_of at 1. cbn. case_decide as Hw.
  - subst. rewrite lookup_insert_eq. cbn. unfold release. by rewrite bool_decide_eq_false_2.
  - by rewrite lookup_insert_ne.
Qed.

(** No address is lost to a request that fails. *)
Definition no_leak (r : result broker_err session_response) (s s1 : server) : Prop :=
  match r with
  | Ok _ => ∀ w, pool s w ⊆ pool s1 w
  | Err e => e ≠ AuditFailed → ∀ w, pool s1 w = pool s w
  end.

Lemma no_leak_or (r : result broker_err session_response) (s s1 : server) :
  no_leak r s s1 →
  match r with
  | Ok _ => ∀ w, pool s w ⊆ pool s1 w
  | Err e => e = AuditFailed ∨ ∀ w, pool s1 w = pool s w
  end.
Proof. destruct r as [x|[]]; cbn; auto. Qed.

Lemma no_leak_same (r : result broker_err session_response) (s s1 : server) :
  overlays s1 = overlays s → no_leak r s s1.
Proof.
  intros E. assert (∀ w, pool s1 w = pool s w) as Ep by (intros w; unfold pool, overlay_of; by rewrite E).
  destruct r; cbn [no_leak]; intros; [by rewrite Ep|done].
Qed.

Lemma no_leak_bind_ok {A : Type} (p : M (result broker_err A))
    (f : A → M (result broker_err session_response)) :
  acts same_overlays p → (∀ a s, no_leak (Proc.run (f a) s).1 s (Proc.run (f a) s).2) →
  ∀ s, no_leak (Proc.run (bind_ok p f) s).1 s (Proc.run (bind_ok p f) s).2.
Proof.
  intros Hp Hf s. rewrite run_bind_ok. pose proof (run_same_overlays p s Hp) as E.
  destruct (Proc.run p s) as [[a|e] s1]; cbn [fst snd] in *; [|by apply no_leak_same].
  specialize (Hf a s1). assert (∀ w, pool s1 w = pool s w) as Ep by (intros w; unfold pool, overlay_of; by rewrite E).
  destruct (Proc.run (f a) s1) as [[x|e] s2]; cbn [fst snd no_leak] in *.
  - intros w. by rewrite <- Ep.
  - intros He w. rewrite <- Ep. by apply Hf.
Qed.

Lemma grant_and_release_no_leak (env : broker_env) (ident : Identity) (req : CreateSessionRequest)
    (path : string) (n : NR.NodeRecord) (tg : target) (att : option SR.SessionRecord) (d : Decision)
    (reason : string) (t : Z) (id token : string) (s : server) :
  let p := bind_ok (overlay_alloc validCIDR (i_Workspace ident) tg) (λ ip,
             r ← grant_session cfg env ident req path n tg att d reason t id token ip;
             _ ← (if negb r.1 && bool_decide (ip ≠ "")
                  then write (overlay_release (i_Workspace ident) ip) else mret tt);
             mret r.2) in
  no_leak (Proc.run p s).1 s (Proc.run p s).2.
Proof.
  clear JSONLaw0 JSONLaw1. cbv zeta. rewrite run_bind_ok. set (ws := i_Workspace ident).
  destruct (Proc.run (overlay_alloc validCIDR ws tg) s) as [[ip|e] s1] eqn:E; cbn [fst snd];
    apply overlay_alloc_pool in E; [|by intros _].
  rewrite run_bind.
  pose proof (run_same_overlays _ s1 (grant_session_same_overlays env ident req path n tg att d reason t id token ip)) as Eo.
  pose proof (committed_error env ident req path n tg att d reason t id token ip s1) as Hce.
  destruct (Proc.run (grant_session _ _ _ _ _ _ _ _ _ _ _ _ _ _) s1) as [[c r] s2]. cbn [fst snd] in Eo, Hce |- *.
  assert (∀ w, pool s2 w = pool s1 w) as Ep by (intros w; unfold pool, overlay_of; by rewrite Eo).
  assert (∀ w, pool s w ⊆ pool s1 w) as Hsub.
  { intros w. destruct E as [[_ ->]|(_ & _ & E1 & E2)]; [done|]. destruct (decide (w = ws)) as [->|]; [set_solver|].
    by rewrite E2. }
  rewrite run_bind. destruct c; cbn [negb andb Proc.run mret prog_ret fst snd].
  - destruct r as [x|e]; cbn; [intros w; by rewrite Ep|]. intros He. by destruct He; apply (Hce s2 e).
  - assert (∀ w, pool (Proc.run (if bool_decide (ip ≠ "") then write (overlay_release ws ip) else mret tt) s2).2 w
                 = pool s w) as Er.
    { intros w. destruct E as [[-> E]|(Hip & Hni & E1 & E2)].
      - rewrite bool_decide_eq_false_2 by tauto. cbn. by rewrite Ep.
      - rewrite bool_decide_eq_true_2 by done. cbn. rewrite release_pool by done.
        case_decide as Hw; [subst w|]; rewrite Ep; [rewrite E1; set_solver|by apply E2]. }
    destruct r as [x|e]; cbn; [|done]. intros w. by rewrite Er.
Qed.

(** [broker.go, createSession; overlay.go, alloc and release] An aborted session
    keeps no overlay address.  Whatever fails, and whoever refuses, a request that
    ends in an error leaves the pool of every workspace with the addresses it had,
    unless the agent had accepted the session and only its audit failed; and no
    request takes an address out of the pool that another session holds. *)
Theorem aborted_session_frees_address (env : broker_env) (ident : Identity) (req : CreateSessionRequest)
    (s : server) :
  let p := Proc.run (CreateSession validCIDR cfg quote attach_text env ident req) s in
  match p.1 with
  | Ok _ => ∀ w, pool s w ⊆ pool p.2 w
  | Err e => e = AuditFailed ∨ ∀ w, pool p.2 w = pool s w
  end.
Proof.
  apply no_leak_or. unfold CreateSession, createSession, now. rewrite run_read. generalize (now_ns s). intros t.
  pose proof (λ n tg, stages_same_overlays ident req (pinned ident) n tg t) as Hst.
  apply no_leak_bind_ok; [apply (Hst Fleet.node (mkTarget "" "" None "" "" ∅ []))|]. intros tg s1.
  destruct (request_shape req tg); [by apply no_leak_same|].
  apply no_leak_bind_ok; [apply (Hst Fleet.node)|]. intros [att n] s2.
  apply no_leak_bind_ok; [apply (Hst n tg)|]. intros [[o l]|] s3; [by apply no_leak_same|].
  apply no_leak_bind_ok; [apply (Hst n tg)|]. intros [d reason] s4.
  destruct (new_sessionID env) as [id|]; [|by apply no_leak_same].
  destruct (new_token env) as [token|]; [|by apply no_leak_same]. apply grant_and_release_no_leak.
Qed.

(** ** Re-issue *)

Lemma excludeRelayAddr_dead (floor : list string) (dead : string) :
  dead ≠ "" → dead ∈ excludeRelayAddr floor dead → ∀ a, a ∈ excludeRelayAddr floor dead → a = dead.
Proof.
  intros Hd. unfold excludeRelayAddr. rewrite bool_decide_eq_false_2 by done.
  destruct (Nat.eqb_spec (length (filter (λ a, a ≠ dead) floor)) 0) as [E|E].
  - intros _ a Ha. apply dec_stable. intros Hne. apply length_zero_iff_nil in E.
    assert (a ∈ filter (λ a, a ≠ dead) floor) as Hf by by apply list_elem_of_filter.
    rewrite E in Hf. by apply not_elem_of_nil in Hf.
  - by intros [? _]%list_elem_of_filter.
Qed.

Lemma rehomed_action (orig : SessionGrant) (rec : SR.SessionRecord) (node : NR.NodeRecord) (t : Z)
    (tok addr : string) (floor : list string) (cands : list RelayCandidate) :
  let g := rehomed_grant cfg orig rec node t tok addr floor cands in
  (g_Action g = g_Action orig ∧ AttachID g = AttachID orig ∨
   g_Action orig = ActionShell ∧ g_Action g = ActionAttach ∧ AttachID g = SR.HostSessionID rec ∧
   SR.Detachable rec = true) ∧
  grantImpliedCaps g = grantImpliedCaps orig.
Proof.
  unfold rehomed_grant, grantImpliedCaps. cbn.
  destruct (SR.Detachable rec && bool_decide (SR.HostSessionID rec ≠ "")
            && bool_decide (g_Action orig = ActionShell)) eqn:E; [|by auto].
  go_bool. match goal with Hs : g_Action orig = ActionShell |- _ => rewrite Hs end.
  split; [by right|]. done.
Qed.

(** What a grant authorizes, apart from its action, its rendezvous, its validity window
    and the key of its node. *)
Definition grant_scope (g : SessionGrant) :=
  (V g, Grant.ID g, Grant.User g, Grant.Roles g, Grant.WorkspaceID g, NetworkVNI g, Grant.NodeID g, Command g,
   AllowPTY g, Grant.AllowDetach g, ForwardTarget g, Grant.ClientNoisePub g, Grant.ClientPath g,
   Grant.MaxSessionTTL g, g_Record g, g_Service g, Grant.ServiceKind g, Routes g, Grant.OverlayIP g).


End Promises.

(** ** Witnesses *)

Section Witnesses.
Import Fleet.

Definition created : result broker_err session_response * server :=
  Proc.run (CreateSession validCIDR config quote attach_text env ident (ask ActionShell)) start.


(** The session of [start] with the grant it was created with, re-homed once. *)
Definition rehomed : server :=
  start <| sessions := {[ ("acme", "s-1")%string := session <| SR.RehomeEpoch := 1 |>
             <| SR.GrantScope := default [] (sign_grant GrantFixture.grant) |> ]} |>.

Definition reissued : result reissue_err ReissuedGrant * server :=
  Proc.run (ReissueGrant config env "acme" "s-1" "" "relay:9" 0) rehomed.


(** [broker.go, ReissueGrant] A request that names an epoch the session is already past
    is told the current epoch, but a new grant with a new token is minted for it all
    the same. *)
Theorem stale_rehome_still_mints :
  ∃ rg, reissued.1 = Ok rg ∧ rg_Epoch rg = 1 ∧ RelayToken (rg_Grant rg) = "tok" ∧
    option_map SR.RehomeEpoch (sessions reissued.2 !! ("acme", "s-1")%string) = Some 1.
Proof.
  assert (is_ok reissued.1 = true) as Hs by (vm_compute; reflexivity).
  destruct reissued.1 as [rg|e] eqn:E; [|discriminate Hs]. exists rg. split; [done|].
  assert ((λ r : result reissue_err ReissuedGrant,
             match r with Ok g => (rg_Epoch g, RelayToken (rg_Grant g)) | Err _ => (0, ""%string) end) reissued.1
          = (1, "tok"%string)) as H1 by (vm_compute; reflexivity).
  rewrite E in H1. injection H1 as H1 H2. split_and!; [done|done|]. vm_compute. reflexivity.
Qed.

End Witnesses.
