(* ===== verification/Fanout.v ===== *)
(** * Cutting access: suspension, quarantine, drift

    What the controller's fan-outs (controller/continuousauthz.go) do to the whole
    store, run alone and without store failures: a suspended principal, a quarantined
    node and a node that reports a tampered binary lose every live session, and the
    broker refuses the next one.  Control.v covers their interleavings. *)
From Stdlib Require Import ZArith Lia Strings.Byte.
From stdpp Require Import base gmap list strings pretty relations.
From S2P Require Import Prelude Envelope Trust Grant Policy Lease DenyCache Overlay Proc Codec Login.
From S2P Require Import Members Store Sessions Nodes Broker Control Sweep Brokering.
Local Open Scope Z_scope.

Section Fanout.
Context `{GrantKeys, Rendering} `{JSONEncode LeasePayload, JSONEncode DeltaPayload,
  JSONEncode RevokePayload, JSONEncode SessionGrant, JSONEncode Signed}.

(** ** Revoking a selection *)

(** The row of a session after the live sessions [sel] picks are revoked. *)
Definition cut_row (sel : SR.SessionRecord → bool) (reason : string) (t : Z) (r : SR.SessionRecord)
    : SR.SessionRecord :=
  if sel r && live_state (SR.State r) then revoked_row r t reason else r.

Definition cut_pushed (sel : SR.SessionRecord → bool) (reason : string) (s s' : server)
    (r : SR.SessionRecord) : Prop :=
  ∀ e, sel r && live_state (SR.State r) = true → revoke_push r reason = Some e → connected s r →
    ToAgent (SR.NodeID r) (MsgEnforce e) ∈ Store.effects s'.

Lemma revoke_selected_loop (sel : SR.SessionRecord → bool) (reason : string) (s0 : server)
    (l : list SR.SessionRecord) (n : nat) (s : server) :
  stable s0 s → NoDup (key <$> l) → (∀ r, r ∈ l → sessions s !! key r = Some r) →
  let s' := (Proc.run (each_acc l n (λ n rec,
    if negb (sel rec) then mret n
    else if negb (live_state (SR.State rec)) then mret n
    else e ← revokeSession rec reason; mret (match e with None => S n | Some _ => n end))) s).2 in
  stable s0 s' ∧
  (∀ r, r ∈ l → sessions s' !! key r = Some (cut_row sel reason (now_ns s0) r) ∧ cut_pushed sel reason s0 s' r) ∧
  (∀ k, k ∉ key <$> l → sessions s' !! k = sessions s !! k) ∧ Store.effects s `prefix_of` Store.effects s'.
Proof.
  revert n s. induction l as [|r l IH]; intros n s Hs Hnd Hl s'.
  { subst s'. split_and!; try done. intros r Hr. by apply not_elem_of_nil in Hr. }
  assert (faults s = []) as Hf by apply Hs. apply NoDup_cons in Hnd as [Hni Hnd].
  assert (sessions s !! key r = Some r) as Hr by (apply Hl; by left).
  subst s'. cbn [each_acc]. rewrite run_bind.
  match goal with |- context [Proc.run (if negb (sel r) then ?x else ?y) s] =>
    assert (swept s (Proc.run (if negb (sel r) then x else y) s).2 r (cut_row sel reason (now_ns s0) r)
              (if sel r && live_state (SR.State r) then revoke_push r reason else None)) as Hsw;
    [|destruct (Proc.run (if negb (sel r) then x else y) s) as [n1 s1]] end.
  { assert (now_ns s0 = now_ns s) as -> by by destruct Hs as (_&_&_&_&->&_).
    unfold cut_row. destruct (sel r); cbn [negb andb]; [|apply swept_same; auto].
    destruct (live_state (SR.State r)) eqn:El; cbn [negb]; [|apply swept_same; auto].
    rewrite run_bind. by apply revokeSession_swept. }
  cbn [fst snd] in *. pose proof Hsw as (Hst & Hse & _).
  destruct (IH n1 s1) as (I1 & I2 & I3 & I4); [by etransitivity|done| |].
  { intros r2 Hr2. rewrite Hse, lookup_insert_ne; [apply Hl; by right|].
    intros E. apply Hni. rewrite E. by apply list_elem_of_fmap_2. }
  split_and!; [done| | |].
  - intros r2 [->|Hr2]%elem_of_cons; [|by apply I2]. split.
    + by rewrite I3, Hse, lookup_insert_eq.
    + intros e Hsel He Hc. destruct I4 as [tl ->]. apply elem_of_app. left.
      eapply swept_sent; [exact Hsw|by rewrite Hsel|]. unfold connected in *. by destruct Hs as (_&_&_&->&_).
  - intros k Hk. apply not_elem_of_cons in Hk as [Hk1 Hk2]. by rewrite I3, Hse, lookup_insert_ne.
  - etransitivity; [|exact I4]. apply Hst.
Qed.

(** On all rows. *)
Lemma revoke_selected_run (sel : SR.SessionRecord → bool) (reason : string) (s : server) :
  faults s = [] → keyed s →
  let s' := (Proc.run (revoke_selected sel reason (map_to_list (sessions s)).*2) s).2 in
  stable s s' ∧ sessions s' = cut_row sel reason (now_ns s) <$> sessions s ∧
  (∀ k r, sessions s !! k = Some r → cut_pushed sel reason s s' r).
Proof.
  intros Hf Ht s'. assert (∀ k r, sessions s !! k = Some r → r ∈ (map_to_list (sessions s)).*2 ∧ k = key r) as Hin.
  { intros k r Hr. split; [|by apply Ht]. apply list_elem_of_fmap. exists (k, r).
    split; [done|]. by apply elem_of_map_to_list. }
  destruct (revoke_selected_loop sel reason s (map_to_list (sessions s)).*2 0 s) as (I1 & I2 & I3 & _); [done| | |].
  { rewrite (map_to_list_keys s Ht). apply NoDup_fst_map_to_list. }
  { intros r ([k r'] & -> & Hr%elem_of_map_to_list)%list_elem_of_fmap. cbn [snd].
    by destruct (Hin k r' Hr) as [_ <-]. }
  split; [done|]. split.
  - apply map_eq. intros k. rewrite lookup_fmap. destruct (sessions s !! k) as [r|] eqn:Ek.
    + destruct (Hin k r Ek) as [Hr ->]. by apply I2.
    + unfold s', revoke_selected. rewrite I3; [by rewrite Ek|]. rewrite (map_to_list_keys s Ht).
      intros ([k' r] & -> & Hr%elem_of_map_to_list)%list_elem_of_fmap. simpl in *. congruence.
  - intros k r Hr. destruct (Hin k r Hr) as [Hr' _]. by apply I2.
Qed.

(** ** Quarantine *)

Definition on_node (ws nodeID : string) (r : SR.SessionRecord) : bool :=
  bool_decide (SR.WorkspaceID r = ws) && bool_decide (SR.NodeID r = nodeID).

Definition unapproved (n : NR.NodeRecord) : NR.NodeRecord :=
  n <| NR.Approved := false |> <| NR.ApprovedBy := "" |> <| NR.ApprovedAtUnix := 0 |>.

(** The live sessions [sel] picks are cut. *)
Definition cut (sel : SR.SessionRecord → bool) (reason : string) (s s' : server) : Prop :=
  stable s s' ∧ sessions s' = cut_row sel reason (now_ns s) <$> sessions s ∧
  (∀ k r, sessions s !! k = Some r → cut_pushed sel reason s s' r).

Lemma cut_quiet {A : Type} (sel : SR.SessionRecord → bool) (reason : string) (s s1 : server) (p : M A) :
  acts quiet p → cut sel reason s s1 → cut sel reason s (Proc.run p s1).2.
Proof.
  intros Hp (Hst & Hse & Hpu). assert (faults s1 = []) as Hf by apply Hst.
  destruct (run_quiet p s1 Hp Hf) as [Hq Eq]. split; [by etransitivity|]. split; [congruence|].
  intros k r Hr e Hs He Hc. destruct Hq as (_&_&_&_&_&_&[tl ->]). apply elem_of_app. left. by eapply Hpu.
Qed.

Lemma revokeByNodeID_cut (ws nodeID reason : string) (s : server) :
  faults s = [] → keyed s → cut (on_node ws nodeID) reason s (Proc.run (revokeByNodeID ws nodeID reason) s).2.
Proof.
  intros Hf Ht. unfold revokeByNodeID, ListAllSessions. rewrite run_bind, run_view by done.
  by apply revoke_selected_run.
Qed.

Lemma revokeBySubject_cut (ws provider subject reason : string) (s : server) :
  faults s = [] → keyed s → subject ≠ "" →
  cut (same_principal ws provider subject) reason s (Proc.run (revokeBySubject ws provider subject reason) s).2.
Proof.
  intros Hf Ht Hs. unfold revokeBySubject, ListAllSessions. rewrite bool_decide_eq_false_2 by done.
  rewrite run_bind, run_view by done. by apply revoke_selected_run.
Qed.

Lemma repush_quiet (ws : string) : acts quiet (repushAllNetworks ws).
Proof.
  apply quiet_write. intros s Hf. split; [split; [|done]|unfold mail; cbn; by rewrite omap_app, app_nil_r].
  unfold stable. cbn. repeat split; try done. by eexists.
Qed.

(** The transaction, then the cut. *)
Definition quarantine_tx (s : server) (ws nodeID reason by_ : string) (detail : gmap string string)
    (n : NR.NodeRecord) : server :=
  s <| nodes ::= <[(ws, nodeID) := unapproved n]> |>
    <| quarantines ::= <[quarantineKey ws nodeID :=
         mkQuarantine ws nodeID reason detail by_ (Unix (now_ns s)) (HostUUID (NR.Platform n))]> |>.

Lemma quarantineNode_run (ws nodeID reason by_ : string) (detail : gmap string string) (s : server)
    (n : NR.NodeRecord) :
  faults s = [] → keyed s → nodes s !! (ws, nodeID) = Some n →
  let p := Proc.run (quarantineNode ws nodeID reason by_ detail) s in
  p.1 = None ∧
  cut (on_node ws nodeID) (String.append "quarantined: " reason) (quarantine_tx s ws nodeID reason by_ detail n) p.2.
Proof.
  intros Hf Ht Hn. cbv zeta. unfold quarantineNode. rewrite run_bind. unfold QuarantineNode. rewrite run_tx by done.
  unfold Update, get_node. rewrite Hn. cbn [of_option fst snd].
  change (_ <| quarantines ::= _ |>) with (quarantine_tx s ws nodeID reason by_ detail n).
  set (s1 := quarantine_tx s ws nodeID reason by_ detail n).
  rewrite run_bind. pose proof (revokeByNodeID_cut ws nodeID (String.append "quarantined: " reason) s1 Hf Ht) as Hc.
  destruct (Proc.run (revokeByNodeID _ _ _) s1) as [m s2]. cbn [fst snd] in *. rewrite run_bind.
  apply (cut_quiet _ _ _ _ (repushAllNetworks ws)) in Hc; [|apply repush_quiet].
  destruct (Proc.run (repushAllNetworks ws) s2) as [[] s3]. cbn [fst snd] in *. split.
  - by rewrite run_bind.
  - eapply cut_quiet; [|exact Hc]. handler_steps.
Qed.

Context `{JSONDecode SessionGrant, JSONDecode Signed} (presence : presence_config).
Context (validCIDR : string → bool) (cfg : broker_config).
Context (quote : string → string) (attach_text : attach_err → string).

(** The broker created a session. *)
Definition creates (env : broker_env) (ident : Identity) (req : CreateSessionRequest) (s : server) : Prop :=
  match (Proc.run (CreateSession validCIDR cfg quote attach_text env ident req) s).1 with
  | Ok (Created _ _ _ _ _ _ _ _) => True
  | _ => False
  end.

Lemma creates_authorized (env : broker_env) (ident : Identity) (req : CreateSessionRequest) (s : server) :
  faults s = [] → creates env ident req s → ∃ n tg d, authorized s ident req (pinned ident) n tg d.
Proof.
  intros Hf. unfold creates, CreateSession. fold (pinned ident).
  destruct (Proc.run (createSession _ _ _ _ _ _ _ _) s) as [[[]|] s1] eqn:E; try done. intros _.
  apply createSession_ok in E as (n & tg & att & d & token & ip & a & rest & cs & Hau & _); [|done]. by exists n, tg, d.
Qed.

(** A session the broker creates is on another node: so its signed grant says. *)
Definition elsewhere (ws nodeID : string) (s : server) : Prop :=
  ∀ env ident req s1 b addr floor tok npub sid cands pr,
    Proc.run (CreateSession validCIDR cfg quote attach_text env ident req) s
      = (Ok (Created b addr floor tok npub sid cands pr), s1) →
    ∃ grant, sign_grant grant = Some b ∧ Grant.ID grant = sid ∧
      (Grant.WorkspaceID grant, Grant.NodeID grant) ≠ (ws, nodeID).

Lemma unapproved_elsewhere (ws nodeID : string) (s : server) :
  faults s = [] → typed s → (∀ m, nodes s !! (ws, nodeID) = Some m → NR.Approved m = false) →
  elsewhere ws nodeID s.
Proof.
  intros Hf Ht Hg env ident req s1 b addr floor tok npub sid cands pr Hr.
  unfold CreateSession in Hr. fold (pinned ident) in Hr.
  apply createSession_ok in Hr as (m & tg & att & d & token & ip & a & rest & cs & Hau & _ & _ & _ & _ & Hs); [|done].
  eexists. split; [exact Hs|]. split; [done|]. cbn. intros [= <- <-].
  destruct Hau as ([k Hk] & Hap & _). pose proof (proj1 (proj2 Ht) _ _ Hk) as E. injection E as E1 ->.
  by rewrite (Hg m Hk) in Hap.
Qed.

(** The node has its quarantine row. *)
Definition quarantined (ws nodeID : string) (s : server) : Prop :=
  ∃ q, quarantines s !! quarantineKey ws nodeID = Some q ∧ qr_Workspace q = ws ∧ qr_NodeID q = nodeID.

Lemma typed_run {A : Type} (p : M A) (s : server) :
  acts (tx_step (λ _, True)) p → typed s → typed (Proc.run p s).2.
Proof.
  intros Hp Ht. apply (run_acts _ p s) in Hp. induction Hp; [done|]. apply IHHp. by eapply typed_step; [left|].
Qed.

Lemma quarantineNode_gate (ws nodeID reason by_ : string) (detail : gmap string string) (s : server) :
  typed s ∧ gate_closed s →
  let s' := (Proc.run (quarantineNode ws nodeID reason by_ detail) s).2 in typed s' ∧ gate_closed s'.
Proof.
  cbv zeta. pose proof (run_acts _ _ s (quarantineNode_tx_step (λ _, True) ws nodeID reason by_ detail)) as Hr.
  induction Hr; [done|]. intros Hs. apply IHHr. by eapply gate_closed_step.
Qed.

Lemma quarantined_elsewhere (qs : list request) (ws nodeID : string) (s s' : server) :
  typed s ∧ gate_closed s → (∀ q, q ∈ qs → writes_back q = false) →
  reaches presence validCIDR cfg quote attach_text qs s s' →
  faults s' = [] → quarantined ws nodeID s' → elsewhere ws nodeID s'.
Proof.
  intros Hg Hw Hr Hf (q & Hq & <- & <-).
  assert (typed s' ∧ gate_closed s') as [Ht' Hg'].
  { eapply (reaches_tx_invariant presence validCIDR cfg quote attach_text (λ s, typed s ∧ gate_closed s)); [exact Hw| |done|done].
    intros u v Hu Hv. by eapply gate_closed_step. }
  apply unapproved_elsewhere; [done..|]. intros m Hm. by eapply Hg'.
Qed.

(** C22 (continuousauthz.go, quarantineNode): a quarantine takes effect at once.  The
    node's admission gate is closed and its quarantine row is there; every live session
    on it is revoked, with a signed revoke on its stream if it is connected, and no
    other session changes; and a session the broker creates next has a signed grant for
    another node.  If every quarantine row had its gate closed before, that stays so in
    every later state which still has this quarantine row, after any run of the
    requests other than enrollments and the three that write back a node as they read
    it earlier. *)
Theorem quarantine_cuts_node (ws nodeID reason by_ : string) (detail : gmap string string) (s : server)
    (n : NR.NodeRecord) :
  faults s = [] → typed s → nodes s !! (ws, nodeID) = Some n →
  let s' := (Proc.run (quarantineNode ws nodeID reason by_ detail) s).2 in
  nodes s' = <[(ws, nodeID) := unapproved n]> (nodes s) ∧ quarantined ws nodeID s' ∧
  sessions s' = cut_row (on_node ws nodeID) (String.append "quarantined: " reason) (now_ns s) <$> sessions s ∧
  (∀ k r, sessions s !! k = Some r →
     cut_pushed (on_node ws nodeID) (String.append "quarantined: " reason) s s' r) ∧
  elsewhere ws nodeID s' ∧
  (gate_closed s → ∀ qs s2, (∀ q, q ∈ qs → writes_back q = false) →
     reaches presence validCIDR cfg quote attach_text qs s' s2 →
     faults s2 = [] → quarantined ws nodeID s2 → elsewhere ws nodeID s2).
Proof.
  intros Hf Ht Hn s'. destruct (quarantineNode_run ws nodeID reason by_ detail s n Hf (proj1 Ht) Hn)
    as [_ (Hst & Hse & Hpu)]. fold s' in Hst, Hse, Hpu.
  destruct Hst as ([En Eq] & _ & _ & _ & _ & Hf' & _).
  assert (typed s') as Ht'.
  { apply (typed_run _ s (quarantineNode_tx_step (λ _, True) ws nodeID reason by_ detail)); done. }
  split_and!; try done.
  - unfold quarantined. rewrite Eq. cbn. rewrite lookup_insert_eq. by eexists.
  - apply unapproved_elsewhere; [done..|]. intros m. rewrite En. cbn. rewrite lookup_insert_eq. by intros [= <-].
  - intros Hg qs s2. apply quarantined_elsewhere. by apply quarantineNode_gate.
Qed.

(** ** Suspension *)

Lemma suspended_after (t : Z) (st st' : denyStore) (ws provider subject username by_ reason : string) :
  SuspendPrincipal t st ws provider subject username by_ reason = Some st' →
  ∀ p, normProvider p = normProvider provider → IsSuspendedE st' ws p subject = true.
Proof.
  unfold SuspendPrincipal. case_bool_decide as Hs; [done|]. intros [= <-] p Hp.
  unfold IsSuspendedE, isSuspendedTx, suspendable, principalKey. rewrite bool_decide_eq_true_2 by done. cbn.
  by rewrite Hp, lookup_insert_eq.
Qed.

Lemma run_AppendWS (ws typ actor node session : string) (detail : gmap string string) (s : server) :
  faults s = [] →
  Proc.run (AppendWS ws typ actor node session detail) s
    = (None, s <| audits ::= λ l, l ++ [mkAudit ws typ actor node session detail] |>).
Proof. intros Hf. unfold AppendWS, atomic. cbn [Proc.run]. by rewrite (next_fault_nil s Hf), tick_nil. Qed.

Lemma RevokeAuthSessionsForSubject_kills (provider subject : string) (st : loginStore) (h : string)
    (rec : AuthSession) :
  subject ≠ "" → sessions_auth (RevokeAuthSessionsForSubject provider subject st).2 !! h = Some rec →
  normProvider (as_Provider rec) = normProvider provider → as_Subject rec ≠ subject.
Proof.
  intros Hs. unfold RevokeAuthSessionsForSubject. rewrite bool_decide_eq_false_2 by done. cbn.
  intros [_ Hd]%map_lookup_filter_Some Hp He. unfold normProvider in Hp.
  by rewrite !bool_decide_eq_true_2 in Hd.
Qed.

(** The whole handler: where it ends, from the state the suspension left. *)
Lemma suspendPrincipal_run (ws provider subject username by_ reason : string) (s : server) :
  faults s = [] → keyed s → subject ≠ "" →
  let p := Proc.run (suspendPrincipal ws provider subject username by_ reason) s in
  ∃ d c, SuspendPrincipal (now_ns s) (denies s) ws provider subject username by_ reason = Some d ∧ p.1 = None ∧
    cut (same_principal ws provider subject) (String.append "suspended: " reason)
      (s <| denies := d |> <| deny_cache := c |>) p.2 ∧
    ∃ st, login p.2 = (RevokeAuthSessionsForSubject provider subject st).2.
Proof.
  intros Hf Ht Hs. cbv zeta. unfold suspendPrincipal. rewrite run_bind. unfold SuspendPrincipal_tx.
  rewrite run_tx by done. unfold Update.
  destruct (SuspendPrincipal _ _ _ _ _ _ _ _) as [d|] eqn:Ed.
  2:{ unfold SuspendPrincipal in Ed. by rewrite bool_decide_eq_false_2 in Ed. }
  cbn [fst snd]. rewrite run_bind. cbn [Proc.run write atomic fst snd].
  set (c := invalidateSuspension (deny_cache s) ws provider subject).
  exists d, c. split; [done|]. set (s1 := s <| denies := d |> <| deny_cache := c |>).
  match goal with |- context [Proc.run (_ ≫= _) ?u] => change u with s1 end. rewrite run_bind.
  pose proof (revokeBySubject_cut ws provider subject (String.append "suspended: " reason) s1 Hf Ht Hs) as Hc.
  destruct (Proc.run (revokeBySubject _ _ _ _) s1) as [m s2]. cbn [fst snd] in *.
  assert (faults s2 = []) as Hf2 by apply Hc. rewrite run_bind.
  pose proof (cut_quiet _ _ _ _ (login_tx (RevokeAuthSessionsForSubject provider subject))
                (login_tx_quiet _) Hc) as Hc'.
  unfold login_tx in *. rewrite run_tx in * by done. unfold Update in *.
  destruct (RevokeAuthSessionsForSubject provider subject (login s2)) as [k l] eqn:El. cbn [fst snd] in *.
  rewrite run_bind, run_AppendWS by done. cbn [Proc.run mret prog_ret fst snd]. split; [done|]. split.
  - exact Hc'.
  - exists (login s2). by rewrite El.
Qed.

(** [continuousauthz.go, suspendPrincipal] A suspension takes effect at once.  The
    principal is suspended, under its device logins too; every live session of it in
    the workspace is revoked and the revokes are on their way; none of its console
    logins is left; and the broker creates no session for it. *)
Theorem suspension_cuts_principal (ws provider subject username by_ reason : string) (s : server) :
  faults s = [] → typed s → subject ≠ "" →
  let p := Proc.run (suspendPrincipal ws provider subject username by_ reason) s in
  let sel := same_principal ws provider subject in
  p.1 = None ∧
  (∀ q, normProvider q = normProvider provider → IsSuspendedE (denies p.2) ws q subject = true) ∧
  sessions p.2 = cut_row sel (String.append "suspended: " reason) (now_ns s) <$> sessions s ∧
  (∀ k r, sessions s !! k = Some r → cut_pushed sel (String.append "suspended: " reason) s p.2 r) ∧
  (∀ h rec, sessions_auth (login p.2) !! h = Some rec →
     normProvider (as_Provider rec) = normProvider provider → as_Subject rec ≠ subject) ∧
  (∀ env ident req, i_Workspace ident = ws → normProvider (Provider ident) = normProvider provider →
     DenyCache.Subject ident = subject → ¬ creates env ident req p.2).
Proof.
  intros Hf Ht Hs. cbv zeta.
  destruct (suspendPrincipal_run ws provider subject username by_ reason s Hf (proj1 Ht) Hs)
    as (d & c & Hd & Hr & (Hst & Hse & Hpu) & st & Hl).
  destruct Hst as (_ & Ed & _ & _ & _ & Hf' & _).
  change (denies (s <| denies := d |> <| deny_cache := c |>)) with d in Ed.
  assert (∀ q, normProvider q = normProvider provider →
    IsSuspendedE (denies (Proc.run (suspendPrincipal ws provider subject username by_ reason) s).2) ws q subject = true)
    as Hsusp by (intros q Hq; rewrite Ed; by eapply suspended_after).
  split_and!; try done.
  - intros h rec Hrec. rewrite Hl in Hrec. by eapply RevokeAuthSessionsForSubject_kills.
  - intros env ident req <- Hp <- Hc%creates_authorized; [|done].
    destruct Hc as (m & tg & dd & _ & _ & Hn & _). by rewrite Hsusp in Hn.
Qed.

(** ** Binary drift *)

(** The release the controller published for a hash. *)
Definition published (s : server) (h : bytes) : option Manifest :=
  if bool_decide (hex_encode h = "") then None
  else head (filter (λ m, publishedManifestMatch "geneza-agent" (hex_encode h) m = true) (artifacts s)).

Lemma run_Published (s : server) (h : bytes) :
  faults s = [] →
  Proc.run (PublishedManifestForHash "geneza-agent" (hex_encode h)) s = (of_option ErrNotFound (published s h), s).
Proof.
  intros Hf. unfold PublishedManifestForHash, published. case_bool_decide; [done|]. by rewrite run_view.
Qed.

Definition measured (n : NR.NodeRecord) (h : bytes) (t : Z) : NR.NodeRecord :=
  n <| NR.LastBinaryHash := h |> <| NR.LastMeasuredUnix := t |>.

Definition repinned (n : NR.NodeRecord) (h : bytes) (created : Z) : NR.NodeRecord :=
  n <| NR.ApprovedBinaryHash := h |> <| NR.ApprovedBinaryCreatedUnix := created |> <| NR.LastBinaryHash := h |>.

Definition set_node (s : server) (ws id : string) (n : NR.NodeRecord) : server :=
  s <| nodes ::= <[(ws, id) := n]> |>.

Lemma run_RepinBaseline (ws id : string) (h : bytes) (created : Z) (s : server) (n : NR.NodeRecord) :
  faults s = [] → nodes s !! (ws, id) = Some n →
  Proc.run (RepinBaseline ws id h created) s = (Ok tt, set_node s ws id (repinned n h created)).
Proof. intros Hf Hn. unfold RepinBaseline. rewrite run_tx by done. unfold Update, get_node. by rewrite Hn. Qed.

(** The measurement of an approved node. *)
Lemma run_Record (ws id : string) (h : bytes) (t : Z) (s : server) (n : NR.NodeRecord) :
  faults s = [] → nodes s !! (ws, id) = Some n → NR.Approved n = true → length h = 32%nat →
  let first := bool_decide (NR.ApprovedBinaryHash n = []) in
  let drift := negb first && negb (bool_decide (NR.ApprovedBinaryHash n = h)) in
  let n1 := if first then (measured n h t) <| NR.ApprovedBinaryHash := h |> else measured n h t in
  Proc.run (RecordNodeMeasurement ws id h t) s = (Ok (drift, first, n1), set_node s ws id n1).
Proof.
  intros Hf Hn Ha Hl. cbv zeta. unfold RecordNodeMeasurement. rewrite Hl. cbn [Nat.eqb sha256Len negb].
  rewrite run_tx by done. unfold Update, get_node. rewrite Hn. cbn [of_option]. cbn.
  rewrite Ha. cbn [andb]. destruct (NR.ApprovedBinaryHash n) as [|b l] eqn:Eb; [done|].
  rewrite !(bool_decide_eq_false_2 (b :: l = [])) by done. done.
Qed.

(** The verdict of a measurement on an approved node, in the state the measurement left. *)
Lemma driftQuarantine_run (ws id reason : string) (t : Z) (detail : gmap string string) (s : server)
    (n : NR.NodeRecord) :
  faults s = [] → keyed s → nodes s !! (ws, id) = Some n → NR.ApprovedAtUnix n ≤ t →
  cut (on_node ws id) (String.append "quarantined: " reason) (quarantine_tx s ws id reason "system" detail n)
    (Proc.run (driftQuarantine ws id reason t detail) s).2.
Proof.
  intros Hf Ht Hn Hat. unfold driftQuarantine, GetNode. rewrite run_bind, run_view by done. cbn [fst snd].
  unfold get_node. rewrite Hn. cbn [of_option].
  assert (NR.Approved n && (t <? NR.ApprovedAtUnix n) = false) as ->.
  { apply andb_false_iff. right. by apply Z.ltb_ge. }
  destruct (quarantineNode_run ws id reason "system" detail s n Hf Ht Hn) as [Hr Hc].
  rewrite run_bind. destruct (Proc.run (quarantineNode _ _ _ _ _) s) as [r s1]. cbn [fst snd] in *. by subst r.
Qed.

(** The node runs the binary the controller blessed. *)
Definition blessed (s s' : server) (n n' : NR.NodeRecord) (h : bytes) : Prop :=
  NR.Approved n' = true ∧ NR.ApprovedBinaryHash n' = h ∧ sessions s' = sessions s ∧
  (NR.ApprovedBinaryHash n = h ∨ NR.ApprovedBinaryHash n = [] ∨
   ∃ m, published s h = Some m ∧
     (0 < NR.ApprovedBinaryCreatedUnix n → NR.ApprovedBinaryCreatedUnix n ≤ Unix (CreatedAt m))).

(** It does not, and is cut off. *)
Definition cut_off (s s' : server) (ws id : string) (n n' : NR.NodeRecord) (h : bytes) : Prop :=
  NR.Approved n' = false ∧ NR.ApprovedBinaryHash n' = NR.ApprovedBinaryHash n ∧ NR.ApprovedBinaryHash n ≠ h ∧
  is_Some (quarantines s' !! quarantineKey ws id) ∧
  ∃ reason, (reason = "binary_tamper"%string ∨ reason = "binary_downgrade"%string) ∧
    sessions s' = cut_row (on_node ws id) (String.append "quarantined: " reason) (now_ns s) <$> sessions s.

Lemma driftQuarantine_cut_off (ws id reason : string) (detail : gmap string string) (s : server)
    (n : NR.NodeRecord) (h : bytes) :
  faults s = [] → keyed s → NR.ApprovedAtUnix n ≤ Unix (now_ns s) → NR.ApprovedBinaryHash n ≠ h →
  (reason = "binary_tamper"%string ∨ reason = "binary_downgrade"%string) →
  let n1 := measured n h (Unix (now_ns s)) in
  let s' := (Proc.run (driftQuarantine ws id reason (Unix (now_ns s)) detail) (set_node s ws id n1)).2 in
  nodes s' !! (ws, id) = Some (unapproved n1) ∧ cut_off s s' ws id n (unapproved n1) h.
Proof.
  intros Hf Ht Hat Hne Hre n1 s'.
  destruct (driftQuarantine_run ws id reason (Unix (now_ns s)) detail (set_node s ws id n1) n1)
    as (Hst & Hse & _); [done|done|apply lookup_insert_eq|done|]. fold s' in Hst, Hse.
  destruct Hst as ([En Eq] & _). split; [rewrite En; apply lookup_insert_eq|].
  split_and!; try done; [rewrite Eq; eexists; apply lookup_insert_eq|]. by exists reason.
Qed.

(** C23 (continuousauthz.go, evaluateBinaryDrift; store.go, RecordNodeMeasurement): an
    approved node runs a blessed binary or is cut off.  When a node that was approved
    before now reports the SHA-256 of its running binary, and no store operation fails, then either it stays approved and that hash is now
    its baseline, because it was already, or because it is the first one measured, or
    because the controller published it as an agent release no older than the one
    before; or its gate closes, it is quarantined for tampering or for a downgrade with
    its baseline kept, and all its live sessions are revoked. *)
Theorem blessed_or_cut_off (ws id : string) (h : bytes) (s : server) (n : NR.NodeRecord) :
  faults s = [] → typed s → nodes s !! (ws, id) = Some n → NR.Approved n = true → length h = 32%nat →
  NR.ApprovedAtUnix n ≤ Unix (now_ns s) →
  let s' := (Proc.run (evaluateBinaryDrift ws id h) s).2 in
  ∃ n', nodes s' !! (ws, id) = Some n' ∧ NR.LastBinaryHash n' = h ∧
    (blessed s s' n n' h ∨ cut_off s s' ws id n n' h).
Proof.
  intros Hf Ht Hn Ha Hl Hat. unfold evaluateBinaryDrift. rewrite Hl. cbn [Nat.eqb]. unfold now. rewrite run_read.
  rewrite run_bind, (run_Record ws id h (Unix (now_ns s)) s n Hf Hn Ha Hl). cbn [fst snd].
  set (n1 := measured n h (Unix (now_ns s))).
  case_bool_decide as Efirst; cbn [negb andb].
  - rewrite run_bind, run_Published by done. cbn [fst snd].
    change (published (set_node s ws id _) h) with (published s h).
    destruct (published s h) as [m|] eqn:Em; cbn [of_option].
    + rewrite run_bind, (run_RepinBaseline _ _ _ _ _ (n1 <| NR.ApprovedBinaryHash := h |>)); [|done|apply lookup_insert_eq].
      cbn [fst snd Proc.run mret prog_ret]. eexists. split; [apply lookup_insert_eq|]. split; [done|].
      left. split_and!; try done. by right; left.
    + cbn [snd Proc.run mret prog_ret]. eexists. split; [apply lookup_insert_eq|]. split; [done|].
      left. split_and!; try done. by right; left.
  - case_bool_decide as Esame; cbn [negb andb].
    { cbn [snd Proc.run mret prog_ret]. exists n1. split; [apply lookup_insert_eq|]. split; [done|].
      left. split_and!; try done. by left. }
    rewrite run_bind, run_Published by done. cbn [fst snd].
    change (published (set_node s ws id _) h) with (published s h).
    destruct (published s h) as [m|] eqn:Em; cbn [of_option].
    + destruct ((0 <? NR.ApprovedBinaryCreatedUnix n1) && _) eqn:Eold.
      * destruct (driftQuarantine_cut_off ws id "binary_downgrade"
          (<["measured_hash" := hex_encode h]> {[ "to_version" := m_Version m ]}) s n h) as [H1' H2']; try done.
        { exact (proj1 Ht). } { by right. }
        eexists. split; [exact H1'|]. split; [done|by right].
      * rewrite run_bind, (run_RepinBaseline _ _ _ _ _ n1); [|done|apply lookup_insert_eq].
        cbn [fst snd]. rewrite run_bind. rewrite run_AppendWS by done. cbn [snd Proc.run mret prog_ret].
        eexists. split; [apply lookup_insert_eq|]. split; [done|]. left. split_and!; try done.
        right. right. exists m. split; [done|]. intros Hpos. apply andb_false_iff in Eold as [E|E]; [|by apply Z.ltb_ge in E].
        apply Z.ltb_ge in E. cbn in E. lia.
    + destruct (driftQuarantine_cut_off ws id "binary_tamper"
        (<["measured_hash" := hex_encode h]> {[ "expected_hash" := hex_encode (NR.ApprovedBinaryHash n1) ]}) s n h)
        as [H1' H2']; try done. { exact (proj1 Ht). } { by left. }
      eexists. split; [exact H1'|]. split; [done|by right].
Qed.

(** ** Two reports the controller trusts too much *)

(** [continuousauthz.go, confirmRevokeDelivered] Any node of the workspace can settle the
    revocation owed to another node's session: its report is not compared with the
    node the session is on. *)
Theorem foreign_ack_settles (s : server) (r : SR.SessionRecord) (nodeID reason path : string) (ep : Z) :
  faults s = [] → sessions s !! key r = Some r → owed r = true → nodeID ≠ SR.NodeID r →
  sessions (Proc.run (handleSessionEvent (SR.WorkspaceID r) nodeID (revoked_event (SR.ID r) reason path ep)) s).2
    !! key r = Some (r <| SR.RevokeDelivered := true |>).
Proof. intros Hf Hr Ho _. rewrite run_confirm by done. apply lookup_insert_eq. Qed.

(** [nodecontrol.go, handleSessionEvent] A node that reports the end of a session it has
    already ended frees that session's overlay address a second time, whichever live
    session holds it by then. *)
Theorem repeated_end_frees_address (s : server) (r : SR.SessionRecord) (code : Z) :
  faults s = [] → sessions s !! key r = Some r → SR.State r = SessionEnded → SR.OverlayIP r ≠ "" →
  SR.OverlayIP r ∉ pool (Proc.run (update_own (SR.WorkspaceID r) (SR.NodeID r)
    (mkSessionEvent (SR.ID r) "ended" "" code "" "" 0) true) s).2 (SR.WorkspaceID r).
Proof.
  intros Hf Hr _ Hip. unfold update_own, now. rewrite run_read, run_bind.
  rewrite (run_UpdateSession _ _ _ _ s r Hf Hr). cbn [fst snd Proc.run mret prog_ret].
  rewrite bool_decide_eq_true_2 by done. cbn [andb].
  match goal with |- _ ∉ pool (set_field _ ?u) _ => change (SR.OverlayIP r ∉ pool u (SR.WorkspaceID r)) end.
  rewrite release_pool, decide_True by done. set_solver.
Qed.

End Fanout.

(** ** Witnesses *)

Section Witnesses.
Import Fleet.

Lemma quarantine_cuts_node_witness :
  let s' := (Proc.run (quarantineNode "acme" "node-1" "compromised" "root" ∅) start).2 in
  nodes s' = <[("acme", "node-1")%string := unapproved node]> (nodes start) ∧
  ∀ s2, reaches presence validCIDR config quote attach_text [QSweep] s' s2 → faults s2 = [] →
    quarantined "acme" "node-1" s2 → elsewhere validCIDR config quote attach_text "acme" "node-1" s2.
Proof.
  destruct (quarantine_cuts_node presence validCIDR config quote attach_text "acme" "node-1" "compromised" "root"
              ∅ start node) as (H1 & _ & _ & _ & _ & H2).
  - reflexivity.
  - apply start_typed.
  - vm_compute. reflexivity.
  - split; [exact H1|]. intros s2. apply H2; [apply start_typed|]. by intros q ->%list_elem_of_singleton.
Defined.

Lemma suspension_cuts_principal_witness :
  let p := Proc.run (suspendPrincipal "acme" "oidc" "sub-a" "alice" "root" "left") start in
  sessions p.2 = cut_row (same_principal "acme" "oidc" "sub-a") "suspended: left" (now_ns start) <$> sessions start.
Proof.
  apply (suspension_cuts_principal validCIDR config quote attach_text "acme" "oidc" "sub-a" "alice" "root" "left" start).
  - reflexivity.
  - apply start_typed.
  - discriminate.
Defined.

Lemma blessed_or_cut_off_witness :
  let h := ToyEd25519.key x33 in
  let s' := (Proc.run (evaluateBinaryDrift "acme" "node-1" h) start).2 in
  ∃ n', nodes s' !! ("acme", "node-1")%string = Some n' ∧ NR.LastBinaryHash n' = h ∧
    (blessed start s' node n' h ∨ cut_off start s' "acme" "node-1" node n' h).
Proof.
  apply (blessed_or_cut_off "acme" "node-1" (ToyEd25519.key x33) start node).
  - reflexivity.
  - apply start_typed.
  - vm_compute. reflexivity.
  - reflexivity.
  - reflexivity.
  - vm_compute. discriminate.
Defined.

End Witnesses.
