(* ===== verification/Update.v ===== *)
(** * Installing and supervising a worker (update/*.go)

    The package the node's bootstrap is made of: the persisted updater state
    (update/state.go), the installer that turns a signed manifest into an executable
    (install.go), the health gate (health.go), pruning (prune.go), the poll of the
    controller (httpclient.go) and the drain status it reads (cmd/geneza-bootstrap).
    The operations are programs over [node]: the disk, the bootstrap's memory and the
    processes it started.  A file operation may fail, as [io] and [state_io] script; a
    crash may come between any two actions (Bootstrap.v).

    Supervisor.v models the restart loop of a child. *)
From Stdlib Require Import ZArith Lia Strings.Byte Strings.Ascii.
From stdpp Require Import base gmap sets list strings pretty relations.
From S2P Require Import Prelude Envelope Trust Proc Codec.
Local Open Scope Z_scope.

(** ** Updater state (state.go) *)

Record State := mkState {
  Current : string; Previous : string; Bad : list string; FloorUnix : Z; RootKeysVersion : Z }.

#[export] Instance eta_State : Eta State := λ s,
  mkState (Current s) (Previous s) (Bad s) (FloorUnix s) (RootKeysVersion s).

#[export] Instance State_text : JSONText State := λ s,
  ValidString (Current s) && ValidString (Previous s) && forallb ValidString (Bad s).

Definition empty_state : State := mkState "" "" [] 0 0.

Definition RaiseFloor (createdUnix : Z) (s : State) : bool * State :=
  if FloorUnix s <? createdUnix then (true, s <| FloorUnix := createdUnix |>) else (false, s).

Definition RaiseRootKeysVersion (v : Z) (s : State) : bool * State :=
  if RootKeysVersion s <? v then (true, s <| RootKeysVersion := v |>) else (false, s).

Definition IsBad (s : State) (v : string) : bool := contains (Bad s) v.

Definition MarkBad (v : string) (s : State) : State :=
  if IsBad s v then s else s <| Bad ::= λ l, l ++ [v] |>.

Definition ResetBadOnChange (desired lastDesired : string) (s : State) : bool * State :=
  if bool_decide (lastDesired = "") || bool_decide (desired = lastDesired) || (length (Bad s) =? 0)%nat
  then (false, s)
  else (true, s <| Bad := [] |>).

(** ** The node *)

(** What a controller answers to a poll; the version is never empty. *)
Record DesiredVersionResponse := mkDesired {
  d_Version : string; SignedManifest : option Signed; SignedRootKeys : option Signed }.

(** What it serves for an artifact: nothing, or a body that may break off. *)
Inductive blob_answer : Type :=
| NoBlob
| Blob (body : bytes) (complete : bool).

Record config := mkConfig {
  c_Product : string; c_OS : string; c_Arch : string;
  c_Pub : bytes; c_rootTrusted : option keyset;
  PollIntervalSec : Z; HealthTimeoutSec : Z; DrainWindowSec : Z; DrainStatusFile : string }.

(** What the bootstrap decided, in order: the lines it logs, and the first install,
    which it does not log. *)
Inductive log_line : Type :=
| LogFirstInstall (version : string) (createdUnix : Z)
| LogAdopted (version : string)
| LogRootKeys (version : Z)
| LogCommitted (version previous : string) (createdUnix : Z)
| LogRolledBack (version bad : string).

Record node := mkNode {
  (* the disk: <versions_dir>/<version>/<name>, and the files of the run directory *)
  files : gmap (string * string) bytes;
  dirs : gset string;
  state_file : option bytes;
  health_file : option Z;
  drain_file : option string;
  (* the bootstrap *)
  current : string;
  st : State;
  lastDesired : string;
  Trusted : keyset;
  worker : option string;
  sessionHost : bool;
  (* the images the children run *)
  worker_exec : option bytes;
  host_exec : option bytes;
  (* output and environment *)
  log : list log_line;
  clock : Z;
  shutdown : bool;
  io : list bool;
  state_io : list bool }.

#[export] Instance eta_node : Eta node := λ n,
  mkNode (files n) (dirs n) (state_file n) (health_file n) (drain_file n) (current n) (st n)
    (lastDesired n) (Trusted n) (worker n) (sessionHost n) (worker_exec n) (host_exec n) (log n)
    (clock n) (shutdown n) (io n) (state_io n).

Abbreviation M := (prog node).

(** A file operation: [fail] is its error, and a failure changes nothing. *)
Definition attempt {A : Type} (fail : A) (act : node → A * node) : M A :=
  atomic (λ n, if default true (head (io n)) then act (n <| io ::= tail |>) else (fail, n <| io ::= tail |>)).

Definition now : M Z := read clock.

(** [time.Sleep]: the clock moves by at least [d]. *)
Definition sleep (d : Z) : M unit := write (λ n, n <| clock ::= Z.add d |>).

Section Update.
Context `{Ed25519, Sha256} `{JSONDecode Manifest, JSONEncode State, JSONDecode State}.
Context (cfg : config).

Inductive load_err : Type := StateUnreadable | StateCorrupt.

Definition LoadState : M (result load_err State) :=
  atomic (λ n,
    let n' := n <| state_io ::= tail |> in
    if negb (default true (head (state_io n))) then (Err StateUnreadable, n')
    else match state_file n with
         | None => (Ok empty_state, n')
         | Some b => (of_option StateCorrupt (Unmarshal b), n')
         end).

(** [Save] writes a temporary file nobody reads and renames it: the state file is the
    old one or the new one. *)
Definition Save : M bool :=
  atomic (λ n,
    match Marshal (st n) with
    | None => (false, n)
    | Some b =>
        let n' := n <| state_io ::= tail |> in
        if default true (head (state_io n)) then (true, n' <| state_file := Some b |>) else (false, n')
    end).

(** ** The installer (install.go) *)

Inductive install_err : Type :=
| NoTrustedKeys | ManifestSignature (e : env_err) | WrongProduct | WrongPlatform | BadVersion
| Downgrade | BadSHA256 | BadSize | DownloadFailed | BlobInvalid (e : trust_err) | FileError.

Definition BinaryName : string :=
  if bool_decide (c_Product cfg = "") then "geneza-agent" else c_Product cfg.

Definition tmp_name : string := String.append "." (String.append BinaryName ".tmp").

Definition alphanumeric (c : ascii) : bool := in_range 97 122 c || in_range 65 90 c || in_range 48 57 c.

Definition version_char (c : ascii) : bool :=
  alphanumeric c || Ascii.eqb c "." || Ascii.eqb c "_" || Ascii.eqb c "+" || Ascii.eqb c "-".

Definition validVersion (v : string) : bool :=
  match v with
  | EmptyString => false
  | String c r => (String.length v <=? 100)%nat && alphanumeric c && forallb version_char (String.list_ascii_of_string r)
  end.

Definition validSHA256 (s : string) : bool :=
  (String.length s =? 64)%nat &&
  match hex_decode s with Some b => bool_decide (hex_encode b = s) | None => false end.

Definition KeyIDFor (pub : bytes) : string := hex_encode (take 8 (sha256 pub)).

(** The keys a manifest may be signed with: the root-anchored set, else the pinned key. *)
Definition artifact_keys (trusted : keyset) : option keyset :=
  if (size trusted =? 0)%nat then
    if (length (c_Pub cfg) =? PublicKeySize)%nat then Some {[KeyIDFor (c_Pub cfg) := c_Pub cfg]} else None
  else Some trusted.

(** The checks on the manifest, before anything is written. *)
Definition check_manifest (minCreatedAt : Z) (trusted : keyset) (sm : option Signed)
    : result install_err Manifest :=
  match artifact_keys trusted with
  | None => Err NoTrustedKeys
  | Some keys =>
      match Verify keys contextManifestForChain sm Unmarshal with
      | Err e => Err (ManifestSignature e)
      | Ok (_, m) =>
          if negb (bool_decide (Product m = c_Product cfg)) then Err WrongProduct
          else if negb (bool_decide (OS m = c_OS cfg)) || negb (bool_decide (Arch m = c_Arch cfg))
          then Err WrongPlatform
          else if negb (validVersion (m_Version m)) then Err BadVersion
          else if negb (IsZero minCreatedAt) && Before (CreatedAt m) minCreatedAt then Err Downgrade
          else if negb (validSHA256 (SHA256 m)) then Err BadSHA256
          else if Size m <=? 0 then Err BadSize
          else Ok m
      end
  end.

Definition remove_tmp (v : string) : M unit :=
  attempt tt (λ n, (tt, n <| files ::= delete (v, tmp_name) |>)).

(** At most [size + 1] bytes of the body are kept. *)
Definition download (answer : blob_answer) (m : Manifest) : M bool :=
  match answer with
  | NoBlob => mret false
  | Blob body complete =>
      opened ← attempt false (λ n, (true, n <| files ::= <[(m_Version m, tmp_name) := []]> |>));
      if negb opened then mret false
      else
        let got := take (Z.to_nat (wrap_i64 (Size m + 1))) body in
        wrote ← attempt false (λ n, (true, n <| files ::= <[(m_Version m, tmp_name) := got]> |>));
        mret (wrote && complete && (Z.of_nat (length got) =? Size m))
  end.

Definition Install (minCreatedAt : Z) (sm : option Signed) (blob : string → blob_answer)
    : M (result install_err Manifest) :=
  trusted ← read Trusted;
  match check_manifest minCreatedAt trusted sm with
  | Err e => mret (Err e)
  | Ok m =>
      let v := m_Version m in
      made ← attempt false (λ n, (true, n <| dirs ::= union {[v]} |>));
      if negb made then mret (Err FileError)
      else
        ok ← download (blob (BlobPath m)) m;
        if negb ok then _ ← remove_tmp v; mret (Err DownloadFailed)
        else
          content ← attempt None (λ n, (files n !! (v, tmp_name), n));
          match content with
          | None => _ ← remove_tmp v; mret (Err FileError)
          | Some b =>
              match VerifyBlob m (Some b) with
              | Some e => _ ← remove_tmp v; mret (Err (BlobInvalid e))
              | None =>
                  executable ← attempt false (λ n, (true, n));
                  if negb executable then _ ← remove_tmp v; mret (Err FileError)
                  else
                    renamed ← attempt false (λ n,
                      match files n !! (v, tmp_name) with
                      | Some b => (true, n <| files ::= λ f, <[(v, BinaryName) := b]> (delete (v, tmp_name) f) |>)
                      | None => (false, n)
                      end);
                    if negb renamed then _ ← remove_tmp v; mret (Err FileError) else mret (Ok m)
              end
          end
  end.

(** ** The health gate (health.go) *)

Inductive gate : Type := GatePassed | GateTimeout | GateInterrupted | GateStuck.

Definition poll_interval : Z := 250000000.

(** [fuel] bounds the polls; [HealthGateSince] gives one that is never used up. *)
Fixpoint healthGate (fuel : nat) (since timeout : Z) : M gate :=
  match fuel with
  | O => mret GateStuck
  | S fuel =>
      fi ← read health_file;
      if match fi with Some mtime => negb (Before mtime since) | None => false end then mret GatePassed
      else
        t ← now;
        if After t (since + timeout) then mret GateTimeout
        else
          done ← read shutdown;
          if (done : bool) then mret GateInterrupted
          else _ ← sleep poll_interval; healthGate fuel since timeout
  end.

Definition polls (window : Z) : nat := Z.to_nat (window / poll_interval) + 2.

Definition HealthGateSince (since timeout : Z) : M gate := healthGate (polls timeout) since timeout.

(** ** Pruning (prune.go) *)

Definition Prune (keep : list string) : M unit :=
  ents ← attempt None (λ n, (Some (dirs n), n));
  match ents with
  | None => mret tt
  | Some ents =>
      each (elements ents) (λ name,
        if bool_decide (name ≠ "") && contains keep name then mret tt
        else attempt tt (λ n,
               (tt, n <| files ::= filter (λ f, f.1.1 ≠ name) |> <| dirs ::= λ d, d ∖ {[name]} |>)))
  end.

End Update.

(** ** The poll of the controller (httpclient.go) *)

Inductive fetch_err : Type := NoAnswer | BadStatus (status : Z) | BadBody.

(** [resp] is the status and the body, when the request succeeded. *)
Definition FetchDesired `{JSONDecode DesiredVersionResponse} (resp : option (Z * bytes))
    : result fetch_err (option DesiredVersionResponse) :=
  match resp with
  | None => Err NoAnswer
  | Some (status, body) =>
      if status =? 204 then Ok None
      else if negb (status =? 200) then Err (BadStatus status)
      else
        let body := take (Z.to_nat (2 ^ 20)) body in
        if forallb (λ b, is_space (ascii_of_byte b)) body then Ok None
        else match Unmarshal body with
             | None => Err BadBody
             | Some d => if bool_decide (d_Version d = "") then Ok None else Ok (Some d)
             end
  end.
