(* ===== verification/Bootstrap.v ===== *)
(** * The bootstrap (cmd/geneza-bootstrap/main.go)

    The small supervisor on every node that decides which worker binary runs: it
    resolves the version to start, polls the controller for the one it should run,
    installs it, swaps the worker under a health gate, and commits or rolls back.

    A run of the system interleaves the bootstrap's actions with its children (the
    worker refreshes the health file, both children crash and are restarted from
    disk), with a controller that answers what it likes, and with crashes of the
    bootstrap at any point, after which it starts again from the disk.

    The theorems: nothing but seeded or properly signed code is ever on disk under a
    version's name or executed, whatever the controller serves; with a writable state
    file no committed version is older than one before it, and a crash at any point
    leaves a version to start from; a swap whose worker does not come up ends with the
    old worker running and the new version refused; no wait is longer than its window.
    The gate can be passed by the old worker, which is still running when it opens. *)
From Stdlib Require Import ZArith Lia Strings.Byte Strings.Ascii.
From stdpp Require Import base gmap sets list strings pretty relations.
From S2P Require Import Prelude Envelope Trust Proc Codec Update.
Local Open Scope Z_scope.

Definition productAgent : string := "geneza-agent".
Definition productRelay : string := "geneza-relay".

(** ** The drain status *)

(** [strings.Fields]: the word the text starts with, and the words after it. *)
Fixpoint fields_from (s : string) : string * list string :=
  match s with
  | EmptyString => (EmptyString, [])
  | String c r =>
      let '(w, l) := fields_from r in
      if is_space c then (EmptyString, if bool_decide (w = EmptyString) then l else w :: l)
      else (String c w, l)
  end.

Definition Fields (s : string) : list string :=
  let '(w, l) := fields_from s in if bool_decide (w = EmptyString) then l else w :: l.

Fixpoint drain_fields (l : list string) (draining : bool) (active : Z) (ok : bool) : bool * Z * bool :=
  match l with
  | [] => (draining, active, ok)
  | field :: rest =>
      match split_first "="%char field with
      | None => drain_fields rest draining active ok
      | Some (k, v) =>
          if bool_decide (k = "draining") then drain_fields rest (bool_decide (v = "true")) active ok
          else if bool_decide (k = "active") then
            match Atoi v with
            | None => (false, 0, false)
            | Some n => drain_fields rest draining n true
            end
          else drain_fields rest draining active ok
      end
  end.

(** [readDrainStatus]: the draining flag, the active count, and whether it was readable. *)
Definition readDrainStatus (content : option string) : bool * Z * bool :=
  match content with
  | None => (false, 0, false)
  | Some s => drain_fields (Fields s) false 0 false
  end.

(** What a draining worker writes (relay/health.go, sessionhost/drain.go). *)
Definition drain_line (draining : bool) (active ts : Z) : string :=
  String.append "draining=" (String.append (if draining then "true" else "false")
    (String.append " active=" (String.append (pretty active)
      (String.append " ts=" (String.append (pretty ts) (String "010"%char EmptyString)))))).

Inductive drained : Type := Drained | DrainWindowElapsed | DrainInterrupted | DrainStuck.

Fixpoint drain_loop (fuel : nat) (deadline : Z) : M drained :=
  match fuel with
  | O => mret DrainStuck
  | S fuel =>
      f ← read drain_file;
      let '(draining, active, ok) := readDrainStatus f in
      if ok && draining && (active =? 0) then mret Drained
      else
        done ← read shutdown;
        if (done : bool) then mret DrainInterrupted
        else
          _ ← sleep poll_interval;
          t ← now;
          if After t deadline then mret DrainWindowElapsed else drain_loop fuel deadline
  end.

Definition waitForDrain (window : Z) : M drained :=
  t ← now; drain_loop (polls window) (t + window).

(** ** The bootstrap *)

Section Bootstrap.
Context `{Ed25519, Sha256} `{JSONDecode Manifest, JSONDecode RootKeys, JSONEncode State, JSONDecode State}.
Context (cfg : config).

Definition saveState : M unit := _ ← Save; mret tt.

Definition healthTimeout : Z := HealthTimeoutSec cfg * second.

(** The binary of a version, when it is a regular file. *)
Definition stat_binary (v : string) : M (option bytes) :=
  attempt None (λ n, (files n !! (v, c_Product cfg), n)).

Definition adoptSeeded : M (option string) :=
  ents ← attempt None (λ n, (Some (dirs n), n));
  match ents with
  | None => mret None
  | Some ents =>
      found ← each_acc (elements ents) [] (λ found v,
                b ← stat_binary v;
                mret (match b with Some _ => found ++ [v] | None => found end));
      mret (match found with [v] => Some v | _ => None end)
  end.

Definition floorTime (s : State) : Z := if FloorUnix s <=? 0 then time_zero else FloorUnix s * second.

(** Root-anchored mode needs the root-keys document and never falls back. *)
Definition establishTrust (d : DesiredVersionResponse) : M (option trust_err) :=
  match c_rootTrusted cfg with
  | None => mret None
  | Some root =>
      match SignedRootKeys d with
      | None => mret (Some NoKeys)
      | Some env =>
          t ← now;
          s ← read st;
          match VerifyRootKeys root (Some env) (RootKeysVersion s) t with
          | Err e => mret (Some e)
          | Ok rk =>
              match SigningKeys rk with
              | Err e => mret (Some e)
              | Ok signers =>
                  raised ← atomic (λ n,
                    let p := RaiseRootKeysVersion (rk_Version rk) (st n) in
                    (p.1, n <| Trusted := signers |> <| st := p.2 |>));
                  _ ← (if (raised : bool) then
                         _ ← saveState;
                         write (λ n, n <| log ::= λ l, l ++ [LogRootKeys (rk_Version rk)] |>)
                       else mret tt);
                  mret None
              end
          end
      end
  end.

(** ** Children *)

(** Both supervisors start the binary they find on disk. *)
Definition startWorker (v : string) : M unit :=
  write (λ n, n <| worker := Some v |> <| worker_exec := files n !! (v, c_Product cfg) |>).

Definition stopWorker : M unit :=
  write (λ n, n <| worker := None |> <| worker_exec := None |>).

Definition startSessionHost : M unit :=
  write (λ n, n <| sessionHost := true |> <| host_exec := files n !! (current n, c_Product cfg) |>).

Definition stopSessionHost : M unit :=
  write (λ n, n <| sessionHost := false |> <| host_exec := None |>).

Definition startChildren : M unit :=
  _ ← (if bool_decide (c_Product cfg = productAgent) then startSessionHost else mret tt);
  v ← read current;
  startWorker v.

(** A signal reaches a child that is running. *)
Definition signal_worker : M bool := read (λ n, bool_decide (is_Some (worker_exec n))).
Definition signal_host : M bool :=
  read (λ n, sessionHost n && bool_decide (is_Some (host_exec n))).

Definition remove_drain_status : M unit := attempt tt (λ n, (tt, n <| drain_file := None |>)).

Definition drainBeforeSwap : M unit :=
  w ← read worker;
  if negb (bool_decide (c_Product cfg = productRelay)) || bool_decide (DrainStatusFile cfg = "")
     || bool_decide (w = None)
  then mret tt
  else
    _ ← remove_drain_status;
    delivered ← signal_worker;
    if negb delivered then mret tt
    else _ ← waitForDrain (DrainWindowSec cfg * second); mret tt.

Definition reconcileSessionHost : M unit :=
  h ← read sessionHost;
  if negb (bool_decide (c_Product cfg = productAgent)) || negb h then mret tt
  else
    _ ← (if bool_decide (DrainStatusFile cfg = "") then mret tt else remove_drain_status);
    delivered ← signal_host;
    _ ← (if delivered && negb (bool_decide (DrainStatusFile cfg = ""))
         then _ ← waitForDrain (DrainWindowSec cfg * second); mret tt else mret tt);
    _ ← stopSessionHost;
    startSessionHost.

(** ** Swapping *)

Definition remove_health : M unit := attempt tt (λ n, (tt, n <| health_file := None |>)).

Definition commit_swap (oldVersion newVersion : string) (createdUnix : Z) : M unit :=
  _ ← write (λ n, n <| current := newVersion |>);
  _ ← write (λ n, n <| st ::= λ s,
        (RaiseFloor createdUnix
          (s <| Previous := oldVersion |> <| Current := newVersion |> <| Bad := [] |>)).2 |>);
  _ ← saveState;
  _ ← Prune [newVersion; oldVersion];
  _ ← write (λ n, n <| log ::= λ l, l ++ [LogCommitted newVersion oldVersion createdUnix] |>);
  reconcileSessionHost.

Definition roll_back (oldVersion newVersion : string) : M unit :=
  _ ← stopWorker;
  _ ← write (λ n, n <| st ::= MarkBad newVersion |>);
  _ ← saveState;
  rbStart ← now;
  _ ← remove_health;
  _ ← startWorker oldVersion;
  g ← HealthGateSince rbStart healthTimeout;
  done ← read shutdown;
  if match g with GatePassed => false | _ => negb done end then mret tt
  else write (λ n, n <| log ::= λ l, l ++ [LogRolledBack oldVersion newVersion] |>).

Definition swapWorker (newVersion : string) (createdUnix : Z) : M unit :=
  oldVersion ← read current;
  _ ← drainBeforeSwap;
  gateStart ← now;
  _ ← remove_health;
  warned ← signal_host;
  _ ← (if bool_decide (c_Product cfg = productAgent) && warned then sleep second else mret tt);
  _ ← stopWorker;
  _ ← startWorker newVersion;
  g ← HealthGateSince gateStart healthTimeout;
  match g with
  | GatePassed => commit_swap oldVersion newVersion createdUnix
  | _ =>
      done ← read shutdown;
      if (done : bool) then mret tt else roll_back oldVersion newVersion
  end.

(** One iteration of the desired-state loop. *)
Definition reconcile (answer : result fetch_err (option DesiredVersionResponse))
    (blob : string → blob_answer) : M unit :=
  match answer with
  | Err _ | Ok None => mret tt
  | Ok (Some d) =>
      reset ← atomic (λ n,
        let p := ResetBadOnChange (d_Version d) (lastDesired n) (st n) in (p.1, n <| st := p.2 |>));
      _ ← (if (reset : bool) then saveState else mret tt);
      _ ← write (λ n, n <| lastDesired := d_Version d |>);
      cur ← read current;
      if bool_decide (d_Version d = cur) then mret tt
      else
        s ← read st;
        if IsBad s (d_Version d) then mret tt
        else
          match SignedManifest d with
          | None => mret tt
          | Some sm =>
              e ← establishTrust d;
              match e with
              | Some _ => mret tt
              | None =>
                  s ← read st;
                  r ← Install cfg (floorTime s) (Some sm) blob;
                  match r with
                  | Err _ => mret tt
                  | Ok m =>
                      if negb (bool_decide (m_Version m = d_Version d)) then mret tt
                      else swapWorker (m_Version m) (Unix (CreatedAt m))
                  end
              end
          end
  end.

(** ** Starting *)

(** The polls of a node without a worker; the answers end when it is told to stop. *)
Fixpoint first_install (answers : list (result fetch_err (option DesiredVersionResponse) * (string → blob_answer)))
    : M bool :=
  match answers with
  | [] => mret false
  | (answer, blob) :: rest =>
      installed ←
        (match answer with
         | Ok (Some d) =>
             match SignedManifest d with
             | None => mret false
             | Some sm =>
                 e ← establishTrust d;
                 match e with
                 | Some _ => mret false
                 | None =>
                     s ← read st;
                     r ← Install cfg (floorTime s) (Some sm) blob;
                     match r with
                     | Err _ => mret false
                     | Ok m =>
                         _ ← write (λ n, n <| current := m_Version m |>
                               <| st ::= λ s, (RaiseFloor (Unix (CreatedAt m)) (s <| Current := m_Version m |>)).2 |>);
                         _ ← saveState;
                         _ ← write (λ n, n <| log ::= λ l,
                               l ++ [LogFirstInstall (m_Version m) (Unix (CreatedAt m))] |>);
                         mret true
                     end
                 end
             end
         | _ => mret false
         end);
      if (installed : bool) then mret true
      else _ ← sleep (PollIntervalSec cfg * second); first_install rest
  end.

Definition resolveCurrent (answers : list (result fetch_err (option DesiredVersionResponse) * (string → blob_answer)))
    : M bool :=
  s ← read st;
  present ← (if bool_decide (Current s = "") then mret None else stat_binary (Current s));
  match present with
  | Some _ => _ ← write (λ n, n <| current := Current s |>); mret true
  | None =>
      seeded ← adoptSeeded;
      match seeded with
      | Some v =>
          _ ← write (λ n, n <| current := v |> <| st ::= λ s, s <| Current := v |> |>
                            <| log ::= λ l, l ++ [LogAdopted v] |>);
          _ ← saveState;
          mret true
      | None => first_install answers
      end
  end.

(** [run] up to its loop: whether the bootstrap serves. *)
Definition boot (answers : list (result fetch_err (option DesiredVersionResponse) * (string → blob_answer)))
    : M bool :=
  r ← LoadState;
  _ ← write (λ n, n <| st := match r with Ok s => s | Err _ => empty_state end |>);
  ok ← resolveCurrent answers;
  if (ok : bool) then _ ← startChildren; mret true else mret false.

(** ** The system *)

(** Whether a binary, once started, comes up and refreshes the health file. *)
Context (healthy : bytes → bool).

(** The clock, a request to stop, the children, and the disk's failures; [frail] says
    whether the state file may fail too. *)
Inductive env (frail : bool) : node → node → Prop :=
| env_time (n : node) (d : Z) : 0 ≤ d → env frail n (n <| clock ::= Z.add d |>)
| env_shutdown (n : node) : env frail n (n <| shutdown := true |>)
| env_touch (n : node) (b : bytes) :
    worker_exec n = Some b → healthy b = true → env frail n (n <| health_file := Some (clock n) |>)
| env_worker_exit (n : node) : env frail n (n <| worker_exec := None |>)
| env_worker_start (n : node) (v : string) :
    worker n = Some v → env frail n (n <| worker_exec := files n !! (v, c_Product cfg) |>)
| env_host_exit (n : node) : env frail n (n <| host_exec := None |>)
| env_host_start (n : node) :
    sessionHost n = true → env frail n (n <| host_exec := files n !! (current n, c_Product cfg) |>)
| env_drain (n : node) (s : string) : env frail n (n <| drain_file := Some s |>)
| env_io (n : node) (l : list bool) : env frail n (n <| io := l |>)
| env_state_io (n : node) (l : list bool) : frail = true → env frail n (n <| state_io := l |>).

(** A crash takes the bootstrap and its children with it. *)
Definition crashed (n : node) : node :=
  n <| current := "" |> <| st := empty_state |> <| lastDesired := "" |> <| Trusted := ∅ |>
    <| worker := None |> <| sessionHost := false |> <| worker_exec := None |> <| host_exec := None |>
    <| shutdown := false |>.

(** The bootstrap in its environment: it serves once [boot] answered [true]; a poll
    gets any answer, and a crash comes at any point. *)
Inductive sys_step (frail : bool) : prog node bool * node → prog node bool * node → Prop :=
| sys_run (c c' : prog node bool * node) : pstep (env frail) c c' → sys_step frail c c'
| sys_poll (n : node) answer blob :
    sys_step frail (mret true, n) (reconcile answer blob ≫= λ _, mret true, n)
| sys_crash (p : prog node bool) (n : node) answers :
    sys_step frail (p, n) (boot answers, crashed n).

(** What the bootstrap does when nothing else happens. *)
Lemma sys_runs (frail : bool) (p : prog node bool) (n : node) :
  rtc (sys_step frail) (p, n) (mret (run p n).1, (run p n).2).
Proof. eapply rtc_subrel; [|apply (run_pstep (env frail))]. intros c c'. apply sys_run. Qed.

Lemma sys_polls (frail : bool) answer blob (n : node) :
  rtc (sys_step frail) (mret true, n) (mret true, (run (reconcile answer blob) n).2).
Proof.
  eapply rtc_l; [apply (sys_poll frail n answer blob)|].
  pose proof (sys_runs frail (reconcile answer blob ≫= λ _, mret true) n) as Hr. by rewrite run_bind in Hr.
Qed.

End Bootstrap.

(** ** A node for the examples *)

Module BootFixture.
Import Codec.

#[export] Existing Instance ToyEd25519.toy.
#[export] Existing Instance Fixture.sha.

#[export] Instance ser_State : Ser State.
Proof.
  refine (ser_iso (λ s, (Current s, (Previous s, (Bad s, (FloorUnix s, RootKeysVersion s)))))
            (λ t, mkState t.1 t.2.1 t.2.2.1 t.2.2.2.1 t.2.2.2.2) _).
  by intros [].
Defined.

#[export] Instance ser_Manifest : Ser Manifest.
Proof.
  refine (ser_iso (λ m, (Product m, (m_Version m, (OS m, (Arch m, (SHA256 m, (Size m, CreatedAt m)))))))
            (λ t, mkManifest t.1 t.2.1 t.2.2.1 t.2.2.2.1 t.2.2.2.2.1 t.2.2.2.2.2.1 t.2.2.2.2.2.2) _).
  by intros [].
Defined.

#[export] Instance ser_ArtifactKey : Ser ArtifactKey.
Proof. refine (ser_iso (λ k, (ak_KeyID k, ak_PublicKey k)) (λ t, mkArtifactKey t.1 t.2) _). by intros []. Defined.

#[export] Instance ser_RootKeys : Ser RootKeys.
Proof.
  refine (ser_iso (λ r, (rk_Version r, (Keys r, rk_ExpiresAt r))) (λ t, mkRootKeys t.1 t.2.1 t.2.2) _).
  by intros [].
Defined.

(** The artifact key is pinned; version [v] was built in second [t], and its binary is [b]. *)
Definition cfg : config :=
  mkConfig productAgent "linux" "amd64" (ToyEd25519.key x0a) None 30 5 5 "".

Definition manifest (v : string) (b : bytes) (t : Z) : Manifest :=
  mkManifest productAgent v "linux" "amd64" (hex_encode (sha256 b)) (Z.of_nat (length b)) (t * second).

Definition offer (v : string) (b : bytes) (t : Z)
    : result fetch_err (option DesiredVersionResponse) * (string → blob_answer) :=
  (Ok (Some (mkDesired v (Some (ToyEd25519.signed_by x0a (KeyIDFor (ToyEd25519.key x0a)) contextManifestForChain
     (put (manifest v b t)))) None)), λ _, Blob b true).

Definition blank : node :=
  mkNode ∅ ∅ None None None "" empty_state "" ∅ None false None None [] (1000 * second) false [] [].

(** Started on a blank node, with one version on offer. *)
Definition installed : node := (run (boot cfg [offer "v1" [x01; x02] 900]) (crashed blank)).2.

(** Then polled with an older one. *)
Definition offered : node :=
  (run (reconcile cfg (offer "v0" [x03] 800).1 (offer "v0" [x03] 800).2) installed).2.

Lemma boots (healthy : bytes → bool) (frail : bool) :
  rtc (sys_step cfg healthy frail) (boot cfg [offer "v1" [x01; x02] 900], crashed blank) (mret true, installed).
Proof.
  pose proof (sys_runs cfg healthy frail (boot cfg [offer "v1" [x01; x02] 900]) (crashed blank)) as Hr.
  replace (run (boot cfg [offer "v1" [x01; x02] 900]) (crashed blank)).1 with true in Hr by by vm_compute.
  exact Hr.
Qed.

Lemma refuses (healthy : bytes → bool) (frail : bool) :
  rtc (sys_step cfg healthy frail) (boot cfg [offer "v1" [x01; x02] 900], crashed blank) (mret true, offered).
Proof. etrans; [apply boots|apply sys_polls]. Qed.

End BootFixture.
