(* ===== verification/Updating.v ===== *)
(** * What the bootstrap guarantees

    Theorems on the system of Bootstrap.v: its bootstrap, its children, an arbitrary
    controller, failing disks and crashes at any point. *)
From Stdlib Require Import ZArith Lia Strings.Byte Strings.Ascii.
From stdpp Require Import base gmap sets list strings pretty relations.
From S2P Require Import Prelude Envelope Trust Proc Codec Update Bootstrap.
Local Open Scope Z_scope.

Section Updating.
Context `{Ed25519, Sha256} `{JSONDecode Manifest, JSONDecode RootKeys, JSONEncode State, JSONDecode State}.
Context (cfg : config) (healthy : bytes → bool).

Abbreviation product := (c_Product cfg).

(** An invariant of the system: kept by the environment and by crashes, and by the two
    programs the bootstrap runs, which find [P] when they may and leave it. *)
Lemma sys_safe (frail : bool) (I P C : node → Prop) (c c' : prog node bool * node) :
  (∀ s s', I s → env cfg healthy frail s s' → I s') →
  stable (env cfg healthy frail) I P →
  (∀ n, I n → I (crashed n) ∧ C (crashed n)) →
  (∀ answers, triple (env cfg healthy frail) I C (boot cfg answers) (λ ok n, ok = true → P n)) →
  (∀ answer blob, triple (env cfg healthy frail) I P (reconcile cfg answer blob) (λ _, P)) →
  rtc (sys_step cfg healthy frail) c c' →
  safe (env cfg healthy frail) I c.1 (λ ok n, ok = true → P n) c.2 →
  I c'.2 ∧ safe (env cfg healthy frail) I c'.1 (λ ok n, ok = true → P n) c'.2.
Proof.
  intros HE HP HC Hb Hr Hs. induction Hs as [c|c1 c2 c3 Hs _ IH]; intros Hc.
  - split; [|done]. destruct c as [[] n]; apply (Hc n (rtc_refl _ _)).
  - apply IH. clear IH. destruct Hs as [c c' Hp|n answer blob|p n answers]; simpl in *.
    + by apply (safe_pstep _ _ c c' _ (rtc_once _ _ Hp)).
    + destruct (Hc n (rtc_refl _ _)) as [HI HQ]. apply (safe_bind _ _ _ _ (λ _, P)); [by apply Hr, HQ|].
      intros _ s HI' Hs. apply (triple_ret _ _ HE P); auto.
    + assert (I n) as HI by (destruct p; apply (Hc n (rtc_refl _ _))). destruct (HC n HI). by apply Hb.
Qed.

(** ** Authenticity *)

(** The keys a manifest may be signed with: the pinned one or, when a root is pinned,
    a set that root signed. *)
Definition authorized_keys (keys : keyset) : Prop :=
  match c_rootTrusted cfg with
  | None => keys = {[KeyIDFor (c_Pub cfg) := c_Pub cfg]}
  | Some root => ∃ doc v t rk, VerifyRootKeys root (Some doc) v t = Ok rk ∧ SigningKeys rk = Ok keys
  end.

(** A binary a manifest for this product, platform and version vouches for. *)
Definition signed_for (v : string) (b : bytes) : Prop :=
  ∃ keys sm k m, authorized_keys keys ∧ Verify keys contextManifestForChain sm Unmarshal = Ok (k, m) ∧
    Product m = product ∧ OS m = c_OS cfg ∧ Arch m = c_Arch cfg ∧ m_Version m = v ∧
    Z.of_nat (length b) = Size m ∧ hex_encode (sha256 b) = SHA256 m.

Context (seeded : gmap (string * string) bytes).

Definition genuine (v : string) (b : bytes) : Prop := seeded !! (v, product) = Some b ∨ signed_for v b.

Definition runs_genuine (n : node) : Prop :=
  (∀ v b, files n !! (v, product) = Some b → genuine v b) ∧
  (∀ b, worker_exec n = Some b → ∃ v, genuine v b) ∧
  (∀ b, host_exec n = Some b → ∃ v, genuine v b).

Definition trust_ok (n : node) : Prop :=
  if bool_decide (c_rootTrusted cfg = None) then Trusted n = ∅
  else Trusted n ≠ ∅ → authorized_keys (Trusted n).

Definition authentic (n : node) : Prop := runs_genuine n ∧ trust_ok n.

(** A step that keeps what is on disk, in memory and running genuine. *)
Definition keeps (n n' : node) : Prop := authentic n → authentic n'.

Lemma attempt_keeps {A : Type} (fail : A) (act : node → A * node) :
  (∀ n, keeps n (act n).2) → acts keeps (attempt fail act).
Proof.
  intros Ha. apply acts_atomic. intros n Hn. unfold attempt.
  assert (authentic (n <| io ::= tail |>)) as Hn' by exact Hn.
  destruct (default true (head (io n))); [by apply Ha|done].
Qed.

Lemma env_keeps (frail : bool) (n n' : node) : authentic n → env cfg healthy frail n n' → authentic n'.
Proof.
  intros [(Hf & Hw & Hh) Ht] He. destruct He; (split; [|exact Ht]); split_and!; simpl; try done.
  - intros b Hb. exists v. by apply Hf.
  - intros b Hb. exists (current n). by apply Hf.
Qed.

(** The step changes nothing the property speaks of. *)
Ltac keeps_frame := let Hn := fresh in intros ? Hn; exact Hn.

Lemma read_keeps {X : Type} (f : node → X) : acts keeps (read f).
Proof. apply acts_atomic. by intros n Hn. Qed.

Lemma write_keeps (f : node → node) : (∀ n, keeps n (f n)) → acts keeps (write f).
Proof. intros Hf. by apply acts_atomic. Qed.

Lemma saveState_keeps : acts keeps saveState.
Proof.
  unfold saveState, Save. acts_split. apply acts_atomic. intros n Hn.
  destruct (Marshal (st n)); [|done]. by destruct (default true (head (state_io n))).
Qed.

Lemma healthGate_keeps (fuel : nat) (since timeout : Z) : acts keeps (healthGate fuel since timeout).
Proof.
  induction fuel; [done|]. cbn [healthGate drain_loop]. unfold now, sleep. acts_split; first [done|apply read_keeps|apply write_keeps; keeps_frame].
Qed.

Lemma drain_loop_keeps (fuel : nat) (deadline : Z) : acts keeps (drain_loop fuel deadline).
Proof.
  induction fuel; [done|]. cbn [healthGate drain_loop]. unfold now, sleep. acts_split; first [done|apply read_keeps|apply write_keeps; keeps_frame].
Qed.

Lemma waitForDrain_keeps (window : Z) : acts keeps (waitForDrain window).
Proof. unfold waitForDrain, now. acts_split; [apply read_keeps|apply drain_loop_keeps]. Qed.

Lemma startWorker_keeps (v : string) : acts keeps (startWorker cfg v).
Proof.
  apply write_keeps. intros n [(Hf & Hw & Hh) Ht]. split; [|exact Ht]. split_and!; simpl; [done| |done].
  intros b Hb. exists v. by apply Hf.
Qed.

Lemma startSessionHost_keeps : acts keeps (startSessionHost cfg).
Proof.
  apply write_keeps. intros n [(Hf & Hw & Hh) Ht]. split; [|exact Ht]. split_and!; simpl; [done|done|].
  intros b Hb. exists (current n). by apply Hf.
Qed.

Lemma stopWorker_keeps : acts keeps stopWorker.
Proof. apply write_keeps. intros n [(Hf & Hw & Hh) Ht]. split; [|exact Ht]. by split_and!. Qed.

Lemma stopSessionHost_keeps : acts keeps stopSessionHost.
Proof. apply write_keeps. intros n [(Hf & Hw & Hh) Ht]. split; [|exact Ht]. by split_and!. Qed.

Lemma Prune_keeps (keep : list string) : acts keeps (Prune keep).
Proof.
  unfold Prune. acts_split; apply attempt_keeps; [keeps_frame|].
  intros n [(Hf & Hw & Hh) Ht]. split; [|exact Ht]. split_and!; simpl; [|done|done].
  intros v b [Hb _]%map_lookup_filter_Some. by apply Hf.
Qed.

#[local] Hint Resolve saveState_keeps healthGate_keeps waitForDrain_keeps startWorker_keeps
  startSessionHost_keeps Prune_keeps stopWorker_keeps stopSessionHost_keeps read_keeps : steps.
#[local] Hint Extern 1 (acts keeps (write _)) => apply write_keeps; keeps_frame : steps.
#[local] Hint Extern 1 (acts keeps (attempt _ _)) => apply attempt_keeps; keeps_frame : steps.

Lemma swapWorker_keeps (v : string) (created : Z) : acts keeps (swapWorker cfg v created).
Proof.
  unfold swapWorker, drainBeforeSwap, commit_swap, roll_back, reconcileSessionHost, HealthGateSince, now, sleep,
    remove_health, remove_drain_status, signal_worker, signal_host.
  handler_steps.
Qed.

Lemma startChildren_keeps : acts keeps (startChildren cfg).
Proof. unfold startChildren. handler_steps. Qed.

(** Trust is established before an installation. *)
Definition armed (n : node) : Prop := c_rootTrusted cfg ≠ None → Trusted n ≠ ∅.

Lemma env_armed (frail : bool) : stable (env cfg healthy frail) authentic armed.
Proof. intros n n' _ Hn He. by destruct He. Qed.

Lemma string_length_app (s t : string) : String.length (String.append s t) = (String.length s + String.length t)%nat.
Proof. induction s; simpl; auto. Qed.

Context (Hproduct : product ≠ "").

Lemma binary_name : BinaryName cfg = product.
Proof using Hproduct. unfold BinaryName. by rewrite bool_decide_eq_false_2. Qed.

Lemma tmp_not_binary : tmp_name cfg ≠ product.
Proof using Hproduct.
  unfold tmp_name. rewrite binary_name. intros E. apply (f_equal String.length) in E.
  cbn in E. rewrite string_length_app in E. lia.
Qed.

Lemma tmp_keeps (f : node → gmap (string * string) bytes → gmap (string * string) bytes) (v : string) (n : node) :
  (∀ m w, f n m !! (w, product) = m !! (w, product)) → keeps n (n <| files ::= f n |>).
Proof.
  intros Hf [(Hd & Hw & Hh) Ht]. split; [|exact Ht]. split_and!; simpl; [|done|done].
  intros w b. rewrite Hf. apply Hd.
Qed.

Lemma tmp_insert_keeps (v : string) (b : bytes) (n : node) :
  keeps n (n <| files ::= <[(v, tmp_name cfg) := b]> |>).
Proof using Hproduct.
  apply (tmp_keeps (λ _, <[(v, tmp_name cfg) := b]>) v). intros m w. apply lookup_insert_ne.
  intros [= _ E]. by apply tmp_not_binary.
Qed.

Lemma remove_tmp_keeps (v : string) : acts keeps (remove_tmp cfg v).
Proof using Hproduct.
  apply attempt_keeps. intros n. apply (tmp_keeps (λ _, delete (v, tmp_name cfg)) v). intros m w.
  apply lookup_delete_ne. intros [= _ E]. by apply tmp_not_binary.
Qed.

Lemma download_keeps (answer : blob_answer) (m : Manifest) : acts keeps (download cfg answer m).
Proof using Hproduct.
  unfold download. acts_split; apply attempt_keeps; intros n; apply tmp_insert_keeps.
Qed.

(** What an accepted manifest says. *)
Definition vouched (min : Z) (m : Manifest) : Prop :=
  (∃ keys sm k, authorized_keys keys ∧ Verify keys contextManifestForChain sm Unmarshal = Ok (k, m)) ∧
  Product m = product ∧ OS m = c_OS cfg ∧ Arch m = c_Arch cfg ∧ validVersion (m_Version m) = true ∧
  (min = time_zero ∨ min ≤ CreatedAt m).

Lemma artifact_keys_ok (n : node) (keys : keyset) :
  trust_ok n → armed n → artifact_keys cfg (Trusted n) = Some keys → authorized_keys keys.
Proof.
  unfold trust_ok, armed, artifact_keys, authorized_keys. intros Ht Ha.
  destruct (bool_decide_reflect (c_rootTrusted cfg = None)) as [E|E].
  - rewrite E, Ht, map_size_empty. cbn. case_match; congruence.
  - specialize (Ha E). specialize (Ht Ha). destruct (size (Trusted n) =? 0)%nat eqn:Es; [|by intros [= <-]].
    apply Nat.eqb_eq, map_size_empty_inv in Es. done.
Qed.

Lemma check_manifest_Ok (min : Z) (trusted : keyset) (sm : option Signed) (m : Manifest) :
  (∀ keys, artifact_keys cfg trusted = Some keys → authorized_keys keys) →
  check_manifest cfg min trusted sm = Ok m → vouched min m.
Proof.
  unfold check_manifest. intros Ha. destruct (artifact_keys cfg trusted) as [keys|]; [|done].
  specialize (Ha keys eq_refl). destruct (Verify _ _ _ _) as [[k m']|] eqn:Ev; [|done].
  intros Hc. go_cases. go_bool. split; [eauto|]. split_and!; try done.
  unfold IsZero, Before in *. destruct (bool_decide_reflect (min = time_zero)); [by left|].
  right. cbn in *. by apply Z.ltb_ge.
Qed.

Lemma triple_keeps {A : Type} (frail : bool) (P : node → Prop) (p : M A) :
  acts keeps p → triple (env cfg healthy frail) authentic P p (λ _ _, True).
Proof.
  intros Hp. apply (triple_pre _ _ (λ _, True)); [done|].
  apply (triple_acts _ _ (env_keeps frail) keeps); [done| |done]. intros n n' Hn _ Hk. split; [by apply Hk|done].
Qed.

(** The bytes that were hashed are the bytes that are renamed. *)
Lemma rename_authentic (frail : bool) (m : Manifest) (min : Z) (b : bytes) :
  vouched min m → VerifyBlob m (Some b) = None →
  triple (env cfg healthy frail) authentic (λ n, files n !! (m_Version m, tmp_name cfg) = Some b)
    (attempt false (λ n,
      match files n !! (m_Version m, tmp_name cfg) with
      | Some b => (true, n <| files ::= λ f, <[(m_Version m, BinaryName cfg) := b]>
                                              (delete (m_Version m, tmp_name cfg) f) |>)
      | None => (false, n)
      end)) (λ _ _, True).
Proof using Hproduct.
  intros ((keys & sm & k & Hk & Hs) & Hp & Ho & Ha & _) Hb.
  apply triple_atomic; [apply env_keeps|by intros n n' _ Hn He; destruct He|done|].
  intros n Hn Hf. split; [|done].
  assert (authentic (n <| io ::= tail |>)) as Hn' by exact Hn.
  assert (files (n <| io ::= tail |>) !! (m_Version m, tmp_name cfg) = Some b) as Hf' by exact Hf.
  destruct (default true (head (io n))); [|done]. clear Hn Hf. generalize dependent (n <| io ::= tail |>).
  clear n. intros n Hn Hf. rewrite Hf. cbn [snd].
  destruct Hn as [(Hd & Hw & Hh) Ht]. split; [|exact Ht]. split_and!; cbn; [|done|done].
  intros v b'. rewrite binary_name. rewrite lookup_insert_Some, lookup_delete_Some.
  intros [[[= <-] <-]|[_ [_ Hv]]]; [|by apply Hd]. right. unfold VerifyBlob in Hb. go_cases. go_bool.
  exists keys, sm, k, m. by split_and!.
Qed.

Lemma Install_authentic (frail : bool) (min : Z) (sm : option Signed) (blob : string → blob_answer) :
  triple (env cfg healthy frail) authentic armed (Install cfg min sm blob) (λ _ _, True).
Proof using Hproduct.
  unfold Install.
  apply (triple_bind _ _ _ _ _ (λ trusted _,
           (∀ keys, artifact_keys cfg trusted = Some keys → authorized_keys keys) ∧ True)).
  { apply triple_read; [apply env_keeps|apply env_armed|by intros x n n' _ Hx _|]. intros n [_ Ht] Ha. split; [|done].
    intros keys. by apply artifact_keys_ok. }
  intros trusted. apply triple_pure. intros Hk.
  destruct (check_manifest cfg min trusted sm) as [m|e] eqn:Ec; [|by apply triple_keeps].
  pose proof (check_manifest_Ok _ _ _ _ Hk Ec) as Hv.
  apply (triple_bind _ _ _ _ _ (λ _ _, True)); [apply triple_keeps, attempt_keeps; keeps_frame|].
  intros made. destruct made; cbn [negb]; [|by apply triple_keeps].
  apply (triple_bind _ _ _ _ _ (λ _ _, True)); [apply triple_keeps, download_keeps|].
  intros ok. destruct ok; cbn [negb]; [|apply triple_keeps; acts_split; apply remove_tmp_keeps].
  apply (triple_bind _ _ _ _ _ (λ c n, ∀ b, c = Some b → files n !! (m_Version m, tmp_name cfg) = Some b)).
  { apply triple_atomic; [apply env_keeps|done| |].
    - intros x n n' _ Hx He b ->. destruct He; by apply Hx.
    - intros n Hn _. destruct (default true (head (io n))); split; try exact Hn; [by intros b Hb|done]. }
  intros [b|]; [|apply triple_keeps; acts_split; apply remove_tmp_keeps].
  destruct (VerifyBlob m (Some b)) as [e|] eqn:Eb;
    [apply triple_keeps; acts_split; apply remove_tmp_keeps|].
  apply (triple_bind _ _ _ _ _ (λ _ n, files n !! (m_Version m, tmp_name cfg) = Some b)).
  { apply triple_atomic; [apply env_keeps| | |].
    - intros n n' _ Hn He c [= <-]. destruct He; by apply Hn.
    - intros _ n n' _ Hn He. by destruct He.
    - intros n Hn Hf. destruct (default true (head (io n))); (split; [exact Hn|exact (Hf b eq_refl)]). }
  intros executable. destruct executable; cbn [negb];
    [|apply triple_keeps; acts_split; apply remove_tmp_keeps].
  apply (triple_bind _ _ _ _ _ (λ _ _, True)); [by apply (rename_authentic frail m min b)|].
  intros renamed. apply triple_keeps. acts_split. apply remove_tmp_keeps.
Qed.

Lemma establishTrust_authentic (frail : bool) (d : DesiredVersionResponse) :
  triple (env cfg healthy frail) authentic (λ _, True) (establishTrust cfg d) (λ e n, e = None → armed n).
Proof.
  assert (∀ e, stable (env cfg healthy frail) authentic (λ n, e = None (A:=trust_err) → armed n)) as Hst.
  { intros e n n' Hn Ha He Hx. by apply (env_armed frail n n' Hn (Ha Hx)). }
  unfold establishTrust. destruct (c_rootTrusted cfg) as [root|] eqn:Er.
  2:{ apply triple_ret; [apply env_keeps|done|]. intros n _ _ _. unfold armed. by rewrite Er. }
  destruct (SignedRootKeys d) as [doc|]; [|apply triple_ret; [apply env_keeps|done|done]].
  apply (triple_bind _ _ _ _ _ (λ _ _, True)); [apply triple_keeps, read_keeps|]. intros t.
  apply (triple_bind _ _ _ _ _ (λ _ _, True)); [apply triple_keeps, read_keeps|]. intros s.
  destruct (VerifyRootKeys root (Some doc) (RootKeysVersion s) t) as [rk|e] eqn:Ev;
    [|apply triple_ret; [apply env_keeps|done|done]].
  destruct (SigningKeys rk) as [signers|e] eqn:Es; [|apply triple_ret; [apply env_keeps|done|done]].
  assert (authorized_keys signers) as Hs by (unfold authorized_keys; rewrite Er; eauto 6).
  assert (signers ≠ ∅) as Hne.
  { unfold SigningKeys in Es. intros ->. destruct (collect_keys _ _ _ _); [|done].
    case_match eqn:E; [done|]. injection Es as ->. by rewrite map_size_empty in E. }
  apply (triple_bind _ _ _ _ _ (λ _, armed)).
  { apply triple_atomic; [apply env_keeps|done|intros _; apply env_armed|]. intros n [Hg _] _. split; [|by intros _].
    split; [exact Hg|]. unfold trust_ok. rewrite Er, bool_decide_eq_false_2 by done. by intros _. }
  intros raised. apply (triple_bind _ _ _ _ _ (λ _, armed)).
  - apply (triple_acts _ _ (env_keeps frail) (λ n n', keeps n n' ∧ Trusted n' = Trusted n)); [apply env_armed| |].
    + intros n n' Hn Ha [Hk E]. split; [by apply Hk|]. unfold armed. by rewrite E.
    + unfold saveState, Save. acts_split; apply acts_atomic; intros n; [|split; [intros Hn; exact Hn|done]].
      destruct (Marshal (st n)); [|split; [intros Hn; exact Hn|done]].
      destruct (default true (head (state_io n))); (split; [intros Hn; exact Hn|done]).
  - intros _. apply triple_ret; [apply env_keeps|apply env_armed|]. by intros n _ Ha _.
Qed.

Lemma reconcile_authentic (frail : bool) answer blob :
  triple (env cfg healthy frail) authentic (λ _, True) (reconcile cfg answer blob) (λ _ _, True).
Proof using Hproduct.
  unfold reconcile. destruct answer as [[d|]|e]; try (by apply triple_keeps).
  apply (triple_bind _ _ _ _ _ (λ _ _, True)); [apply triple_keeps, acts_atomic; keeps_frame|]. intros reset.
  apply (triple_bind _ _ _ _ _ (λ _ _, True)); [apply triple_keeps; handler_steps|]. intros _.
  apply (triple_bind _ _ _ _ _ (λ _ _, True)); [apply triple_keeps; handler_steps|]. intros _.
  apply (triple_bind _ _ _ _ _ (λ _ _, True)); [apply triple_keeps; handler_steps|]. intros cur.
  case_match; [by apply triple_keeps|].
  apply (triple_bind _ _ _ _ _ (λ _ _, True)); [apply triple_keeps; handler_steps|]. intros s.
  case_match; [by apply triple_keeps|]. destruct (SignedManifest d) as [sm|]; [|by apply triple_keeps].
  apply (triple_bind _ _ _ _ _ _ _ (establishTrust_authentic frail d)). intros [e|]; [by apply triple_keeps|].
  apply (triple_pre _ _ armed); [auto|].
  apply (triple_bind _ _ _ _ _ (λ _, armed)).
  { apply triple_read; [apply env_keeps|apply env_armed|intros _; apply env_armed|done]. }
  intros s'. apply (triple_bind _ _ _ _ _ _ _ (Install_authentic frail _ _ _)).
  intros [m|e]; [|by apply triple_keeps]. case_match; [by apply triple_keeps|]. apply triple_keeps, swapWorker_keeps.
Qed.

Lemma first_install_authentic (frail : bool) answers :
  triple (env cfg healthy frail) authentic (λ _, True) (first_install cfg answers) (λ _ _, True).
Proof using Hproduct.
  induction answers as [|[answer blob] rest IH]; [by apply triple_keeps|]. cbn [first_install].
  apply (triple_bind _ _ _ _ _ (λ _ _, True)).
  - destruct answer as [[d|]|e]; try (by apply triple_keeps).
    destruct (SignedManifest d) as [sm|]; [|by apply triple_keeps].
    apply (triple_bind _ _ _ _ _ _ _ (establishTrust_authentic frail d)). intros [e|]; [by apply triple_keeps|].
    apply (triple_pre _ _ armed); [auto|]. apply (triple_bind _ _ _ _ _ (λ _, armed)).
    { apply triple_read; [apply env_keeps|apply env_armed|intros _; apply env_armed|done]. }
    intros s'. apply (triple_bind _ _ _ _ _ _ _ (Install_authentic frail _ _ _)).
    intros [m|e]; [|by apply triple_keeps]. apply triple_keeps. handler_steps.
  - intros []; [by apply triple_keeps|]. apply (triple_bind _ _ _ _ _ (λ _ _, True)); [|by intros _].
    apply triple_keeps. unfold sleep. handler_steps.
Qed.

Lemma boot_authentic (frail : bool) answers :
  triple (env cfg healthy frail) authentic (λ _, True) (boot cfg answers) (λ _ _, True).
Proof using Hproduct.
  unfold boot. apply (triple_bind _ _ _ _ _ (λ _ _, True)).
  { apply triple_keeps, acts_atomic. intros n Hn. by repeat case_match. }
  intros r. apply (triple_bind _ _ _ _ _ (λ _ _, True)); [apply triple_keeps; handler_steps|]. intros _.
  apply (triple_bind _ _ _ _ _ (λ _ _, True)); [|intros []; apply triple_keeps; [|done]; acts_split; apply startChildren_keeps].
  unfold resolveCurrent. apply (triple_bind _ _ _ _ _ (λ _ _, True)); [apply triple_keeps; handler_steps|]. intros s.
  apply (triple_bind _ _ _ _ _ (λ _ _, True)); [apply triple_keeps; unfold stat_binary; handler_steps|].
  intros [b|]; [apply triple_keeps; handler_steps|].
  apply (triple_bind _ _ _ _ _ (λ _ _, True)); [apply triple_keeps; unfold adoptSeeded, stat_binary; handler_steps|].
  intros [v|]; [apply triple_keeps; handler_steps|apply first_install_authentic].
Qed.

End Updating.

(** C2 (cmd/geneza-bootstrap/main.go, update/install.go): only signed code runs.
    Whatever a controller serves, however the disk fails, and wherever the bootstrap
    crashes, every binary under a version's name, and every image the worker and the
    session host run, was there when the node was set up or is vouched for, under that
    version, by a manifest for this product and platform that the pinned key signed or,
    with a pinned root, a key that root authorizes. *)
Theorem only_signed_code_runs `{Ed25519, Sha256}
    `{JSONDecode Manifest, JSONDecode RootKeys, JSONEncode State, JSONDecode State}
    (cfg : config) (healthy : bytes → bool) (frail : bool) answers (n n' : node) (p : prog node bool) :
  c_Product cfg ≠ "" →
  rtc (sys_step cfg healthy frail) (boot cfg answers, crashed n) (p, n') →
  runs_genuine cfg (files n) n'.
Proof.
  intros Hp Hr. apply (sys_safe cfg healthy frail (authentic cfg (files n)) (λ _, True) (λ _, True)) in Hr as [[Hg _] _].
  - done.
  - by apply env_keeps.
  - done.
  - intros m [(Hd & _ & _) Ht]. split; [|done]. split.
    + by split_and!.
    + unfold trust_ok. case_match; [done|]. by intros [].
  - intros answers'. eapply triple_post; [|by apply boot_authentic]. auto.
  - intros answer blob. by apply reconcile_authentic.
  - cbn [fst snd]. eapply safe_mono; [|apply (boot_authentic cfg healthy (files n) Hp frail answers)]; [auto| |done].
    split; [split_and!; [|done|done]; intros v b Hb; by left|]. unfold trust_ok. case_match; [done|]. by intros [].
Qed.

Import Codec BootFixture.

Lemma only_signed_code_runs_witness :
  worker_exec installed = Some [x01; x02] ∧ runs_genuine cfg ∅ installed.
Proof.
  split; [by vm_compute|].
  exact (only_signed_code_runs cfg (λ _, false) true [offer "v1" [x01; x02] 900] blank installed (mret true)
    ltac:(done) (boots _ _)).
Defined.
