(* ===== verification/Committing.v ===== *)
(** * The bootstrap's state file, its versions and its waits

    With a state file that can be written, what is on disk is at every moment enough to
    start from, and committed versions only move forward; a swap whose worker does not
    come up is undone; every wait ends. *)
From Stdlib Require Import ZArith Lia Strings.Byte Strings.Ascii.
From stdpp Require Import base gmap sets list strings pretty relations sorting.
From S2P Require Import Prelude Envelope Trust Proc Codec Update Bootstrap Updating.
Local Open Scope Z_scope.

(** ** What the log tells *)

Definition created (l : list log_line) : list Z :=
  omap (λ x, match x with
             | LogFirstInstall _ t | LogCommitted _ _ t => Some (Z.max 0 t)
             | _ => None
             end) l.

Definition accepted_roots (l : list log_line) : list Z :=
  omap (λ x, match x with LogRootKeys v => Some v | _ => None end) l.

(** Build times and root-key versions climb, up to what the state holds. *)
Definition log_ok (l : list log_line) (s : State) : Prop :=
  StronglySorted Z.le (created l) ∧ Forall (λ t, t ≤ Z.max 0 (FloorUnix s)) (created l) ∧
  StronglySorted Z.lt (accepted_roots l) ∧ Forall (λ v, v ≤ RootKeysVersion s) (accepted_roots l).

Lemma sorted_snoc (R : Z → Z → Prop) (l : list Z) (x : Z) :
  StronglySorted R l → Forall (λ y, R y x) l → StronglySorted R (l ++ [x]).
Proof.
  induction 1 as [|y l Hl IH Hy]; intros Hx; cbn; [by repeat constructor|].
  apply Forall_cons in Hx as [Hyx Hx]. constructor; [by apply IH|]. apply Forall_app. split; [done|by constructor].
Qed.

Lemma log_ok_mono (l : list log_line) (s s' : State) :
  FloorUnix s ≤ FloorUnix s' → RootKeysVersion s ≤ RootKeysVersion s' → log_ok l s → log_ok l s'.
Proof.
  intros Hf Hr (H1 & H2 & H3 & H4). split_and!; try done; eapply Forall_impl; eauto; cbn; intros; lia.
Qed.

Lemma log_ok_prefix (l x : list log_line) (s : State) : log_ok (l ++ x) s → log_ok l s.
Proof.
  unfold log_ok, created, accepted_roots. rewrite !omap_app, !Forall_app. intros (H1 & [H2 _] & H3 & [H4 _]).
  split_and!; try done; [by apply StronglySorted_app in H1 as (_ & ? & _)|by apply StronglySorted_app in H3 as (_ & ? & _)].
Qed.

(** A line that says a version built at [t] was committed. *)
Definition commits (x : log_line) (t : Z) : Prop := created [x] = [Z.max 0 t] ∧ accepted_roots [x] = [].

Lemma log_ok_commit (l : list log_line) (s s' : State) (x : log_line) (t : Z) :
  commits x t → Z.max 0 (FloorUnix s) ≤ Z.max 0 t → Z.max 0 t ≤ Z.max 0 (FloorUnix s') →
  RootKeysVersion s ≤ RootKeysVersion s' → log_ok l s → log_ok (l ++ [x]) s'.
Proof.
  intros [Hc Ha] Hfloor Ht Hr Hl. assert (log_ok l s') as Hl'.
  { destruct Hl as (H1 & H2 & H3 & H4). split_and!; try done; [apply (Forall_impl _ _ _ H2)|apply (Forall_impl _ _ _ H4)]; cbn; lia. }
  destruct Hl' as (H1 & H2 & H3 & H4). destruct Hl as (_ & H2' & _). unfold log_ok, created, accepted_roots in *.
  rewrite !omap_app, Hc, Ha, app_nil_r. split_and!; try done.
  - apply sorted_snoc; [done|]. apply (Forall_impl _ _ _ H2'). cbn. lia.
  - apply Forall_app. split; [done|]. constructor; [done|constructor].
Qed.

Lemma log_ok_roots (l : list log_line) (s s' : State) (v : Z) :
  RootKeysVersion s < v → FloorUnix s' = FloorUnix s → RootKeysVersion s' = v →
  log_ok l s → log_ok (l ++ [LogRootKeys v]) s'.
Proof.
  intros Hv Hf Hr (H1 & H2 & H3 & H4). unfold log_ok, created, accepted_roots. rewrite !omap_app. cbn.
  rewrite app_nil_r, Hf, Hr. split_and!; try done.
  - apply sorted_snoc; [done|]. apply (Forall_impl _ _ _ H4). cbn. lia.
  - apply Forall_app. split; [|by constructor]. apply (Forall_impl _ _ _ H4). cbn. lia.
Qed.

Lemma log_ok_silent (l : list log_line) (s : State) (x : log_line) :
  created [x] = [] → accepted_roots [x] = [] → log_ok l s → log_ok (l ++ [x]) s.
Proof. unfold log_ok, created, accepted_roots. rewrite !omap_app. intros -> ->. by rewrite !app_nil_r. Qed.

(** Whether a version was ever committed. *)
Definition served (l : list log_line) : Prop := created l ≠ [].

(** ** The disk *)

Section Committing.
Context `{Ed25519, Sha256} `{JSONDecode Manifest, JSONDecode RootKeys, JSONEncode State, JSONDecode State}.
Context `{!JSONLaw State, !JSONTotal State}.
Context (cfg : config) (healthy : bytes → bool).

Abbreviation product := (c_Product cfg).
Abbreviation world := (env cfg healthy false).

(** What a restart would load. *)
Definition disk (n : node) : option State :=
  match state_file n with None => Some empty_state | Some b => Unmarshal b end.

Definition present (n : node) (v : string) : Prop := is_Some (files n !! (v, product)).

(** The state names a binary that is there, or no version was committed yet. *)
Definition startable (n : node) (s : State) : Prop :=
  (present n (Current s) ∧ Current s ≠ "") ∨ ¬ served (log n).

(** A version the state file can name: not empty, and UTF-8 as JSON keeps it. *)
Definition nameable (v : string) : Prop := v ≠ "" ∧ ValidString v = true.

Definition dirs_ok (n : node) : Prop := ∀ v, v ∈ dirs n → nameable v.

(** The state file never fails, and a restart finds a version to start. *)
Definition durable (n : node) : Prop :=
  state_io n = [] ∧ dirs_ok n ∧ ∃ s, disk n = Some s ∧ (startable n s ∧ text_ok s = true) ∧ log_ok (log n) s.

(** Steps that leave all of this alone but may add binaries, and what survives them;
    [tracks] survives a write of the state file too. *)
Definition adds (n n' : node) : Prop :=
  (∀ v, present n v → present n' v) ∧ (dirs_ok n → dirs_ok n') ∧
  current n' = current n ∧ st n' = st n ∧ log n' = log n ∧ state_io n' = state_io n.

Definition grows (n n' : node) : Prop := adds n n' ∧ state_file n' = state_file n.

Definition tracks (P : node → Prop) : Prop := ∀ n n', adds n n' → P n → P n'.
Definition monotone (P : node → Prop) : Prop := ∀ n n', grows n n' → P n → P n'.

Lemma startable_adds (n n' : node) (s : State) : adds n n' → startable n s → startable n' s.
Proof. intros (Hp & _ & _ & _ & El & _) [[? ?]|?]; [left; auto|right; by rewrite El]. Qed.

Lemma durable_grows (n n' : node) : grows n n' → durable n → durable n'.
Proof.
  intros [Ha Ef] (Hi & Hd & s & Hs & [Hst Ht] & Hl). pose proof Ha as (_ & Hd' & _ & _ & El & Ei).
  split_and!; [by rewrite Ei|auto|]. exists s. unfold disk. rewrite Ef, El. split_and!; [done| |done|done].
  by eapply startable_adds.
Qed.

Lemma world_grows (n n' : node) : world n n' → grows n n'.
Proof. intros He. by destruct He. Qed.

Lemma world_durable (n n' : node) : durable n → world n n' → durable n'.
Proof. intros Hd Hw. eapply durable_grows; [|done]. by apply world_grows. Qed.

Lemma tracks_monotone (P : node → Prop) : tracks P → monotone P.
Proof. intros HP n n' [Ha _]. by apply HP. Qed.

Lemma monotone_stable (P : node → Prop) : monotone P → stable world durable P.
Proof. intros HP n n' _ Hn He. eapply HP; [|done]. by apply world_grows. Qed.

Lemma triple_grows {A : Type} (P : node → Prop) (p : M A) :
  monotone P → acts grows p → triple world durable P p (λ _, P).
Proof.
  intros HP Hp. apply (triple_acts _ _ world_durable grows); [by apply monotone_stable| |done].
  intros n n' Hd Hn Hg. split; [by eapply durable_grows|by eapply HP].
Qed.

Lemma tracks_and (P Q : node → Prop) : tracks P → tracks Q → tracks (λ n, P n ∧ Q n).
Proof. intros HP HQ n n' Ha []. split; [by eapply HP|by eapply HQ]. Qed.

Lemma monotone_and (P Q : node → Prop) : monotone P → monotone Q → monotone (λ n, P n ∧ Q n).
Proof. intros HP HQ n n' Ha []. split; [by eapply HP|by eapply HQ]. Qed.

(** The state in memory may be saved. *)
Definition ready (n : node) : Prop := (startable n (st n) ∧ text_ok (st n) = true) ∧ log_ok (log n) (st n).

Lemma ready_tracks : tracks ready.
Proof.
  intros n n' Ha [[Hs Ht] Hl]. pose proof Ha as (_ & _ & _ & Es & El & _). unfold ready. rewrite Es, El.
  split; [split; [by eapply startable_adds|done]|done].
Qed.

(** Memory and disk agree. *)
Definition synced (n : node) : Prop := disk n = Some (st n).

Lemma synced_monotone : monotone synced.
Proof. intros n n' [(_ & _ & _ & Es & _) Ef]. unfold synced, disk. by rewrite Es, Ef. Qed.

Lemma durable_ready (n : node) : durable n → synced n → ready n.
Proof. intros (_ & _ & s & Hs & Hst & Hl) Hn. rewrite Hn in Hs. by injection Hs as <-. Qed.

#[local] Hint Resolve tracks_and monotone_and tracks_monotone ready_tracks synced_monotone monotone_stable : steps.

(** ** Steps that change neither state nor versions *)

Ltac grows_frame := let n := fresh in intros n; split; [by split_and!|done].

Lemma attempt_grows {A : Type} (fail : A) (act : node → A * node) :
  (∀ n, grows n (act n).2) → acts grows (attempt fail act).
Proof.
  intros Ha. apply acts_atomic. intros n. destruct (default true (head (io n))); [|done].
  destruct (Ha (n <| io ::= tail |>)) as [(H1' & H2' & H3' & H4' & H5' & H6') H7']. split; [|exact H7'].
  split_and!; assumption.
Qed.

Lemma write_grows (f : node → node) : (∀ n, grows n (f n)) → acts grows (write f).
Proof. intros Hf. by apply acts_atomic. Qed.

Lemma read_grows {X : Type} (f : node → X) : acts grows (read f).
Proof. apply acts_atomic. grows_frame. Qed.

#[local] Hint Resolve read_grows : steps.
#[local] Hint Extern 1 (acts grows (write _)) => apply write_grows; grows_frame : steps.
#[local] Hint Extern 1 (acts grows (attempt _ _)) => apply attempt_grows; grows_frame : steps.

Lemma healthGate_grows (fuel : nat) (since timeout : Z) : acts grows (healthGate fuel since timeout).
Proof. induction fuel; [done|]. cbn [healthGate]. unfold now, sleep. handler_steps. Qed.

Lemma drain_loop_grows (fuel : nat) (deadline : Z) : acts grows (drain_loop fuel deadline).
Proof. induction fuel; [done|]. cbn [drain_loop]. unfold now, sleep. handler_steps. Qed.

#[local] Hint Resolve healthGate_grows drain_loop_grows : steps.

Lemma drainBeforeSwap_grows : acts grows (drainBeforeSwap cfg).
Proof.
  unfold drainBeforeSwap, waitForDrain, remove_drain_status, signal_worker, now. handler_steps.
Qed.

Lemma reconcileSessionHost_grows : acts grows (reconcileSessionHost cfg).
Proof.
  unfold reconcileSessionHost, waitForDrain, remove_drain_status, signal_host, stopSessionHost, startSessionHost, now.
  handler_steps.
Qed.

Lemma startChildren_grows : acts grows (startChildren cfg).
Proof. unfold startChildren, startSessionHost, startWorker. handler_steps. Qed.

#[local] Hint Resolve drainBeforeSwap_grows reconcileSessionHost_grows startChildren_grows : steps.

(** ** Saving *)

Lemma saveState_triple (K : node → Prop) :
  tracks K → triple world durable (λ n, ready n ∧ K n) saveState (λ _ n, synced n ∧ K n).
Proof.
  intros HK. apply (triple_bind _ _ _ _ _ (λ _ n, synced n ∧ K n)).
  2:{ intros _. apply (triple_ret _ _ world_durable); auto with steps. }
  apply (triple_atomic _ _ world_durable); [auto with steps..|].
  intros n (Hi & Hd & s & _ & _ & _) [[Hs Hl] Hn]. destruct (marshal_total (st n)) as [b Hb]. rewrite Hb, Hi.
  cbn [head default tail fst snd].
  assert (synced (n <| state_io ::= tail |> <| state_file := Some b |>)) as Hdisk
    by (unfold synced, disk; cbn; apply unmarshal_marshal; [apply Hs|done]).
  split; [split_and!; [by cbn; rewrite Hi|done|]; by exists (st n)|].
  split; [exact Hdisk|]. eapply HK; [|exact Hn]. split_and!; try done. cbn. by rewrite Hi.
Qed.

(** ** Installing *)

Context (Hproduct : product ≠ "").

Lemma version_char_ascii (c : Ascii.ascii) : version_char c = true → in_range 0 127 c = true.
Proof. destruct c as [[] [] [] [] [] [] [] []]; vm_compute; congruence. Qed.

Lemma validVersion_utf8 (v : string) : validVersion v = true → ValidString v = true.
Proof.
  destruct v as [|c r]; [done|]. cbn [validVersion]. intros [[_ Hc]%andb_true_iff Hr]%andb_true_iff.
  assert (version_char c = true) as Hc' by (unfold version_char; by rewrite Hc). clear Hc.
  revert c Hc'. induction r as [|d r IH]; intros c Hc; cbn [ValidString]; rewrite version_char_ascii by done; [done|].
  cbn in Hr. apply andb_true_iff in Hr as [Hd Hr]. by apply IH.
Qed.

Lemma check_manifest_floor (min : Z) (trusted : keyset) (sm : option Signed) (m : Manifest) :
  check_manifest cfg min trusted sm = Ok m →
  nameable (m_Version m) ∧ (min = time_zero ∨ min ≤ CreatedAt m).
Proof.
  unfold check_manifest. intros Hc. destruct (artifact_keys cfg trusted) as [keys|]; [|done].
  destruct (Verify _ _ _ _) as [[k m']|]; [|done]. go_cases. go_bool.
  split; [split; [by intros E; rewrite E in *|by apply validVersion_utf8]|]. unfold IsZero, Before in *.
  destruct (bool_decide_reflect (min = time_zero)); [by left|]. right. cbn in *. by apply Z.ltb_ge.
Qed.

Lemma files_grows (f : gmap (string * string) bytes → gmap (string * string) bytes) (n : node) :
  (∀ m w, is_Some (m !! (w, product)) → is_Some (f m !! (w, product))) → grows n (n <| files ::= f |>).
Proof. intros Hf. split; [|done]. split_and!; try done. intros v. apply Hf. Qed.

Lemma tmp_write_grows (v : string) (b : bytes) :
  acts grows (attempt false (λ n, (true, n <| files ::= <[(v, tmp_name cfg) := b]> |>))).
Proof using Hproduct.
  apply attempt_grows. intros n. apply files_grows. intros m w Hw. rewrite lookup_insert_ne; [done|].
  intros [= _ E]. by apply (tmp_not_binary cfg).
Qed.

Lemma remove_tmp_grows (v : string) : acts grows (remove_tmp cfg v).
Proof using Hproduct.
  apply attempt_grows. intros n. apply files_grows. intros m w Hw. rewrite lookup_delete_ne; [done|].
  intros [= _ E]. by apply (tmp_not_binary cfg).
Qed.

#[local] Hint Resolve tmp_write_grows remove_tmp_grows : steps.

(** After the rename the version is there. *)
Lemma rename_present (K : node → Prop) (v : string) :
  monotone K →
  triple world durable K
    (attempt false (λ n,
      match files n !! (v, tmp_name cfg) with
      | Some b => (true, n <| files ::= λ f, <[(v, BinaryName cfg) := b]> (delete (v, tmp_name cfg) f) |>)
      | None => (false, n)
      end)) (λ ok n, K n ∧ (ok = true → present n v)).
Proof using Hproduct.
  intros HK. apply (triple_atomic _ _ world_durable); [by apply monotone_stable| |].
  { intros ok. apply monotone_stable. intros n n' Hg [Hn Hp]. split; [by eapply HK|].
    intros E. apply Hg. auto. }
  intros n Hd Hn.
  assert (∀ b, grows n (n <| io ::= tail |>
      <| files ::= λ f, <[(v, BinaryName cfg) := b]> (delete (v, tmp_name cfg) f) |>)) as Hg.
  { intros b. split; [|done]. split_and!; try done. intros w. unfold present. cbn. rewrite (binary_name cfg Hproduct).
    destruct (decide (w = v)) as [->|Hw]; [by rewrite lookup_insert_eq|].
    rewrite lookup_insert_ne, lookup_delete_ne by congruence. done. }
  destruct (default true (head (io n))).
  2:{ cbn. split; [exact Hd|]. split; [|done]. eapply HK; [|exact Hn]. done. }
  change (files (n <| io ::= tail |>)) with (files n). destruct (files n !! (v, tmp_name cfg)) as [b|]; cbn [fst snd].
  - split; [by eapply durable_grows|]. split; [by eapply HK|]. intros _. unfold present. cbn.
    rewrite (binary_name cfg Hproduct). by rewrite lookup_insert_eq.
  - split; [exact Hd|]. split; [|done]. eapply HK; [|exact Hn]. done.
Qed.

Lemma Install_triple (K : node → Prop) (min : Z) (sm : option Signed) (blob : string → blob_answer) :
  monotone K →
  triple world durable K (Install cfg min sm blob)
    (λ r n, K n ∧ ∀ m, r = Ok m →
       present n (m_Version m) ∧ nameable (m_Version m) ∧ (min = time_zero ∨ min ≤ CreatedAt m)).
Proof using JSONLaw0 JSONTotal0 Hproduct.
  intros HK. set (Q := λ (r : result install_err Manifest) n, K n ∧ _).
  assert (∀ e, triple world durable K (mret (Err e)) Q) as Hret.
  { intros e. apply (triple_ret _ _ world_durable); [by apply monotone_stable|]. by intros n _ Hn. }
  assert (∀ A e (p : M A), acts grows p → triple world durable K (p ≫= λ _, mret (Err e)) Q) as Hfail.
  { intros A e p Hp. apply (triple_bind _ _ _ _ _ (λ _, K)); [by apply triple_grows|done]. }
  unfold Install. apply (triple_bind _ _ _ _ _ (λ _, K)); [apply triple_grows; auto with steps|]. intros trusted.
  destruct (check_manifest cfg min trusted sm) as [m|e] eqn:Ec; [|apply Hret].
  apply check_manifest_floor in Ec as [Hv Hmin].
  apply (triple_bind _ _ _ _ _ (λ _, K)).
  { apply triple_grows; [done|]. apply attempt_grows. intros n. split; [|done]. split_and!; try done.
    intros Hd v. cbn. rewrite elem_of_union, elem_of_singleton. intros [->|Hin]; auto. }
  intros [|]; cbn [negb]; [|apply Hret].
  apply (triple_bind _ _ _ _ _ (λ _, K)); [apply triple_grows; [done|]; unfold download; handler_steps|].
  intros [|]; cbn [negb]; [|apply Hfail; auto with steps].
  apply (triple_bind _ _ _ _ _ (λ _, K)); [apply triple_grows; auto with steps|].
  intros [b|]; [|apply Hfail; auto with steps].
  destruct (VerifyBlob m (Some b)); [apply Hfail; auto with steps|].
  apply (triple_bind _ _ _ _ _ (λ _, K)); [apply triple_grows; auto with steps|].
  intros [|]; cbn [negb]; [|apply Hfail; auto with steps].
  apply (triple_bind _ _ _ _ _ _ _ (rename_present K (m_Version m) HK)).
  intros [|]; cbn [negb].
  - apply (triple_ret _ _ world_durable).
    + apply monotone_stable. intros n n' Hg [Hn Hp]. split; [by eapply HK|]. intros _. by apply Hg, Hp.
    + intros n _ [Hn Hp]. split; [done|]. intros m' [= <-]. auto.
  - apply (triple_pre _ _ K); [by intros n _ []|]. apply Hfail; auto with steps.
Qed.

(** ** Trust *)

(** The version that is current, when one is. *)
Definition placed (o : option string) (n : node) : Prop :=
  match o with Some v => current n = v ∧ Current (st n) = v ∧ present n v | None => True end.

Lemma placed_tracks (o : option string) : tracks (placed o).
Proof. intros n n' (Hp & _ & Ec & Es & _). destruct o; [|done]. cbn. rewrite Ec, Es. intros (? & ? & ?). auto. Qed.

(** A change of the state that keeps its version and raises its marks. *)
Lemma restate (n : node) (s' : State) :
  text_ok s' = true → Current s' = Current (st n) → FloorUnix (st n) ≤ FloorUnix s' → RootKeysVersion (st n) ≤ RootKeysVersion s' →
  ready n → ready (n <| st := s' |>).
Proof.
  intros Ht Ec Hf Hr [[Hs _] Hl]. split; cbn; [split; [unfold startable; by rewrite Ec|done]|by eapply log_ok_mono].
Qed.

Definition logged (x : list log_line) (n : node) : Prop := log_ok (log n ++ x) (st n).

Lemma logged_tracks (x : list log_line) : tracks (logged x).
Proof. intros n n' (_ & _ & _ & Es & El & _). unfold logged. by rewrite Es, El. Qed.

#[local] Hint Resolve placed_tracks logged_tracks : steps.

Lemma record_triple (o : option string) (x : log_line) :
  created [x] = [] ∨ (∃ v, o = Some v ∧ v ≠ "") →
  triple world durable (λ n, synced n ∧ placed o n ∧ logged [x] n)
    (write (λ n, n <| log ::= λ l, l ++ [x] |>)) (λ _ n, synced n ∧ placed o n).
Proof.
  intros Hx. apply (triple_atomic _ _ world_durable); [auto 6 with steps..|].
  intros n Hd (Hs & Hp & Hl). split; [|by split].
  pose proof (durable_ready n Hd Hs) as [[Hst Ht] _]. destruct Hd as (Hi & Hdirs & _). split_and!; [done|done|].
  exists (st n). split; [exact Hs|]. split; [split; [|exact Ht]|exact Hl]. destruct Hx as [Hx|(v & -> & Hne)].
  - destruct Hst as [Hst|Hst]; [by left|right]. unfold served, created in *. cbn.
    by rewrite omap_app, Hx, app_nil_r.
  - destruct Hp as (_ & Hv & Hp). left. cbn. by rewrite Hv.
Qed.

Lemma triple_same {A : Type} (P : node → Prop) (a : A) : monotone P → triple world durable P (mret a) (λ _, P).
Proof. intros HP. apply (triple_ret _ _ world_durable); auto with steps. Qed.

Lemma establishTrust_triple (o : option string) (d : DesiredVersionResponse) :
  triple world durable (λ n, synced n ∧ placed o n) (establishTrust cfg d) (λ _ n, synced n ∧ placed o n).
Proof.
  assert (monotone (λ n, synced n ∧ placed o n)) as Hm by auto with steps.
  unfold establishTrust, now. destruct (c_rootTrusted cfg) as [root|]; [|by apply triple_same].
  destruct (SignedRootKeys d) as [doc|]; [|by apply triple_same].
  apply (triple_bind _ _ _ _ _ (λ _ n, synced n ∧ placed o n)); [apply triple_grows; auto with steps|]. intros t.
  apply (triple_bind _ _ _ _ _ (λ _ n, synced n ∧ placed o n)); [apply triple_grows; auto with steps|]. intros s.
  destruct (VerifyRootKeys _ _ _ _) as [rk|e]; [|by apply triple_same].
  destruct (SigningKeys rk) as [signers|e]; [|by apply triple_same].
  set (x := LogRootKeys (rk_Version rk)).
  apply (triple_bind _ _ _ _ _ (λ raised n, if (raised : bool) then ready n ∧ placed o n ∧ logged [x] n
                                             else synced n ∧ placed o n)).
  - apply (triple_atomic _ _ world_durable); [auto with steps|intros []; auto 6 with steps|].
    intros n Hd [Hs Hp]. split; [exact Hd|]. pose proof (durable_ready n Hd Hs) as Hr.
    unfold RaiseRootKeysVersion. destruct (Z.ltb_spec (RootKeysVersion (st n)) (rk_Version rk)); cbn [fst snd].
    + split_and!; [|exact Hp|].
      * apply (restate (n <| Trusted := signers |>)); [apply Hr|done|cbn; lia..|exact Hr].
      * eapply log_ok_roots; [done|done|done|]. apply Hr.
    + by split.
  - intros raised. apply (triple_bind _ _ _ _ _ (λ _ n, synced n ∧ placed o n)); [|intros _; by apply triple_same].
    destruct raised; [|by apply triple_same].
    apply (triple_bind _ _ _ _ _ (λ _ n, synced n ∧ placed o n ∧ logged [x] n)).
    + apply saveState_triple. auto with steps.
    + intros _. apply record_triple. by left.
Qed.

(** ** Swapping *)

(** While the bootstrap serves, memory and disk agree on a version that is there. *)
Definition serving (n : node) : Prop := synced n ∧ ∃ v, placed (Some v) n.

Lemma triple_exists {A X : Type} (P : X → node → Prop) (p : M A) (Q : A → node → Prop) :
  (∀ x, triple world durable (P x) p Q) → triple world durable (λ n, ∃ x, P x n) p Q.
Proof. intros Hp n Hn [x Hx]. by apply (Hp x). Qed.

Lemma serving_monotone : monotone serving.
Proof. intros n n' Hg [Hs [v Hv]]. split; [by eapply synced_monotone|]. exists v. eapply placed_tracks; [apply Hg|done]. Qed.

Lemma Prune_triple (keep : list string) (v : string) (x : list log_line) :
  v ∈ keep → v ≠ "" →
  triple world durable (λ n, synced n ∧ placed (Some v) n ∧ logged x n) (Prune keep)
    (λ _ n, synced n ∧ placed (Some v) n ∧ logged x n).
Proof.
  intros Hk Hv. apply (triple_acts _ _ world_durable (λ n n', (present n v → present n' v) ∧ dirs n' ⊆ dirs n ∧
    current n' = current n ∧ st n' = st n ∧ log n' = log n ∧ state_file n' = state_file n ∧ state_io n' = state_io n)).
  - auto 6 with steps.
  - intros n n' Hd (Hs & (Hc & Hv' & Hp) & Hl) (Hp' & Hdirs & Ec & Es & El & Ef & Ei).
    assert (synced n') as Hs' by (unfold synced, disk; by rewrite Ef, Es).
    pose proof (durable_ready n Hd Hs) as [[_ Ht] Hl']. destruct Hd as (Hi & Hd & _). split.
    + split_and!; [by rewrite Ei|intros w Hw; by apply Hd, Hdirs|]. exists (st n). rewrite El.
      split_and!; [by rewrite <- Es| |done|done].
      left. rewrite Hv'. auto.
    + unfold placed, logged. rewrite Ec, Es, El. by split_and!; auto.
  - unfold Prune. apply acts_bind; [|intros [ents|]; [|done]].
    { apply acts_atomic. intros n. by destruct (default true (head (io n))). }
    apply acts_each. intros name. destruct (bool_decide (name ≠ "") && contains keep name) eqn:E; [done|].
    apply acts_atomic. intros n. destruct (default true (head (io n))); [|done]. cbn. split_and!; try done; [|set_solver].
    unfold present. cbn. intros [b Hb]. exists b. apply map_lookup_filter_Some. split; [done|]. cbn. intros <-.
    apply contains_spec in Hk. by rewrite Hk, bool_decide_eq_true_2 in E.
Qed.

(** The state after a version built at [t] was taken, about to be saved and recorded. *)
Lemma raised_ready (n n' : node) (s : State) (new : string) (t : Z) (x : log_line) :
  durable n → synced n → present n new → new ≠ "" → text_ok s = true →
  Z.max 0 (FloorUnix (st n)) ≤ Z.max 0 t → commits x t → Current s = new → FloorUnix s = FloorUnix (st n) → RootKeysVersion s = RootKeysVersion (st n) →
  files n' = files n → log n' = log n → current n' = new → st n' = (RaiseFloor t s).2 →
  ready n' ∧ placed (Some new) n' ∧ logged [x] n'.
Proof.
  intros Hd Hs Hp Hne Ht Hf Hx E1 E2 E3 Ef El Ec Es. pose proof (durable_ready n Hd Hs) as [_ Hl].
  assert (Current (st n') = new ∧ Z.max 0 t ≤ Z.max 0 (FloorUnix (st n')) ∧
          RootKeysVersion (st n') = RootKeysVersion (st n) ∧ text_ok (st n') = true) as (F1 & F2 & F3 & F4).
  { rewrite Es. unfold RaiseFloor. destruct (Z.ltb_spec (FloorUnix s) t); cbn; split_and!; lia || done. }
  assert (log_ok (log n' ++ [x]) (st n')) as Hx' by (rewrite El; by eapply (log_ok_commit _ (st n)); [..|lia|]).
  assert (present n' new) by (unfold present; by rewrite Ef).
  split; [split; [split; [|done]|by eapply log_ok_prefix]|by split]. left. by rewrite F1.
Qed.

Lemma commit_swap_triple (old new : string) (t : Z) :
  nameable new → ValidString old = true →
  triple world durable (λ n, synced n ∧ present n new ∧ Z.max 0 (FloorUnix (st n)) ≤ Z.max 0 t)
    (commit_swap cfg old new t) (λ _, serving).
Proof.
  intros [Hne Hnew] Hold. set (x := LogCommitted new old t).
  assert (tracks (λ n, present n new ∧ Z.max 0 (FloorUnix (st n)) ≤ Z.max 0 t)) as Ht.
  { intros n n' (Hp & _ & _ & Es & _) [??]. rewrite Es. auto. }
  assert (tracks (λ n, current n = new)) as Hcur by (intros n n' (_ & _ & E & _); by rewrite E).
  apply (triple_bind _ _ _ _ _ (λ _ n, synced n ∧ (present n new ∧ Z.max 0 (FloorUnix (st n)) ≤ Z.max 0 t) ∧ current n = new)).
  { apply (triple_atomic _ _ world_durable); [auto 6 with steps..|]. intros n Hd (Hs & Hp & Hf). by split. }
  intros _. apply (triple_bind _ _ _ _ _ (λ _ n, ready n ∧ placed (Some new) n ∧ logged [x] n)).
  { apply (triple_atomic _ _ world_durable); [auto 6 with steps..|]. intros n Hd (Hs & (Hp & Hf) & Hc).
    split; [exact Hd|].
    apply (raised_ready n _ ((st n) <| Previous := old |> <| Current := new |> <| Bad := [] |>) new t x); try done.
    unfold text_ok, State_text. cbn. by rewrite Hnew, Hold. }
  intros _. apply (triple_bind _ _ _ _ _ (λ _ n, synced n ∧ placed (Some new) n ∧ logged [x] n)).
  { apply saveState_triple. auto with steps. }
  intros _. apply (triple_bind _ _ _ _ _ (λ _ n, synced n ∧ placed (Some new) n ∧ logged [x] n)).
  { apply Prune_triple; [set_solver|done]. }
  intros _. apply (triple_bind _ _ _ _ _ (λ _, serving)).
  { eapply triple_post; [|apply record_triple; right; by exists new]. intros _ n _ []. split; [done|by exists new]. }
  intros _. apply triple_grows; [apply serving_monotone|auto with steps].
Qed.

#[local] Hint Resolve serving_monotone : steps.

Lemma MarkBad_text (v : string) (s : State) :
  ValidString v = true → text_ok s = true → text_ok (MarkBad v s) = true.
Proof.
  intros Hv. unfold MarkBad, text_ok, State_text. destruct (IsBad s v); [done|]. cbn.
  rewrite forallb_app. cbn. rewrite Hv, !andb_true_r. done.
Qed.

Lemma roll_back_triple (v old new : string) :
  ValidString new = true →
  triple world durable (λ n, synced n ∧ placed (Some v) n) (roll_back cfg old new) (λ _ n, synced n ∧ placed (Some v) n).
Proof.
  intros Hnew. assert (monotone (λ n, synced n ∧ placed (Some v) n)) as Hm by auto with steps.
  unfold roll_back, stopWorker, now, remove_health, startWorker, HealthGateSince.
  apply (triple_bind _ _ _ _ _ (λ _ n, synced n ∧ placed (Some v) n)); [apply triple_grows; auto with steps|]. intros _.
  apply (triple_bind _ _ _ _ _ (λ _ n, ready n ∧ placed (Some v) n)).
  { apply (triple_atomic _ _ world_durable); [auto with steps..|]. intros n Hd [Hs Hp]. split; [exact Hd|].
    pose proof (durable_ready n Hd Hs) as Hr.
    assert (Current (MarkBad new (st n)) = Current (st n) ∧ FloorUnix (MarkBad new (st n)) = FloorUnix (st n) ∧
            RootKeysVersion (MarkBad new (st n)) = RootKeysVersion (st n)) as (E1 & E2 & E3)
      by (unfold MarkBad; by destruct (IsBad _ _)).
    split; [by apply (restate n); [apply MarkBad_text; [done|apply Hr]|done|lia..|]|]. destruct Hp as (? & ? & ?). cbn. by rewrite E1. }
  intros _. apply (triple_bind _ _ _ _ _ (λ _ n, synced n ∧ placed (Some v) n)); [apply saveState_triple; auto with steps|].
  intros _. do 4 (apply (triple_bind _ _ _ _ _ (λ _ n, synced n ∧ placed (Some v) n));
    [apply triple_grows; auto with steps|intros ?]).
  apply (triple_bind _ _ _ _ _ (λ _ n, synced n ∧ placed (Some v) n)); [apply triple_grows; auto with steps|]. intros done.
  case_match; [by apply triple_same|].
  eapply triple_pre; [|apply record_triple; by left]. intros n Hd [Hs Hp]. split_and!; [done|done|].
  apply log_ok_silent; [done|done|]. by apply durable_ready.
Qed.

Lemma swapWorker_triple (v new : string) (t : Z) :
  nameable new →
  triple world durable (λ n, (synced n ∧ placed (Some v) n) ∧ present n new ∧ Z.max 0 (FloorUnix (st n)) ≤ Z.max 0 t)
    (swapWorker cfg new t) (λ _, serving).
Proof.
  intros Hne. set (P := λ n, (synced n ∧ placed (Some v) n) ∧ _).
  assert (monotone P) as Hm.
  { apply monotone_and; [auto with steps|]. intros n n' [(Hp & _ & _ & Es & _) _] [??]. rewrite Es. auto. }
  assert (∀ n, P n → serving n) as Hsv by (intros n [[? ?] _]; split; [done|by exists v]).
  unfold swapWorker, now, remove_health, signal_host, sleep, stopWorker, startWorker, HealthGateSince.
  apply (triple_bind _ _ _ _ _ (λ old n, ValidString old = true ∧ P n)).
  { apply (triple_read _ _ world_durable); [auto with steps| |].
    - intros old. apply monotone_stable, monotone_and; [by intros n n' _|done].
    - intros n Hd Hn. split; [|done]. destruct Hn as [[Hs (-> & <- & _)] _].
      pose proof (durable_ready n Hd Hs) as [[_ Ht] _]. unfold text_ok, State_text in Ht. by destruct (ValidString (Current (st n))). }
  intros old. apply triple_pure. intros Hold.
  do 7 (apply (triple_bind _ _ _ _ _ (λ _, P)); [apply triple_grows; [done|handler_steps]|intros ?]).
  apply (triple_bind _ _ _ _ _ (λ _, P)); [apply triple_grows; [done|auto with steps]|]. intros g.
  assert (triple world durable P (read shutdown ≫= λ done, if (done : bool) then mret tt else roll_back cfg old new)
    (λ _, serving)) as Hrb.
  { apply (triple_bind _ _ _ _ _ (λ _, P)); [apply triple_grows; auto with steps|]. intros [|].
    - apply (triple_ret _ _ world_durable); auto with steps.
    - eapply triple_post; [|eapply triple_pre; [|apply (roll_back_triple v), Hne]].
      + intros _ n _ []. split; [done|by exists v].
      + by intros n _ []. }
  destruct g; [|apply Hrb..]. eapply triple_pre; [|by apply commit_swap_triple].
  intros n _ [[? _] [? ?]]. done.
Qed.

Lemma floorTime_fits (s : State) (t : Z) :
  floorTime s = time_zero ∨ floorTime s ≤ t → Z.max 0 (FloorUnix s) ≤ Z.max 0 (Unix t).
Proof.
  unfold floorTime, Unix, time_zero, second. destruct (Z.leb_spec (FloorUnix s) 0); [lia|]. intros [E|Hle]; [lia|].
  assert (FloorUnix s ≤ t / 1000000000); [|lia]. apply Z.div_le_lower_bound; lia.
Qed.

(** The steps from the signed manifest to the installed version, as both loops take them. *)
Lemma trust_install_triple {A : Type} (o : option string) (d : DesiredVersionResponse) (sm : option Signed)
    (blob : string → blob_answer) (Q : A → node → Prop) (fail : A) (k : Manifest → M A) :
  triple world durable (λ n, synced n ∧ placed o n) (mret fail) Q →
  (∀ m, nameable (m_Version m) →
    triple world durable (λ n, (synced n ∧ placed o n) ∧ present n (m_Version m) ∧
                               Z.max 0 (FloorUnix (st n)) ≤ Z.max 0 (Unix (CreatedAt m))) (k m) Q) →
  triple world durable (λ n, synced n ∧ placed o n)
    (e ← establishTrust cfg d;
     match e with
     | Some _ => mret fail
     | None =>
         s ← read st;
         r ← Install cfg (floorTime s) sm blob;
         match r with Err _ => mret fail | Ok m => k m end
     end) Q.
Proof using JSONLaw0 JSONTotal0 Hproduct.
  intros Hfail Hk. assert (monotone (λ n, synced n ∧ placed o n)) as Hm by auto with steps.
  apply (triple_bind _ _ _ _ _ _ _ (establishTrust_triple o d)). intros [e|]; [done|].
  assert (∀ s, monotone (λ n, (synced n ∧ placed o n) ∧ st n = s)) as Hm'.
  { intros s. apply monotone_and; [done|]. intros n n' [(_ & _ & _ & Es & _) _]. by rewrite Es. }
  apply (triple_bind _ _ _ _ _ (λ s n, (synced n ∧ placed o n) ∧ st n = s)).
  { apply (triple_read _ _ world_durable); [auto with steps..|done]. }
  intros s. apply (triple_bind _ _ _ _ _ _ _ (Install_triple _ _ _ _ (Hm' s))). intros [m|e].
  - intros n Hd [[Hn <-] Hi]. destruct (Hi m eq_refl) as (Hp & Hne & Hmin). apply Hk; [done|done|].
    split; [done|]. split; [done|]. by apply floorTime_fits.
  - eapply triple_pre; [|exact Hfail]. by intros n _ [[] _].
Qed.

Lemma reconcile_triple answer blob : triple world durable serving (reconcile cfg answer blob) (λ _, serving).
Proof using JSONLaw0 JSONTotal0 Hproduct.
  unfold reconcile. destruct answer as [[d|]|e]; [|by apply triple_same, serving_monotone..].
  apply (triple_pre _ _ (λ n, ∃ v, synced n ∧ placed (Some v) n)); [intros n _ [? [v ?]]; by exists v|].
  apply triple_exists. intros v. assert (monotone (λ n, synced n ∧ placed (Some v) n)) as Hm by auto with steps.
  assert (∀ A (a : A), triple world durable (λ n, synced n ∧ placed (Some v) n) (mret a) (λ _, serving)) as Hret.
  { intros A a. apply (triple_ret _ _ world_durable); [auto with steps|]. intros n _ []. split; [done|by exists v]. }
  apply (triple_bind _ _ _ _ _ (λ reset n, (if (reset : bool) then ready n else synced n) ∧ placed (Some v) n)).
  { apply (triple_atomic _ _ world_durable); [auto with steps|intros []; auto with steps|].
    intros n Hd [Hs Hp]. split; [exact Hd|]. unfold ResetBadOnChange.
    destruct (_ || _ || _); cbn [fst snd]; (split; [|exact Hp]); [exact Hs|]. apply (restate n); [|done|cbn; lia..|by apply durable_ready].
    pose proof (durable_ready n Hd Hs) as [[_ Ht] _]. revert Ht. unfold text_ok, State_text. cbn.
    by intros [Ht _]%andb_true_iff; rewrite Ht. }
  intros reset. apply (triple_bind _ _ _ _ _ (λ _ n, synced n ∧ placed (Some v) n)).
  { destruct reset; [apply saveState_triple; auto with steps|by apply triple_same]. }
  intros _. apply (triple_bind _ _ _ _ _ (λ _ n, synced n ∧ placed (Some v) n)); [apply triple_grows; auto with steps|].
  intros _. apply (triple_bind _ _ _ _ _ (λ _ n, synced n ∧ placed (Some v) n)); [apply triple_grows; auto with steps|].
  intros cur. case_match; [apply Hret|].
  apply (triple_bind _ _ _ _ _ (λ _ n, synced n ∧ placed (Some v) n)); [apply triple_grows; auto with steps|].
  intros s. case_match; [apply Hret|]. destruct (SignedManifest d) as [sm|]; [|apply Hret].
  apply (trust_install_triple (Some v) d (Some sm) blob _ tt); [apply Hret|]. intros m Hne.
  case_match; [|by apply swapWorker_triple]. eapply triple_pre; [|apply Hret]. by intros n _ [].
Qed.

(** Naming another version keeps the text UTF-8. *)
Lemma rename_text (v : string) (s : State) :
  nameable v → text_ok s = true → text_ok (s <| Current := v |>) = true.
Proof.
  intros [_ Hv]. unfold text_ok, State_text. cbn. rewrite Hv, !andb_true_iff. naive_solver.
Qed.

Lemma first_install_triple answers :
  triple world durable (λ n, synced n ∧ placed None n) (first_install cfg answers) (λ ok n, ok = true → serving n).
Proof using JSONLaw0 JSONTotal0 Hproduct.
  assert (monotone (λ n, synced n ∧ placed None n)) as Hm by auto with steps.
  induction answers as [|[answer blob] rest IH]; [by apply (triple_ret _ _ world_durable); auto with steps|].
  cbn [first_install].
  set (Q := λ (ok : bool) n, if ok then serving n else synced n ∧ placed None n).
  assert (triple world durable (λ n, synced n ∧ placed None n) (mret false) Q) as Hret
    by (apply (triple_ret _ _ world_durable); auto with steps).
  apply (triple_bind _ _ _ _ _ Q).
  - destruct answer as [[d|]|e]; [|apply Hret..]. destruct (SignedManifest d) as [sm|]; [|apply Hret].
    apply (trust_install_triple None d (Some sm) blob _ false); [apply Hret|]. intros m Hne.
    set (new := m_Version m). set (t := Unix (CreatedAt m)). set (x := LogFirstInstall new t).
    apply (triple_bind _ _ _ _ _ (λ _ n, ready n ∧ placed (Some new) n ∧ logged [x] n)).
    { apply (triple_atomic _ _ world_durable); [|auto 6 with steps|].
      { apply monotone_stable, monotone_and; [done|]. intros n n' [(Hp & _ & _ & Es & _) _] [??]. rewrite Es. auto. }
      intros n Hd ([Hs _] & Hp & Hf). split; [exact Hd|]. 
      apply (raised_ready n _ ((st n) <| Current := new |>) new t x); try done; [apply Hne|].
      pose proof (durable_ready n Hd Hs) as [[_ Ht] _]. by apply rename_text. }
    intros _. apply (triple_bind _ _ _ _ _ (λ _ n, synced n ∧ placed (Some new) n ∧ logged [x] n)).
    { apply saveState_triple. auto with steps. }
    intros _. apply (triple_bind _ _ _ _ _ (λ _ n, synced n ∧ placed (Some new) n)); [apply record_triple; right; exists new; split; [done|apply Hne]|].
    intros _. apply (triple_ret _ _ world_durable); [auto with steps|]. intros n _ []. split; [done|by exists new].
  - intros [|]; [apply (triple_ret _ _ world_durable); by auto with steps|].
    apply (triple_bind _ _ _ _ _ (λ _ n, synced n ∧ placed None n)); [|by intros _].
    apply triple_grows; [done|]. unfold sleep. auto with steps.
Qed.

(** Every version found is a directory's name with a binary in it. *)
Lemma adoptSeeded_triple (K : node → Prop) :
  monotone K →
  triple world durable K (adoptSeeded cfg) (λ r n, K n ∧ ∀ v, r = Some v → present n v ∧ nameable v).
Proof.
  intros HK. set (F := λ (found : list string) n, K n ∧ Forall (λ v, present n v ∧ nameable v) found).
  assert (∀ found, monotone (F found)) as HF.
  { intros found n n' Hg [Hn Hf]. split; [by eapply HK|]. eapply Forall_impl; [exact Hf|]. intros v [Hv ?].
    split; [by apply Hg|done]. }
  unfold adoptSeeded.
  apply (triple_bind _ _ _ _ _ (λ ents n, K n ∧ ∀ s : gset string, ents = Some s → set_Forall nameable s)).
  { apply (triple_atomic _ _ world_durable); [auto with steps| |].
    - intros ents. apply monotone_stable, monotone_and; [done|]. by intros n n' _ Hn.
    - intros n Hd Hn. pose proof Hd as (_ & Hdirs & _). destruct (default true (head (io n))); cbn.
      + split; [exact Hd|]. split; [|by intros s [= <-]]. eapply HK; [|exact Hn]. done.
      + split; [exact Hd|]. split; [|done]. eapply HK; [|exact Hn]. done. }
  intros [ents|]; [|apply (triple_ret _ _ world_durable); [|by intros n _ []]].
  2:{ apply monotone_stable, monotone_and; [done|]. by intros n n' _ Hn. }
  apply (triple_pre _ _ (λ n, set_Forall nameable ents ∧ F [] n)); [intros n _ [Hn He]; split; [by apply He|by split]|].
  apply triple_pure. intros He. apply (triple_bind _ _ _ _ _ F).
  - assert (Forall nameable (elements ents)) as Hl by (apply Forall_forall; intros v Hv; apply He, elem_of_elements, Hv).
    enough (∀ found, triple world durable (F found) (each_acc (elements ents) found (λ found v,
      b ← stat_binary cfg v; mret (match b with Some _ => found ++ [v] | None => found end))) F) as Hall by apply Hall.
    induction Hl as [|v l Hv _ IH]; intros found;
      [by apply (triple_ret _ _ world_durable); auto with steps|].
    cbn [each_acc]. apply (triple_bind _ _ _ _ _ F); [|exact IH].
    apply (triple_bind _ _ _ _ _ (λ b n, F found n ∧ (is_Some b → present n v))).
    + apply (triple_atomic _ _ world_durable); [auto with steps| |].
      * intros b. apply monotone_stable, monotone_and; [done|]. intros n n' Hg Hb Hs. by apply Hg, Hb.
      * intros n Hd Hf. destruct (default true (head (io n))); cbn; (split; [exact Hd|]);
          (split; [eapply HF; [|exact Hf]; done|]); [|by intros []]. done.
    + intros b. apply (triple_ret _ _ world_durable).
      * apply monotone_stable, monotone_and; [done|]. intros n n' Hg Hb Hs. by apply Hg, Hb.
      * intros n _ [[Hn Hf] Hb]. split; [done|]. destruct b; [|done]. apply Forall_app. split; [done|].
        constructor; [|done]. split; [by apply Hb|done].
  - intros found. apply (triple_ret _ _ world_durable); [auto with steps|]. intros n _ [Hn Hf]. split; [done|].
    intros v Ev. destruct found as [|v' [|]]; simplify_eq. by inversion Hf.
Qed.

(** The version the state names, when its binary is there. *)
Lemma named_triple (s : State) :
  triple world durable (λ n, synced n ∧ st n = s)
    (if bool_decide (Current s = "") then mret None else stat_binary cfg (Current s))
    (λ b n, (synced n ∧ st n = s) ∧ (is_Some b → present n (Current s))).
Proof.
  assert (monotone (λ n, synced n ∧ st n = s)) as Hm.
  { apply monotone_and; [auto with steps|]. intros n n' [(_ & _ & _ & Es & _) _]. by rewrite Es. }
  assert (∀ b : option bytes, monotone (λ n, is_Some b → present n (Current s))) as Hb.
  { intros b n n' Hg Hp Hs. by apply Hg, Hp. }
  destruct (bool_decide_reflect (Current s = "")) as [E|E].
  - apply (triple_ret _ _ world_durable); [auto with steps|]. intros n _ Hn. split; [done|]. by intros [].
  - apply (triple_atomic _ _ world_durable); [auto with steps..|]. intros n Hd Hn.
    destruct (default true (head (io n))); cbn; (split; [exact Hd|]); (split; [exact Hn|]); [done|by intros []].
Qed.

(** The seeded version is recorded before it is saved. *)
Lemma adopt_triple (v : string) :
  nameable v →
  triple world durable (λ n, synced n ∧ present n v)
    (write (λ n, n <| current := v |> <| st ::= λ s, s <| Current := v |> |> <| log ::= λ l, l ++ [LogAdopted v] |>))
    (λ _ n, ready n ∧ placed (Some v) n).
Proof.
  intros Hne. apply (triple_atomic _ _ world_durable); [|auto with steps|].
  { apply monotone_stable, monotone_and; [auto with steps|]. intros n n' Hg. apply Hg. }
  intros n Hd [Hs Hp]. pose proof (durable_ready n Hd Hs) as [[Hst Ht] Hl]. destruct Hd as (Hi & Hdirs & _).
  assert (log_ok (log n ++ [LogAdopted v]) (st n)) as Hl' by by apply log_ok_silent.
  split.
  - split_and!; [done|done|]. exists (st n). split_and!; [exact Hs| |exact Ht|exact Hl'].
    destruct Hst as [Hst|Hst]; [by left|right]. unfold served, created in *. cbn. by rewrite omap_app, app_nil_r.
  - split; [split; [split; [left; split; [done|apply Hne]|by apply rename_text]|exact Hl']|]. by split_and!.
Qed.

Lemma resolveCurrent_triple answers :
  triple world durable synced (resolveCurrent cfg answers) (λ ok n, ok = true → serving n).
Proof using JSONLaw0 JSONTotal0 Hproduct.
  unfold resolveCurrent. apply (triple_bind _ _ _ _ _ (λ s n, synced n ∧ st n = s)).
  { apply (triple_read _ _ world_durable); [auto with steps| |done]. intros s. apply monotone_stable, monotone_and;
      [auto with steps|]. intros n n' [(_ & _ & _ & Es & _) _]. by rewrite Es. }
  intros s. apply (triple_bind _ _ _ _ _ _ _ (named_triple s)). intros [b|].
  - apply (triple_pre _ _ (λ n, synced n ∧ Current (st n) = Current s ∧ present n (Current s))).
    { intros n _ [[Hs <-] Hp]. auto. }
    apply (triple_bind _ _ _ _ _ (λ _, serving)); [|intros _; apply (triple_ret _ _ world_durable); auto with steps].
    apply (triple_atomic _ _ world_durable); [|auto with steps|].
    + apply monotone_stable, monotone_and; [auto with steps|]. intros n n' [(Hp & _ & _ & Es & _) _] []. rewrite Es. auto.
    + intros n Hd (Hs & Hc & Hp). split; [exact Hd|]. split; [exact Hs|]. by exists (Current s).
  - apply (triple_pre _ _ synced); [by intros n _ [[] _]|].
    apply (triple_bind _ _ _ _ _ _ _ (adoptSeeded_triple synced synced_monotone)). intros [v|].
    + apply (triple_pre _ _ (λ n, nameable v ∧ synced n ∧ present n v)).
      { intros n _ [Hs Hv]. destruct (Hv v eq_refl). auto. }
      apply triple_pure. intros Hne. apply (triple_bind _ _ _ _ _ _ _ (adopt_triple v Hne)). intros _.
      apply (triple_bind _ _ _ _ _ (λ _ n, synced n ∧ placed (Some v) n)); [apply saveState_triple; auto with steps|].
      intros _. apply (triple_ret _ _ world_durable); [auto with steps|]. intros n _ [Hs Hp] _. split; [done|by exists v].
    + eapply triple_pre; [|apply first_install_triple]. by intros n _ [Hs _].
Qed.

Lemma boot_triple answers :
  triple world durable (λ _, True) (boot cfg answers) (λ ok n, ok = true → serving n).
Proof using JSONLaw0 JSONTotal0 Hproduct.
  assert (∀ s, monotone (λ n, disk n = Some s)) as Hm by (intros s n n' [_ Ef]; unfold disk; by rewrite Ef).
  assert (∀ ok : bool, monotone (λ n, ok = true → serving n)) as Hm'.
  { intros ok n n' Hg Hs E. eapply serving_monotone; [done|]. auto. }
  unfold boot. apply (triple_bind _ _ _ _ _ (λ r n, ∃ s, r = Ok s ∧ disk n = Some s)).
  - apply (triple_atomic _ _ world_durable); [by intros n n'| |].
    { intros r. apply monotone_stable. intros n n' Hg (s & ? & ?). exists s. split; [done|by eapply Hm]. }
    intros n (Hi & Hd & s & Hs & Hr) _. rewrite Hi. cbn [head default negb tail].
    assert (durable (n <| state_io ::= tail |>)) as Hd' by (split_and!; [cbn; by rewrite Hi|done|by exists s]).
    assert (disk (n <| state_io ::= tail |>) = Some s) as Hs' by exact Hs.
    unfold disk in Hs. destruct (state_file n) as [b|]; cbn [fst snd]; (split; [exact Hd'|]); exists s;
      (split; [|exact Hs']); [by rewrite Hs|by injection Hs as <-].
  - intros r. apply triple_exists. intros s. apply triple_pure. intros ->.
    apply (triple_bind _ _ _ _ _ (λ _, synced)).
    { apply (triple_atomic _ _ world_durable); [auto with steps..|by intros n Hd Hs]. }
    intros _. apply (triple_bind _ _ _ _ _ _ _ (resolveCurrent_triple answers)).
    intros [|]; [|apply (triple_ret _ _ world_durable); auto with steps].
    apply (triple_bind _ _ _ _ _ (λ _ n, true = true → serving n)); [apply triple_grows; auto with steps|].
    intros _. apply (triple_ret _ _ world_durable); auto with steps.
Qed.

End Committing.

(** What every run of the system from a crash keeps. *)
Lemma run_durable `{Ed25519, Sha256} `{JSONDecode Manifest, JSONDecode RootKeys, JSONEncode State, JSONDecode State}
    `{!JSONLaw State, !JSONTotal State} (cfg : config) (healthy : bytes → bool) answers (n : node)
    (c : prog node bool * node) :
  c_Product cfg ≠ "" → durable cfg n → rtc (sys_step cfg healthy false) (boot cfg answers, crashed n) c →
  durable cfg c.2.
Proof.
  intros Hp Hd Hr. apply (sys_safe cfg healthy false (durable cfg) (serving cfg) (λ _, True)) in Hr as [Hc _]; [done|..].
  - apply world_durable.
  - apply monotone_stable, serving_monotone.
  - intros n' Hn. by split.
  - intros answers'. by apply boot_triple.
  - intros answer blob. by apply reconcile_triple.
  - by apply boot_triple.
Qed.

Lemma fresh_durable `{JSONDecode State} (cfg : config) (n : node) :
  state_io n = [] → dirs_ok n → state_file n = None → log n = [] → durable cfg n.
Proof.
  intros Hi Hd Hf Hl. split_and!; [done|done|]. exists empty_state. unfold disk, startable. rewrite Hf, Hl.
  split_and!; [done|by right; intros []|done|]. split_and!; constructor.
Qed.

(** C3 (cmd/geneza-bootstrap/main.go:341-434, 567-613; update/state.go): no downgrade.
    However the controller answers, whatever operations on binaries fail, and wherever
    the bootstrap crashes, a node whose state file can be written (and whose version
    directories have UTF-8 names, as JSON needs) commits versions in the order they were
    built (before 1970 counts as 1970), and accepts root-key documents of climbing
    versions only. *)
Theorem no_downgrade `{Ed25519, Sha256}
    `{JSONDecode Manifest, JSONDecode RootKeys, JSONEncode State, JSONDecode State, !JSONLaw State, !JSONTotal State}
    (cfg : config) (healthy : bytes → bool) answers (n n' : node) (p : prog node bool) :
  c_Product cfg ≠ "" → durable cfg n →
  rtc (sys_step cfg healthy false) (boot cfg answers, crashed n) (p, n') →
  StronglySorted Z.le (created (log n')) ∧ StronglySorted Z.lt (accepted_roots (log n')).
Proof.
  intros Hp Hd Hr. destruct (run_durable cfg healthy answers n (p, n') Hp Hd Hr) as (_ & _ & s & _ & _ & Hl).
  by destruct Hl as (? & _ & ? & _).
Qed.

(** A bootstrap whose files can be read starts the version its state names. *)
Lemma boot_from_disk `{Ed25519, Sha256} `{JSONDecode Manifest, JSONDecode RootKeys, JSONEncode State, JSONDecode State}
    (cfg : config) answers (n : node) (s : State) (b : bytes) :
  io n = [] → state_io n = [] → disk n = Some s → Current s ≠ "" → files n !! (Current s, c_Product cfg) = Some b →
  let r := run (boot cfg answers) n in
  r.1 = true ∧ worker r.2 = Some (Current s) ∧ worker_exec r.2 = Some b.
Proof.
  intros Hio Hi Hs Hne Hb. unfold boot, resolveCurrent. rewrite run_bind.
  assert (run LoadState n = (Ok s, n)) as ->.
  { unfold LoadState, disk in *. destruct n. cbn in *. subst. cbn. case_match; simplify_eq; cbn; by rewrite ?Hs. }
  cbn [fst snd]. rewrite run_bind. cbn [run write atomic fst snd]. rewrite run_bind.
  rewrite run_bind. cbn [run read atomic fst snd]. rewrite run_bind.
  destruct n. cbn in *. subst. rewrite bool_decide_eq_false_2 by done. cbn. rewrite Hb. cbn.
  rewrite run_bind. unfold startChildren.
  destruct (bool_decide (c_Product cfg = productAgent)); cbn; by rewrite Hb.
Qed.


Import Codec BootFixture.

Lemma blank_durable : durable cfg blank.
Proof. apply fresh_durable; [done|intros v Hv; cbn in Hv; set_solver|done|done]. Qed.

Lemma no_downgrade_witness :
  created (log offered) = [900] ∧ lastDesired offered = "v0" ∧ StronglySorted Z.le (created (log offered)).
Proof.
  split; [by vm_compute|]. split; [by vm_compute|].
  exact (proj1 (no_downgrade cfg (λ _, true) [offer "v1" [x01; x02] 900] blank offered (mret true)
    ltac:(done) blank_durable (refuses _ _))).
Defined.

