(* ===== verification/Swapping.v ===== *)
(** * Swaps and waits of the bootstrap

    Every wait ends within its window and for the reason it gives; a swap during which
    no worker reports health is undone.  The worker that is being replaced can report
    it: it still runs when the window opens. *)
From Stdlib Require Import ZArith Lia Strings.Byte Strings.Ascii.
From stdpp Require Import base gmap sets list strings pretty relations.
From S2P Require Import Prelude Envelope Trust Proc Codec Update Bootstrap Updating Committing.
Local Open Scope Z_scope.

(** ** Waits *)

(** What each answer of the health gate means. *)
Definition gate_means (since timeout : Z) (g : gate) (n : node) : Prop :=
  match g with
  | GatePassed => ∃ m, health_file n = Some m ∧ since ≤ m
  | GateTimeout => since + timeout < clock n
  | GateInterrupted => shutdown n = true
  | GateStuck => False
  end.

Definition drain_means (deadline : Z) (r : drained) (n : node) : Prop :=
  match r with
  | Drained => True
  | DrainWindowElapsed => deadline < clock n
  | DrainInterrupted => shutdown n = true
  | DrainStuck => False
  end.

Section Waits.
Context (cfg : config) (healthy : bytes → bool) (frail : bool).

Abbreviation world := (env cfg healthy frail).
Abbreviation hoare := (triple world (λ _, True)).

Lemma anything (n n' : node) : True → world n n' → True.
Proof. done. Qed.

Lemma env_clock (n n' : node) : world n n' → clock n ≤ clock n' ∧ (shutdown n = true → shutdown n' = true).
Proof. intros He. destruct He; cbn; split; done || lia. Qed.

(** The clock is at least at [t]. *)
Lemma clock_stable (t : Z) : stable world (λ _, True) (λ n, t ≤ clock n).
Proof. intros n n' _ Hn He. destruct (env_clock n n' He). lia. Qed.

Lemma gate_stable (since timeout : Z) (g : gate) :
  stable world (λ _, True) (λ n, since ≤ clock n ∧ gate_means since timeout g n).
Proof.
  intros n n' _ [Hc Hg] He. destruct (env_clock n n' He) as [Hc' Hs]. split; [lia|].
  destruct g; cbn in *; [|lia|auto|done]. destruct Hg as (m & Hm & ?).
  destruct He; cbn; try (by exists m). by exists (clock n).
Qed.

Lemma drain_stable (deadline : Z) (r : drained) : stable world (λ _, True) (drain_means deadline r).
Proof. intros n n' _ Hr He. destruct (env_clock n n' He) as [Hc' Hs]. destruct r; cbn in *; auto; lia. Qed.

Lemma read_clock (t : Z) {X : Type} (f : node → X) (Q : X → node → Prop) :
  (∀ x, stable world (λ _, True) (Q x)) → (∀ n, t ≤ clock n → Q (f n) n) → hoare (λ n, t ≤ clock n) (read f) Q.
Proof. intros HQ H. apply (triple_read _ _ anything); [apply clock_stable|done|]. intros n _. apply H. Qed.

(** One more poll, after [k] that moved the clock by an interval each. *)
Lemma gate_poll (since timeout : Z) (k : nat) (next : M gate) :
  (Z.of_nat k ≤ timeout / poll_interval →
   hoare (λ n, since + Z.of_nat (S k) * poll_interval ≤ clock n) next
     (λ g n, since ≤ clock n ∧ gate_means since timeout g n)) →
  hoare (λ n, since + Z.of_nat k * poll_interval ≤ clock n)
    (t ← now; if After t (since + timeout) then mret GateTimeout
     else done ← read shutdown; if (done : bool) then mret GateInterrupted else _ ← sleep poll_interval; next)
    (λ g n, since ≤ clock n ∧ gate_means since timeout g n).
Proof.
  intros Hnext. assert (0 < poll_interval) as Hpos by (unfold poll_interval; lia).
  set (P := λ n, since + Z.of_nat k * poll_interval ≤ clock n).
  unfold now. apply (triple_bind _ _ _ _ _ (λ t n, since + Z.of_nat k * poll_interval ≤ t ∧ P n ∧ t ≤ clock n)).
  { apply read_clock; [|intros n Hn; split; [exact Hn|by split]]. intros t n n' _ (? & ? & ?) He.
    split; [done|]. split; [by eapply clock_stable|]. destruct (env_clock n n' He). lia. }
  intros t. apply triple_pure. intros Ht. unfold After. destruct (Z.ltb_spec (since + timeout) t) as [Hlt|Hle].
  { apply (triple_ret _ _ anything); [|intros n _ [??]; cbn; lia].
    intros n n' _ [??] He. split; [by eapply clock_stable|]. destruct (env_clock n n' He). lia. }
  apply (triple_pre _ _ P); [by intros n _ []|].
  apply (triple_bind _ _ _ _ _ (λ stop n, P n ∧ (stop = true → shutdown n = true))).
  { apply read_clock; [|by auto]. intros stop n n' _ [? Hs] He. split; [by eapply clock_stable|].
    intros E. destruct (env_clock n n' He). auto. }
  intros [|].
  { apply (triple_ret _ _ anything); [|intros n _ [Hn Hs]; split; [unfold P in Hn; lia|by apply Hs]].
    intros n n' _ [? Hs] He. split; [by eapply clock_stable|]. intros E. destruct (env_clock n n' He). auto. }
  apply (triple_pre _ _ P); [by intros n _ []|].
  apply (triple_bind _ _ _ _ _ (λ _ n, since + Z.of_nat (S k) * poll_interval ≤ clock n)).
  { apply (triple_atomic _ _ anything); [apply clock_stable|intros _; apply clock_stable|].
    intros n _ Hn. split; [done|]. cbn. unfold P in Hn. lia. }
  intros _. apply Hnext, Z.div_le_lower_bound; lia.
Qed.

Lemma healthGate_means (since timeout : Z) (fuel k : nat) :
  (polls timeout ≤ fuel + k)%nat → (k < polls timeout)%nat →
  hoare (λ n, since + Z.of_nat k * poll_interval ≤ clock n) (healthGate fuel since timeout)
    (λ g n, since ≤ clock n ∧ gate_means since timeout g n).
Proof.
  revert k. induction fuel as [|fuel IH]; intros k Hfuel Hk; [lia|].
  assert (0 < poll_interval) as Hpos by (unfold poll_interval; lia).
  set (P := λ n, since + Z.of_nat k * poll_interval ≤ clock n). cbn [healthGate].
  apply (triple_bind _ _ _ _ _ (λ fi n, P n ∧ ∀ m, fi = Some m → since ≤ m →
           ∃ m', health_file n = Some m' ∧ since ≤ m')).
  { apply read_clock; [|by eauto]. intros fi n n' _ [Hc Hm] He. split; [by eapply clock_stable|].
    intros m E Hle. destruct (Hm m E Hle) as (m' & ? & ?). destruct He; cbn; try (by exists m').
    exists (clock n). split; [done|]. unfold P in Hc. lia. }
  intros fi. assert (Z.of_nat k ≤ timeout / poll_interval →
    hoare (λ n, since + Z.of_nat (S k) * poll_interval ≤ clock n) (healthGate fuel since timeout)
     (λ g n, since ≤ clock n ∧ gate_means since timeout g n)) as Hnext.
  { intros Hle. apply IH; [lia|]. unfold polls in *. lia. }
  apply gate_poll in Hnext. destruct fi as [m|]; [|eapply triple_pre; [|exact Hnext]; by intros n _ []].
  unfold Before. destruct (Z.ltb_spec m since) as [Hlt|Hle]; cbn [negb].
  { eapply triple_pre; [|exact Hnext]. by intros n _ []. }
  apply (triple_pre _ _ (λ n, since ≤ clock n ∧ gate_means since timeout GatePassed n)).
  { intros n _ [Hn Hm]. split; [unfold P in Hn; lia|]. by apply (Hm m). }
  apply (triple_ret _ _ anything); [apply (gate_stable since timeout GatePassed)|done].
Qed.

Lemma drain_loop_means (start window : Z) (fuel k : nat) :
  (polls window ≤ fuel + k)%nat → (k < polls window)%nat →
  hoare (λ n, start + Z.of_nat k * poll_interval ≤ clock n) (drain_loop fuel (start + window))
    (drain_means (start + window)).
Proof.
  revert k. induction fuel as [|fuel IH]; intros k Hfuel Hk; [lia|].
  assert (0 < poll_interval) as Hpos by (unfold poll_interval; lia).
  set (P := λ n, start + Z.of_nat k * poll_interval ≤ clock n). cbn [drain_loop].
  apply (triple_bind _ _ _ _ _ (λ _, P)); [apply read_clock; [intros _; apply clock_stable|done]|].
  intros f. destruct (readDrainStatus f) as [[draining active] ok].
  case_match; [apply (triple_ret _ _ anything); [apply clock_stable|done]|].
  apply (triple_bind _ _ _ _ _ (λ stop n, P n ∧ (stop = true → shutdown n = true))).
  { apply read_clock; [|by auto]. intros stop n n' _ [? Hs] He. split; [by eapply clock_stable|].
    intros E. destruct (env_clock n n' He). auto. }
  intros [|].
  { apply (triple_pre _ _ (drain_means (start + window) DrainInterrupted)); [intros n _ [_ Hs]; by apply Hs|].
    apply (triple_ret _ _ anything); [apply (drain_stable _ DrainInterrupted)|done]. }
  apply (triple_pre _ _ P); [by intros n _ []|].
  apply (triple_bind _ _ _ _ _ (λ _ n, start + Z.of_nat (S k) * poll_interval ≤ clock n)).
  { apply (triple_atomic _ _ anything); [apply clock_stable|intros _; apply clock_stable|].
    intros n _ Hn. split; [done|]. cbn. unfold P in Hn. lia. }
  intros _. unfold now.
  apply (triple_bind _ _ _ _ _ (λ t n, start + Z.of_nat (S k) * poll_interval ≤ t ∧ t ≤ clock n)).
  { apply read_clock; [|by split]. intros t n n' _ [? ?] He. split; [done|]. destruct (env_clock n n' He). lia. }
  intros t. apply triple_pure. intros Ht. unfold After. destruct (Z.ltb_spec (start + window) t) as [Hlt|Hle].
  { apply (triple_ret _ _ anything); [apply clock_stable|]. intros n _ Hn. cbn. lia. }
  apply (triple_pre _ _ (λ n, start + Z.of_nat (S k) * poll_interval ≤ clock n)); [intros n _ Hn; lia|].
  apply IH; [lia|]. unfold polls in *. assert (Z.of_nat (S k) ≤ window / poll_interval); [|lia].
  apply Z.div_le_lower_bound; lia.
Qed.

Lemma healthGate_within (fuel : nat) (since timeout : Z) : within (4 * fuel) (healthGate fuel since timeout).
Proof.
  induction fuel as [|fuel IH]; [done|]. replace (4 * S fuel)%nat with (1 + (1 + (1 + (1 + 4 * fuel))))%nat by lia.
  cbn [healthGate]. apply within_bind; [done|]. intros fi. destruct (match fi with Some _ => _ | None => _ end); [done|].
  apply within_bind; [done|]. intros t. destruct (After _ _); [done|].
  apply within_bind; [done|]. intros []; [done|]. by apply within_bind.
Qed.

Lemma drain_loop_within (fuel : nat) (deadline : Z) : within (4 * fuel) (drain_loop fuel deadline).
Proof.
  induction fuel as [|fuel IH]; [done|]. replace (4 * S fuel)%nat with (1 + (1 + (1 + (1 + 4 * fuel))))%nat by lia.
  cbn [drain_loop]. apply within_bind; [done|]. intros f. destruct (readDrainStatus f) as [[draining active] ok].
  destruct (_ && _ && _); [done|]. apply within_bind; [done|]. intros []; [done|].
  apply within_bind; [done|]. intros _. apply within_bind; [done|]. intros t. by destruct (After _ _).
Qed.

(** A run of a program that finished satisfies what the program promises. *)
Lemma hoare_run {A : Type} (P : node → Prop) (p : M A) (Q : A → node → Prop) (n n' : node) (a : A) :
  hoare P p Q → P n → rtc (pstep world) (p, n) (mret a, n') → Q a n'.
Proof.
  intros Hp Hn Hr. apply (safe_pstep world (λ _, True) (p, n) (mret a, n') Q) in Hr as [_ Hs]; [|by apply Hp].
  by destruct (Hs n' (rtc_refl _ _)).
Qed.

End Waits.

(** [update/health.go:38-62, cmd/geneza-bootstrap/main.go:467-489] Every wait ends.
    A wait answers after at most a poll every 250 ms of its window, and two, of four
    actions each.  Whatever the children and the disk do and however slowly the
    bootstrap runs, the bound is never what ends it: a health gate
    answers that it passed only with a health file refreshed since it opened, that it
    timed out only after its deadline, that it was interrupted only when the node was
    told to stop; the wait for a drain ends the same way. *)
Theorem waits_end (cfg : config) (healthy : bytes → bool) (frail : bool) (since window : Z) (n n' : node)
    (g : gate) (r : drained) :
  since ≤ clock n →
  within (4 * polls window) (HealthGateSince since window) ∧
  within (1 + 4 * polls window) (waitForDrain window) ∧
  (rtc (pstep (env cfg healthy frail)) (HealthGateSince since window, n) (mret g, n') →
   gate_means since window g n') ∧
  (rtc (pstep (env cfg healthy frail)) (waitForDrain window, n) (mret r, n') →
   drain_means (clock n + window) r n').
Proof.
  intros Hn. split_and!; [apply healthGate_within|apply within_bind; [done|intros t; apply drain_loop_within]|..]; intros Hr.
  - eapply (hoare_run _ _ _ (λ n, since + Z.of_nat 0 * poll_interval ≤ clock n) _
      (λ g n, since ≤ clock n ∧ gate_means since window g n)) in Hr; [by apply Hr| |cbn; lia].
    apply healthGate_means; unfold polls; lia.
  - eapply (hoare_run _ _ _ (λ m, clock n ≤ clock m) _ (drain_means (clock n + window))) in Hr; [exact Hr| |done].
    unfold waitForDrain, now. apply (triple_bind _ _ _ _ _ (λ t m, clock n ≤ t ∧ t + Z.of_nat 0 * poll_interval ≤ clock m)).
    + apply read_clock; [|intros m Hm; cbn; lia]. intros t m m' _ [??] He. split; [done|].
      destruct (env_clock _ _ _ m m' He). lia.
    + intros t. apply triple_pure. intros Ht. eapply triple_post; [|apply drain_loop_means; unfold polls; lia].
      intros [] m _; cbn; lia || done.
Qed.

(** ** A swap that fails *)

Section Rollback.
Context `{JSONEncode State, JSONDecode State, !JSONLaw State, !JSONTotal State}.
Context (cfg : config).

(** Nobody reports health. *)
Abbreviation silent := (env cfg (λ _, false) false).
Abbreviation hoare := (triple silent (λ _, True)).

(** What the bootstrap decides on and what it leaves on disk. *)
Definition core (n : node) : gmap (string * string) bytes * string * State * option bytes * list bool * option string :=
  (files n, current n, st n, state_file n, state_io n, worker n).

(** Steps that decide nothing; no health report appears. *)
Definition idle (n n' : node) : Prop :=
  core n' = core n ∧ clock n ≤ clock n' ∧ (health_file n' = health_file n ∨ health_file n' = None) ∧
  (shutdown n = true → shutdown n' = true).

Lemma silent_idle (n n' : node) : silent n n' → idle n n'.
Proof. intros He. destruct He; split_and!; cbn; try done; try lia; by left. Qed.

(** The health file is older than [t]. *)
Definition unreported (t : Z) (n : node) : Prop := t ≤ clock n ∧ ∀ m, health_file n = Some m → m < t.

Definition settled (P : node → Prop) : Prop := ∀ n n', idle n n' → P n → P n'.

Lemma settled_stable (P : node → Prop) : settled P → stable silent (λ _, True) P.
Proof. intros HP n n' _ Hn He. eapply HP; [|done]. by apply silent_idle. Qed.

Lemma unreported_settled (t : Z) : settled (unreported t).
Proof.
  intros n n' (_ & Hc & Hh & _) [Ht Hm]. split; [lia|]. intros m E. destruct Hh as [Hh|Hh]; rewrite Hh in E; [auto|done].
Qed.

Lemma core_settled x : settled (λ n, core n = x).
Proof. intros n n' (E & _) <-. done. Qed.

Lemma settled_and (P Q : node → Prop) : settled P → settled Q → settled (λ n, P n ∧ Q n).
Proof. intros HP HQ n n' Hi []. split; [by eapply HP|by eapply HQ]. Qed.

Lemma shutdown_settled : settled (λ n, shutdown n = true).
Proof. intros n n' (_ & _ & _ & Hs). done. Qed.

#[local] Hint Resolve settled_stable unreported_settled core_settled settled_and shutdown_settled : steps.

Lemma hoare_idle {A : Type} (P : node → Prop) (p : M A) : settled P → acts idle p → hoare P p (λ _, P).
Proof.
  intros HP Hp. apply (triple_acts _ _ (anything cfg (λ _, false) false) idle); [by apply settled_stable| |done].
  intros n n' _ Hn Hi. split; [done|by eapply HP].
Qed.

(** A step that decides: the core changes by [f]. *)
Lemma hoare_core x (f : node → node) y :
  (∀ n, core n = x → core (f n) = y) → (∀ n, core n = x → clock (f n) = clock n ∧ health_file (f n) = health_file n) →
  ∀ t, hoare (λ n, core n = x ∧ unreported t n) (write f) (λ _ n, core n = y ∧ unreported t n).
Proof.
  intros Hf Hu t. apply (triple_atomic _ _ (anything cfg (λ _, false) false)); [auto with steps..|].
  intros n _ [Hn Ht]. split; [done|]. split; [by apply Hf|]. unfold unreported. cbn. by destruct (Hu n Hn) as [-> ->].
Qed.

Ltac idle_frame := let n := fresh in intros n; split_and!; cbn; try done; try lia; by left.

Lemma write_idle (f : node → node) : (∀ n, idle n (f n)) → acts idle (write f).
Proof. intros Hf. by apply acts_atomic. Qed.

Lemma read_idle {X : Type} (f : node → X) : acts idle (read f).
Proof. apply acts_atomic. idle_frame. Qed.

Lemma sleep_idle (d : Z) : 0 ≤ d → acts idle (sleep d).
Proof. intros Hd. apply write_idle. idle_frame. Qed.

Lemma remove_health_idle : acts idle remove_health.
Proof.
  apply acts_atomic. intros n. destruct (default true (head (io n))); split_and!; cbn; try done; try lia; [by right|by left].
Qed.

Lemma remove_drain_status_idle : acts idle remove_drain_status.
Proof. apply acts_atomic. intros n. destruct (default true (head (io n))); split_and!; cbn; try done; try lia; by left. Qed.

#[local] Hint Resolve read_idle remove_health_idle remove_drain_status_idle : steps.
#[local] Hint Extern 1 (acts idle (sleep _)) => apply sleep_idle; unfold poll_interval, second; lia : steps.

Lemma healthGate_idle (fuel : nat) (since timeout : Z) : acts idle (healthGate fuel since timeout).
Proof. induction fuel; [done|]. cbn [healthGate]. unfold now. handler_steps. Qed.

Lemma drain_loop_idle (fuel : nat) (deadline : Z) : acts idle (drain_loop fuel deadline).
Proof. induction fuel; [done|]. cbn [drain_loop]. unfold now. handler_steps. Qed.

#[local] Hint Resolve healthGate_idle drain_loop_idle : steps.

Lemma drainBeforeSwap_idle : acts idle (drainBeforeSwap cfg).
Proof. unfold drainBeforeSwap, waitForDrain, signal_worker, now. handler_steps. Qed.

(** With no health report since it opened, the gate does not pass. *)
Lemma gate_shut (fuel : nat) (since timeout : Z) x :
  hoare (λ n, core n = x ∧ unreported since n) (healthGate fuel since timeout)
    (λ g n, g ≠ GatePassed ∧ core n = x ∧ unreported since n).
Proof.
  assert (settled (λ n, core n = x ∧ unreported since n)) as Hs by auto with steps.
  assert (∀ g, g ≠ GatePassed → hoare (λ n, core n = x ∧ unreported since n) (mret g)
    (λ g n, g ≠ GatePassed ∧ core n = x ∧ unreported since n)) as Hret.
  { intros g Hg. apply (triple_ret _ _ (anything cfg (λ _, false) false)); [auto with steps|done]. }
  induction fuel as [|fuel IH]; [by apply Hret|]. cbn [healthGate].
  apply (triple_bind _ _ _ _ _ (λ fi n, (∀ m, fi = Some m → m < since) ∧ core n = x ∧ unreported since n)).
  { apply (triple_read _ _ (anything cfg (λ _, false) false)); [auto with steps| |].
    - intros fi n n' _ [? Hn] He. split; [done|]. eapply Hs; [|done]. by apply silent_idle.
    - intros n _ [? [? Hm]]. done. }
  intros fi. apply triple_pure. intros Hfi.
  assert (match fi with Some mtime => negb (Before mtime since) | None => false end = false) as ->.
  { destruct fi as [m|]; [|done]. unfold Before. specialize (Hfi m eq_refl). apply Z.ltb_lt in Hfi. by rewrite Hfi. }
  unfold now. apply (triple_bind _ _ _ _ _ (λ _ n, core n = x ∧ unreported since n)); [apply hoare_idle; auto with steps|].
  intros t. destruct (After t (since + timeout)); [by apply Hret|].
  apply (triple_bind _ _ _ _ _ (λ _ n, core n = x ∧ unreported since n)); [apply hoare_idle; auto with steps|].
  intros [|]; [by apply Hret|].
  apply (triple_bind _ _ _ _ _ (λ _ n, core n = x ∧ unreported since n)); [apply hoare_idle; auto with steps|done].
Qed.

Lemma save_core (f : gmap (string * string) bytes) (c : string) (s : State) (file : option bytes)
    (w : option string) (b : bytes) (t : Z) :
  Marshal s = Some b →
  hoare (λ n, core n = (f, c, s, file, [], w) ∧ unreported t n) saveState
    (λ _ n, core n = (f, c, s, Some b, [], w) ∧ unreported t n).
Proof.
  intros Hb. apply (triple_bind _ _ _ _ _ (λ _ n, core n = (f, c, s, Some b, [], w) ∧ unreported t n)).
  - apply (triple_atomic _ _ (anything cfg (λ _, false) false)); [auto with steps..|].
    intros n _ [Hn Hu]. split; [done|]. unfold core in Hn. destruct n. cbn in *. simplify_eq. rewrite Hb. cbn.
    split; [done|exact Hu].
  - intros _. apply (triple_ret _ _ (anything cfg (λ _, false) false)); auto with steps.
Qed.

(** The old worker runs again and the new version is refused. *)
Lemma roll_back_core (f : gmap (string * string) bytes) (old new : string) (s : State) (file : option bytes)
    (w : option string) (b : bytes) (t : Z) :
  Marshal (MarkBad new s) = Some b →
  hoare (λ n, core n = (f, old, s, file, [], w) ∧ unreported t n) (roll_back cfg old new)
    (λ _ n, core n = (f, old, MarkBad new s, Some b, [], Some old)).
Proof.
  intros Hb. unfold roll_back, stopWorker, startWorker, now, HealthGateSince.
  apply (triple_bind _ _ _ _ _ (λ _ n, core n = (f, old, s, file, [], None) ∧ unreported t n)).
  { apply hoare_core; intros n Hn; [|done]. unfold core in *. cbn. congruence. }
  intros _. apply (triple_bind _ _ _ _ _ (λ _ n, core n = (f, old, MarkBad new s, file, [], None) ∧ unreported t n)).
  { apply hoare_core; intros n Hn; [|done]. unfold core in *. cbn. congruence. }
  intros _. apply (triple_bind _ _ _ _ _ _ _ (save_core _ _ _ _ _ _ _ Hb)).
  intros _. set (P := λ n, core n = (f, old, MarkBad new s, Some b, [], None) ∧ unreported t n).
  assert (settled P) as HP by (unfold P; auto with steps).
  apply (triple_bind _ _ _ _ _ (λ _, P)); [apply hoare_idle; auto with steps|]. intros rbStart.
  apply (triple_bind _ _ _ _ _ (λ _, P)); [apply hoare_idle; auto with steps|]. intros _.
  apply (triple_bind _ _ _ _ _ (λ _ n, core n = (f, old, MarkBad new s, Some b, [], Some old) ∧ unreported t n)).
  { apply hoare_core; intros n Hn; [|done]. unfold core in *. cbn. congruence. }
  intros _. apply (triple_pre _ _ (λ n, core n = (f, old, MarkBad new s, Some b, [], Some old))); [by intros n _ []|].
  apply hoare_idle; [auto with steps|]. acts_split; auto with steps. apply write_idle. idle_frame.
Qed.

(** The gate did not pass: rolled back, unless the node is stopping. *)
Lemma verdict_core (f : gmap (string * string) bytes) (old new : string) (s : State) (file : option bytes)
    (b : bytes) (t : Z) :
  Marshal (MarkBad new s) = Some b →
  hoare (λ n, core n = (f, old, s, file, [], Some new) ∧ unreported t n)
    (read shutdown ≫= λ done, if (done : bool) then mret tt else roll_back cfg old new)
    (λ _ n, shutdown n = true ∨ core n = (f, old, MarkBad new s, Some b, [], Some old)).
Proof.
  intros Hb. apply (triple_bind _ _ _ _ _ (λ stop n, (stop = true → shutdown n = true) ∧
    core n = (f, old, s, file, [], Some new) ∧ unreported t n)).
  { apply (triple_read _ _ (anything cfg (λ _, false) false)); [auto with steps| |done]. intros stop.
    apply settled_stable, settled_and; [|auto with steps]. intros n n' (_ & _ & _ & Hs) Hn E. auto. }
  intros [|].
  - apply (triple_pre _ _ (λ n, shutdown n = true)); [intros n _ [Hn _]; by apply Hn|].
    apply (triple_ret _ _ (anything cfg (λ _, false) false)); auto with steps.
  - eapply triple_post; [|eapply triple_pre; [|by apply roll_back_core]]; [by right|by intros n _ []].
Qed.

(** A swap without a health report, to its end. *)
Lemma swap_fails (f : gmap (string * string) bytes) (old new : string) (s : State) (file : option bytes)
    (w : option string) (b : bytes) (created : Z) :
  Marshal (MarkBad new s) = Some b →
  hoare (λ n, core n = (f, old, s, file, [], w) ∧ ∀ m, health_file n = Some m → m < clock n) (swapWorker cfg new created)
    (λ _ n, shutdown n = true ∨ core n = (f, old, MarkBad new s, Some b, [], Some old)).
Proof.
  intros Hb. set (x := (f, old, s, file, [], w)). set (P := λ n, core n = x ∧ ∀ m, health_file n = Some m → m < clock n).
  assert (settled P) as HP.
  { apply settled_and; [apply core_settled|]. intros n n' (_ & Hc & Hh & _) Hm m E.
    destruct Hh as [Hh|Hh]; rewrite Hh in E; [|done]. specialize (Hm m E). lia. }
  unfold swapWorker, now, HealthGateSince, stopWorker, startWorker.
  apply (triple_bind _ _ _ _ _ (λ c n, c = old ∧ P n)).
  { apply (triple_read _ _ (anything cfg (λ _, false) false)); [auto with steps| |].
    - intros c n n' _ [? Hn] He. split; [done|]. eapply HP; [|done]. by apply silent_idle.
    - intros n _ Hn. split; [|done]. destruct Hn as [Hn _]. unfold core, x in Hn. by simplify_eq. }
  intros c. apply triple_pure. intros ->.
  apply (triple_bind _ _ _ _ _ (λ _, P)); [apply hoare_idle; [done|apply drainBeforeSwap_idle]|]. intros _.
  apply (triple_bind _ _ _ _ _ (λ g n, core n = x ∧ unreported g n)).
  { apply (triple_read _ _ (anything cfg (λ _, false) false)); [auto with steps..|]. by intros n _ [? ?]. }
  intros gateStart. set (U := λ n, core n = x ∧ unreported gateStart n).
  assert (settled U) as HU by (unfold U; auto with steps).
  apply (triple_bind _ _ _ _ _ (λ _, U)); [apply hoare_idle; auto with steps|]. intros _.
  apply (triple_bind _ _ _ _ _ (λ _, U)); [apply hoare_idle; [done|unfold signal_host; auto with steps]|]. intros warned.
  apply (triple_bind _ _ _ _ _ (λ _, U)); [apply hoare_idle; [done|handler_steps]|]. intros _.
  apply (triple_bind _ _ _ _ _ (λ _ n, core n = (f, old, s, file, [], None) ∧ unreported gateStart n)).
  { apply hoare_core; intros n Hn; [|done]. unfold core, x in *. cbn. congruence. }
  intros _. apply (triple_bind _ _ _ _ _ (λ _ n, core n = (f, old, s, file, [], Some new) ∧ unreported gateStart n)).
  { apply hoare_core; intros n Hn; [|done]. unfold core in *. cbn. congruence. }
  intros _. apply (triple_bind _ _ _ _ _ _ _ (gate_shut _ _ _ _)). intros g. apply triple_pure. intros Hg.
  pose proof (verdict_core f old new s file b gateStart Hb). by destruct g.
Qed.

End Rollback.

Lemma MarkBad_IsBad (v : string) (s : State) : IsBad (MarkBad v s) v = true.
Proof.
  unfold MarkBad. destruct (IsBad s v) eqn:E; [done|]. apply contains_spec. cbn. apply elem_of_app. right.
  by apply list_elem_of_singleton.
Qed.

(** A version that is refused is left alone as long as it is the one desired. *)
Lemma refused_left_alone `{Ed25519, Sha256}
    `{JSONDecode Manifest, JSONDecode RootKeys, JSONEncode State, JSONDecode State}
    (cfg : config) (n : node) (d : DesiredVersionResponse) blob :
  IsBad (st n) (d_Version d) = true → lastDesired n = d_Version d →
  (run (reconcile cfg (Ok (Some d)) blob) n).2 = n.
Proof.
  intros Hb Hl. unfold reconcile, ResetBadOnChange. destruct n. cbn in *. subst.
  rewrite (bool_decide_eq_true_2 (d_Version d = d_Version d)), orb_true_r by done. cbn.
  destruct (bool_decide (d_Version d = current)); cbn; [done|]. by rewrite Hb.
Qed.

(** C5 (cmd/geneza-bootstrap/main.go:567-640): a failed update is undone.
    When no worker reports health during a swap, the health file is older than it and the
    state file can be written, a swap that ends does so, unless the node was told to stop,
    with the old version current and supervised again, its binaries untouched, and the new version marked bad, in memory and (version names being UTF-8,
    as JSON keeps no others) on disk; as long as the controller keeps asking for it, a poll
    changes nothing. *)
Theorem failed_update_undone `{Ed25519, Sha256}
    `{JSONDecode Manifest, JSONDecode RootKeys, JSONEncode State, JSONDecode State, !JSONLaw State, !JSONTotal State}
    (cfg : config) (new : string) (created : Z) (n n' : node) :
  state_io n = [] → (∀ m, health_file n = Some m → m < clock n) →
  rtc (pstep (env cfg (λ _, false) false)) (swapWorker cfg new created, n) (mret tt, n') →
  shutdown n' = true ∨
  (worker n' = Some (current n) ∧ current n' = current n ∧ files n' = files n ∧
   st n' = MarkBad new (st n) ∧ (text_ok (st n') = true → disk n' = Some (st n')) ∧
   ∀ d blob, d_Version d = new → lastDesired n' = new → (run (reconcile cfg (Ok (Some d)) blob) n').2 = n').
Proof.
  intros Hi Hh Hr. destruct (marshal_total (MarkBad new (st n))) as [b Hb].
  eapply hoare_run in Hr; [|by apply (swap_fails cfg (files n) (current n) new (st n) (state_file n) (worker n) b created)|].
  2:{ split; [|done]. unfold core. by rewrite Hi. }
  destruct Hr as [Hr|Hr]; [by left|right]. unfold core in Hr. injection Hr as E1 E2 E3 E4 E5 E6. split_and!; try done.
  - intros Ht. unfold disk. rewrite E4, E3 in *. by apply unmarshal_marshal.
  - intros d blob Hd Hl. apply refused_left_alone; [|congruence]. rewrite E3, Hd. apply MarkBad_IsBad.
Qed.

(** ** Examples *)

Import Codec BootFixture.

Lemma waits_end_witness :
  (run (HealthGateSince 0 (5 * second)) blank).1 = GateTimeout ∧
  gate_means 0 (5 * second) GateTimeout (run (HealthGateSince 0 (5 * second)) blank).2.
Proof.
  split; [by vm_compute|]. destruct (waits_end cfg (λ _, true) true 0 (5 * second) blank
    (run (HealthGateSince 0 (5 * second)) blank).2 GateTimeout Drained ltac:(done)) as (_ & _ & Hg & _).
  apply Hg. apply (run_pstep _ (HealthGateSince 0 (5 * second)) blank).
Defined.

(** Version "v2" is on disk; its worker never reports health. *)
Definition before_swap : node := installed <| files ::= <[("v2", productAgent) := [x09]]> |> <| lastDesired := "v2" |>.
Definition after_swap : node := (run (swapWorker cfg "v2" 950) before_swap).2.

Lemma failed_update_undone_witness :
  (shutdown after_swap = true ∨ worker after_swap = Some "v1") ∧ worker_exec after_swap = Some [x01; x02].
Proof.
  split; [|by vm_compute].
  destruct (failed_update_undone cfg "v2" 950 before_swap after_swap ltac:(by vm_compute)
    ltac:(intros m E; vm_compute in E; discriminate E)
    (run_pstep _ (swapWorker cfg "v2" 950) before_swap)) as [Hs|(Hw & _)]; [by left|right]. rewrite Hw. by vm_compute.
Defined.

(** ** The gate and the old worker *)

(** The worker that is replaced runs [x01; x02] and is healthy; the new one, [x09], is not. *)
Definition old_healthy (b : bytes) : bool := bool_decide (b = [x01; x02]).

(** [cmd/geneza-bootstrap/main.go:571-595] The gate does not tell which worker
    reported.  The window opens before the old worker is stopped; a report it makes in
    between, as it does every ten seconds, passes the gate for a new worker that never
    comes up: the broken version is committed and stays current. *)
Theorem old_worker_passes_gate :
  ∃ n', rtc (pstep (env cfg old_healthy false)) (swapWorker cfg "v2" 950, before_swap) (mret tt, n') ∧
    worker_exec before_swap = Some [x01; x02] ∧ old_healthy [x09] = false ∧
    current n' = "v2" ∧ worker_exec n' = Some [x09] ∧ IsBad (st n') "v2" = false ∧
    log n' = log before_swap ++ [LogCommitted "v2" "v1" 950].
Proof.
  set (c := play 6 (swapWorker cfg "v2" 950) before_swap).
  set (n1 := c.2 <| health_file := Some (clock c.2) |>).
  exists (run c.1 n1).2. split; [|by vm_compute].
  etrans; [apply (play_pstep _ 6)|]. fold c. eapply rtc_l.
  - rewrite (surjective_pairing c) at 1. apply pstep_env. apply (env_touch cfg old_healthy false c.2 [x01; x02]); by vm_compute.
  - fold n1. pose proof (run_pstep (env cfg old_healthy false) c.1 n1) as Hr. by destruct (run c.1 n1).1.
Qed.
