(* ===== verification/Supervisor.v ===== *)
(** * The supervision of a child process (update/supervisor.go)

    One child in a restart loop: [Start] launches the loop, [Stop] ends it with SIGTERM,
    a grace period and SIGKILL.  The regions under [s.mu] are functions on the state;
    the step relation interleaves the loop, the calls and the child.

    At most one child runs; once a call of [Stop] returned, none runs and none is ever
    started; every call of [Stop] returns, whatever the child does with SIGTERM; the
    delay between restarts stays between its bounds. *)
From Stdlib Require Import ZArith Lia.
From stdpp Require Import base gmap sets list relations.
From S2P Require Import Prelude Proc.
Local Open Scope Z_scope.

Record SupervisorOpts := mkSupervisorOpts {
  MinBackoff : Z; MaxBackoff : Z; BackoffResetAfter : Z; Grace : Z }.

Definition withDefaults (o : option SupervisorOpts) : SupervisorOpts :=
  let o := default (mkSupervisorOpts 0 0 0 0) o in
  let pick v d := if v <=? 0 then d else v in
  mkSupervisorOpts (pick (MinBackoff o) second) (pick (MaxBackoff o) (30 * second))
    (pick (BackoffResetAfter o) (30 * second)) (pick (Grace o) (10 * second)).

(** Where the loop [run] is: before the lock, in [cmd.Wait], after it, in the [select],
    about to return, returned. *)
Inductive run_pc : Type :=
| NotStarted
| Top (backoff : Z)
| Waiting (pid : positive) (startedAt backoff : Z)
| Reaped (startedAt backoff : Z)
| Pausing (until backoff : Z)
| Returning
| Returned.

#[export] Instance run_pc_eq_dec : EqDecision run_pc.
Proof. solve_decision. Defined.

(** Where the call of [Stop] that found [stopping] unset is. *)
Inductive stop_pc : Type :=
| SendTerm (p : option positive)
| InGrace (deadline : Z)
| Reread
| SendKill (p : option positive)
| AwaitDone
| StopReturned.

Record Supervisor := mkSupervisor {
  opts : SupervisorOpts;
  proc : option positive;
  stopping : bool;
  started : bool;
  done_closed : bool;
  loop : run_pc;
  stopper : option stop_pc;
  waiters : list bool;      (* the other calls of Stop: whether each returned *)
  (* the operating system *)
  alive : gset positive;
  killed : gset positive;
  next_pid : positive;
  time : Z }.

#[export] Instance eta_Supervisor : Eta Supervisor := λ s,
  mkSupervisor (opts s) (proc s) (stopping s) (started s) (done_closed s) (loop s) (stopper s) (waiters s)
    (alive s) (killed s) (next_pid s) (time s).

Definition NewSupervisor (o : option SupervisorOpts) (t : Z) : Supervisor :=
  mkSupervisor (withDefaults o) None false false false NotStarted None [] ∅ ∅ 1 t.

(** ** The regions under the lock *)

Definition Start (s : Supervisor) : Supervisor :=
  if started s || stopping s then s
  else s <| started := true |> <| loop := Top (MinBackoff (opts s)) |>.

(** [Signal]: whether there is a child to signal. *)
Definition Signal (s : Supervisor) : bool :=
  match proc s with Some p => bool_decide (p ∈ alive s) | None => false end.

(** The top of the loop; [ok] is whether [cmd.Start] succeeds. *)
Definition run_top (ok : bool) (backoff : Z) (s : Supervisor) : Supervisor :=
  if stopping s then s <| loop := Returning |>
  else if ok then
    let p := next_pid s in
    s <| proc := Some p |> <| alive ::= union {[p]} |> <| next_pid ::= Pos.succ |>
      <| loop := Waiting p (time s) backoff |>
  else s <| loop := Pausing (time s + backoff) backoff |>.

(** After [cmd.Wait]. *)
Definition run_reaped (startedAt backoff : Z) (s : Supervisor) : Supervisor :=
  let s' := s <| proc := None |> in
  if stopping s then s' <| loop := Returning |>
  else
    let backoff := if BackoffResetAfter (opts s) <=? time s - startedAt then MinBackoff (opts s) else backoff in
    s' <| loop := Pausing (time s + backoff) backoff |>.

Definition next_backoff (o : SupervisorOpts) (backoff : Z) : Z := Z.min (backoff * 2) (MaxBackoff o).

(** The first region of [Stop]. *)
Definition stop_enter (s : Supervisor) : Supervisor :=
  if stopping s then s <| waiters ::= λ l, l ++ [negb (started s)] |>
  else
    s <| stopping := true |>
      <| stopper := Some (if started s then SendTerm (proc s) else StopReturned) |>.

(** ** Steps *)

(** What happens by itself: the loop, the calls in progress, and a child that exits. *)
Inductive go : Supervisor → Supervisor → Prop :=
| go_top (s : Supervisor) (ok : bool) (b : Z) : loop s = Top b → go s (run_top ok b s)
| go_wait (s : Supervisor) (p : positive) (t b : Z) :
    loop s = Waiting p t b → p ∉ alive s → go s (s <| loop := Reaped t b |>)
| go_reaped (s : Supervisor) (t b : Z) : loop s = Reaped t b → go s (run_reaped t b s)
| go_stopCh (s : Supervisor) (u b : Z) : loop s = Pausing u b → stopping s = true → go s (s <| loop := Returning |>)
| go_after (s : Supervisor) (u b : Z) :
    loop s = Pausing u b → u ≤ time s → go s (s <| loop := Top (next_backoff (opts s) b) |>)
| go_return (s : Supervisor) : loop s = Returning → go s (s <| loop := Returned |> <| done_closed := true |>)
| go_term (s : Supervisor) (p : option positive) :
    stopper s = Some (SendTerm p) → go s (s <| stopper := Some (InGrace (time s + Grace (opts s))) |>)
| go_done (s : Supervisor) (d : Z) :
    stopper s = Some (InGrace d) → done_closed s = true → go s (s <| stopper := Some StopReturned |>)
| go_grace (s : Supervisor) (d : Z) :
    stopper s = Some (InGrace d) → d ≤ time s → go s (s <| stopper := Some Reread |>)
| go_reread (s : Supervisor) : stopper s = Some Reread → go s (s <| stopper := Some (SendKill (proc s)) |>)
| go_kill (s : Supervisor) (p : option positive) :
    stopper s = Some (SendKill p) →
    go s (s <| killed ::= λ k, match p with Some p => {[p]} ∪ k | None => k end |> <| stopper := Some AwaitDone |>)
| go_await (s : Supervisor) :
    stopper s = Some AwaitDone → done_closed s = true → go s (s <| stopper := Some StopReturned |>)
| go_waiter (s : Supervisor) (i : nat) :
    waiters s !! i = Some false → done_closed s = true → go s (s <| waiters ::= <[i := true]> |>)
| go_killed (s : Supervisor) (p : positive) :
    p ∈ killed s → p ∈ alive s → go s (s <| alive ::= λ a, a ∖ {[p]} |>).

(** What callers and the world do: calls, a context that ends, a child that exits, time. *)
Inductive world : Supervisor → Supervisor → Prop :=
| world_Start (s : Supervisor) : world s (Start s)
| world_Stop (s : Supervisor) : world s (stop_enter s)
| world_ctx (s : Supervisor) (d : Z) : stopper s = Some (InGrace d) → world s (s <| stopper := Some Reread |>)
| world_exit (s : Supervisor) (p : positive) : p ∈ alive s → world s (s <| alive ::= λ a, a ∖ {[p]} |>)
| world_time (s : Supervisor) (d : Z) : 0 ≤ d → world s (s <| time ::= Z.add d |>).

Definition step (s s' : Supervisor) : Prop := go s s' ∨ world s s'.

(** ** The invariant *)

Definition in_bounds (o : SupervisorOpts) (b : Z) : Prop :=
  0 < b ∧ b ≤ Z.max (MinBackoff o) (MaxBackoff o).

Definition loop_backoff (l : run_pc) : option Z :=
  match l with Top b | Waiting _ _ b | Reaped _ b | Pausing _ b => Some b | _ => None end.

(** The child the loop waits for. *)
Definition child (l : run_pc) : option positive := match l with Waiting p _ _ => Some p | _ => None end.

(** What the call that stops the loop knows. *)
Definition stopper_ok (s : Supervisor) (c : stop_pc) : Prop :=
  match c with
  | StopReturned => started s = false ∨ loop s = Returned
  | SendKill p => started s = true ∧ ∀ q, child (loop s) = Some q → p = Some q
  | AwaitDone => started s = true ∧ ∀ q, child (loop s) = Some q → q ∈ killed s
  | _ => started s = true
  end.

Record inv (s : Supervisor) : Prop := {
  inv_opts : 0 < MinBackoff (opts s) ∧ 0 < MaxBackoff (opts s);
  inv_backoff : ∀ b, loop_backoff (loop s) = Some b → in_bounds (opts s) b;
  inv_alive : ∀ p, p ∈ alive s → child (loop s) = Some p;
  inv_proc : ∀ q, child (loop s) = Some q → proc s = Some q;
  inv_done : done_closed s = true ↔ loop s = Returned;
  inv_started : started s = false ↔ loop s = NotStarted;
  inv_stopping : stopping s = true ↔ is_Some (stopper s);
  inv_stopper : ∀ c, stopper s = Some c → stopper_ok s c;
  inv_waiter : ∀ i b, waiters s !! i = Some b →
    stopping s = true ∧ if (b : bool) then started s = false ∨ loop s = Returned else started s = true }.

Lemma inv_New (o : option SupervisorOpts) (t : Z) : inv (NewSupervisor o t).
Proof.
  split; cbn; try done; try set_solver.
  unfold second. destruct o as [[]|]; cbn; repeat case_match; lia.
Qed.

(** The loop moves on: it is neither before its start nor after its end, and a child is
    started only while nobody stops it. *)
Lemma inv_loop (s s' : Supervisor) :
  inv s → loop s ≠ NotStarted → loop s ≠ Returned → loop s' ≠ NotStarted →
  (∀ b, loop_backoff (loop s') = Some b → in_bounds (opts s) b) →
  (∀ p, p ∈ alive s' → child (loop s') = Some p) →
  (∀ q, child (loop s') = Some q → proc s' = Some q ∧ stopping s = false) →
  (done_closed s' = true ↔ loop s' = Returned) →
  opts s' = opts s → started s' = started s → stopping s' = stopping s → stopper s' = stopper s →
  waiters s' = waiters s → killed s' = killed s → inv s'.
Proof.
  intros [I1 I2 I3 I4 I5 I6 I7 I8 I9] Hn Hr Hn' Hb Ha Hc Hd Eo Est Esg Esr Ew Ek.
  assert (started s = true) as Hs by (destruct (started s); [done|]; by destruct Hn; apply I6).
  split; rewrite ?Eo, ?Est, ?Esg, ?Esr, ?Ew; try done.
  - intros q Hq. by apply Hc.
  - rewrite Hs. by split.
  - intros c E. specialize (I8 c E). destruct c; cbn in *; rewrite ?Est, ?Ek; try done.
    + split; [done|]. intros q Hq. destruct (Hc q Hq) as [_ F]. assert (stopping s = true) by (apply I7; eauto). congruence.
    + split; [done|]. intros q Hq. destruct (Hc q Hq) as [_ F]. assert (stopping s = true) by (apply I7; eauto). congruence.
    + destruct I8; congruence.
  - intros i b E. destruct (I9 i b E) as [? Hb']. split; [done|]. destruct b; [|done]. destruct Hb'; congruence.
Qed.

(** A call of [Stop] moves on, or a child dies. *)
Lemma inv_call (s s' : Supervisor) :
  inv s → loop s' = loop s → proc s' = proc s → alive s' ⊆ alive s → killed s ⊆ killed s' → opts s' = opts s →
  started s' = started s → stopping s' = stopping s → done_closed s' = done_closed s →
  (is_Some (stopper s') ↔ is_Some (stopper s)) → (∀ c, stopper s' = Some c → stopper_ok s' c) →
  (∀ i b, waiters s' !! i = Some b →
    stopping s = true ∧ if (b : bool) then started s = false ∨ loop s = Returned else started s = true) →
  inv s'.
Proof.
  intros [I1 I2 I3 I4 I5 I6 I7 I8 I9] El Ep Ha Hk Eo Est Esg Ed Hst Hok Hw.
  split; rewrite ?El, ?Ep, ?Eo, ?Est, ?Esg, ?Ed; try done; [auto|]. by rewrite Hst.
Qed.

Lemma stopper_ok_mono (s s' : Supervisor) (c : stop_pc) :
  loop s' = loop s → started s' = started s → killed s ⊆ killed s' → stopper_ok s c → stopper_ok s' c.
Proof. intros El Es Hk. destruct c; cbn; rewrite ?El, ?Es; naive_solver. Qed.

Lemma next_backoff_bounds (o : SupervisorOpts) (b : Z) :
  0 < MinBackoff o → 0 < MaxBackoff o → in_bounds o b → in_bounds o (next_backoff o b).
Proof. unfold in_bounds, next_backoff. lia. Qed.

(** A loop without a child has no process alive. *)
Lemma inv_none (s : Supervisor) (p : positive) : inv s → child (loop s) = None → p ∉ alive s.
Proof. intros Hi E Hp. apply (inv_alive s Hi) in Hp. congruence. Qed.

(** The side conditions of [inv_loop] that hold by computation. *)
Ltac loop_side :=
  cbn;
  try match goal with
  | E : loop ?s = _ |- loop ?s ≠ _ => by rewrite E
  | |- ∀ b, Some _ = Some b → _ => solve [intros ? [= <-]; auto]
  | Hd : done_closed _ = true ↔ _ |- done_closed _ = true ↔ _ => rewrite Hd
  | Hn : ∀ p, None = None → p ∉ alive _ |- ∀ p, p ∈ alive _ → _ => intros q Hq; by destruct (Hn q)
  | Hn : ∀ p, None = None → p ∉ alive _ |- ∀ p, p ∈ _ ∪ alive _ → _ =>
      intros q [->%elem_of_singleton|Hq]%elem_of_union; [done|by destruct (Hn q)]
  end; try done.

Lemma inv_run (s s' : Supervisor) :
  inv s → go s s' → loop s' ≠ loop s → inv s'.
Proof.
  intros Hi Hg Hne. pose proof (inv_backoff s Hi) as Hb. pose proof (inv_opts s Hi) as Ho.
  pose proof (λ p, inv_none s p Hi) as Hn. pose proof (inv_done s Hi) as Hd.
  destruct Hg as [s ok b E|s p t b E Hp|s t b E|s u b E Hs|s u b E Hu|s E|s p E|s d E Hd'|s d E Hd'|s E|s p E|s E Hd'|s i E Hd'|s p Hk Ha];
    try (by destruct Hne); rewrite E in Hb, Hn, Hd; cbn in Hb, Hn.
  - unfold run_top. destruct (stopping s) eqn:Es; [|destruct ok]; apply (inv_loop s); loop_side.
  - apply (inv_loop s); loop_side. intros q Hq. pose proof (inv_alive s Hi q Hq) as F. rewrite E in F. by injection F as <-.
  - unfold run_reaped. destruct (stopping s) eqn:Es; apply (inv_loop s); loop_side.
    intros b' [= <-]. destruct (_ <=? _); [unfold in_bounds; lia|auto].
  - apply (inv_loop s); loop_side.
  - apply (inv_loop s); loop_side. intros b' [= <-]. apply next_backoff_bounds; [lia|lia|auto].
  - apply (inv_loop s); loop_side.
Qed.

(** The call that stops moves on. *)
Lemma inv_stopper_move (s : Supervisor) (c c' : stop_pc) :
  inv s → stopper s = Some c → stopper_ok s c' → inv (s <| stopper := Some c' |>).
Proof.
  intros Hi E Hc. apply (inv_call s); try done; [|apply (inv_waiter s Hi)].
  intros c'' [= <-]. by apply (stopper_ok_mono s).
Qed.

Lemma inv_alive_shrinks (s : Supervisor) (p : positive) : inv s → inv (s <| alive ::= λ a, a ∖ {[p]} |>).
Proof.
  intros Hi. apply (inv_call s); cbn; try done; [set_solver| |apply (inv_waiter s Hi)].
  intros c Ec. by apply (stopper_ok_mono s), (inv_stopper s Hi).
Qed.

Lemma inv_calls (s s' : Supervisor) : inv s → go s s' → loop s' = loop s → inv s'.
Proof.
  intros Hi Hg El. pose proof (inv_stopper s Hi) as Hc. pose proof (inv_waiter s Hi) as Hw.
  pose proof (inv_done s Hi) as Hd'. pose proof (inv_proc s Hi) as Hp.
  destruct Hg as [s ok b E|s p t b E Ha|s t b E|s u b E Hs|s u b E Hu|s E|s p E|s d E Hd|s d E Hd|s E|s p E|s E Hd|s i E Hd|s p Hk Ha].
  1-6: exfalso; revert El; unfold run_top, run_reaped; repeat case_match; cbn; congruence.
  1-6: specialize (Hc _ E).
  - by eapply inv_stopper_move.
  - eapply inv_stopper_move; [done|done|]. right. by apply Hd'.
  - by eapply inv_stopper_move.
  - eapply inv_stopper_move; [done|done|]. by split.
  - destruct Hc as [Hs Hc]. apply (inv_call s); try done; [cbn; destruct p; set_solver|].
    intros c' [= <-]. split; [done|]. cbn. intros q Hq. rewrite (Hc q Hq). set_solver.
  - eapply inv_stopper_move; [done|done|]. right. by apply Hd'.
  - apply (inv_call s); cbn; try done. intros j b Hj. destruct (decide (j = i)) as [->|Hne].
    + rewrite list_lookup_insert_eq in Hj by (by eapply lookup_lt_Some). injection Hj as <-.
      destruct (Hw i false E). split; [done|]. right. by apply Hd'.
    + rewrite list_lookup_insert_ne in Hj by done. by apply (Hw j).
  - by apply inv_alive_shrinks.
Qed.

Lemma inv_go (s s' : Supervisor) : inv s → go s s' → inv s'.
Proof.
  intros Hi Hg. destruct (decide (loop s' = loop s)); [by eapply inv_calls|by eapply inv_run].
Qed.

Lemma inv_world (s s' : Supervisor) : inv s → world s s' → inv s'.
Proof.
  intros Hi Hw. pose proof Hi as [I1 I2 I3 I4 I5 I6 I7 I8 I9]. destruct Hw as [s|s|s d E|s p Hp|s d Hd].
  - unfold Start. destruct (started s) eqn:Es; [done|]. destruct (stopping s) eqn:Eg; [done|]. cbn [orb].
    assert (loop s = NotStarted) as El by by apply I6. rewrite El in *.
    split; cbn; rewrite ?Eg in *; try done.
    + intros b [= <-]. unfold in_bounds. lia.
    + split; [|done]. intros F. by apply I5 in F.
    + intros c Ec. assert (is_Some (stopper s)) as F by eauto. by apply I7 in F.
    + intros i b E. by destruct (I9 i b E).
  - unfold stop_enter. destruct (stopping s) eqn:Eg.
    + apply (inv_call s); cbn; try done. intros i b.
      intros [E|[_ E]]%lookup_app_Some; [rewrite Eg in *; by apply I9 in E|].
      apply list_lookup_singleton_Some in E as [_ <-]. destruct (started s); cbn; auto.
    + split; cbn; try done.
      * intros c [= <-]. destruct (started s) eqn:Es; cbn; auto.
      * intros i b E. by destruct (I9 i b E).
  - eapply inv_stopper_move; [done|done|]. apply (I8 _ E).
  - by apply inv_alive_shrinks.
  - apply (inv_call s); cbn; try done.
Qed.

Lemma inv_step (s s' : Supervisor) : inv s → step s s' → inv s'.
Proof. intros Hi [Hg|Hw]; [by eapply inv_go|by eapply inv_world]. Qed.

Lemma inv_steps (s s' : Supervisor) : rtc step s s' → inv s → inv s'.
Proof. induction 1; [done|]. eauto using inv_step. Qed.

Lemma inv_reachable (o : option SupervisorOpts) (t : Z) (s : Supervisor) : rtc step (NewSupervisor o t) s → inv s.
Proof. intros Hr. eapply inv_steps; [done|apply inv_New]. Qed.

(** ** The end of the loop *)

(** Stopped before it started, or stopped and done. *)
Definition over (s : Supervisor) : Prop := stopping s = true ∧ (loop s = NotStarted ∨ loop s = Returned).

Lemma over_step (s s' : Supervisor) : inv s → over s → step s s' → over s'.
Proof.
  intros Hi [Hs Hl] [Hg|Hw].
  - destruct Hg; try (split; [done|exact Hl]); destruct Hl; congruence.
  - destruct Hw; try (split; [done|exact Hl]).
    + unfold Start. rewrite Hs, orb_true_r. by split.
    + unfold stop_enter. rewrite Hs. by split.
Qed.

Lemma over_steps (s s' : Supervisor) : rtc step s s' → inv s → over s → inv s' ∧ over s'.
Proof. induction 1; [done|]. intros Hi Ho. apply IHrtc; [by eapply inv_step|by eapply over_step]. Qed.

(** Whether some call of [Stop] returned. *)
Definition some_returned (s : Supervisor) : Prop := stopper s = Some StopReturned ∨ true ∈ waiters s.

Lemma returned_over (s : Supervisor) : inv s → some_returned s → over s.
Proof.
  intros Hi Hr. assert (stopping s = true ∧ (started s = false ∨ loop s = Returned)) as [Hs Hl].
  { destruct Hr as [E|[i E]%list_elem_of_lookup].
    - split; [apply (inv_stopping s Hi); eauto|]. apply (inv_stopper s Hi _ E).
    - apply (inv_waiter s Hi i true E). }
  split; [done|]. destruct Hl as [Hl|Hl]; [left; by apply (inv_started s Hi)|by right].
Qed.

(** ** Progress of a stop *)

Definition loop_work (l : run_pc) : nat :=
  match l with
  | NotStarted | Returned => 0 | Returning => 1 | Top _ | Reaped _ _ => 2 | Pausing _ _ | Waiting _ _ _ => 3
  end.

Definition stopper_work (c : option stop_pc) : nat :=
  match c with
  | None | Some StopReturned => 0 | Some AwaitDone => 1 | Some (SendKill _) => 2 | Some Reread => 3
  | Some (InGrace _) => 4 | Some (SendTerm _) => 5
  end.

(** What is left to do once somebody stops the loop. *)
Definition work (s : Supervisor) : nat :=
  loop_work (loop s) + stopper_work (stopper s) + count_occ Bool.bool_dec (waiters s) false + size (alive s).

Definition all_returned (s : Supervisor) : Prop := stopper s = Some StopReturned ∧ false ∉ waiters s.

(** Runs without new calls, and the number of steps of [go] in them. *)
Inductive moves : nat → Supervisor → Supervisor → Prop :=
| moves_nil (s : Supervisor) : moves 0 s s
| moves_go (n : nat) (s s1 s2 : Supervisor) : go s s1 → moves n s1 s2 → moves (S n) s s2
| moves_world (n : nat) (s s1 s2 : Supervisor) : world s s1 → s1 ≠ stop_enter s → moves n s1 s2 → moves n s s2.

Lemma count_insert (l : list bool) (i : nat) :
  l !! i = Some false →
  count_occ Bool.bool_dec l false = S (count_occ Bool.bool_dec (<[i := true]> l) false).
Proof.
  revert i. induction l as [|b l IH]; intros [|i] E; try done.
  - injection E as ->. done.
  - change (<[S i := true]> (b :: l)) with (b :: <[i := true]> l). cbn [count_occ].
    rewrite (IH i E). by destruct (Bool.bool_dec b false).
Qed.

Lemma size_shrinks (a : gset positive) (p : positive) : p ∈ a → (size (a ∖ {[p]}) < size a)%nat.
Proof. intros Hp. apply subset_size. set_solver. Qed.

Lemma go_works (s s' : Supervisor) : stopping s = true → go s s' → (work s' < work s)%nat ∧ stopping s' = true.
Proof.
  intros Hs Hg. destruct Hg as [s ok b E|s p t b E Ha|s t b E|s u b E Hs'|s u b E Hu|s E|s p E|s d E Hd|s d E Hd|s E|s p E|s E Hd|s i E Hd|s p Hk Ha];
    unfold run_top, run_reaped; rewrite ?Hs; (split; [|done]); unfold work; cbn; rewrite ?E; cbn; try lia.
  - rewrite (count_insert _ _ E). lia.
  - pose proof (size_shrinks _ _ Ha). lia.
Qed.

Lemma world_works (s s' : Supervisor) :
  stopping s = true → world s s' → s' ≠ stop_enter s → (work s' ≤ work s)%nat ∧ stopping s' = true.
Proof.
  intros Hs Hw Hne. destruct Hw as [s|s|s d E|s p Hp|s d Hd]; try done.
  - unfold Start. by rewrite Hs, orb_true_r.
  - split; [|done]. unfold work. cbn. rewrite E. cbn. lia.
  - split; [|done]. unfold work. cbn. pose proof (size_shrinks _ _ Hp). lia.
Qed.

Lemma moves_bound (n : nat) (s s' : Supervisor) :
  moves n s s' → stopping s = true → (n + work s' ≤ work s)%nat ∧ stopping s' = true ∧ rtc step s s'.
Proof.
  induction 1 as [s|n s s1 s2 Hg _ IH|n s s1 s2 Hw Hne _ IH]; intros Hs; [done|..].
  - destruct (go_works s s1 Hs Hg) as [? Hs1]. destruct (IH Hs1) as (? & ? & ?). split; [lia|]. split; [done|].
    eapply rtc_l; [by left|done].
  - destruct (world_works s s1 Hs Hw Hne) as [? Hs1]. destruct (IH Hs1) as (? & ? & ?). split; [lia|]. split; [done|].
    eapply rtc_l; [by right|done].
Qed.

(** As long as a call is pending something can happen, if need be after a wait. *)
Lemma progress (s : Supervisor) :
  inv s → stopping s = true → all_returned s ∨ ∃ d s', 0 ≤ d ∧ go (s <| time ::= Z.add d |>) s'.
Proof.
  intros Hi Hs. pose proof (proj1 (inv_stopping s Hi) Hs) as [c Hc]. pose proof (inv_stopper s Hi c Hc) as Hok.
  set (s0 := s <| time ::= Z.add 0 |>).
  assert (loop s ≠ NotStarted → loop s ≠ Returned → (∀ q, child (loop s) = Some q → q ∈ killed s) →
    ∃ d s', 0 ≤ d ∧ go (s <| time ::= Z.add d |>) s') as Hloop.
  { intros Hn Hr Hk. exists 0. destruct (loop s) as [|b|p t b|t b|u b| |] eqn:El; try done.
    - eexists. split; [lia|]. by apply (go_top s0 true b).
    - destruct (decide (p ∈ alive s)) as [Ha|Ha]; eexists; (split; [lia|]).
      + apply (go_killed s0 p); [by apply Hk|done].
      + by apply (go_wait s0 p t b).
    - eexists. split; [lia|]. by apply (go_reaped s0 t b).
    - eexists. split; [lia|]. by apply (go_stopCh s0 u b).
    - eexists. split; [lia|]. by apply (go_return s0). }
  destruct c as [p|dl| |p| |]; cbn in Hok.
  - right. exists 0. eexists. split; [lia|]. by apply (go_term s0 p).
  - right. exists (Z.max 0 (dl - time s)). eexists. split; [lia|]. apply (go_grace _ dl); [done|]. cbn. lia.
  - right. exists 0. eexists. split; [lia|]. by apply (go_reread s0).
  - right. exists 0. eexists. split; [lia|]. by apply (go_kill s0 p).
  - right. destruct Hok as [Hst Hk]. destruct (decide (loop s = Returned)) as [E|E].
    + exists 0. eexists. split; [lia|]. apply (go_await s0); [done|]. by apply (inv_done s Hi).
    + apply Hloop; [|done|done]. intros F. apply (inv_started s Hi) in F. congruence.
  - destruct (decide (false ∈ waiters s)) as [[i Ei]%list_elem_of_lookup|]; [right|left; by split].
    destruct (inv_waiter s Hi i false Ei) as [_ Hst]. destruct Hok as [?|El]; [congruence|].
    exists 0. eexists. split; [lia|]. apply (go_waiter s0 i); [done|]. by apply (inv_done s Hi).
Qed.

(** ** Theorems *)

(** [update/supervisor.go, run] The pause between two starts is positive and never
    longer than the larger of the two bounds. *)
Theorem backoff_bounded (o : option SupervisorOpts) (t : Z) (s : Supervisor) (b : Z) :
  rtc step (NewSupervisor o t) s → loop_backoff (loop s) = Some b →
  0 < b ∧ b ≤ Z.max (MinBackoff (opts s)) (MaxBackoff (opts s)).
Proof. intros Hr. apply (inv_backoff s (inv_reachable o t s Hr)). Qed.

(** C13 (update/supervisor.go:92-215): a stopped child stays stopped.  At any time at
    most one child of a supervisor runs.  Once one call of [Stop] returned, whatever
    other calls of [Start], [Stop] and the loop were in progress, none runs and none is
    ever started again. *)
Theorem stop_is_final (o : option SupervisorOpts) (t : Z) (s s' : Supervisor) :
  rtc step (NewSupervisor o t) s → rtc step s s' →
  (size (alive s) ≤ 1)%nat ∧ (some_returned s → alive s' = ∅).
Proof.
  intros Hr Hr'. pose proof (inv_reachable o t s Hr) as Hi. split.
  - destruct (child (loop s)) as [q|] eqn:E.
    + rewrite <- (size_singleton (C := gset positive) q). apply subseteq_size. intros p Hp. apply (inv_alive s Hi) in Hp. set_solver.
    + assert (alive s = ∅) as ->; [|rewrite size_empty; lia]. apply set_eq. intros p. split; [|set_solver]. intros Hp.
      by destruct (inv_none s p Hi E).
  - intros Hs. destruct (over_steps s s' Hr' Hi (returned_over s Hi Hs)) as [Hi' [_ Hl]].
    apply set_eq. intros p. split; [|set_solver]. intros Hp. exfalso.
    apply (inv_none s' p Hi'); [|done]. by destruct Hl as [-> | ->].
Qed.

(** C9 (update/supervisor.go:116-215): every call of [Stop] returns.  From any state
    in which somebody stops the loop, a run without new calls takes at most [work]
    steps besides the passing of time and children that exit on their own; and a run
    that can go no further, however long one waits, has every call returned, even with
    a child that ignores SIGTERM. *)
Theorem stop_completes (o : option SupervisorOpts) (t : Z) (n : nat) (s s' : Supervisor) :
  rtc step (NewSupervisor o t) s → stopping s = true → moves n s s' →
  (n ≤ work s)%nat ∧
  ((∀ d s2, 0 ≤ d → ¬ go (s' <| time ::= Z.add d |>) s2) → all_returned s').
Proof.
  intros Hr Hs Hm. destruct (moves_bound n s s' Hm Hs) as (Hn & Hs' & Hr'). split; [lia|]. intros Hno.
  assert (inv s') as Hi by (eapply inv_steps; [done|by eapply inv_reachable]).
  destruct (progress s' Hi Hs') as [|(d & s2 & Hd & Hg)]; [done|by destruct (Hno d s2 Hd)].
Qed.

(** ** Example: a child that ignores SIGTERM *)

Definition launched : Supervisor := run_top true second (Start (NewSupervisor None 0)).
Definition stopping_child : Supervisor := stop_enter launched.
Lemma launched_reachable : rtc step (NewSupervisor None 0) stopping_child.
Proof.
  eapply rtc_l; [right; apply world_Start|]. eapply rtc_l; [left; by apply (go_top _ true second)|].
  eapply rtc_l; [right; apply world_Stop|]. unfold stopping_child, launched. apply rtc_refl.
Qed.

Lemma stopping_child_stops : stopping stopping_child = true.
Proof. by vm_compute. Qed.

Lemma killed_moves : ∃ s, moves 9 stopping_child s ∧ all_returned s ∧ size (alive stopping_child) = 1%nat.
Proof.
  eexists. split.
  - eapply moves_go; [by apply (go_term _ (Some 1%positive))|].
    eapply moves_world; [by apply (world_time _ (10 * second))|intros F; by apply (f_equal time) in F|].
    eapply moves_go; [by apply (go_grace _ (10 * second))|]. eapply moves_go; [by apply go_reread|].
    eapply moves_go; [by apply (go_kill _ (Some 1%positive))|].
    eapply moves_go; [by apply (go_killed _ 1%positive); vm_compute|].
    eapply moves_go; [apply (go_wait _ 1%positive 0 second); [done|by vm_compute]|].
    eapply moves_go; [by apply (go_reaped _ 0 second)|]. eapply moves_go; [by apply go_return|].
    eapply moves_go; [by apply go_await|]. apply moves_nil.
  - split; [|by vm_compute]. split; [done|]. apply not_elem_of_nil.
Qed.

Lemma stop_completes_witness : ∃ s, all_returned s ∧ (9 ≤ work stopping_child)%nat.
Proof.
  destruct killed_moves as (s & Hm & Hr & _). exists s. split; [exact Hr|].
  destruct (stop_completes None 0 9 stopping_child s launched_reachable stopping_child_stops Hm) as [Hn _]. exact Hn.
Defined.

Lemma stop_is_final_witness : ∃ s, stopper s = Some StopReturned ∧ (some_returned s → alive s = ∅).
Proof.
  destruct killed_moves as (s & Hm & [Hr _] & _). exists s. split; [exact Hr|].
  destruct (moves_bound 9 stopping_child s Hm stopping_child_stops) as (_ & _ & Hs).
  assert (rtc step (NewSupervisor None 0) s) as Hr' by (transitivity stopping_child; [exact launched_reachable|exact Hs]).
  destruct (stop_is_final None 0 s s Hr' (rtc_refl step s)) as [_ Hf]. exact Hf.
Defined.
