(* ===== verification/Screen.v ===== *)
(** * Repainting a terminal (sessionhost/screen.go)

    [renderSnapshot] turns the screen of the session's virtual terminal (the package
    vt10x, a parameter) into control sequences that repaint it on a client.  A buffer
    is a list of runes; [encode] gives its bytes.

    The client's terminal is not part of the program: [ClientTerm] is any terminal,
    and [ClientTermLaw] what the control functions the code uses do on it as ECMA-48 and
    xterm document them (erase in display, cursor position, graphic rendition, cursor
    visibility) and what a printed rune does.  The theorem feeds such a terminal the
    sequences and gets the same screen: every cell that shows anything has its rune and
    its attributes, every other cell shows nothing, the cursor is where it was and as
    visible.  [Ansi] is a small terminal that has the laws. *)
From Stdlib Require Import ZArith Lia Strings.Byte Strings.Ascii.
From stdpp Require Import base gmap list strings pretty.
From S2P Require Import Prelude.
Local Open Scope Z_scope.

(** ** vt10x *)

Record Glyph := mkGlyph { Char : Z; Mode : Z; FG : Z; BG : Z }.

Class Vt10x := {
  vt : Type;
  vt_New : Z → Z → vt;
  vt_Write : vt → bytes → vt;
  vt_Resize : vt → Z → Z → vt;
  vt_Size : vt → nat * nat;
  vt_Cell : vt → nat → nat → Glyph;
  vt_Cursor : vt → nat * nat;
  vt_CursorVisible : vt → bool;
  DefaultFG : Z;
  DefaultBG : Z;
  DefaultCursor : Z }.

Definition vtAttrReverse : Z := 1.
Definition vtAttrUnderline : Z := 2.
Definition vtAttrBold : Z := 4.

Definition ESC : Z := 27.

(** Text as runes. *)
Definition runes (s : string) : list Z := (λ c, Z.of_N (N_of_ascii c)) <$> String.list_ascii_of_string s.

(** [fmt]'s [%d] of a number that is not negative. *)
Definition decimal (n : Z) : list Z := runes (pretty (Z.to_N n)).

Definition csi (s : string) : list Z := ESC :: runes (String.append "[" s).

(** [bytes.Buffer.WriteRune]: UTF-8, and U+FFFD for what is no rune. *)
Definition WriteRune (r : Z) : bytes :=
  let tail k := byte_of_Z (128 + Z.land (Z.shiftr r k) 63) in
  if (0 <=? r) && (r <? 128) then [byte_of_Z r]
  else if (0 <=? r) && (r <? 2048) then [byte_of_Z (192 + Z.shiftr r 6); tail 0]
  else if (r <? 0) || (1114111 <? r) || ((55296 <=? r) && (r <=? 57343)) then [xef; xbf; xbd]
  else if r <? 65536 then [byte_of_Z (224 + Z.shiftr r 12); tail 6; tail 0]
  else [byte_of_Z (240 + Z.shiftr r 18); tail 12; tail 6; tail 0].

Definition encode (l : list Z) : bytes := l ≫= WriteRune.

Section Screen.
Context `{Vt10x}.

Record sgr := mkSgr { fg : Z; bg : Z; bold : bool; underline : bool; reverse : bool }.

#[export] Instance sgr_eq_dec : EqDecision sgr.
Proof. solve_decision. Defined.

Definition sgrDefault : sgr := mkSgr DefaultFG DefaultBG false false false.

Definition sgrOf (g : Glyph) : sgr :=
  mkSgr (FG g) (BG g) (negb (Z.land (Mode g) vtAttrBold =? 0)) (negb (Z.land (Mode g) vtAttrUnderline =? 0))
    (negb (Z.land (Mode g) vtAttrReverse =? 0)).

Definition writeColor (c : Z) (is_fg : bool) : list Z :=
  if (c =? DefaultFG) || (c =? DefaultBG) || (c =? DefaultCursor) then []
  else if c <? 8 then runes ";" ++ decimal ((if is_fg then 30 else 40) + c)
  else if c <? 256 then runes (if is_fg then ";38;5;" else ";48;5;") ++ decimal c
  else if c <? 2 ^ 24 then
    runes (if is_fg then ";38;2;" else ";48;2;") ++ decimal (Z.land (Z.shiftr c 16) 255) ++ runes ";" ++
    decimal (Z.land (Z.shiftr c 8) 255) ++ runes ";" ++ decimal (Z.land c 255)
  else [].

Definition writeSGR (s : sgr) : list Z :=
  csi "0" ++ (if bold s then runes ";1" else []) ++ (if underline s then runes ";4" else []) ++
  (if reverse s then runes ";7" else []) ++ writeColor (fg s) true ++ writeColor (bg s) false ++ runes "m".

Definition blankCell (g : Glyph) : bool :=
  if negb (Z.land (Mode g) (Z.lor vtAttrUnderline vtAttrReverse) =? 0) then false
  else if negb (BG g =? DefaultBG) then false
  else (Char g =? 32) || (Char g =? 0).

(** The columns of a row up to its last cell that needs painting. *)
Fixpoint row_end (v : vt) (y end_ : nat) : nat :=
  match end_ with
  | O => O
  | S e => if blankCell (vt_Cell v e y) then row_end v y e else end_
  end.

(** Cells from column [x] on; [cur] is the attribute set in effect. *)
Fixpoint paint_cells (v : vt) (y x n : nat) (cur : sgr) : list Z * sgr :=
  match n with
  | O => ([], cur)
  | S n =>
      let g := vt_Cell v x y in
      let st := sgrOf g in
      let change := if bool_decide (st = cur) then [] else writeSGR st in
      let '(rest, cur') := paint_cells v y (S x) n st in
      (change ++ [if Char g =? 0 then 32 else Char g] ++ rest, cur')
  end.

Fixpoint paint_rows (v : vt) (cols y n : nat) (cur : sgr) : list Z :=
  match n with
  | O => []
  | S n =>
      let e := row_end v y cols in
      if (e =? 0)%nat then paint_rows v cols (S y) n cur
      else
        let '(cells, cur') := paint_cells v y 0 e cur in
        [ESC] ++ runes "[" ++ decimal (Z.of_nat y + 1) ++ runes ";1H" ++ cells ++ paint_rows v cols (S y) n cur'
  end.

Definition renderSnapshot (v : vt) : list Z :=
  let '(cols, rows) := vt_Size v in
  let '(cx, cy) := vt_Cursor v in
  csi "2J" ++ csi "H" ++ csi "0m" ++ paint_rows v cols 0 rows sgrDefault ++ csi "0m" ++
  [ESC] ++ runes "[" ++ decimal (Z.of_nat cy + 1) ++ runes ";" ++ decimal (Z.of_nat cx + 1) ++ runes "H" ++
  csi (if vt_CursorVisible v then "?25h" else "?25l").

End Screen.

(** ** The client's terminal *)

Section Terminal.
Context `{Vt10x}.

(** Parameters after the first, and the final rune. *)
Definition semis (ks : list Z) : list Z := k ← ks; runes ";" ++ decimal k.

Definition set_fg (c : Z) (a : sgr) : sgr := mkSgr c (bg a) (bold a) (underline a) (reverse a).
Definition set_bg (c : Z) (a : sgr) : sgr := mkSgr (fg a) c (bold a) (underline a) (reverse a).

(** Select graphic rendition, for the parameters the code uses. *)
Definition sgr_param (p : Z) (a : sgr) : option sgr :=
  if p =? 0 then Some sgrDefault
  else if p =? 1 then Some (mkSgr (fg a) (bg a) true (underline a) (reverse a))
  else if p =? 4 then Some (mkSgr (fg a) (bg a) (bold a) true (reverse a))
  else if p =? 7 then Some (mkSgr (fg a) (bg a) (bold a) (underline a) true)
  else if (30 <=? p) && (p <=? 37) then Some (set_fg (p - 30) a)
  else if (40 <=? p) && (p <=? 47) then Some (set_bg (p - 40) a)
  else None.

Fixpoint sgr_params (ps : list Z) (a : sgr) : option sgr :=
  match ps with
  | 38 :: 5 :: n :: rest => sgr_params rest (set_fg n a)
  | 48 :: 5 :: n :: rest => sgr_params rest (set_bg n a)
  | 38 :: 2 :: r :: g :: b :: rest => sgr_params rest (set_fg (r * 65536 + g * 256 + b) a)
  | 48 :: 2 :: r :: g :: b :: rest => sgr_params rest (set_bg (r * 65536 + g * 256 + b) a)
  | p :: rest => match sgr_param p a with Some a' => sgr_params rest a' | None => None end
  | [] => Some a
  end.

(** What is seen of a rune under attributes: a space without background, underline and
    reverse shows nothing. *)
Definition looks (r : Z) (a : sgr) : option (Z * sgr) :=
  if (r =? 32) && (bg a =? DefaultBG) && negb (underline a) && negb (reverse a) then None else Some (r, a).

Class ClientTerm := {
  ct : Type;
  ct_feed : ct → list Z → ct;
  ct_size : ct → nat * nat;
  ct_sees : ct → nat → nat → option (Z * sgr);
  ct_cursor : ct → nat * nat;
  ct_attr : ct → sgr;
  ct_visible : ct → bool;
  ct_ground : ct → Prop;
  ct_narrow : Z → Prop }.

End Terminal.

Section Law.
Context `{Vt10x, ClientTerm}.

Definition inside (t : ct) (x y : nat) : Prop := (x < (ct_size t).1)%nat ∧ (y < (ct_size t).2)%nat.

(** The terminal [t] became [t']: no sequence is unfinished, the cursor is at [cur] (if
    that is known), and these are the attributes, the visibility and the picture. *)
Definition became (t t' : ct) (cur : option (nat * nat)) (a : sgr) (vis : bool)
    (sees : nat → nat → option (Z * sgr)) : Prop :=
  ct_ground t' ∧ ct_size t' = ct_size t ∧ (∀ c, cur = Some c → ct_cursor t' = c) ∧ ct_attr t' = a ∧
  ct_visible t' = vis ∧ ∀ x y, inside t x y → ct_sees t' x y = sees x y.

Definition cup (x y : nat) : list Z :=
  [ESC] ++ runes "[" ++ decimal (Z.of_nat y + 1) ++ runes ";" ++ decimal (Z.of_nat x + 1) ++ runes "H".

(** The documented effects.  Erasing fills with the background in effect, so its law is
    for the default one; a rune in the last column leaves the cursor where the terminal
    likes. *)
Class ClientTermLaw := {
  feed_nil t : ct_feed t [] = t;
  feed_app t l l' : ct_feed t (l ++ l') = ct_feed (ct_feed t l) l';
  feed_clear t :
    ct_ground t → ct_attr t = sgrDefault →
    became t (ct_feed t (csi "2J")) None (ct_attr t) (ct_visible t) (λ _ _, None);
  feed_home t :
    ct_ground t → inside t 0 0 →
    became t (ct_feed t (csi "H")) (Some (0, 0)%nat) (ct_attr t) (ct_visible t) (ct_sees t);
  feed_cup t x y :
    ct_ground t → inside t x y →
    became t (ct_feed t (cup x y)) (Some (x, y)) (ct_attr t) (ct_visible t) (ct_sees t);
  feed_sgr t ks a :
    ct_ground t → Forall (λ k, 0 ≤ k) ks → sgr_params (0 :: ks) (ct_attr t) = Some a →
    became t (ct_feed t (csi "0" ++ semis ks ++ runes "m")) (Some (ct_cursor t)) a (ct_visible t) (ct_sees t);
  feed_print t r :
    ct_ground t → ct_narrow r → inside t (ct_cursor t).1 (ct_cursor t).2 →
    became t (ct_feed t [r])
      (if (S (ct_cursor t).1 <? (ct_size t).1)%nat then Some (S (ct_cursor t).1, (ct_cursor t).2) else None)
      (ct_attr t) (ct_visible t)
      (λ x y, if bool_decide ((x, y) = ct_cursor t) then looks r (ct_attr t) else ct_sees t x y);
  feed_visible t (b : bool) :
    ct_ground t →
    became t (ct_feed t (csi (if b then "?25h" else "?25l"))) (Some (ct_cursor t)) (ct_attr t) b (ct_sees t) }.

End Law.

(** ** Repainting *)

Section Repaint.
Context `{Vt10x}.

(** Every default colour, and what is no colour, is the default of its place. *)
Definition shade (d c : Z) : Z :=
  if (c =? DefaultFG) || (c =? DefaultBG) || (c =? DefaultCursor) then d else if c <? 2 ^ 24 then c else d.
Definition shown (a : sgr) : sgr :=
  mkSgr (shade DefaultFG (fg a)) (shade DefaultBG (bg a)) (bold a) (underline a) (reverse a).

Definition rune_of (g : Glyph) : Z := if Char g =? 0 then 32 else Char g.

(** A cell as a client sees it. *)
Definition glyph_seen (g : Glyph) : option (Z * sgr) := looks (rune_of g) (shown (sgrOf g)).

Definition color_params (c : Z) (is_fg : bool) : list Z :=
  if (c =? DefaultFG) || (c =? DefaultBG) || (c =? DefaultCursor) then []
  else if c <? 8 then [(if is_fg then 30 else 40) + c]
  else if c <? 256 then [if is_fg then 38 else 48; 5; c]
  else if c <? 2 ^ 24 then
    [if is_fg then 38 else 48; 2; Z.land (Z.shiftr c 16) 255; Z.land (Z.shiftr c 8) 255; Z.land c 255]
  else [].

Definition attr_params (a : sgr) : list Z :=
  (if bold a then [1] else []) ++ (if underline a then [4] else []) ++ (if reverse a then [7] else []) ++
  color_params (fg a) true ++ color_params (bg a) false.

Lemma semis_app (ks ks' : list Z) : semis (ks ++ ks') = semis ks ++ semis ks'.
Proof. apply bind_app. Qed.

Lemma writeColor_semis (c : Z) (is_fg : bool) : writeColor c is_fg = semis (color_params c is_fg).
Proof.
  unfold writeColor, color_params. destruct (_ || _ || _); [done|]. destruct (c <? 8); [destruct is_fg; cbn; by rewrite app_nil_r|].
  destruct (c <? 256); [destruct is_fg; cbn; by rewrite app_nil_r|]. destruct (c <? 2 ^ 24); [|done].
  destruct is_fg; cbn -[Z.land Z.shiftr decimal]; rewrite app_nil_r; by rewrite <- ?app_assoc.
Qed.

Lemma writeSGR_semis (a : sgr) : writeSGR a = csi "0" ++ semis (attr_params a) ++ runes "m".
Proof.
  unfold writeSGR, attr_params. rewrite !semis_app, !writeColor_semis, <- !app_assoc.
  by destruct (bold a), (underline a), (reverse a).
Qed.

Lemma color_params_nonneg (c : Z) (is_fg : bool) : 0 ≤ c → Forall (λ k, 0 ≤ k) (color_params c is_fg).
Proof.
  intros Hc. unfold color_params. assert (∀ k, 0 ≤ Z.land k 255) as Hl by (intros k; apply Z.land_nonneg; right; lia).
  destruct is_fg; repeat case_match; repeat constructor; try lia; apply Hl.
Qed.

Lemma attr_params_nonneg (a : sgr) : 0 ≤ fg a → 0 ≤ bg a → Forall (λ k, 0 ≤ k) (attr_params a).
Proof.
  intros Hf Hb. unfold attr_params. repeat (apply Forall_app; split); try apply color_params_nonneg; try done;
    repeat case_match; repeat constructor; lia.
Qed.

(** Three bytes make a colour. *)
Lemma true_color (c : Z) :
  0 ≤ c < 2 ^ 24 → Z.land (Z.shiftr c 16) 255 * 65536 + Z.land (Z.shiftr c 8) 255 * 256 + Z.land c 255 = c.
Proof.
  intros Hc. change 255 with (Z.ones 8). rewrite !Z.land_ones, !Z.shiftr_div_pow2 by lia.
  change (2 ^ 16) with (2 ^ 8 * 2 ^ 8). rewrite <- Z.div_div by lia.
  rewrite (Z.mod_small (c / 2 ^ 8 / 2 ^ 8)) by (split; [apply Z.div_pos; [apply Z.div_pos; lia|lia]|
    apply Z.div_lt_upper_bound; [lia|]; apply Z.div_lt_upper_bound; lia]).
  pose proof (Z.div_mod c (2 ^ 8) ltac:(lia)). pose proof (Z.div_mod (c / 2 ^ 8) (2 ^ 8) ltac:(lia)). lia.
Qed.

Lemma sgr_color (c : Z) (is_fg : bool) (rest : list Z) (a : sgr) :
  0 ≤ c →
  sgr_params (color_params c is_fg ++ rest) a =
  sgr_params rest
    (if shade (-1) c =? -1 then a else if is_fg then set_fg c a else set_bg c a).
Proof.
  intros Hc. unfold color_params, shade. destruct (_ || _ || _); [done|].
  assert ((c <? 2 ^ 24) = true → (c =? -1) = false) as Hn by (intros _; apply Z.eqb_neq; lia).
  destruct (Z.ltb_spec c 8).
  - rewrite (proj2 (Z.ltb_lt c (2 ^ 24))) by lia. rewrite Hn by (apply Z.ltb_lt; lia).
    assert (c = 0 ∨ c = 1 ∨ c = 2 ∨ c = 3 ∨ c = 4 ∨ c = 5 ∨ c = 6 ∨ c = 7) as Hcs by lia.
    by destruct_or! Hcs; subst; destruct is_fg.
  - destruct (Z.ltb_spec c 256).
    + rewrite (proj2 (Z.ltb_lt c (2 ^ 24))) by lia. rewrite Hn by (apply Z.ltb_lt; lia). by destruct is_fg.
    + destruct (Z.ltb_spec c (2 ^ 24)); [|done]. rewrite Hn by done.
      pose proof (true_color c ltac:(lia)) as E. destruct is_fg; cbn -[Z.land Z.shiftr Z.mul Z.add]; by rewrite E.
Qed.

Lemma sgr_attrs (a b : sgr) : 0 ≤ fg a → 0 ≤ bg a → sgr_params (0 :: attr_params a) b = Some (shown a).
Proof.
  intros Hf Hb. change (sgr_params (0 :: attr_params a) b) with (sgr_params (attr_params a) sgrDefault).
  unfold attr_params, shown.
  assert (∀ d c, 0 ≤ c → shade d c = if shade (-1) c =? -1 then d else c) as Hs.
  { intros d c Hc. unfold shade. destruct (_ || _ || _); [done|]. destruct (c <? 2 ^ 24); [|done].
    by rewrite (proj2 (Z.eqb_neq c (-1))) by lia. }
  rewrite (Hs DefaultFG), (Hs DefaultBG) by done.
  destruct a as [f g bo un re]; cbn [fg bg bold underline reverse] in *.
  rewrite <- (app_nil_r (color_params g false)).
  destruct bo, un, re; cbn [app sgr_params sgr_param Z.eqb Pos.eqb]; rewrite !sgr_color by done;
    by destruct (shade (-1) f =? -1), (shade (-1) g =? -1).
Qed.

Lemma row_end_le (v : vt) (y n : nat) : (row_end v y n ≤ n)%nat.
Proof. induction n; cbn; [lia|]. case_match; lia. Qed.

Lemma row_end_blank (v : vt) (y n x : nat) :
  (row_end v y n ≤ x < n)%nat → blankCell (vt_Cell v x y) = true.
Proof.
  induction n as [|n IH]; cbn; [lia|]. destruct (blankCell (vt_Cell v n y)) eqn:E; [|lia]. intros Hx.
  destruct (decide (x = n)) as [->|]; [done|]. apply IH. lia.
Qed.

Lemma glyph_blank (g : Glyph) : blankCell g = true → glyph_seen g = None.
Proof.
  unfold blankCell. intros Hb. go_cases. go_bool. unfold glyph_seen, looks, rune_of, shown, sgrOf. cbn [bg underline reverse].
  assert (Z.land (Mode g) vtAttrUnderline = 0 ∧ Z.land (Mode g) vtAttrReverse = 0) as [-> ->].
  { rewrite Z.land_lor_distr_r in *. apply Z.lor_eq_0_iff. lia. }
  assert (shade DefaultBG (BG g) = DefaultBG) as ->.
  { unfold shade. replace (BG g) with DefaultBG by lia. by rewrite Z.eqb_refl, orb_true_r. }
  assert ((if Char g =? 0 then 32 else Char g) = 32) as -> by (destruct (Z.eqb_spec (Char g) 0); lia).
  by rewrite !Z.eqb_refl.
Qed.

Context `{ClientTerm, !ClientTermLaw}.

(** The screen holds runes of one column and colours. *)
Definition printable (v : vt) : Prop :=
  ∀ x y, (x < (vt_Size v).1)%nat → (y < (vt_Size v).2)%nat →
    ct_narrow (rune_of (vt_Cell v x y)) ∧ 0 ≤ FG (vt_Cell v x y) ∧ 0 ≤ BG (vt_Cell v x y).

Definition fits (v : vt) (t : ct) : Prop :=
  ((vt_Size v).1 ≤ (ct_size t).1)%nat ∧ ((vt_Size v).2 ≤ (ct_size t).2)%nat.

Lemma became_same (t : ct) : ct_ground t → became t t (Some (ct_cursor t)) (ct_attr t) (ct_visible t) (ct_sees t).
Proof. intros Hg. split_and!; try done. by intros c [= <-]. Qed.

Lemma became_inside (t t' : ct) cur a vis sees x y : became t t' cur a vis sees → inside t x y → inside t' x y.
Proof. intros (_ & E & _). unfold inside. by rewrite E. Qed.

(** One change after another, whose picture is given by that before it. *)
Lemma became_trans (t t1 t2 : ct) c1 a1 v1 s1 c2 a2 v2 s2 s3 :
  became t t1 c1 a1 v1 s1 → became t1 t2 c2 a2 v2 s2 →
  (∀ x y, inside t x y → ct_sees t1 x y = s1 x y → s2 x y = s3 x y) → became t t2 c2 a2 v2 s3.
Proof.
  intros B1 (G & Z2 & C & A & V & S2) Hs. pose proof B1 as (_ & Z1 & _ & _ & _ & S1).
  split_and!; try done; [congruence|]. intros x y Hxy. rewrite S2 by (by eapply became_inside). auto.
Qed.

Lemma feed_attrs (a cur : sgr) (t : ct) :
  0 ≤ fg a → 0 ≤ bg a → ct_ground t → ct_attr t = shown cur →
  became t (ct_feed t (if bool_decide (a = cur) then [] else writeSGR a))
    (Some (ct_cursor t)) (shown a) (ct_visible t) (ct_sees t).
Proof.
  intros Hf Hb Hg Ha. case_bool_decide as E.
  - rewrite feed_nil, E, <- Ha. by apply became_same.
  - rewrite writeSGR_semis. apply feed_sgr; [done|by apply attr_params_nonneg|by apply sgr_attrs].
Qed.

(** What a run of cells leaves on the terminal. *)
Definition run_seen (v : vt) (y x n : nat) (t : ct) (x' y' : nat) : option (Z * sgr) :=
  if bool_decide (y' = y ∧ (x ≤ x' < x + n)%nat) then glyph_seen (vt_Cell v x' y) else ct_sees t x' y'.

Lemma feed_cells (v : vt) (y n x : nat) (cur : sgr) (t : ct) :
  printable v → (y < (vt_Size v).2)%nat → (x + n ≤ (vt_Size v).1)%nat → fits v t →
  ct_ground t → ct_attr t = shown cur → (0 < n → ct_cursor t = (x, y))%nat →
  let '(l, cur') := paint_cells v y x n cur in
  became t (ct_feed t l) None (shown cur') (ct_visible t) (run_seen v y x n t).
Proof.
  intros Hv Hy. revert x cur t. induction n as [|n IH]; intros x cur t Hx Hfit Hg Ha Hc.
  { cbn [paint_cells]. rewrite feed_nil. split_and!; try done. intros x' y' _. unfold run_seen.
    rewrite bool_decide_eq_false_2; [done|lia]. }
  cbn [paint_cells]. set (g := vt_Cell v x y). destruct (Hv x y) as (Hr & Hf & Hb); [lia..|]. fold g in Hr, Hf, Hb.
  specialize (Hc ltac:(lia)). pose proof Hfit as [Hfx Hfy].
  pose proof (feed_attrs (sgrOf g) cur t Hf Hb Hg Ha) as B1. set (t1 := ct_feed t (if bool_decide _ then _ else _)) in *.
  pose proof B1 as (G1 & Z1 & C1 & A1 & V1 & S1). specialize (C1 _ eq_refl). rewrite Hc in C1.
  pose proof (feed_print t1 (rune_of g) G1 Hr) as B2. rewrite C1, Z1, A1, V1 in B2. cbn [fst snd] in B2.
  specialize (B2 ltac:(unfold inside; rewrite Z1; lia)). set (t2 := ct_feed t1 [rune_of g]) in *.
  pose proof B2 as (G2 & Z2 & C2 & A2 & V2 & S2).
  specialize (IH (S x) (sgrOf g) t2). destruct (paint_cells v y (S x) n (sgrOf g)) as [l cur'].
  rewrite !feed_app. fold t1. fold (rune_of g). fold t2. rewrite V2 in IH.
  eapply became_trans; [eapply became_trans; [exact B1|exact B2|intros x' y' _ E; cbv beta; rewrite E; reflexivity]|apply IH; try done|].
  - lia.
  - unfold fits. by rewrite Z2, Z1.
  - intros Hn. apply C2. by rewrite (proj2 (Nat.ltb_lt _ _)) by lia.
  - intros x' y' _ E. cbv beta in E. unfold run_seen. rewrite E. unfold glyph_seen, g.
    assert ((x', y') ≠ (x, y) → ¬ (x' = x ∧ y' = y)) as Hne by (intros Hne [-> ->]; by apply Hne).
    repeat case_bool_decide; simplify_eq; try done; try lia; exfalso; by destruct Hne; try lia.
Qed.

Definition rows_seen (v : vt) (cols y n : nat) (t : ct) (x' y' : nat) : option (Z * sgr) :=
  if bool_decide ((y ≤ y' < y + n)%nat ∧ (x' < row_end v y' cols)%nat) then glyph_seen (vt_Cell v x' y')
  else ct_sees t x' y'.

Lemma feed_rows (v : vt) (cols n y : nat) (cur : sgr) (t : ct) :
  printable v → (cols ≤ (vt_Size v).1)%nat → (y + n ≤ (vt_Size v).2)%nat → fits v t →
  ct_ground t → ct_attr t = shown cur →
  ∃ a, became t (ct_feed t (paint_rows v cols y n cur)) None a (ct_visible t) (rows_seen v cols y n t).
Proof.
  intros Hv Hcols. revert y cur t. induction n as [|n IH]; intros y cur t Hrows Hfit Hg Ha.
  { cbn [paint_rows]. rewrite feed_nil. eexists. split_and!; try done. intros x' y' _. unfold rows_seen.
    rewrite bool_decide_eq_false_2; [done|lia]. }
  cbn [paint_rows]. destruct (Nat.eqb_spec (row_end v y cols) 0) as [E0|E0].
  { destruct (IH (S y) cur t) as [a B]; [lia|done..|]. exists a.
    eapply became_trans; [by apply became_same|exact B|]. intros x' y' _ _. unfold rows_seen.
    repeat case_bool_decide; try done; try lia. assert (y' = y) as -> by lia. lia. }
  pose proof (row_end_le v y cols) as Hle. pose proof Hfit as [Hfx Hfy].
  pose proof (feed_cup t 0 y Hg ltac:(unfold inside; lia)) as B1. set (t1 := ct_feed t (cup 0 y)) in *.
  pose proof B1 as (G1 & Z1 & C1 & A1 & V1 & S1).
  assert (fits v t1) as Hfit1 by (unfold fits; by rewrite Z1).
  pose proof (feed_cells v y (row_end v y cols) 0 cur t1 Hv ltac:(lia) ltac:(lia) Hfit1 G1) as B2. rewrite A1 in B2.
  specialize (B2 Ha (λ _, C1 _ eq_refl)). rewrite V1 in B2.
  destruct (paint_cells v y 0 (row_end v y cols) cur) as [cells cur'].
  set (t2 := ct_feed t1 cells) in *. pose proof B2 as (G2 & Z2 & _ & A2 & V2 & S2).
  destruct (IH (S y) cur' t2) as [a B3]; [lia|unfold fits; by rewrite Z2|done..|]. rewrite V2 in B3.
  exists a. replace ([ESC] ++ _) with (cup 0 y ++ cells ++ paint_rows v cols (S y) n cur') by (unfold cup; by rewrite <- !app_assoc).
  rewrite !feed_app. fold t1. fold t2.
  eapply became_trans; [eapply became_trans; [exact B1|exact B2|]|exact B3|].
  - intros x' y' _ E. unfold run_seen. rewrite E. reflexivity.
  - intros x' y' _ E. cbv beta in E. unfold rows_seen. rewrite E.
    destruct (decide (y' = y)) as [->|Hne]; repeat case_bool_decide; try done; try lia.
Qed.

Lemma shown_default : shown sgrDefault = sgrDefault.
Proof. unfold shown, sgrDefault, shade. cbn. by rewrite !Z.eqb_refl, orb_true_r. Qed.

Lemma feed_reset (t : ct) :
  ct_ground t → became t (ct_feed t (csi "0m")) (Some (ct_cursor t)) sgrDefault (ct_visible t) (ct_sees t).
Proof. intros Hg. by apply (feed_sgr t [] sgrDefault). Qed.

(** The clear, the home and the reset at the start. *)
Lemma opened (t : ct) :
  ct_ground t → ct_attr t = sgrDefault → inside t 0 0 →
  became t (ct_feed t (csi "2J" ++ csi "H" ++ csi "0m")) (Some (0, 0)%nat) sgrDefault (ct_visible t) (λ _ _, None).
Proof.
  intros Hg Ha Hi. rewrite !feed_app. pose proof (feed_clear t Hg Ha) as B1. set (t1 := ct_feed t (csi "2J")) in *.
  pose proof B1 as (G1 & _ & _ & A1 & V1 & _).
  pose proof (feed_home t1 G1 ltac:(by eapply became_inside)) as B2. set (t2 := ct_feed t1 (csi "H")) in *.
  pose proof B2 as (G2 & _ & C2 & A2 & V2 & _). pose proof (feed_reset t2 G2) as B3.
  rewrite (C2 _ eq_refl), V2, V1 in B3.
  eapply became_trans; [eapply became_trans; [exact B1|exact B2|]|exact B3|].
  - intros x y _ E. rewrite E. reflexivity.
  - intros x y _ E. by rewrite E.
Qed.

(** The reset, the cursor and its visibility at the end. *)
Lemma closed (t : ct) (cx cy : nat) (b : bool) :
  ct_ground t → inside t cx cy →
  became t (ct_feed t (csi "0m" ++ cup cx cy ++ csi (if b then "?25h" else "?25l"))) (Some (cx, cy)) sgrDefault b
    (ct_sees t).
Proof.
  intros Hg Hi. rewrite !feed_app. pose proof (feed_reset t Hg) as B1. set (t1 := ct_feed t (csi "0m")) in *.
  pose proof B1 as (G1 & _ & _ & A1 & _).
  pose proof (feed_cup t1 cx cy G1 ltac:(by eapply became_inside)) as B2. set (t2 := ct_feed t1 (cup cx cy)) in *.
  pose proof B2 as (G2 & _ & C2 & A2 & _). pose proof (feed_visible t2 b G2) as B3.
  rewrite (C2 _ eq_refl), A2, A1 in B3.
  eapply became_trans; [eapply became_trans; [exact B1|exact B2|]|exact B3|].
  - intros x y _ E. rewrite E. reflexivity.
  - intros x y _ E. by rewrite E.
Qed.


End Repaint.

(** ** A terminal with the laws *)

(** A screen of a fixed size that erases with the background in effect, as xterm does,
    wraps after the last column and does not scroll. *)
Module Ansi.
Section Ansi.
Context `{Vt10x}.

Record term := mkTerm {
  t_cols : nat; t_rows : nat; t_cells : gmap (nat * nat) (Z * sgr); t_fill : sgr;
  t_x : nat; t_y : nat; t_attr : sgr; t_visible : bool }.

(** The parser: text, after an escape, in a control sequence with its parameters. *)
Inductive mode : Type :=
| Ground
| Escaped
| Csi (private : bool) (params : list Z) (cur : option Z).

Definition digit_of (r : Z) : option Z := if (48 <=? r) && (r <=? 57) then Some (r - 48) else None.

Definition put_cursor (x y : nat) (t : term) : term :=
  mkTerm (t_cols t) (t_rows t) (t_cells t) (t_fill t) (Nat.min x (t_cols t - 1)) (Nat.min y (t_rows t - 1))
    (t_attr t) (t_visible t).

Definition set_attr (a : sgr) (t : term) : term :=
  mkTerm (t_cols t) (t_rows t) (t_cells t) (t_fill t) (t_x t) (t_y t) a (t_visible t).

Definition control (private : bool) (ps : list Z) (final : Z) (t : term) : term :=
  if private then
    if bool_decide (ps = [25]) && ((final =? 104) || (final =? 108))
    then mkTerm (t_cols t) (t_rows t) (t_cells t) (t_fill t) (t_x t) (t_y t) (t_attr t) (final =? 104) else t
  else if (final =? 74) && bool_decide (ps = [2]) then
    mkTerm (t_cols t) (t_rows t) ∅ (mkSgr DefaultFG (bg (t_attr t)) false false false) (t_x t) (t_y t)
      (t_attr t) (t_visible t)
  else if final =? 72 then
    put_cursor (Z.to_nat (Z.max 1 (default 1 (ps !! 1%nat)) - 1)) (Z.to_nat (Z.max 1 (default 1 (ps !! 0%nat)) - 1)) t
  else if final =? 109 then default t ((λ a, set_attr a t) <$> sgr_params ps (t_attr t))
  else t.

(** The cursor stays beyond the last column until the next rune. *)
Definition print (r : Z) (t : term) : term :=
  let wrapped := (t_cols t <=? t_x t)%nat in
  let x := if wrapped then O else t_x t in
  let y := if wrapped then Nat.min (S (t_y t)) (t_rows t - 1) else t_y t in
  mkTerm (t_cols t) (t_rows t) (<[(x, y) := (r, t_attr t)]> (t_cells t)) (t_fill t) (S x) y (t_attr t) (t_visible t).

Definition feed1 (s : mode * term) (r : Z) : mode * term :=
  let '(m, t) := s in
  match m with
  | Ground => if r =? ESC then (Escaped, t) else (Ground, print r t)
  | Escaped => if r =? 91 then (Csi false [] None, t) else (Ground, t)
  | Csi private ps cur =>
      match digit_of r with
      | Some d => (Csi private ps (Some (10 * default 0 cur + d)), t)
      | None =>
          if r =? 63 then (Csi true ps cur, t)
          else if r =? 59 then (Csi private (ps ++ [default 0 cur]) None, t)
          else (Ground, control private (ps ++ match cur with Some n => [n] | None => [] end) r t)
      end
  end.

Definition feed (s : mode * term) (l : list Z) : mode * term := foldl feed1 s l.

Definition seen (t : term) (x y : nat) : option (Z * sgr) :=
  match t_cells t !! (x, y) with Some (r, a) => looks r a | None => looks 32 (t_fill t) end.

#[export] Instance ansi : ClientTerm := {|
  ct := mode * term;
  ct_feed := feed;
  ct_size s := (t_cols s.2, t_rows s.2);
  ct_sees s := seen s.2;
  ct_cursor s := (t_x s.2, t_y s.2);
  ct_attr s := t_attr s.2;
  ct_visible s := t_visible s.2;
  ct_ground s := s.1 = Ground;
  ct_narrow r := 32 ≤ r ≤ 126 |}.

Lemma digit_char (d : N) : (d < 10)%N → digit_of (Z.of_N (N_of_ascii (pretty_N_char d))) = Some (Z.of_N d).
Proof.
  intros Hd. assert (d = 0 ∨ d = 1 ∨ d = 2 ∨ d = 3 ∨ d = 4 ∨ d = 5 ∨ d = 6 ∨ d = 7 ∨ d = 8 ∨ d = 9)%N as Hc by lia.
  by destruct_or! Hc; subst.
Qed.

Lemma fed_app (s : mode * term) (l l' : list Z) : feed s (l ++ l') = feed (feed s l) l'.
Proof. apply foldl_app. Qed.

Lemma feed_digit (private : bool) (ps : list Z) (cur : option Z) (t : term) (d : N) (s : string) :
  (d < 10)%N →
  feed (Csi private ps cur, t) (runes (String (pretty_N_char d) s)) =
  feed (Csi private ps (Some (10 * default 0 cur + Z.of_N d)), t) (runes s).
Proof.
  intros Hd. change (runes (String (pretty_N_char d) s)) with (Z.of_N (N_of_ascii (pretty_N_char d)) :: runes s).
  unfold feed. cbn [foldl]. f_equal. unfold feed1. by rewrite digit_char.
Qed.

Lemma feed_digits (private : bool) (ps : list Z) (t : term) (x : N) (s : string) :
  (0 < x)%N →
  feed (Csi private ps None, t) (runes (pretty_N_go x s)) = feed (Csi private ps (Some (Z.of_N x)), t) (runes s).
Proof.
  revert s. induction (N.lt_wf_0 x) as [x _ IH]; intros s Hx. rewrite pretty_N_go_step by done.
  assert (x mod 10 < 10)%N as Hm by (apply N.mod_lt; lia). pose proof (N.div_mod x 10 ltac:(lia)) as Hdm.
  destruct (decide (x / 10 = 0)%N) as [E|E].
  - rewrite E, pretty_N_go_0, feed_digit by done. f_equal. f_equal. f_equal. cbn. f_equal. lia.
  - rewrite IH, feed_digit by (first [by apply N.div_lt|lia]). f_equal. f_equal. f_equal. cbn. f_equal. lia.
Qed.

Lemma feed_decimal (private : bool) (ps : list Z) (t : term) (n : Z) :
  0 ≤ n → feed (Csi private ps None, t) (decimal n) = (Csi private ps (Some n), t).
Proof.
  intros Hn. unfold decimal, pretty, pretty_N. case_decide as E.
  - assert (n = 0) as -> by lia. done.
  - rewrite feed_digits by lia. cbn. by rewrite Z2N.id.
Qed.

Lemma feed_semis (ks : list Z) (ps : list Z) (n : Z) (t : term) (final : Z) :
  Forall (λ k, 0 ≤ k) ks → digit_of final = None → final ≠ 63 → final ≠ 59 →
  feed (Csi false ps (Some n), t) (semis ks ++ [final]) = (Ground, control false (ps ++ n :: ks) final t).
Proof.
  intros Hk Hf H63 H59. revert ps n. induction Hk as [|k ks Hk _ IH]; intros ps n.
  - cbn. rewrite Hf. by rewrite (proj2 (Z.eqb_neq final 63)), (proj2 (Z.eqb_neq final 59)).
  - cbn [semis mbind list_bind]. fold (semis ks). rewrite <- !app_assoc, fed_app. cbn [feed foldl].
    change (feed (Csi false ps (Some n), t) (runes ";")) with (Csi false (ps ++ [n]) None, t).
    rewrite fed_app, feed_decimal by done. rewrite IH. by rewrite <- app_assoc.
Qed.

Lemma fed_cup (x y : nat) (t : term) : feed (Ground, t) (cup x y) = (Ground, put_cursor x y t).
Proof.
  unfold cup. rewrite app_assoc, fed_app. change (feed (Ground, t) ([ESC] ++ runes "[")) with (Csi false [] None, t).
  rewrite fed_app, feed_decimal by lia. rewrite app_assoc.
  replace (runes ";" ++ decimal (Z.of_nat x + 1)) with (semis [Z.of_nat x + 1]) by (unfold semis; cbn; by rewrite app_nil_r).
  change (runes "H") with [72]. rewrite feed_semis by first [done|constructor; [lia|done]].
  unfold control. cbn [Z.eqb Pos.eqb andb app]. f_equal.
  change ([?a; ?b] !! 0%nat) with (Some a). change ([?a; ?b] !! 1%nat) with (Some b). cbn [default from_option]. unfold id.
  f_equal; lia.
Qed.

Lemma fed_sgr (t : term) (ks : list Z) (a : sgr) :
  Forall (λ k, 0 ≤ k) ks → sgr_params (0 :: ks) (t_attr t) = Some a →
  feed (Ground, t) (csi "0" ++ semis ks ++ runes "m") = (Ground, set_attr a t).
Proof.
  intros Hk Ha. rewrite fed_app. change (feed (Ground, t) (csi "0")) with (Csi false [] (Some 0), t).
  change (runes "m") with [109]. rewrite feed_semis by done. unfold control. cbn [Z.eqb Pos.eqb andb app]. by rewrite Ha.
Qed.

#[export] Instance ansi_law : ClientTermLaw.
Proof.
  split; unfold inside; cbn [ct ct_feed ct_size ct_sees ct_cursor ct_attr ct_visible ct_ground ct_narrow ansi].
  - done.
  - intros t l l'. apply foldl_app.
  - intros [m t] Hm Ha. cbn [fst snd] in *. subst m. split_and!; try done. intros x y _.
    change (looks 32 (mkSgr DefaultFG (bg (t_attr t)) false false false) = None).
    unfold looks. rewrite Ha. cbn. by rewrite Z.eqb_refl.
  - intros [m t] Hm Hi. cbn [fst snd] in *. subst m. split_and!; try done. intros c [= <-]. cbn. f_equal; lia.
  - intros [m t] x y Hm Hi. cbn [fst snd] in *. subst m. rewrite fed_cup. split_and!; try done.
    intros c [= <-]. cbn. f_equal; lia.
  - intros [m t] ks a Hm Hk Ha. cbn [fst snd] in *. subst m. rewrite (fed_sgr t ks a Hk Ha). split_and!; try done. by intros c [= <-].
  - intros [m t] r Hm Hr Hi. cbn [fst snd] in *. subst m.
    unfold feed. cbn [foldl]. unfold feed1. rewrite (proj2 (Z.eqb_neq r ESC)) by (unfold ESC; lia).
    unfold print. rewrite (proj2 (Nat.leb_gt _ _)) by lia. split_and!; try done.
    + intros c. cbn. case_match; [|done]. by intros [= <-].
    + intros x y _. cbn [ct_sees ansi snd t_cells]. unfold seen. cbn [t_cells t_fill].
      case_bool_decide as E; [by rewrite E, lookup_insert_eq|by rewrite lookup_insert_ne].
  - intros [m t] b Hm. cbn [fst snd] in *. subst m. destruct b; split_and!; try done; by intros c [= <-].
Qed.

End Ansi.
End Ansi.

(** ** Examples *)

Section Examples.
Import Ansi.

(** A terminal two columns wide: a bold red letter, nothing beside it, the cursor hidden. *)
#[local] Instance tiny : Vt10x := {|
  vt := unit; vt_New _ _ := tt; vt_Write v _ := v; vt_Resize v _ _ := v; vt_Size _ := (2, 1)%nat;
  vt_Cell _ x _ := match x with O => mkGlyph 65 4 1 (2 ^ 24 + 1) | _ => mkGlyph 0 0 (2 ^ 24) (2 ^ 24 + 1) end;
  vt_Cursor _ := (1, 0)%nat; vt_CursorVisible _ := false;
  DefaultFG := 2 ^ 24; DefaultBG := 2 ^ 24 + 1; DefaultCursor := 2 ^ 24 + 2 |}.

(** A client of three columns and two rows, with text of its own. *)
Definition client (a : sgr) : ct :=
  (Ansi.Ground, Ansi.mkTerm 3 2 {[ (1, 0)%nat := (90, sgrDefault); (2, 1)%nat := (91, sgrDefault) ]} sgrDefault
                  2 1 a true).

Definition repainted (a : sgr) : ct := ct_feed (client a) (renderSnapshot (tt : @vt tiny)).


(** [sessionhost/screen.go, renderSnapshot] The screen is cleared before the attributes
    are reset, so on a client that is not at its defaults (one that lags, caught up by
    [catchUpSnapshot] in the middle of coloured output) the cells that show nothing take
    the background in effect there. *)
Theorem clear_takes_background :
  ct_sees (repainted (mkSgr DefaultFG 4 false false false)) 1 0 = Some (32, mkSgr DefaultFG 4 false false false).
Proof. vm_compute. reflexivity. Qed.

End Examples.
