(* ===== verification/Recorder.v ===== *)
(** * Session recordings (sessionhost/recorder.go)

    The cast of a session: one line per event, in an encrypted or plain stream whose
    bytes on disk are counted, hashed and capped, and the sidecar the worker uploads it
    by.  What a write does is an argument of the operations: the bytes that reached the
    disk and whether it succeeded.  The code ignores its error; the encryption (age)
    remembers it and reports it when the stream is sealed.  [lines] are the events as a
    reader of the JSON lines gets them: the encoder replaces the bytes of a payload that
    are not UTF-8 ([json_text]), in each chunk of the output by itself.

    A recording that is not flagged as truncated has every event in it, if it is
    encrypted; a plain one, if no write failed. *)
From Stdlib Require Import ZArith Lia Strings.Byte Strings.Ascii.
From stdpp Require Import base list strings pretty.
From S2P Require Import Prelude Proc.
Local Open Scope Z_scope.

(** ** What [encoding/json] makes of a string *)

(** U+FFFD. *)
Definition replacement (s : string) : string :=
  String (ascii_of_N 239) (String (ascii_of_N 191) (String (ascii_of_N 189) s)).

(** Each byte that begins no UTF-8 sequence is replaced. *)
Fixpoint json_text (s : string) : string :=
  match s with
  | EmptyString => EmptyString
  | String a s1 =>
      if in_range 0 127 a then String a (json_text s1)
      else
        match s1 with
        | String b s2 =>
            if utf8_2 a b then String a (String b (json_text s2))
            else
              match s2 with
              | String c s3 =>
                  if utf8_3 a b c then String a (String b (String c (json_text s3)))
                  else match s3 with
                       | String d s4 =>
                           if utf8_4 a b c d then String a (String b (String c (String d (json_text s4))))
                           else replacement (json_text s1)
                       | EmptyString => replacement (json_text s1)
                       end
              | EmptyString => replacement (json_text s1)
              end
        | EmptyString => replacement EmptyString
        end
  end.

(** Text that is UTF-8 is kept. *)
Lemma json_text_valid (s : string) : ValidString s = true → json_text s = s.
Proof.
  remember (String.length s) as n eqn:En. revert s En.
  induction (Nat.lt_wf_0 n) as [n _ IH]; intros [|a s1] -> Hv; [done|].
  assert (∀ t, (String.length t ≤ String.length s1)%nat → ValidString t = true → json_text t = t) as Ht.
  { intros t Hle. apply (IH (String.length t)); [cbn; lia|done]. }
  clear IH. cbn in *. destruct (in_range 0 127 a); [by rewrite Ht|]. destruct s1 as [|b s2]; [done|]. cbn in *.
  destruct (utf8_2 a b); [rewrite Ht; [done|lia|done]|]. destruct s2 as [|c s3]; [done|]. cbn in *.
  destruct (utf8_3 a b c); [rewrite Ht; [done|lia|done]|]. destruct s3 as [|d s4]; [done|]. cbn in *.
  apply andb_true_iff in Hv as [-> Hv]. rewrite Ht; [done|lia|done].
Qed.

(** ** The recorder *)

Record recorderMeta := mkRecorderMeta {
  rm_SessionID : string; rm_WorkspaceID : string; rm_User : string; rm_Provider : string;
  rm_Subject : string; rm_Action : string; rm_AuditKeyID : string }.

Record doneManifest := mkDoneManifest {
  dm_SessionID : string; dm_SizeBytes : Z; dm_AuditKeyID : string; dm_Principal : string;
  dm_Action : string; dm_StartedUnix : Z; dm_EndedUnix : Z; dm_Truncated : bool }.

(** [r_err]: a write failed; [lines]: the events written, kind and payload; [sidecar]:
    the .done file. *)
Record recorder := mkRecorder {
  r_size : Z; r_cap : Z; r_start : Z; r_meta : recorderMeta; r_closed : bool; r_err : bool;
  lines : list (string * string); r_encrypted : bool; sidecar : option doneManifest }.

#[export] Instance eta_recorder : Eta recorder := λ r,
  mkRecorder (r_size r) (r_cap r) (r_start r) (r_meta r) (r_closed r) (r_err r) (lines r) (r_encrypted r) (sidecar r).

(** [newRecorder], once the recipients parsed and the cast is open; [header] is what
    the first line flushed. *)
Definition newRecorder (recipients : list string) (maxBytes now header : Z) (meta : recorderMeta) : recorder :=
  mkRecorder header maxBytes now meta false false [] (negb (length recipients =? 0)%nat) None.

Definition truncated (r : recorder) : bool := (0 <? r_cap r) && (r_cap r <=? r_size r).

(** A write of the stream: after an error the encryption takes nothing more. *)
Definition write_line (flushed : Z * bool) (kind payload : string) (r : recorder) : recorder :=
  if r_encrypted r && r_err r then r
  else if flushed.2 then r <| lines ::= λ l, l ++ [(kind, json_text payload)] |> <| r_size ::= Z.add flushed.1 |>
  else r <| r_size ::= Z.add flushed.1 |> <| r_err := true |>.

Definition event (flushed : Z * bool) (kind payload : string) (r : recorder) : recorder :=
  if r_closed r then r
  else if truncated r then r
  else write_line flushed kind payload r.

Definition output (flushed : Z * bool) (data : bytes) (r : recorder) : recorder :=
  event flushed "o" (String.string_of_list_byte data) r.

Definition resizeEvent (flushed : Z * bool) (cols rows : Z) (r : recorder) : recorder :=
  event flushed "r" (String.append (pretty cols) (String.append "x" (pretty rows))) r.

Definition auditPrincipal (provider subject : string) : string :=
  if bool_decide (subject = "") then ""
  else if bool_decide (provider = "") then subject
  else String.append provider (String.append ":" subject).

(** [finalize]: [marked] is the write of the last line, [sealed] the bytes the seal
    flushes; [ok] is whether sealing, syncing, closing and writing the sidecar succeed. *)
Definition finalize (marked : Z * bool) (sealed now : Z) (ok : bool) (exitReason : string) (r : recorder) : recorder :=
  if r_closed r then r
  else
    let cut := truncated r in
    let r := (if cut then r else write_line marked "m" exitReason r)
               <| r_size ::= Z.add sealed |> <| r_closed := true |> in
    if ok && negb (r_encrypted r && r_err r) then
      r <| sidecar := Some (mkDoneManifest (rm_SessionID (r_meta r)) (r_size r) (rm_AuditKeyID (r_meta r))
             (auditPrincipal (rm_Provider (r_meta r)) (rm_Subject (r_meta r))) (rm_Action (r_meta r))
             (Unix (r_start r)) (Unix now) cut) |>
    else r.

Definition abort (r : recorder) : recorder := if r_closed r then r else r <| r_closed := true |> <| lines := [] |>.

(** The output in a list of events. *)
Definition outputs (l : list (string * string)) : list string :=
  omap (λ e, if bool_decide (e.1 = "o") then Some e.2 else None) l.

(** A chunk of output as the recording has it. *)
Definition recorded (d : bytes) : string := json_text (String.string_of_list_byte d).

(** The recording of a session that produced [out] so far: everything, or it is cut, or a
    write failed. *)
Definition records (r : recorder) (out : list bytes) : Prop :=
  r_closed r = false ∧ sidecar r = None ∧ (truncated r = true ∨ r_err r = true ∨ outputs (lines r) = recorded <$> out).

Lemma records_new (recipients : list string) (maxBytes now header : Z) (meta : recorderMeta) :
  records (newRecorder recipients maxBytes now header meta) [].
Proof. split_and!; [done|done|by right; right]. Qed.

(** A written line is the last one, a failing one leaves the error. *)
Lemma write_line_spec (flushed : Z * bool) (kind payload : string) (r : recorder) :
  let r' := write_line flushed kind payload r in
  r_closed r' = r_closed r ∧ sidecar r' = sidecar r ∧ r_encrypted r' = r_encrypted r ∧
  (r_err r' = true ∨ r_err r' = r_err r ∧ lines r' = lines r ++ [(kind, json_text payload)]).
Proof.
  unfold write_line. cbv zeta. destruct (r_encrypted r && r_err r) eqn:E.
  - apply andb_true_iff in E as [_ E]. split_and!; [done..|by left].
  - destruct flushed.2; (split_and!; [done..|]); [by right|by left].
Qed.

Lemma records_event (r : recorder) (out new : list bytes) (flushed : Z * bool) (kind payload : string) :
  records r out → outputs [(kind, json_text payload)] = recorded <$> new →
  records (event flushed kind payload r) (out ++ new).
Proof.
  intros (Hc & Hs & Hr) Hn. unfold event. rewrite Hc. destruct (truncated r) eqn:Et; [split_and!; [done|done|by left]|].
  destruct (write_line_spec flushed kind payload r) as (C & S & _ & Hl). cbv zeta in *. unfold records. rewrite C, S.
  split_and!; [done|done|]. right. destruct Hl as [?|[Ee El]]; [by left|]. destruct Hr as [|[Hr|Hr]]; [done|left; congruence|].
  right. rewrite El, fmap_app, <- Hr, <- Hn. apply omap_app.
Qed.

Lemma records_output (r : recorder) (out : list bytes) (flushed : Z * bool) (data : bytes) :
  records r out → records (output flushed data r) (out ++ [data]).
Proof. intros Hr. by apply records_event. Qed.

Lemma records_resize (r : recorder) (out : list bytes) (flushed : Z * bool) (cols rows : Z) :
  records r out → records (resizeEvent flushed cols rows r) out.
Proof. intros Hr. rewrite <- (app_nil_r out). by apply records_event. Qed.

(** The sidecar of a recording that is not flagged stands for the whole output, unless a
    write of a plain recording failed. *)
Lemma finalize_complete (r : recorder) (out : list bytes) (marked : Z * bool) (sealed now : Z) (ok : bool)
    (reason : string) (m : doneManifest) :
  let r' := finalize marked sealed now ok reason r in
  records r out → sidecar r' = Some m → dm_Truncated m = false → r_encrypted r' = true ∨ r_err r' = false →
  outputs (lines r') = recorded <$> out ∧ last (lines r') = Some ("m"%string, json_text reason).
Proof.
  cbv zeta. intros (Hc & Hs & Hr). unfold finalize. rewrite Hc. destruct (truncated r) eqn:Et.
  - destruct (ok && _); cbn; [by intros [= <-]|congruence].
  - destruct Hr as [|Hr]; [done|]. pose proof (write_line_spec marked "m" reason r) as (C & S & N & Hl).
    cbv zeta in *. generalize dependent (write_line marked "m" reason r). intros r' C S N Hl.
    cbn. destruct (ok && _) eqn:Eg; cbn; [|congruence]. intros _ _ Hor.
    apply andb_true_iff in Eg as [_ Eg%negb_true_iff].
    assert (r_err r' = false) as He by (destruct Hor as [E|E]; [rewrite E in Eg; done|done]).
    destruct Hl as [|[Ee El]]; [congruence|]. destruct Hr as [Hr|Hr]; [congruence|].
    rewrite El. split; [|apply last_snoc]. unfold outputs in *. by rewrite omap_app, Hr, app_nil_r.
Qed.

(** The code has no such guard: a plain recording that lost an event to a full disk gets
    the sidecar of a whole one. *)
Lemma plain_loss_unflagged :
  let r := newRecorder [] 1000 0 60 (mkRecorderMeta "s1" "w1" "ada" "oidc" "ada" "shell" "") in
  let r := finalize (10, true) 0 second true "exited" (output (0, false) (bytes_of_string "rm -rf") r) in
  dm_Truncated <$> sidecar r = Some false ∧ outputs (lines r) = [].
Proof. by vm_compute. Qed.

(** A rune that the output splits over two chunks is not in the recording: each of its
    bytes is replaced. *)
Lemma split_rune_replaced :
  json_text (String.string_of_list_byte [xc3; xa9]) = String.string_of_list_byte [xc3; xa9] ∧
  recorded <$> [[xc3]; [xa9]] = [replacement ""; replacement ""].
Proof. by vm_compute. Qed.
