(* ===== verification/HostSession.v ===== *)
(** * A session of the session host (sessionhost/session.go, attach.go)

    The process that owns the terminals of a node runs a shell or a command per session,
    pumps its output into the scrollback ring, the virtual terminal and the recording,
    and serves attach streams, one registered client at a time.

    Every region under [s.mu] is a function on the session, which answers the change it
    makes to the host's count of detached sessions.  [act] is one step of a goroutine of
    the session: a pump, the waiter, or the writer, reader or handler of a stream.
    [clientGone] and [detachRequest] hold the mutex over two steps, since other
    sessions change the count between its load and its update. *)
From Stdlib Require Import ZArith Lia Strings.Byte Strings.Ascii.
From stdpp Require Import base gmap sets list strings relations.
From S2P Require Import Prelude Proc Ring Lease Screen Recorder.
Local Open Scope Z_scope.

(** ** Frames *)

Inductive frame : Type :=
| Snapshot (data : bytes) (sq cols rows : Z)
| Output (sq : Z) (data : bytes)
| Stderr (sq : Z) (data : bytes)
| Exit (code : Z) (reason : string)
| InputAck (sq : Z).

Definition chunkFrame (sq : Z) (se : bool) (data : bytes) : frame :=
  if se then Stderr sq data else Output sq data.

Definition is_exit (m : frame) : bool := match m with Exit _ _ => true | _ => false end.

(** What a client sends. *)
Inductive client_msg : Type :=
| MsgOpen
| MsgInput (sq : Z) (data : bytes)
| MsgResize (cols rows : Z)
| MsgSignal (name : string)
| MsgStdinEOF
| MsgDetach.

Definition clientChanDepth : nat := 256.
Definition pumpBufSize : nat := Z.to_nat (32 * 1024).
Definition maxDim : Z := 1000.

Definition clampDim (v def : Z) : Z := if v =? 0 then def else if maxDim <? v then maxDim else v.

(** [signalByName], by its names. *)
Definition signalByName : list string := ["INT"; "TERM"; "HUP"; "QUIT"; "KILL"; "USR1"; "USR2"].

Definition signal_of (name : string) : option string :=
  let n := trim_prefix (upper_string name) "SIG" in if contains signalByName n then Some n else None.

(** ** Streams *)

(** The loop of the writer: sending the initial frames, before the load of [lagged],
    before the catch-up, in the [select], sending a frame, returned. *)
Inductive write_result : Type := ExitSent | WriteStopped | WriteErr.

Inductive writer_pc : Type :=
| WInitial (l : list frame)
| WCheck
| WCatchUp
| WSelect
| WSend (m : frame)
| WDone (r : write_result).

(** The loop of the reader.  An input is numbered under the lock; then the capabilities
    are loaded, the bytes are written, the acknowledgement is queued.  [RMark]: a detach
    under the lock, its count loaded. *)
Inductive read_result : Type := Detached | ReadErr (is_status : bool).

Inductive reader_pc : Type :=
| RRecv
| RLoad (apply writable : bool) (sq : Z) (data : bytes)
| RWrite (apply writable : bool) (sq : Z) (data : bytes)
| RAck (sq : Z)
| RMark
| RDone (r : read_result).

(** [Attach] after its goroutines started: in the [select], in [clientGone], in it with
    the count loaded, in its [terminate], returned. *)
Inductive attach_result : Type := AttachOK | AttachAborted | AttachErr.

Inductive handler_pc : Type :=
| HWait
| HGone (r : attach_result)
| HMark (room : bool) (r : attach_result)
| HKill (reason : string) (r : attach_result)
| HReturned (r : attach_result).

(** [ch], [stop], [lagged] are the code's; [c_lastSeen] is the number the client asked
    from, [c_live] whether it was registered, [sent] what went out on the stream. *)
Record attachedClient := mkAttachedClient {
  ch : list frame; stop : bool; lagged : bool;
  c_lastSeen : Z; c_live : bool; c_writer : writer_pc; c_reader : reader_pc; c_handler : handler_pc;
  sent : list frame }.

#[export] Instance eta_attachedClient : Eta attachedClient := λ c,
  mkAttachedClient (ch c) (stop c) (lagged c) (c_lastSeen c) (c_live c) (c_writer c) (c_reader c) (c_handler c) (sent c).

(** What the terminal went through. *)
Inductive term_event : Type :=
| EvOut (se : bool) (data : bytes)
| EvResize (cols rows : Z).

(** The life of a session: in the table and not yet counted, counted, its pumps running,
    its notice shown, its waiter waiting, past the region of [finalize], past its update of
    the active count, past the zeroization of the tombstone, past its removal. *)
Inductive phase : Type := Published | Counted | Pumping | Noticed | Waiting | Finalized | Settled | Zeroized | Removed.

#[export] Instance phase_eq_dec : EqDecision phase.
Proof. solve_decision. Defined.

Section HostSession.
Context `{Vt10x}.

Record session := mkSession {
  s_hostID : string; s_sessionID : string; s_user : string; s_action : string;
  s_ptyMode : bool; s_detachable : bool; s_argv : list string; s_env : list string;
  s_mu : bool;
  s_state : string; s_started : Z; s_lastActivity : Z; s_detachedSince : Z; s_detachedCounted : bool;
  s_cols : Z; s_rows : Z;
  s_vt : option vt; s_mem : mem; s_ring : ring; s_seq : Z; s_lastInputSeq : Z; s_stdinClosed : bool;
  s_client : option nat; s_caps : SessionCaps; s_rec : option recorder;
  s_exited : bool; s_exitCode : Z; s_exitReason : string; s_killReason : string;
  (* its streams, pumps, phase, and the goroutines about to terminate it *)
  s_streams : gmap nat attachedClient; s_pumps : list bool; s_phase : phase; s_dying : list string;
  (* the process: its wait status, the signals and the input it was sent *)
  s_status : option (Z * string); s_signals : list string; s_inputs : list (nat * Z * bytes);
  (* the text that says it is recorded, the size it was born with, what its terminal went through, its finished recording *)
  s_notice : bytes; s_born : Z * Z; s_log : list term_event; s_cast : option recorder }.

#[export] Instance eta_session : Eta session := λ s,
  mkSession (s_hostID s) (s_sessionID s) (s_user s) (s_action s) (s_ptyMode s) (s_detachable s) (s_argv s) (s_env s)
    (s_mu s) (s_state s)
    (s_started s) (s_lastActivity s) (s_detachedSince s) (s_detachedCounted s) (s_cols s) (s_rows s) (s_vt s)
    (s_mem s) (s_ring s) (s_seq s) (s_lastInputSeq s) (s_stdinClosed s) (s_client s) (s_caps s) (s_rec s)
    (s_exited s) (s_exitCode s) (s_exitReason s) (s_killReason s) (s_streams s) (s_pumps s) (s_phase s) (s_dying s)
    (s_status s) (s_signals s) (s_inputs s) (s_notice s) (s_born s) (s_log s) (s_cast s).

Definition set_stream (c : nat) (cl : attachedClient) (s : session) : session := s <| s_streams ::= <[c := cl]> |>.

(** [cl.close]. *)
Definition close_client (c : nat) (s : session) : session :=
  s <| s_streams ::= alter (λ cl, cl <| stop := true |>) c |>.

(** ** Output *)

Definition markDetached (now : Z) (s : session) : session * Z :=
  let s := s <| s_state := "detached" |> <| s_detachedSince := now |> in
  if s_detachable s && negb (s_detachedCounted s) then (s <| s_detachedCounted := true |>, 1) else (s, 0).

(** [deliverLocked]. *)
Definition deliver (now : Z) (m : frame) (s : session) : session * Z :=
  match s_client s with
  | None => (s, 0)
  | Some c =>
      match s_streams s !! c with
      | None => (s, 0)
      | Some cl =>
          if (length (ch cl) <? clientChanDepth)%nat then (set_stream c (cl <| ch ::= λ l, l ++ [m] |>) s, 0)
          else if bool_decide (is_Some (s_vt s)) then (set_stream c (cl <| lagged := true |>) s, 0)
          else
            let s := close_client c (s <| s_client := None |>) in
            if s_exited s then (s, 0)
            else if s_detachable s then markDetached now s
            else (s <| s_state := "detached" |> <| s_detachedSince := now |> <| s_dying ::= λ l, l ++ ["killed"] |>, 0)
      end
  end.

(** What [pump], [emitNotice] and [sendDrainNotice] do with a chunk: the next number,
    the ring, the terminal, the recording, the client. *)
Definition emit (now : Z) (se : bool) (data : bytes) (flushed : Z * bool) (s : session) : session * Z :=
  let sq := wrap_u64 (s_seq s + 1) in
  let '(m, r) := add (s_mem s) (s_ring s) sq se data in
  deliver now (chunkFrame sq se data)
    (s <| s_seq := sq |> <| s_mem := m |> <| s_ring := r |>
       <| s_vt ::= fmap (λ v, vt_Write v data) |> <| s_rec ::= fmap (output flushed data) |>
       <| s_log ::= λ l, l ++ [EvOut se data] |>).

(** One read of a pump. *)
Definition pump_chunk (now : Z) (se : bool) (data : bytes) (flushed : Z * bool) (s : session) : session * Z :=
  emit now se data flushed (s <| s_lastActivity := now |>).

Definition emitNotice (now : Z) (text : bytes) (flushed : Z * bool) (s : session) : session * Z :=
  if (length text =? 0)%nat then (s, 0) else emit now false text flushed s.

(** [sendDrainNotice] (drain.go). *)
Definition sendDrainNotice (now : Z) (banner : bytes) (flushed : Z * bool) (s : session) : session * Z :=
  if s_exited s || negb (s_ptyMode s) then (s, 0) else emit now false banner flushed s.

(** ** Attaching *)

Definition snapshot (s : session) (data : bytes) (sq : Z) : frame := Snapshot data sq (s_cols s) (s_rows s).

Definition screen (s : session) : bytes :=
  match s_vt s with Some v => encode (renderSnapshot v) | None => [] end.

(** The frames of a delta; a pipe client that starts at 0 gets a marker first. *)
Definition delta_frames (s : session) (lastSeen : Z) (m : mem) (cs : list ringChunk) : list frame :=
  (if negb (s_ptyMode s) && (lastSeen =? 0) then [snapshot s [] 0] else []) ++
  ((λ c, chunkFrame (seq c) (stderr c) (load m (data c))) <$> cs).

Definition new_stream (lastSeen : Z) (live : bool) (initial : list frame) : attachedClient :=
  mkAttachedClient [] false false lastSeen live (WInitial initial)
    (if live then RRecv else RDone (ReadErr false)) HWait [].

(** [attach], and the launch of the stream's goroutines.  An exited session registers no
    one: its frames are sent and the stream ends. *)
Definition attach (c : nat) (lastSeen : Z) (s : session) : session * Z :=
  if s_exited s then
    let '(m, (cs, ok)) := deltaFrom (s_mem s) (s_ring s) lastSeen (s_seq s) in
    let initial := (if ok then delta_frames s lastSeen m cs else []) ++ [Exit (s_exitCode s) (s_exitReason s)] in
    (set_stream c (new_stream lastSeen false initial) (s <| s_mem := m |>), 0)
  else
    let '(s, d) :=
      match s_client s with
      | Some old => (close_client old s, 0)
      | None => if s_detachedCounted s then (s <| s_detachedCounted := false |>, -1) else (s, 0)
      end in
    let s := s <| s_client := Some c |> <| s_state := "attached" |> <| s_detachedSince := time_zero |>
               <| s_lastInputSeq := 0 |> in
    let '(m, (cs, ok)) := deltaFrom (s_mem s) (s_ring s) lastSeen (s_seq s) in
    let s := s <| s_mem := m |> in
    let initial := if ok && ((0 <? lastSeen) || negb (s_ptyMode s)) then delta_frames s lastSeen m cs
                   else [snapshot s (screen s) (s_seq s)] in
    (set_stream c (new_stream lastSeen true initial) s, d).

(** [catchUpSnapshot]: the frame to send, if any. *)
Definition catchUpSnapshot (s : session) (cl : attachedClient) : option frame * attachedClient :=
  if lagged cl then
    (match s_vt s with Some _ => Some (snapshot s (screen s) (s_seq s)) | None => None end,
     cl <| ch := [] |> <| lagged := false |>)
  else (None, cl).

(** ** Leaving *)

(** [terminate]: the reason of the first caller stays. *)
Definition terminate (reason sig : string) (s : session) : session :=
  if s_exited s then s
  else (if bool_decide (s_killReason s = "") then s <| s_killReason := reason |> else s)
         <| s_signals ::= λ l, l ++ [sig] |>.

(** [clientGone] up to the load of the count ([room]: it is below the cap), the change
    of the state, [terminate]. *)
Definition clientGone (now : Z) (room : bool) (c : nat) (r : attach_result) (s : session) : session * handler_pc :=
  if bool_decide (s_client s = Some c) then
    let s := close_client c (s <| s_client := None |>) in
    if s_exited s then (s, HReturned r)
    else if s_detachable s then (s <| s_mu := true |>, HMark room r)
    else (s <| s_state := "detached" |> <| s_detachedSince := now |>, HKill "killed" r)
  else (s, HReturned r).

Definition clientGone_mark (now : Z) (room : bool) (r : attach_result) (s : session) : session * Z * handler_pc :=
  let s := s <| s_mu := false |> in
  if room then (markDetached now s, HReturned r)
  else (s <| s_state := "detached" |> <| s_detachedSince := now |>, 0, HKill "reaped" r).

(** [detachRequest] up to the load of the count, and the detach. *)
Definition detachRequest (room : bool) (c : nat) (s : session) : session * reader_pc :=
  if bool_decide (s_client s ≠ Some c) || s_exited s then (s, RDone Detached)
  else if negb (s_detachable s) then (s, RDone (ReadErr true))
  else if negb room then (s, RDone (ReadErr true))
  else (s <| s_mu := true |>, RMark).

Definition detachRequest_mark (now : Z) (s : session) : session * Z :=
  markDetached now (s <| s_mu := false |> <| s_client := None |>).

(** ** Client messages *)

(** [handleInput]: the region that numbers the input, the gate, the write, the
    acknowledgement. *)
Definition handleInput (now : Z) (c : nat) (sq : Z) (data : bytes) (s : session) : session * reader_pc :=
  if bool_decide (s_client s ≠ Some c) || s_exited s then (s, RRecv)
  else
    let apply := s_lastInputSeq s <? sq in
    let s := (if apply then s <| s_lastInputSeq := sq |> else s) <| s_lastActivity := now |> in
    (s, RLoad apply (s_ptyMode s || negb (s_stdinClosed s)) sq data).

Definition input_gate (caps : SessionCaps) (apply : bool) : bool := if pb_AllowInput caps then apply else false.

(** The write is attempted, with all of the data.  The code ignores how much of it the
    process took and its error (the process is exiting then), so [s_inputs] is what was
    handed to the writer. *)
Definition input_write (c : nat) (apply writable : bool) (sq : Z) (data : bytes) (s : session) : session :=
  if apply && writable && negb (length data =? 0)%nat then s <| s_inputs ::= λ l, l ++ [(c, sq, data)] |> else s.

Definition input_ack (now : Z) (c : nat) (sq : Z) (s : session) : session * Z :=
  if bool_decide (s_client s = Some c) then deliver now (InputAck sq) s else (s, 0).

Definition handleResize (c : nat) (cols rows : Z) (flushed : Z * bool) (s : session) : session :=
  if (cols =? 0) || (rows =? 0) then s
  else
    let cols := clampDim cols 80 in let rows := clampDim rows 24 in
    if bool_decide (s_client s ≠ Some c) || s_exited s then s
    else s <| s_cols := cols |> <| s_rows := rows |> <| s_vt ::= fmap (λ v, vt_Resize v cols rows) |>
           <| s_rec ::= fmap (resizeEvent flushed cols rows) |> <| s_log ::= λ l, l ++ [EvResize cols rows] |>.

Definition handleSignal (c : nat) (name : string) (s : session) : session :=
  match signal_of name with
  | None => s
  | Some sig => if bool_decide (s_client s = Some c) && negb (s_exited s) then s <| s_signals ::= λ l, l ++ [sig] |> else s
  end.

Definition handleStdinEOF (c : nat) (s : session) : session :=
  if bool_decide (s_client s ≠ Some c) || s_exited s || s_ptyMode s || s_stdinClosed s then s
  else s <| s_stdinClosed := true |>.

(** ** The end *)

(** The region of [finalize]; [marked], [sealed] and [ok] are those of the recording. *)
Definition finalize (now : Z) (marked : Z * bool) (sealed : Z) (ok : bool) (code : Z) (status : string) (s : session)
    : session * Z :=
  let reason := if bool_decide (s_killReason s = "") then status else s_killReason s in
  let s' := s <| s_exited := true |> <| s_state := "exited" |> <| s_exitCode := code |> <| s_exitReason := reason |>
              <| s_detachedCounted := false |> <| s_rec := None |>
              <| s_cast := Recorder.finalize marked sealed now ok reason <$> s_rec s |>
              <| s_vt := None |> <| s_stdinClosed := (s_stdinClosed s || negb (s_ptyMode s)) |>
              <| s_phase := Finalized |> in
  let '(s', d) := deliver now (Exit code reason) s' in
  (s', d - (if s_detachedCounted s then 1 else 0)).

(** The timer of the tombstone, up to its removal from the table. *)
Definition tombstone (s : session) : session :=
  let '(m, r) := zeroize (s_mem s) (s_ring s) in
  s <| s_mem := m |> <| s_ring := r |> <| s_phase := Zeroized |>.

(** ** Goroutines *)

Definition upd_stream (c : nat) (f : attachedClient → attachedClient) (s : session) : session :=
  s <| s_streams ::= alter f c |>.

(** [writeLoop]: the load of [lagged] and the receive of the [select] need no lock. *)
Definition write_step (c : nat) (cl : attachedClient) (s : session) : option session :=
  match c_writer cl with
  | WInitial [] => Some (set_stream c (cl <| c_writer := WCheck |>) s)
  | WInitial (m :: l) =>
      Some (set_stream c (cl <| sent ::= λ q, q ++ [m] |>
                             <| c_writer := if is_exit m then WDone ExitSent else WInitial l |>) s)
  | WCheck => Some (set_stream c (cl <| c_writer := if lagged cl then WCatchUp else WSelect |>) s)
  | WCatchUp =>
      if s_mu s then None
      else
        let '(m, cl) := catchUpSnapshot s cl in
        Some (set_stream c (cl <| c_writer := match m with Some m => WSend m | None => WCheck end |>) s)
  | WSelect =>
      match ch cl with
      | m :: l => Some (set_stream c (cl <| ch := l |> <| c_writer := WSend m |>) s)
      | [] => None
      end
  | WSend m =>
      Some (set_stream c (cl <| sent ::= λ q, q ++ [m] |>
                             <| c_writer := if is_exit m then WDone ExitSent else WCheck |>) s)
  | WDone _ => None
  end.

(** A failing [Send], and the other branches of the [select]. *)
Definition write_fail (c : nat) (cl : attachedClient) (s : session) : option session :=
  match c_writer cl with
  | WInitial (_ :: _) | WSend _ | WSelect => Some (set_stream c (cl <| c_writer := WDone WriteErr |>) s)
  | _ => None
  end.

Definition write_stop (c : nat) (cl : attachedClient) (s : session) : option session :=
  match c_writer cl with
  | WSelect => if stop cl then Some (set_stream c (cl <| c_writer := WDone WriteStopped |>) s) else None
  | _ => None
  end.

Definition set_reader (c : nat) (r : session * reader_pc) : session :=
  upd_stream c (λ cl, cl <| c_reader := r.2 |>) r.1.

(** [readLoop]: a message, and the regions it enters. *)
Definition read_msg (now : Z) (room : bool) (c : nat) (m : client_msg) (flushed : Z * bool) (s : session) : session :=
  set_reader c
    (match m with
     | MsgOpen => (s, RDone (ReadErr true))
     | MsgInput sq data => handleInput now c sq data s
     | MsgResize cols rows => (handleResize c cols rows flushed s, RRecv)
     | MsgSignal name => (handleSignal c name s, RRecv)
     | MsgStdinEOF => (handleStdinEOF c s, RRecv)
     | MsgDetach => detachRequest room c s
     end).

Definition read_step (now : Z) (c : nat) (cl : attachedClient) (s : session) : option (session * Z) :=
  match c_reader cl with
  | RLoad apply w sq data => Some (set_reader c (s, RWrite (input_gate (s_caps s) apply) w sq data), 0)
  | RWrite apply w sq data => Some (set_reader c (input_write c apply w sq data s, RAck sq), 0)
  | RAck sq => if s_mu s then None else let '(s, d) := input_ack now c sq s in Some (set_reader c (s, RRecv), d)
  | RMark => let '(s, d) := detachRequest_mark now s in Some (set_reader c (s, RDone Detached), d)
  | RRecv | RDone _ => None
  end.

(** The branches of the [select] of [Attach]. *)
Definition wake_writer (cl : attachedClient) : option handler_pc :=
  match c_handler cl, c_writer cl with
  | HWait, WDone r =>
      let res := match r with ExitSent => AttachOK | WriteStopped => AttachAborted | WriteErr => AttachErr end in
      Some (if c_live cl then HGone res else HReturned res)
  | _, _ => None
  end.

Definition wake_reader (cl : attachedClient) : option handler_pc :=
  match c_live cl, c_handler cl, c_reader cl with
  | true, HWait, RDone Detached => Some (HReturned AttachOK)
  | true, HWait, RDone (ReadErr st) => Some (HGone (if st then AttachErr else AttachOK))
  | _, _, _ => None
  end.

Definition wake_stop (cl : attachedClient) : option handler_pc :=
  match c_live cl, c_handler cl, stop cl with
  | true, HWait, true => Some (HGone AttachAborted)
  | _, _, _ => None
  end.

Definition set_handler (c : nat) (pc : handler_pc) (s : session) : session :=
  upd_stream c (λ cl, cl <| c_handler := pc |>) s.

Definition handle_step (now : Z) (room : bool) (c : nat) (cl : attachedClient) (s : session) : option (session * Z) :=
  match c_handler cl with
  | HGone r => if s_mu s then None else let '(s, pc) := clientGone now room c r s in Some (set_handler c pc s, 0)
  | HMark room r => let '(s, d, pc) := clientGone_mark now room r s in Some (set_handler c pc s, d)
  | HKill reason r => if s_mu s then None else Some (set_handler c (HReturned r) (terminate reason "HUP" s), 0)
  | HWait | HReturned _ => None
  end.

(** What the goroutines of a session do ([Pump] to [Handle]), and the regions the calls
    of the host enter ([DoAttach] to [Remove]). *)
Inductive action : Type :=
| Count | LaunchPumps | ShowNotice (flushed : Z * bool) | LaunchWaiter
| Pump (se : bool) (data : bytes) (flushed : Z * bool) | PumpEnd (se : bool)
| ProcExit (code : Z) (status : string) | Escalate | Dropped
| Finalize (marked : Z * bool) (sealed : Z) (ok : bool) | Tombstone
| Write (c : nat) | WriteFail (c : nat) | WriteStop (c : nat)
| Recv (c : nat) (m : client_msg) (flushed : Z * bool) | RecvFail (c : nat) (st : bool) | Read (c : nat)
| WakeWriter (c : nat) | WakeReader (c : nat) | WakeStop (c : nat) | Handle (c : nat)
| DoAttach (c : nat) (lastSeen : Z) | DoTerminate (reason : string) | DoSetCaps (caps : SessionCaps)
| DoDrainNotice (banner : bytes) (flushed : Z * bool) | DoSettle | DoRemove.

Definition own (a : action) : bool :=
  match a with
  | DoAttach _ _ | DoTerminate _ | DoSetCaps _ | DoDrainNotice _ _ | DoSettle | DoRemove => false
  | _ => true
  end.

Definition at_phase (p : phase) (s : session) (r : option (session * Z)) : option (session * Z) :=
  if bool_decide (s_phase s = p) then r else None.

Definition locked (s : session) (r : session * Z) : option (session * Z) := if s_mu s then None else Some r.

Definition on_stream (c : nat) (s : session) (f : attachedClient → option (session * Z)) : option (session * Z) :=
  match s_streams s !! c with Some cl => f cl | None => None end.

Definition act (now : Z) (room : bool) (a : action) (s : session) : option (session * Z) :=
  match a with
  | Count =>
      at_phase Published s
        (Some ((if s_detachable s then s <| s_detachedCounted := true |> else s) <| s_phase := Counted |>, 0))
  | LaunchPumps =>
      at_phase Counted s
        (Some (s <| s_pumps := if s_ptyMode s then [false] else [false; true] |> <| s_phase := Pumping |>, 0))
  | ShowNotice flushed =>
      at_phase Pumping s
        (if s_ptyMode s then
           locked s (let '(s, d) := emitNotice now (s_notice s) flushed s in (s <| s_phase := Noticed |>, d))
         else Some (s <| s_phase := Noticed |>, 0))
  | LaunchWaiter => at_phase Noticed s (Some (s <| s_phase := Waiting |>, 0))
  | Pump se data flushed =>
      if bool_decide (se ∈ s_pumps s) && negb (length data =? 0)%nat && (length data <=? pumpBufSize)%nat
      then locked s (pump_chunk now se data flushed s) else None
  | PumpEnd se => if bool_decide (se ∈ s_pumps s) then Some (s <| s_pumps ::= filter (λ x, x ≠ se) |>, 0) else None
  | ProcExit code status =>
      if bool_decide (s_status s = None) then Some (s <| s_status := Some (code, status) |>, 0) else None
  | Escalate =>
      if bool_decide (s_signals s ≠ []) && negb (s_exited s)
      then Some (s <| s_signals ::= λ l, l ++ ["KILL"] |>, 0) else None
  | Dropped =>
      match s_dying s with
      | reason :: l => locked s (terminate reason "HUP" (s <| s_dying := l |>), 0)
      | [] => None
      end
  | Finalize marked sealed ok =>
      at_phase Waiting s
        (match s_status s, s_pumps s with
         | Some (code, status), [] => locked s (finalize now marked sealed ok code status s)
         | _, _ => None
         end)
  | Tombstone => at_phase Settled s (locked s (tombstone s, 0))
  | Write c => on_stream c s (λ cl, (., 0) <$> write_step c cl s)
  | WriteFail c => on_stream c s (λ cl, (., 0) <$> write_fail c cl s)
  | WriteStop c => on_stream c s (λ cl, (., 0) <$> write_stop c cl s)
  | Recv c m flushed =>
      on_stream c s (λ cl,
        match c_reader cl with RRecv => locked s (read_msg now room c m flushed s, 0) | _ => None end)
  | RecvFail c st =>
      on_stream c s (λ cl,
        match c_reader cl with RRecv => Some (set_reader c (s, RDone (ReadErr st)), 0) | _ => None end)
  | Read c => on_stream c s (λ cl, read_step now c cl s)
  | WakeWriter c => on_stream c s (λ cl, (λ pc, (set_handler c pc s, 0)) <$> wake_writer cl)
  | WakeReader c => on_stream c s (λ cl, (λ pc, (set_handler c pc s, 0)) <$> wake_reader cl)
  | WakeStop c => on_stream c s (λ cl, (λ pc, (set_handler c pc s, 0)) <$> wake_stop cl)
  | Handle c => on_stream c s (λ cl, handle_step now room c cl s)
  | DoAttach c lastSeen =>
      if bool_decide (s_streams s !! c = None) && bool_decide (0 ≤ lastSeen < 2 ^ 64)
      then locked s (attach c lastSeen s) else None
  | DoTerminate reason => locked s (terminate reason "HUP" s, 0)
  | DoSetCaps caps => Some (s <| s_caps := caps |>, 0)
  | DoDrainNotice banner flushed => locked s (sendDrainNotice now banner flushed s)
  | DoSettle => at_phase Finalized s (Some (s <| s_phase := Settled |>, 0))
  | DoRemove => at_phase Zeroized s (Some (s <| s_phase := Removed |>, 0))
  end.

(** [info]. *)
Record HostSessionInfo := mkHostSessionInfo {
  i_HostSessionId : string; i_SessionId : string; i_User : string; i_Action : string; i_State : string;
  i_Detachable : bool; i_StartedUnix : Z; i_LastActivityUnix : Z; i_Cols : Z; i_Rows : Z }.

Definition info (s : session) : HostSessionInfo :=
  mkHostSessionInfo (s_hostID s) (s_sessionID s) (s_user s) (s_action s) (s_state s) (s_detachable s)
    (Unix (s_started s)) (Unix (s_lastActivity s)) (s_cols s) (s_rows s).

End HostSession.
