(* ===== verification/Streams.v ===== *)
(** * What a client sees of a session (theorems about HostSession.v)

    Whatever the interleaving of the pumps, the clients that come, lag, get preempted and
    leave, and the end of the process: the frames sent on a stream are, from the number
    the client asked from, the chunks of the output in order and without a gap, or jump
    to a repaint of the screen as it was at the number the repaint carries; and an Exit
    on a registered stream comes after all of the output.  A recording whose sidecar is
    not flagged holds all of the output. *)
From Stdlib Require Import ZArith Lia Strings.Byte.
From stdpp Require Import base gmap sets list strings relations.
From S2P Require Import Prelude Proc Ring Lease Screen Recorder HostSession.
Local Open Scope Z_scope.

(** The chunks in what the terminal went through. *)
Definition outs (l : list term_event) : list (bool * bytes) :=
  omap (λ e, match e with EvOut se d => Some (se, d) | EvResize _ _ => None end) l.

Definition front (l : list term_event) : Z := Z.of_nat (length (outs l)).

Lemma outs_app (l l' : list term_event) : outs (l ++ l') = outs l ++ outs l'.
Proof. apply omap_app. Qed.

Lemma front_prefix (l l' : list term_event) : l `prefix_of` l' → front l ≤ front l'.
Proof. intros [k ->]. unfold front. rewrite outs_app, length_app. lia. Qed.

Definition ended (p : phase) : bool :=
  match p with Finalized | Settled | Zeroized | Removed => true | _ => false end.

Definition pumping (p : phase) : bool := match p with Pumping | Noticed | Waiting => true | _ => false end.

Definition zeroed_ring (p : phase) : bool := match p with Zeroized | Removed => true | _ => false end.

#[local] Arguments add : simpl never.
#[local] Arguments zeroize : simpl never.
#[local] Arguments Z.add : simpl never.
#[local] Arguments outs : simpl never.
#[local] Arguments front : simpl never.

Section Streams.
Context `{Vt10x}.

(** The terminal after a log. *)
Definition replay (born : Z * Z) (l : list term_event) : vt :=
  foldl (λ v e, match e with EvOut _ d => vt_Write v d | EvResize c r => vt_Resize v c r end) (vt_New born.1 born.2) l.

(** ** The session without its streams *)

Record core := mkCore {
  k_phase : phase; k_exited : bool; k_code : Z; k_reason : string; k_pty : bool; k_born : Z * Z;
  k_log : list term_event; k_vt : option vt; k_mem : mem; k_ring : ring; k_seq : Z; k_pumps : list bool;
  k_rec : option recorder; k_cast : option recorder }.

Definition core_of (s : session) : core :=
  mkCore (s_phase s) (s_exited s) (s_exitCode s) (s_exitReason s) (s_ptyMode s) (s_born s) (s_log s) (s_vt s)
    (s_mem s) (s_ring s) (s_seq s) (s_pumps s) (s_rec s) (s_cast s).

(** A finished recording that is not flagged is whole, unless a plain one lost a write. *)
Definition whole (r : recorder) (l : list (bool * bytes)) (reason : string) : Prop :=
  ∀ m, sidecar r = Some m → dm_Truncated m = false → r_encrypted r = true ∨ r_err r = false →
  outputs (lines r) = recorded <$> l.*2 ∧ last (lines r) = Some ("m"%string, json_text reason).

Record wf (k : core) : Prop := mkWf {
  wf_exit : k_exited k = ended (k_phase k);
  wf_pumps : k_pumps k ≠ [] → pumping (k_phase k) = true;
  wf_vt : k_vt k = if k_pty k && negb (k_exited k) then Some (replay (k_born k) (k_log k)) else None;
  wf_seq : k_seq k = front (k_log k);
  wf_ring : if zeroed_ring (k_phase k) then chunks (k_ring k) = []
            else ring_ok (k_mem k) (k_ring k) (history 1 (outs (k_log k)));
  wf_rec : ∀ r, k_rec k = Some r → k_exited k = false ∧ records r (outs (k_log k)).*2;
  wf_cast : ∀ r, k_cast k = Some r → k_exited k = true ∧ whole r (outs (k_log k)) (k_reason k) }.

(** What a step may do to the core. *)
Definition grows (k k' : core) : Prop :=
  k_pty k' = k_pty k ∧ k_born k' = k_born k ∧ k_log k `prefix_of` k_log k' ∧
  (k_exited k = true → k_exited k' = true ∧ k_code k' = k_code k ∧ k_reason k' = k_reason k ∧ k_log k' = k_log k).

#[global] Instance grows_po : PreOrder grows.
Proof.
  split; [intros k; unfold grows; by split_and!|].
  intros k1 k2 k3 (H1 & H2 & H3 & H4) (G1 & G2 & G3 & G4). unfold grows. split; [congruence|]. split; [congruence|].
  split; [by etrans|]. intros E. destruct (H4 E) as (A1 & A2 & A3 & A4). destruct (G4 A1) as (B1 & B2 & B3 & B4).
  split_and!; congruence.
Qed.

(** ** What a stream shows *)

(** The screen after a prefix of the output; a pipe has none. *)
Definition shows (k : core) (sq : Z) (d : bytes) : Prop :=
  if k_pty k then ∃ l, l `prefix_of` k_log k ∧ sq = front l ∧ d = encode (renderSnapshot (replay (k_born k) l))
  else d = [] ∧ 0 ≤ sq ≤ front (k_log k).

Definition next_pos (p : Z) (m : frame) : Z :=
  match m with Snapshot _ sq _ _ | Output sq _ | Stderr sq _ => sq | _ => p end.

(** Whether a frame may come at a client that has the output up to [p]. *)
Definition fits (k : core) (live : bool) (p : Z) (m : frame) : Prop :=
  match m with
  | Output sq d => ∃ n, p = Z.of_nat n ∧ sq = p + 1 ∧ outs (k_log k) !! n = Some (false, d)
  | Stderr sq d => ∃ n, p = Z.of_nat n ∧ sq = p + 1 ∧ outs (k_log k) !! n = Some (true, d)
  | Snapshot d sq _ _ => shows k sq d
  | Exit code reason =>
      k_exited k = true ∧ code = k_code k ∧ reason = k_reason k ∧ (live = true → p = front (k_log k))
  | InputAck _ => True
  end.

Fixpoint follows (k : core) (live : bool) (p : Z) (l : list frame) : Prop :=
  match l with
  | [] => True
  | m :: l => fits k live p m ∧ follows k live (next_pos p m) l
  end.

Definition end_pos (p : Z) (l : list frame) : Z := foldl next_pos p l.

Lemma follows_app (k : core) (live : bool) (p : Z) (l l' : list frame) :
  follows k live p (l ++ l') ↔ follows k live p l ∧ follows k live (end_pos p l) l'.
Proof. revert p. induction l as [|m l IH]; intros p; cbn; [tauto|]. rewrite IH. tauto. Qed.

Lemma end_pos_app (p : Z) (l l' : list frame) : end_pos p (l ++ l') = end_pos (end_pos p l) l'.
Proof. apply foldl_app. Qed.

Lemma fits_grows (k k' : core) (live : bool) (p : Z) (m : frame) :
  grows k k' → fits k live p m → fits k' live p m.
Proof.
  intros (Hp & Hb & Hl & He). destruct m; cbn; [..|done].
  - unfold shows. rewrite Hp, Hb. destruct (k_pty k).
    + intros (l & ? & ? & ?). exists l. split_and!; [by etrans|done..].
    + pose proof (front_prefix _ _ Hl). intros [? ?]. split; [done|lia].
  - intros (n & -> & -> & E). exists n. split_and!; [done..|]. destruct Hl as [l ->]. rewrite outs_app. by apply lookup_app_l_Some.
  - intros (n & -> & -> & E). exists n. split_and!; [done..|]. destruct Hl as [l ->]. rewrite outs_app. by apply lookup_app_l_Some.
  - intros (E & -> & -> & Hf). destruct (He E) as (-> & -> & -> & ->). done.
Qed.

Lemma follows_grows (k k' : core) (live : bool) (p : Z) (l : list frame) :
  grows k k' → follows k live p l → follows k' live p l.
Proof. intros Hg. revert p. induction l as [|m l IH]; intros p; cbn; [done|]. intros []. eauto using fits_grows. Qed.

(** ** Streams *)

Definition pending (w : writer_pc) : list frame :=
  match w with WInitial l => l | WSend m => [m] | _ => [] end.

Definition done_writing (w : writer_pc) : bool := match w with WDone _ => true | _ => false end.

(** What is sent, about to be sent and queued fits together, up to the end of the output
    for the registered client of a running session; the queue of a lagging client does not,
    but for the frame its writer may be about to take. *)
Record stream_ok (k : core) (reg : bool) (cl : attachedClient) : Prop := mkStreamOk {
  so_sent : follows k (c_live cl) (c_lastSeen cl) (sent cl);
  so_pending : follows k (c_live cl) (c_lastSeen cl) (sent cl ++ pending (c_writer cl));
  so_queue : done_writing (c_writer cl) = false → lagged cl = false →
    follows k (c_live cl) (c_lastSeen cl) (sent cl ++ pending (c_writer cl) ++ ch cl) ∧
    (reg = true → k_exited k = false →
     end_pos (c_lastSeen cl) (sent cl ++ pending (c_writer cl) ++ ch cl) = front (k_log k));
  so_lagged : lagged cl = true → k_pty k = true;
  so_head : lagged cl = true → c_writer cl = WSelect →
    ∃ m l, ch cl = m :: l ∧ follows k (c_live cl) (c_lastSeen cl) (sent cl ++ [m]) }.

Definition registered (s : session) (c : nat) : bool := bool_decide (s_client s = Some c).

Definition streams_ok (k : core) (s : session) : Prop :=
  ∀ c cl, s_streams s !! c = Some cl → stream_ok k (registered s c) cl.

Definition inv (s : session) : Prop := wf (core_of s) ∧ streams_ok (core_of s) s.

(** A stream that is not written to stays well. *)
Lemma stream_ok_grows (k k' : core) (reg reg' : bool) (cl : attachedClient) :
  grows k k' → (reg' = true → k_exited k' = false → reg = true ∧ front (k_log k') = front (k_log k)) →
  stream_ok k reg cl → stream_ok k' reg' cl.
Proof.
  intros Hg Hr [H1 H2 H3 H4 H5]. pose proof Hg as (Hp & _ & _ & He). split; [by eapply follows_grows..| | |].
  - intros Hd Hl. destruct (H3 Hd Hl) as [H3' H3'']. split; [by eapply follows_grows|]. intros R E.
    destruct (Hr R E) as [R' ->]. apply H3''; [done|]. destruct (k_exited k) eqn:Ek; [|done]. destruct (He eq_refl). congruence.
  - rewrite Hp. auto.
  - intros Hl Hw. destruct (H5 Hl Hw) as (m & l & ? & ?). eauto 6 using follows_grows.
Qed.

(** Queueing a frame. *)
Lemma stream_ok_push (k k' : core) (cl : attachedClient) (m : frame) :
  grows k k' →
  (∀ p, (k_exited k = false → p = front (k_log k)) →
     fits k' (c_live cl) p m ∧ (k_exited k' = false → next_pos p m = front (k_log k'))) →
  stream_ok k true cl → stream_ok k' true (cl <| ch ::= λ l, l ++ [m] |>).
Proof.
  intros Hg Hm [H1 H2 H3 H4 H5]. pose proof Hg as (Hp & _ & _ & He).
  split; cbn; [by eapply follows_grows..| | |].
  - intros Hd Hl. destruct (H3 Hd Hl) as [H3' H3'']. replace (sent cl ++ pending (c_writer cl) ++ ch cl ++ [m])
      with ((sent cl ++ pending (c_writer cl) ++ ch cl) ++ [m]) by by rewrite !app_assoc.
    rewrite follows_app, (end_pos_app _ _ [m]). destruct (Hm (end_pos (c_lastSeen cl) (sent cl ++ pending (c_writer cl) ++ ch cl))) as [Hf Hn]; [auto|].
    split; [split; [by eapply follows_grows|exact (conj Hf I)]|]. intros _. exact Hn.
  - rewrite Hp. auto.
  - intros Hl Hw. destruct (H5 Hl Hw) as (m' & l & -> & ?). eauto 6 using follows_grows.
Qed.

(** Dropping a frame for a screen to come. *)
Lemma stream_ok_lag (k k' : core) (reg reg' : bool) (cl : attachedClient) :
  grows k k' → k_pty k = true → ch cl ≠ [] → stream_ok k reg cl → stream_ok k' reg' (cl <| lagged := true |>).
Proof.
  intros Hg Hpty Hne [H1 H2 H3 H4 H5]. pose proof Hg as (Hp & _ & _ & He).
  split; cbn; [by eapply follows_grows..|done|by rewrite Hp|].
  intros _ Hw. destruct (lagged cl) eqn:El.
  - destruct (H5 eq_refl Hw) as (m & l & ? & ?). eauto 6 using follows_grows.
  - destruct (ch cl) as [|m l] eqn:Ec; [done|]. exists m, l. split; [done|]. eapply follows_grows; [done|].
    rewrite Hw in H3. destruct (H3 eq_refl eq_refl) as [H3' _]. cbn in H3'.
    rewrite cons_middle, app_assoc, follows_app in H3'. apply H3'.
Qed.

(** ** Steps that leave the output alone *)

Definition same (cl cl' : attachedClient) : Prop :=
  ch cl' = ch cl ∧ lagged cl' = lagged cl ∧ c_lastSeen cl' = c_lastSeen cl ∧ c_live cl' = c_live cl ∧
  c_writer cl' = c_writer cl ∧ sent cl' = sent cl.

Lemma stream_ok_same (k : core) (reg : bool) (cl cl' : attachedClient) :
  same cl cl' → stream_ok k reg cl → stream_ok k reg cl'.
Proof. destruct cl, cl'. unfold same. cbn. intros (-> & -> & -> & -> & -> & ->) []. by split. Qed.

(** The core, the frames and the registration stay; a client may leave. *)
Definition quiet (s s' : session) : Prop :=
  core_of s' = core_of s ∧ (∀ c, s_client s' = Some c → s_client s = Some c) ∧
  (∀ c cl', s_streams s' !! c = Some cl' → ∃ cl, s_streams s !! c = Some cl ∧ same cl cl').

#[global] Instance quiet_po : PreOrder quiet.
Proof.
  split.
  - intros s. split_and!; [done..|]. intros c cl E. exists cl. by split_and!.
  - intros s1 s2 s3 (A1 & A2 & A3) (B1 & B2 & B3). split_and!; [congruence|auto|].
    intros c cl (cl2 & E2 & S2)%B3. apply A3 in E2 as (cl1 & E1 & S1). exists cl1. split; [done|].
    unfold same in *. intuition congruence.
Qed.

Lemma quiet_streams (k : core) (s s' : session) : quiet s s' → streams_ok k s → streams_ok k s'.
Proof.
  intros (_ & Hc & Hs) Hok c cl' E. destruct (Hs c cl' E) as (cl & E' & Hsame).
  apply (stream_ok_same _ _ cl); [done|]. apply (stream_ok_grows k k (registered s c)); [done| |by apply Hok].
  unfold registered. intros R%bool_decide_eq_true _. split; [|done]. apply bool_decide_eq_true. auto.
Qed.

Lemma quiet_inv (s s' : session) : quiet s s' → inv s → inv s'.
Proof. intros Hq [Hw Hs]. pose proof Hq as (E & _). unfold inv. rewrite E. split; [done|by eapply quiet_streams]. Qed.

Lemma quiet_frame (s s' : session) :
  core_of s' = core_of s → s_client s' = s_client s ∨ s_client s' = None → s_streams s' = s_streams s → quiet s s'.
Proof.
  intros E Ec Es. split_and!; [done|destruct Ec as [->| ->]; done|]. rewrite Es. intros c cl ?. exists cl. by split_and!.
Qed.

Lemma quiet_upd (s : session) (c : nat) (f : attachedClient → attachedClient) :
  (∀ cl, same cl (f cl)) → quiet s (upd_stream c f s).
Proof.
  intros Hf. split_and!; [done..|]. intros c' cl'. unfold upd_stream. cbn.
  rewrite lookup_alter_Some. intros [(<- & cl & E & ->)|[_ E]]; [by exists cl|]. exists cl'. by split_and!.
Qed.

Lemma quiet_close (s : session) (c : nat) : quiet s (close_client c s).
Proof. apply quiet_upd. intros cl. by split_and!. Qed.

Lemma quiet_handler (s : session) (c : nat) (pc : handler_pc) : quiet s (set_handler c pc s).
Proof. apply quiet_upd. intros cl. by split_and!. Qed.

Lemma quiet_reader (s s' : session) (c : nat) (pc : reader_pc) : quiet s s' → quiet s (set_reader c (s', pc)).
Proof. intros Hq. etrans; [exact Hq|]. apply quiet_upd. intros cl. by split_and!. Qed.

Ltac frame := apply quiet_frame; [done|first [by left|by right]|done].

Lemma quiet_markDetached (now : Z) (s : session) : quiet s (markDetached now s).1.
Proof. unfold markDetached. destruct (_ && _); frame. Qed.

Lemma quiet_terminate (reason sig : string) (s : session) : quiet s (terminate reason sig s).
Proof. unfold terminate. destruct (s_exited s); [done|]. destruct (bool_decide _); frame. Qed.

Lemma quiet_clientGone (now : Z) (room : bool) (c : nat) (r : attach_result) (s : session) :
  quiet s (clientGone now room c r s).1.
Proof.
  unfold clientGone. destruct (bool_decide _); [|done].
  assert (quiet s (close_client c (s <| s_client := None |>))) as Hq.
  { etrans; [|apply quiet_close]. frame. }
  destruct (s_exited _); [done|]. destruct (s_detachable _); (etrans; [exact Hq|]; frame).
Qed.

Lemma quiet_clientGone_mark (now : Z) (room : bool) (r : attach_result) (s : session) :
  quiet s (clientGone_mark now room r s).1.1.
Proof.
  unfold clientGone_mark. destruct room; [|frame].
  change (quiet s (markDetached now (s <| s_mu := false |>)).1). etrans; [|apply quiet_markDetached]. frame.
Qed.

Lemma quiet_detachRequest (room : bool) (c : nat) (s : session) : quiet s (detachRequest room c s).1.
Proof. unfold detachRequest. destruct (_ || _); [done|]. destruct (negb _); [done|]. destruct (negb room); [done|]. frame. Qed.

Lemma quiet_detachRequest_mark (now : Z) (s : session) : quiet s (detachRequest_mark now s).1.
Proof. unfold detachRequest_mark. etrans; [|apply quiet_markDetached]. frame. Qed.

Lemma quiet_handleInput (now : Z) (c : nat) (sq : Z) (d : bytes) (s : session) : quiet s (handleInput now c sq d s).1.
Proof. unfold handleInput. destruct (_ || _); [done|]. cbv zeta. destruct (_ <? _); frame. Qed.

Lemma quiet_handleSignal (c : nat) (name : string) (s : session) : quiet s (handleSignal c name s).
Proof. unfold handleSignal. destruct (signal_of name); [|done]. destruct (_ && _); [frame|done]. Qed.

Lemma quiet_handleStdinEOF (c : nat) (s : session) : quiet s (handleStdinEOF c s).
Proof. unfold handleStdinEOF. destruct (_ || _); [done|]. frame. Qed.

Lemma quiet_input_write (c : nat) (apply w : bool) (sq : Z) (d : bytes) (s : session) :
  quiet s (input_write c apply w sq d s).
Proof. unfold input_write. destruct (_ && _); [frame|done]. Qed.

(** ** Delivery *)

Lemma deliver_core (now : Z) (m : frame) (s : session) : core_of (deliver now m s).1 = core_of s.
Proof.
  unfold deliver. destruct (s_client s) as [c|]; [|done]. destruct (s_streams s !! c) as [cl|]; [|done].
  destruct (_ <? _)%nat; [done|]. destruct (bool_decide _); [done|]. cbv zeta. destruct (s_exited _); [done|].
  destruct (s_detachable _); [|done]. by destruct (quiet_markDetached now (close_client c (s <| s_client := None |>))) as [-> _].
Qed.

(** Other streams than the one written to. *)
Lemma others_ok (k k' : core) (s s' : session) (c : nat) (cl' : attachedClient) :
  grows k k' → streams_ok k s → s_client s = Some c → s_client s' = Some c →
  stream_ok k' true cl' → s_streams s' = <[c := cl']> (s_streams s) → streams_ok k' s'.
Proof.
  intros Hg Hok Hc Hc' Hcl Es c2 cl2. rewrite Es, lookup_insert_Some. unfold registered.
  intros [[<- <-]|[Hne E]]; [by rewrite bool_decide_eq_true_2|].
  apply (stream_ok_grows k k' (registered s c2)); [done| |by apply Hok].
  intros R%bool_decide_eq_true. congruence.
Qed.

Lemma left_ok (k k' : core) (s s' : session) :
  grows k k' → streams_ok k s → quiet s s' → s_client s' = None → streams_ok k' s'.
Proof.
  intros Hg Hok Hq Hc c cl E. eapply stream_ok_grows; [done| |by eapply (quiet_streams k s s')].
  unfold registered. rewrite Hc. intros R%bool_decide_eq_true. done.
Qed.

Lemma deliver_streams (now : Z) (m : frame) (s : session) (k k' : core) :
  grows k k' → streams_ok k s → (is_Some (s_vt s) → k_pty k = true) →
  (∀ live p, (k_exited k = false → p = front (k_log k)) →
     fits k' live p m ∧ (k_exited k' = false → next_pos p m = front (k_log k'))) →
  streams_ok k' (deliver now m s).1.
Proof.
  intros Hg Hok Hvt Hm. unfold deliver. destruct (s_client s) as [c|] eqn:Ec; [|by apply (left_ok k k' s)].
  destruct (s_streams s !! c) as [cl|] eqn:Ecl.
  2:{ intros c2 cl2 E2. apply (stream_ok_grows k k' (registered s c2)); [done| |by apply Hok]. unfold registered. cbn.
      intros R%bool_decide_eq_true. cbn in E2. congruence. }
  pose proof (Hok c cl Ecl) as Hcl. unfold registered in Hcl. rewrite bool_decide_eq_true_2 in Hcl by done.
  destruct (_ <? _)%nat eqn:Hl.
  { apply (others_ok k k' s _ c (cl <| ch ::= λ l, l ++ [m] |>)); [done..| |done].
    apply (stream_ok_push k); [done| |done]. apply Hm. }
  destruct (bool_decide (is_Some _)) eqn:Hv.
  { apply bool_decide_eq_true in Hv. apply (others_ok k k' s _ c (cl <| lagged := true |>)); [done..| |done].
    apply (stream_ok_lag k _ true); [done|auto| |done].
    intros E. rewrite E in Hl. done. }
  assert (quiet s (close_client c (s <| s_client := None |>))) as Hq.
  { etrans; [|apply quiet_close]. frame. }
  cbv zeta. destruct (s_exited _); [by apply (left_ok k k' s)|]. destruct (s_detachable _).
  - apply (left_ok k k' s); [done..|etrans; [exact Hq|apply quiet_markDetached]|].
    unfold markDetached. by destruct (_ && _).
  - apply (left_ok k k' s); [done..|etrans; [exact Hq|]; frame|done].
Qed.

(** ** Output *)

Lemma history_snoc (from : Z) (l : list (bool * bytes)) (se : bool) (d : bytes) :
  history from (l ++ [(se, d)]) = history from l ++ [(from + Z.of_nat (length l), se, d)].
Proof.
  revert from. induction l as [|[se' d'] l IH]; intros from; cbn [app history].
  - by rewrite Z.add_0_r.
  - rewrite IH. cbn. do 3 f_equal. f_equal. f_equal. lia.
Qed.

Lemma front_snoc (l : list term_event) (se : bool) (d : bytes) : front (l ++ [EvOut se d]) = front l + 1.
Proof. unfold front. rewrite outs_app, length_app. change (length (outs [EvOut se d])) with 1%nat. lia. Qed.

Lemma running_ring (k : core) : wf k → k_exited k = false → zeroed_ring (k_phase k) = false.
Proof. intros Hw E. rewrite (wf_exit _ Hw) in E. by destruct (k_phase k). Qed.

(** The session of [emit] before the delivery. *)
Definition emitted (se : bool) (d : bytes) (flushed : Z * bool) (s : session) : session :=
  let sq := wrap_u64 (s_seq s + 1) in
  s <| s_seq := sq |> <| s_mem := (add (s_mem s) (s_ring s) sq se d).1 |>
    <| s_ring := (add (s_mem s) (s_ring s) sq se d).2 |>
    <| s_vt ::= fmap (λ v, vt_Write v d) |> <| s_rec ::= fmap (output flushed d) |>
    <| s_log ::= λ l, l ++ [EvOut se d] |>.

Lemma emit_emitted (now : Z) (se : bool) (d : bytes) (flushed : Z * bool) (s : session) :
  emit now se d flushed s = deliver now (chunkFrame (wrap_u64 (s_seq s + 1)) se d) (emitted se d flushed s).
Proof. unfold emit, emitted. by destruct (add _ _ _ _ _). Qed.

Lemma emitted_wf (se : bool) (d : bytes) (flushed : Z * bool) (s : session) :
  wf (core_of s) → s_exited s = false → front (s_log s) + 1 < 2 ^ 64 →
  wf (core_of (emitted se d flushed s)) ∧ grows (core_of s) (core_of (emitted se d flushed s)) ∧
  wrap_u64 (s_seq s + 1) = front (s_log s) + 1.
Proof.
  intros Hw He Hb. pose proof (running_ring _ Hw He) as Hz. destruct Hw as [W1 W2 W3 W4 W5 W6 W7]. cbn in *.
  assert (wrap_u64 (s_seq s + 1) = front (s_log s) + 1) as Hsq.
  { rewrite W4. apply wrap_u64_small. unfold front in *. lia. }
  split; [|split; [|done]].
  - rewrite Hz in W5. split; cbn; try done.
    + rewrite W3, He. destruct (s_ptyMode s); [|done]. cbn. unfold replay. by rewrite foldl_app.
    + by rewrite front_snoc.
    + rewrite Hz, Hsq, outs_app. change (outs [EvOut se d]) with [(se, d)]. rewrite history_snoc.
      pose proof (add_ok _ _ _ (front (s_log s) + 1) se d W5) as Ha.
      destruct (add (s_mem s) (s_ring s) (front (s_log s) + 1) se d). cbn. unfold front in *.
      replace (1 + Z.of_nat (length (outs (s_log s)))) with (Z.of_nat (length (outs (s_log s))) + 1) by lia. apply Ha.
    + intros r. rewrite fmap_Some. intros (r0 & E & ->). destruct (W6 r0 E) as [_ Hr]. split; [done|].
      rewrite outs_app, fmap_app. by apply records_output.
    + intros r E. destruct (W7 r E). congruence.
  - unfold grows. cbn. split_and!; [done|done|by apply prefix_app_r|congruence].
Qed.

Lemma emit_inv (now : Z) (se : bool) (d : bytes) (flushed : Z * bool) (s : session) :
  inv s → s_exited s = false → front (s_log s) + 1 < 2 ^ 64 → inv (emit now se d flushed s).1.
Proof.
  intros [Hw Hs] He Hb. rewrite emit_emitted.
  destruct (emitted_wf se d flushed s Hw He Hb) as (Hw' & Hg & Hsq). split; [by rewrite deliver_core|].
  rewrite deliver_core. apply (deliver_streams now _ _ (core_of s)); [done|exact Hs| |].
  - pose proof (wf_vt _ Hw) as Hv. cbn in *. rewrite Hv, fmap_is_Some. destruct (s_ptyMode s); [done|]. by intros [].
  - intros live p Hp. specialize (Hp He). cbn in Hp. rewrite Hsq. cbn [core_of k_log k_exited emitted].
    assert (outs (s_log s ++ [EvOut se d]) !! length (outs (s_log s)) = Some (se, d)) as Ho.
    { rewrite outs_app. by apply list_lookup_middle. }
    unfold emitted. cbn. rewrite front_snoc. unfold chunkFrame. destruct se; cbn; (split; [|done]);
      exists (length (outs (s_log s))); (split_and!; [done|lia|exact Ho]).
Qed.

Lemma emitNotice_inv (now : Z) (text : bytes) (flushed : Z * bool) (s : session) :
  inv s → s_exited s = false → front (s_log s) + 1 < 2 ^ 64 → inv (emitNotice now text flushed s).1.
Proof. intros. unfold emitNotice. destruct (_ =? _)%nat; [done|]. by apply emit_inv. Qed.

(** ** Sizes *)

Lemma resize_inv (c : nat) (cols rows : Z) (flushed : Z * bool) (s : session) : inv s → inv (handleResize c cols rows flushed s).
Proof.
  intros [Hw Hs]. unfold handleResize. destruct (_ || _); [done|]. cbv zeta.
  generalize (clampDim cols 80), (clampDim rows 24). clear cols rows. intros cols rows.
  destruct (_ || s_exited s) eqn:E; [done|]. apply orb_false_iff in E as [_ He].
  assert (outs (s_log s ++ [EvResize cols rows]) = outs (s_log s)) as Ho by (rewrite outs_app; apply app_nil_r).
  assert (front (s_log s ++ [EvResize cols rows]) = front (s_log s)) as Hf by (unfold front; by rewrite Ho).
  split.
  - destruct Hw as [W1 W2 W3 W4 W5 W6 W7]. cbn in *. split; cbn; rewrite ?Ho, ?Hf; try done.
    + rewrite W3, He. destruct (s_ptyMode s); [|done]. cbn. unfold replay. by rewrite foldl_app.
    + intros r. rewrite fmap_Some. intros (r0 & E & ->). destruct (W6 r0 E) as [_ Hr]. split; [done|]. by apply records_resize.
  - intros c' cl E. apply (stream_ok_grows (core_of s) _ (registered s c')); [| |by apply Hs].
    + unfold grows. cbn. split_and!; [done|done|by apply prefix_app_r|congruence].
    + cbn. rewrite Hf. done.
Qed.

(** ** Attaching *)

Lemma ring_ok_frame (m m' : mem) (r : ring) (h : list entry) :
  ring_ok m r h → (next m ≤ next m')%nat → (∀ p, (p < next m)%nat → load m' p = load m p) → ring_ok m' r h.
Proof.
  intros (A & B & C & D & E & F) Hn Hl.
  assert (view m' (chunks r) = view m (chunks r)) as Hv.
  { apply view_ext. intros c Hc. apply Hl. rewrite list.Forall_forall in F. auto. }
  unfold ring_ok. rewrite Hv. split_and!; [done..|]. eapply Forall_impl; [exact F|]. cbn. lia.
Qed.

(** A delta keeps the core well-formed. *)
Lemma attach_wf (s : session) (m : mem) (cs : list ringChunk) (ok : bool) (lastSeen : Z) :
  wf (core_of s) → deltaFrom (s_mem s) (s_ring s) lastSeen (s_seq s) = (m, (cs, ok)) →
  wf (core_of (s <| s_mem := m |>)).
Proof.
  intros [W1 W2 W3 W4 W5 W6 W7] E. split; cbn in *; try done. destruct (zeroed_ring (s_phase s)); [done|].
  pose proof (deltaFrom_frame _ _ _ lastSeen (s_seq s) W5) as Hd. rewrite E in Hd. destruct Hd as (Hn & Hl & _).
  by eapply ring_ok_frame.
Qed.

Definition entry_frame (e : entry) : frame := chunkFrame e.1.1 e.1.2 e.2.

Lemma history_follows (k : core) (live : bool) (l : list (bool * bytes)) (n : nat) :
  (∀ i x, l !! i = Some x → outs (k_log k) !! (n + i)%nat = Some x) →
  follows k live (Z.of_nat n) (entry_frame <$> history (Z.of_nat n + 1) l) ∧
  end_pos (Z.of_nat n) (entry_frame <$> history (Z.of_nat n + 1) l) = Z.of_nat n + Z.of_nat (length l).
Proof.
  revert n. induction l as [|[se d] l IH]; intros n Hl; [cbn; split; [done|lia]|].
  pose proof (Hl 0%nat (se, d) eq_refl) as H0. rewrite Nat.add_0_r in H0.
  destruct (IH (S n)) as [IH1 IH2].
  { intros i x E. rewrite Nat.add_succ_l, <- Nat.add_succ_r. by apply Hl. }
  replace (Z.of_nat (S n)) with (Z.of_nat n + 1) in * by lia. cbn [history fmap list_fmap follows end_pos foldl].
  assert (next_pos (Z.of_nat n) (entry_frame (Z.of_nat n + 1, se, d)) = Z.of_nat n + 1) as -> by (by destruct se).
  split; [split; [|done]|unfold end_pos in IH2; cbn [length]; lia].
  destruct se; exists n; done.
Qed.

Lemma filter_seen (l : list (bool * bytes)) (from : Z) (n : nat) :
  filter (λ e, from - 1 + Z.of_nat n < entry_seq e) (history from l) = history (from + Z.of_nat n) (drop n l).
Proof.
  revert from n. induction l as [|[se d] l IH]; intros from [|n]; [done..| |].
  - replace (from + Z.of_nat 0) with from by lia. apply filter_history_all. lia.
  - cbn [history drop]. rewrite filter_cons, decide_False by (unfold entry_seq; cbn; lia).
    specialize (IH (from + 1) n). replace (from + 1 - 1 + Z.of_nat n) with (from - 1 + Z.of_nat (S n)) in IH by lia.
    rewrite IH. f_equal. lia.
Qed.

(** A complete delta brings the client to the end of the output. *)
Lemma delta_follows (s : session) (k : core) (live : bool) (m : mem) (cs : list ringChunk) (lastSeen : Z) :
  wf (core_of s) → k_log k = s_log s → k_pty k = s_ptyMode s → front (s_log s) < 2 ^ 64 → 0 ≤ lastSeen →
  deltaFrom (s_mem s) (s_ring s) lastSeen (s_seq s) = (m, (cs, true)) →
  follows k live lastSeen (delta_frames s lastSeen m cs) ∧
  end_pos lastSeen (delta_frames s lastSeen m cs) = front (s_log s).
Proof.
  intros Hw Ek Ep Hb H0 E. pose proof (wf_ring _ Hw) as Hr. pose proof (wf_seq _ Hw) as Hq. cbn in Hr, Hq.
  set (l := (λ c, chunkFrame (seq c) (stderr c) (load m (data c))) <$> cs).
  assert (follows k live lastSeen l ∧ end_pos lastSeen l = front (s_log s)) as [Hl1 Hl2].
  { destruct (zeroed_ring (s_phase s)).
    - unfold deltaFrom in E. rewrite Hr in E. destruct (_ <? _); [done|]. destruct (Z.eqb_spec lastSeen (s_seq s)); [|done].
      injection E as <- <-. cbn. split; [done|]. congruence.
    - unfold front in *. pose proof (deltaFrom_exact (s_mem s) (s_ring s) 1 lastSeen (outs (s_log s)) ltac:(lia) ltac:(lia) ltac:(lia) Hr) as Hd.
      cbv zeta in Hd. replace (1 + Z.of_nat (length (outs (s_log s))) - 1) with (s_seq s) in Hd by lia.
      rewrite E in Hd. destruct Hd as [Hd1 Hd2]. destruct (proj1 Hd1 eq_refl) as [Hle _]. specialize (Hd2 eq_refl).
      assert (l = entry_frame <$> view m cs) as -> by (unfold l, view; by rewrite <- list_fmap_compose).
      rewrite Hd2. pose proof (filter_seen (outs (s_log s)) 1 (Z.to_nat lastSeen)) as Hf.
      replace (1 - 1 + Z.of_nat (Z.to_nat lastSeen)) with lastSeen in Hf by lia. rewrite Hf.
      destruct (history_follows k live (drop (Z.to_nat lastSeen) (outs (s_log s))) (Z.to_nat lastSeen)) as [A B].
      { intros i x. by rewrite Ek, lookup_drop. }
      rewrite Z2Nat.id in A, B by done. rewrite (Z.add_comm 1), Z2Nat.id by done.
      split; [exact A|]. rewrite B, length_drop. lia. }
  unfold delta_frames. fold l. destruct (negb (s_ptyMode s) && (lastSeen =? 0)) eqn:Em; [|done].
  apply andb_true_iff in Em as [Ep' ->%Z.eqb_eq]. cbn. split; [|done]. split; [|done]. unfold shows. rewrite Ep, Ek.
  destruct (s_ptyMode s); [done|]. split; [done|]. unfold front. lia.
Qed.

(** A repaint is the screen now. *)
Lemma screen_shows (s : session) (k : core) :
  wf (core_of s) → s_exited s = false → k_log k = s_log s → k_pty k = s_ptyMode s → k_born k = s_born s →
  shows k (s_seq s) (screen s).
Proof.
  intros Hw He El Ep Eb. pose proof (wf_vt _ Hw) as Hv. pose proof (wf_seq _ Hw) as Hq. cbn in Hv, Hq.
  unfold shows, screen. rewrite Ep, El, Eb, Hv, He, Hq. destruct (s_ptyMode s); cbn.
  - by exists (s_log s).
  - split; [done|]. unfold front. lia.
Qed.

Lemma new_stream_ok (k : core) (reg live : bool) (lastSeen : Z) (initial : list frame) :
  follows k live lastSeen initial → (reg = true → k_exited k = false → end_pos lastSeen initial = front (k_log k)) →
  stream_ok k reg (new_stream lastSeen live initial).
Proof. intros Hf He. split; cbn; rewrite ?app_nil_r; done. Qed.

Lemma attach_log (c : nat) (lastSeen : Z) (s : session) : s_log (attach c lastSeen s).1 = s_log s.
Proof.
  unfold attach. destruct (s_exited s); [by destruct (deltaFrom _ _ _ _) as [m [cs ok]]|].
  destruct (s_client s); [|destruct (s_detachedCounted s)]; by destruct (deltaFrom _ _ _ _) as [m [cs ok]].
Qed.

Lemma attach_exited_inv (c : nat) (lastSeen : Z) (s : session) :
  inv s → s_exited s = true → front (s_log s) < 2 ^ 64 → 0 ≤ lastSeen → inv (attach c lastSeen s).1.
Proof.
  intros [Hw Hs] He Hb H0. unfold attach. rewrite He.
  destruct (deltaFrom _ _ _ _) as [m [cs ok]] eqn:Ed. pose proof (attach_wf _ _ _ _ _ Hw Ed) as Hw'.
  split; [exact Hw'|]. intros c' cl. cbn. rewrite lookup_insert_Some. intros [[<- <-]|[Hne E]].
  - apply new_stream_ok; [|cbn; congruence]. apply follows_app. split; [|cbn; by split_and!].
    destruct ok; [|done]. apply (delta_follows s); [done..|exact Ed].
  - apply (stream_ok_grows (core_of s) _ (registered s c')); [by split_and!|cbn; congruence|by apply Hs].
Qed.

Lemma attach_live_inv (c : nat) (lastSeen : Z) (s : session) :
  inv s → s_exited s = false → front (s_log s) < 2 ^ 64 → 0 ≤ lastSeen → inv (attach c lastSeen s).1.
Proof.
  intros Hi He Hb H0. unfold attach. rewrite He.
  set (sd := match s_client s with
             | Some old => (close_client old s, 0)
             | None => if s_detachedCounted s then (s <| s_detachedCounted := false |>, -1) else (s, 0)
             end).
  assert (quiet s sd.1 ∧ s_exited sd.1 = false ∧ s_log sd.1 = s_log s) as (Hq & He' & Hl').
  { unfold sd. destruct (s_client s); [split; [apply quiet_close|done]|].
    destruct (s_detachedCounted s); split; [frame|done|done|done]. }
  apply (quiet_inv _ _ Hq) in Hi. rewrite <- Hl' in Hb. clearbody sd. destruct sd as [s1 d]. cbn in *.
  clear s He Hq Hl'. rename s1 into s, He' into He. destruct Hi as [Hw Hs].
  destruct (deltaFrom _ _ _ _) as [m [cs ok]] eqn:Ed. pose proof (attach_wf _ _ _ _ _ Hw Ed) as Hw'.
  split; [exact Hw'|]. intros c' cl. cbn. unfold registered. cbn. rewrite lookup_insert_Some. intros [[<- <-]|[Hne E]].
  - apply new_stream_ok.
    + destruct ok, (_ || _); cbn [andb].
      * by apply (delta_follows s).
      * split; [|done]. by apply (screen_shows s).
      * split; [|done]. by apply (screen_shows s).
      * split; [|done]. by apply (screen_shows s).
    + intros _ _. destruct ok, (_ || _); cbn [andb].
      * by apply (delta_follows s (core_of s) true).
      * apply (wf_seq _ Hw).
      * apply (wf_seq _ Hw).
      * apply (wf_seq _ Hw).
  - apply (stream_ok_grows (core_of s) _ (registered s c')); [by split_and!| |by apply Hs].
    intros R%bool_decide_eq_true. congruence.
Qed.

(** ** The writer *)

Lemma set_stream_inv (s : session) (c : nat) (cl : attachedClient) :
  inv s → stream_ok (core_of s) (registered s c) cl → inv (set_stream c cl s).
Proof.
  intros [Hw Hs] Hcl. split; [exact Hw|]. intros c' cl'. cbn. rewrite lookup_insert_Some.
  intros [[<- <-]|[_ E]]; [exact Hcl|by apply Hs].
Qed.

(** A frame goes out. *)
Lemma stream_ok_sent (k : core) (reg : bool) (cl : attachedClient) (m : frame) (w : writer_pc) (l : list frame) :
  stream_ok k reg cl → pending (c_writer cl) = m :: l → done_writing (c_writer cl) = false →
  pending w = l → w ≠ WSelect → stream_ok k reg (cl <| sent ::= λ q, q ++ [m] |> <| c_writer := w |>).
Proof.
  intros [H1 H2 H3 H4 H5] Hp Hd Hw Hn. rewrite Hp in *. split; cbn; rewrite ?Hw, <- ?app_assoc; cbn; try done.
  - rewrite cons_middle, app_assoc, follows_app in H2. apply H2.
  - intros _ Hl. by apply H3.
Qed.

(** The last frame goes out. *)
Lemma stream_ok_exit (k : core) (reg : bool) (cl : attachedClient) (m : frame) (r : write_result) (l : list frame) :
  stream_ok k reg cl → pending (c_writer cl) = m :: l →
  stream_ok k reg (cl <| sent ::= λ q, q ++ [m] |> <| c_writer := WDone r |>).
Proof.
  intros [H1 H2 H3 H4 H5] Hp. rewrite Hp, cons_middle, app_assoc, follows_app in H2. destruct H2 as [H2 _].
  split; cbn; rewrite ?app_nil_r; done.
Qed.

(** The writer moves without sending. *)
Lemma stream_ok_move (k : core) (reg : bool) (cl : attachedClient) (w : writer_pc) :
  stream_ok k reg cl → pending (c_writer cl) = [] → done_writing (c_writer cl) = false → pending w = [] →
  (w = WSelect → lagged cl = false) → stream_ok k reg (cl <| c_writer := w |>).
Proof.
  intros [H1 H2 H3 H4 H5] Hp Hd Hw Hl. rewrite Hp in *. split; cbn; rewrite ?Hw, ?app_nil_r; try done.
  - intros _ E. by apply H3.
  - intros E Ew. rewrite Hl in E by done. done.
Qed.

Lemma catchup_ok (s : session) (c : nat) (cl : attachedClient) :
  inv s → s_streams s !! c = Some cl → c_writer cl = WCatchUp →
  let '(m, cl') := catchUpSnapshot s cl in
  stream_ok (core_of s) (registered s c) (cl' <| c_writer := match m with Some m => WSend m | None => WCheck end |>).
Proof.
  intros [Hw Hs] Ecl Ew. pose proof (Hs c cl Ecl) as Hcl. unfold catchUpSnapshot.
  destruct (lagged cl) eqn:El; [|apply stream_ok_move; rewrite ?Ew; done].
  destruct Hcl as [H1 H2 H3 H4 H5]. specialize (H4 El). cbn in H4.
  pose proof (wf_vt _ Hw) as Hv. cbn in Hv. rewrite H4 in Hv. cbn in Hv.
  destruct (s_exited s) eqn:Ee; cbn in Hv; rewrite Hv.
  - split; cbn; rewrite ?app_nil_r; try done. intros _ _. split; [done|]. intros _. congruence.
  - assert (follows (core_of s) (c_live cl) (c_lastSeen cl) (sent cl ++ [snapshot s (screen s) (s_seq s)])) as Hf.
    { apply follows_app. split; [done|]. split; [|done]. by apply (screen_shows s). }
    split; cbn; try done. intros _ _. split; [done|]. intros _ _. rewrite end_pos_app. apply (wf_seq _ Hw).
Qed.

Lemma write_step_inv (s s' : session) (c : nat) (cl : attachedClient) :
  inv s → s_streams s !! c = Some cl → write_step c cl s = Some s' → inv s'.
Proof.
  intros Hi Ecl. pose proof Hi as [Hw Hs]. pose proof (Hs c cl Ecl) as Hcl. unfold write_step.
  destruct (c_writer cl) as [[|m l]| | | |m|] eqn:Ew.
  - intros [= <-]. apply set_stream_inv; [done|]. apply stream_ok_move; rewrite ?Ew; done.
  - intros [= <-]. apply set_stream_inv; [done|]. destruct (is_exit m).
    + eapply stream_ok_exit; [done|]. by rewrite Ew.
    + eapply stream_ok_sent; rewrite ?Ew; done.
  - intros [= <-]. apply set_stream_inv; [done|]. apply stream_ok_move; rewrite ?Ew; try done; by destruct (lagged cl).
  - destruct (s_mu s); [done|]. pose proof (catchup_ok s c cl Hi Ecl Ew) as Hc. destruct (catchUpSnapshot s cl) as [m cl'].
    intros [= <-]. by apply set_stream_inv.
  - destruct (ch cl) as [|m l] eqn:Ec; [done|]. intros [= <-]. apply set_stream_inv; [done|].
    destruct Hcl as [H1 H2 H3 H4 H5]. rewrite Ew, Ec in *. cbn in *. split; cbn; try done.
    destruct (lagged cl).
    + destruct (H5 eq_refl eq_refl) as (m' & l' & [= <- <-] & ?). done.
    + destruct (H3 eq_refl eq_refl) as [H3' _]. rewrite cons_middle, app_assoc, follows_app in H3'. apply H3'.
  - intros [= <-]. apply set_stream_inv; [done|]. destruct (is_exit m).
    + eapply stream_ok_exit; [done|]. by rewrite Ew.
    + eapply stream_ok_sent; rewrite ?Ew; done.
  - done.
Qed.

Lemma stream_ok_over (k : core) (reg : bool) (cl : attachedClient) (r : write_result) :
  stream_ok k reg cl → stream_ok k reg (cl <| c_writer := WDone r |>).
Proof. intros [H1 H2 H3 H4 H5]. split; cbn; rewrite ?app_nil_r; done. Qed.

Lemma write_over_inv (s s' : session) (c : nat) (cl : attachedClient) :
  inv s → s_streams s !! c = Some cl → write_fail c cl s = Some s' ∨ write_stop c cl s = Some s' → inv s'.
Proof.
  intros Hi Ecl Hor. pose proof Hi as [Hw Hs].
  assert (∃ r, s' = set_stream c (cl <| c_writer := WDone r |>) s) as [r ->].
  { destruct Hor as [Hf|Hf]; unfold write_fail, write_stop in Hf.
    - exists WriteErr. destruct (c_writer cl) as [[|]| | | | |]; congruence.
    - exists WriteStopped. destruct (c_writer cl); try done. destruct (stop cl); congruence. }
  apply set_stream_inv; [done|]. apply stream_ok_over, (Hs c cl Ecl).
Qed.

(** ** The end *)

Lemma finalize_inv (now : Z) (marked : Z * bool) (sealed : Z) (ok : bool) (code : Z) (status : string) (s : session) :
  inv s → s_phase s = Waiting → s_pumps s = [] → inv (finalize now marked sealed ok code status s).1.
Proof.
  intros [Hw Hs] Hph Hpm. unfold finalize. cbv zeta.
  set (reason := if bool_decide _ then _ else _).
  set (s1 := _ <| s_phase := Finalized |>).
  assert (s_exited s = false) as He by (pose proof (wf_exit _ Hw) as E; cbn in E; by rewrite Hph in E).
  assert (wf (core_of s1)) as Hw1.
  { destruct Hw as [W1 W2 W3 W4 W5 W6 W7]. cbn in *. rewrite Hph in W5. cbn in W5. split; cbn; try done.
    - by destruct (s_ptyMode s).
    - intros r. rewrite fmap_Some. intros (r0 & E & ->). destruct (W6 r0 E) as [_ Hr]. split; [done|].
      intros m Hm Ht. by apply (finalize_complete r0 _ marked sealed now ok reason m). }
  pose proof (deliver_core now (Exit code reason) s1) as Hc.
  pose proof (deliver_streams now (Exit code reason) s1 (core_of s) (core_of s1)) as Hd.
  destruct (deliver now (Exit code reason) s1) as [s2 d]. cbn [fst] in *. unfold inv. rewrite Hc. split; [done|].
  apply Hd; [|exact Hs|by intros []|].
  - unfold grows. cbn. split_and!; [done..|congruence].
  - intros live p Hp. specialize (Hp He). by split_and!.
Qed.

Lemma tombstone_inv (s : session) : inv s → s_phase s = Settled → inv (tombstone s).
Proof.
  intros [Hw Hs] Hph. unfold tombstone, zeroize. destruct Hw as [W1 W2 W3 W4 W5 W6 W7]. cbn in *. rewrite Hph in *. cbn in *.
  assert (s_pumps s = []) as Hp by (destruct (s_pumps s); [done|]; by specialize (W2 ltac:(done))).
  split; [split; cbn; rewrite ?Hp; done|].
  intros c cl E. apply (stream_ok_grows (core_of s) _ (registered s c)); [by split_and!|done|by apply Hs].
Qed.

(** A change of phase. *)
Lemma phase_inv (s s' : session) :
  inv s → s_streams s' = s_streams s → s_client s' = s_client s → wf (core_of s') →
  grows (core_of s) (core_of s') → s_log s' = s_log s → inv s'.
Proof.
  intros [Hw Hs] Es Ec Hw' Hg El. split; [done|]. intros c cl. rewrite Es. intros E.
  apply (stream_ok_grows (core_of s) _ (registered s c)); [done| |by apply Hs].
  unfold registered. cbn. by rewrite Ec, El.
Qed.

Lemma pumps_running (s : session) (se : bool) : inv s → se ∈ s_pumps s → s_exited s = false.
Proof.
  intros [Hw _] Hin. pose proof (wf_exit _ Hw) as E. pose proof (wf_pumps _ Hw) as Hp. cbn in *.
  destruct (s_pumps s); [by apply not_elem_of_nil in Hin|]. specialize (Hp ltac:(done)). rewrite E. by destruct (s_phase s).
Qed.

Lemma core_log (s : session) : s_log s = k_log (core_of s).
Proof. done. Qed.

Lemma core_phase (s : session) : s_phase s = k_phase (core_of s).
Proof. done. Qed.

Lemma emit_log (now : Z) (se : bool) (d : bytes) (flushed : Z * bool) (s : session) :
  s_log (emit now se d flushed s).1 = s_log s ++ [EvOut se d] ∧ s_phase (emit now se d flushed s).1 = s_phase s.
Proof. rewrite emit_emitted, core_log, core_phase, deliver_core. done. Qed.

(** A step of the phases that neither ends the session nor touches its output. *)
Lemma advance_inv (s s' : session) :
  inv s → s_streams s' = s_streams s → s_client s' = s_client s →
  core_of s' = mkCore (s_phase s') (s_exited s) (s_exitCode s) (s_exitReason s) (s_ptyMode s) (s_born s) (s_log s)
    (s_vt s) (s_mem s) (s_ring s) (s_seq s) (s_pumps s') (s_rec s) (s_cast s) →
  ended (s_phase s') = ended (s_phase s) → zeroed_ring (s_phase s') = zeroed_ring (s_phase s) →
  (s_pumps s' ≠ [] → pumping (s_phase s') = true) → inv s'.
Proof.
  intros Hi Es Ec Ek He Hz Hp. pose proof Hi as [Hw _]. eapply (phase_inv s); [done..| | |by injection Ek].
  - rewrite Ek. destruct Hw as [W1 W2 W3 W4 W5 W6 W7]. split; cbn in *; [by rewrite He|done..|by rewrite Hz|done|done].
  - rewrite Ek. by split_and!.
Qed.

Lemma no_pumps (s : session) : inv s → pumping (s_phase s) = false → s_pumps s = [].
Proof.
  intros [Hw _] E. pose proof (wf_pumps _ Hw) as Hp. cbn in Hp. destruct (s_pumps s); [done|].
  rewrite Hp in E by done. done.
Qed.

Lemma at_phase_Some (p : phase) (s : session) (r : option (session * Z)) (x : session * Z) :
  at_phase p s r = Some x ↔ s_phase s = p ∧ r = Some x.
Proof. unfold at_phase. case_bool_decide; split; [by split|by intros [_ ?]|done|by intros [? _]]. Qed.

Lemma locked_Some (s : session) (r x : session * Z) : locked s r = Some x ↔ s_mu s = false ∧ r = x.
Proof. unfold locked. destruct (s_mu s); (split; [by intros [= <-]|by intros [? <-]]). Qed.

Lemma on_stream_Some (c : nat) (s : session) (f : attachedClient → option (session * Z)) (x : session * Z) :
  on_stream c s f = Some x ↔ ∃ cl, s_streams s !! c = Some cl ∧ f cl = Some x.
Proof.
  unfold on_stream. destruct (s_streams s !! c) as [cl|]; split; [by exists cl|by intros (cl' & [= <-] & ?)|done|by intros (cl' & ? & _)].
Qed.

Lemma notice_step_inv (now : Z) (flushed : Z * bool) (s s' : session) (d : Z) (room : bool) :
  inv s → front (s_log s') < 2 ^ 64 → act now room (ShowNotice flushed) s = Some (s', d) → inv s'.
Proof.
  intros Hi Hb. cbn. rewrite at_phase_Some. intros [Hph E].
  assert (s_exited s = false) as He by (destruct Hi as [Hw _]; pose proof (wf_exit _ Hw) as E'; cbn in E'; by rewrite Hph in E').
  assert (∀ s1, inv s1 → s_phase s1 = Pumping → inv (s1 <| s_phase := Noticed |>)) as Hadv.
  { intros s1 H1 E1. apply (advance_inv s1); rewrite ?E1; done. }
  destruct (s_ptyMode s); [|injection E as <- <-; auto]. apply locked_Some in E as [_ E].
  unfold emitNotice in E. destruct (_ =? _)%nat; [injection E as <- <-; auto|].
  pose proof (emit_inv now false (s_notice s) flushed s Hi He) as Hn.
  destruct (emit_log now false (s_notice s) flushed s) as [Hl Hp1]. rewrite Hph in Hp1.
  destruct (emit now false (s_notice s) flushed s) as [s1 d1]. cbn in *. injection E as <- <-. cbn in Hb.
  rewrite Hl, front_snoc in Hb. auto.
Qed.

(** ** Every step *)

Lemma read_msg_inv (now : Z) (room : bool) (c : nat) (m : client_msg) (flushed : Z * bool) (s : session) :
  inv s → inv (read_msg now room c m flushed s).
Proof.
  intros Hi. unfold read_msg. destruct m.
  - eapply quiet_inv; [by apply quiet_reader|done].
  - pose proof (quiet_handleInput now c sq data s) as Hq. destruct (handleInput now c sq data s).
    eapply quiet_inv; [by apply quiet_reader|done].
  - eapply quiet_inv; [by apply quiet_reader|]. by apply resize_inv.
  - eapply quiet_inv; [by apply quiet_reader|]. eapply quiet_inv; [apply quiet_handleSignal|done].
  - eapply quiet_inv; [by apply quiet_reader|]. eapply quiet_inv; [apply quiet_handleStdinEOF|done].
  - pose proof (quiet_detachRequest room c s) as Hq. destruct (detachRequest room c s).
    eapply quiet_inv; [by apply quiet_reader|done].
Qed.

Lemma ack_inv (now : Z) (c : nat) (sq : Z) (s : session) : inv s → inv (input_ack now c sq s).1.
Proof.
  intros [Hw Hs]. unfold input_ack. destruct (bool_decide _); [|done]. unfold inv. rewrite deliver_core.
  split; [done|]. apply (deliver_streams now _ _ (core_of s)); [done..| |].
  - cbn. pose proof (wf_vt _ Hw) as Hv. cbn in Hv. rewrite Hv. destruct (s_ptyMode s); [done|]. by intros [].
  - intros live p Hp. by split.
Qed.

Lemma read_step_inv (now : Z) (c : nat) (cl : attachedClient) (s s' : session) (d : Z) :
  inv s → read_step now c cl s = Some (s', d) → inv s'.
Proof.
  intros Hi. unfold read_step. destruct (c_reader cl).
  - done.
  - intros [= <- <-]. eapply quiet_inv; [by apply quiet_reader|done].
  - intros [= <- <-]. eapply quiet_inv; [apply quiet_reader, quiet_input_write|done].
  - destruct (s_mu s); [done|]. pose proof (ack_inv now c sq s Hi) as Ha. destruct (input_ack now c sq s).
    intros [= <- <-]. eapply quiet_inv; [by apply quiet_reader|done].
  - pose proof (quiet_detachRequest_mark now s) as Hq. destruct (detachRequest_mark now s).
    intros [= <- <-]. eapply quiet_inv; [by apply quiet_reader|done].
  - done.
Qed.

Lemma handle_step_inv (now : Z) (room : bool) (c : nat) (cl : attachedClient) (s s' : session) (d : Z) :
  inv s → handle_step now room c cl s = Some (s', d) → inv s'.
Proof.
  intros Hi. unfold handle_step. destruct (c_handler cl) as [|r|room' r|reason r|r].
  - done.
  - destruct (s_mu s); [done|]. pose proof (quiet_clientGone now room c r s) as Hq.
    destruct (clientGone now room c r s). intros [= <- <-]. eapply quiet_inv; [etrans; [exact Hq|apply quiet_handler]|done].
  - pose proof (quiet_clientGone_mark now room' r s) as Hq. destruct (clientGone_mark now room' r s) as [[s1 d1] pc].
    intros [= <- <-]. eapply quiet_inv; [etrans; [exact Hq|apply quiet_handler]|done].
  - destruct (s_mu s); [done|]. intros [= <- <-].
    eapply quiet_inv; [etrans; [apply quiet_terminate|apply quiet_handler]|done].
  - done.
Qed.

Lemma pump_step_inv (now : Z) (room : bool) (se : bool) (data : bytes) (flushed : Z * bool) (s s' : session) (d : Z) :
  inv s → front (s_log s') < 2 ^ 64 → act now room (Pump se data flushed) s = Some (s', d) → inv s'.
Proof.
  intros Hi Hb. cbn. destruct (_ && _) eqn:Eg; [|done]. rewrite locked_Some. intros [_ E].
  apply andb_true_iff in Eg as [[Hin%bool_decide_eq_true _]%andb_true_iff _].
  pose proof (pumps_running s se Hi Hin) as He. unfold pump_chunk in E.
  assert (inv (s <| s_lastActivity := now |>)) as Hi' by (eapply quiet_inv; [|exact Hi]; frame).
  pose proof (emit_inv now se data flushed _ Hi' He) as Hn.
  destruct (emit_log now se data flushed (s <| s_lastActivity := now |>)) as [Hl _].
  rewrite E in Hn, Hl. cbn in Hn, Hl. rewrite Hl, front_snoc in Hb. auto.
Qed.

Lemma drain_step_inv (now : Z) (banner : bytes) (flushed : Z * bool) (s : session) :
  inv s → front (s_log (sendDrainNotice now banner flushed s).1) < 2 ^ 64 → inv (sendDrainNotice now banner flushed s).1.
Proof.
  intros Hi. unfold sendDrainNotice. destruct (s_exited s) eqn:He; [done|]. destruct (s_ptyMode s); [|done].
  cbn [orb negb]. destruct (emit_log now false banner flushed s) as [-> _]. rewrite front_snoc. by apply emit_inv.
Qed.

Lemma filter_pumps (l : list bool) (se : bool) : filter (λ x, x ≠ se) l ≠ [] → l ≠ [].
Proof. by destruct l. Qed.

(** Every step of a session keeps the invariant, as long as its chunks can be numbered. *)
Lemma act_inv (now : Z) (room : bool) (a : action) (s s' : session) (d : Z) :
  inv s → front (s_log s') < 2 ^ 64 → act now room a s = Some (s', d) → inv s'.
Proof.
  intros Hi Hb E. destruct a.
  all: try (apply at_phase_Some in E as [Hph E]).
  - injection E as <- <-. apply (advance_inv s); [done|destruct (s_detachable s); done..|by rewrite Hph|by rewrite Hph|].
    assert (s_pumps s = []) as Hp by (apply no_pumps; [done|by rewrite Hph]). destruct (s_detachable s); cbn; rewrite Hp; done.
  - injection E as <- <-. apply (advance_inv s); [done..|by rewrite Hph|by rewrite Hph|done].
  - apply (notice_step_inv now flushed s s' d room); [exact Hi|exact Hb|]. cbn. apply at_phase_Some. by split.
  - injection E as <- <-. apply (advance_inv s); [done..|by rewrite Hph|by rewrite Hph|done].
  - by eapply pump_step_inv.
  - cbn in E. destruct (bool_decide _); [|done]. injection E as <- <-. apply (advance_inv s); [done..|].
    cbn. intros Hp%filter_pumps. destruct Hi as [Hw _]. by apply (wf_pumps _ Hw).
  - cbn in E. destruct (bool_decide _); [|done]. injection E as <- <-. eapply quiet_inv; [|exact Hi]. frame.
  - cbn in E. destruct (_ && _); [|done]. injection E as <- <-. eapply quiet_inv; [|exact Hi]. frame.
  - cbn in E. destruct (s_dying s) as [|reason l]; [done|]. apply locked_Some in E as [_ [= <- <-]].
    eapply quiet_inv; [etrans; [|apply quiet_terminate]; frame|done].
  - destruct (s_status s) as [[code status]|]; [|done]. destruct (s_pumps s) eqn:Hp; [|done].
    apply locked_Some in E as [_ E]. pose proof (finalize_inv now marked sealed ok code status s Hi Hph Hp) as Hf. by rewrite E in Hf.
  - apply locked_Some in E as [_ [= <- <-]]. by apply tombstone_inv.
  - apply on_stream_Some in E as (cl & Ecl & E). apply fmap_Some in E as (s1 & E & [= -> ->]). by eapply write_step_inv.
  - apply on_stream_Some in E as (cl & Ecl & E). apply fmap_Some in E as (s1 & E & [= -> ->]). eapply write_over_inv; eauto.
  - apply on_stream_Some in E as (cl & Ecl & E). apply fmap_Some in E as (s1 & E & [= -> ->]). eapply write_over_inv; eauto.
  - apply on_stream_Some in E as (cl & Ecl & E). destruct (c_reader cl); try done.
    apply locked_Some in E as [_ [= <- <-]]. by apply read_msg_inv.
  - apply on_stream_Some in E as (cl & Ecl & E). destruct (c_reader cl); try done. injection E as <- <-.
    eapply quiet_inv; [by apply quiet_reader|done].
  - apply on_stream_Some in E as (cl & Ecl & E). by eapply read_step_inv.
  - apply on_stream_Some in E as (cl & Ecl & E). apply fmap_Some in E as (pc & E & [= -> ->]). eapply quiet_inv; [apply quiet_handler|done].
  - apply on_stream_Some in E as (cl & Ecl & E). apply fmap_Some in E as (pc & E & [= -> ->]). eapply quiet_inv; [apply quiet_handler|done].
  - apply on_stream_Some in E as (cl & Ecl & E). apply fmap_Some in E as (pc & E & [= -> ->]). eapply quiet_inv; [apply quiet_handler|done].
  - apply on_stream_Some in E as (cl & Ecl & E). by eapply handle_step_inv.
  - cbn in E. destruct (_ && _) eqn:Eg; [|done]. apply andb_true_iff in Eg as [_ [Hg _]%bool_decide_eq_true].
    apply locked_Some in E as [_ E]. pose proof (attach_log c lastSeen s) as El. rewrite E in El. cbn in El. rewrite El in Hb.
    destruct (s_exited s) eqn:He.
    + pose proof (attach_exited_inv c lastSeen s Hi He Hb Hg) as Hf. by rewrite E in Hf.
    + pose proof (attach_live_inv c lastSeen s Hi He Hb Hg) as Hf. by rewrite E in Hf.
  - apply locked_Some in E as [_ [= <- <-]]. eapply quiet_inv; [apply quiet_terminate|done].
  - injection E as <- <-. eapply quiet_inv; [|exact Hi]. frame.
  - apply locked_Some in E as [_ E]. pose proof (drain_step_inv now banner flushed s Hi) as Hf. rewrite E in Hf. by apply Hf.
  - injection E as <- <-. apply (advance_inv s); [done..|by rewrite Hph|by rewrite Hph|].
    cbn. rewrite no_pumps; [done|done|by rewrite Hph].
  - injection E as <- <-. apply (advance_inv s); [done..|by rewrite Hph|by rewrite Hph|].
    cbn. rewrite no_pumps; [done|done|by rewrite Hph].
Qed.

(** ** The log only grows *)

Lemma quiet_log (s s' : session) : quiet s s' → s_log s `prefix_of` s_log s'.
Proof. intros (E & _). rewrite (core_log s'), E. done. Qed.

Lemma emit_prefix (now : Z) (se : bool) (d : bytes) (flushed : Z * bool) (s : session) :
  s_log s `prefix_of` s_log (emit now se d flushed s).1.
Proof. destruct (emit_log now se d flushed s) as [-> _]. by apply prefix_app_r. Qed.

Lemma resize_prefix (c : nat) (cols rows : Z) (flushed : Z * bool) (s : session) :
  s_log s `prefix_of` s_log (handleResize c cols rows flushed s).
Proof.
  unfold handleResize. destruct (_ || _); [done|]. cbv zeta. destruct (_ || _); [done|]. by apply prefix_app_r.
Qed.

Lemma read_msg_prefix (now : Z) (room : bool) (c : nat) (m : client_msg) (flushed : Z * bool) (s : session) :
  s_log s `prefix_of` s_log (read_msg now room c m flushed s).
Proof.
  unfold read_msg. etrans; [|apply quiet_log, (quiet_upd _ c); intros cl; by split_and!]. destruct m; cbn [fst].
  - done.
  - apply quiet_log, quiet_handleInput.
  - apply resize_prefix.
  - apply quiet_log, quiet_handleSignal.
  - apply quiet_log, quiet_handleStdinEOF.
  - apply quiet_log, quiet_detachRequest.
Qed.

Lemma finalize_log (now : Z) (marked : Z * bool) (sealed : Z) (ok : bool) (code : Z) (status : string) (s : session) :
  s_log (finalize now marked sealed ok code status s).1 = s_log s.
Proof.
  unfold finalize. cbv zeta. set (m := Exit _ _). set (s1 := _ <| s_phase := Finalized |>).
  assert (s_log (deliver now m s1).1 = s_log s1) as E by (by rewrite core_log, deliver_core).
  destruct (deliver now m s1). exact E.
Qed.

Lemma write_step_log (c : nat) (cl : attachedClient) (s s' : session) :
  write_step c cl s = Some s' ∨ write_fail c cl s = Some s' ∨ write_stop c cl s = Some s' → s_log s' = s_log s.
Proof.
  unfold write_step, write_fail, write_stop.
  intros [E|[E|E]]; destruct (c_writer cl) as [[|]| | | | |]; try done; try (by injection E as <-).
  - destruct (s_mu s); [done|]. destruct (catchUpSnapshot s cl). by injection E as <-.
  - destruct (ch cl); [done|]. by injection E as <-.
  - destruct (stop cl); [|done]. by injection E as <-.
Qed.

Lemma act_log (now : Z) (room : bool) (a : action) (s s' : session) (d : Z) :
  HostSession.act now room a s = Some (s', d) → s_log s `prefix_of` s_log s'.
Proof.
  intros E. destruct a.
  all: try (apply at_phase_Some in E as [_ E]).
  all: try (apply on_stream_Some in E as (cl & _ & E)).
  - injection E as <- <-. by destruct (s_detachable s).
  - by injection E as <- <-.
  - destruct (s_ptyMode s); [|by injection E as <- <-]. apply locked_Some in E as [_ E]. unfold emitNotice in E.
    destruct (_ =? _)%nat; [by injection E as <- <-|]. pose proof (emit_prefix now false (s_notice s) flushed s) as Hp.
    destruct (emit _ _ _ _ _). by injection E as <- <-.
  - by injection E as <- <-.
  - cbn in E. destruct (_ && _); [|done]. apply locked_Some in E as [_ E]. unfold pump_chunk in E.
    pose proof (emit_prefix now se data flushed (s <| s_lastActivity := now |>)) as Hp. by rewrite E in Hp.
  - cbn in E. destruct (bool_decide _); [|done]. by injection E as <- <-.
  - cbn in E. destruct (bool_decide _); [|done]. by injection E as <- <-.
  - cbn in E. destruct (_ && _); [|done]. by injection E as <- <-.
  - cbn in E. destruct (s_dying s) as [|reason l]; [done|]. apply locked_Some in E as [_ [= <- <-]].
    apply quiet_log. etrans; [|apply quiet_terminate]. frame.
  - destruct (s_status s) as [[code status]|]; [|done]. destruct (s_pumps s); [|done]. apply locked_Some in E as [_ E].
    pose proof (finalize_log now marked sealed ok code status s) as Hl. rewrite E in Hl. cbn in Hl. by rewrite Hl.
  - apply locked_Some in E as [_ [= <- <-]]. unfold tombstone. by destruct (zeroize _ _).
  - apply fmap_Some in E as (s1 & E & [= -> ->]). rewrite (write_step_log c cl s s1); [done|by left].
  - apply fmap_Some in E as (s1 & E & [= -> ->]). rewrite (write_step_log c cl s s1); [done|by right; left].
  - apply fmap_Some in E as (s1 & E & [= -> ->]). rewrite (write_step_log c cl s s1); [done|by right; right].
  - destruct (c_reader cl); try done. apply locked_Some in E as [_ [= <- <-]]. apply read_msg_prefix.
  - destruct (c_reader cl); try done. by injection E as <- <-.
  - unfold read_step in E. destruct (c_reader cl); try done.
    + by injection E as <- <-.
    + injection E as <- <-. apply quiet_log, quiet_reader, quiet_input_write.
    + destruct (s_mu s); [done|]. unfold input_ack in E. destruct (bool_decide _); [|by injection E as <- <-].
      assert (s_log (deliver now (InputAck sq) s).1 = s_log s) as El by (by rewrite core_log, deliver_core).
      destruct (deliver now (InputAck sq) s) as [s1 d1]. injection E as <- <-. cbn in El |- *. by rewrite El.
    + pose proof (quiet_detachRequest_mark now s) as Hq. destruct (detachRequest_mark now s).
      injection E as <- <-. by apply quiet_log, quiet_reader.
  - apply fmap_Some in E as (pc & E & [= -> ->]). by apply quiet_log, quiet_handler.
  - apply fmap_Some in E as (pc & E & [= -> ->]). by apply quiet_log, quiet_handler.
  - apply fmap_Some in E as (pc & E & [= -> ->]). by apply quiet_log, quiet_handler.
  - unfold handle_step in E. destruct (c_handler cl) as [|r|room' r|reason r|r]; try done.
    + destruct (s_mu s); [done|]. pose proof (quiet_clientGone now room c r s) as Hq.
      destruct (clientGone now room c r s). injection E as <- <-. apply quiet_log. etrans; [exact Hq|apply quiet_handler].
    + pose proof (quiet_clientGone_mark now room' r s) as Hq. destruct (clientGone_mark now room' r s) as [[s1 d1] pc].
      injection E as <- <-. apply quiet_log. etrans; [exact Hq|apply quiet_handler].
    + destruct (s_mu s); [done|]. injection E as <- <-. apply quiet_log. etrans; [apply quiet_terminate|apply quiet_handler].
  - cbn in E. destruct (_ && _); [|done]. apply locked_Some in E as [_ E]. pose proof (attach_log c lastSeen s) as El.
    rewrite E in El. cbn in El. by rewrite El.
  - apply locked_Some in E as [_ [= <- <-]]. apply quiet_log, quiet_terminate.
  - by injection E as <- <-.
  - apply locked_Some in E as [_ E]. unfold sendDrainNotice in E. destruct (_ || _); [by injection E as <- <-|].
    pose proof (emit_prefix now false banner flushed s) as Hp. by rewrite E in Hp.
  - by injection E as <- <-.
  - by injection E as <- <-.
Qed.

End Streams.
