(* ===== verification/Host.v ===== *)
(** * The session host (sessionhost/sessionhost.go, drain.go)

    The table of sessions, the counts of active and detached ones, the policy, and the
    calls of the worker: creating, attaching, killing and restricting sessions, reaping
    and draining.  A call is a value that says where it is; [act] is one step: of a
    goroutine of a session (HostSession.v), of a call, or of the clock.  The counters are
    atomics, so the loads and updates of [Create] are steps of their own, under [h.mu]. *)
From Stdlib Require Import ZArith Lia Strings.Byte Strings.Ascii.
From stdpp Require Import base gmap sets list strings sorting relations.
From S2P Require Import Prelude Trust Proc Ring Lease Screen Recorder HostSession.
Local Open Scope Z_scope.

(** ** Policy *)

Record HostPolicy := mkHostPolicy {
  p_ForbidDetach : bool; p_MaxSessions : Z; p_MaxDetached : Z; p_RingBufferBytes : Z;
  p_DetachedTtlSec : Z; p_IdleReapSec : Z }.

Record policySettings := mkPolicySettings {
  forbidDetach : bool; maxSessions : Z; maxDetached : Z; ringBytes : Z; detachedTTL : Z; idleReap : Z }.

Definition defaultPolicy : policySettings := mkPolicySettings false 64 16 262144 (86400 * second) 0.

Definition normalizePolicy (p : HostPolicy) : policySettings :=
  let pick v d := if 0 <? v then v else d in
  mkPolicySettings (p_ForbidDetach p) (pick (p_MaxSessions p) (maxSessions defaultPolicy))
    (pick (p_MaxDetached p) (maxDetached defaultPolicy)) (pick (p_RingBufferBytes p) (ringBytes defaultPolicy))
    (if 0 <? p_DetachedTtlSec p then p_DetachedTtlSec p * second else detachedTTL defaultPolicy)
    (p_IdleReapSec p * second).

(** ** Starting a process *)

(** The account the host runs as, and what it reads of the system. *)
Record os := mkOs {
  os_user : option (string * string); getenv : string → string; passwd : option string; has_bash : bool }.

Definition sessionUser (w : os) (osUser : string) : option (string * string) :=
  match os_user w with
  | Some (name, home) =>
      if bool_decide (osUser ≠ "") && bool_decide (osUser ≠ name) then None else Some (name, home)
  | None => None
  end.

Fixpoint split_on (sep : ascii) (s : string) : list string :=
  match s with
  | EmptyString => [""]
  | String c r =>
      if Ascii.eqb c sep then "" :: split_on sep r
      else match split_on sep r with
           | f :: fs => String c f :: fs
           | [] => [String c ""]
           end
  end.

Definition passwdShell (w : os) (username : string) : string :=
  match passwd w with
  | None => ""
  | Some b =>
      default "" (head (omap (λ line,
        match split_on ":" line with
        | n :: _ :: _ :: _ :: _ :: _ :: sh :: _ =>
            if bool_decide (n = username) && bool_decide (sh ≠ "") then Some sh else None
        | _ => None
        end) (split_on (ascii_of_nat 10) b)))
  end.

Definition loginShell (w : os) (username : string) : string :=
  if bool_decide (getenv w "SHELL" ≠ "") then getenv w "SHELL"
  else if bool_decide (passwdShell w username ≠ "") then passwdShell w username
  else if has_bash w then "/bin/bash" else "/bin/sh".

Definition minimalEnv (w : os) (name home term sessionID : string) (recorded encrypted : bool) : list string :=
  let path := if bool_decide (getenv w "PATH" = "") then "/usr/local/sbin:/usr/local/bin:/usr/sbin:/usr/bin:/sbin:/bin"
              else getenv w "PATH" in
  [String.append "PATH=" path; String.append "HOME=" home; String.append "USER=" name;
   String.append "GENEZA_SESSION=" sessionID] ++
  (if recorded then "GENEZA_SESSION_RECORDED=1" :: (if encrypted then [] else ["GENEZA_SESSION_RECORDED_PLAINTEXT=1"])
   else []) ++
  (if bool_decide (getenv w "LANG" = "") then [] else [String.append "LANG=" (getenv w "LANG")]) ++
  (if bool_decide (term = "") then [] else [String.append "TERM=" term]).

Record HostCreateRequest := mkHostCreateRequest {
  cr_SessionId : string; cr_User : string; cr_Action : string; cr_OsUser : string; cr_Command : string;
  cr_Term : string; cr_Cols : Z; cr_Rows : Z; cr_Pty : bool; cr_Detachable : bool; cr_Record : bool;
  cr_WorkspaceId : string; cr_Provider : string; cr_Subject : string;
  cr_AuditRecipients : list string; cr_AuditRecipient : string }.

(** The argv of a session; a pipe session needs a command. *)
Definition command_of (w : os) (name : string) (r : HostCreateRequest) : option (list string) :=
  if cr_Pty r && bool_decide (cr_Command r = "") then Some [loginShell w name; "-l"]
  else if cr_Pty r then Some ["/bin/sh"; "-lc"; cr_Command r]
  else if bool_decide (cr_Command r = "") then None
  else Some ["/bin/sh"; "-lc"; cr_Command r].

Definition recipients_of (r : HostCreateRequest) : list string :=
  if (length (cr_AuditRecipients r) =? 0)%nat && bool_decide (cr_AuditRecipient r ≠ "") then [cr_AuditRecipient r]
  else cr_AuditRecipients r.

Definition maxRecordingCiphertextBytes : Z := Z.shiftl 512 20.

(** ESC, CR, LF and the bullet in the notices. *)
Definition csi_bytes (s : string) : bytes := encode (csi s).
Definition bullet : bytes := WriteRune 8226.
Definition crlf : bytes := encode [13; 10].

Definition notice_of (r : HostCreateRequest) : bytes :=
  if cr_Record r then
    if negb (length (recipients_of r) =? 0)%nat
    then csi_bytes "2m" ++ bullet ++ bytes_of_string " This session is being recorded (encrypted at rest)." ++ csi_bytes "0m" ++ crlf
    else csi_bytes "33m" ++ bullet ++
         bytes_of_string " This session is being recorded as PLAINTEXT (no audit recipient configured)." ++ csi_bytes "0m" ++ crlf
  else [].

Definition drainBanner : bytes :=
  crlf ++ csi_bytes "1;33m" ++ bytes_of_string "[geneza] this machine is updating " ++ WriteRune 8212 ++
  bytes_of_string " your session will close shortly; reconnect to resume." ++ csi_bytes "0m" ++ crlf.

(** What starting a session meets: the entropy of its id, the bytes the header of the
    recording flushed (or its error), and whether the process starts. *)
Record start_env := mkStartEnv { e_hostID : option string; e_header : option Z; e_started : bool }.

Inductive code : Type := Unavailable | PermissionDenied | InvalidArgument | ResourceExhausted | NotFound | Internal.

#[export] Instance code_eq_dec : EqDecision code.
Proof. solve_decision. Defined.

Section Host.
Context `{Vt10x, Sha256}.

(** [startSession] up to the table. *)
Definition startSession (w : os) (now : Z) (e : start_env) (r : HostCreateRequest) (user : string * string)
    (pol : policySettings) : result code session :=
  let cols := clampDim (cr_Cols r) 80 in
  let rows := clampDim (cr_Rows r) 24 in
  match command_of w user.1 r with
  | None => Err InvalidArgument
  | Some argv =>
      let term := if bool_decide (cr_Term r = "") && cr_Pty r then "xterm-256color" else cr_Term r in
      let encrypted := negb (length (recipients_of r) =? 0)%nat in
      let env := minimalEnv w user.1 user.2 term (cr_SessionId r) (cr_Record r) encrypted in
      match e_hostID e with
      | None => Err Internal
      | Some id =>
          let rec := if cr_Record r then
                       match e_header e with
                       | None => Err Internal
                       | Some hdr =>
                           Ok (Some (newRecorder (recipients_of r) maxRecordingCiphertextBytes now hdr
                             (mkRecorderMeta (cr_SessionId r) (cr_WorkspaceId r) (cr_User r) (cr_Provider r)
                                (cr_Subject r) (cr_Action r) (AuditKeyID (recipients_of r)))))
                       end
                     else Ok None in
          match rec with
          | Err c => Err c
          | Ok rec =>
              if e_started e then
                Ok (mkSession id (cr_SessionId r) (cr_User r) (cr_Action r) (cr_Pty r) (cr_Detachable r) argv env
                      false "detached" now now now false cols rows
                      (if cr_Pty r then Some (vt_New cols rows) else None) mem0 (newRing (ringBytes pol)) 0 0 false
                      None (mkSessionCaps true (cr_Pty r) true [] true true) rec false 0 "" ""
                      ∅ [] Published [] None [] [] (if cr_Pty r then notice_of r else []) (cols, rows) [] None)
              else Err Internal
          end
      end
  end.

(** ** Calls *)

Record HostSetCapsRequest := mkHostSetCapsRequest {
  sc_ReadOnly : bool; sc_AllowNewChannels : bool; sc_AllowSftpWrite : bool; sc_AllowedForwards : list string }.

Definition caps_of (q : HostSetCapsRequest) : SessionCaps :=
  mkSessionCaps true false (negb (sc_ReadOnly q)) (sc_AllowedForwards q) (sc_AllowSftpWrite q) (sc_AllowNewChannels q).

(** The calls that name a session. *)
Inductive session_op : Type :=
| OpAttach (c : nat) (lastSeen : Z)
| OpKill
| OpSetCaps (q : HostSetCapsRequest).

Definition op_action (op : session_op) : action :=
  match op with
  | OpAttach c lastSeen => DoAttach c lastSeen
  | OpKill => DoTerminate "killed"
  | OpSetCaps q => DoSetCaps (caps_of q)
  end.

Inductive answer : Type := Created (id : string) | Done | Failed (c : code).

(** Where a call is.  [Create]: before the load of [draining], of the policy, before the
    lock and the load of the active count, before the load of the detached count, before
    the updates (all under the lock), starting the session, releasing the reservation.
    [reapPass]: visiting the sessions, terminating one, past the visits, terminating the
    rest.  Draining: setting the flag, taking the list, warning the sessions. *)
Inductive call : Type :=
| CLookup (id : string) (op : session_op)
| COp (o : nat) (op : session_op)
| CCreate (r : HostCreateRequest)
| CPolicy (r : HostCreateRequest)
| CReserve (r : HostCreateRequest) (user : string * string) (pol : policySettings)
| CRoom (r : HostCreateRequest) (user : string * string) (pol : policySettings)
| CAddActive (r : HostCreateRequest) (user : string * string) (pol : policySettings)
| CAddDetached (r : HostCreateRequest) (user : string * string) (pol : policySettings)
| CStart (r : HostCreateRequest) (user : string * string) (pol : policySettings)
| CRelease (r : HostCreateRequest) (e : code)
| CReleaseDetached (e : code)
| CApplyPolicy (p : HostPolicy)
| CReap
| CScan (pol : policySettings) (now : Z) (todo : list nat) (counted : list (nat * Z))
| CScanKill (pol : policySettings) (now : Z) (o : nat) (todo : list nat) (counted : list (nat * Z))
| CTerminate (os : list nat)
| CDrain
| CNotify
| CWarn (os : list nat)
| CShutdown
| CAnswered (a : answer).

Record host := mkHost {
  h_os : os; h_pol : policySettings; activeN : Z; detachedN : Z; h_draining : bool; h_mu : bool;
  h_sessions : gmap string nat; objs : gmap nat session; calls : gmap nat call; h_now : Z }.

#[export] Instance eta_host : Eta host := λ h,
  mkHost (h_os h) (h_pol h) (activeN h) (detachedN h) (h_draining h) (h_mu h) (h_sessions h) (objs h) (calls h) (h_now h).

Definition newHost (w : os) (now : Z) : host := mkHost w defaultPolicy 0 0 false false ∅ ∅ ∅ now.

Definition room (h : host) : bool := detachedN h <? maxDetached (h_pol h).

(** A step of session [o]. *)
Definition on_session (o : nat) (a : action) (h : host) : option host :=
  match objs h !! o with
  | None => None
  | Some s =>
      match HostSession.act (h_now h) (room h) a s with
      | Some (s', d) => Some (h <| objs ::= <[o := s']> |> <| detachedN ::= λ n, n + d |>)
      | None => None
      end
  end.

(** [s.detachedSince] order, for the sessions over the cap. *)
Definition since_le (x y : nat * Z) : Prop := x.2 ≤ y.2.
#[export] Instance since_le_dec : RelDecision since_le := λ x y, decide (x.2 ≤ y.2).

(** What a visit of [reapPass] decides. *)
Inductive verdict : Type := Skip | Expired | Keep.

Definition judge (pol : policySettings) (now : Z) (s : session) : verdict :=
  if s_exited s || bool_decide (is_Some (s_client s)) then Skip
  else if (0 <? detachedTTL pol) && (detachedTTL pol <? now - s_detachedSince s) then Expired
  else if (0 <? idleReap pol) && (idleReap pol <? now - s_lastActivity s) then Expired
  else Keep.

(** What a step of a call meets: nothing, a start, an order of the table, bytes flushed. *)
Inductive choice : Type :=
| NoChoice
| Starting (o : nat) (e : start_env)
| InOrder (os : list nat)
| Flushed (n : Z * bool).

(** The sessions of the table, in the order Go iterates it. *)
Definition listed (h : host) (os : list nat) : bool := bool_decide (os ≡ₚ (map_to_list (h_sessions h)).*2).

(** One step of a call. *)
Definition call_step (ch : choice) (c : call) (h : host) : option (call * host) :=
  match c with
  | CLookup id op =>
      if h_mu h then None
      else match h_sessions h !! id with
           | Some o => Some (COp o op, h)
           | None => Some (CAnswered (Failed NotFound), h)
           end
  | COp o op => (λ h', (CAnswered Done, h')) <$> on_session o (op_action op) h
  | CCreate r => Some (if h_draining h then CAnswered (Failed Unavailable) else CPolicy r, h)
  | CPolicy r =>
      let pol := h_pol h in
      Some (if cr_Detachable r && forbidDetach pol then CAnswered (Failed PermissionDenied)
            else if cr_Detachable r && negb (cr_Pty r) then CAnswered (Failed InvalidArgument)
            else match sessionUser (h_os h) (cr_OsUser r) with
                 | None => CAnswered (Failed PermissionDenied)
                 | Some u => CReserve r u pol
                 end, h)
  | CReserve r u pol =>
      if h_mu h then None
      else if maxSessions pol <=? activeN h then Some (CAnswered (Failed ResourceExhausted), h)
      else Some (if cr_Detachable r then CRoom r u pol else CAddActive r u pol, h <| h_mu := true |>)
  | CRoom r u pol =>
      if maxDetached pol <=? detachedN h then Some (CAnswered (Failed ResourceExhausted), h <| h_mu := false |>)
      else Some (CAddActive r u pol, h)
  | CAddActive r u pol =>
      let h := h <| activeN ::= λ n, n + 1 |> in
      if cr_Detachable r then Some (CAddDetached r u pol, h) else Some (CStart r u pol, h <| h_mu := false |>)
  | CAddDetached r u pol => Some (CStart r u pol, h <| detachedN ::= λ n, n + 1 |> <| h_mu := false |>)
  | CStart r u pol =>
      match ch with
      | Starting o e =>
          match startSession (h_os h) (h_now h) e r u pol with
          | Err c => Some (CRelease r c, h)
          | Ok s =>
              if h_mu h || bool_decide (is_Some (objs h !! o)) then None
              else Some (CAnswered (Created (s_hostID s)),
                         h <| objs ::= <[o := s]> |> <| h_sessions ::= <[s_hostID s := o]> |>)
          end
      | _ => None
      end
  | CRelease r e =>
      Some (if cr_Detachable r then CReleaseDetached e else CAnswered (Failed e), h <| activeN ::= λ n, n - 1 |>)
  | CReleaseDetached e => Some (CAnswered (Failed e), h <| detachedN ::= λ n, n - 1 |>)
  | CApplyPolicy p => Some (CAnswered Done, h <| h_pol := normalizePolicy p |>)
  | CReap =>
      match ch with
      | InOrder os => if h_mu h || negb (listed h os) then None else Some (CScan (h_pol h) (h_now h) os [], h)
      | _ => None
      end
  | CScan pol now (o :: todo) counted =>
      match objs h !! o with
      | None => None
      | Some s =>
          if s_mu s then None
          else match judge pol now s with
               | Skip => Some (CScan pol now todo counted, h)
               | Expired => Some (CScanKill pol now o todo counted, h)
               | Keep =>
                   Some (CScan pol now todo (if s_detachedCounted s then counted ++ [(o, s_detachedSince s)] else counted), h)
               end
      end
  | CScan pol now [] counted =>
      let over := detachedN h - maxDetached pol in
      Some (if over <=? 0 then CAnswered Done
            else CTerminate (take (Z.to_nat over) (merge_sort since_le counted).*1), h)
  | CScanKill pol now o todo counted =>
      (λ h', (CScan pol now todo counted, h')) <$> on_session o (DoTerminate "reaped") h
  | CTerminate (o :: os) => (λ h', (CTerminate os, h')) <$> on_session o (DoTerminate "reaped") h
  | CTerminate [] => Some (CAnswered Done, h)
  | CDrain => Some (if h_draining h then CAnswered Done else CNotify, h <| h_draining := true |>)
  | CNotify =>
      match ch with
      | InOrder os => if h_mu h || negb (listed h os) then None else Some (CWarn os, h)
      | _ => None
      end
  | CWarn (o :: os) =>
      match ch with
      | Flushed n => (λ h', (CWarn os, h')) <$> on_session o (DoDrainNotice drainBanner n) h
      | _ => None
      end
  | CWarn [] => Some (CAnswered Done, h)
  | CShutdown =>
      match ch with
      | InOrder os => if h_mu h || negb (listed h os) then None else Some (CTerminate os, h)
      | _ => None
      end
  | CAnswered _ => None
  end.

(** The calls as they arrive: from the worker, the reaper's ticker, the signals. *)
Definition arrives (c : call) : bool :=
  match c with
  | CLookup _ _ | CCreate _ | CApplyPolicy _ | CReap | CDrain | CNotify | CShutdown => true
  | _ => false
  end.

Inductive host_action : Type :=
| Tick (d : Z)
| Run (o : nat) (a : action)
| Settle (o : nat)
| Bury (o : nat)
| Arrive (i : nat) (c : call)
| Step (i : nat) (ch : choice).

Definition act (a : host_action) (h : host) : option host :=
  match a with
  | Tick d => if 0 <=? d then Some (h <| h_now ::= λ t, t + d |>) else None
  | Run o a => if own a then on_session o a h else None
  | Settle o => (λ h', h' <| activeN ::= λ n, n - 1 |>) <$> on_session o DoSettle h
  | Bury o =>
      match objs h !! o with
      | Some s =>
          if h_mu h then None else (λ h', h' <| h_sessions ::= delete (s_hostID s) |>) <$> on_session o DoRemove h
      | None => None
      end
  | Arrive i c =>
      if arrives c && bool_decide (calls h !! i = None) then Some (h <| calls ::= <[i := c]> |>) else None
  | Step i ch =>
      match calls h !! i with
      | Some c =>
          match call_step ch c h with
          | Some (c', h') => Some (h' <| calls ::= <[i := c']> |>)
          | None => None
          end
      | None => None
      end
  end.

Definition step (h h' : host) : Prop := ∃ a, act a h = Some h'.

(** A schedule. *)
Fixpoint run (l : list host_action) (h : host) : option host :=
  match l with
  | [] => Some h
  | a :: l => match act a h with Some h' => run l h' | None => None end
  end.

Lemma run_steps (l : list host_action) (h h' : host) : run l h = Some h' → rtc step h h'.
Proof.
  revert h. induction l as [|a l IH]; intros h; cbn; [by intros [= ->]|].
  destruct (act a h) as [h1|] eqn:E; [|done]. intros Hr. eapply rtc_l; [by exists a|by apply IH].
Qed.

(** [List]: the sessions by age. *)
Definition info_le (x y : HostSessionInfo) : Prop :=
  (if i_StartedUnix x =? i_StartedUnix y then String.leb (i_HostSessionId x) (i_HostSessionId y)
   else i_StartedUnix x <? i_StartedUnix y) = true.
#[export] Instance info_le_dec : RelDecision info_le := λ x y, decide (_ = true).

Definition List (h : host) (os : list nat) : list HostSessionInfo :=
  merge_sort info_le (info <$> omap (λ o, objs h !! o) os).

(** [Health]. *)
Definition Health (h : host) : Z * Z := (activeN h mod 2 ^ 32, detachedN h mod 2 ^ 32).

(** The line of the status file. *)
Definition drain_status (h : host) : bool * Z := (h_draining h, activeN h).

End Host.

(** ** A small host

    A terminal that shows the last bytes written in one row; sessions opened, attached to
    and ended by schedules. *)
Module HostFixture.

#[export] Instance strip : Vt10x := {|
  vt := bytes; vt_New _ _ := []; vt_Write v d := v ++ d; vt_Resize v _ _ := v; vt_Size _ := (4, 1)%nat;
  vt_Cell v x _ := mkGlyph (Z_of_byte (nth x v x00)) 0 (2 ^ 24) (2 ^ 24 + 1);
  vt_Cursor v := (Nat.min (length v) 3, 0)%nat; vt_CursorVisible _ := true;
  DefaultFG := 2 ^ 24; DefaultBG := 2 ^ 24 + 1; DefaultCursor := 2 ^ 24 + 2 |}.

#[export] Instance sha : Sha256 := λ b, take 32 (b ++ replicate 32 x2a).

Definition box : os := mkOs (Some ("ops", "/home/ops")) (λ _, "") None true.

Definition request (pty detachable record : bool) : HostCreateRequest :=
  mkHostCreateRequest "s1" "ada" "shell" "" "top" "" 80 24 pty detachable record "w1" "oidc" "ada" [] "".

(** Creating session [o] by call [i]. *)
Definition create (i o : nat) (id : string) (r : HostCreateRequest) : list host_action :=
  Arrive i (CCreate r) :: replicate (if cr_Detachable r then 6 else 4) (Step i NoChoice) ++
  [Step i (Starting o (mkStartEnv (Some id) (Some 60) true));
   Run o Count; Run o LaunchPumps; Run o (ShowNotice (90, true)); Run o LaunchWaiter].

Definition named (i : nat) (id : string) (op : session_op) : list host_action :=
  [Arrive i (CLookup id op); Step i NoChoice; Step i NoChoice].

Definition write (o c n : nat) : list host_action := replicate n (Run o (Write c)).

Definition finish (o : nat) (pumps : list bool) : list host_action :=
  Run o (ProcExit 0 "exited") :: ((λ p, Run o (PumpEnd p)) <$> pumps) ++ [Run o (Finalize (30, true) 10 true); Settle o].

Definition fresh : host := newHost box 0.

(** The host after a schedule that runs. *)
Definition after (l : list host_action) : host := default fresh (run l fresh).

End HostFixture.
