(* ===== verification/Hosting.v ===== *)
(** * Theorems about the session host (Host.v, HostSession.v)

    For every interleaving of the calls, the sessions and their streams: what a client
    is sent fits the output of its session, a finished recording that is not flagged is
    whole, the active count is exact and stays under the cap, and the detached count
    never falls short of the detached sessions. *)
From Stdlib Require Import ZArith Lia Strings.Byte.
From stdpp Require Import base gmap sets list strings relations.
From S2P Require Import Prelude Trust Proc Ring Lease Screen Recorder HostSession Streams Host.
Local Open Scope Z_scope.

(** ** Sums over a map *)

Section Total.
Context {A : Type} (f : A → Z).

Definition total (m : gmap nat A) : Z := map_fold (λ _ x n, f x + n) 0 m.

Lemma total_empty : total ∅ = 0.
Proof. apply map_fold_empty. Qed.

Lemma total_new (m : gmap nat A) (k : nat) (x : A) : m !! k = None → total (<[k := x]> m) = f x + total m.
Proof. intros E. unfold total. rewrite map_fold_insert_L; [done| |done]. intros. lia. Qed.

Lemma total_delete (m : gmap nat A) (k : nat) (x : A) : m !! k = Some x → total m = f x + total (delete k m).
Proof.
  intros E. rewrite <- (total_new (delete k m) k x) by apply lookup_delete_eq. by rewrite insert_delete_id.
Qed.

Lemma total_set (m : gmap nat A) (k : nat) (x y : A) : m !! k = Some x → total (<[k := y]> m) = total m - f x + f y.
Proof.
  intros E. rewrite <- insert_delete_eq, total_new by apply lookup_delete_eq. rewrite (total_delete m k x E). lia.
Qed.

Lemma total_nonneg (m : gmap nat A) : (∀ x, 0 ≤ f x) → 0 ≤ total m.
Proof.
  intros Hf. unfold total. induction m as [|k x m E IH] using map_first_key_ind; [by rewrite map_fold_empty|].
  fold (total (<[k := x]> m)). rewrite total_new by done. specialize (Hf x). unfold total. lia.
Qed.

Lemma total_two (m : gmap nat A) (i j : nat) (x y : A) :
  (∀ x, 0 ≤ f x) → i ≠ j → m !! i = Some x → m !! j = Some y → f x + f y ≤ total m.
Proof.
  intros Hf Hne Ei Ej. rewrite (total_delete m i x Ei), (total_delete (delete i m) j y) by (by rewrite lookup_delete_ne).
  pose proof (total_nonneg (delete j (delete i m)) Hf). lia.
Qed.

Lemma total_one (m : gmap nat A) (i : nat) (x : A) : (∀ x, 0 ≤ f x) → m !! i = Some x → f x ≤ total m.
Proof. intros Hf E. rewrite (total_delete m i x E). pose proof (total_nonneg (delete i m) Hf). lia. Qed.

End Total.

Section Hosting.
Context `{Vt10x, Sha256}.

(** ** The count of a session *)

Definition b2z (b : bool) : Z := if b then 1 else 0.

Definition alive (s : session) : Z :=
  match s_phase s with Settled | Zeroized | Removed => 0 | _ => 1 end.

(** What a session stands for in the detached count. *)
Definition counted (s : session) : Z :=
  b2z (s_detachedCounted s) + match s_phase s with Published => b2z (s_detachable s) | _ => 0 end.

(** A region pays for what it does to the flag. *)
Definition pays (s : session) (r : session * Z) : Prop :=
  s_phase r.1 = s_phase s ∧ s_detachable r.1 = s_detachable s ∧ b2z (s_detachedCounted r.1) = b2z (s_detachedCounted s) + r.2.

Lemma pays_free (s s' : session) :
  s_phase s' = s_phase s → s_detachable s' = s_detachable s → s_detachedCounted s' = s_detachedCounted s → pays s (s', 0).
Proof. intros A B C. split_and!; cbn; [done..|]. rewrite C. lia. Qed.

Lemma pays_markDetached (now : Z) (s : session) : pays s (markDetached now s).
Proof.
  unfold markDetached. cbv zeta. cbn. destruct (s_detachable s) eqn:Ed, (s_detachedCounted s) eqn:Ec; cbn;
    (split_and!; cbn; rewrite ?Ed, ?Ec; done).
Qed.

Lemma pays_trans (s s1 : session) (r : session * Z) :
  s_phase s1 = s_phase s → s_detachable s1 = s_detachable s → s_detachedCounted s1 = s_detachedCounted s → pays s1 r → pays s r.
Proof. intros A B C (P1 & P2 & P3). unfold pays. rewrite P1, P2, P3. by rewrite A, B, C. Qed.

Lemma pays_deliver (now : Z) (m : frame) (s : session) : pays s (deliver now m s).
Proof.
  unfold deliver. destruct (s_client s) as [c|]; [|by apply pays_free]. destruct (s_streams s !! c) as [cl|]; [|by apply pays_free].
  destruct (_ <? _)%nat; [by apply pays_free|]. destruct (bool_decide _); [by apply pays_free|]. cbv zeta.
  destruct (s_exited _); [by apply pays_free|]. destruct (s_detachable _); [|by apply pays_free].
  by eapply pays_trans; [..|apply pays_markDetached].
Qed.

Lemma pays_emit (now : Z) (se : bool) (d : bytes) (flushed : Z * bool) (s : session) : pays s (emit now se d flushed s).
Proof. rewrite emit_emitted. by eapply pays_trans; [..|apply pays_deliver]. Qed.

Lemma pays_attach (c : nat) (lastSeen : Z) (s : session) : pays s (attach c lastSeen s).
Proof.
  unfold attach. destruct (s_exited s).
  { destruct (deltaFrom _ _ _ _) as [m [cs ok]]. by apply pays_free. }
  destruct (s_client s).
  { destruct (deltaFrom _ _ _ _) as [m [cs ok]]. by apply pays_free. }
  destruct (s_detachedCounted s) eqn:Ec; destruct (deltaFrom _ _ _ _) as [m [cs ok]].
  - split_and!; [done..|]. cbn. by rewrite Ec.
  - by apply pays_free.
Qed.

Lemma pays_counted (s : session) (r : session * Z) : pays s r → counted r.1 = counted s + r.2 ∧ alive r.1 = alive s.
Proof. intros (A & B & C). unfold counted, alive. rewrite A, B, C. split; [lia|done]. Qed.

Lemma pays_terminate (reason sig : string) (s s1 : session) :
  s_phase s1 = s_phase s → s_detachable s1 = s_detachable s → s_detachedCounted s1 = s_detachedCounted s →
  pays s (terminate reason sig s1, 0).
Proof. intros A B C. unfold terminate. destruct (s_exited s1); [by apply pays_free|]. destruct (bool_decide _); by apply pays_free. Qed.

Lemma pays_read_msg (now : Z) (room : bool) (c : nat) (m : client_msg) (flushed : Z * bool) (s : session) :
  pays s (read_msg now room c m flushed s, 0).
Proof.
  unfold read_msg. destruct m.
  - by apply pays_free.
  - unfold handleInput. destruct (_ || _); [by apply pays_free|]. cbv zeta. destruct (_ <? _); by apply pays_free.
  - unfold handleResize. destruct (_ || _); [by apply pays_free|]. cbv zeta. destruct (_ || _); by apply pays_free.
  - unfold handleSignal. destruct (signal_of name); [|by apply pays_free]. destruct (_ && _); by apply pays_free.
  - unfold handleStdinEOF. destruct (_ || _); by apply pays_free.
  - unfold detachRequest. destruct (_ || _); [by apply pays_free|]. destruct (negb _); [by apply pays_free|].
    destruct (negb room); by apply pays_free.
Qed.

Lemma pays_read_step (now : Z) (c : nat) (cl : attachedClient) (s : session) (r : session * Z) :
  read_step now c cl s = Some r → pays s r.
Proof.
  unfold read_step. destruct (c_reader cl); try done.
  - intros [= <-]. by apply pays_free.
  - intros [= <-]. unfold input_write. destruct (_ && _); by apply pays_free.
  - destruct (s_mu s); [done|]. assert (pays s (input_ack now c sq s)) as Hp.
    { unfold input_ack. destruct (bool_decide _); [apply pays_deliver|by apply pays_free]. }
    destruct (input_ack now c sq s) as [s1 d1]. by intros [= <-].
  - assert (pays s (detachRequest_mark now s)) as Hp by (by eapply pays_trans; [..|apply pays_markDetached]).
    destruct (detachRequest_mark now s) as [s1 d1]. by intros [= <-].
Qed.

Lemma pays_handle_step (now : Z) (room : bool) (c : nat) (cl : attachedClient) (s : session) (r : session * Z) :
  handle_step now room c cl s = Some r → pays s r.
Proof.
  unfold handle_step. destruct (c_handler cl) as [|re|room' re|reason re|re]; try done.
  - destruct (s_mu s); [done|]. unfold clientGone. destruct (bool_decide _); [|intros [= <-]; by apply pays_free].
    destruct (s_exited _); [intros [= <-]; by apply pays_free|]. destruct (s_detachable _); intros [= <-]; by apply pays_free.
  - unfold clientGone_mark. destruct room'; [|intros [= <-]; by apply pays_free].
    assert (pays s (markDetached now (s <| s_mu := false |>))) as Hp by (by eapply pays_trans; [..|apply pays_markDetached]).
    destruct (markDetached now (s <| s_mu := false |>)) as [s1 d1]. by intros [= <-].
  - destruct (s_mu s); [done|]. intros [= <-]. unfold terminate. destruct (s_exited s); [by apply pays_free|].
    destruct (bool_decide _); by apply pays_free.
Qed.

Lemma pays_write (c : nat) (cl : attachedClient) (s s' : session) :
  write_step c cl s = Some s' ∨ write_fail c cl s = Some s' ∨ write_stop c cl s = Some s' → pays s (s', 0).
Proof.
  unfold write_step, write_fail, write_stop.
  intros [E|[E|E]]; destruct (c_writer cl) as [[|]| | | | |]; try done; try (injection E as <-; by apply pays_free).
  - destruct (s_mu s); [done|]. destruct (catchUpSnapshot s cl). injection E as <-. by apply pays_free.
  - destruct (ch cl); [done|]. injection E as <-. by apply pays_free.
  - destruct (stop cl); [|done]. injection E as <-. by apply pays_free.
Qed.

Lemma finalize_counted (now : Z) (marked : Z * bool) (sealed : Z) (ok : bool) (code : Z) (status : string) (s : session) :
  s_phase s = Waiting →
  counted (finalize now marked sealed ok code status s).1 = counted s + (finalize now marked sealed ok code status s).2 ∧
  alive (finalize now marked sealed ok code status s).1 = alive s.
Proof.
  intros Hph. unfold finalize. cbv zeta. set (m := Exit _ _). set (s1 := _ <| s_phase := Finalized |>).
  pose proof (pays_deliver now m s1) as Hp. apply pays_counted in Hp as [Hc Ha].
  destruct (deliver now m s1) as [s2 d]. cbn in Hc, Ha |- *. rewrite Hc, Ha. unfold counted, alive, b2z. cbn. rewrite Hph. cbn.
  split; [|done]. destruct (s_detachedCounted s); lia.
Qed.

(** What every step does to the counts. *)
Lemma act_counts (now : Z) (room : bool) (a : action) (s s' : session) (d : Z) :
  HostSession.act now room a s = Some (s', d) →
  counted s' ≤ counted s + d ∧ alive s' = alive s - (if a is DoSettle then 1 else 0).
Proof.
  intros E.
  assert (pays s (s', d) → a ≠ DoSettle → counted s' ≤ counted s + d ∧ alive s' = alive s - (if a is DoSettle then 1 else 0)) as Hpay.
  { intros [Hc Ha]%pays_counted Hn. cbn in Hc, Ha. rewrite Hc, Ha. destruct a; try done; lia. }
  destruct a.
  all: try (apply at_phase_Some in E as [Hph E]).
  all: try (apply on_stream_Some in E as (cl & _ & E)).
  - injection E as <- <-. unfold counted, alive, b2z. cbn. destruct (s_detachable s) eqn:Ed; cbn; rewrite ?Ed, Hph; cbn;
      destruct (s_detachedCounted s); cbn; lia.
  - injection E as <- <-. unfold counted, alive. cbn. rewrite Hph. cbn. lia.
  - assert (∀ s1, pays s (s1, d) → counted (s1 <| s_phase := Noticed |>) ≤ counted s + d ∧ alive (s1 <| s_phase := Noticed |>) = alive s - 0) as Hn.
    { intros s1 (A & B & C). unfold counted, alive. cbn in *. rewrite C, Hph. cbn. lia. }
    destruct (s_ptyMode s); [|injection E as <- <-; apply Hn; by apply pays_free].
    apply locked_Some in E as [_ E]. unfold emitNotice in E.
    destruct (_ =? _)%nat; [injection E as <- <-; apply Hn; by apply pays_free|].
    pose proof (pays_emit now false (s_notice s) flushed s) as Hp. destruct (emit _ _ _ _ _). injection E as <- <-. by apply Hn.
  - injection E as <- <-. unfold counted, alive. cbn. rewrite Hph. cbn. lia.
  - cbn in E. destruct (_ && _); [|done]. apply locked_Some in E as [_ E]. apply Hpay; [|done]. rewrite <- E.
    by eapply pays_trans; [..|apply pays_emit].
  - cbn in E. destruct (bool_decide _); [|done]. injection E as <- <-. apply Hpay; [by apply pays_free|done].
  - cbn in E. destruct (bool_decide _); [|done]. injection E as <- <-. apply Hpay; [by apply pays_free|done].
  - cbn in E. destruct (_ && _); [|done]. injection E as <- <-. apply Hpay; [by apply pays_free|done].
  - cbn in E. destruct (s_dying s) as [|reason l]; [done|]. apply locked_Some in E as [_ [= <- <-]]. apply Hpay; [by apply pays_terminate|done].
  - destruct (s_status s) as [[code status]|]; [|done]. destruct (s_pumps s); [|done]. apply locked_Some in E as [_ E].
    pose proof (finalize_counted now marked sealed ok code status s Hph) as [Hc Ha]. rewrite E in Hc, Ha. cbn in Hc, Ha. lia.
  - apply locked_Some in E as [_ [= <- <-]]. unfold tombstone. destruct (zeroize _ _). unfold counted, alive. cbn. rewrite Hph. cbn. lia.
  - apply fmap_Some in E as (s1 & E & [= -> ->]). apply Hpay; [|done]. eapply pays_write. by left.
  - apply fmap_Some in E as (s1 & E & [= -> ->]). apply Hpay; [|done]. eapply pays_write. by right; left.
  - apply fmap_Some in E as (s1 & E & [= -> ->]). apply Hpay; [|done]. eapply pays_write. by right; right.
  - destruct (c_reader cl); try done. apply locked_Some in E as [_ [= <- <-]]. apply Hpay; [apply pays_read_msg|done].
  - destruct (c_reader cl); try done. injection E as <- <-. apply Hpay; [by apply pays_free|done].
  - apply Hpay; [|done]. by eapply pays_read_step.
  - apply fmap_Some in E as (pc & E & [= -> ->]). apply Hpay; [by apply pays_free|done].
  - apply fmap_Some in E as (pc & E & [= -> ->]). apply Hpay; [by apply pays_free|done].
  - apply fmap_Some in E as (pc & E & [= -> ->]). apply Hpay; [by apply pays_free|done].
  - apply Hpay; [|done]. by eapply pays_handle_step.
  - cbn in E. destruct (_ && _); [|done]. apply locked_Some in E as [_ E]. apply Hpay; [|done]. rewrite <- E. apply pays_attach.
  - apply locked_Some in E as [_ [= <- <-]]. apply Hpay; [by apply pays_terminate|done].
  - injection E as <- <-. apply Hpay; [by apply pays_free|done].
  - apply locked_Some in E as [_ E]. apply Hpay; [|done]. rewrite <- E. unfold sendDrainNotice.
    destruct (_ || _); [by apply pays_free|apply pays_emit].
  - injection E as <- <-. unfold counted, alive. cbn. rewrite Hph. cbn. lia.
  - injection E as <- <-. unfold counted, alive. cbn. rewrite Hph. cbn. lia.
Qed.

(** ** The counts of the host *)

(** What a call has added to the counts and not yet handed to a session. *)
Definition reserved (c : call) : Z :=
  match c with CAddDetached _ _ _ | CStart _ _ _ | CRelease _ _ => 1 | _ => 0 end.

Definition reservedDetached (c : call) : Z :=
  match c with CStart r _ _ | CRelease r _ => b2z (cr_Detachable r) | CReleaseDetached _ => 1 | _ => 0 end.

Definition holding (c : call) : Z :=
  match c with CRoom _ _ _ | CAddActive _ _ _ | CAddDetached _ _ _ => 1 | _ => 0 end.

(** The policies a call carries allow [m] sessions; past its check there is one left. *)
Definition call_ok (m n : Z) (c : call) : Prop :=
  match c with
  | CReserve _ _ pol => maxSessions pol ≤ m
  | CRoom r _ _ => n < m ∧ cr_Detachable r = true
  | CAddActive _ _ _ => n < m
  | CAddDetached r _ _ => cr_Detachable r = true
  | CApplyPolicy p => maxSessions (normalizePolicy p) ≤ m
  | _ => True
  end.

Record books (m : Z) (h : host) : Prop := mkBooks {
  b_active : activeN h = total alive (objs h) + total reserved (calls h);
  b_detached : total counted (objs h) + total reservedDetached (calls h) ≤ detachedN h;
  b_mu : total holding (calls h) = b2z (h_mu h);
  b_pol : maxSessions (h_pol h) ≤ m;
  b_calls : ∀ i c, calls h !! i = Some c → call_ok m (activeN h) c;
  b_cap : activeN h ≤ m }.

Lemma holding_nonneg (c : call) : 0 ≤ holding c.
Proof. by destruct c. Qed.

Lemma on_session_books (o : nat) (a : action) (h h' : host) :
  on_session o a h = Some h' →
  total counted (objs h') - total counted (objs h) ≤ detachedN h' - detachedN h ∧
  total alive (objs h') = total alive (objs h) - (if a is DoSettle then 1 else 0) ∧
  activeN h' = activeN h ∧ calls h' = calls h ∧ h_mu h' = h_mu h ∧ h_pol h' = h_pol h.
Proof.
  unfold on_session. destruct (objs h !! o) as [s|] eqn:Es; [|done].
  destruct (HostSession.act _ _ a s) as [[s' d]|] eqn:Ea; [|done]. intros [= <-].
  destruct (act_counts _ _ _ _ _ _ Ea) as [Hc Hl]. cbn.
  rewrite (total_set counted _ o s s' Es), (total_set alive _ o s s' Es). split_and!; try done; lia.
Qed.

(** What a step of a call does to the sums, its own share included. *)
Record call_books (m : Z) (c c' : call) (h h' : host) : Prop := mkCallBooks {
  cb_calls : calls h' = calls h;
  cb_active : activeN h' - total alive (objs h') - reserved c' = activeN h - total alive (objs h) - reserved c;
  cb_detached : detachedN h - total counted (objs h) - reservedDetached c
                ≤ detachedN h' - total counted (objs h') - reservedDetached c';
  cb_mu : b2z (h_mu h') - holding c' = b2z (h_mu h) - holding c;
  cb_pol : maxSessions (h_pol h') ≤ m;
  cb_cap : activeN h' ≤ m;
  cb_call : call_ok m (activeN h') c';
  cb_others : activeN h' ≤ activeN h ∨ holding c = 1 }.

Lemma call_on_session (m : Z) (c c' : call) (o : nat) (a : action) (h h' : host) :
  maxSessions (h_pol h) ≤ m → activeN h ≤ m → on_session o a h = Some h' → a ≠ DoSettle →
  reserved c = 0 → reserved c' = 0 → reservedDetached c = 0 → reservedDetached c' = 0 → holding c = 0 → holding c' = 0 →
  (∀ n, call_ok m n c') → call_books m c c' h h'.
Proof.
  intros Hp Hn (A & B & C & D & E & F)%on_session_books Ha R R' S S' T T' Hok.
  assert (total alive (objs h') = total alive (objs h)) as B' by (destruct a; try done; lia).
  split; rewrite ?C, ?D, ?E, ?F, ?R, ?R', ?S, ?S', ?T, ?T', ?B'; try done; lia.
Qed.

Lemma startSession_fresh (w : os) (now : Z) (e : start_env) (r : HostCreateRequest) (u : string * string)
    (pol : policySettings) (s : session) :
  startSession w now e r u pol = Ok s → alive s = 1 ∧ counted s = b2z (cr_Detachable r).
Proof.
  unfold startSession. cbv zeta. destruct (command_of w u.1 r); [|done]. destruct (e_hostID e); [|done].
  destruct (cr_Record r); [destruct (e_header e); [|done]|]; (destruct (e_started e); [|done]); by intros [= <-].
Qed.

Ltac book := split; cbn; try done; try lia; try (split; [lia|done]).

Lemma call_step_books (m : Z) (ch : choice) (c c' : call) (h h' : host) :
  call_step ch c h = Some (c', h') → call_ok m (activeN h) c → (holding c = 1 → h_mu h = true) →
  maxSessions (h_pol h) ≤ m → activeN h ≤ m → call_books m c c' h h'.
Proof.
  intros E Hok Hmu Hp Hn. destruct c; cbn [call_step] in E.
  - destruct (h_mu h) eqn:Em; [done|]. destruct (h_sessions h !! id); injection E as <- <-; book.
  - apply fmap_Some in E as (h1 & E & [= -> ->]). eapply call_on_session; [done|done|done|by destruct op|done..].
  - injection E as <- <-. destruct (h_draining h); book.
  - injection E as <- <-. destruct (_ && _); [book|]. destruct (_ && _); [book|]. destruct (sessionUser _ _); book.
  - destruct (h_mu h) eqn:Em; [done|]. destruct (Z.leb_spec (maxSessions pol) (activeN h)); [injection E as <- <-; book|].
    cbn in Hok. injection E as <- <-. destruct (cr_Detachable r) eqn:Ed; book; rewrite ?Em; try done; try lia.
  - specialize (Hmu eq_refl). destruct Hok as [Hlt Hd]. destruct (_ <=? _); injection E as <- <-; book; by rewrite Hmu.
  - specialize (Hmu eq_refl). cbn in Hok. destruct (cr_Detachable r) eqn:Ed; injection E as <- <-; book; rewrite ?Hmu, ?Ed; cbn; try done; try lia.
  - specialize (Hmu eq_refl). cbn in Hok. injection E as <- <-. book; rewrite ?Hmu, ?Hok; cbn; try done; lia.
  - destruct ch; try done. destruct (startSession _ _ _ _ _ _) as [s|e'] eqn:Es.
    + destruct (_ || _) eqn:Eg; [done|]. apply orb_false_iff in Eg as [_ Ho%bool_decide_eq_false]. injection E as <- <-.
      apply eq_None_not_Some in Ho. destruct (startSession_fresh _ _ _ _ _ _ _ Es) as [Ha Hc].
      book; rewrite !total_new by done; lia.
    + injection E as <- <-. book.
  - injection E as <- <-. destruct (cr_Detachable r) eqn:Ed; book; rewrite ?Ed; cbn; lia.
  - injection E as <- <-. book.
  - injection E as <- <-. cbn in Hok. book.
  - destruct ch; try done. destruct (_ || _); [done|]. injection E as <- <-. book.
  - destruct todo as [|o todo]; [injection E as <- <-; destruct (_ <=? _); book|].
    destruct (objs h !! o); [|done]. destruct (s_mu _); [done|]. destruct (judge _ _ _); injection E as <- <-; book.
  - apply fmap_Some in E as (h1 & E & [= -> ->]). by eapply call_on_session.
  - destruct os as [|o os]; [injection E as <- <-; book|].
    apply fmap_Some in E as (h1 & E & [= -> ->]). by eapply call_on_session.
  - injection E as <- <-. destruct (h_draining h); book.
  - destruct ch; try done. destruct (_ || _); [done|]. injection E as <- <-. book.
  - destruct os as [|o os]; [injection E as <- <-; book|]. destruct ch; try done.
    apply fmap_Some in E as (h1 & E & [= -> ->]). by eapply call_on_session.
  - destruct ch; try done. destruct (_ || _); [done|]. injection E as <- <-. book.
  - done.
Qed.

Lemma call_ok_le (m n n' : Z) (c : call) : n' ≤ n → call_ok m n c → call_ok m n' c.
Proof. intros Hle. destruct c; cbn; try done; [intros [? ?]; split; [lia|done]|lia]. Qed.

(** No policy that arrives allows more than [m] sessions. *)
Definition allowed (m : Z) (a : host_action) : Prop :=
  match a with Arrive _ (CApplyPolicy p) => maxSessions (normalizePolicy p) ≤ m | _ => True end.

Lemma step_books (m : Z) (i : nat) (c c' : call) (h h' : host) :
  books m h → calls h !! i = Some c → call_books m c c' h h' → books m (h' <| calls ::= <[i := c']> |>).
Proof.
  intros [B1 B2 B3 B4 B5 B6] Ei [C1 C2 C3 C4 C5 C6 C7 C8]. rewrite <- C1 in Ei. split; cbn.
  - rewrite (total_set reserved _ i c c' Ei), C1. lia.
  - rewrite (total_set reservedDetached _ i c c' Ei), C1. lia.
  - rewrite (total_set holding _ i c c' Ei), C1. lia.
  - done.
  - intros j cj. rewrite lookup_insert_Some. intros [[<- <-]|[Hne Ej]]; [done|]. rewrite C1 in Ei, Ej.
    specialize (B5 j cj Ej). destruct C8 as [Hle|Hh]; [by eapply call_ok_le|].
    pose proof (total_two holding _ i j c cj holding_nonneg Hne Ei Ej). destruct (h_mu h); cbn in B3; destruct cj; cbn in *; try done; lia.
  - done.
Qed.

Lemma act_books (m : Z) (a : host_action) (h h' : host) : books m h → allowed m a → act a h = Some h' → books m h'.
Proof.
  intros HB Hall E. pose proof HB as [B1 B2 B3 B4 B5 B6]. destruct a as [d|o a|o|o|i c|i ch]; cbn in E.
  - destruct (0 <=? d); [|done]. injection E as <-. by split.
  - destruct (own a) eqn:Eo; [|done]. apply on_session_books in E as (A1 & A2 & A3 & A4 & A5 & A6).
    assert (total alive (objs h') = total alive (objs h)) as A2' by (destruct a; try done; lia).
    split; rewrite ?A3, ?A4, ?A5, ?A6, ?A2'; try done; lia.
  - apply fmap_Some in E as (h1 & (A1 & A2 & A3 & A4 & A5 & A6)%on_session_books & ->).
    split; cbn; rewrite ?A3, ?A4, ?A5, ?A6, ?A2; try done; try lia.
    intros i c Ei. eapply call_ok_le; [|by eapply B5]. lia.
  - destruct (objs h !! o); [|done]. destruct (h_mu h) eqn:Em; [done|].
    apply fmap_Some in E as (h1 & (A1 & A2 & A3 & A4 & A5 & A6)%on_session_books & ->).
    split; cbn; rewrite ?A3, ?A4, ?A5, ?A6, ?A2, ?Em; try done; lia.
  - destruct (arrives c && _) eqn:Eg; [|done]. apply andb_true_iff in Eg as [Hc Ei%bool_decide_eq_true]. injection E as <-.
    assert (reserved c = 0 ∧ reservedDetached c = 0 ∧ holding c = 0 ∧ call_ok m (activeN h) c) as (R1 & R2 & R3 & R4)
      by (by destruct c).
    split; cbn; rewrite ?total_new, ?R1, ?R2, ?R3 by done; try done; try lia.
    intros j cj. rewrite lookup_insert_Some. intros [[<- <-]|[_ Ej]]; [done|by eapply B5].
  - destruct (calls h !! i) as [c|] eqn:Ei; [|done]. destruct (call_step ch c h) as [[c' h1]|] eqn:Es; [|done].
    injection E as <-. eapply step_books; [done..|]. eapply call_step_books; [done|by eapply B5| |done|done].
    intros Hh. pose proof (total_one holding _ i c holding_nonneg Ei). destruct (h_mu h); [done|]. cbn in B3. lia.
Qed.

Definition capped_step (m : Z) (h h' : host) : Prop := ∃ a, allowed m a ∧ act a h = Some h'.

Lemma newHost_books (w : os) (now m : Z) : maxSessions defaultPolicy ≤ m → books m (newHost w now).
Proof. intros Hm. split; cbn; rewrite ?total_empty; try done. cbn in Hm. lia. Qed.

Lemma reachable_books (w : os) (now m : Z) (h : host) :
  maxSessions defaultPolicy ≤ m → rtc (capped_step m) (newHost w now) h → books m h.
Proof.
  intros Hm. apply (rtc_ind_r (λ h, books m h)); [by apply newHost_books|]. intros h1 h2 _ (a & Ha & E) HB. by eapply act_books.
Qed.

(** The sessions still running, those whose end is not settled included. *)
Definition running (h : host) : nat := base.size (filter (λ '(_, s), alive s = 1) (objs h)).

Lemma alive_total (m : gmap nat session) : total alive m = Z.of_nat (base.size (filter (λ '(_, s), alive s = 1) m)).
Proof.
  induction m as [|k x m E IH] using map_ind; [by rewrite total_empty, map_filter_empty|].
  rewrite total_new, IH by done. destruct (decide (alive x = 1)) as [Ha|Ha].
  - rewrite map_filter_insert_True, map_size_insert_None by (done || by apply map_lookup_filter_None_2; left). lia.
  - rewrite map_filter_insert_False by done. rewrite delete_id by done.
    unfold alive in *. destruct (s_phase x); lia.
Qed.

(** ** Sessions *)

Lemma startSession_inv (w : os) (now : Z) (e : start_env) (r : HostCreateRequest) (u : string * string)
    (pol : policySettings) (s : session) :
  startSession w now e r u pol = Ok s → inv s ∧ s_log s = [] ∧ s_inputs s = [] ∧ s_streams s = ∅ ∧ s_client s = None.
Proof.
  unfold startSession. cbv zeta. destruct (command_of w u.1 r); [|done]. destruct (e_hostID e); [|done].
  assert (∀ mx, ring_ok mem0 (newRing mx) (history 1 (outs []))) as Hr by (intros; apply newRing_ok).
  destruct (cr_Record r); [destruct (e_header e); [|done]|]; (destruct (e_started e); [|done]); intros [= <-].
  all: split; [|done].
  all: split; [split; cbn; try done; try (by destruct (cr_Pty r))|by intros c cl].
  intros x [= <-]. split; [done|]. apply records_new.
Qed.

(** Every chunk of every session can be numbered. *)
Definition numbered (h : host) : Prop := ∀ o s, objs h !! o = Some s → front (s_log s) < 2 ^ 64.

(** Capabilities change by a call that says so. *)
Definition asked (h : host) (o : nat) (a : action) : Prop :=
  match a with DoSetCaps caps => ∃ i q, calls h !! i = Some (COp o (OpSetCaps q)) ∧ caps = caps_of q | _ => True end.

(** A step of the host is a step of one session, a new session, or leaves them alone. *)
Definition session_step (h h' : host) : Prop :=
  objs h' = objs h ∨
  (∃ o s s' now room a d, objs h !! o = Some s ∧ HostSession.act now room a s = Some (s', d) ∧ asked h o a ∧
     objs h' = <[o := s']> (objs h)) ∨
  (∃ o s w now e r u pol, objs h !! o = None ∧ startSession w now e r u pol = Ok s ∧ objs h' = <[o := s]> (objs h)).

Lemma on_session_step (o : nat) (a : action) (h h' : host) : on_session o a h = Some h' → asked h o a → session_step h h'.
Proof.
  unfold on_session. destruct (objs h !! o) as [s|] eqn:Es; [|done].
  destruct (HostSession.act _ _ a s) as [[s' d]|] eqn:Ea; [|done]. intros [= <-] Hk.
  right; left. exists o, s, s', (h_now h), (room h), a, d. done.
Qed.

Lemma call_step_session (i : nat) (ch : choice) (c c' : call) (h h' : host) :
  calls h !! i = Some c → call_step ch c h = Some (c', h') → session_step h h'.
Proof.
  intros Ei E. destruct c; cbn [call_step] in E.
  2:{ apply fmap_Some in E as (h1 & E & [= -> ->]). eapply on_session_step; [done|]. destruct op; cbn; eauto. }
  all: try (apply fmap_Some in E as (h1 & E & [= -> ->]); by eapply on_session_step).
  - destruct (h_mu h); [done|]. destruct (h_sessions h !! id); injection E as <- <-; by left.
  - injection E as <- <-. by left.
  - injection E as <- <-. by left.
  - destruct (h_mu h); [done|]. destruct (_ <=? _); injection E as <- <-; by left.
  - destruct (_ <=? _); injection E as <- <-; by left.
  - destruct (cr_Detachable r); injection E as <- <-; by left.
  - injection E as <- <-. by left.
  - destruct ch; try done. destruct (startSession _ _ _ _ _ _) as [s|e'] eqn:Es; [|injection E as <- <-; by left].
    destruct (_ || _) eqn:Eg; [done|]. apply orb_false_iff in Eg as [_ Ho%bool_decide_eq_false]. injection E as <- <-.
    apply eq_None_not_Some in Ho. right; right. exists o, s, (h_os h), (h_now h), e, r, user, pol. done.
  - injection E as <- <-. by left.
  - injection E as <- <-. by left.
  - injection E as <- <-. by left.
  - destruct ch; try done. destruct (_ || _); [done|]. injection E as <- <-. by left.
  - destruct todo as [|o todo]; [injection E as <- <-; by left|].
    destruct (objs h !! o); [|done]. destruct (s_mu _); [done|]. destruct (judge _ _ _); injection E as <- <-; by left.
  - destruct os as [|o os]; [injection E as <- <-; by left|].
    apply fmap_Some in E as (h1 & E & [= -> ->]). by eapply on_session_step.
  - injection E as <- <-. by left.
  - destruct ch; try done. destruct (_ || _); [done|]. injection E as <- <-. by left.
  - destruct os as [|o os]; [injection E as <- <-; by left|]. destruct ch; try done.
    apply fmap_Some in E as (h1 & E & [= -> ->]). by eapply on_session_step.
  - destruct ch; try done. destruct (_ || _); [done|]. injection E as <- <-. by left.
  - done.
Qed.

Lemma act_session (a : host_action) (h h' : host) : act a h = Some h' → session_step h h'.
Proof.
  intros E. destruct a as [d|o a|o|o|i c|i ch]; cbn in E.
  - destruct (0 <=? d); [|done]. injection E as <-. by left.
  - destruct (own a) eqn:Eo; [|done]. eapply on_session_step; [done|]. by destruct a.
  - apply fmap_Some in E as (h1 & E & ->). apply (on_session_step _ _ _ _ E I).
  - destruct (objs h !! o); [|done]. destruct (h_mu h); [done|]. apply fmap_Some in E as (h1 & E & ->). apply (on_session_step _ _ _ _ E I).
  - destruct (_ && _); [|done]. injection E as <-. by left.
  - destruct (calls h !! i) as [c|] eqn:Ei; [|done]. destruct (call_step ch c h) as [[c' h1]|] eqn:Es; [|done].
    injection E as <-. apply (call_step_session _ _ _ _ _ _ Ei Es).
Qed.

(** A property of sessions that new ones have and their steps keep. *)
Lemma sessions_ind (P : session → Prop) (w : os) (now : Z) (h : host) :
  (∀ w now e r u pol s, startSession w now e r u pol = Ok s → P s) →
  (∀ now room a s s' d, P s → front (s_log s') < 2 ^ 64 → HostSession.act now room a s = Some (s', d) → P s') →
  rtc step (newHost w now) h → numbered h → ∀ o s, objs h !! o = Some s → P s.
Proof.
  intros Hnew Hstep Hr. revert h Hr. apply (rtc_ind_r (λ h, numbered h → ∀ o s, objs h !! o = Some s → P s)).
  { intros _ o s. cbn. by rewrite lookup_empty. }
  intros h1 h2 _ (a & [E|[(o1 & s1 & s2 & t & rm & b & d & E1 & Ea & _ & E)|(o1 & s1 & w1 & t & e & r & u & pol & E1 & Es & E)]]%act_session) IH Hn.
  - intros o s. rewrite E. apply IH. intros o' s'. rewrite <- E. apply Hn.
  - assert (front (s_log s2) < 2 ^ 64) as H2 by (apply (Hn o1); rewrite E; apply lookup_insert_eq).
    assert (numbered h1) as Hn1.
    { intros o s Hs. destruct (decide (o = o1)) as [->|Hne]; [|apply (Hn o); rewrite E; by rewrite lookup_insert_ne].
      simplify_eq. pose proof (front_prefix _ _ (act_log _ _ _ _ _ _ Ea)). lia. }
    intros o s. rewrite E, lookup_insert_Some. intros [[<- <-]|[_ Hs]]; [|by eapply IH]. eapply Hstep; [by eapply IH|done|done].
  - assert (numbered h1) as Hn1.
    { intros o s Hs. apply (Hn o). rewrite E, lookup_insert_ne; [done|congruence]. }
    intros o s. rewrite E, lookup_insert_Some. intros [[<- <-]|[_ Hs]]; [by eapply Hnew|by eapply IH].
Qed.

Lemma sessions_inv (w : os) (now : Z) (h : host) :
  rtc step (newHost w now) h → numbered h → ∀ o s, objs h !! o = Some s → inv s.
Proof.
  apply sessions_ind.
  - intros w1 t e r u pol s Hs. apply (startSession_inv _ _ _ _ _ _ _ Hs).
  - intros t rm a s s' d Hi Hb Ea. by eapply act_inv.
Qed.

(** ** Theorems *)

(** C24 (attach, writeLoop, catchUpSnapshot, deliverLocked): what a client sees is what
    the session wrote.  In every interleaving of the host, the frames sent on a stream fit
    its session: from the number the client asked from, each chunk is the next one of the
    output with its bytes and its channel, a snapshot paints the screen after exactly the
    chunks up to the number it carries, and an Exit carries the status of the session and,
    on a stream that was registered, comes at the end of the output. *)
Theorem stream_exact (w : os) (now : Z) (h : host) (o c : nat) (s : session) (cl : attachedClient) :
  rtc step (newHost w now) h → numbered h → objs h !! o = Some s → s_streams s !! c = Some cl →
  follows (core_of s) (c_live cl) (c_lastSeen cl) (sent cl).
Proof. intros Hr Hn Ho Hc. destruct (sessions_inv w now h Hr Hn o s Ho) as [_ Hs]. apply (so_sent _ _ _ (Hs c cl Hc)). Qed.

(** C29 (recorder.go, finalize; session.go, pump): a recording is whole or says it is
    not.  When a session ended and its sidecar is not flagged as truncated, and the
    recording is encrypted (or, if plain, no write of it failed), it holds every chunk of
    the output in order and ends with the reason of the exit.  What it holds of a chunk is
    its text as JSON carries it: a chunk that is UTF-8 as it was, any other with U+FFFD for
    each byte that begins no UTF-8 sequence within the chunk. *)
Theorem recording_complete (w : os) (now : Z) (h : host) (o : nat) (s : session) (r : recorder) (m : doneManifest) :
  rtc step (newHost w now) h → numbered h → objs h !! o = Some s → s_cast s = Some r →
  sidecar r = Some m → dm_Truncated m = false → r_encrypted r = true ∨ r_err r = false →
  outputs (lines r) = recorded <$> (outs (s_log s)).*2 ∧
  last (lines r) = Some ("m"%string, json_text (s_exitReason s)) ∧ s_exited s = true ∧
  ∀ i d, (outs (s_log s)).*2 !! i = Some d → ValidString (String.string_of_list_byte d) = true →
    outputs (lines r) !! i = Some (String.string_of_list_byte d).
Proof.
  intros Hr Hn Ho Hc Hm Ht He'. destruct (sessions_inv w now h Hr Hn o s Ho) as [Hw _].
  destruct (wf_cast _ Hw r Hc) as [He Hwh]. destruct (Hwh m Hm Ht He') as [Ho' Hl]. split_and!; try done.
  intros i d Hi Hv. change (outs (k_log (core_of s))) with (outs (s_log s)) in Ho'.
  rewrite Ho', list_lookup_fmap, Hi. cbn. unfold recorded. by rewrite json_text_valid.
Qed.

(** C25 (Create, finalize, clientGone): the counts.  As long as no policy allows more than
    [m] sessions, at most [m] run at any time, in every interleaving of creations, exits and
    policy changes; the active count is exactly the running sessions and the creations in
    progress, and the detached count is never below the sessions it stands for. *)
Theorem sessions_capped (w : os) (now m : Z) (h : host) :
  maxSessions defaultPolicy ≤ m → rtc (capped_step m) (newHost w now) h →
  Z.of_nat (running h) ≤ m ∧ activeN h = Z.of_nat (running h) + total reserved (calls h) ∧
  total counted (objs h) + total reservedDetached (calls h) ≤ detachedN h.
Proof.
  intros Hm Hr. destruct (reachable_books w now m h Hm Hr) as [B1 B2 B3 B4 B5 B6]. rewrite alive_total in B1.
  fold (running h) in B1. pose proof (total_nonneg reserved (calls h) ltac:(by intros [])). split_and!; [lia|lia|done].
Qed.

End Hosting.

(** ** Examples *)

Import HostFixture.

(** A recorded shell, a client that sees its output and its exit. *)
Definition watched : list host_action :=
  create 0 0 "h-1" (request true false true) ++ named 1 "h-1" (OpAttach 0 0) ++
  [Run 0 (Pump false (bytes_of_string "hi") (5, true))] ++ write 0 0 4 ++ finish 0 [false] ++ write 0 0 4.

Definition watched_host : host := Eval vm_compute in after watched.

Lemma watched_runs : rtc step fresh watched_host.
Proof. apply (run_steps watched). by vm_compute. Qed.

Lemma numbered_check (h : host) : bool_decide (map_Forall (λ _ s, front (s_log s) < 2 ^ 64) (objs h)) = true → numbered h.
Proof. rewrite bool_decide_eq_true. intros Hm o s E. apply (Hm o s E). Qed.

Lemma stream_exact_witness :
  ∃ s cl, objs watched_host !! 0%nat = Some s ∧ s_streams s !! 0%nat = Some cl ∧
    length (sent cl) = 3%nat ∧ last (sent cl) = Some (Exit 0 "exited") ∧ s_seq s = 2 ∧
    follows (core_of s) (c_live cl) (c_lastSeen cl) (sent cl).
Proof.
  eexists _, _. split; [vm_compute; reflexivity|]. split; [vm_compute; reflexivity|].
  split; [reflexivity|]. split; [reflexivity|]. split; [reflexivity|].
  eapply (stream_exact box 0 watched_host 0 0); [exact watched_runs|apply numbered_check; vm_compute; reflexivity|..];
    vm_compute; reflexivity.
Defined.

Lemma recording_complete_witness :
  ∃ s r m, objs watched_host !! 0%nat = Some s ∧ s_cast s = Some r ∧ sidecar r = Some m ∧ dm_Truncated m = false ∧
    length (outs (s_log s)) = 2%nat ∧ outputs (lines r) = recorded <$> (outs (s_log s)).*2.
Proof.
  eexists _, _, _. split; [vm_compute; reflexivity|]. split; [vm_compute; reflexivity|]. split; [vm_compute; reflexivity|].
  split; [reflexivity|]. split; [reflexivity|].
  eapply (recording_complete box 0 watched_host 0); [exact watched_runs|apply numbered_check; vm_compute; reflexivity|..];
    [vm_compute; reflexivity..|right; reflexivity].
Defined.

(** Two sessions under a policy of two. *)
Definition two_sessions : list host_action :=
  [Arrive 9 (CApplyPolicy (mkHostPolicy false 2 1 0 0 0)); Step 9 NoChoice] ++
  create 0 0 "h-1" (request true true false) ++ named 1 "h-1" (OpAttach 0 0) ++
  create 2 1 "h-2" (request true true false) ++ named 3 "h-2" (OpAttach 0 0).

Definition two_host : host := Eval vm_compute in after two_sessions.

Lemma run_capped (m : Z) (l : list host_action) (h h' : host) :
  Forall (allowed m) l → run l h = Some h' → rtc (capped_step m) h h'.
Proof.
  intros Hl. revert h. induction Hl as [|a l Ha Hl IH]; intros h; cbn; [by intros [= ->]|].
  destruct (act a h) as [h1|] eqn:E; [|done]. intros Hr. eapply rtc_l; [by exists a|by apply IH].
Qed.

Lemma sessions_capped_witness :
  maxSessions (h_pol two_host) = 2 ∧ running two_host = 2%nat ∧ Z.of_nat (running two_host) ≤ 64 ∧ activeN two_host = 2.
Proof.
  split; [reflexivity|]. split; [vm_compute; reflexivity|].
  destruct (sessions_capped box 0 64 two_host) as (Hm & _ & _).
  - done.
  - apply (run_capped 64 two_sessions); [|vm_compute; reflexivity]. unfold two_sessions. repeat constructor. done.
  - split; [exact Hm|reflexivity].
Defined.

(** ** What the code does not do *)

(** An exit can be lost.  A terminal client lags by one frame, its writer takes one frame
    of the backlog, the Exit goes to the free slot, and catching up drains it: the screen is
    gone, so nothing is sent in its place, and the stream waits on an empty queue although
    the client is registered, not stopped, and the session over. *)
Definition lost_exit : list host_action :=
  create 0 0 "h-1" (request true false false) ++ named 1 "h-1" (OpAttach 0 0) ++ write 0 0 3 ++
  replicate 257 (Run 0 (Pump false (bytes_of_string "x") (0, true))) ++ write 0 0 1 ++ finish 0 [false] ++ write 0 0 4.

Definition waits_forever (h : host) : bool :=
  match objs h !! 0%nat with
  | Some s =>
      match s_streams s !! 0%nat with
      | Some cl =>
          s_exited s && bool_decide (s_client s = Some 0%nat) && negb (stop cl) && (length (ch cl) =? 0)%nat &&
          match c_writer cl with WSelect => true | _ => false end && negb (existsb is_exit (sent cl))
      | None => false
      end
  | None => false
  end.

Lemma exit_frame_lost : waits_forever <$> run lost_exit fresh = Some true.
Proof. by vm_compute. Qed.

(** The cap on detached sessions is checked before it is taken: two clients that detach at
    the same time both find room for one. *)
Lemma detached_cap_raced :
  ∃ h, run (two_sessions ++ [Run 0 (Recv 0 MsgDetach (0, true)); Run 1 (Recv 0 MsgDetach (0, true)); Run 0 (Read 0); Run 1 (Read 0)]) fresh = Some h ∧
    detachedN h = 2 ∧ maxDetached (h_pol h) = 1.
Proof. eexists. split; [vm_compute; reflexivity|]. done. Qed.

(** A session is in the table before it is counted, and the flag is written without the
    lock: a client that attaches and leaves in between is counted twice, and the count
    stays one too high after the session is gone. *)
Definition early_client : list host_action :=
  (Arrive 0 (CCreate (request true true false)) :: replicate 6 (Step 0 NoChoice)) ++
  [Step 0 (Starting 0 (mkStartEnv (Some "h-1") (Some 0) true))] ++ named 1 "h-1" (OpAttach 0 0) ++
  [Run 0 (RecvFail 0 false); Run 0 (WakeReader 0); Run 0 (Handle 0); Run 0 (Handle 0);
   Run 0 Count; Run 0 LaunchPumps; Run 0 (ShowNotice (0, true)); Run 0 LaunchWaiter] ++
  finish 0 [false] ++ [Run 0 Tombstone; Bury 0].

Lemma detached_count_leaked :
  ∃ h, run early_client fresh = Some h ∧ h_sessions h = ∅ ∧ activeN h = 0 ∧ detachedN h = 1.
Proof. eexists. split; [vm_compute; reflexivity|]. done. Qed.
