(* ===== verification/Inputs.v ===== *)
(** * Input of a session (theorems about HostSession.v)

    The input a client numbers reaches the process at most once and in order, and none
    does while the session is read-only. *)
From Stdlib Require Import ZArith Lia Strings.Byte.
From stdpp Require Import base gmap sets list strings sorting relations.
From S2P Require Import Prelude Trust Proc Ring Lease Screen Recorder HostSession Streams Host Hosting.
Local Open Scope Z_scope.

Section Inputs.
Context `{Vt10x, Sha256}.

(** Where the reader of a stream is. *)
Definition rd (s : session) (c : nat) : option reader_pc := c_reader <$> s_streams s !! c.

(** A step that moves no reader and takes no input. *)
Definition still (s s' : session) : Prop :=
  s_inputs s' = s_inputs s ∧ s_lastInputSeq s' = s_lastInputSeq s ∧ s_caps s' = s_caps s ∧
  (∀ c, rd s' c = rd s c) ∧ (∀ c, s_client s' = Some c → s_client s = Some c).

#[global] Instance still_po : PreOrder still.
Proof.
  split; [by intros s; split_and!|].
  intros s1 s2 s3 (A1 & A2 & A3 & A4 & A5) (B1 & B2 & B3 & B4 & B5). split_and!; [congruence..| |auto].
  intros c. by rewrite B4.
Qed.

Lemma still_frame (s s' : session) :
  s_inputs s' = s_inputs s → s_lastInputSeq s' = s_lastInputSeq s → s_caps s' = s_caps s → s_streams s' = s_streams s →
  s_client s' = s_client s ∨ s_client s' = None → still s s'.
Proof.
  intros A B C D E. split_and!; [done..| |]; [intros c; unfold rd; by rewrite D|].
  destruct E as [->| ->]; done.
Qed.

Ltac still := apply still_frame; [done..|first [by left|by right]].

Lemma still_upd (s : session) (c : nat) (f : attachedClient → attachedClient) :
  (∀ cl, c_reader (f cl) = c_reader cl) → still s (upd_stream c f s).
Proof.
  intros Hf. split_and!; [done..| |done]. intros c'. unfold rd, upd_stream. cbn. rewrite lookup_alter.
  case_decide; [|done]. subst. destruct (s_streams s !! c'); [|done]. cbn. by rewrite Hf.
Qed.

Lemma still_set (s : session) (c : nat) (cl cl' : attachedClient) :
  s_streams s !! c = Some cl → c_reader cl' = c_reader cl → still s (set_stream c cl' s).
Proof.
  intros E Hr. split_and!; [done..| |done]. intros c'. unfold rd, set_stream. cbn. rewrite lookup_insert.
  case_decide; [|done]. subst. rewrite E. cbn. by rewrite Hr.
Qed.

Lemma still_close (s : session) (c : nat) : still s (close_client c s).
Proof. by apply still_upd. Qed.

Lemma still_markDetached (now : Z) (s : session) : still s (markDetached now s).1.
Proof. unfold markDetached. destruct (_ && _); still. Qed.

Lemma still_terminate (reason sig : string) (s : session) : still s (terminate reason sig s).
Proof. unfold terminate. destruct (s_exited s); [done|]. destruct (bool_decide _); still. Qed.

Lemma still_deliver (now : Z) (m : frame) (s : session) : still s (deliver now m s).1.
Proof.
  unfold deliver. destruct (s_client s) as [c|]; [|done]. destruct (s_streams s !! c) as [cl|] eqn:E; [|done].
  destruct (_ <? _)%nat; [by eapply still_set|]. destruct (bool_decide _); [by eapply still_set|]. cbv zeta.
  assert (still s (close_client c (s <| s_client := None |>))) as Hq.
  { etrans; [|apply still_close]. still. }
  destruct (s_exited _); [done|]. destruct (s_detachable _); (etrans; [exact Hq|]); [apply still_markDetached|still].
Qed.

Lemma still_emit (now : Z) (se : bool) (d : bytes) (flushed : Z * bool) (s : session) : still s (emit now se d flushed s).1.
Proof. rewrite emit_emitted. etrans; [|apply still_deliver]. still. Qed.

Lemma still_finalize (now : Z) (marked : Z * bool) (sealed : Z) (ok : bool) (code : Z) (status : string) (s : session) :
  still s (finalize now marked sealed ok code status s).1.
Proof.
  unfold finalize. cbv zeta. set (m := Exit _ _). set (s1 := _ <| s_phase := Finalized |>).
  assert (still s s1) as H1 by still. pose proof (still_deliver now m s1) as H2.
  destruct (deliver now m s1) as [s2 d]. cbn in *. by etrans.
Qed.

Lemma still_write (c : nat) (cl : attachedClient) (s s' : session) :
  s_streams s !! c = Some cl →
  write_step c cl s = Some s' ∨ write_fail c cl s = Some s' ∨ write_stop c cl s = Some s' → still s s'.
Proof.
  intros Ecl. unfold write_step, write_fail, write_stop.
  intros [E|[E|E]]; destruct (c_writer cl) as [[|]| | | | |]; try done; try (injection E as <-; by eapply still_set).
  - destruct (s_mu s); [done|]. unfold catchUpSnapshot in E. destruct (lagged cl); injection E as <-; by eapply still_set.
  - destruct (ch cl); [done|]. injection E as <-. by eapply still_set.
  - destruct (stop cl); [|done]. injection E as <-. by eapply still_set.
Qed.

Lemma still_handler (c : nat) (pc : handler_pc) (s : session) : still s (set_handler c pc s).
Proof. by apply still_upd. Qed.

Lemma still_handle_step (now : Z) (room : bool) (c : nat) (cl : attachedClient) (s s' : session) (d : Z) :
  handle_step now room c cl s = Some (s', d) → still s s'.
Proof.
  unfold handle_step. destruct (c_handler cl) as [|r|room' r|reason r|r]; try done.
  - destruct (s_mu s); [done|]. unfold clientGone.
    assert (still s (close_client c (s <| s_client := None |>))) as Hq.
    { etrans; [|apply still_close]. still. }
    destruct (bool_decide _); [|intros [= <- <-]; apply still_handler].
    destruct (s_exited _); [|destruct (s_detachable _)]; intros [= <- <-]; (etrans; [exact Hq|]);
      first [apply still_handler|etrans; [|apply still_handler]; still].
  - unfold clientGone_mark. destruct room'.
    + pose proof (still_markDetached now (s <| s_mu := false |>)) as Hm. destruct (markDetached _ _) as [s1 d1].
      intros [= <- <-]. etrans; [|apply still_handler]. etrans; [|exact Hm]. still.
    + intros [= <- <-]. etrans; [|apply still_handler]. still.
  - destruct (s_mu s); [done|]. intros [= <- <-]. etrans; [apply still_terminate|apply still_handler].
Qed.

(** The steps of readers, attaches and capabilities; every other is [still]. *)
Definition takes_input (a : action) : bool :=
  match a with Recv _ _ _ | RecvFail _ _ | Read _ | DoAttach _ _ | DoSetCaps _ => true | _ => false end.

Lemma act_still (now : Z) (room : bool) (a : action) (s s' : session) (d : Z) :
  HostSession.act now room a s = Some (s', d) → takes_input a = false → still s s'.
Proof.
  intros E Ht. destruct a; try done.
  all: try (apply at_phase_Some in E as [_ E]).
  all: try (apply on_stream_Some in E as (cl & Ecl & E)).
  - injection E as <- <-. destruct (s_detachable s); still.
  - injection E as <- <-. still.
  - destruct (s_ptyMode s); [|injection E as <- <-; still]. apply locked_Some in E as [_ E]. unfold emitNotice in E.
    destruct (_ =? _)%nat; [injection E as <- <-; still|]. pose proof (still_emit now false (s_notice s) flushed s) as Hp.
    destruct (emit _ _ _ _ _). injection E as <- <-. etrans; [exact Hp|still].
  - injection E as <- <-. still.
  - cbn in E. destruct (_ && _); [|done]. apply locked_Some in E as [_ E]. unfold pump_chunk in E.
    pose proof (still_emit now se data flushed (s <| s_lastActivity := now |>)) as Hp. rewrite E in Hp.
    etrans; [|exact Hp]. still.
  - cbn in E. destruct (bool_decide _); [|done]. injection E as <- <-. still.
  - cbn in E. destruct (bool_decide _); [|done]. injection E as <- <-. still.
  - cbn in E. destruct (_ && _); [|done]. injection E as <- <-. still.
  - cbn in E. destruct (s_dying s) as [|reason l]; [done|]. apply locked_Some in E as [_ [= <- <-]].
    etrans; [|apply still_terminate]. still.
  - destruct (s_status s) as [[code status]|]; [|done]. destruct (s_pumps s); [|done]. apply locked_Some in E as [_ E].
    pose proof (still_finalize now marked sealed ok code status s) as Hf. by rewrite E in Hf.
  - apply locked_Some in E as [_ [= <- <-]]. unfold tombstone. destruct (zeroize _ _). still.
  - apply fmap_Some in E as (s1 & E & [= -> ->]). eapply still_write; [exact Ecl|by left].
  - apply fmap_Some in E as (s1 & E & [= -> ->]). eapply still_write; [exact Ecl|by right; left].
  - apply fmap_Some in E as (s1 & E & [= -> ->]). eapply still_write; [exact Ecl|by right; right].
  - apply fmap_Some in E as (pc & E & [= -> ->]). apply still_handler.
  - apply fmap_Some in E as (pc & E & [= -> ->]). apply still_handler.
  - apply fmap_Some in E as (pc & E & [= -> ->]). apply still_handler.
  - by eapply still_handle_step.
  - apply locked_Some in E as [_ [= <- <-]]. apply still_terminate.
  - apply locked_Some in E as [_ E]. unfold sendDrainNotice in E. destruct (_ || _); [by injection E as <- <-|].
    pose proof (still_emit now false banner flushed s) as Hp. by rewrite E in Hp.
  - injection E as <- <-. still.
  - injection E as <- <-. still.
Qed.

Lemma rd_set (s : session) (c c' : nat) (pc : reader_pc) :
  rd (set_reader c (s, pc)) c' = if decide (c = c') then (λ _, pc) <$> rd s c' else rd s c'.
Proof.
  unfold rd, set_reader, upd_stream. cbn. rewrite lookup_alter. case_decide; [|done]. subst.
  by destruct (s_streams s !! c').
Qed.

(** A message moves the reader of its stream, and takes no input. *)
Lemma read_msg_effect (now : Z) (room : bool) (c : nat) (m : client_msg) (flushed : Z * bool) (s : session) :
  ∃ s1 pc, read_msg now room c m flushed s = set_reader c (s1, pc) ∧ s_inputs s1 = s_inputs s ∧ s_caps s1 = s_caps s ∧
    s_streams s1 = s_streams s ∧ s_client s1 = s_client s ∧
    ((s_lastInputSeq s1 = s_lastInputSeq s ∧ ∀ w sq d, pc ≠ RLoad true w sq d) ∨
     (∃ w sq d, pc = RLoad true w sq d ∧ s_client s = Some c ∧ s_lastInputSeq s < sq ∧ s_lastInputSeq s1 = sq)) ∧
    (∀ w sq d, pc ≠ RWrite true w sq d).
Proof.
  unfold read_msg. destruct m.
  - exists s, (RDone (ReadErr true)). split_and!; try done. by left.
  - unfold handleInput. destruct (_ || _) eqn:Eg.
    { exists s, RRecv. split_and!; try done. by left. }
    apply orb_false_iff in Eg as [Ec%bool_decide_eq_false%dec_stable _]. cbv zeta.
    destruct (Z.ltb_spec (s_lastInputSeq s) sq); eexists _, _; (split; [done|]); split_and!; try done; [right|by left].
    eexists _, sq, data. done.
  - exists (handleResize c cols rows flushed s), RRecv. unfold handleResize.
    split; [done|]. destruct (_ || _); [split_and!; try done; by left|]. cbv zeta.
    destruct (_ || _); (split_and!; try done; by left).
  - exists (handleSignal c name s), RRecv. unfold handleSignal. split; [done|].
    destruct (signal_of name); [|split_and!; try done; by left]. destruct (_ && _); (split_and!; try done; by left).
  - exists (handleStdinEOF c s), RRecv. unfold handleStdinEOF. split; [done|]. destruct (_ || _); (split_and!; try done; by left).
  - unfold detachRequest. destruct (_ || _).
    { exists s, (RDone Detached). split_and!; try done. by left. }
    destruct (negb _); [exists s, (RDone (ReadErr true)); split_and!; try done; by left|].
    destruct (negb room); [exists s, (RDone (ReadErr true)); split_and!; try done; by left|].
    eexists _, RMark. split; [done|]. split_and!; try done. by left.
Qed.

(** A step of a reader past the message. *)
Lemma read_step_effect (now : Z) (c : nat) (cl : attachedClient) (s s' : session) (d : Z) :
  read_step now c cl s = Some (s', d) →
  (∃ apply w sq b, c_reader cl = RLoad apply w sq b ∧ s' = set_reader c (s, RWrite (input_gate (s_caps s) apply) w sq b)) ∨
  (∃ apply w sq b, c_reader cl = RWrite apply w sq b ∧ s' = set_reader c (input_write c apply w sq b s, RAck sq)) ∨
  (∃ s1 pc, s' = set_reader c (s1, pc) ∧ still s s1 ∧ (pc = RRecv ∨ pc = RDone Detached)).
Proof.
  unfold read_step. destruct (c_reader cl); try done.
  - intros [= <- <-]. left. eauto 10.
  - intros [= <- <-]. right; left. eauto 10.
  - destruct (s_mu s); [done|]. assert (still s (input_ack now c sq s).1) as Hs.
    { unfold input_ack. destruct (bool_decide _); [apply still_deliver|done]. }
    destruct (input_ack now c sq s) as [s1 d1]. intros [= <- <-]. right; right. eauto 10.
  - assert (still s (detachRequest_mark now s).1) as Hs by (unfold detachRequest_mark; etrans; [|apply still_markDetached]; still).
    destruct (detachRequest_mark now s) as [s1 d1]. intros [= <- <-]. right; right. eauto 10.
Qed.

(** An attach adds its stream and resets the numbering. *)
Lemma attach_effect (c : nat) (lastSeen : Z) (s : session) :
  s_streams s !! c = None →
  let s' := (attach c lastSeen s).1 in
  s_inputs s' = s_inputs s ∧ s_caps s' = s_caps s ∧ (∀ c', c' ≠ c → rd s' c' = rd s c') ∧
  (rd s' c = Some RRecv ∨ rd s' c = Some (RDone (ReadErr false))) ∧
  (s_client s' = Some c ∧ s_lastInputSeq s' = 0 ∨ s_client s' = s_client s ∧ s_lastInputSeq s' = s_lastInputSeq s).
Proof.
  intros Ec. unfold attach. destruct (s_exited s).
  { destruct (deltaFrom _ _ _ _) as [m [cs ok]]. cbn. split_and!; try done; [|right; unfold rd; cbn; by rewrite lookup_insert_eq|by right].
    intros c' Hne. unfold rd. cbn. by rewrite lookup_insert_ne. }
  destruct (s_client s) as [old|]; [|destruct (s_detachedCounted s)]; destruct (deltaFrom _ _ _ _) as [m [cs ok]]; cbn.
  all: split_and!; try done; [|left; unfold rd; cbn; by rewrite lookup_insert_eq|by left].
  all: intros c' Hne; unfold rd; cbn; rewrite lookup_insert_ne by done; try done.
  rewrite lookup_alter. case_decide; [|done]. subst. by destruct (s_streams s !! c').
Qed.

(** ** Read-only *)

(** The session is read-only and no input is past the gate. *)
Definition gated (s : session) : Prop :=
  pb_AllowInput (s_caps s) = false ∧ ∀ c w sq d, rd s c ≠ Some (RWrite true w sq d).

(** The steps that do not lift the restriction. *)
Definition keeps_read_only (a : action) : Prop :=
  match a with DoSetCaps caps => pb_AllowInput caps = false | _ => True end.

Lemma gated_reader (s s1 : session) (c : nat) (pc : reader_pc) :
  gated s → s_inputs s1 = s_inputs s → s_caps s1 = s_caps s → (∀ c', rd s1 c' = rd s c') →
  (∀ w sq d, pc ≠ RWrite true w sq d) → gated (set_reader c (s1, pc)) ∧ s_inputs (set_reader c (s1, pc)) = s_inputs s.
Proof.
  intros [Hc Hr] Ei Ec Er Hp. split; [|done]. split; [cbn; by rewrite Ec|]. intros c' w sq d. rewrite rd_set, Er.
  case_decide; [|apply Hr]. destruct (rd s c'); cbn; [|done]. intros [= E]. by eapply Hp.
Qed.

Lemma gated_still (s s' : session) : gated s → still s s' → gated s' ∧ s_inputs s' = s_inputs s.
Proof.
  intros [Hc Hr] (E1 & _ & E3 & E4 & _). split; [|done]. split; [by rewrite E3|]. intros c w sq d. rewrite E4. apply Hr.
Qed.

Lemma act_gated (now : Z) (room : bool) (a : action) (s s' : session) (d : Z) :
  gated s → keeps_read_only a → HostSession.act now room a s = Some (s', d) → gated s' ∧ s_inputs s' = s_inputs s.
Proof.
  intros Hg Hk E. destruct (takes_input a) eqn:Ht; [|eapply gated_still; [done|by eapply act_still]].
  destruct a; try done.
  - apply on_stream_Some in E as (cl & Ecl & E). destruct (c_reader cl); try done. apply locked_Some in E as [_ [= <- <-]].
    destruct (read_msg_effect now room c m flushed s) as (s1 & pc & -> & E1 & E2 & E3 & _ & _ & Hp).
    apply gated_reader; try done. intros c'. unfold rd. by rewrite E3.
  - apply on_stream_Some in E as (cl & Ecl & E). destruct (c_reader cl); try done. injection E as <- <-. by apply gated_reader.
  - apply on_stream_Some in E as (cl & Ecl & E).
    destruct (read_step_effect _ _ _ _ _ _ E) as [(ap & w & sq & b & Er & ->)|[(ap & w & sq & b & Er & ->)|(s1 & pc & -> & (E1 & _ & E3 & E4 & _) & Hpc)]].
    + apply gated_reader; try done. destruct Hg as [Hc _]. unfold input_gate. rewrite Hc. done.
    + destruct ap; [destruct Hg as [_ Hr]; destruct (Hr c w sq b); unfold rd; by rewrite Ecl; cbn; rewrite Er|].
      by apply gated_reader.
    + apply gated_reader; try done. by destruct Hpc as [->| ->].
  - cbn in E. destruct (bool_decide _ && _) eqn:Eg; [|done]. apply andb_true_iff in Eg as [Ec%bool_decide_eq_true _].
    apply locked_Some in E as [_ E]. destruct (attach_effect c lastSeen s Ec) as (E1 & E2 & E3 & E4 & _). rewrite E in E1, E2, E3, E4.
    cbn in *. split; [|done]. destruct Hg as [Hc Hr]. split; [by rewrite E2|]. intros c' w sq b.
    destruct (decide (c' = c)) as [->|Hne]; [destruct E4 as [-> | ->]; done|]. rewrite E3 by done. apply Hr.
  - injection E as <- <-. split; [|done]. destruct Hg as [_ Hr]. by split.
Qed.

(** ** Order *)

(** The numbers of the inputs of a stream that were written. *)
Definition written (s : session) (c : nat) : list Z := (λ x, x.1.2) <$> filter (λ x, x.1.1 = c) (s_inputs s).

Definition in_flight (r : option reader_pc) : option Z :=
  match r with Some (RLoad true _ sq _) | Some (RWrite true _ sq _) => Some sq | _ => None end.

Record ordered (s : session) : Prop := mkOrdered {
  or_sorted : ∀ c, StronglySorted Z.lt (written s c);
  or_flight : ∀ c sq, in_flight (rd s c) = Some sq →
    Forall (λ n, n < sq) (written s c) ∧ (s_client s = Some c → sq ≤ s_lastInputSeq s);
  or_last : ∀ c, s_client s = Some c → Forall (λ n, n ≤ s_lastInputSeq s) (written s c);
  or_none : ∀ c, rd s c = None → written s c = [] }.

Lemma ordered_still (s s' : session) :
  ordered s → s_inputs s' = s_inputs s → s_lastInputSeq s' = s_lastInputSeq s → (∀ c, rd s' c = rd s c) →
  (∀ c, s_client s' = Some c → s_client s = Some c) → ordered s'.
Proof.
  intros [O1 O2 O3 O4] Ei El Er Ec. assert (∀ c, written s' c = written s c) as Ew by (intros; unfold written; by rewrite Ei).
  split; intros c; rewrite ?Er, Ew, ?El; auto. intros sq Hf. destruct (O2 c sq Hf). auto.
Qed.

(** A reader that takes nothing on. *)
Lemma ordered_reader (s : session) (c : nat) (pc : reader_pc) :
  ordered s → (∀ sq, in_flight (Some pc) = Some sq → in_flight (rd s c) = Some sq) → ordered (set_reader c (s, pc)).
Proof.
  intros [O1 O2 O3 O4] Hp. split; [done| |done|].
  - intros c' sq. rewrite rd_set. case_decide; [|apply O2]. subst. destruct (rd s c') eqn:E; [|done]. intros Hf.
    rewrite <- E in Hp. apply O2. exact (Hp sq Hf).
  - intros c'. rewrite rd_set. case_decide; [|apply O4]. subst. destruct (rd s c') eqn:E; [done|]. intros _. by apply O4.
Qed.

Lemma written_snoc (s : session) (c c' : nat) (sq : Z) (d : bytes) :
  written (s <| s_inputs ::= λ l, l ++ [(c, sq, d)] |>) c' = if decide (c = c') then written s c' ++ [sq] else written s c'.
Proof.
  unfold written. cbn. rewrite filter_app, fmap_app, filter_cons. cbn. case_decide; cbn; [done|]. by rewrite app_nil_r.
Qed.

Lemma sorted_snoc_lt (l : list Z) (x : Z) : StronglySorted Z.lt l → Forall (λ y, y < x) l → StronglySorted Z.lt (l ++ [x]).
Proof.
  induction 1 as [|y l Hl IH Hy]; cbn; intros Hx; [by repeat constructor|]. apply list.Forall_cons in Hx as [Hyx Hx].
  constructor; [auto|]. apply Forall_app. split; [done|]. by constructor.
Qed.

(** Writing what is in flight. *)
Lemma ordered_write (s : session) (c : nat) (cl : attachedClient) (apply w : bool) (sq : Z) (d : bytes) :
  ordered s → s_streams s !! c = Some cl → c_reader cl = RWrite apply w sq d →
  ordered (set_reader c (input_write c apply w sq d s, RAck sq)).
Proof.
  intros Ho Ecl Er. unfold input_write. destruct apply; [|by apply ordered_reader]. cbn [andb].
  destruct (_ && _); [|by apply ordered_reader].
  assert (rd s c = Some (RWrite true w sq d)) as Hrd by (unfold rd; rewrite Ecl; cbn; by rewrite Er).
  destruct Ho as [O1 O2 O3 O4]. destruct (O2 c sq) as [Hlt Hle]; [by rewrite Hrd|].
  split; intros c'; change (written (set_reader c (?x, ?y)) c') with (written x c'); rewrite ?rd_set, ?written_snoc.
  - case_decide; [|done]. subst. by apply sorted_snoc_lt.
  - intros sq'. case_decide; subst; [by destruct (rd _ c')|apply O2].
  - intros Hc. case_decide; [|by apply O3]. subst. apply Forall_app. split; [by apply O3|]. constructor; [by apply Hle|done].
  - case_decide; subst; [|apply O4]. change (rd _ c') with (rd s c'). by rewrite Hrd.
Qed.

Lemma ordered_msg (now : Z) (room : bool) (c : nat) (m : client_msg) (flushed : Z * bool) (s : session) :
  ordered s → ordered (read_msg now room c m flushed s).
Proof.
  intros Ho. destruct (read_msg_effect now room c m flushed s) as (s1 & pc & -> & E1 & _ & E3 & E4 & Hl & Hp).
  assert (∀ c', rd s1 c' = rd s c') as Er by (intros c'; unfold rd; by rewrite E3).
  destruct Hl as [[El Hn]|(w & sq & d & -> & Hc & Hlt & El)].
  - apply ordered_reader; [by apply (ordered_still s); try done; rewrite E4|]. intros sq Hf.
    destruct pc as [|[] w sq' d|[] w sq' d| | |]; try done; [by destruct (Hn w sq' d)|by destruct (Hp w sq' d)].
  - assert (∀ c', written (set_reader c (s1, RLoad true w sq d)) c' = written s c') as Ew by (intros; unfold written; cbn; by rewrite E1).
    destruct Ho as [O1 O2 O3 O4]. split; intros c'; rewrite ?Ew, ?rd_set, ?Er; try done.
    + change (s_client (set_reader c (s1, RLoad true w sq d))) with (s_client s1).
      change (s_lastInputSeq (set_reader c (s1, RLoad true w sq d))) with (s_lastInputSeq s1). rewrite E4, El, Hc.
      intros sq'. case_decide as Hcc.
      * subst. destruct (rd s c'); [|done]. intros [= <-]. split; [|done].
        eapply Forall_impl; [by apply O3|]. cbn. lia.
      * intros Hf. destruct (O2 c' sq' Hf). split; [done|]. congruence.
    + change (s_client s1 = Some c' → Forall (λ n, n ≤ s_lastInputSeq s1) (written s c')). rewrite E4, El.
      intros Hc'. eapply Forall_impl; [by apply O3|]. cbn. lia.
    + case_decide; [|apply O4]. intros Hr. apply O4. by destruct (rd s c').
Qed.

Lemma ordered_attach (c : nat) (lastSeen : Z) (s : session) :
  ordered s → s_streams s !! c = None → ordered (attach c lastSeen s).1.
Proof.
  intros [O1 O2 O3 O4] Ec. destruct (attach_effect c lastSeen s Ec) as (E1 & _ & E3 & E4 & E5). cbv zeta in *.
  assert (∀ c', written (attach c lastSeen s).1 c' = written s c') as Ew by (intros; unfold written; by rewrite E1).
  assert (written s c = []) as Hnil by (apply O4; unfold rd; by rewrite Ec).
  generalize dependent (attach c lastSeen s).1. intros s' E1 E3 E4 E5 Ew. split; intros c'; rewrite Ew; [done|..].
  - intros sq. destruct (decide (c' = c)) as [->|Hne]; [destruct E4 as [-> | ->]; done|]. rewrite E3 by done.
    intros Hf. destruct (O2 c' sq Hf) as [Hlt Hle]. split; [done|].
    destruct E5 as [[-> _]|[-> ->]]; [congruence|done].
  - destruct E5 as [[-> ->]|[-> ->]]; [|apply O3]. intros [= <-]. by rewrite Hnil.
  - destruct (decide (c' = c)) as [->|Hne]; [destruct E4 as [-> | ->]; done|]. rewrite E3 by done. apply O4.
Qed.

Lemma act_ordered (now : Z) (room : bool) (a : action) (s s' : session) (d : Z) :
  ordered s → HostSession.act now room a s = Some (s', d) → ordered s'.
Proof.
  intros Ho E. destruct (takes_input a) eqn:Ht.
  2:{ destruct (act_still _ _ _ _ _ _ E Ht) as (E1 & E2 & _ & E4 & E5). by apply (ordered_still s). }
  destruct a; try done.
  - apply on_stream_Some in E as (cl & Ecl & E). destruct (c_reader cl); try done. apply locked_Some in E as [_ [= <- <-]].
    by apply ordered_msg.
  - apply on_stream_Some in E as (cl & Ecl & E). destruct (c_reader cl); try done. injection E as <- <-. by apply ordered_reader.
  - apply on_stream_Some in E as (cl & Ecl & E).
    destruct (read_step_effect _ _ _ _ _ _ E) as [(ap & w & sq & b & Er & ->)|[(ap & w & sq & b & Er & ->)|(s1 & pc & -> & (E1 & E2 & _ & E4 & E5) & Hpc)]].
    + apply ordered_reader; [done|]. unfold rd. rewrite Ecl. cbn. rewrite Er. unfold input_gate.
      intros sq'. by destruct (pb_AllowInput (s_caps s)).
    + by eapply ordered_write.
    + apply ordered_reader; [by apply (ordered_still s)|]. by destruct Hpc as [->| ->].
  - cbn in E. destruct (bool_decide _ && _) eqn:Eg; [|done]. apply andb_true_iff in Eg as [Ec%bool_decide_eq_true _].
    apply locked_Some in E as [_ E]. pose proof (ordered_attach c lastSeen s Ho Ec) as Ha. by rewrite E in Ha.
  - injection E as <- <-. by apply (ordered_still s).
Qed.

(** ** Theorems *)

(** C27 (handleInput): an input is written once on its stream.  In every interleaving, the
    inputs one stream had written to its process carry strictly increasing numbers: an input that is
    sent again is not written again, and none is written after a later one. *)
Theorem inputs_once (w : os) (now : Z) (h : host) (o c : nat) (s : session) :
  rtc step (newHost w now) h → numbered h → objs h !! o = Some s → StronglySorted Z.lt (written s c).
Proof.
  intros Hr Hn Ho. apply or_sorted. revert o s Ho. apply (sessions_ind ordered w now h); [|by intros; eapply act_ordered|done|done].
  intros w1 t e r u pol s Hs. destruct (startSession_inv _ _ _ _ _ _ _ Hs) as (_ & _ & Ei & Es & Ec).
  assert (∀ c, written s c = []) as Ew by (intros; unfold written; by rewrite Ei).
  split; intros c'; rewrite Ew; try done; [constructor|]. intros sq. unfold rd. by rewrite Es.
Qed.

(** No call is about to lift the restriction of session [o]. *)
Definition stays_read_only (o : nat) (h : host) : Prop :=
  ∀ i q, calls h !! i = Some (COp o (OpSetCaps q)) → sc_ReadOnly q = true.

Lemma step_gated (o : nat) (s : session) (h h' : host) :
  stays_read_only o h → step h h' → objs h !! o = Some s → gated s →
  ∃ s', objs h' !! o = Some s' ∧ gated s' ∧ s_inputs s' = s_inputs s.
Proof.
  intros Hro (a & [E|[(o1 & s1 & s2 & t & rm & b & d & E1 & Ea & Hk & E)|(o1 & s1 & w1 & t & e & r & u & pol & E1 & Es & E)]]%act_session) Ho Hg.
  - exists s. by rewrite E.
  - rewrite E. destruct (decide (o1 = o)) as [->|Hne]; [|exists s; by rewrite lookup_insert_ne].
    simplify_eq. exists s2. rewrite lookup_insert_eq. split; [done|]. eapply act_gated; [done| |done].
    destruct b; try done. destruct Hk as (i & q & Hi & ->). cbn. by rewrite (Hro i q Hi).
  - exists s. rewrite E, lookup_insert_ne; [done|congruence].
Qed.

(** C26 (handleInput, SetCaps): a read-only session takes no input.  Once a session is
    read-only and the inputs of its streams past the gate are written, nothing is written to its process
    in any interleaving, attached, detached or taken over, until a call restores it. *)
Theorem read_only_stops_input (h h' : host) (o : nat) (s : session) :
  rtc (λ h h', stays_read_only o h ∧ step h h') h h' → objs h !! o = Some s → gated s →
  ∃ s', objs h' !! o = Some s' ∧ s_inputs s' = s_inputs s ∧ pb_AllowInput (s_caps s') = false.
Proof.
  intros Hr. revert s. induction Hr as [h|h1 h2 h3 [Hro Hst] _ IH]; intros s Ho Hg.
  - exists s. destruct Hg. done.
  - destruct (step_gated o s h1 h2 Hro Hst Ho Hg) as (s2 & Ho2 & Hg2 & Ei).
    destruct (IH s2 Ho2 Hg2) as (s3 & ? & ? & ?). exists s3. split_and!; [done|congruence|done].
Qed.

End Inputs.

(** ** Examples *)

Import HostFixture.

Definition typed (sq : Z) (text : string) : list host_action :=
  [Run 0 (Recv 0 (MsgInput sq (bytes_of_string text)) (0, true)); Run 0 (Read 0); Run 0 (Read 0); Run 0 (Read 0)].

(** A client that types, sends a line again, and types on. *)
Definition typing : list host_action :=
  create 0 0 "h-1" (request true false false) ++ named 1 "h-1" (OpAttach 0 0) ++ typed 1 "ls" ++ typed 1 "ls" ++ typed 2 "id".

Definition typing_host : host := Eval vm_compute in after typing.

Lemma inputs_once_witness :
  ∃ s, objs typing_host !! 0%nat = Some s ∧ written s 0 = [1; 2] ∧ StronglySorted Z.lt (written s 0).
Proof.
  eexists. split; [vm_compute; reflexivity|]. split; [vm_compute; reflexivity|].
  eapply (inputs_once box 0 typing_host 0 0); [|apply numbered_check; vm_compute; reflexivity|vm_compute; reflexivity].
  apply (run_steps typing). vm_compute. reflexivity.
Defined.

(** The session made read-only, and what follows. *)
Definition restricted_host : host :=
  Eval vm_compute in after (typing ++ named 2 "h-1" (OpSetCaps (mkHostSetCapsRequest true true true []))).

Definition typing_on : list host_action := typed 3 "rm" ++ typed 4 "rm".
Definition typed_host : host := Eval vm_compute in default fresh (run typing_on restricted_host).

Lemma run_read_only (o : nat) (l : list host_action) (h h' : host) :
  Forall (λ a, match a with Run _ _ => True | _ => False end) l → stays_read_only o h → run l h = Some h' →
  rtc (λ h h', stays_read_only o h ∧ step h h') h h'.
Proof.
  intros Hl. revert h. induction Hl as [|a l Ha Hl IH]; intros h Hro; cbn; [by intros [= ->]|].
  destruct (act a h) as [h1|] eqn:E; [|done]. intros Hr. eapply rtc_l; [split; [done|by exists a]|]. apply IH; [|done].
  destruct a as [|o' b| | | |]; try done. cbn in E. destruct (own b); [|done].
  apply on_session_books in E as (_ & _ & _ & Ec & _). intros i q. rewrite Ec. apply Hro.
Qed.

Lemma answered_check (o : nat) (h : host) :
  bool_decide (map_Forall (λ _ c, match c with CAnswered _ => true | _ => false end = true) (calls h)) = true → stays_read_only o h.
Proof. rewrite bool_decide_eq_true. intros Hm i q E. by specialize (Hm i _ E). Qed.

Lemma gated_check (s : session) :
  pb_AllowInput (s_caps s) = false →
  bool_decide (map_Forall (λ _ cl, match c_reader cl with RRecv => true | _ => false end = true) (s_streams s)) = true → gated s.
Proof.
  rewrite bool_decide_eq_true. intros Hc Hm. split; [done|]. intros c w sq d E. unfold rd in E.
  apply fmap_Some in E as (cl & E & Er). specialize (Hm c cl E). cbn in Hm. by rewrite <- Er in Hm.
Qed.

Lemma read_only_stops_input_witness :
  ∃ s s', objs restricted_host !! 0%nat = Some s ∧ objs typed_host !! 0%nat = Some s' ∧ s_lastInputSeq s' = 4 ∧
    written s 0 = [1; 2] ∧ s_inputs s' = s_inputs s.
Proof.
  eexists _, _. split; [vm_compute; reflexivity|]. split; [vm_compute; reflexivity|]. split; [reflexivity|].
  split; [vm_compute; reflexivity|].
  edestruct (read_only_stops_input restricted_host typed_host 0) as (s' & Es & Ei & _).
  - apply (run_read_only 0 typing_on); [by repeat constructor| |vm_compute; reflexivity].
    apply answered_check. vm_compute. reflexivity.
  - vm_compute. reflexivity.
  - apply gated_check; vm_compute; reflexivity.
  - vm_compute in Es. injection Es as <-. exact Ei.
Defined.
