(* ===== verification/Rollout.v ===== *)
(** * Staged rollouts (controller/rollout.go, adminapi.go, httpapi.go)

    A release reaches the fleet in waves: a frozen list of the nodes in the order of a
    hash, of which growing prefixes form the canary ring; a wave advances when it was
    healthy for a while, the last one promotes the version to stable, and a wave that
    does not become healthy in time halts the rollout or reverts it.

    The state is the settings of the two products, with their JSON decoded, and what the
    health of a node is judged by.  The operations are programs of store transactions:
    [reads] and [writes] script which of them fail, and a controller may crash between any
    two.  Reasons that the code formats as text are kept as data. *)
From Stdlib Require Import ZArith Lia Strings.Byte Strings.Ascii.
From stdpp Require Import base gmap sets list strings sorting relations.
From S2P Require Import Prelude Proc.
Local Open Scope Z_scope.

(** ** Rollouts *)

Inductive RolloutState : Type := RolloutActive | RolloutPaused | RolloutHalted | RolloutDone | RolloutAborted.
Inductive RolloutTrigger : Type := TriggerAdmin | TriggerAuto.

#[export] Instance RolloutState_eq_dec : EqDecision RolloutState.
Proof. solve_decision. Defined.
#[export] Instance RolloutTrigger_eq_dec : EqDecision RolloutTrigger.
Proof. solve_decision. Defined.

(** Why a node holds a wave back. *)
Inductive blocker : Type :=
| Offline (id : string)
| Running (id version want : string)
| Unhealthy (id : string)
| Stale (id : string) (age : Z)
| Unavailable.

Inductive halt_reason : Type :=
| NoReason
| Blocked (l : list blocker)
| Reverted (l : list blocker)
| AbortedBy (actor : string).

Record Rollout := mkRollout {
  Product : string; Target : string; Waves : list Z; WaveIdx : nat; State : RolloutState; Trigger : RolloutTrigger;
  Eligible : list string; PrevStable : string; SoakSeconds : Z; WaveTimeoutSeconds : Z; WaveEnteredUnix : Z;
  HealthySince : Z; Blockers : list blocker; HaltReason : halt_reason; Actor : string; CreatedUnix : Z; UpdatedUnix : Z }.

#[export] Instance eta_Rollout : Eta Rollout := λ r,
  mkRollout (Product r) (Target r) (Waves r) (WaveIdx r) (State r) (Trigger r) (Eligible r) (PrevStable r)
    (SoakSeconds r) (WaveTimeoutSeconds r) (WaveEnteredUnix r) (HealthySince r) (Blockers r) (HaltReason r) (Actor r)
    (CreatedUnix r) (UpdatedUnix r).

Definition terminal (r : Rollout) : bool := bool_decide (State r = RolloutDone) || bool_decide (State r = RolloutAborted).
Definition active (r : Rollout) : bool := bool_decide (State r = RolloutActive).

Definition defaultWaves : list Z := [10; 50; 100].
Definition defaultSoakSeconds : Z := 120.
Definition defaultWaveTimeout : Z := 600.

(** ** Waves *)

(** FNV-1a over the bytes of a string. *)
Definition fnvHash (s : string) : Z :=
  foldl (λ h b, Z.lxor h (Z_of_byte b) * 1099511628211 mod 2 ^ 64) 14695981039346656037 (bytes_of_string s).

Definition hash_le (x y : string) : Prop := fnvHash x < fnvHash y ∨ fnvHash x = fnvHash y ∧ String.le x y.
#[export] Instance hash_le_dec : RelDecision hash_le.
Proof. intros x y. unfold hash_le. apply _. Defined.

Definition hashOrder (ids : list string) : list string := merge_sort hash_le ids.

Definition waveMembers (eligible : list string) (pct : Z) : list string :=
  let n := Z.of_nat (length eligible) in
  if n =? 0 then []
  else
    let k := (pct * n + 99) ÷ 100 in
    let k := if n <? k then n else k in
    let k := if k <? 0 then 0 else k in
    take (Z.to_nat k) eligible.

Fixpoint ascending (prev : Z) (l : list Z) : bool :=
  match l with
  | [] => true
  | p :: l => negb ((p <=? prev) || (100 <? p)) && ascending p l
  end.

Definition normalizeWaves (l : list Z) : option (list Z) :=
  match l with
  | [] => Some defaultWaves
  | _ => if ascending 0 l && bool_decide (last l = Some 100) then Some l else None
  end.

(** ** The fleet *)

(** One product's settings: the rings and the rollout. *)
Record settings := mkSettings {
  stable : string; canary : string; canaryNodes : list string; rollout : option Rollout; autoUpdate : bool }.

#[export] Instance eta_settings : Eta settings := λ x,
  mkSettings (stable x) (canary x) (canaryNodes x) (rollout x) (autoUpdate x).

Record agentLive := mkAgentLive { l_version : string; l_healthy : bool; l_lastSeen : Z }.

Inductive rollout_event : Type :=
| EvStarted (r : Rollout)
| EvPaused (product actor : string)
| EvResumed (product actor : string) (wave : nat)
| EvAborted (product actor target : string)
| EvAdvanced (product : string) (wave : nat)
| EvHalted (product target : string) (wave : nat)
| EvCompleted (product target : string)
| EvSetDesired (product ring version : string).

(** The two rings; the nodes and the relays enrolled; the presence rows, the agents homed
    on this controller, the relay rows; the manifests published for the controller's own
    platform; the audit trail; the clock; the reads and the writes of the store that fail. *)
Record fleet := mkFleet {
  agentRing : settings; relayRing : settings;
  nodes : list string; presence : gmap string agentLive; registry : gmap string agentLive;
  relays : gmap string agentLive; manifests : list (string * string); trail : list rollout_event;
  clock : Z; reads : list bool; writes : list bool }.

#[export] Instance eta_fleet : Eta fleet := λ f,
  mkFleet (agentRing f) (relayRing f) (nodes f) (presence f) (registry f) (relays f) (manifests f) (trail f) (clock f)
    (reads f) (writes f).

Inductive product : Type := Agent | Relay.

#[export] Instance product_eq_dec : EqDecision product.
Proof. solve_decision. Defined.

(** The name of a product; no name is the agent's. *)
Definition product_of (name : string) : option product :=
  if bool_decide (name = "") || bool_decide (name = "geneza-agent") then Some Agent
  else if bool_decide (name = "geneza-relay") then Some Relay
  else None.

Definition ring (p : product) (f : fleet) : settings := match p with Agent => agentRing f | Relay => relayRing f end.

Definition set_ring (p : product) (g : settings → settings) (f : fleet) : fleet :=
  match p with Agent => f <| agentRing ::= g |> | Relay => f <| relayRing ::= g |> end.

(** ** Transactions *)

Definition view {A : Type} (g : fleet → A) : prog fleet (option A) :=
  atomic (λ f, match reads f with
               | true :: l => (None, f <| reads := l |>)
               | false :: l => (Some (g f), f <| reads := l |>)
               | [] => (Some (g f), f)
               end).

Definition put (p : product) (g : settings → settings) : prog fleet (option unit) :=
  atomic (λ f, match writes f with
               | true :: l => (None, f <| writes := l |>)
               | false :: l => (Some tt, (set_ring p g f) <| writes := l |>)
               | [] => (Some tt, set_ring p g f)
               end).

Definition audit (e : rollout_event) : prog fleet unit := write (λ f, f <| trail ::= λ l, l ++ [e] |>).
Definition now : prog fleet Z := read (λ f, Unix (clock f)).

(** [if err != nil { return err }] after a transaction. *)
Definition try {A B : Type} (p : prog fleet (option A)) (k : A → prog fleet (option B)) : prog fleet (option B) :=
  r ← p; match r with Some a => k a | None => mret None end.

Definition loadRollout (p : product) : prog fleet (option (option Rollout)) := view (λ f, rollout (ring p f)).

Definition saveRollout (p : product) (r : Rollout) : prog fleet (option unit) :=
  t ← now; put p (λ x, x <| rollout := Some (r <| UpdatedUnix := t |>) |>).

Definition setCanaryVersion (p : product) (v : string) : prog fleet (option unit) := put p (λ x, x <| canary := v |>).
Definition setCanaryNodes (p : product) (l : list string) : prog fleet (option unit) := put p (λ x, x <| canaryNodes := l |>).
Definition setStableVersion (p : product) (v : string) : prog fleet (option unit) := put p (λ x, x <| stable := v |>).

Definition setAutoUpdate (name : string) (on : bool) : prog fleet (option unit) :=
  match product_of name with Some p => put p (λ x, x <| autoUpdate := on |>) | None => mret None end.

(** ** Health (adminapi.go) *)

Definition canaryHeartbeatFresh : Z := 60 * second.
Definition relayStaleTTL : Z := 60 * second.

(** [agentLivenessMap], for one node: the local registry over the presence rows. *)
Definition agentLiveness (f : fleet) (id : string) : option agentLive :=
  match registry f !! id with Some i => Some i | None => presence f !! id end.

Definition agent_blocker (f : fleet) (version id : string) : option blocker :=
  match agentLiveness f id with
  | None => Some (Offline id)
  | Some i =>
      if bool_decide (l_version i ≠ version) then Some (Running id (l_version i) version)
      else if negb (l_healthy i) then Some (Unhealthy id)
      else if canaryHeartbeatFresh <=? clock f - l_lastSeen i then Some (Stale id (clock f - l_lastSeen i))
      else None
  end.

Definition relay_blocker (f : fleet) (version id : string) : option blocker :=
  match relays f !! id with
  | None => Some (Offline id)
  | Some i =>
      if bool_decide (l_version i ≠ version) then Some (Running id (l_version i) version)
      else if relayStaleTTL <=? clock f - l_lastSeen i then Some (Stale id (clock f - l_lastSeen i))
      else None
  end.

Definition blockers_of (p : product) (f : fleet) (members : list string) (version : string) : list blocker :=
  match p with
  | Agent => omap (agent_blocker f version) members
  | Relay => omap (relay_blocker f version) members
  end.

(** [canaryBlockers] and [relayCanaryBlockers]: presence that cannot be read counts as
    absent for an agent, and blocks a relay. *)
Definition canaryBlockers (p : product) (members : list string) (version : string) : prog fleet (list blocker) :=
  match p with
  | Agent =>
      r ← view (λ f, blockers_of Agent f members version);
      match r with
      | Some l => mret l
      | None => read (λ f, blockers_of Agent (f <| presence := ∅ |>) members version)
      end
  | Relay => r ← view (λ f, blockers_of Relay f members version); mret (default [Unavailable] r)
  end.

(** ** The life of a rollout *)

Definition eligibleFleet (p : product) : prog fleet (option (list string)) :=
  view (λ f, hashOrder (match p with Agent => nodes f | Relay => (map_to_list (relays f)).*1 end)).

(** [revertRing]. *)
Definition revertRing (p : product) : prog fleet (option unit) :=
  try (setCanaryNodes p []) (λ _, setCanaryVersion p "").

Definition startRollout (name target : string) (waves : list Z) (soak waveTimeout : Z) (trigger : RolloutTrigger)
    (actor : string) : prog fleet (option Rollout) :=
  match product_of name with
  | None => mret None
  | Some p =>
      if bool_decide (target = "") then mret None
      else
        cur ← loadRollout p;
        if match cur with Some (Some r) => negb (terminal r) | _ => false end then mret None
        else
          try (view (λ f, stable (ring p f))) (λ st,
            if bool_decide (target = st) then mret None
            else
              m ← view (λ f, bool_decide ((name, target) ∈ manifests f));
              if negb (default false m) then mret None
              else
                match normalizeWaves waves with
                | None => mret None
                | Some wv =>
                    try (eligibleFleet p) (λ el,
                      t ← now;
                      let soak := if soak <=? 0 then defaultSoakSeconds else soak in
                      let waveTimeout := if waveTimeout <=? 0 then defaultWaveTimeout else waveTimeout in
                      let r := mkRollout name target wv 0 RolloutActive trigger el st soak waveTimeout t 0 [] NoReason
                                 actor t 0 in
                      try (saveRollout p r) (λ _, _ ← audit (EvStarted r); mret (Some r)))
                end)
  end.

Definition requireActiveRollout (p : product) : prog fleet (option Rollout) :=
  try (loadRollout p) (λ r,
    match r with Some r => if active r then mret (Some r) else mret None | None => mret None end).

Definition pauseRollout (name actor : string) : prog fleet (option unit) :=
  match product_of name with
  | None => mret None
  | Some p =>
      try (requireActiveRollout p) (λ r,
        _ ← audit (EvPaused name actor); saveRollout p (r <| State := RolloutPaused |>))
  end.

Definition resumeRollout (name actor : string) : prog fleet (option unit) :=
  match product_of name with
  | None => mret None
  | Some p =>
      try (loadRollout p) (λ r,
        match r with
        | Some r =>
            if bool_decide (State r = RolloutPaused) || bool_decide (State r = RolloutHalted) then
              t ← now;
              _ ← audit (EvResumed name actor (WaveIdx r));
              saveRollout p (r <| State := RolloutActive |> <| WaveEnteredUnix := t |> <| HealthySince := 0 |>
                               <| HaltReason := NoReason |>)
            else mret None
        | None => mret None
        end)
  end.

Definition abortRollout (name actor : string) : prog fleet (option unit) :=
  match product_of name with
  | None => mret None
  | Some p =>
      try (loadRollout p) (λ r,
        match r with
        | Some r =>
            if terminal r then mret None
            else
              try (revertRing p) (λ _,
                _ ← audit (EvAborted name actor (Target r));
                saveRollout p (r <| State := RolloutAborted |> <| HaltReason := AbortedBy actor |>))
        | None => mret None
        end)
  end.

(** The publish hook. *)
Definition maybeAutoStartRollout (name version : string) : prog fleet unit :=
  match product_of name with
  | None => mret tt
  | Some p =>
      on ← view (λ f, autoUpdate (ring p f));
      if negb (default false on) || bool_decide (version = "") then mret tt
      else
        cur ← loadRollout p;
        if match cur with Some (Some r) => negb (terminal r) | _ => false end then mret tt
        else
          st ← view (λ f, stable (ring p f));
          if bool_decide (st = Some version) then mret tt
          else _ ← startRollout name version [] 0 0 TriggerAuto "auto:publish"; mret tt
  end.

(** ** The controller *)

Definition failWave (p : product) (r : Rollout) (l : list blocker) : prog fleet (option unit) :=
  match Trigger r with
  | TriggerAuto =>
      try (revertRing p) (λ _,
        _ ← audit (EvAborted (Product r) "auto" (Target r));
        saveRollout p (r <| State := RolloutAborted |> <| HaltReason := Reverted l |>))
  | TriggerAdmin =>
      _ ← audit (EvHalted (Product r) (Target r) (WaveIdx r));
      saveRollout p (r <| State := RolloutHalted |> <| HaltReason := Blocked l |>)
  end.

Definition finalizeRollout (p : product) (r : Rollout) : prog fleet (option unit) :=
  final ← canaryBlockers p (Eligible r) (Target r);
  match final with
  | _ :: _ => saveRollout p (r <| HealthySince := 0 |> <| Blockers := final |>)
  | [] =>
      try (setStableVersion p (Target r)) (λ _,
      try (setCanaryNodes p []) (λ _,
      try (setCanaryVersion p "") (λ _,
        _ ← audit (EvCompleted (Product r) (Target r));
        saveRollout p (r <| State := RolloutDone |> <| Blockers := [] |>))))
  end.

(** What a tick decides once the wave is pinned: [t] is the time, [l] the blockers. *)
Definition tick_wave (p : product) (r : Rollout) (pct t : Z) (l : list blocker) : prog fleet (option unit) :=
  match l with
  | _ :: _ =>
      let r := r <| HealthySince := 0 |> <| Blockers := l |> in
      if (0 <? WaveTimeoutSeconds r) && (WaveTimeoutSeconds r <=? t - WaveEnteredUnix r) then failWave p r l
      else saveRollout p r
  | [] =>
      let r := r <| Blockers := [] |> in
      if HealthySince r =? 0 then saveRollout p (r <| HealthySince := t |>)
      else if t - HealthySince r <? SoakSeconds r then saveRollout p r
      else if 100 <=? pct then finalizeRollout p r
      else
        let r := r <| WaveIdx ::= S |> <| WaveEnteredUnix := t |> <| HealthySince := 0 |> in
        _ ← audit (EvAdvanced (Product r) (WaveIdx r)); saveRollout p r
  end.

(** [rolloutTick]; a wave index out of range, on which the code panics, fails. *)
Definition rolloutTick (p : product) : prog fleet (option unit) :=
  try (loadRollout p) (λ r,
    match r with
    | None => mret (Some tt)
    | Some r =>
        if negb (active r) then mret (Some tt)
        else
          match Waves r !! WaveIdx r with
          | None => mret None
          | Some pct =>
              let members := waveMembers (Eligible r) pct in
              try (setCanaryVersion p (Target r)) (λ _,
              try (setCanaryNodes p members) (λ _,
                t ← now;
                l ← canaryBlockers p members (Target r);
                tick_wave p r pct t l))
          end
    end).

(** [SetDesiredVersion]. *)
Definition SetDesiredVersion (name ringName version : string) (canaries : list string) : prog fleet (option unit) :=
  match product_of name with
  | None => mret None
  | Some p =>
      cur ← loadRollout p;
      if match cur with Some (Some r) => negb (terminal r) | _ => false end then mret None
      else
        let done_ (_ : unit) := _ ← audit (EvSetDesired name ringName version); mret (Some tt) in
        if bool_decide (ringName = "canary") then
          try (if (length canaries =? 0)%nat then mret (Some tt) else setCanaryNodes p canaries) (λ _,
          try (setCanaryVersion p version) done_)
        else if bool_decide (ringName = "stable") then
          try (view (λ f, canaryNodes (ring p f))) (λ l,
            b ← (if (length l =? 0)%nat || bool_decide (version = "") then mret [] else canaryBlockers p l version);
            match b with
            | _ :: _ => mret None
            | [] => try (setStableVersion p version) done_
            end)
        else mret None
  end.

(** ** What a node is told (httpapi.go) *)

Definition resolveDesired (stable canary : string) (canaryNodes : list string) (nodeID : string) : string :=
  if bool_decide (canary ≠ "") && contains canaryNodes nodeID then canary else stable.

(** [GET /v1/updates/desired]: three reads. *)
Definition desired (p : product) (nodeID : string) : prog fleet (option string) :=
  try (view (λ f, stable (ring p f))) (λ st,
  try (view (λ f, canary (ring p f))) (λ ca,
  try (view (λ f, canaryNodes (ring p f))) (λ l, mret (Some (resolveDesired st ca l nodeID))))).

(** [rolloutHealthCounts]. *)
Definition rolloutHealthCounts (p : product) (r : Rollout) (f : fleet) : Z * Z :=
  match Waves r !! WaveIdx r with
  | None => (0, 0)
  | Some pct =>
      let members := waveMembers (Eligible r) pct in
      let ok id := match p with Agent => agent_blocker f (Target r) id | Relay => relay_blocker f (Target r) id end in
      (Z.of_nat (length members), Z.of_nat (length (filter (λ id, negb (bool_decide (is_Some (ok id))) = true) members)))
  end.

(** The soak that remains, as [rolloutStatusResp] shows it (adminapi_rollout.go). *)
Definition soakRemaining (r : Rollout) (now : Z) : Z :=
  if 0 <? HealthySince r then
    let rem := SoakSeconds r - (now - HealthySince r) in if 0 <? rem then rem else 0
  else SoakSeconds r.
