(* ===== verification/Rolling.v ===== *)
(** * Theorems about staged rollouts (Rollout.v)

    Whichever writes fail and wherever a controller crashes, a node is told the target of
    a rollout only when it is in the wave reached, or after the promotion: an invariant of
    the settings, kept by every action of every operation.  The cases the invariant
    excludes are shown to break it: a read that fails, and a tick that an abort
    overtakes. *)
From Stdlib Require Import ZArith Lia.
From stdpp Require Import base gmap sets list strings sorting relations.
From S2P Require Import Prelude Proc Rollout.
Local Open Scope Z_scope.

(** ** Waves *)

Lemma waveMembers_take (el : list string) (pct : Z) : ∃ k, waveMembers el pct = take k el.
Proof. unfold waveMembers. destruct (_ =? 0); [by exists 0%nat|]. cbv zeta. eauto. Qed.

Lemma waveMembers_all (el : list string) (pct : Z) : 100 ≤ pct → waveMembers el pct = el.
Proof.
  intros Hp. unfold waveMembers. destruct (Z.eqb_spec (Z.of_nat (length el)) 0) as [E|E]; [by destruct el|].
  cbv zeta. rewrite Z.quot_div_nonneg by nia.
  assert (Z.of_nat (length el) ≤ (pct * Z.of_nat (length el) + 99) / 100) by (apply Z.div_le_lower_bound; nia).
  destruct (Z.ltb_spec (Z.of_nat (length el)) ((pct * Z.of_nat (length el) + 99) / 100)).
  - destruct (Z.ltb_spec (Z.of_nat (length el)) 0); [lia|]. apply take_ge. lia.
  - destruct (Z.ltb_spec ((pct * Z.of_nat (length el) + 99) / 100) 0); [lia|]. apply take_ge. lia.
Qed.

Lemma take_sub {A : Type} (l : list A) (j k : nat) : (j ≤ k)%nat → take j l ⊆ take k l.
Proof. intros Hjk. replace j with (j `min` k)%nat by lia. rewrite <- take_take. apply subseteq_take. Qed.

(** A later wave contains the earlier ones. *)
Lemma waveMembers_mono (el : list string) (p q : Z) : 0 ≤ p ≤ q → waveMembers el p ⊆ waveMembers el q.
Proof.
  intros Hpq. unfold waveMembers. destruct (_ =? 0); [done|]. cbv zeta. rewrite !Z.quot_div_nonneg by nia.
  set (n := Z.of_nat (length el)). assert ((p * n + 99) / 100 ≤ (q * n + 99) / 100) by (apply Z.div_le_mono; nia).
  apply take_sub. generalize dependent ((p * n + 99) / 100). generalize ((q * n + 99) / 100). intros b a Hab.
  destruct (Z.ltb_spec n a), (Z.ltb_spec n b); repeat match goal with |- context [?x <? 0] => destruct (Z.ltb_spec x 0) end; lia.
Qed.

(** Any controller computes the same order, whatever the store lists first. *)
#[global] Instance hash_le_total : Total hash_le.
Proof.
  intros x y. unfold hash_le. destruct (Z.lt_trichotomy (fnvHash x) (fnvHash y)) as [|[E|]]; [auto| |auto].
  destruct (total String.le x y); auto.
Qed.

#[global] Instance hash_le_trans : Transitive hash_le.
Proof.
  intros x y z [H1|[H1 L1]] [H2|[H2 L2]]; unfold hash_le; [left; lia..|]. right. split; [lia|by etrans].
Qed.

#[global] Instance hash_le_antisym : AntiSymm (=) hash_le.
Proof. intros x y [H1|[H1 L1]] [H2|[H2 L2]]; [lia..|]. by apply (anti_symm String.le). Qed.

Lemma hashOrder_deterministic (xs ys : list string) : xs ≡ₚ ys → hashOrder xs = hashOrder ys.
Proof.
  intros Hp. apply (Sorted_unique hash_le); [apply (Sorted_merge_sort _)..|].
  unfold hashOrder. by rewrite !merge_sort_Permutation.
Qed.

(** ** What the settings hold *)

(** The waves of a rollout are ascending percentages up to 100. *)
Definition rollout_ok (r : Rollout) : Prop :=
  Target r ≠ "" ∧ ascending 0 (Waves r) = true ∧ last (Waves r) = Some 100 ∧ (WaveIdx r < length (Waves r))%nat.

Definition reached (r : Rollout) : list string := default [] (waveMembers (Eligible r) <$> Waves r !! WaveIdx r).

(** The ring is empty, or holds nodes of the wave reached under the target. *)
Definition ring_ok (x : settings) : Prop :=
  match rollout x with
  | None => canary x = "" ∧ canaryNodes x = []
  | Some r =>
      rollout_ok r ∧
      if terminal r then canary x = "" ∧ canaryNodes x = []
      else (canary x = "" ∨ canary x = Target r) ∧ canaryNodes x ⊆ reached r
  end.

(** The reads of the store do not fail. *)
Definition fleet_ok (f : fleet) : Prop := reads f = [] ∧ ∀ p, ring_ok (ring p f).

(** Nodes come, go and change their health; time passes; artifacts are published. *)
Definition world (f f' : fleet) : Prop := agentRing f' = agentRing f ∧ relayRing f' = relayRing f ∧ reads f' = reads f.

Lemma world_ring (p : product) (f f' : fleet) : world f f' → ring p f' = ring p f.
Proof. intros (? & ? & _). by destruct p. Qed.

Lemma world_ok (f f' : fleet) : fleet_ok f → world f f' → fleet_ok f'.
Proof.
  intros [Hr Hf] Hw. split; [destruct Hw as (_ & _ & ->); exact Hr|]. intros p. rewrite (world_ring p f f' Hw). apply Hf.
Qed.

(** An assertion on the settings of one product. *)
Definition at_ring (p : product) (P : settings → Prop) (f : fleet) : Prop := P (ring p f).

Lemma at_ring_stable (p : product) (P : settings → Prop) : Proc.stable world fleet_ok (at_ring p P).
Proof. intros f f' _ HP Hw. unfold at_ring. by rewrite (world_ring p f f' Hw). Qed.

#[local] Hint Resolve at_ring_stable : core.

Lemma ring_set (p q : product) (g : settings → settings) (f : fleet) :
  ring q (set_ring p g f) = if decide (p = q) then g (ring q f) else ring q f.
Proof. by destruct p, q. Qed.

Abbreviation holds := (triple world fleet_ok).

Lemma put_holds (p : product) (g : settings → settings) (P Q : settings → Prop) :
  (∀ x, ring_ok x → P x → ring_ok (g x) ∧ Q (g x)) →
  holds (at_ring p P) (put p g) (λ o, at_ring p (λ x, if o is Some _ then Q x else P x)).
Proof.
  intros Hg. apply (triple_atomic _ _ world_ok); [auto|by intros []|]. intros f [Hr Hf] HP. unfold at_ring in *.
  destruct (Hg _ (Hf p) HP) as [Hok HQ].
  assert (∀ l, fleet_ok ((set_ring p g f) <| writes := l |>) ∧ Q (ring p ((set_ring p g f) <| writes := l |>))) as Hput.
  { intros l. assert (∀ q, ring q ((set_ring p g f) <| writes := l |>) = ring q (set_ring p g f)) as El by (by intros []).
    split; [split; [by destruct p|intros q]|]; rewrite El, ring_set; [case_decide; [subst; done|apply Hf]|by rewrite decide_True]. }
  assert (∀ l q, ring q (f <| writes := l |>) = ring q f) as Ed by (by intros l []).
  destruct (writes f) as [|[] l]; cbn.
  - specialize (Hput (writes (set_ring p g f))). by destruct p.
  - split; [split; [done|intros q; rewrite Ed; apply Hf]|by rewrite Ed].
  - apply Hput.
Qed.

(** A read answers. *)
Lemma view_holds {A : Type} (p : product) (P : settings → Prop) (g : fleet → A) :
  holds (at_ring p P) (view g) (λ o f, is_Some o ∧ at_ring p P f).
Proof.
  apply (triple_atomic _ _ world_ok); [auto..| |].
  { intros o f f' Hf [Ho HP] Hw. split; [done|]. by apply (at_ring_stable p P f f'). }
  intros f [Hr Hf] HP. rewrite Hr. cbn. split; [done|]. split; [by eexists|done].
Qed.

Lemma load_holds (p : product) (P : settings → Prop) :
  holds (at_ring p P) (loadRollout p) (λ o, at_ring p (λ x, P x ∧ o = Some (rollout x))).
Proof. apply (triple_atomic _ _ world_ok); [auto..|]. intros f [Hr Hf] HP. rewrite Hr. done. Qed.

Lemma audit_holds (p : product) (P : settings → Prop) (e : rollout_event) :
  holds (at_ring p P) (audit e) (λ _, at_ring p P).
Proof.
  apply (triple_atomic _ _ world_ok); [auto..|]. intros f [Hr Hf] HP. cbn.
  assert (∀ q, ring q (f <| trail ::= λ l, l ++ [e] |>) = ring q f) as Ed by (by intros []).
  split; [split; [done|intros q; rewrite Ed; apply Hf]|unfold at_ring; by rewrite Ed].
Qed.

Lemma read_holds {A : Type} (p : product) (P : settings → Prop) (g : fleet → A) :
  holds (at_ring p P) (read g) (λ _, at_ring p P).
Proof. apply (triple_read _ _ world_ok); auto. Qed.

Lemma blockers_holds (p : product) (P : settings → Prop) (l : list string) (v : string) :
  holds (at_ring p P) (canaryBlockers p l v) (λ _, at_ring p P).
Proof.
  assert (∀ a : list blocker, holds (at_ring p P) (mret a) (λ _, at_ring p P)) as Hret
    by (intros; apply (triple_ret _ _ world_ok); auto).
  unfold canaryBlockers. destruct p; (eapply triple_bind; [apply view_holds|]); intros o; apply triple_pure; intros [b ->]; apply Hret.
Qed.

(** Whatever a program answers. *)
Definition ends {A : Type} (p : product) (P : settings → Prop) (m : prog fleet A) : Prop :=
  holds (at_ring p P) m (λ _ _, True).

Lemma ends_ret {A : Type} (p : product) (P : settings → Prop) (a : A) : ends p P (mret a).
Proof. apply (triple_ret _ _ world_ok); auto. Qed.

Lemma ends_bind {A B : Type} (p : product) (P : settings → Prop) (Q : A → settings → Prop) (m : prog fleet A) (k : A → prog fleet B) :
  holds (at_ring p P) m (λ a, at_ring p (Q a)) → (∀ a, ends p (Q a) (k a)) → ends p P (m ≫= k).
Proof. intros Hm Hk. eapply triple_bind; [exact Hm|exact Hk]. Qed.

Lemma ends_try {A B : Type} (p : product) (P : settings → Prop) (Q : option A → settings → Prop)
    (m : prog fleet (option A)) (k : A → prog fleet (option B)) :
  holds (at_ring p P) m (λ o, at_ring p (Q o)) → (∀ a, ends p (Q (Some a)) (k a)) → ends p P (try m k).
Proof. intros Hm Hk. unfold try. eapply ends_bind; [exact Hm|]. intros [a|]; [apply Hk|apply ends_ret]. Qed.

Lemma ends_pre {A : Type} (p : product) (P P' : settings → Prop) (m : prog fleet A) :
  (∀ x, ring_ok x → P' x → P x) → ends p P m → ends p P' m.
Proof. intros HP Hm. eapply triple_pre; [|exact Hm]. intros f Hf HP'. apply HP; [apply (proj2 Hf)|exact HP']. Qed.

Lemma ends_save (p : product) (P : settings → Prop) (r : Rollout) :
  (∀ x t, ring_ok x → P x → ring_ok (x <| rollout := Some (r <| UpdatedUnix := t |>) |>)) → ends p P (saveRollout p r).
Proof.
  intros Hr. unfold saveRollout. apply (ends_bind p P (λ _, P)); [exact (read_holds p P _)|]. intros t.
  eapply triple_post; [|apply (put_holds p _ P (λ _, True))]; [done|]. intros x Hx HP. split; [by apply Hr|done].
Qed.

(** ** The operations *)

Definition running (r : Rollout) (x : settings) : Prop := rollout x = Some r.
Definition cleared (r : Rollout) (x : settings) : Prop := rollout x = Some r ∧ canary x = "" ∧ canaryNodes x = [].

(** A running rollout is saved at the wave it reached or a later one, or as over when the
    ring is clear. *)
Lemma save_running (p : product) (r r' : Rollout) :
  terminal r = false → rollout_ok r' → Target r' = Target r → reached r ⊆ reached r' → terminal r' = false →
  ends p (running r) (saveRollout p r').
Proof.
  intros Ht Hok ET Hsub Ht'. apply ends_save. intros x t Hx Hr. unfold running in Hr. unfold ring_ok in *. rewrite Hr, Ht in Hx. cbn.
  destruct Hx as (_ & Hc & Hn). change (terminal (r' <| UpdatedUnix := t |>)) with (terminal r'). rewrite Ht'.
  split; [exact Hok|]. cbn. rewrite ET. split; [done|]. etrans; [exact Hn|exact Hsub].
Qed.

Lemma save_cleared (p : product) (r r' : Rollout) : rollout_ok r' → ends p (cleared r) (saveRollout p r').
Proof.
  intros Hok. apply ends_save. intros x t Hx (Hr & Hc & Hn). unfold ring_ok. cbn. rewrite Hc, Hn.
  change (terminal (r' <| UpdatedUnix := t |>)) with (terminal r'). split; [exact Hok|].
  destruct (terminal r'); [done|]. split; [by left|]. apply list_subseteq_nil.
Qed.

Lemma set_version_holds (p : product) (r : Rollout) :
  terminal r = false → holds (at_ring p (running r)) (setCanaryVersion p (Target r)) (λ _, at_ring p (running r)).
Proof.
  intros Ht. eapply triple_post; [|apply (put_holds p _ (running r) (running r))].
  - by intros [] f _ Hf.
  - intros x Hx Hr. split; [|done]. unfold running in Hr. unfold ring_ok in *. cbn. rewrite Hr, Ht in *.
    destruct Hx as (? & _ & ?). split; [done|]. split; [by right|done].
Qed.

Lemma set_nodes_holds (p : product) (r : Rollout) (l : list string) :
  terminal r = false → l ⊆ reached r → holds (at_ring p (running r)) (setCanaryNodes p l) (λ _, at_ring p (running r)).
Proof.
  intros Ht Hl. eapply triple_post; [|apply (put_holds p _ (running r) (running r))].
  - by intros [] f _ Hf.
  - intros x Hx Hr. split; [|done]. unfold running in Hr. unfold ring_ok in *. cbn. rewrite Hr, Ht in *.
    destruct Hx as (? & ? & _). by split_and!.
Qed.

(** Clearing the ring of a running rollout. *)
Lemma clear_nodes_holds (p : product) (r : Rollout) :
  terminal r = false →
  holds (at_ring p (running r)) (setCanaryNodes p [])
    (λ o, at_ring p (λ x, running r x ∧ (if o is Some _ then canaryNodes x = [] else True))).
Proof.
  intros Ht. eapply triple_post; [|apply (put_holds p _ (running r) (λ x, running r x ∧ canaryNodes x = []))].
  - by intros [] f _ Hf.
  - intros x Hx Hr. split; [|done]. unfold running in Hr. unfold ring_ok in *. cbn. rewrite Hr, Ht in *.
    destruct Hx as (? & ? & _). split_and!; try done. apply list_subseteq_nil.
Qed.

Lemma clear_version_holds (p : product) (r : Rollout) :
  terminal r = false →
  holds (at_ring p (λ x, running r x ∧ canaryNodes x = [])) (setCanaryVersion p "")
    (λ o, at_ring p (λ x, if o is Some _ then cleared r x else True)).
Proof.
  intros Ht. eapply triple_post; [|apply (put_holds p _ (λ x, running r x ∧ canaryNodes x = []) (cleared r))].
  - by intros [] f _ Hf.
  - intros x Hx [Hr Hn]. split; [|by split_and!]. unfold running in Hr. unfold ring_ok in *. cbn. rewrite Hr, Ht in *.
    destruct Hx as (? & ? & ?). split; [done|]. split; [by left|done].
Qed.

Lemma revert_holds (p : product) (r : Rollout) :
  terminal r = false →
  holds (at_ring p (running r)) (revertRing p) (λ o, at_ring p (λ x, if o is Some _ then cleared r x else True)).
Proof.
  intros Ht. unfold revertRing, try. eapply triple_bind; [by apply clear_nodes_holds|]. intros [[]|].
  - by apply clear_version_holds.
  - apply (triple_ret _ _ world_ok); [auto|]. done.
Qed.

Lemma ascending_lookup (l : list Z) (prev : Z) (i : nat) (a b : Z) :
  ascending prev l = true → l !! i = Some a → l !! S i = Some b → prev < a < b.
Proof.
  revert prev i. induction l as [|x l IH]; intros prev [|i] Hl Ea Eb; cbn in *; [done..| |].
  - apply andb_true_iff in Hl as [Hx Hl]. injection Ea as ->. destruct l as [|y l]; [done|]. injection Eb as ->.
    cbn in Hl. apply andb_true_iff in Hl as [Hy _]. lia.
  - apply andb_true_iff in Hl as [Hx Hl]. specialize (IH x i Hl Ea Eb). lia.
Qed.

(** The next wave exists and contains this one. *)
Lemma advance_ok (r r' : Rollout) (pct : Z) :
  rollout_ok r → Waves r !! WaveIdx r = Some pct → pct < 100 →
  Target r' = Target r → Waves r' = Waves r → Eligible r' = Eligible r → WaveIdx r' = S (WaveIdx r) →
  rollout_ok r' ∧ reached r ⊆ reached r'.
Proof.
  intros (HT & Ha & Hl & Hi) Ep Hp ET EW EE EI.
  assert (S (WaveIdx r) < length (Waves r))%nat as Hlt.
  { destruct (decide (S (WaveIdx r) = length (Waves r))) as [E|]; [|lia]. rewrite last_lookup, <- E in Hl. cbn in Hl. by simplify_eq. }
  split; [unfold rollout_ok; rewrite ET, EW, EI; by split_and!|].
  destruct (lookup_lt_is_Some_2 (Waves r) (S (WaveIdx r)) Hlt) as [q Eq].
  unfold reached. rewrite EW, EI, EE, Ep, Eq. cbn. apply waveMembers_mono. pose proof (ascending_lookup _ _ _ _ _ Ha Ep Eq). lia.
Qed.

Lemma active_running (r : Rollout) : active r = true → terminal r = false.
Proof. unfold active, terminal. intros E%bool_decide_eq_true. rewrite E. done. Qed.

Lemma failWave_ends (p : product) (r r' : Rollout) (l : list blocker) :
  terminal r = false → rollout_ok r' → Target r' = Target r → reached r ⊆ reached r' → ends p (running r) (failWave p r' l).
Proof.
  intros Ht Hok ET Hsub. unfold failWave. destruct (Trigger r').
  - apply (ends_bind p _ (λ _, running r)); [apply audit_holds|]. intros ?. by apply (save_running p r).
  - eapply ends_try; [by apply revert_holds|]. intros ?.
    apply (ends_bind p _ (λ _, cleared r)); [apply audit_holds|]. intros ?. by apply save_cleared.
Qed.

Lemma finalize_ends (p : product) (r r' : Rollout) :
  terminal r = false → terminal r' = false → rollout_ok r' → Target r' = Target r → reached r ⊆ reached r' →
  ends p (running r) (finalizeRollout p r').
Proof.
  intros Ht Ht' Hok ET Hsub. unfold finalizeRollout. apply (ends_bind p _ (λ _, running r)); [apply blockers_holds|].
  intros [|b l]; [|by apply (save_running p r)].
  apply (ends_try p _ (λ _, running r)).
  { eapply triple_post; [|apply (put_holds p _ (running r) (running r))]; [by intros [] f _ Hf|by intros x Hx Hr]. }
  intros ?. eapply ends_try; [by apply clear_nodes_holds|]. intros ?.
  eapply ends_try; [by apply clear_version_holds|]. intros ?.
  apply (ends_bind p _ (λ _, cleared r)); [apply audit_holds|]. intros ?. by apply save_cleared.
Qed.

Lemma tick_wave_ends (p : product) (r : Rollout) (pct t : Z) (l : list blocker) :
  active r = true → rollout_ok r → Waves r !! WaveIdx r = Some pct → ends p (running r) (tick_wave p r pct t l).
Proof.
  intros Ha Hok Ep. pose proof (active_running r Ha) as Ht. unfold tick_wave. destruct l as [|b l].
  - cbv zeta. destruct (_ =? 0); [by apply (save_running p r)|]. destruct (_ <? _); [by apply (save_running p r)|].
    destruct (Z.leb_spec 100 pct); [by apply finalize_ends|].
    apply (ends_bind p _ (λ _, running r)); [apply audit_holds|]. intros ?.
    destruct (advance_ok r (r <| Blockers := [] |> <| WaveIdx ::= S |> <| WaveEnteredUnix := t |> <| HealthySince := 0 |>) pct)
      as [Hok' Hsub]; try done. by apply (save_running p r).
  - cbv zeta. destruct (_ && _); [by apply failWave_ends|by apply (save_running p r)].
Qed.

(** What a loaded rollout is known to be. *)
Lemma loaded_ends {A : Type} (p : product) (P : settings → Prop) (r : Rollout) (m : prog fleet A) :
  (rollout_ok r → ends p (running r) m) → ends p (λ x, P x ∧ Some (Some r) = Some (rollout x)) m.
Proof.
  intros Hm. apply (triple_pre _ _ (λ f, rollout_ok r ∧ at_ring p (running r) f)).
  - intros f [_ Hf] [_ [= Hr]]. split; [|done]. specialize (Hf p). unfold ring_ok in Hf. rewrite <- Hr in Hf. apply Hf.
  - by apply triple_pure.
Qed.

Lemma tick_ends (p : product) : ends p (λ _, True) (rolloutTick p).
Proof.
  unfold rolloutTick. eapply ends_try; [apply load_holds|]. intros [r|]; [|apply ends_ret].
  destruct (active r) eqn:Ha; [|apply ends_ret]. cbn [negb]. pose proof (active_running r Ha) as Ht.
  destruct (Waves r !! WaveIdx r) as [pct|] eqn:Ep; [|apply ends_ret].
  apply loaded_ends. intros Hok. eapply ends_try; [by apply set_version_holds|]. intros ?.
  eapply ends_try; [apply set_nodes_holds; [done|unfold reached; by rewrite Ep]|]. intros ?.
  apply (ends_bind p _ (λ _, running r)); [exact (read_holds p _ _)|]. intros t.
  apply (ends_bind p _ (λ _, running r)); [apply blockers_holds|]. intros l. by apply tick_wave_ends.
Qed.

(** No rollout is running. *)
Definition idle (x : settings) : Prop := if rollout x is Some r then terminal r = true else True.

Lemma read_some {A : Type} (p : product) (P : settings → Prop) (g : fleet → A) :
  holds (at_ring p P) (view g) (λ _, at_ring p P).
Proof. eapply triple_post; [|apply view_holds]. by intros o f _ [_ HP]. Qed.

(** The guard of the operations that need the ring for themselves. *)
Lemma idle_guard (p : product) (P : settings → Prop) {A : Type} (cur : option (option Rollout)) (a : A) (m : prog fleet A) :
  ends p idle m →
  ends p (λ x, P x ∧ cur = Some (rollout x)) (if match cur with Some (Some r) => negb (terminal r) | _ => false end then mret a else m).
Proof.
  intros Hm. destruct (match cur with Some (Some r) => negb (terminal r) | _ => false end) eqn:E; [apply ends_ret|].
  eapply ends_pre; [|exact Hm]. intros x _ [_ ->]. unfold idle. destruct (rollout x) as [r|]; [|done].
  destruct (terminal r); done.
Qed.

Lemma normalizeWaves_ok (l wv : list Z) :
  normalizeWaves l = Some wv → ascending 0 wv = true ∧ last wv = Some 100 ∧ (0 < length wv)%nat.
Proof.
  unfold normalizeWaves. destruct l as [|a l]; [intros [= <-]; split_and!; [done..|cbn; lia]|].
  destruct (ascending 0 (a :: l)) eqn:E1; [|done]. case_bool_decide as E2; [|done]. intros [= <-].
  split_and!; [done..|cbn; lia].
Qed.

Lemma save_fresh (p : product) (r : Rollout) :
  rollout_ok r → holds (at_ring p idle) (saveRollout p r) (λ _, at_ring p (λ _, True)).
Proof.
  intros Hok. eapply triple_post; [|apply (ends_save p idle r)]; [done|]. intros x t Hx Hi.
  assert (canary x = "" ∧ canaryNodes x = []) as [Hc Hn].
  { unfold ring_ok, idle in *. destruct (rollout x) as [r0|]; [|done]. rewrite Hi in Hx. apply Hx. }
  unfold ring_ok. cbn. rewrite Hc, Hn. split; [exact Hok|]. destruct (terminal _); [done|]. split; [by left|apply list_subseteq_nil].
Qed.

Lemma start_ends (q : product) (name target : string) (waves : list Z) (soak timeout : Z) (trigger : RolloutTrigger) (actor : string) :
  product_of name = Some q → ends q (λ _, True) (startRollout name target waves soak timeout trigger actor).
Proof.
  intros Eq. unfold startRollout. rewrite Eq. case_bool_decide as HT; [apply ends_ret|].
  apply (ends_bind q _ (λ o x, True ∧ o = Some (rollout x))); [apply load_holds|]. intros cur. apply idle_guard.
  apply (ends_try q _ (λ _, idle)); [apply read_some|]. intros st. case_bool_decide; [apply ends_ret|].
  apply (ends_bind q _ (λ _, idle)); [apply read_some|]. intros m. destruct (negb _); [apply ends_ret|].
  destruct (normalizeWaves waves) as [wv|] eqn:Ew; [|apply ends_ret]. apply normalizeWaves_ok in Ew as (? & ? & ?).
  apply (ends_try q _ (λ _, idle)); [apply read_some|]. intros el. apply (ends_bind q _ (λ _, idle)); [exact (read_holds q _ _)|]. intros t.
  cbv zeta. eapply (ends_try q _ (λ _ _, True)); [by apply save_fresh|]. intros ?.
  apply (ends_bind q _ (λ _ _, True)); [apply audit_holds|]. intros ?. apply ends_ret.
Qed.

Lemma pause_ends (q : product) (name actor : string) : product_of name = Some q → ends q (λ _, True) (pauseRollout name actor).
Proof.
  intros Eq. unfold pauseRollout. rewrite Eq. unfold requireActiveRollout.
  apply (ends_try q _ (λ o x, if o is Some r then running r x ∧ active r = true ∧ rollout_ok r else True)).
  { unfold try at 1. eapply triple_bind; [apply load_holds|]. intros [[r|]|]; [|apply (triple_ret _ _ world_ok); auto; done..].
    destruct (active r) eqn:Ha; (apply (triple_ret _ _ world_ok); [auto|]); [|done].
    intros f [_ Hf] [_ [= Hr]]. specialize (Hf q). unfold ring_ok in Hf. rewrite <- Hr in Hf. by destruct Hf. }
  intros r. apply (triple_pre _ _ (λ f, (active r = true ∧ rollout_ok r) ∧ at_ring q (running r) f)).
  { by intros f _ (? & ? & ?). }
  apply triple_pure. intros [Ha Hok]. pose proof (active_running r Ha).
  apply (ends_bind q _ (λ _, running r)); [apply audit_holds|]. intros ?. by apply (save_running q r).
Qed.

Lemma resume_ends (q : product) (name actor : string) : product_of name = Some q → ends q (λ _, True) (resumeRollout name actor).
Proof.
  intros Eq. unfold resumeRollout. rewrite Eq. eapply ends_try; [apply load_holds|]. intros [r|]; [|apply ends_ret].
  destruct (_ || _) eqn:Es; [|apply ends_ret]. apply loaded_ends. intros Hok.
  assert (terminal r = false) as Ht.
  { apply orb_true_iff in Es as [E%bool_decide_eq_true|E%bool_decide_eq_true]; unfold terminal; by rewrite E. }
  apply (ends_bind q _ (λ _, running r)); [exact (read_holds q _ _)|]. intros t.
  apply (ends_bind q _ (λ _, running r)); [apply audit_holds|]. intros ?. by apply (save_running q r).
Qed.

Lemma abort_ends (q : product) (name actor : string) : product_of name = Some q → ends q (λ _, True) (abortRollout name actor).
Proof.
  intros Eq. unfold abortRollout. rewrite Eq. eapply ends_try; [apply load_holds|]. intros [r|]; [|apply ends_ret].
  destruct (terminal r) eqn:Ht; [apply ends_ret|]. apply loaded_ends. intros Hok.
  eapply ends_try; [by apply revert_holds|]. intros ?.
  apply (ends_bind q _ (λ _, cleared r)); [apply audit_holds|]. intros ?. by apply save_cleared.
Qed.

Lemma auto_ends (q : product) (name version : string) : product_of name = Some q → ends q (λ _, True) (maybeAutoStartRollout name version).
Proof.
  intros Eq. unfold maybeAutoStartRollout. rewrite Eq. apply (ends_bind q _ (λ _ _, True)); [apply read_some|]. intros on.
  destruct (_ || _); [apply ends_ret|].
  apply (ends_bind q _ (λ o x, True ∧ o = Some (rollout x))); [apply load_holds|]. intros cur. apply idle_guard.
  apply (ends_bind q _ (λ _, idle)); [apply read_some|]. intros st. case_bool_decide; [apply ends_ret|].
  apply (ends_bind q _ (λ _ _, True)); [|intros ?; apply ends_ret].
  eapply triple_pre; [|eapply triple_post; [|by apply start_ends]]; done.
Qed.

(** A version promoted by hand. *)
Lemma promote_ends (q : product) (name version : string) (l : list string) :
  product_of name = Some q → ends q (λ _, True) (SetDesiredVersion name "stable" version l).
Proof.
  intros Eq. unfold SetDesiredVersion. rewrite Eq.
  apply (ends_bind q _ (λ o x, True ∧ o = Some (rollout x))); [apply load_holds|]. intros cur. apply idle_guard.
  rewrite bool_decide_false by done. rewrite bool_decide_true by done.
  apply (ends_try q _ (λ _, idle)); [apply read_some|]. intros ns. apply (ends_bind q _ (λ _, idle)).
  { destruct (_ || _); [apply (triple_ret _ _ world_ok); auto|apply blockers_holds]. }
  intros [|b bs]; [|apply ends_ret]. apply (ends_try q _ (λ _ _, True)).
  { eapply triple_post; [|apply (put_holds q _ idle (λ _, True))]; [by intros [] f _ _|by intros x Hx Hi]. }
  intros ?. apply (ends_bind q _ (λ _ _, True)); [apply audit_holds|]. intros ?. apply ends_ret.
Qed.

Lemma auto_update_ends (q : product) (name : string) (on : bool) : product_of name = Some q → ends q (λ _, True) (setAutoUpdate name on).
Proof.
  intros Eq. unfold setAutoUpdate. rewrite Eq. eapply triple_post; [|apply (put_holds q _ (λ _, True) (λ _, True))]; done.
Qed.

(** ** Histories *)

(** The operations, but the canary ring set by hand. *)
Inductive op : Type :=
| Tick (p : product)
| Start (name target : string) (waves : list Z) (soak waveTimeout : Z) (actor : string)
| Pause (name actor : string)
| Resume (name actor : string)
| Abort (name actor : string)
| Published (name version : string)
| Promote (name version : string) (nodes : list string)
| AutoUpdate (name : string) (on : bool).

Definition perform (o : op) : prog fleet unit :=
  match o with
  | Tick p => _ ← rolloutTick p; mret tt
  | Start name target waves soak waveTimeout actor => _ ← startRollout name target waves soak waveTimeout TriggerAdmin actor; mret tt
  | Pause name actor => _ ← pauseRollout name actor; mret tt
  | Resume name actor => _ ← resumeRollout name actor; mret tt
  | Abort name actor => _ ← abortRollout name actor; mret tt
  | Published name version => maybeAutoStartRollout name version
  | Promote name version l => _ ← SetDesiredVersion name "stable" version l; mret tt
  | AutoUpdate name on => _ ← setAutoUpdate name on; mret tt
  end.

(** One operation after the other, each of them given up at any point, in a world that
    moves on. *)
Definition lives (f f' : fleet) : Prop := ∃ o p', rtc (pstep world) (perform o, f) (p', f').

Lemma perform_ends (o : op) : ∃ p, ends p (λ _, True) (perform o).
Proof.
  assert (∀ (A : Type) (p : product) (m : prog fleet A), ends p (λ _, True) m → ends p (λ _, True) (_ ← m; mret tt)) as Hs.
  { intros A p m Hm. apply (ends_bind p _ (λ _ _, True)); [exact Hm|]. intros ?. apply ends_ret. }
  destruct o as [p|name ? ? ? ? ?|name ?|name ?|name ?|name ?|name ? ?|name ?]; [exists p; apply Hs, tick_ends|..];
    (destruct (product_of name) as [q|] eqn:Eq;
     [exists q; cbn [perform]; first [by apply auto_ends | apply Hs; eauto using start_ends, pause_ends, resume_ends, abort_ends, promote_ends, auto_update_ends]
     |exists Agent; cbn; unfold startRollout, pauseRollout, resumeRollout, abortRollout, maybeAutoStartRollout, SetDesiredVersion, setAutoUpdate;
      rewrite Eq; apply ends_ret]).
Qed.

Lemma lives_ok (f f' : fleet) : fleet_ok f → rtc lives f f' → fleet_ok f'.
Proof.
  intros Hf Hr. induction Hr as [|f1 f2 f3 (o & p' & Hs) _ IH]; [done|]. apply IH.
  destruct (perform_ends o) as [p Hp]. apply (safe_pstep world fleet_ok (perform o, f1) (p', f2) (λ _ _, True)) in Hs; [apply Hs|].
  by apply Hp.
Qed.

(** A fleet that has seen no rollout. *)
Definition untouched (f : fleet) : Prop :=
  reads f = [] ∧ ∀ p, canary (ring p f) = "" ∧ canaryNodes (ring p f) = [] ∧ rollout (ring p f) = None.

(** C6 (safety): at every point of a history of rollouts - started, ticked, paused,
    resumed, aborted, started by a publication, versions promoted by hand, one operation
    after the other, with any writes failing and each operation given up at any point -
    a node is told the stable version, or the target of a rollout that is not over and
    whose wave reached has the node.  Reads of the store are assumed to answer. *)
Theorem waves_contain_exposure (f0 f : fleet) (p : product) (id : string) :
  untouched f0 → rtc lives f0 f →
  let x := ring p f in
  let told := resolveDesired (stable x) (canary x) (canaryNodes x) id in
  told = stable x ∨
  ∃ r, rollout x = Some r ∧ terminal r = false ∧ told = Target r ∧ told ≠ "" ∧ id ∈ reached r.
Proof.
  intros [Hr H0] Hl x told. apply lives_ok in Hl as [_ Hl].
  - specialize (Hl p). fold x in Hl. unfold told, resolveDesired. destruct (_ && _) eqn:E; [right|by left].
    apply andb_true_iff in E as [Hc%bool_decide_eq_true Hn%contains_spec].
    unfold ring_ok in Hl. destruct (rollout x) as [r|]; [|by destruct Hl].
    destruct Hl as [(HT & _) Hl]. destruct (terminal r) eqn:Ht; [by destruct Hl|]. destruct Hl as [[Hl|Hl] Hsub]; [done|].
    exists r. rewrite Hl. split_and!; try done. by apply Hsub.
  - split; [done|]. intros q. unfold ring_ok. destruct (H0 q) as (Hc & Hn & ->). done.
Qed.

(** ** Fixtures *)

Module RolloutFixture.

(** All the nodes run [v], heard of just now; [t] is the time in seconds. *)
Definition all_on (v : string) (t : Z) (f : fleet) : fleet :=
  f <| clock := t * second |>
    <| registry := list_to_map ((λ id, (id, mkAgentLive v true (t * second))) <$> nodes f) |>.

Definition act (o : op) (f : fleet) : fleet := (run (perform o) f).2.

Definition blank : settings := mkSettings "v1" "" [] None false.

Definition start : fleet :=
  Eval vm_compute in
  all_on "v1" 1000 (mkFleet blank blank ["n1"; "n2"; "n3"; "n4"] ∅ ∅ ∅
                      [("geneza-agent", "v2"); ("geneza-agent", "v3"); ("geneza-agent", "v0")] [] 0 [] []).

Definition begun : fleet := Eval vm_compute in act (Start "geneza-agent" "v2" [25; 100] 30 300 "alice") start.
Definition exposed : fleet := Eval vm_compute in act (Tick Agent) begun.

Lemma world_all_on (v : string) (t : Z) (f : fleet) : world f (all_on v t f).
Proof. done. Qed.

Lemma lives_act (o : op) (f : fleet) : lives f (act o f).
Proof. eexists o, _. apply (run_pstep world (perform o) f). Qed.

End RolloutFixture.

Import RolloutFixture.

(** One of the four nodes is in the first wave, and is told the target. *)
Lemma waves_contain_exposure_witness :
  let x := ring Agent exposed in
  resolveDesired (stable x) (canary x) (canaryNodes x) "n1" = "v2" ∧
  ∃ r, rollout x = Some r ∧ Target r = "v2" ∧ "n1" ∈ reached r.
Proof.
  split; [by vm_compute|].
  destruct (waves_contain_exposure start exposed Agent "n1") as [E|(r & Er & _ & ET & _ & Hin)].
  - split; [done|]. by intros [].
  - eapply rtc_l; [apply (lives_act (Start "geneza-agent" "v2" [25; 100] 30 300 "alice"))|].
    eapply rtc_l; [apply (lives_act (Tick Agent))|]. replace (act _ (act _ start)) with exposed by (by vm_compute). done.
  - by vm_compute in E.
  - exists r. split_and!; [done|by vm_compute in ET|done].
Defined.

(** ** Where the settings are not kept *)

(** A tick that loaded the rollout before an abort saved it pins the ring again and
    saves the rollout as active: the abort reported success, and is undone. *)
Lemma abort_undone :
  let (rest, f1) := play 1 (rolloutTick Agent) exposed in
  let (ok, f2) := run (abortRollout "geneza-agent" "bob") f1 in
  let f3 := (run rest f2).2 in
  ok = Some tt ∧ canary (ring Agent f2) = "" ∧ (State <$> rollout (ring Agent f2)) = Some RolloutAborted ∧
  canary (ring Agent f3) = "v2" ∧ canaryNodes (ring Agent f3) = ["n1"] ∧
  (State <$> rollout (ring Agent f3)) = Some RolloutActive.
Proof. by vm_compute. Qed.

(** A read of the running rollout that fails counts as none: another rollout starts
    over it, and nodes outside its first wave are told its target before the tick that
    pins the wave is over. *)
Lemma start_over_running :
  let f1 := act (Tick Agent) (all_on "v2" 1100 (act (Tick Agent) (all_on "v2" 1050 (act (Tick Agent) (all_on "v2" 1010 exposed))))) in
  let (r, f2) := run (startRollout "geneza-agent" "v3" [25; 100] 30 300 TriggerAdmin "bob") (f1 <| reads := [true] |>) in
  let f3 := (play 2 (rolloutTick Agent) f2).2 in
  (terminal <$> rollout (ring Agent f1)) = Some false ∧
  (reached <$> r) = Some ["n1"] ∧
  resolveDesired "v1" (canary (ring Agent f3)) (canaryNodes (ring Agent f3)) "n4" = "v3".
Proof. by vm_compute. Qed.

(** An older version than the stable one, published, is rolled out. *)
Lemma older_version_rolled_out :
  (Target <$> rollout (ring Agent (act (Published "geneza-agent" "v0") (act (AutoUpdate "geneza-agent" true) start)))) = Some "v0".
Proof. by vm_compute. Qed.
