(* ===== verification/Ticking.v ===== *)
(** * Theorems about the ticks of a rollout (Rollout.v)

    A tick that runs on its own, without faults, is computed to a function on the
    settings.  On it rest two properties of ticks in a row: the promotion comes after the
    whole fleet of the rollout was healthy on the target at every tick of the soak; and a
    rollout left to its ticks ends within a time its parameters give, whatever the health
    of the nodes does. *)
From Stdlib Require Import ZArith Lia.
From stdpp Require Import base gmap sets list strings relations.
From S2P Require Import Prelude Proc Rollout Rolling.
Local Open Scope Z_scope.

(** ** A tick on its own *)

(** What a tick at [t] that finds the blockers [l] makes of the rollout. *)
Definition wave_next (r : Rollout) (pct t : Z) (l : list blocker) : Rollout :=
  match l with
  | _ :: _ =>
      let r := r <| HealthySince := 0 |> <| Blockers := l |> in
      if (0 <? WaveTimeoutSeconds r) && (WaveTimeoutSeconds r <=? t - WaveEnteredUnix r) then
        match Trigger r with
        | TriggerAuto => r <| State := RolloutAborted |> <| HaltReason := Reverted l |>
        | TriggerAdmin => r <| State := RolloutHalted |> <| HaltReason := Blocked l |>
        end
      else r
  | [] =>
      let r := r <| Blockers := [] |> in
      if HealthySince r =? 0 then r <| HealthySince := t |>
      else if t - HealthySince r <? SoakSeconds r then r
      else if 100 <=? pct then r <| State := RolloutDone |>
      else r <| WaveIdx ::= S |> <| WaveEnteredUnix := t |> <| HealthySince := 0 |>
  end <| UpdatedUnix := t |>.

(** The settings that follow: the version is promoted with the last wave, the ring is
    cleared with the rollout. *)
Definition ring_next (x : settings) (r r' : Rollout) (members : list string) : settings :=
  mkSettings (if bool_decide (State r' = RolloutDone) then Target r else stable x)
    (if terminal r' then "" else Target r) (if terminal r' then [] else members) (Some r') (autoUpdate x).

Definition ticked (p : product) (f : fleet) : fleet := (run (rolloutTick p) f).2.
Definition sound (f : fleet) : Prop := reads f = [] ∧ writes f = [].

Lemma run_try {A B : Type} (m : prog fleet (option A)) (k : A → prog fleet (option B)) (f : fleet) :
  run (try m k) f = match (run m f).1 with Some a => run (k a) (run m f).2 | None => (None, (run m f).2) end.
Proof. unfold try. rewrite run_bind. by destruct (run m f).1. Qed.

Lemma tick_run_view {A : Type} (g : fleet → A) (f : fleet) : sound f → run (view g) f = (Some (g f), f).
Proof. intros [Hr _]. unfold view. cbn. by rewrite Hr. Qed.

Lemma run_put (p : product) (g : settings → settings) (f : fleet) : sound f → run (put p g) f = (Some tt, set_ring p g f).
Proof. intros [_ Hw]. unfold put. cbn. by rewrite Hw. Qed.

Lemma sound_set (p : product) (g : settings → settings) (f : fleet) : sound f → sound (set_ring p g f).
Proof. by destruct p. Qed.

Lemma run_save (p : product) (r : Rollout) (f : fleet) :
  sound f → run (saveRollout p r) f = (Some tt, set_ring p (λ x, x <| rollout := Some (r <| UpdatedUnix := Unix (clock f) |>) |>) f).
Proof. intros Hf. unfold saveRollout, now, read. rewrite run_bind. cbn [run fst snd]. by apply run_put. Qed.

Lemma blockers_set (p q : product) (g : settings → settings) (f : fleet) (l : list string) (v : string) :
  blockers_of p (set_ring q g f) l v = blockers_of p f l v.
Proof. by destruct p, q. Qed.

Lemma run_blockers (p : product) (l : list string) (v : string) (f : fleet) :
  sound f → run (canaryBlockers p l v) f = (blockers_of p f l v, f).
Proof. intros Hf. unfold canaryBlockers. destruct p; rewrite run_bind, tick_run_view by done; done. Qed.

Lemma ring_same (p : product) (g : settings → settings) (f : fleet) : ring p (set_ring p g f) = g (ring p f).
Proof. by destruct p. Qed.

Lemma clock_set (p : product) (g : settings → settings) (f : fleet) : clock (set_ring p g f) = clock f.
Proof. by destruct p. Qed.

Definition noted (e : rollout_event) (f : fleet) : fleet := f <| trail ::= λ l, l ++ [e] |>.

Lemma run_audit (e : rollout_event) (f : fleet) : run (audit e) f = (tt, noted e f).
Proof. done. Qed.

Lemma sound_noted (e : rollout_event) (f : fleet) : sound f → sound (noted e f).
Proof. done. Qed.

Lemma ring_noted (p : product) (e : rollout_event) (f : fleet) : ring p (noted e f) = ring p f.
Proof. by destruct p. Qed.

Lemma clock_noted (e : rollout_event) (f : fleet) : clock (noted e f) = clock f.
Proof. done. Qed.

Create HintDb sound.
#[local] Hint Resolve sound_set sound_noted : sound.

Ltac alone :=
  repeat (rewrite ?run_try, ?run_bind, ?run_audit;
          first [rewrite tick_run_view by eauto with sound | rewrite run_put by eauto with sound
                |rewrite run_save by eauto with sound | rewrite run_blockers by eauto with sound];
          cbn [fst snd]);
  repeat first [rewrite ring_same | rewrite ring_noted | rewrite clock_set | rewrite clock_noted].

Lemma failWave_alone (p : product) (r : Rollout) (l : list blocker) (f : fleet) :
  sound f → terminal r = false → canary (ring p f) = Target r →
  ring p (run (failWave p r l) f).2 =
  let r' := match Trigger r with
            | TriggerAuto => r <| State := RolloutAborted |> <| HaltReason := Reverted l |>
            | TriggerAdmin => r <| State := RolloutHalted |> <| HaltReason := Blocked l |>
            end <| UpdatedUnix := Unix (clock f) |> in
  ring_next (ring p f) r r' (canaryNodes (ring p f)).
Proof.
  intros Hf Ht Hc. unfold failWave, revertRing, setCanaryVersion, setCanaryNodes.
  destruct (Trigger r); alone; unfold ring_next; cbn.
  - destruct (ring p f); cbn in *; by subst.
  - done.
Qed.

Lemma finalize_alone (p : product) (r : Rollout) (f : fleet) :
  sound f → blockers_of p f (Eligible r) (Target r) = [] →
  ring p (run (finalizeRollout p r) f).2 =
  ring_next (ring p f) r (r <| State := RolloutDone |> <| Blockers := [] |> <| UpdatedUnix := Unix (clock f) |>) [].
Proof.
  intros Hf Hb. unfold finalizeRollout, setStableVersion, setCanaryVersion, setCanaryNodes.
  rewrite run_bind, run_blockers by done. cbn [fst snd]. rewrite Hb. alone. done.
Qed.

Lemma tick_wave_alone (p : product) (r : Rollout) (pct : Z) (f : fleet) (l : list blocker) :
  sound f → active r = true → canary (ring p f) = Target r → l = blockers_of p f (waveMembers (Eligible r) pct) (Target r) →
  ring p (run (tick_wave p r pct (Unix (clock f)) l) f).2 =
  ring_next (ring p f) r (wave_next r pct (Unix (clock f)) l) (canaryNodes (ring p f)).
Proof.
  intros Hf Ha Hc Hl. pose proof (active_running r Ha) as Ht. assert (State r = RolloutActive) as Es by exact (proj1 (bool_decide_eq_true _) Ha).
  assert (∀ r', State r' = RolloutActive → Target r' = Target r → ring p (run (saveRollout p r') f).2
    = ring_next (ring p f) r (r' <| UpdatedUnix := Unix (clock f) |>) (canaryNodes (ring p f))) as Hsave.
  { intros r' E ET. alone. unfold ring_next, terminal. cbn. rewrite E. cbn. rewrite <- Hc. by destruct (ring p f). }
  unfold tick_wave, wave_next. destruct l as [|b l].
  - cbn [HealthySince SoakSeconds]. destruct (_ =? 0); [by apply Hsave|]. destruct (_ <? _); [by apply Hsave|].
    destruct (Z.leb_spec 100 pct) as [H100|H100].
    + rewrite waveMembers_all in Hl by done. rewrite finalize_alone by done. done.
    + rewrite run_bind, run_audit. cbn [fst snd]. alone. unfold ring_next, terminal. cbn. rewrite Es. cbn. rewrite <- Hc. by destruct (ring p f).
  - cbv zeta. destruct (_ && _); [|by apply Hsave]. rewrite failWave_alone by done. cbn. by destruct (Trigger r).
Qed.

Lemma tick_alone (p : product) (f : fleet) (r : Rollout) (pct : Z) :
  sound f → rollout (ring p f) = Some r → active r = true → Waves r !! WaveIdx r = Some pct →
  ring p (ticked p f) =
  ring_next (ring p f) r (wave_next r pct (Unix (clock f)) (blockers_of p f (waveMembers (Eligible r) pct) (Target r)))
    (waveMembers (Eligible r) pct).
Proof.
  intros Hf Er Ha Ep. unfold ticked, rolloutTick. rewrite run_try. unfold loadRollout. rewrite tick_run_view by done. cbn [fst snd].
  rewrite Er, Ha. cbn [negb]. rewrite Ep. unfold setCanaryVersion, setCanaryNodes, now, read.
  rewrite run_try, run_put by done. cbn [fst snd]. rewrite run_try, run_put by eauto with sound. cbn [fst snd].
  rewrite run_bind. cbn [run fst snd atomic]. rewrite run_bind, run_blockers by eauto with sound. cbn [fst snd].
  rewrite tick_wave_alone; [|eauto with sound|done|by rewrite !ring_same|done].
  rewrite !blockers_set, !clock_set, !ring_same. done.
Qed.

(** Nothing to do. *)
Lemma tick_idle (p : product) (f : fleet) :
  sound f →
  (if rollout (ring p f) is Some r then active r = false ∨ Waves r !! WaveIdx r = None else True) →
  ring p (ticked p f) = ring p f.
Proof.
  intros Hf Hn. unfold ticked, rolloutTick, loadRollout. rewrite run_try, tick_run_view by done. cbn [fst snd].
  destruct (rollout (ring p f)) as [r|]; [|done]. destruct (active r); [|done]. destruct Hn as [|Hn]; [done|].
  cbn [negb]. by rewrite Hn.
Qed.

(** ** Ticks in a row *)

(** [l] are the states the ticks ran in, [f] the one the next tick runs in; what happens
    between two ticks is [between]. *)
Inductive ticking (between : fleet → fleet → Prop) (p : product) (f0 : fleet) : list fleet → fleet → Prop :=
| ticking_start : sound f0 → ticking between p f0 [] f0
| ticking_next (l : list fleet) (f f' : fleet) :
    ticking between p f0 l f → between (ticked p f) f' → sound f' → ticking between p f0 (l ++ [f]) f'.

Lemma ticking_sound (between : fleet → fleet → Prop) (p : product) (f0 : fleet) (l : list fleet) (f : fleet) :
  ticking between p f0 l f → sound f.
Proof. by destruct 1. Qed.

(** A node runs the version, and said so lately. *)
Definition runs (p : product) (f : fleet) (v id : string) : Prop :=
  match p with
  | Agent => ∃ i, agentLiveness f id = Some i ∧ l_version i = v ∧ l_healthy i = true ∧ clock f - l_lastSeen i < canaryHeartbeatFresh
  | Relay => ∃ i, relays f !! id = Some i ∧ l_version i = v ∧ clock f - l_lastSeen i < relayStaleTTL
  end.

Lemma blockers_nil (p : product) (f : fleet) (l : list string) (v : string) :
  blockers_of p f l v = [] ↔ Forall (runs p f v) l.
Proof.
  assert (∀ (A B : Type) (g : A → option B) (k : list A), omap g k = [] ↔ Forall (λ a, g a = None) k) as Ho.
  { intros A B g k. induction k as [|a k IH]; [done|]. rewrite Forall_cons. cbn. rewrite <- IH. destruct (g a); naive_solver. }
  unfold blockers_of. destruct p; rewrite Ho; apply Forall_iff; intros id.
  - unfold agent_blocker, runs. destruct (agentLiveness f id) as [i|]; [|by split; [|intros (? & ? & _)]].
    case_bool_decide as Hv; [by split; [|intros (? & [= <-] & ? & _)]|].
    destruct (l_healthy i) eqn:Hh; cbn [negb]; [|split; [done|intros (? & [= <-] & ? & ? & _); congruence]].
    destruct (Z.leb_spec canaryHeartbeatFresh (clock f - l_lastSeen i)); [|split; [by exists i|done]].
    split; [done|]. intros (? & [= <-] & ? & ? & ?). lia.
  - unfold relay_blocker, runs. destruct (relays f !! id) as [i|]; [|by split; [|intros (? & ? & _)]].
    case_bool_decide as Hv; [by split; [|intros (? & [= <-] & ? & _)]|].
    destruct (Z.leb_spec relayStaleTTL (clock f - l_lastSeen i)); [|split; [by exists i|done]].
    split; [done|]. intros (? & [= <-] & ? & ?). lia.
Qed.

(** ** Promotion *)

(** What the operations other than a tick save is not active, or starts its soak over. *)
Definition restarts (f f' : fleet) : Prop :=
  ∀ p, rollout (ring p f') = rollout (ring p f) ∨
       ∃ r, rollout (ring p f') = Some r ∧ (active r = false ∨ HealthySince r = 0).

#[local] Instance restarts_refl : Reflexive restarts.
Proof. intros f p. by left. Qed.

#[local] Instance restarts_trans : Transitive restarts.
Proof. intros f1 f2 f3 H12 H23 p. destruct (H23 p) as [->|?]; [apply H12|by right]. Qed.

Lemma acts_try {A B : Type} (R : fleet → fleet → Prop) (m : prog fleet (option A)) (k : A → prog fleet (option B)) :
  acts R m → (∀ a, acts R (k a)) → acts R (try m k).
Proof. intros Hm Hk. apply acts_bind; [exact Hm|]. intros [a|]; [apply Hk|done]. Qed.

Lemma view_restarts {A : Type} (g : fleet → A) : acts restarts (view g).
Proof.
  apply acts_atomic. intros f p. left. by destruct (reads f) as [|[] l], p.
Qed.

Lemma put_restarts (p : product) (g : settings → settings) :
  (∀ x, rollout (g x) = rollout x ∨ ∃ r, rollout (g x) = Some r ∧ (active r = false ∨ HealthySince r = 0)) →
  acts restarts (put p g).
Proof.
  intros Hg. apply acts_atomic. intros f q. destruct (writes f) as [|[] l].
  - cbn. rewrite ring_set. case_decide; [apply Hg|by left].
  - left. by destruct q.
  - assert (ring q ((set_ring p g f) <| writes := l |>) = ring q (set_ring p g f)) as E by by destruct q.
    cbn in *. rewrite E, ring_set. case_decide; [apply Hg|by left].
Qed.

Lemma save_restarts (p : product) (r : Rollout) : active r = false ∨ HealthySince r = 0 → acts restarts (saveRollout p r).
Proof.
  intros Hr. apply acts_bind; [apply acts_read, _|]. intros t. apply put_restarts. intros x. right. by eexists.
Qed.

Lemma audit_restarts (e : rollout_event) : acts restarts (audit e).
Proof. apply acts_atomic. intros f p. left. by destruct p. Qed.

Lemma blockers_restarts (p : product) (l : list string) (v : string) : acts restarts (canaryBlockers p l v).
Proof.
  destruct p; (apply acts_bind; [apply view_restarts|]); [|done]. intros [b|]; [done|]. apply acts_read, _.
Qed.

Create HintDb acts.
#[local] Hint Resolve view_restarts save_restarts audit_restarts blockers_restarts : acts.

(** Through the structure of a program. *)
Ltac acting :=
  repeat first
    [ apply acts_ret | solve [eauto with acts] | apply acts_try; [|intros ?] | apply acts_bind; [|intros ?]
    | apply acts_read, _ | apply put_restarts; by left
    | match goal with |- acts _ (match ?x with _ => _ end) => destruct x end ].

Definition other (o : op) : Prop := match o with Tick _ => False | _ => True end.

Lemma start_restarts (name target : string) (waves : list Z) (soak timeout : Z) (trigger : RolloutTrigger) (actor : string) :
  acts restarts (startRollout name target waves soak timeout trigger actor).
Proof. unfold startRollout, loadRollout, eligibleFleet, now. acting. Qed.

#[local] Hint Resolve start_restarts : acts.

Lemma other_restarts (o : op) : other o → acts restarts (perform o).
Proof.
  intros Ho.
  destruct o; [done|..]; cbn [perform];
    unfold pauseRollout, resumeRollout, abortRollout, maybeAutoStartRollout, SetDesiredVersion, setAutoUpdate, requireActiveRollout, loadRollout,
      revertRing, setCanaryNodes, setCanaryVersion, setStableVersion, now; acting.
Qed.

Lemma pstep_acts {A : Type} (R : fleet → fleet → Prop) (c c' : prog fleet A * fleet) :
  (∀ f f', world f f' → R f f') → acts R c.1 → rtc (pstep world) c c' → rtc R c.2 c'.2.
Proof.
  intros Hw Ha Hr. induction Hr as [|c1 c2 c3 Hs _ IH]; [done|]. destruct Hs as [X act k f|p f f' He]; cbn in *.
  - destruct Ha as [Ha Hk]. eapply rtc_l; [apply Ha|by apply IH].
  - eapply rtc_l; [by apply Hw|by apply IH].
Qed.

(** Between two ticks: the other operations, each given up at any point, in a world that
    moves on. *)
Definition administered : fleet → fleet → Prop :=
  rtc (λ f f', ∃ o p', other o ∧ rtc (pstep world) (perform o, f) (p', f')).

Lemma administered_restarts (f f' : fleet) : administered f f' → restarts f f'.
Proof.
  induction 1 as [|f1 f2 f3 (o & p' & Ho & Hs) _ IH]; [done|]. etrans; [|exact IH].
  apply (pstep_acts restarts) in Hs; [|intros a b Hw p; left; by rewrite (world_ring p a b Hw)|by apply other_restarts].
  cbn in Hs. clear -Hs. induction Hs as [|? ? ? ? _ IH]; [done|by etrans].
Qed.

(** Since the soak began, every tick found the wave healthy. *)
Definition soaked (p : product) (r : Rollout) (l : list fleet) : Prop :=
  ∃ l1 g l2, l = l1 ++ g :: l2 ∧ Unix (clock g) = HealthySince r ∧
             Forall (λ h, blockers_of p h (reached r) (Target r) = []) (g :: l2).

Definition soaking (p : product) (l : list fleet) (f : fleet) : Prop :=
  ∀ r, rollout (ring p f) = Some r → active r = true → HealthySince r ≠ 0 → soaked p r l.

Lemma soaked_more (p : product) (r r' : Rollout) (l : list fleet) (f : fleet) :
  soaked p r l → blockers_of p f (reached r) (Target r) = [] →
  HealthySince r' = HealthySince r → reached r' = reached r → Target r' = Target r → soaked p r' (l ++ [f]).
Proof.
  intros (l1 & g & l2 & -> & Hg & Hall) Hb EH ER ET. exists l1, g, (l2 ++ [f]). rewrite EH, ER, ET, <- app_assoc.
  split_and!; [done..|]. rewrite app_comm_cons. apply Forall_app. split; [done|by apply Forall_singleton].
Qed.

Lemma tick_soaking (p : product) (l : list fleet) (f : fleet) :
  sound f → soaking p l f → soaking p (l ++ [f]) (ticked p f).
Proof.
  intros Hf Hs r' Er' Ha' Hh.
  destruct (rollout (ring p f)) as [r|] eqn:Er; [destruct (active r) eqn:Ha; [destruct (Waves r !! WaveIdx r) as [pct|] eqn:Ep|]|].
  - assert (reached r = waveMembers (Eligible r) pct) as ER by (unfold reached; by rewrite Ep).
    rewrite (tick_alone p f r pct) in Er' by done. rewrite <- ER in Er'.
    destruct (blockers_of p f (reached r) (Target r)) as [|b bs] eqn:Eb; unfold wave_next in Er'; cbn in Er'.
    + destruct (Z.eqb_spec (HealthySince r) 0) as [E0|E0].
      { simplify_eq. exists l, f, []. split_and!; [done..|]. by apply Forall_singleton. }
      destruct (_ <? _); [simplify_eq; eapply soaked_more; [by apply Hs|done..]|].
      by destruct (_ <=? _); simplify_eq.
    + destruct (_ && _); [|by simplify_eq]. by destruct (Trigger r); simplify_eq.
  - rewrite tick_idle in Er' by (done || rewrite Er; auto). simplify_eq.
    eapply soaked_more; [by apply Hs| |done..]. unfold reached. rewrite Ep. by destruct p.
  - rewrite tick_idle in Er' by (done || rewrite Er; auto). congruence.
  - rewrite tick_idle in Er' by (done || rewrite Er; auto). congruence.
Qed.

Lemma ticking_soaking (p : product) (f0 : fleet) (l : list fleet) (f : fleet) :
  rollout (ring p f0) = None → ticking administered p f0 l f → soaking p l f.
Proof.
  intros H0. induction 1 as [Hf0|l f f' Ht IH Hb Hf']; intros r Er Ha Hh; [by rewrite H0 in Er|].
  destruct (administered_restarts _ _ Hb p) as [E|(r' & Er' & Hr')].
  - rewrite E in Er. by apply (tick_soaking p l f (ticking_sound _ _ _ _ _ Ht) IH r).
  - simplify_eq. destruct Hr' as [Hr'|Hr']; [by rewrite Ha in Hr'|done].
Qed.

(** C7 (safety): between ticks that run without faults, rollouts are administered in
    any way and nodes do what they like.  A tick that changes the stable version makes it
    the target of a rollout, after ticks in a row, the first of them at least the soak
    before this one, at each of which every node of the rollout ran the target, healthy
    and heard of within the last minute. *)
Theorem promoted_after_soak (p : product) (f0 : fleet) (l : list fleet) (f : fleet) :
  rollout (ring p f0) = None → ticking administered p f0 l f → stable (ring p (ticked p f)) ≠ stable (ring p f) →
  ∃ r l1 g l2,
    rollout (ring p f) = Some r ∧ stable (ring p (ticked p f)) = Target r ∧
    l = l1 ++ g :: l2 ∧ SoakSeconds r ≤ Unix (clock f) - Unix (clock g) ∧
    Forall (λ h, Forall (runs p h (Target r)) (Eligible r)) (g :: l2 ++ [f]).
Proof.
  intros H0 Ht Hne. pose proof (ticking_soaking p f0 l f H0 Ht) as Hs. apply ticking_sound in Ht as Hf.
  destruct (rollout (ring p f)) as [r|] eqn:Er; cycle 1.
  { rewrite tick_idle in Hne by (done || rewrite Er; auto). done. }
  destruct (active r) eqn:Ha; cycle 1. { rewrite tick_idle in Hne by (done || rewrite Er; auto). done. }
  destruct (Waves r !! WaveIdx r) as [pct|] eqn:Ep; cycle 1. { rewrite tick_idle in Hne by (done || rewrite Er; auto). done. }
  assert (reached r = waveMembers (Eligible r) pct) as ER by (unfold reached; by rewrite Ep).
  rewrite (tick_alone p f r pct) in * by done. rewrite <- ER in *. unfold ring_next in *. cbn in *.
  case_bool_decide as Hd; [|done].
  pose proof (proj1 (bool_decide_eq_true _) Ha) as Es.
  destruct (blockers_of p f (reached r) (Target r)) as [|b bs] eqn:Eb; unfold wave_next in Hd; cbn in Hd.
  - destruct (Z.eqb_spec (HealthySince r) 0) as [E0|E0]; [cbn in Hd; congruence|].
    destruct (Z.ltb_spec (Unix (clock f) - HealthySince r) (SoakSeconds r)) as [|Hsoak]; [cbn in Hd; congruence|].
    destruct (Z.leb_spec 100 pct) as [H100|]; [|cbn in Hd; congruence].
    destruct (Hs r Er Ha E0) as (l1 & g & l2 & -> & Hg & Hall). exists r, l1, g, l2. split_and!; [done..|lia|].
    rewrite waveMembers_all in ER by done. rewrite ER in *. rewrite app_comm_cons. apply Forall_app. split; [|apply Forall_singleton].
    + eapply Forall_impl; [exact Hall|]. intros h. apply blockers_nil.
    + by apply blockers_nil.
  - destruct (_ && _); [|cbn in Hd; congruence]. by destruct (Trigger r).
Qed.

(** ** Termination *)

Definition untimed (f f' : fleet) : Prop := clock f' = clock f.

#[local] Instance untimed_refl : Reflexive untimed.
Proof. by intros f. Qed.

Lemma view_untimed {A : Type} (g : fleet → A) : acts untimed (view g).
Proof. apply acts_atomic. intros f. by destruct (reads f) as [|[] l]. Qed.

Lemma put_untimed (p : product) (g : settings → settings) : acts untimed (put p g).
Proof. apply acts_atomic. intros f. by destruct (writes f) as [|[] l], p. Qed.

Lemma audit_untimed (e : rollout_event) : acts untimed (audit e).
Proof. by apply acts_atomic. Qed.

#[local] Hint Resolve view_untimed put_untimed audit_untimed : acts.

Lemma clock_untimed {A : Type} (m : prog fleet A) (f : fleet) : acts untimed m → clock (run m f).2 = clock f.
Proof.
  intros Hm. apply (run_acts untimed) with (s := f) in Hm. induction Hm as [|? ? ? E _ IH]; [done|]. rewrite IH. exact E.
Qed.

Lemma ticked_clock (p : product) (f : fleet) : clock (ticked p f) = clock f.
Proof.
  apply clock_untimed. unfold rolloutTick, tick_wave, finalizeRollout, failWave, revertRing, saveRollout, loadRollout,
    setCanaryNodes, setCanaryVersion, setStableVersion, canaryBlockers, now. acting.
Qed.

(** A rollout as it is started at [t]. *)
Definition fresh (r : Rollout) (t : Z) : Prop :=
  rollout_ok r ∧ active r = true ∧ WaveIdx r = 0%nat ∧ HealthySince r = 0 ∧ CreatedUnix r = t ∧ WaveEnteredUnix r = t ∧
  0 < SoakSeconds r ∧ 0 < WaveTimeoutSeconds r.

Lemma start_fresh (name target : string) (waves : list Z) (soak timeout : Z) (trigger : RolloutTrigger) (actor : string)
    (f f1 : fleet) (r : Rollout) :
  sound f → run (startRollout name target waves soak timeout trigger actor) f = (Some r, f1) →
  ∃ p, product_of name = Some p ∧ Target r = target ∧ fresh r (Unix (clock f)) ∧ clock f1 = clock f ∧ sound f1 ∧
       ring p f1 = (ring p f) <| rollout := Some (r <| UpdatedUnix := Unix (clock f) |>) |>.
Proof.
  intros Hf. unfold startRollout, loadRollout, eligibleFleet, now, read. destruct (product_of name) as [p|]; [|done].
  case_bool_decide as HT; [done|]. rewrite run_bind, tick_run_view by done. cbn [fst snd].
  destruct (match rollout (ring p f) with Some r => _ | None => _ end); [done|].
  rewrite run_try, tick_run_view by done. cbn [fst snd]. case_bool_decide; [done|].
  rewrite run_bind, tick_run_view by done. cbn [fst snd]. destruct (negb _); [done|].
  destruct (normalizeWaves waves) as [wv|] eqn:Ew; [|done]. apply normalizeWaves_ok in Ew as (? & ? & ?).
  rewrite run_try, tick_run_view by done. cbn [fst snd]. rewrite run_bind. cbn [run fst snd atomic]. cbv zeta.
  rewrite run_try, run_save by done. cbn [fst snd]. rewrite run_bind, run_audit. cbn [run fst snd mret prog_ret].
  intros [= <- <-]. exists p. rewrite clock_noted, clock_set, ring_noted, ring_same. unfold fresh, rollout_ok. cbn.
  split_and!; try done; [destruct (Z.leb_spec soak 0); [done|lia]|destruct (Z.leb_spec timeout 0); [done|lia]|].
  by apply sound_noted, sound_set.
Qed.

(** Only the world moves between two ticks, for [G] seconds at most. *)
Definition paced (G : Z) (f f' : fleet) : Prop := world f f' ∧ Unix (clock f) ≤ Unix (clock f') ≤ Unix (clock f) + G.

(** The rollout is over: promoted; or, with the version [v] still stable, halted for the
    administrator who started it, or reverted. *)
Definition settled (v : string) (x : settings) (r : Rollout) : Prop :=
  match State r with
  | RolloutDone => stable x = Target r ∧ canary x = "" ∧ canaryNodes x = []
  | RolloutHalted => stable x = v ∧ Trigger r = TriggerAdmin
  | RolloutAborted => stable x = v ∧ Trigger r = TriggerAuto ∧ canary x = "" ∧ canaryNodes x = []
  | RolloutActive | RolloutPaused => False
  end.

(** The longest a wave lasts. *)
Definition wave_span (G : Z) (r : Rollout) : Z := WaveTimeoutSeconds r + SoakSeconds r + 2 * G.

(** An active rollout, last ticked or entered at [t]. *)
Definition timely (G : Z) (r : Rollout) (t : Z) : Prop :=
  WaveEnteredUnix r ≤ t ∧ WaveEnteredUnix r ≤ CreatedUnix r + Z.of_nat (WaveIdx r) * wave_span G r ∧
  if HealthySince r =? 0 then t - WaveEnteredUnix r < WaveTimeoutSeconds r
  else HealthySince r ≤ WaveEnteredUnix r + WaveTimeoutSeconds r + G ∧ t - HealthySince r < SoakSeconds r.

(** What no tick changes. *)
Definition same_plan (r r' : Rollout) : Prop :=
  Target r' = Target r ∧ Waves r' = Waves r ∧ Trigger r' = Trigger r ∧ SoakSeconds r' = SoakSeconds r ∧
  WaveTimeoutSeconds r' = WaveTimeoutSeconds r ∧ CreatedUnix r' = CreatedUnix r.

Definition underway (G : Z) (v : string) (r0 : Rollout) (t : Z) (x : settings) : Prop :=
  ∃ r, rollout x = Some r ∧ same_plan r0 r ∧ rollout_ok r ∧
       (active r = true ∧ stable x = v ∧ timely G r t ∨ settled v x r).

Lemma settled_idle (v : string) (x : settings) (r : Rollout) : settled v x r → active r = false.
Proof. unfold settled, active. by destruct (State r). Qed.

(** One tick, at [t'], of an active rollout. *)
Lemma tick_progress (G : Z) (x : settings) (r r' : Rollout) (pct t t' : Z) (l : list blocker) (ms : list string) :
  active r = true → rollout_ok r → Waves r !! WaveIdx r = Some pct → 0 < t' → t ≤ t' ≤ t + G →
  0 < SoakSeconds r → 0 < WaveTimeoutSeconds r → timely G r t → r' = wave_next r pct t' l →
  same_plan r r' ∧ rollout_ok r' ∧
  (active r' = true ∧ stable (ring_next x r r' ms) = stable x ∧ timely G r' t' ∨ settled (stable x) (ring_next x r r' ms) r').
Proof.
  intros Ha Hok Ep Ht' Htt Hsk Hto (HE & HC & HH) ->. unfold active in Ha. apply bool_decide_eq_true in Ha as Es.
  unfold wave_next. destruct l as [|b l]; cbn.
  - destruct (Z.eqb_spec (HealthySince r) 0) as [E0|E0].
    { split_and!; [done..|]. left. unfold ring_next, timely, wave_span in *. cbn. rewrite Es. cbn.
      split_and!; [done..|lia|done|]. destruct (Z.eqb_spec t' 0); lia. }
    destruct (Z.ltb_spec (t' - HealthySince r) (SoakSeconds r)) as [Hlt|Hge].
    { split_and!; [done..|]. left. unfold ring_next, timely, wave_span in *. cbn. rewrite Es. cbn.
      split_and!; [done..|lia|done|]. destruct (Z.eqb_spec (HealthySince r) 0); [done|lia]. }
    destruct (Z.leb_spec 100 pct) as [H100|H100]; [split_and!; [done..|by right]|].
    destruct (advance_ok r (r <| Blockers := [] |> <| WaveIdx ::= S |> <| WaveEnteredUnix := t' |> <| HealthySince := 0 |>
      <| UpdatedUnix := t' |>) pct) as [Hok' _]; [done..|].
    split_and!; [done|exact Hok'|]. left.
    unfold ring_next, timely, wave_span in *. cbn. rewrite Es. cbn. split_and!; [done..|lia| |lia]. nia.
  - destruct (_ && _) eqn:Eto.
    { destruct (Trigger r) eqn:Etr; split_and!; try done; right; unfold settled, ring_next; cbn; done. }
    split_and!; [done..|]. left. unfold ring_next, timely, wave_span in *. cbn. rewrite Es. cbn.
    apply andb_false_iff in Eto. split_and!; [done..|lia|done|lia].
Qed.

Definition last_time (t0 : Z) (l : list fleet) : Z := if last l is Some g then Unix (clock g) else t0.

Lemma same_plan_trans (r r' r'' : Rollout) : same_plan r r' → same_plan r' r'' → same_plan r r''.
Proof. unfold same_plan. intros. destruct_and!. split_and!; congruence. Qed.

Lemma tick_underway (G : Z) (p : product) (v : string) (r0 : Rollout) (t : Z) (f : fleet) :
  sound f → 0 < SoakSeconds r0 → 0 < WaveTimeoutSeconds r0 → 0 < Unix (clock f) → t ≤ Unix (clock f) ≤ t + G →
  underway G v r0 t (ring p f) → underway G v r0 (Unix (clock f)) (ring p (ticked p f)).
Proof.
  intros Hf Hsk Hto Hpos Htt (r & Er & Hp & Hok & [(Ha & Hv & Htm)|Hs]).
  - destruct (lookup_lt_is_Some_2 (Waves r) (WaveIdx r)) as [pct Ep]; [by destruct Hok as (_ & _ & _ & ?)|].
    rewrite (tick_alone p f r pct) by done. destruct Hp as (? & ? & ? & ESk & ETo & ?).
    set (ms := waveMembers (Eligible r) pct). set (bs := blockers_of p f ms (Target r)).
    destruct (tick_progress G (ring p f) r (wave_next r pct (Unix (clock f)) bs) pct t (Unix (clock f)) bs ms)
      as (Hp' & Hok' & Hx); [done..|by rewrite ESk|by rewrite ETo|exact Htm|done|].
    eexists. split; [reflexivity|]. split; [by eapply same_plan_trans|]. split; [exact Hok'|]. by rewrite Hv in Hx.
  - rewrite tick_idle; [|done|rewrite Er; left; by eapply settled_idle]. exists r. by auto.
Qed.

Lemma ticking_underway (G : Z) (p : product) (v : string) (r0 : Rollout) (t0 : Z) (f0 : fleet) (l : list fleet) (f : fleet) :
  0 < SoakSeconds r0 → 0 < WaveTimeoutSeconds r0 → 0 < t0 →
  underway G v r0 t0 (ring p f0) → t0 ≤ Unix (clock f0) ≤ t0 + G → ticking (paced G) p f0 l f →
  underway G v r0 (last_time t0 l) (ring p f) ∧ t0 ≤ last_time t0 l ≤ Unix (clock f) ∧ Unix (clock f) ≤ last_time t0 l + G.
Proof.
  intros Hsk Hto Hpos H0 Hc. induction 1 as [Hf0|l f f' Ht (IH & Hl & HG) [Hw Hb] Hf'].
  { cbn. split; [exact H0|lia]. }
  assert (last_time t0 (l ++ [f]) = Unix (clock f)) as -> by (unfold last_time; by rewrite last_snoc).
  rewrite ticked_clock in Hb. rewrite (world_ring p _ _ Hw). split; [|lia].
  eapply tick_underway; [by eapply ticking_sound|done|done|lia| |exact IH]. lia.
Qed.

(** C8 (termination): a rollout that was started and is ticked, without store failures, at
    least every [G] seconds ends, however its nodes come, go and flap: by a tick at the time of its start plus,
    for each wave, the timeout, the soak and [2 G], it was promoted, or halted for an
    administrator, or reverted, and only the promotion changed the stable version. *)
Theorem rollout_settles (name target : string) (waves : list Z) (soak timeout : Z) (trigger : RolloutTrigger) (actor : string)
    (G : Z) (f f1 f0 g f' : fleet) (r : Rollout) (l : list fleet) :
  sound f → 0 < Unix (clock f) → run (startRollout name target waves soak timeout trigger actor) f = (Some r, f1) →
  paced G f1 f0 →
  ∃ p, product_of name = Some p ∧
    (ticking (paced G) p f0 (l ++ [g]) f' →
     CreatedUnix r + Z.of_nat (length (Waves r)) * (WaveTimeoutSeconds r + SoakSeconds r + 2 * G) ≤ Unix (clock g) →
     ∃ r', rollout (ring p f') = Some r' ∧ Target r' = target ∧ settled (stable (ring p f)) (ring p f') r').
Proof.
  intros Hf Hpos Hrun [Hw Hc].
  destruct (start_fresh _ _ _ _ _ _ _ _ _ _ Hf Hrun) as (p & Ep & HT & (Hok & Ha & Hi & Hh & HC & HE & Hsk & Hto) & Ec & _ & Er).
  exists p. split; [done|]. intros Ht Hlong.
  destruct (ticking_underway G p (stable (ring p f)) r (Unix (clock f)) f0 (l ++ [g]) f') as [(r' & Er' & Hp & Hok' & Hx) _];
    [done..| |by rewrite Ec in Hc|exact Ht|].
  { rewrite (world_ring p _ _ Hw), Er. eexists. split; [reflexivity|]. split_and!; [done..|]. left. split_and!; [done..|].
    unfold timely. cbn. rewrite Hi, Hh, HE, HC. cbn. lia. }
  exists r'. split; [done|]. destruct Hp as (HT' & EW & _ & ESk & ETo & ECr). split; [congruence|].
  destruct Hx as [(_ & _ & (_ & HE' & HH))|Hs]; [|done]. exfalso.
  unfold last_time in HH. rewrite last_snoc in HH. destruct Hok' as (_ & _ & _ & Hlt). rewrite EW in Hlt.
  unfold wave_span in HE'. rewrite ESk, ETo, ECr in *.
  destruct (HealthySince r' =? 0); nia.
Qed.

(** With no product named the manifest is looked up under no name, and no artifact is
    published under it: the default product cannot be rolled out. *)
Lemma default_product_refused (target : string) (waves : list Z) (soak timeout : Z) (trigger : RolloutTrigger) (actor : string) (f : fleet) :
  sound f → ("", target) ∉ manifests f → (run (startRollout "" target waves soak timeout trigger actor) f).1 = None.
Proof.
  intros Hf Hm. unfold startRollout, loadRollout. replace (product_of "") with (Some Agent) by done. case_bool_decide; [done|].
  rewrite run_bind, tick_run_view by done. cbn [fst snd]. destruct (match rollout _ with Some r => _ | None => _ end); [done|].
  rewrite run_try, tick_run_view by done. cbn [fst snd]. case_bool_decide; [done|].
  rewrite run_bind, tick_run_view by done. cbn [fst snd]. by rewrite bool_decide_false.
Qed.

(** A tick fails no read and no write of its own. *)
Definition keeps_sound (f f' : fleet) : Prop := sound f → sound f'.

#[local] Instance keeps_sound_refl : Reflexive keeps_sound.
Proof. by intros f Hf. Qed.

Lemma ticked_sound (p : product) (f : fleet) : sound f → sound (ticked p f).
Proof.
  assert (∀ (A : Type) (g : fleet → A), acts keeps_sound (view g)) as Hview.
  { intros A g. apply acts_atomic. intros f' [Hr Hw]. by rewrite Hr. }
  assert (∀ q g, acts keeps_sound (put q g)) as Hput.
  { intros q g. apply acts_atomic. intros f' [Hr Hw]. rewrite Hw. by apply sound_set. }
  assert (∀ e, acts keeps_sound (audit e)) as Haudit by (intros e; apply acts_atomic; intros f0 Hf0; exact Hf0).
  assert (acts keeps_sound (rolloutTick p)) as Ha.
  { unfold rolloutTick, tick_wave, finalizeRollout, failWave, revertRing, saveRollout, loadRollout,
      setCanaryNodes, setCanaryVersion, setStableVersion, canaryBlockers, now. acting. }
  apply (run_acts _ _ f) in Ha. unfold ticked. induction Ha as [|? ? ? Hs _ IH]; [done|]. intros Hf. by apply IH, Hs.
Qed.

(** ** Witnesses *)

Module TickingFixture.

Import RolloutFixture.

(** Ticks of the agents' rollout, at the times given, while every node runs the target. *)
Definition later (f : fleet) (t : Z) : fleet := all_on "v2" t (ticked Agent f).

Fixpoint rounds (l : list fleet) (f : fleet) (ts : list Z) : list fleet * fleet :=
  match ts with [] => (l, f) | t :: ts => rounds (l ++ [f]) (later f t) ts end.

Fixpoint gaps (G t0 : Z) (ts : list Z) : bool :=
  match ts with [] => true | t :: ts => (t0 <=? t) && (t <=? t0 + G) && gaps G t ts end.

Lemma later_sound (f : fleet) (t : Z) : sound f → sound (later f t).
Proof. apply (ticked_sound Agent f). Qed.

Lemma later_clock (f : fleet) (t : Z) : Unix (clock (later f t)) = t.
Proof. unfold later, all_on, Unix. cbn. apply Z.div_mul. done. Qed.

Lemma rounds_paced (G : Z) (f0 f : fleet) (l : list fleet) (ts : list Z) :
  ticking (paced G) Agent f0 l f → gaps G (Unix (clock f)) ts = true →
  ticking (paced G) Agent f0 (rounds l f ts).1 (rounds l f ts).2.
Proof.
  revert l f. induction ts as [|t ts IH]; intros l f Ht Hg; [done|]. cbn in *.
  apply andb_true_iff in Hg as [[Hlo Hhi]%andb_true_iff Hg]. apply IH; [|by rewrite later_clock].
  apply ticking_next; [done| |by eapply later_sound, ticking_sound].
  split; [apply world_all_on|]. rewrite later_clock, ticked_clock. lia.
Qed.

Lemma administered_world (f f' : fleet) : world f f' → administered f f'.
Proof.
  intros Hw. apply rtc_once. exists (Pause "" ""). eexists. split; [done|]. apply rtc_once. by apply pstep_env.
Qed.

Lemma rounds_administered (f0 f : fleet) (l : list fleet) (ts : list Z) :
  ticking administered Agent f0 l f → ticking administered Agent f0 (rounds l f ts).1 (rounds l f ts).2.
Proof.
  revert l f. induction ts as [|t ts IH]; intros l f Ht; [done|]. cbn. apply IH.
  apply ticking_next; [done|apply administered_world, world_all_on|by eapply later_sound, ticking_sound].
Qed.

Definition first : fleet := Eval vm_compute in all_on "v2" 1010 begun.

(** The second wave is entered at 1040, healthy since 1055, and promoted at 1085. *)
Definition promoting : list fleet * fleet := Eval vm_compute in rounds [start] first [1025; 1040; 1055; 1070; 1085].

Definition ending : list fleet * fleet := Eval vm_compute in rounds [] first ((λ i, 1110 + 100 * i) <$> seqZ 0 11).

End TickingFixture.

Import RolloutFixture TickingFixture.

Lemma promoted_after_soak_witness :
  stable (ring Agent (ticked Agent promoting.2)) = "v2" ∧
  ∃ r l1 g l2,
    rollout (ring Agent promoting.2) = Some r ∧ promoting.1 = l1 ++ g :: l2 ∧
    SoakSeconds r ≤ Unix (clock promoting.2) - Unix (clock g) ∧
    Forall (λ h, Forall (runs Agent h (Target r)) (Eligible r)) (g :: l2 ++ [promoting.2]).
Proof.
  split; [by vm_compute|].
  destruct (promoted_after_soak Agent start promoting.1 promoting.2) as (r & l1 & g & l2 & Hr & _ & Hl & Hs & Hf).
  - done.
  - replace promoting with (rounds [start] first [1025; 1040; 1055; 1070; 1085]) by (by vm_compute).
    apply rounds_administered. apply (ticking_next _ _ _ [] start); [by apply ticking_start| |done].
    replace (ticked Agent start) with start by (by vm_compute).
    assert (administered start begun) as Hb.
    { apply rtc_once. exists (Start "geneza-agent" "v2" [25; 100] 30 300 "alice"). eexists. split; [done|].
      replace begun with (act (Start "geneza-agent" "v2" [25; 100] 30 300 "alice") start) by (by vm_compute).
      apply (run_pstep world). }
    transitivity begun; [exact Hb|]. apply administered_world, (world_all_on "v2" 1010).
  - by vm_compute.
  - exists r, l1, g, l2. done.
Defined.

Lemma rollout_settles_witness :
  let f' := later ending.2 2210 in
  ∃ r', rollout (ring Agent f') = Some r' ∧ Target r' = "v2" ∧ settled "v1" (ring Agent f') r'.
Proof.
  assert (sound start) as Hs by done. assert (0 < Unix (clock start)) as Hpos by by vm_compute.
  assert (paced 100 begun first) as Hp by by split; [apply (world_all_on "v2" 1010)|vm_compute].
  assert (ticking (paced 100) Agent first (ending.1 ++ [ending.2]) (later ending.2 2210)) as Ht.
  { apply ticking_next; [|by split; [apply world_all_on|vm_compute]|by apply later_sound].
    replace ending with (rounds [] first ((λ i, 1110 + 100 * i) <$> seqZ 0 11)) by (by vm_compute).
    apply rounds_paced; [by apply ticking_start|by vm_compute]. }
  edestruct (rollout_settles "geneza-agent" "v2" [25; 100] 30 300 TriggerAdmin "alice" 100 start begun first ending.2
    (later ending.2 2210)) as (p & Hn & Hend); [exact Hs|exact Hpos|vm_compute; reflexivity|exact Hp|].
  injection Hn as <-. apply (Hend Ht). by vm_compute.
Defined.
