(* ===== verification/Relay.v ===== *)
(** * The relay (relay/relay.go, funnelproxy.go, funnel.go)

    Two ends of a session dial a relay, present a token each and are spliced; an agent's
    control connection is forwarded to a controller by name; a public connection is
    spliced to the agent that registered its hostname.  The relay parses one frame of a
    connection and copies the rest.

    A connection is what its remote end sent, how much of it was read, and what was
    written to it.  Every goroutine is a value that says where it is, timers and their
    callbacks are values of the state, and [act] is one step: a region under a lock, an
    access to an atomic, a read or a write of a connection with the outcome the step
    names.  Deadlines are failures of a read or a write that may come at any time.
    [links] is a history variable: whom each spliced connection was spliced to. *)
From Stdlib Require Import ZArith Lia Strings.Byte Strings.Ascii.
From stdpp Require Import base gmap sets list strings relations.
From S2P Require Import Prelude Wire Trust Proc Codec.
Local Open Scope Z_scope.

(** ** The hello frame (wire/frame.go) *)

Record RelayHello := mkRelayHello {
  V : Z; Token : string; Role : string; Kind : string; ControllerID : string; Host : string; RegToken : string }.

Record RelayResp := mkRelayResp { OK : bool; Error : string }.
Record FunnelDial := mkFunnelDial { fd_Token : string }.

Definition RoleInitiator : string := "i".
Definition RoleResponder : string := "r".
Definition RelayKindControl : string := "control".
Definition RelayKindFunnelReg : string := "funnel-reg".
Definition RelayKindFunnelData : string := "funnel-data".

Definition tokenPrefixStr : string := "gz-".
Definition tokenMinHex : nat := 16.
Definition tokenMaxHex : nat := 64.

Definition is_lower_hex (c : ascii) : bool := in_range 48 57 c || in_range 97 102 c.

Fixpoint all_chars (p : ascii → bool) (s : string) : bool :=
  match s with EmptyString => true | String c s => p c && all_chars p s end.

Definition validControllerID (id : string) : bool :=
  negb ((String.length id =? 0)%nat || (128 <? String.length id)%nat) &&
  all_chars (λ c, in_range 97 122 c || in_range 65 90 c || in_range 48 57 c ||
                  Ascii.eqb c "-" || Ascii.eqb c "." || Ascii.eqb c "_") id.

(** The error of [validateHello], if any. *)
Definition validateHello (h : RelayHello) : option string :=
  if negb (V h =? 1) then Some "unsupported hello version"
  else if bool_decide (Kind h = RelayKindControl) then
    if bool_decide (Token h ≠ "") || bool_decide (Role h ≠ "") then Some "control hello must not carry a token or role"
    else if negb (validControllerID (ControllerID h)) then Some "invalid controller id"
    else None
  else if bool_decide (Kind h = RelayKindFunnelReg) then
    if bool_decide (Host h = "") then Some "funnel registration requires a host"
    else if (253 <? String.length (Host h))%nat then Some "funnel host too long"
    else None
  else if bool_decide (Kind h = RelayKindFunnelData) then
    if negb (has_prefix (Token h) "fz-") || (String.length (Token h) <? 8)%nat || (128 <? String.length (Token h))%nat
    then Some "funnel data requires a valid token"
    else None
  else if bool_decide (Kind h ≠ "") then Some "unknown hello kind"
  else if bool_decide (Role h ≠ RoleInitiator) && bool_decide (Role h ≠ RoleResponder) then Some "invalid role"
  else
    match cut_prefix (Token h) tokenPrefixStr with
    | None => Some "invalid token"
    | Some body =>
        if (String.length body <? tokenMinHex)%nat || (tokenMaxHex <? String.length body)%nat then Some "invalid token length"
        else if negb (all_chars is_lower_hex body) then Some "invalid token charset"
        else None
    end.

(** ** Addresses *)

(** An address of 4 or 16 bytes; the first form of a 16-byte one that maps an IPv4. *)
Definition To4 (ip : bytes) : option bytes :=
  if (length ip =? 4)%nat then Some ip
  else if (length ip =? 16)%nat && bool_decide (take 10 ip = replicate 10 x00) && bool_decide (take 2 (drop 10 ip) = [xff; xff])
  then Some (drop 12 ip) else None.

Definition byte_at (ip : bytes) (i : nat) : Z := default (-1) (Z_of_byte <$> ip !! i).

Definition IsLoopback (ip : bytes) : bool :=
  match To4 ip with
  | Some ip4 => byte_at ip4 0 =? 127
  | None => bool_decide (ip = replicate 15 x00 ++ [x01])
  end.

Definition IsLinkLocalUnicast (ip : bytes) : bool :=
  match To4 ip with
  | Some ip4 => (byte_at ip4 0 =? 169) && (byte_at ip4 1 =? 254)
  | None => (length ip =? 16)%nat && (byte_at ip 0 =? 254) && (Z.land (byte_at ip 1) 192 =? 128)
  end.

Definition IsLinkLocalMulticast (ip : bytes) : bool :=
  match To4 ip with
  | Some ip4 => (byte_at ip4 0 =? 224) && (byte_at ip4 1 =? 0) && (byte_at ip4 2 =? 0)
  | None => (length ip =? 16)%nat && (byte_at ip 0 =? 255) && (Z.land (byte_at ip 1) 15 =? 2)
  end.

Definition IsMulticast (ip : bytes) : bool :=
  match To4 ip with
  | Some ip4 => Z.land (byte_at ip4 0) 240 =? 224
  | None => (length ip =? 16)%nat && (byte_at ip 0 =? 255)
  end.

Definition IsUnspecified (ip : bytes) : bool :=
  match To4 ip with
  | Some ip4 => bool_decide (ip4 = replicate 4 x00)
  | None => bool_decide (ip = replicate 16 x00)
  end.

Definition unsafeIP (ip : bytes) : bool :=
  IsLoopback ip || IsLinkLocalUnicast ip || IsLinkLocalMulticast ip || IsMulticast ip || IsUnspecified ip.

(** [net.ParseIP] and [net.LookupIP]; [host] is a resolver's answer at the time. *)
Definition safeDialTarget (ParseIP : string → option bytes) (LookupIP : string → option (list bytes)) (addr : string)
    : option (bytes * string) :=
  match SplitHostPort addr with
  | None => None
  | Some (host, port) =>
      if bool_decide (host = "") then None
      else
        match ParseIP host with
        | Some ip => if unsafeIP ip then None else Some (ip, port)
        | None =>
            match LookupIP host with
            | Some (ip :: l) => if existsb unsafeIP (ip :: l) then None else Some (ip, port)
            | _ => None
            end
        end
  end.

(** ** Connections *)

Abbreviation id := nat.

Record conn := mkConn { sent : bytes; taken : nat; got : bytes; shut : bool }.

#[export] Instance eta_conn : Eta conn := λ c, mkConn (sent c) (taken c) (got c) (shut c).

Definition fresh_conn : conn := mkConn [] 0 [] false.

(** What arrived and was not read. *)
Definition unread (c : conn) : bytes := drop (taken c) (sent c).

(** The outcome of an operation: so many bytes, a failure, a server name, a token, a new
    connection. *)
Inductive io : Type :=
| Data (n : nat)
| Fail
| Named (host : string)
| Minted (token : string)
| Dialed (c : id).

(** [Read] of at most [max] bytes. *)
Definition read_conn (max : nat) (n : nat) (c : conn) : option (bytes * conn) :=
  if negb (shut c) && (0 <? n)%nat && (n <=? max)%nat && (n <=? length (unread c))%nat
  then Some (take n (unread c), c <| taken ::= λ k, (k + n)%nat |>) else None.

(** [Write] of [p] that takes [n] bytes: all of them, or it fails. *)
Definition write_conn (n : nat) (p : bytes) (c : conn) : bool * conn :=
  if shut c then (false, c) else ((length p <=? n)%nat, c <| got ::= λ l, l ++ take n p |>).

(** ** State *)

Record config := mkConfig {
  MatchTTL : Z; MaxPending : Z; MaxControlMux : Z; ControlMux : bool }.

Definition funnelDialBackTTL : Z := 15 * second.
Definition copyBufSize : nat := Z.to_nat 32768.

Record slot := mkSlot { s_conn : id; s_role : string; s_since : Z }.

(** A direction of [pump]: reading the source, writing what was read, about to close
    both, over. *)
Inductive half : Type := Reading | Writing (buf : bytes) | Closing | Finished.

(** Where the goroutine of a connection is. *)
Inductive pc : Type :=
| Hello
| Rejecting (msg : string)
| Gate (h : RelayHello)
| Rendezvous (h : RelayHello)
| Confirm (a b w : id) (second : bool)
| Starting (a b : id) (deferred : list id)
| Pumping (a b : id) (deferred : list id) (ab ba : half)
| MuxRoute (controllerID : string)
| MuxLookup (controllerID : string)
| MuxAdmit (addrs : list string)
| MuxDial (addrs : list string)
| MuxJoin (gw : id)
| MuxAck (gw : id)
| FunnelTake (token : string)
| FunnelAck (p : id)
| FunnelTrack (p : id)
| RegAuth (host token : string)
| RegAdmit (host : string)
| RegSet (host : string)
| RegAck (host : string)
| RegHold (host : string)
| RegEnd (host : string)
| RegUntrack
| PubHandshake
| PubGate (host : string)
| PubFind (host : string)
| PubPark (host token : string) (reg : id)
| PubSignal (host token : string) (reg : id)
| PubDrop (host token : string) (reg : id)
| PubDel (host : string) (reg : id)
| Leaving (deferred : list id)
| Gone.

Inductive timer : Type :=
| ExpireSlot (token : string) (c : id)
| ForgetToken (token : string)
| ReapParked (token : string).

#[export] Instance timer_eq_dec : EqDecision timer.
Proof. solve_decision. Defined.

(** A timer that fired, and a connection a callback is about to close. *)
Inductive callback : Type := Fired (t : timer) | CloseConn (c : id).

(** Where [Shutdown] is. *)
Inductive stop_pc : Type := Up | StopListeners | StopFunnel | Draining | Forcing | Forced | Stopped.

#[export] Instance stop_pc_eq_dec : EqDecision stop_pc.
Proof. solve_decision. Defined.

Inductive event : Type :=
| Matched (token : string) (initiator responder : id) (at_ : Z)
| DialedController (controllerAddr : string) (target : bytes * string).

(** Whom a connection is spliced to: bytes of [mate] from [from] on follow [greeting]. *)
Record link := mkLink { mate : id; from : nat; greeting : bytes }.

Record relay := mkRelay {
  socks : gmap id conn; conns : gset id; muxConns : gset id;
  pending : gmap string slot; used : gset string; closed : bool; draining : bool; active : Z;
  regs : gmap string id; parked : gmap string id; certs : option (gmap string string);
  gwNodeControl : gmap string (list string); resolver : string → option (list bytes);
  threads : gmap id pc; timers : list (Z * timer); callbacks : list callback; stop : stop_pc;
  now : Z; log : list event; links : gmap id link }.

#[export] Instance eta_relay : Eta relay := λ r,
  mkRelay (socks r) (conns r) (muxConns r) (pending r) (used r) (closed r) (draining r) (active r) (regs r) (parked r)
    (certs r) (gwNodeControl r) (resolver r) (threads r) (timers r) (callbacks r) (stop r) (now r) (log r) (links r).

Definition goto (c : id) (p : pc) (r : relay) : relay := r <| threads ::= <[c := p]> |>.
Definition close_conn (c : id) (r : relay) : relay := r <| socks ::= alter (λ k, k <| shut := true |>) c |>.
Definition close_all (l : list id) (r : relay) : relay := foldr close_conn r l.
Definition set_conn (c : id) (k : conn) (r : relay) : relay := r <| socks ::= <[c := k]> |>.
Definition untrack (c : id) (r : relay) : relay := r <| conns ::= λ s, s ∖ {[c]} |> <| muxConns ::= λ s, s ∖ {[c]} |>.
Definition after (d : Z) (t : timer) (r : relay) : relay := r <| timers ::= λ l, (now r + d, t) :: l |>.
Definition stop_timer (t : timer) (r : relay) : relay := r <| timers ::= filter (λ x, x.2 ≠ t) |>.

Definition del (host : string) (reg : id) (r : relay) : relay :=
  if bool_decide (regs r !! host = Some reg) then r <| regs ::= delete host |> else r.

Definition splice (a b : id) (fa fb : nat) (ga gb : bytes) (r : relay) : relay :=
  r <| links ::= λ m, <[a := mkLink b fb ga]> (<[b := mkLink a fa gb]> m) |>.

(** ** Frames on a connection *)

Definition encode {A : Type} `{JSONEncode A} (v : A) : option bytes :=
  match Marshal v with Some b => if MaxFrame <? blen b then None else Some (frame b) | None => None end.

Definition write_json {A : Type} `{JSONEncode A} (n : nat) (v : A) (c : conn) : bool * conn :=
  match encode v with Some p => write_conn n p c | None => (false, c) end.

(** [wire.ReadJSON] of the hello: no outcome while the frame is not all there. *)
Definition read_hello `{JSONDecode RelayHello} (c : conn) : option (result json_frame_err RelayHello * conn) :=
  if shut c then None
  else
    match ReadJSON Unmarshal (mkReader (unread c) (ErrTransport 0)) with
    | (Err (JSONFrame (FrameIO _)), _) => None
    | (res, rd) => Some (res, c <| taken := (length (sent c) - length (rd_buf rd))%nat |>)
    end.

(** ** The funnel registry (funnel.go) *)

Definition authorizeReg (m : gmap string string) (host token : string) : bool :=
  match m !! host with Some t => bool_decide (t ≠ "") && bool_decide (t = token) | None => false end.

Definition canonical (host : string) : string :=
  lower_string (match split_last "."%char host with Some (x, EmptyString) => x | _ => host end).

(** ** Goroutines *)

Section Relay.
Context (cf : config) (ParseIP : string → option bytes).
Context `{JSONDecode RelayHello, JSONEncode RelayResp, JSONEncode FunnelDial}.

Definition ok_resp : RelayResp := mkRelayResp true "".
Definition ok_frame : bytes := default [] (encode ok_resp).

Definition taken_of (c : id) (r : relay) : nat := default 0%nat (taken <$> socks r !! c).

(** The critical section of [handleConn]: reject, match or park. *)
Definition rendezvous (c : id) (h : RelayHello) (r : relay) : relay :=
  if closed r then goto c (Rejecting "relay shutting down") r
  else if bool_decide (Token h ∈ used r) then goto c (Rejecting "token already used") r
  else
    match pending r !! Token h with
    | Some s =>
        if bool_decide (s_role s = Role h) then goto c (Rejecting "endpoint with this role already waiting") r
        else
          let w := s_conn s in
          let '(i, p) := if bool_decide (Role h = RoleInitiator) then (c, w) else (w, c) in
          let r := stop_timer (ExpireSlot (Token h) w) (r <| pending ::= delete (Token h) |>) in
          let r := after (MatchTTL cf) (ForgetToken (Token h)) (r <| used ::= λ u, {[Token h]} ∪ u |>) in
          let r := r <| conns ::= λ s, {[w]} ∪ s |> <| log ::= λ l, l ++ [Matched (Token h) i p (now r)] |> in
          goto c (Confirm i p w false) (splice i p (taken_of i r) (taken_of p r) ok_frame ok_frame r)
    | None =>
        if MaxPending cf <=? Z.of_nat (base.size (pending r)) then goto c (Rejecting "relay busy") r
        else
          goto c (Leaving [c])
            (after (MatchTTL cf) (ExpireSlot (Token h) c) (r <| pending ::= <[Token h := mkSlot c (Role h) (now r)]> |>))
    end.

(** After the hello. *)
Definition dispatch (c : id) (h : RelayHello) (r : relay) : relay :=
  if bool_decide (Kind h = RelayKindFunnelData) then goto c (FunnelTake (Token h)) r
  else if draining r then goto c (Rejecting "relay draining") r
  else if bool_decide (Kind h = RelayKindControl) then goto c (MuxRoute (ControllerID h)) r
  else if bool_decide (Kind h = RelayKindFunnelReg) then goto c (RegAuth (Host h) (RegToken h)) r
  else goto c (Rendezvous h) r.

(** One iteration's half of [copyHalf], from [src] to [dst]. *)
Definition half_step (a b src dst : id) (x : io) (h : half) (r : relay) : option (half * relay) :=
  match h, x with
  | Reading, Data n =>
      k ← socks r !! src;
      match read_conn copyBufSize n k with
      | Some (buf, k) => Some (Writing buf, set_conn src k r)
      | None => None
      end
  | Reading, Fail => Some (Closing, r)
  | Writing buf, Data n =>
      k ← socks r !! dst;
      let '(ok, k) := write_conn n buf k in
      Some (if ok then Reading else Closing, set_conn dst k r)
  | Closing, _ => Some (Finished, close_all [a; b] r)
  | _, _ => None
  end.

Definition mux_full (r : relay) : bool := 2 * MaxControlMux cf <=? Z.of_nat (base.size (muxConns r)).

(** A write of the [RelayResp] to [t] by the goroutine of [c]. *)
Definition respond (c t : id) (n : nat) (v : RelayResp) (good bad : relay → relay) (r : relay) : option relay :=
  k ← socks r !! t;
  let '(ok, k) := write_json n v k in
  Some ((if ok then good else bad) (set_conn t k r)).

(** A goroutine in [handleControlMux], [dialControllerControl] or [spliceControl]. *)
Definition mux_step (c : id) (p : pc) (x : io) (r : relay) : option relay :=
  match p, x with
  | MuxRoute gid, Data _ =>
      Some (goto c (if ControlMux cf && bool_decide (gwNodeControl r ≠ ∅) then MuxLookup gid
                    else Rejecting "control mux unavailable") r)
  | MuxLookup gid, Data _ =>
      Some (goto c (match gwNodeControl r !! gid with
                    | Some (a :: l) => MuxAdmit (a :: l)
                    | _ => Rejecting "unknown controller"
                    end) r)
  | MuxAdmit addrs, Data _ =>
      Some (if closed r then goto c (Rejecting "relay shutting down") r
            else if mux_full r then goto c (Rejecting "relay at control-mux capacity") r
            else goto c (MuxDial addrs) (r <| conns ::= λ s, s ∖ {[c]} |> <| muxConns ::= λ s, {[c]} ∪ s |>))
  | MuxDial [], _ => Some (goto c (Rejecting "controller unreachable") r)
  | MuxDial (a :: l), Fail => Some (goto c (MuxDial l) r)
  | MuxDial (a :: l), Dialed g =>
      match safeDialTarget ParseIP (resolver r) a, socks r !! g with
      | Some t, None =>
          Some (goto c (MuxJoin g) (set_conn g fresh_conn (r <| log ::= λ l, l ++ [DialedController a t] |>)))
      | _, _ => None
      end
  | MuxJoin g, Data _ =>
      Some (if closed r then goto c (Rejecting "relay shutting down") (close_conn g r)
            else goto c (MuxAck g) (splice c g (taken_of c r) (taken_of g r) ok_frame [] (r <| muxConns ::= λ s, {[g]} ∪ s |>)))
  | MuxAck g, Data n =>
      respond c c n ok_resp (goto c (Starting c g [g; c])) (λ r, goto c (Leaving [g; c]) (close_all [c; g] r)) r
  | _, _ => None
  end.

(** In [handleFunnelData]. *)
Definition funnel_data_step (c : id) (p : pc) (x : io) (r : relay) : option relay :=
  match p, x with
  | FunnelTake token, Data _ =>
      Some (match parked r !! token with
            | None => goto c (Rejecting "funnel token unknown or expired") r
            | Some p =>
                goto c (FunnelAck p) (splice p c (taken_of p r) (taken_of c r) [] ok_frame (r <| parked ::= delete token |>))
            end)
  | FunnelAck p, Data n =>
      respond c c n ok_resp (goto c (FunnelTrack p)) (λ r, goto c (Leaving [c]) (close_all [p; c] r)) r
  | FunnelTrack p, Data _ =>
      Some (if closed r then goto c (Leaving [c]) (close_all [p; c] r)
            else goto c (Starting p c [p; c; c]) (r <| conns ::= λ s, {[c; p]} ∪ s |>))
  | _, _ => None
  end.

(** In [handleFunnelReg]. *)
Definition funnel_reg_step (c : id) (p : pc) (x : io) (r : relay) : option relay :=
  match p, x with
  | RegAuth host token, Data _ =>
      Some (goto c (match certs r with
                    | None => Rejecting "funnel not enabled on this relay"
                    | Some m => if authorizeReg m (canonical host) token then RegAdmit (canonical host)
                                else Rejecting "funnel registration not authorized"
                    end) r)
  | RegAdmit host, Data _ =>
      Some (if closed r then goto c (Rejecting "relay shutting down") r
            else if mux_full r then goto c (Rejecting "relay funnel capacity reached") r
            else goto c (RegSet host) (r <| muxConns ::= λ s, {[c]} ∪ s |>))
  | RegSet host, Data _ => Some (goto c (RegAck host) (r <| regs ::= <[host := c]> |>))
  | RegAck host, Data n => respond c c n ok_resp (goto c (RegHold host)) (goto c (RegEnd host)) r
  | RegHold host, Data n =>
      k ← socks r !! c;
      '(_, k) ← read_conn 256 n k;
      Some (set_conn c k r)
  | RegHold host, Fail => Some (goto c (RegEnd host) r)
  | RegEnd host, Data _ => Some (goto c RegUntrack (del host c r))
  | RegUntrack, Data _ => Some (goto c (Leaving [c]) (close_conn c (r <| muxConns ::= λ s, s ∖ {[c]} |>)))
  | _, _ => None
  end.

(** In [serveFunnelPublic]. *)
Definition funnel_public_step (c : id) (p : pc) (x : io) (r : relay) : option relay :=
  match p, x with
  | PubHandshake, Named host => Some (goto c (PubGate (canonical host)) r)
  | PubHandshake, Fail => Some (goto c Gone (close_conn c r))
  | PubGate host, Data _ => Some (if draining r then goto c Gone (close_conn c r) else goto c (PubFind host) r)
  | PubFind host, Minted token =>
      Some (match regs r !! host with
            | None => goto c Gone (close_conn c r)
            | Some reg => goto c (PubPark host token reg) r
            end)
  | PubPark host token reg, Data _ =>
      Some (if MaxPending cf <=? Z.of_nat (base.size (parked r)) then goto c Gone (close_conn c r)
            else goto c (PubSignal host token reg)
                   (after funnelDialBackTTL (ReapParked token) (r <| parked ::= <[token := c]> |>)))
  | PubSignal host token reg, Data n =>
      k ← socks r !! reg;
      let '(ok, k) := write_json n (mkFunnelDial token) k in
      Some (goto c (if ok then Gone else PubDrop host token reg) (set_conn reg k r))
  | PubDrop host token reg, Data _ =>
      let r := stop_timer (ReapParked token) r in
      Some (goto c (PubDel host reg)
              (match parked r !! token with
               | Some p => close_conn p (r <| parked ::= delete token |>)
               | None => r
               end))
  | PubDel host reg, Data _ => Some (goto c Gone (del host reg r))
  | _, _ => None
  end.

(** One step of the goroutine of [c]; [ab] picks a direction of [pump]. *)
Definition thread_step (c : id) (ab : bool) (x : io) (r : relay) : option relay :=
  p ← threads r !! c;
  match p, x with
  | Hello, Fail => Some (goto c (Rejecting "bad hello") r)
  | Hello, Data _ =>
      k ← socks r !! c;
      match read_hello k with
      | Some (Ok h, k) =>
          Some (goto c (match validateHello h with Some e => Rejecting e | None => Gate h end) (set_conn c k r))
      | Some (Err _, k) => Some (goto c (Rejecting "bad hello") (set_conn c k r))
      | None => None
      end
  | Rejecting msg, Data n =>
      let fin r := goto c (Leaving [c]) (close_conn c r) in respond c c n (mkRelayResp false msg) fin fin r
  | Gate h, Data _ => Some (dispatch c h r)
  | Rendezvous h, Data _ => Some (rendezvous c h r)
  | Confirm a b w second, Data n =>
      respond c (if second then b else a) n ok_resp
        (goto c (if second then Starting a b [w; c] else Confirm a b w true))
        (λ r, goto c (Leaving [w; c]) (close_all [a; b] r)) r
  | Starting a b l, Data _ => Some (goto c (Pumping a b l Reading Reading) (r <| active ::= λ n, n + 1 |>))
  | Pumping a b l Finished Finished, Data _ => Some (goto c (Leaving l) (r <| active ::= λ n, n - 1 |>))
  | Pumping a b l h1 h2, _ =>
      if ab then '(h, r) ← half_step a b a b x h1 r; Some (goto c (Pumping a b l h h2) r)
      else '(h, r) ← half_step a b b a x h2 r; Some (goto c (Pumping a b l h1 h) r)
  | Leaving (t :: l), Data _ => Some (goto c (Leaving l) (untrack t r))
  | Leaving [], Data _ => Some (goto c Gone r)
  | (MuxRoute _ | MuxLookup _ | MuxAdmit _ | MuxDial _ | MuxJoin _ | MuxAck _), _ => mux_step c p x r
  | (FunnelTake _ | FunnelAck _ | FunnelTrack _), _ => funnel_data_step c p x r
  | (RegAuth _ _ | RegAdmit _ | RegSet _ | RegAck _ | RegHold _ | RegEnd _ | RegUntrack), _ => funnel_reg_step c p x r
  | (PubHandshake | PubGate _ | PubFind _ | PubPark _ _ _ | PubSignal _ _ _ | PubDrop _ _ _ | PubDel _ _), _ => funnel_public_step c p x r
  | _, _ => None
  end.

(** ** Timers *)

Definition run_callback (cb : callback) (r : relay) : relay * list callback :=
  match cb with
  | Fired (ExpireSlot token c) =>
      if bool_decide (s_conn <$> pending r !! token = Some c) then (r <| pending ::= delete token |>, [CloseConn c]) else (r, [])
  | Fired (ForgetToken token) => (r <| used ::= λ u, u ∖ {[token]} |>, [])
  | Fired (ReapParked token) =>
      match parked r !! token with Some p => (r <| parked ::= delete token |>, [CloseConn p]) | None => (r, []) end
  | CloseConn c => (close_conn c r, [])
  end.

(** ** Serve, Drain and Shutdown *)

Definition maxConns : Z := let n := MaxPending cf * 16 in if n <=? 0 then 16384 else n.

(** One turn of [Serve]; the wait group counts the goroutine from here on. *)
Definition accept (c : id) (r : relay) : relay :=
  let r := set_conn c fresh_conn r in
  if closed r then close_conn c r
  else if maxConns <=? Z.of_nat (base.size (conns r)) then close_conn c r
  else goto c Hello (r <| conns ::= λ s, {[c]} ∪ s |>).

Definition is_gone (p : pc) : bool := match p with Gone => true | _ => false end.

(** [wg.Wait] returned. *)
Definition drained (r : relay) : bool := bool_decide (map_Forall (λ _ p, is_gone p = true) (threads r)).

Definition shutdown_step (forced : bool) (r : relay) : option relay :=
  match stop r with
  | Up =>
      let slots := map_to_list (pending r) in
      let r := foldr (λ x, stop_timer (ExpireSlot x.1 (s_conn x.2))) r slots in
      Some (close_all (s_conn <$> slots.*2) (r <| closed := true |> <| pending := ∅ |> <| stop := StopListeners |>))
  | StopListeners => Some (r <| stop := StopFunnel |>)
  | StopFunnel =>
      Some (close_all ((map_to_list (parked r)).*2) (r <| parked := ∅ |> <| stop := Draining |>))
  | Draining => if drained r then Some (r <| stop := Stopped |>) else if forced then Some (r <| stop := Forcing |>) else None
  | Forcing => Some (close_all (elements (conns r ∪ muxConns r)) (r <| stop := Forced |>))
  | Forced => if drained r then Some (r <| stop := Stopped |>) else None
  | Stopped => None
  end.

(** ** Steps *)

Inductive action : Type :=
| Accept (c : id)
| AcceptPublic (c : id)
| Sends (c : id) (bs : bytes)
| Step (c : id) (ab : bool) (x : io)
| FireTimer (i : nat)
| Callback (i : nat)
| Drain
| ShutdownStep (forced : bool)
| Elapse (d : Z)
| SetControllers (m : gmap string (list string))
| SetCerts (m : gmap string string)
| Resolve (f : string → option (list bytes)).

Definition act (a : action) (r : relay) : option relay :=
  match a with
  | Accept c =>
      if bool_decide (socks r !! c = None) && (bool_decide (stop r = Up) || bool_decide (stop r = StopListeners))
      then Some (accept c r) else None
  | AcceptPublic c =>
      if bool_decide (socks r !! c = None) && (bool_decide (stop r = Up) || bool_decide (stop r = StopListeners))
      then Some (goto c PubHandshake (set_conn c fresh_conn r)) else None
  | Sends c bs => k ← socks r !! c; Some (set_conn c (k <| sent ::= λ l, l ++ bs |>) r)
  | Step c ab x => thread_step c ab x r
  | FireTimer i =>
      '(t, e) ← timers r !! i;
      if t <=? now r then Some (r <| timers ::= delete i |> <| callbacks ::= λ l, l ++ [Fired e] |>) else None
  | Callback i =>
      cb ← callbacks r !! i;
      let '(r', l) := run_callback cb r in Some (r' <| callbacks := delete i (callbacks r) ++ l |>)
  | Drain => Some (r <| draining := true |>)
  | ShutdownStep forced => shutdown_step forced r
  | Elapse d => if 0 <=? d then Some (r <| now ::= λ t, t + d |>) else None
  | SetControllers m => Some (r <| gwNodeControl := m |>)
  | SetCerts m => Some (if certs r is Some _ then r <| certs := Some m |> else r)
  | Resolve f => Some (r <| resolver := f |>)
  end.

Definition step (r r' : relay) : Prop := ∃ a, act a r = Some r'.

Fixpoint run (l : list action) (r : relay) : option relay :=
  match l with [] => Some r | a :: l => match act a r with Some r' => run l r' | None => None end end.

Lemma relay_run_steps (l : list action) (r r' : relay) : run l r = Some r' → rtc step r r'.
Proof.
  revert r. induction l as [|a l IH]; intros r; cbn; [by intros [= ->]|].
  destruct (act a r) as [r1|] eqn:E; [|done]. intros Hl. eapply rtc_l; [by exists a|by apply IH].
Qed.

(** [New]; [m] is set when a key was generated for the funnels. *)
Definition new_relay (m : option (gmap string string)) (t : Z) : relay :=
  mkRelay ∅ ∅ ∅ ∅ ∅ false false 0 ∅ ∅ m ∅ (λ _, None) ∅ [] [] Up t [] ∅.

End Relay.
