(* ===== verification/Holding.v ===== *)
(** * Who holds the connections of a relay (Relay.v)

    Every connection has at most one holder: a goroutine, a waiting slot or the table of
    parked public connections.  The invariant is kept by every step, because a step
    moves at most one connection from one holder to another. *)
From Stdlib Require Import ZArith Lia Strings.Byte.
From stdpp Require Import base gmap sets list strings relations.
From S2P Require Import Prelude Wire Trust Proc Codec Relay.
Local Open Scope Z_scope.

(** ** Holders *)

(** The connections a goroutine reads and writes. *)
Definition uses (c : id) (p : pc) : list id :=
  match p with
  | Confirm a b _ _ | Starting a b _ | Pumping a b _ _ _ => [a; b]
  | MuxJoin g | MuxAck g => [c; g]
  | FunnelAck p | FunnelTrack p => [c; p]
  | PubSignal _ _ _ | PubDrop _ _ _ | PubDel _ _ | Leaving _ | Gone => []
  | _ => [c]
  end.

Inductive holder : Type := HThread (t : id) | HSlot (token : string) | HParked (token : string).

Definition holds (r : relay) (h : holder) (c : id) : Prop :=
  match h with
  | HThread t => ∃ p, threads r !! t = Some p ∧ c ∈ uses t p
  | HSlot token => s_conn <$> pending r !! token = Some c
  | HParked token => parked r !! token = Some c
  end.

Record owned (r : relay) : Prop := {
  owned_sock h c : holds r h c → is_Some (socks r !! c);
  owned_thread t p : threads r !! t = Some p → is_Some (socks r !! t) ∧ NoDup (uses t p);
  owned_once h h' c : holds r h c → holds r h' c → h = h' }.

(** What a step may do to who holds what: at most one connection is gained. *)
Lemma owned_gain (r r' : relay) (h : holder) (c : id) :
  owned r → (∀ c, is_Some (socks r !! c) → is_Some (socks r' !! c)) →
  (∀ t p, threads r' !! t = Some p → is_Some (socks r' !! t) ∧ NoDup (uses t p)) →
  (∀ h' c', holds r' h' c' → holds r h' c' ∨ h' = h ∧ c' = c ∧ is_Some (socks r' !! c)) →
  (∀ h', holds r' h' c → h' = h) →
  owned r'.
Proof.
  intros [Hs Ht Ho] Hsock Hthr Hgain Hc. split; [|exact Hthr|].
  - intros h' c' Hh. destruct (Hgain h' c' Hh) as [H|(-> & -> & H)]; eauto.
  - intros h1 h2 c' H1 H2. destruct (Hgain h1 c' H1) as [G1|(-> & -> & _)]; [|by symmetry; apply Hc].
    destruct (Hgain h2 c' H2) as [G2|(-> & -> & _)]; [by eapply Ho|by apply Hc].
Qed.

Lemma owned_lose (r r' : relay) :
  owned r → (∀ c, is_Some (socks r !! c) → is_Some (socks r' !! c)) →
  (∀ t p, threads r' !! t = Some p → is_Some (socks r' !! t) ∧ NoDup (uses t p)) →
  (∀ h c, holds r' h c → holds r h c) →
  owned r'.
Proof. intros [Hs Ht Ho] Hsock Hthr Hlose. split; eauto. Qed.

(** A goroutine moves on, holding no more than before. *)
Lemma owned_move (r r' : relay) (t : id) (p p' : pc) :
  owned r → threads r !! t = Some p → threads r' = <[t := p']> (threads r) →
  (∀ c, is_Some (socks r !! c) → is_Some (socks r' !! c)) →
  uses t p' ⊆ uses t p → NoDup (uses t p') →
  (∀ k c, s_conn <$> pending r' !! k = Some c → s_conn <$> pending r !! k = Some c) →
  (∀ k c, parked r' !! k = Some c → parked r !! k = Some c) →
  owned r'.
Proof.
  intros Ho Hp Et Hs Hu Hnd Hpend Hpark. apply (owned_lose r); [done..| |].
  - rewrite Et. intros t' q. rewrite lookup_insert_Some. intros [[<- <-]|[_ Hq]].
    + split; [apply Hs, (owned_thread r Ho t p Hp)|done].
    + destruct (owned_thread r Ho t' q Hq). auto.
  - intros [t'|k|k] c; cbn; [|apply Hpend|apply Hpark]. rewrite Et. intros (q & Hq & Hc).
    apply lookup_insert_Some in Hq as [[<- <-]|[_ Hq]]; eauto.
Qed.

(** ** Connections under the operations *)

Definition shut_all (l : list id) (S : gmap id conn) : gmap id conn := foldr (alter (λ k, k <| shut := true |>)) S l.

Lemma close_all_eq (l : list id) (r : relay) : close_all l r = r <| socks ::= shut_all l |>.
Proof. induction l as [|c l IH]; [by destruct r|]. cbn. fold (close_all l r). rewrite IH. done. Qed.

Lemma del_eq (host : string) (reg : id) (r : relay) :
  ∃ m, del host reg r = r <| regs := m |> ∧ (∀ k c, m !! k = Some c → regs r !! k = Some c).
Proof.
  unfold del. case_bool_decide; [exists (delete host (regs r))|exists (regs r)]; split; try done; [|by destruct r].
  intros k c. rewrite lookup_delete_Some. naive_solver.
Qed.

Lemma stop_timers_eq (l : list (string * slot)) (r : relay) :
  ∃ ts, foldr (λ x, stop_timer (ExpireSlot x.1 (s_conn x.2))) r l = r <| timers := ts |>.
Proof.
  induction l as [|x l [ts IH]]; [exists (timers r); by destruct r|]. cbn. rewrite IH. by eexists.
Qed.

(** The same bytes; the connection may have been closed. *)
Definition alike (k k' : conn) : Prop := sent k' = sent k ∧ taken k' = taken k ∧ got k' = got k.

Lemma shut_all_lookup (l : list id) (S : gmap id conn) (c : id) (k : conn) :
  S !! c = Some k → ∃ k', shut_all l S !! c = Some k' ∧ alike k k'.
Proof.
  intros Hk. induction l as [|d l (k' & Hk' & ? & ? & ?)]; [exists k; by split|]. cbn. fold (shut_all l S).
  destruct (decide (c = d)) as [<-|Hne].
  - rewrite lookup_alter, decide_True, Hk' by done. eexists. split; [reflexivity|]. by split_and!.
  - rewrite lookup_alter_ne by done. exists k'. by split_and!.
Qed.

Lemma shut_all_back (l : list id) (S : gmap id conn) (c : id) (k' : conn) :
  shut_all l S !! c = Some k' → ∃ k, S !! c = Some k ∧ alike k k'.
Proof.
  intros Hk'. destruct (S !! c) as [k|] eqn:Hk.
  - destruct (shut_all_lookup l S c k Hk) as (k1 & ? & ?). exists k. split; [done|]. by simplify_eq.
  - assert (shut_all l S !! c = None) as E; [|by rewrite E in Hk']. clear Hk'. induction l as [|d l IH]; [done|].
    cbn. fold (shut_all l S). destruct (decide (c = d)) as [<-|Hne]; [|by rewrite lookup_alter_ne].
    by rewrite lookup_alter, decide_True, IH.
Qed.

Lemma shut_all_is_Some (l : list id) (S : gmap id conn) (c : id) : is_Some (S !! c) → is_Some (shut_all l S !! c).
Proof. intros [k Hk]. destruct (shut_all_lookup l S c k Hk) as (k' & ? & _). by exists k'. Qed.

Lemma insert_is_Some (S : gmap id conn) (c d : id) (k : conn) : is_Some (S !! c) → is_Some (<[d := k]> S !! c).
Proof. intros H. destruct (decide (c = d)) as [->|]; [rewrite lookup_insert_eq; by eexists|by rewrite lookup_insert_ne]. Qed.

Lemma close_conn_is_Some (S : gmap id conn) (c d : id) (f : conn → conn) : is_Some (S !! c) → is_Some (alter f d S !! c).
Proof.
  intros [k Hk]. destruct (decide (c = d)) as [->|]; [rewrite lookup_alter, decide_True, Hk by done; by eexists|].
  rewrite lookup_alter_ne by done. by exists k.
Qed.

Create HintDb relay.
#[export] Hint Resolve shut_all_is_Some insert_is_Some close_conn_is_Some : relay.

Ltac open_step H := unfold thread_step, mux_step, funnel_data_step, funnel_reg_step, funnel_public_step in H.

(** The cases of a step of a goroutine. *)
Ltac cases H :=
  repeat first
    [ match type of H with
      | context [respond] => unfold respond in H
      | mbind _ _ = Some _ => apply bind_Some in H as (? & ? & H)
      | context [match ?x with _ => _ end] => destruct x eqn:?
      end
    | progress simplify_eq ].

Ltac listed := cbn; first [by left | by right; left | by right; right; left].

Section Owned.
Context (cf : config) (ParseIP : string → option bytes).
Context `{JSONDecode RelayHello, JSONEncode RelayResp, JSONEncode FunnelDial}.

Abbreviation thread_step := (thread_step cf ParseIP).
Abbreviation act := (act cf ParseIP).

(** A direction of [pump] touches the connections only. *)
Lemma half_step_eq (a b src dst : id) (x : io) (h h' : half) (r r' : relay) :
  half_step a b src dst x h r = Some (h', r') → ∃ S, r' = r <| socks := S |> ∧ ∀ c, is_Some (socks r !! c) → is_Some (S !! c).
Proof.
  unfold half_step. intros E.
  destruct h as [|buf| |], x as [n| | | |]; try done; simplify_option_eq; repeat case_match; simplify_eq;
    first [by exists (socks r'); split; [destruct r'|] | eexists; (split; [reflexivity|]); cbn; eauto with relay].
Qed.

(** The steps of a goroutine in [pump]. *)
Lemma pump_inv (c : id) (side : bool) (x : io) (r r' : relay) (a b : id) (l : list id) (ab ba : half) :
  threads r !! c = Some (Pumping a b l ab ba) → thread_step c side x r = Some r' →
  (r' = goto c (Leaving l) (r <| active ::= λ n, n - 1 |>)) ∨
  (∃ h r1, half_step a b a b x ab r = Some (h, r1) ∧ r' = goto c (Pumping a b l h ba) r1) ∨
  (∃ h r1, half_step a b b a x ba r = Some (h, r1) ∧ r' = goto c (Pumping a b l ab h) r1).
Proof.
  intros Hp Hs. open_step Hs. rewrite Hp in Hs. cbn [mbind option_bind] in Hs.
  assert (∀ o, (if side then '(h, r) ← half_step a b a b x ab r; Some (goto c (Pumping a b l h ba) r)
                else '(h, r) ← half_step a b b a x ba r; Some (goto c (Pumping a b l ab h) r)) = o → o = Some r' →
    (∃ h r1, half_step a b a b x ab r = Some (h, r1) ∧ r' = goto c (Pumping a b l h ba) r1) ∨
    (∃ h r1, half_step a b b a x ba r = Some (h, r1) ∧ r' = goto c (Pumping a b l ab h) r1)) as Hh.
  { intros o <- Ho. destruct side; apply bind_Some in Ho as ([h r1] & E & Ho); simplify_eq; [left|right]; eauto. }
  destruct ab, ba, x; simplify_eq; (by left) || (right; by eapply Hh).
Qed.

Ltac spread := repeat case_match; simplify_eq; cbn.

(** A goroutine that holds no more than before. *)
Ltac moves :=
  eapply owned_move;
    [eassumption|eassumption|rewrite ?close_all_eq; reflexivity
    |rewrite ?close_all_eq; cbn; intros; eauto 6 with relay
    |spread; solve [done | set_solver]|spread; solve [done | apply NoDup_singleton | constructor]
    |rewrite ?close_all_eq; cbn; done|rewrite ?close_all_eq; cbn; done].

Lemma pump_owned (c : id) (side : bool) (x : io) (r r' : relay) (a b : id) (l : list id) (ab ba : half) :
  owned r → threads r !! c = Some (Pumping a b l ab ba) → thread_step c side x r = Some r' → owned r'.
Proof.
  intros Ho Hp Hs. destruct (owned_thread r Ho c _ Hp) as [_ Hnd].
  destruct (pump_inv _ _ _ _ _ _ _ _ _ _ Hp Hs) as [->|[(h & r1 & E & ->)|(h & r1 & E & ->)]]; [moves|..];
    apply half_step_eq in E as (S & -> & HS); by eapply owned_move.
Qed.

(** A goroutine, alone to move, takes [d]. *)
Lemma owned_take (r r' : relay) (t d : id) (p p' : pc) :
  owned r → threads r !! t = Some p → threads r' = <[t := p']> (threads r) →
  (∀ c, is_Some (socks r !! c) → is_Some (socks r' !! c)) → is_Some (socks r' !! d) →
  (∀ c, c ∈ uses t p' → c ∈ uses t p ∨ c = d) → NoDup (uses t p') →
  (∀ k c, s_conn <$> pending r' !! k = Some c → s_conn <$> pending r !! k = Some c ∧ c ≠ d) →
  (∀ k c, parked r' !! k = Some c → parked r !! k = Some c ∧ c ≠ d) →
  (∀ t', t' ≠ t → ¬ holds r (HThread t') d) →
  owned r'.
Proof.
  intros Ho Hp Et Hs Hd Hu Hnd Hpend Hpark Hoth. apply (owned_gain r r' (HThread t) d Ho Hs).
  - rewrite Et. intros t' q. rewrite lookup_insert_Some. intros [[<- <-]|[_ Hq]].
    + split; [apply Hs, (owned_thread r Ho t p Hp)|done].
    + destruct (owned_thread r Ho t' q Hq). auto.
  - intros [t'|k|k] c; cbn; [|by intros ?%Hpend; left; naive_solver|by intros ?%Hpark; left; naive_solver].
    rewrite Et. intros (q & Hq & Hc). apply lookup_insert_Some in Hq as [[<- <-]|[_ Hq]]; [|left; eauto].
    apply Hu in Hc as [Hc| ->]; [left; eauto|by right].
  - intros [t'|k|k]; cbn; [|by intros [_ ?]%Hpend|by intros [_ ?]%Hpark].
    rewrite Et. intros (q & Hq & Hc). apply lookup_insert_Some in Hq as [[<- <-]|[Hne Hq]]; [done|].
    exfalso. apply (Hoth t'); [done|]. by exists q.
Qed.

(** A goroutine gives the connection it holds away. *)
Lemma owned_give (r r' : relay) (t c : id) (p p' : pc) (h : holder) :
  owned r → threads r !! t = Some p → c ∈ uses t p → threads r' = <[t := p']> (threads r) →
  (∀ c, is_Some (socks r !! c) → is_Some (socks r' !! c)) → uses t p' = [] →
  (∀ h' c', match h' with HThread _ => False | _ => True end → holds r' h' c' → holds r h' c' ∨ h' = h ∧ c' = c) →
  owned r'.
Proof.
  intros Ho Hp Hc Et Hs Hu Hh. apply (owned_gain r r' h c Ho Hs).
  - rewrite Et. intros t' q. rewrite lookup_insert_Some. intros [[<- <-]|[_ Hq]].
    + split; [apply Hs, (owned_thread r Ho t p Hp)|rewrite Hu; constructor].
    + destruct (owned_thread r Ho t' q Hq). auto.
  - assert (is_Some (socks r' !! c)) by (apply Hs, (owned_sock r Ho (HThread t)); by exists p).
    intros [t'|k|k] c' Hh'; [|destruct (Hh (HSlot k) c' I Hh'); naive_solver|destruct (Hh (HParked k) c' I Hh'); naive_solver].
    destruct Hh' as (q & Hq & Hc'). rewrite Et in Hq. apply lookup_insert_Some in Hq as [[<- <-]|[_ Hq]].
    + rewrite Hu in Hc'. by apply elem_of_nil in Hc'.
    + left. by exists q.
  - assert (∀ h', holds r h' c → h' = HThread t) as Hold by (intros h' Hh'; apply (owned_once r Ho h' (HThread t) c Hh'); by exists p).
    intros [t'|k|k] Hh'; [|destruct (Hh (HSlot k) c I Hh') as [Hh0|[-> _]]; [by apply Hold in Hh0|done]
                        |destruct (Hh (HParked k) c I Hh') as [Hh0|[-> _]]; [by apply Hold in Hh0|done]].
    destruct Hh' as (q & Hq & Hc'). rewrite Et in Hq. apply lookup_insert_Some in Hq as [[<- <-]|[Hne Hq]].
    + rewrite Hu in Hc'. by apply elem_of_nil in Hc'.
    + exfalso. assert (HThread t' = HThread t) as [= ->] by (apply Hold; by exists q). done.
Qed.

Lemma rendezvous_owned (c : id) (h : RelayHello) (r : relay) :
  owned r → threads r !! c = Some (Rendezvous h) → owned (rendezvous cf c h r).
Proof.
  intros Ho Hp. unfold rendezvous. destruct (closed r); [moves|]. case_bool_decide; [moves|].
  assert (holds r (HThread c) c) as Hc by (exists (Rendezvous h); split; [done|by apply list_elem_of_singleton]).
  destruct (pending r !! Token h) as [s|] eqn:Hs.
  - case_bool_decide; [moves|]. assert (holds r (HSlot (Token h)) (s_conn s)) as Hw by (cbn; by rewrite Hs).
    assert (c ≠ s_conn s) as Hne by (intros E; rewrite <- E in Hw; by pose proof (owned_once r Ho _ _ _ Hc Hw)).
    destruct (if bool_decide (Role h = RoleInitiator) then (c, s_conn s) else (s_conn s, c)) as [i p] eqn:Eip.
    eapply (owned_take r _ c (s_conn s)); [done|done|reflexivity|done|by apply (owned_sock r Ho _ _ Hw)|..].
    + intros d. destruct (bool_decide _); simplify_eq; cbn; set_solver.
    + cbn. destruct (bool_decide _); simplify_eq; (apply NoDup_cons; split; [set_solver|apply NoDup_singleton]).
    + cbn. intros k d Hk. destruct (decide (k = Token h)) as [->|Hk']; [by rewrite lookup_delete, decide_True in Hk|].
      rewrite lookup_delete_ne in Hk by done. split; [done|]. intros ->. pose proof (owned_once r Ho (HSlot k) _ _ Hk Hw). congruence.
    + cbn. intros k d Hk. split; [done|]. intros ->. by pose proof (owned_once r Ho (HParked k) _ _ Hk Hw).
    + intros t' _ Ht'. by pose proof (owned_once r Ho _ _ _ Ht' Hw).
  - destruct (_ <=? _); [moves|].
    eapply (owned_give r _ c c); [done|done|by apply list_elem_of_singleton|reflexivity|done|done|].
    intros [t'|k|k] d; [done| |by left]. intros _. cbn. destruct (decide (k = Token h)) as [->|Hk].
    + rewrite lookup_insert_eq. intros [= <-]. by right.
    + rewrite lookup_insert_ne by done. by left.
Qed.

Lemma funnel_take_owned (c : id) (token : string) (d : id) (fa fb : nat) (ga gb : bytes) (r : relay) :
  owned r → threads r !! c = Some (FunnelTake token) → parked r !! token = Some d →
  owned (goto c (FunnelAck d) (splice d c fa fb ga gb (r <| parked ::= delete token |>))).
Proof.
  intros Ho Hp Hd. assert (holds r (HParked token) d) as Hw by done.
  assert (holds r (HThread c) c) as Hc by (exists (FunnelTake token); split; [done|by apply list_elem_of_singleton]).
  assert (c ≠ d) as Hne by (intros E; rewrite <- E in Hw; by pose proof (owned_once r Ho _ _ _ Hc Hw)).
  eapply (owned_take r _ c d); [done|done|reflexivity|done|by apply (owned_sock r Ho _ _ Hw)|cbn; set_solver|..].
  - cbn. apply NoDup_cons. split; [set_solver|apply NoDup_singleton].
  - cbn. intros k e Hk. split; [done|]. intros ->. by pose proof (owned_once r Ho (HSlot k) _ _ Hk Hw).
  - cbn. intros k e Hk. rewrite lookup_delete_Some in Hk. destruct Hk as [Hk' Hk]. split; [done|]. intros ->.
    pose proof (owned_once r Ho (HParked k) _ _ Hk Hw). congruence.
  - intros t' _ Ht'. by pose proof (owned_once r Ho _ _ _ Ht' Hw).
Qed.

Lemma fresh_unheld (r : relay) (h : holder) (c : id) : owned r → socks r !! c = None → ¬ holds r h c.
Proof. intros Ho Hc Hh. destruct (owned_sock r Ho h c Hh) as [k Hk]. by rewrite Hc in Hk. Qed.

Lemma dial_owned (c g : id) (s : string) (l : list string) (e : event) (r : relay) :
  owned r → threads r !! c = Some (MuxDial (s :: l)) → socks r !! g = None →
  owned (goto c (MuxJoin g) (set_conn g fresh_conn (r <| log ::= λ l, l ++ [e] |>))).
Proof.
  intros Ho Hp Hg. destruct (owned_thread r Ho c _ Hp) as [[kc Hkc] _].
  eapply (owned_take r _ c g); [done|done|reflexivity|cbn; eauto with relay| |cbn; set_solver|..].
  - cbn. rewrite lookup_insert_eq. by eexists.
  - cbn. apply NoDup_cons. split; [|apply NoDup_singleton]. intros ->%list_elem_of_singleton. congruence.
  - cbn. intros k d Hk. split; [done|]. intros ->. by apply (fresh_unheld r (HSlot k) g Ho Hg).
  - cbn. intros k d Hk. split; [done|]. intros ->. by apply (fresh_unheld r (HParked k) g Ho Hg).
  - intros t' _. by apply fresh_unheld.
Qed.

Lemma thread_owned (c : id) (ab : bool) (x : io) (r r' : relay) :
  owned r → thread_step c ab x r = Some r' → owned r'.
Proof.
  intros Ho Hs. pose proof Hs as Hs'. open_step Hs.
  destruct (threads r !! c) as [p|] eqn:Hp; [|done]. cbn [mbind option_bind] in Hs.
  destruct (owned_thread r Ho c p Hp) as [Hc Hnd].
  destruct p; try discriminate Hs; try (by eapply pump_owned); clear Hs'; destruct x; try done; unfold dispatch in Hs; cases Hs;
    try solve [moves]; try (by apply rendezvous_owned).
  - by eapply dial_owned.
  - by apply funnel_take_owned.
  - eapply owned_move; [done|done|done|done|cbn; set_solver| |done|done]. cbn in *. apply NoDup_cons in Hnd as [Hne _].
    apply NoDup_cons. split; [set_solver|apply NoDup_singleton].
  - eapply owned_move; [done|done|by rewrite insert_id|cbn; eauto with relay|done..].
  - destruct (del_eq host c r) as (m & -> & _). moves.
  - eapply (owned_give r _ c c _ _ (HParked token)); [done|done|by apply list_elem_of_singleton|reflexivity|done|done|].
    intros [t'|k|k] d; [done|by left|]. intros _. cbn. rewrite lookup_insert_Some. naive_solver.
  - eapply owned_move; [done|done|reflexivity|cbn; eauto with relay|done..|]. cbn. intros k d. rewrite lookup_delete_Some. naive_solver.
  - destruct (del_eq host reg r) as (m & -> & _). moves.
Qed.

Lemma owned_env (r r' : relay) :
  owned r → threads r' = threads r → (∀ c, is_Some (socks r !! c) → is_Some (socks r' !! c)) →
  (∀ k c, s_conn <$> pending r' !! k = Some c → s_conn <$> pending r !! k = Some c) →
  (∀ k c, parked r' !! k = Some c → parked r !! k = Some c) → owned r'.
Proof.
  intros Ho Et Hs Hp Hk. apply (owned_lose r); [done..| |].
  - intros t p. rewrite Et. intros Ht. destruct (owned_thread r Ho t p Ht). auto.
  - intros [t|k|k] c; cbn; [by rewrite Et|apply Hp|apply Hk].
Qed.

Lemma accept_owned (c : id) (p : pc) (r r' : relay) :
  owned r → socks r !! c = None → uses c p = [c] → threads r' = <[c := p]> (threads r) →
  socks r' = <[c := fresh_conn]> (socks r) → pending r' = pending r → parked r' = parked r → owned r'.
Proof.
  intros Ho Hc Hu Et Es Ep Ek.
  assert (∀ h', holds r' h' c → h' = HThread c) as Hnew.
  { intros h' Hh'. pose proof (λ h, fresh_unheld r h c Ho Hc) as Hno. destruct h' as [t'|k|k]; cbn in Hh'.
    - rewrite Et in Hh'. destruct Hh' as (q & Hq & Hin). apply lookup_insert_Some in Hq as [[<- _]|[_ Hq]]; [done|].
      destruct (Hno (HThread t')). by exists q.
    - rewrite Ep in Hh'. by destruct (Hno (HSlot k)).
    - rewrite Ek in Hh'. by destruct (Hno (HParked k)). }
  apply (owned_gain r r' (HThread c) c Ho); [rewrite Es; eauto with relay| | |exact Hnew].
  - rewrite Et, Es. intros t q. rewrite lookup_insert_Some. intros [[<- <-]|[_ Hq]].
    + rewrite Hu, lookup_insert_eq. split; [by eexists|apply NoDup_singleton].
    + destruct (owned_thread r Ho t q Hq). split; eauto with relay.
  - intros h' d Hh'. destruct (decide (d = c)) as [->|Hd].
    { right. rewrite Es, lookup_insert_eq. split_and!; [by apply Hnew|done|by eexists]. }
    left. destruct h' as [t|k|k]; cbn in *; [|by rewrite Ep in Hh'|by rewrite Ek in Hh'].
    rewrite Et in Hh'. destruct Hh' as (q & Hq & Hin). apply lookup_insert_Some in Hq as [[<- <-]|[_ Hq]]; [|by exists q].
    rewrite Hu in Hin. by apply list_elem_of_singleton in Hin.
Qed.

Lemma act_owned (a : action) (r r' : relay) : owned r → act a r = Some r' → owned r'.
Proof.
  intros Ho Ha. destruct a as [c|c|c bs|c ab x|i|i| |forced|d|m|m|f]; cbn in Ha.
  - destruct (_ && _) eqn:E; [|done]. apply andb_true_iff in E as [E%bool_decide_eq_true _]. injection Ha as <-.
    unfold accept. cbn. repeat case_match.
    + eapply owned_env; [done|done|cbn; eauto with relay|done..].
    + eapply owned_env; [done|done|cbn; eauto with relay|done..].
    + by eapply (accept_owned c Hello r).
  - destruct (_ && _) eqn:E; [|done]. apply andb_true_iff in E as [E%bool_decide_eq_true _]. injection Ha as <-.
    by eapply (accept_owned c PubHandshake r).
  - apply bind_Some in Ha as (k & Hk & [= <-]). eapply owned_env; [done|done|cbn; eauto with relay|done..].
  - by eapply thread_owned.
  - apply bind_Some in Ha as ([t e] & Hk & Ha). destruct (_ <=? _); simplify_eq. by eapply owned_env.
  - apply bind_Some in Ha as (cb & Hk & Ha). unfold run_callback in Ha. repeat case_match; simplify_eq;
      (eapply owned_env; [done|done|cbn; eauto with relay|cbn|cbn]); try done.
    + intros k d. destruct (decide (k = token)) as [->|?]; [by rewrite lookup_delete, decide_True|by rewrite lookup_delete_ne].
    + intros k d. rewrite lookup_delete_Some. naive_solver.
  - simplify_eq. by eapply owned_env.
  - unfold shutdown_step in Ha. destruct (stop r); repeat case_match; simplify_eq; try (by eapply owned_env).
    + destruct (stop_timers_eq (map_to_list (pending r)) r) as [ts ->]. rewrite close_all_eq.
      eapply owned_env; [done|done|cbn; eauto with relay|cbn; by intros k d|done].
    + rewrite close_all_eq. eapply owned_env; [done|done|cbn; eauto with relay|done|cbn; by intros k d].
    + rewrite close_all_eq. eapply owned_env; [done|done|cbn; eauto with relay|done..].
  - destruct (_ <=? _); simplify_eq. by eapply owned_env.
  - simplify_eq. by eapply owned_env.
  - repeat case_match; simplify_eq; by eapply owned_env.
  - simplify_eq. by eapply owned_env.
Qed.

Lemma owned_reachable (m : option (gmap string string)) (t : Z) (r : relay) :
  rtc (step cf ParseIP) (new_relay m t) r → owned r.
Proof.
  intros Hr. assert (owned (new_relay m t)) as Hinit.
  { split; [intros [?|?|?] c; cbn; try done; by intros (? & ? & _)|done|intros [?|?|?] h c; cbn; try done; by intros (? & ? & _)]. }
  revert Hinit. induction Hr as [|r1 r2 r3 [a Ha] _ IH]; [done|]. intros Ho. by eapply IH, act_owned.
Qed.
End Owned.
