(* ===== verification/Splicing.v ===== *)
(** * What a relay does with the bytes (Relay.v)

    For every interleaving: a connection is spliced at most once, to the one that
    presented the same token in the other role, and is sent exactly the bytes of that
    one, in order and from the first after its hello; a connection that is not spliced is
    sent nothing but the relay's own messages. *)
From Stdlib Require Import ZArith Lia Strings.Byte.
From stdpp Require Import base gmap sets list strings relations.
From S2P Require Import Prelude Wire Trust Proc Codec Relay Holding.
Local Open Scope Z_scope.

Section Splicing.
Context (cf : config) (ParseIP : string → option bytes).
Context `{JSONDecode RelayHello, JSONEncode RelayResp, JSONEncode FunnelDial}.

(** ** Streams *)

(** What was read of a connection from the offset [n] on. *)
Definition slice (k : conn) (n : nat) : bytes := drop n (take (taken k) (sent k)).

(** The first frame a connection sent, [n] bytes of it, is the hello [h]. *)
Definition introduced (k : conn) (h : RelayHello) (n : nat) : Prop :=
  ∃ hdr b, Unmarshal b = Some h ∧ take n (sent k) = hdr ++ b ∧ n = length (hdr ++ b) ∧ length hdr = 4%nat ∧ Uint32 hdr = blen b.

Definition later (k k' : conn) : Prop := sent k `prefix_of` sent k' ∧ (taken k ≤ taken k')%nat.
Definition same (k k' : conn) : Prop := sent k `prefix_of` sent k' ∧ taken k' = taken k ∧ got k' = got k.

Lemma take_prefix_of {A : Type} (l l' : list A) (n : nat) : l `prefix_of` l' → (n ≤ length l)%nat → take n l' = take n l.
Proof. intros [m ->] Hn. by rewrite take_app_le. Qed.

Lemma slice_later (k k' : conn) (n : nat) :
  later k k' → (taken k ≤ length (sent k))%nat → slice k n `prefix_of` slice k' n.
Proof.
  intros [Hs Ht] Hk. unfold slice.
  assert (take (taken k) (sent k) = take (taken k) (take (taken k') (sent k'))) as ->.
  { rewrite take_take, Nat.min_l by lia. by rewrite (take_prefix_of (sent k) (sent k')). }
  generalize (take (taken k') (sent k')). intros l. rewrite <- (take_drop (taken k) l) at 2.
  destruct (decide (n ≤ length (take (taken k) l))%nat) as [Hn|Hn].
  - rewrite drop_app_le by done. by eexists.
  - rewrite (drop_ge (take _ _)) by lia. apply prefix_nil.
Qed.

Lemma slice_same (k k' : conn) (n : nat) : same k k' → (taken k ≤ length (sent k))%nat → slice k' n = slice k n.
Proof. intros (Hs & Ht & _) Hk. unfold slice. rewrite Ht. by rewrite (take_prefix_of (sent k) (sent k')). Qed.

Lemma same_later (k k' : conn) : same k k' → later k k'.
Proof. intros (? & Ht & _). split; [done|lia]. Qed.

Lemma introduced_later (k k' : conn) (h : RelayHello) (n : nat) :
  sent k `prefix_of` sent k' → introduced k h n → introduced k' h n.
Proof.
  intros Hs (hdr & b & Hb & Ht & Hn & Hh). exists hdr, b. split_and!; try apply Hh; [done| |done]. rewrite (take_prefix_of (sent k) (sent k')); [done..|].
  apply (f_equal length) in Ht. rewrite length_take in Ht. lia.
Qed.

(** The hello is read off the beginning of a connection. *)
Lemma read_hello_inv (k k' : conn) (res : result json_frame_err RelayHello) :
  read_hello k = Some (res, k') → taken k = 0%nat →
  sent k' = sent k ∧ got k' = got k ∧ (taken k' ≤ length (sent k'))%nat ∧ ∀ h, res = Ok h → introduced k' h (taken k').
Proof.
  unfold read_hello, ReadJSON, ReadFrame. destruct (shut k); [done|]. intros E Hz. unfold unread in E. rewrite Hz, drop_0 in E.
  destruct (ReadFrameLimit _ _) as [[b|[]] rd] eqn:Er; simplify_eq; [|cbn; split_and!; [done..|lia|done]].
  assert (∃ hdr, sent k = (hdr ++ b) ++ rd_buf rd ∧ length hdr = 4%nat ∧ Uint32 hdr = blen b) as (hdr & Hs & H4 & Hu).
  { unfold ReadFrameLimit in Er. destruct (ReadFull _ 4) as [[hdr|] r1] eqn:Hr1; [|done]. destruct (_ <? _); [done|].
    destruct (ReadFull r1 _) as [[q|] r2] eqn:Hr2; simplify_eq. apply ReadFull_Ok in Hr1 as (Hl & Hs & _), Hr2 as (Hl2 & Hs2 & _).
    cbn in Hs. exists hdr. rewrite Hs, Hs2, app_assoc. split_and!; [done..|]. unfold blen. pose proof (Uint32_range hdr Hl). lia. }
  destruct (Unmarshal b) as [h|] eqn:Eu; cbn in E; simplify_eq; cbn; [|split_and!; [done..|lia|done]].
  split_and!; [done..|lia|]. intros ? [= <-]. exists hdr, b. cbn.
  assert (length (sent k) - length (rd_buf rd) = length (hdr ++ b))%nat as E by (rewrite Hs, !length_app; lia).
  rewrite E. split_and!; [done|by rewrite Hs, take_app_length|done..].
Qed.

(** A read moves bytes of the source into the slice. *)
Lemma read_slice (max n : nat) (k k' : conn) (buf : bytes) (m : nat) :
  read_conn max n k = Some (buf, k') → (m ≤ taken k)%nat → (taken k ≤ length (sent k))%nat →
  slice k' m = slice k m ++ buf ∧ sent k' = sent k ∧ got k' = got k ∧ (taken k ≤ taken k' ≤ length (sent k))%nat.
Proof.
  unfold read_conn. destruct (_ && _) eqn:E; [|done]. intros [= <- <-] Hm Hk.
  apply andb_true_iff in E as [E En]. apply Nat.leb_le in En. unfold unread in *. rewrite length_drop in En.
  split_and!; [|done|done|cbn; lia|cbn; lia]. unfold slice. cbn.
  rewrite <- (take_drop (taken k) (take (taken k + n) (sent k))) at 1. rewrite take_take, Nat.min_l by lia.
  rewrite drop_app_le by (rewrite length_take; lia). f_equal.
  rewrite <- take_drop_commute. done.
Qed.

Lemma write_prefix (n : nat) (p : bytes) (k k' : conn) (ok : bool) :
  write_conn n p k = (ok, k') → sent k' = sent k ∧ taken k' = taken k ∧
  ∃ q, got k' = got k ++ q ∧ q `prefix_of` p ∧ (ok = true → q = p).
Proof.
  unfold write_conn. destruct (shut k); intros [= <- <-].
  - split_and!; [done..|]. exists []. rewrite app_nil_r. split_and!; [done|apply prefix_nil|done].
  - split_and!; [done..|]. exists (take n p). split_and!; [done|by eexists; symmetry; apply take_drop|].
    intros Hn%Nat.leb_le. by apply take_ge.
Qed.

(** ** The invariant *)

Abbreviation conns_map := (gmap id conn).
Abbreviation links_map := (gmap id link).

(** Nothing was written to a connection, and it is not spliced. *)
Definition blank (S : conns_map) (L : links_map) (c : id) : Prop := ∃ k, S !! c = Some k ∧ got k = [] ∧ L !! c = None.

Definition role_ok (h : RelayHello) : Prop := Role h = RoleInitiator ∨ Role h = RoleResponder.

(** A connection that said [h] and waits to be spliced. *)
Definition said (S : conns_map) (c : id) (h : RelayHello) : Prop := ∃ k, S !! c = Some k ∧ introduced k h (taken k).

(** Spliced to each other with nothing copied yet; [ga] and [gb]: the greeting was
    written. *)
Definition joined (S : conns_map) (L : links_map) (a b : id) (ga gb : bool) : Prop :=
  ∃ ka kb la lb, S !! a = Some ka ∧ S !! b = Some kb ∧ L !! a = Some la ∧ L !! b = Some lb ∧
    mate la = b ∧ mate lb = a ∧ from la = taken kb ∧ from lb = taken ka ∧
    got ka = (if ga then greeting la else []) ∧ got kb = (if gb then greeting lb else []).

(** A direction of a splice. *)
Definition flow (S : conns_map) (L : links_map) (src dst : id) (h : half) : Prop :=
  ∃ ks kd l, S !! src = Some ks ∧ S !! dst = Some kd ∧ L !! dst = Some l ∧ mate l = src ∧ (from l ≤ taken ks)%nat ∧
    match h with
    | Reading => got kd = greeting l ++ slice ks (from l)
    | Writing buf => got kd ++ buf = greeting l ++ slice ks (from l)
    | Closing | Finished => got kd `prefix_of` greeting l ++ slice ks (from l)
    end.

Definition reg_pc (p : pc) : bool :=
  match p with RegSet _ | RegAck _ | RegHold _ | RegEnd _ | RegUntrack | Leaving _ | Gone => true | _ => false end.

Definition greets_ok (L : links_map) (a b : id) (ga gb : bytes) : Prop :=
  greeting <$> L !! a = Some ga ∧ greeting <$> L !! b = Some gb.

Definition thread_ok (S : conns_map) (L : links_map) (t : id) (p : pc) : Prop :=
  match p with
  | Hello => blank S L t ∧ taken <$> S !! t = Some 0%nat
  | Gate h => blank S L t ∧ said S t h ∧ validateHello h = None
  | Rendezvous h => blank S L t ∧ said S t h ∧ role_ok h
  | Confirm a b _ second => joined S L a b second false ∧ greets_ok L a b ok_frame ok_frame
  | Starting a b _ => joined S L a b true true
  | Pumping a b _ ab ba => flow S L a b ab ∧ flow S L b a ba
  | MuxJoin g => blank S L t ∧ blank S L g
  | MuxAck g => joined S L t g false true ∧ greets_ok L t g ok_frame []
  | FunnelAck p => joined S L p t true false ∧ greets_ok L p t [] ok_frame
  | FunnelTrack p => joined S L p t true true
  | RegSet _ | RegAck _ | RegHold _ | RegEnd _ | RegUntrack => L !! t = None
  | PubSignal _ _ _ | PubDrop _ _ _ | PubDel _ _ | Leaving _ | Gone => True
  | _ => blank S L t
  end.

(** Messages of the relay itself. *)
Definition own_message (m : bytes) : Prop := (∃ v : RelayResp, encode v = Some m) ∨ (∃ v : FunnelDial, encode v = Some m).

Inductive own_talk : bytes → Prop :=
| own_nil : own_talk []
| own_more (x y m : bytes) : own_talk x → own_message m → y `prefix_of` m → own_talk (x ++ y).

Definition link_ok (S : conns_map) (c : id) (l : link) : Prop :=
  ∃ k km, S !! c = Some k ∧ S !! mate l = Some km ∧ (from l ≤ taken km)%nat ∧
          got k `prefix_of` greeting l ++ slice km (from l).

(** The agent a public goroutine is to signal. *)
Definition signals (p : pc) : option id :=
  match p with PubPark _ _ reg | PubSignal _ _ reg | PubDrop _ _ reg | PubDel _ reg => Some reg | _ => None end.

Definition is_reg (r : relay) (c : id) : Prop :=
  (∃ host, regs r !! host = Some c) ∨ (∃ t p, threads r !! t = Some p ∧ signals p = Some c).

Definition slot_ok (S : conns_map) (L : links_map) (token : string) (s : slot) : Prop :=
  blank S L (s_conn s) ∧ ∃ h, said S (s_conn s) h ∧ role_ok h ∧ Token h = token ∧ Role h = s_role s.

(** A match that was made. *)
Definition match_ok (S : conns_map) (L : links_map) (token : string) (i p : id) : Prop :=
  ∃ ki kp hi hp li lp, S !! i = Some ki ∧ S !! p = Some kp ∧ L !! i = Some li ∧ L !! p = Some lp ∧
    mate li = p ∧ mate lp = i ∧ greeting li = ok_frame ∧ greeting lp = ok_frame ∧
    introduced ki hi (from lp) ∧ introduced kp hp (from li) ∧ Token hi = token ∧ Token hp = token ∧
    Role hi = RoleInitiator ∧ Role hp = RoleResponder.

Record intact (r : relay) : Prop := {
  in_taken c k : socks r !! c = Some k → (taken k ≤ length (sent k))%nat;
  in_thread t p : threads r !! t = Some p → thread_ok (socks r) (links r) t p;
  in_slot token s : pending r !! token = Some s → slot_ok (socks r) (links r) token s;
  in_parked token c : parked r !! token = Some c → blank (socks r) (links r) c;
  in_link c l : links r !! c = Some l → link_ok (socks r) c l;
  in_reg c : is_reg r c → links r !! c = None ∧ (∀ h, holds r h c → h = HThread c) ∧ ∃ p, threads r !! c = Some p ∧ reg_pc p = true;
  in_talk c k : socks r !! c = Some k → links r !! c = None → own_talk (got k);
  in_match token i p t : Matched token i p t ∈ log r → match_ok (socks r) (links r) token i p }.

(** ** Frames *)

Definition steady (S S' : conns_map) (L L' : links_map) (c : id) : Prop :=
  L' !! c = L !! c ∧ ∀ k, S !! c = Some k → ∃ k', S' !! c = Some k' ∧ same k k'.

Definition bounded (S : conns_map) : Prop := ∀ c k, S !! c = Some k → (taken k ≤ length (sent k))%nat.

Lemma blank_frame (S S' : conns_map) (L L' : links_map) (c : id) : steady S S' L L' c → blank S L c → blank S' L' c.
Proof. intros [EL HS] (k & Hk & Hg & HL). destruct (HS k Hk) as (k' & Hk' & _ & _ & Eg). exists k'. by rewrite EL, Eg. Qed.

Lemma said_frame (S S' : conns_map) (L L' : links_map) (c : id) (h : RelayHello) : steady S S' L L' c → said S c h → said S' c h.
Proof.
  intros [_ HS] (k & Hk & Hi). destruct (HS k Hk) as (k' & Hk' & Hs & Et & _). exists k'. split; [done|]. rewrite Et.
  by eapply introduced_later.
Qed.

Lemma joined_frame (S S' : conns_map) (L L' : links_map) (a b : id) (ga gb : bool) :
  steady S S' L L' a → steady S S' L L' b → joined S L a b ga gb → joined S' L' a b ga gb.
Proof.
  intros [ELa HSa] [ELb HSb] (ka & kb & la & lb & Ha & Hb & Hla & Hlb & Hr). destruct_and!.
  destruct (HSa ka Ha) as (ka' & Ha' & _ & Eta & Ega), (HSb kb Hb) as (kb' & Hb' & _ & Etb & Egb).
  exists ka', kb', la, lb. rewrite ELa, ELb, Eta, Etb, Ega, Egb. by split_and!.
Qed.

Lemma flow_frame (S S' : conns_map) (L L' : links_map) (src dst : id) (h : half) :
  bounded S → steady S S' L L' src → steady S S' L L' dst → flow S L src dst h → flow S' L' src dst h.
Proof.
  intros Hb [_ HSs] [ELd HSd] (ks & kd & l & Hs & Hd & Hl & Hm & Hf & Hh).
  destruct (HSs ks Hs) as (ks' & Hs' & Hsame), (HSd kd Hd) as (kd' & Hd' & _ & _ & Egd).
  exists ks', kd', l. rewrite ELd, Egd, (slice_same ks ks') by eauto. destruct Hsame as (_ & -> & _). by split_and!.
Qed.

Lemma greets_frame (L L' : links_map) (a b : id) (ga gb : bytes) :
  L' !! a = L !! a → L' !! b = L !! b → greets_ok L a b ga gb → greets_ok L' a b ga gb.
Proof. unfold greets_ok. by intros -> ->. Qed.

Lemma thread_frame (S S' : conns_map) (L L' : links_map) (t : id) (p : pc) :
  bounded S →
  (∀ c, c ∈ uses t p → L' !! c = L !! c ∧ (reg_pc p = true ∨ steady S S' L L' c)) →
  thread_ok S L t p → thread_ok S' L' t p.
Proof.
  intros Hb HT Hp.
  assert (reg_pc p = false → ∀ c, c ∈ uses t p → steady S S' L L' c) as HS.
  { intros E c Hc. destruct (HT c Hc) as [_ [Hr|?]]; [congruence|done]. }
  assert (∀ c, c ∈ uses t p → L' !! c = L !! c) as HL by (intros c Hc; apply HT, Hc). clear HT.
  destruct p; cbn in Hp |- *; try done; specialize (HS eq_refl) || clear HS;
    try (eapply blank_frame; [apply HS; listed|exact Hp]);
    try (rewrite HL by (listed); exact Hp).
  - destruct Hp as [Hp H0']. assert (steady S S' L L' t) as Hst by (apply HS; listed). split; [by eapply blank_frame|].
    destruct (S !! t) as [k|] eqn:Hk; [|done]. destruct Hst as [_ Hst]. destruct (Hst k Hk) as (k' & -> & _ & Et & _). cbn in *. by rewrite Et.
  - destruct Hp as (? & ? & ?). split_and!; [eapply blank_frame|eapply said_frame|]; try done; apply HS; listed.
  - destruct Hp as (? & ? & ?). split_and!; [eapply blank_frame|eapply said_frame|]; try done; apply HS; listed.
  - destruct Hp. split; [eapply joined_frame|apply (greets_frame L)]; try done; try apply HS; try apply HL; listed.
  - eapply joined_frame; try done; apply HS; listed.
  - destruct Hp. split; eapply flow_frame; try done; apply HS; listed.
  - destruct Hp. split; eapply blank_frame; try done; apply HS; listed.
  - destruct Hp. split; [eapply joined_frame|apply (greets_frame L)]; try done; try apply HS; try apply HL; listed.
  - destruct Hp. split; [eapply joined_frame|apply (greets_frame L)]; try done; try apply HS; try apply HL; listed.
  - eapply joined_frame; try done; apply HS; listed.
Qed.

Lemma link_frame (S S' : conns_map) (c : id) (l : link) :
  bounded S → (∀ c k, S !! c = Some k → ∃ k', S' !! c = Some k' ∧ later k k') →
  (∀ k, S !! c = Some k → ∃ k', S' !! c = Some k' ∧ got k' = got k) → link_ok S c l → link_ok S' c l.
Proof.
  intros Hb Hlater Hc (k & km & Hk & Hkm & Hf & Hg). destruct (Hc k Hk) as (k' & Hk' & Eg).
  destruct (Hlater _ km Hkm) as (km' & Hkm' & Hm). exists k', km'. split_and!; [done|done|destruct Hm; lia|].
  rewrite Eg. etrans; [exact Hg|]. apply prefix_app. apply slice_later; eauto.
Qed.

Lemma match_frame (S S' : conns_map) (L L' : links_map) (token : string) (i p : id) :
  (∀ c k, S !! c = Some k → ∃ k', S' !! c = Some k' ∧ later k k') → L ⊆ L' → match_ok S L token i p → match_ok S' L' token i p.
Proof.
  intros Hlater HL (ki & kp & hi & hp & li & lp & Hi & Hp & Hli & Hlp & Hr). destruct_and!.
  destruct (Hlater _ ki Hi) as (ki' & Hi' & Hsi & _), (Hlater _ kp Hp) as (kp' & Hp' & Hsp & _).
  exists ki', kp', hi, hp, li, lp. split_and!; try done; try (by eapply lookup_weaken); by eapply introduced_later.
Qed.

(** A step that touches the connections [T]. *)
Lemma intact_step (r r' : relay) (T : list id) :
  intact r →
  (∀ c k, socks r !! c = Some k → ∃ k', socks r' !! c = Some k' ∧ later k k' ∧ (c ∉ T → same k k')) →
  bounded (socks r') → (∀ c, c ∉ T → links r' !! c = links r !! c) → links r ⊆ links r' →
  (∀ t q, threads r' !! t = Some q →
     threads r !! t = Some q ∧ (∀ c, c ∈ T → c ∈ uses t q → reg_pc q = true ∧ links r' !! c = links r !! c) ∨
     thread_ok (socks r') (links r') t q) →
  (∀ k s, pending r' !! k = Some s → pending r !! k = Some s ∧ s_conn s ∉ T ∨ slot_ok (socks r') (links r') k s) →
  (∀ k c, parked r' !! k = Some c → parked r !! k = Some c ∧ c ∉ T ∨ blank (socks r') (links r') c) →
  (∀ c l, c ∈ T → links r' !! c = Some l → link_ok (socks r') c l) →
  (∀ c, is_reg r' c → links r' !! c = None ∧ (∀ h, holds r' h c → h = HThread c) ∧ ∃ p, threads r' !! c = Some p ∧ reg_pc p = true) →
  (∀ c k, socks r' !! c = Some k → socks r !! c = None ∨ c ∈ T → links r' !! c = None → own_talk (got k)) →
  (∀ k i p t, Matched k i p t ∈ log r' → Matched k i p t ∈ log r ∨ match_ok (socks r') (links r') k i p) →
  intact r'.
Proof.
  intros Hi HS Hb HL Hsub Hthr Hslot Hpark Hlink Hreg Htalk Hlog.
  assert (bounded (socks r)) as Hb0 by exact (in_taken r Hi).
  assert (∀ c, c ∉ T → steady (socks r) (socks r') (links r) (links r') c) as Hst.
  { intros c Hc. split; [by apply HL|]. intros k Hk. destruct (HS c k Hk) as (k' & ? & _ & ?). eauto. }
  assert (∀ c k, socks r !! c = Some k → ∃ k', socks r' !! c = Some k' ∧ later k k') as Hlater.
  { intros c k Hk. destruct (HS c k Hk) as (k' & ? & ? & _). eauto. }
  split; [exact Hb|..|exact Hreg| |].
  - intros t q Hq. destruct (Hthr t q Hq) as [[Hq0 HT]|?]; [|done].
    apply (thread_frame (socks r) _ (links r)); [done| |by apply (in_thread r Hi)]. intros c Hc.
    destruct (decide (c ∈ T)) as [HcT|HcT]; [destruct (HT c HcT Hc); auto|]. split; [by apply HL|right; by apply Hst].
  - intros k s Hs. destruct (Hslot k s Hs) as [[Hs0 HT]|?]; [|done].
    destruct (in_slot r Hi k s Hs0) as (Hbl & h & Hsd & Hh). split; [by eapply blank_frame, Hbl; apply Hst|].
    exists h. split; [by eapply said_frame, Hsd; apply Hst|done].
  - intros k c Hc. destruct (Hpark k c Hc) as [[Hc0 HT]|?]; [|done]. eapply blank_frame; [by apply Hst|by eapply (in_parked r Hi)].
  - intros c l Hl. destruct (decide (c ∈ T)) as [HcT|HcT]; [by apply Hlink|]. rewrite HL in Hl by done.
    eapply (link_frame (socks r)); [done|done| |by apply (in_link r Hi)]. intros k Hk.
    destruct (HS c k Hk) as (k' & ? & _ & Hsame). exists k'. split; [done|]. by apply Hsame.
  - intros c k' Hk' Hl. destruct (socks r !! c) as [k|] eqn:Hk; [|by eapply Htalk; [|left|]].
    destruct (decide (c ∈ T)) as [HcT|HcT]; [by eapply Htalk; [|right|]|].
    destruct (HS c k Hk) as (k1 & ? & _ & Hsame). destruct (Hsame HcT) as (_ & _ & Eg). simplify_eq. rewrite Eg.
    eapply (in_talk r Hi); [done|]. by rewrite <- HL.
  - intros k i p t Ht. destruct (Hlog k i p t Ht) as [Ht0|?]; [|done]. by eapply match_frame, (in_match r Hi).
Qed.

(** A goroutine reads or writes connections it holds. *)
Lemma intact_touch (r r' : relay) (t : id) (p p' : pc) (T : list id) :
  owned r → intact r → threads r !! t = Some p → threads r' = <[t := p']> (threads r) →
  (∀ c, c ∈ T → c ∈ uses t p) →
  (∀ c k, socks r !! c = Some k → ∃ k', socks r' !! c = Some k' ∧ later k k' ∧ (c ∉ T → same k k')) →
  (∀ c k', socks r' !! c = Some k' → is_Some (socks r !! c)) →
  bounded (socks r') → links r' = links r →
  (∀ k s, pending r' !! k = Some s → pending r !! k = Some s) → (∀ k c, parked r' !! k = Some c → parked r !! k = Some c) →
  (∀ k c, regs r' !! k = Some c → regs r !! k = Some c) → (∀ c, signals p' = Some c → is_reg r c) →
  (∀ k i q u, Matched k i q u ∈ log r' → Matched k i q u ∈ log r) →
  uses t p' ⊆ uses t p → (reg_pc p = true → reg_pc p' = true) →
  thread_ok (socks r') (links r) t p' →
  (∀ c l, c ∈ T → links r !! c = Some l → link_ok (socks r') c l) →
  (∀ c k, c ∈ T → socks r' !! c = Some k → links r !! c = None → own_talk (got k)) →
  intact r'.
Proof.
  intros Ho Hi Hp Et HT HS Hdom Hb EL Hpend Hpark Hregs Hsig Hlog Hu Hreg Hok Hlink Htalk.
  assert (∀ c h, c ∈ T → holds r h c → h = HThread t) as Hmine.
  { intros c h Hc Hh. apply (owned_once r Ho h (HThread t) c Hh). exists p. eauto. }
  apply (intact_step r r' T Hi HS Hb); rewrite ?EL; try done.
  - intros t' q. rewrite Et, lookup_insert_Some. intros [[<- <-]|[Hne Hq]]; [by right|left].
    split; [done|]. intros c Hc Hcq. exfalso. assert (HThread t' = HThread t) as [= ->]; [|done].
    apply (Hmine c); [done|]. by exists q.
  - intros k s Hs. left. split; [by apply Hpend|]. intros Hc.
    assert (HSlot k = HThread t); [|done]. apply (Hmine (s_conn s)); [done|]. cbn. by rewrite (Hpend k s Hs).
  - intros k c Hc. left. split; [by apply Hpark|]. intros HcT.
    assert (HParked k = HThread t); [|done]. apply (Hmine c); [done|]. by apply Hpark.
  - intros c Hc. assert (is_reg r c) as Hc0.
    { destruct Hc as [[host Hh]|(t' & q & Hq & Hs)]; [left; eauto|]. rewrite Et in Hq.
      apply lookup_insert_Some in Hq as [[<- <-]|[_ Hq]]; [by apply Hsig|right; eauto]. }
    destruct (in_reg r Hi c Hc0) as (HL & Hh & q & Hq & Hrq). split_and!; [done| |].
    + intros h Hh'. apply Hh. destruct h as [t'|k|k]; cbn in *.
      * rewrite Et in Hh'. destruct Hh' as (q' & Hq' & Hin). apply lookup_insert_Some in Hq' as [[<- <-]|[_ Hq']]; eauto.
      * destruct (pending r' !! k) as [s|] eqn:Es; [|done]. by rewrite (Hpend k s Es).
      * by apply Hpark.
    + rewrite Et. destruct (decide (c = t)) as [->|Hne]; [|exists q; by rewrite lookup_insert_ne].
      exists p'. rewrite lookup_insert_eq. simplify_eq. split; [done|]. by apply Hreg.
  - intros c k Hk [Hn|HcT] HL; [|by eapply Htalk]. destruct (Hdom c k Hk) as [? ?]. congruence.
  - intros k i q u Hm. left. by eapply Hlog.
Qed.

(** A goroutine moves on; connections may be closed. *)
Lemma intact_move (r r' : relay) (t : id) (p p' : pc) :
  owned r → intact r → threads r !! t = Some p → threads r' = <[t := p']> (threads r) →
  (∃ l, socks r' = shut_all l (socks r)) → links r' = links r →
  (∀ k s, pending r' !! k = Some s → pending r !! k = Some s) → (∀ k c, parked r' !! k = Some c → parked r !! k = Some c) →
  (∀ k c, regs r' !! k = Some c → regs r !! k = Some c) → (∀ c, signals p' = Some c → is_reg r c) →
  (∀ k i q u, Matched k i q u ∈ log r' → Matched k i q u ∈ log r) →
  uses t p' ⊆ uses t p → (reg_pc p = true → reg_pc p' = true) →
  thread_ok (socks r) (links r) t p' → intact r'.
Proof.
  intros Ho Hi Hp Et [l ES] EL Hpend Hpark Hregs Hsig Hlog Hu Hreg Hok.
  assert (∀ c k, socks r !! c = Some k → ∃ k', socks r' !! c = Some k' ∧ same k k') as Hs.
  { intros c k Hk. rewrite ES. destruct (shut_all_lookup l _ c k Hk) as (k' & ? & E1 & E2 & E3). exists k'. split; [done|].
    unfold same. by rewrite E1. }
  eapply (intact_touch r r' t p p' []); try done.
  - intros c. by rewrite elem_of_nil.
  - intros c k Hk. destruct (Hs c k Hk) as (k' & ? & ?). exists k'. split_and!; [done|by apply same_later|done].
  - rewrite ES. intros c k' Hk'. destruct (shut_all_back l _ c k' Hk') as (k & ? & _). by eexists.
  - rewrite ES. intros c k' Hk'. destruct (shut_all_back l _ c k' Hk') as (k & Hk & E1 & E2 & _). rewrite E1, E2.
    by eapply (in_taken r Hi).
  - eapply (thread_frame (socks r) _ (links r)); [exact (in_taken r Hi)| |done]. intros c Hc. split; [done|]. right. by split; [|apply Hs].
  - intros c ? Hc. by apply elem_of_nil in Hc.
  - intros c ? Hc. by apply elem_of_nil in Hc.
Qed.

(** A step of the world: connections may be closed, receive bytes, be opened. *)
Lemma intact_env (r r' : relay) :
  intact r → threads r' = threads r →
  (∀ c k, socks r !! c = Some k → ∃ k', socks r' !! c = Some k' ∧ same k k') →
  (∀ c k', socks r' !! c = Some k' → socks r !! c = None → got k' = []) → bounded (socks r') →
  links r' = links r →
  (∀ k s, pending r' !! k = Some s → pending r !! k = Some s) → (∀ k c, parked r' !! k = Some c → parked r !! k = Some c) →
  regs r' = regs r → log r' = log r → intact r'.
Proof.
  intros Hi Et HS Hnew Hb EL Hpend Hpark Eregs Elog. apply (intact_step r r' [] Hi); rewrite ?EL, ?Et, ?Elog; try done.
  - intros c k Hk. destruct (HS c k Hk) as (k' & ? & ?). exists k'. split_and!; [done|by apply same_later|done].
  - intros t q Hq. left. split; [done|]. intros c Hc. by apply elem_of_nil in Hc.
  - intros k s Hs. left. split; [by apply Hpend|]. apply not_elem_of_nil.
  - intros k c Hc. left. split; [by apply Hpark|]. apply not_elem_of_nil.
  - intros c l Hc. by apply elem_of_nil in Hc.
  - intros c Hc. assert (is_reg r c) as Hc0 by (destruct Hc as [[host Hh]|(t & q & Hq & Hs)]; [left|right]; rewrite ?Eregs, ?Et in *; eauto).
    destruct (in_reg r Hi c Hc0) as (HL & Hh & Hq). split_and!; [done| |done].
    intros h Hh'. apply Hh. destruct h as [t'|k|k]; cbn in *; [by rewrite Et in Hh'| |by apply Hpark].
    destruct (pending r' !! k) as [s|] eqn:Es; [|done]. by rewrite (Hpend k s Es).
  - intros c k Hk [Hn|Hc] _; [|by apply elem_of_nil in Hc]. rewrite (Hnew c k Hk Hn). constructor.
  - auto.
Qed.

Lemma shut_all_same (l : list id) (S : conns_map) (c : id) (k : conn) :
  S !! c = Some k → ∃ k', shut_all l S !! c = Some k' ∧ same k k'.
Proof.
  intros Hk. destruct (shut_all_lookup l S c k Hk) as (k' & ? & E1 & E2 & E3). exists k'. split; [done|]. unfold same. by rewrite E1.
Qed.

Lemma shut_all_bounded (l : list id) (S : conns_map) : bounded S → bounded (shut_all l S).
Proof. intros Hb c k' Hk'. destruct (shut_all_back l S c k' Hk') as (k & Hk & E1 & E2 & _). rewrite E1, E2. eauto. Qed.

Lemma intact_shut (r r' : relay) (l : list id) :
  intact r → r' = r <| socks ::= shut_all l |> → intact r'.
Proof.
  intros Hi ->. apply (intact_env r); try done; cbn.
  - intros c k Hk. by apply shut_all_same.
  - intros c k' Hk' Hn. destruct (shut_all_back l _ c k' Hk') as (k & ? & _). congruence.
  - apply shut_all_bounded. exact (in_taken r Hi).
Qed.

(** A goroutine changes one connection it holds. *)
Lemma intact_set (r r' : relay) (t : id) (p p' : pc) (d : id) (k k' : conn) :
  owned r → intact r → threads r !! t = Some p → r' = goto t p' (set_conn d k' r) →
  d ∈ uses t p → socks r !! d = Some k → later k k' → (taken k' ≤ length (sent k'))%nat →
  (∀ c, signals p' = Some c → is_reg r c) → uses t p' ⊆ uses t p → (reg_pc p = true → reg_pc p' = true) →
  thread_ok (<[d := k']> (socks r)) (links r) t p' →
  (∀ l, links r !! d = Some l → link_ok (<[d := k']> (socks r)) d l) →
  (links r !! d = None → own_talk (got k')) →
  intact r'.
Proof.
  intros Ho Hi Hp -> Hd Hk Hl Hb Hsig Hu Hreg Hok Hlink Htalk.
  eapply (intact_touch r _ t p p' [d]); try done; cbn.
  - by intros c ->%list_elem_of_singleton.
  - intros c kc Hc. destruct (decide (c = d)) as [->|Hne].
    + rewrite lookup_insert_eq. simplify_eq. exists k'. split_and!; [done..|]. by intros []%not_elem_of_cons.
    + rewrite lookup_insert_ne by done. exists kc. split_and!; [done|split; [done|lia]|]. by intros _; split_and!.
  - intros c kc. rewrite lookup_insert_Some. intros [[<- _]|[_ ?]]; by eexists.
  - intros c kc. rewrite lookup_insert_Some. intros [[_ <-]|[_ ?]]; [done|]. by eapply (in_taken r Hi).
  - intros c l ->%list_elem_of_singleton. by apply Hlink.
  - intros c kc ->%list_elem_of_singleton. rewrite lookup_insert_eq. intros [= <-]. by apply Htalk.
Qed.

(** ** Writing messages *)

Lemma write_json_inv {A : Type} `{JSONEncode A} (n : nat) (v : A) (k k' : conn) (ok : bool) :
  write_json n v k = (ok, k') → sent k' = sent k ∧ taken k' = taken k ∧
  ∃ q, got k' = got k ++ q ∧ (q = [] ∨ ∃ m, encode v = Some m ∧ q `prefix_of` m) ∧ (ok = true → encode v = Some q).
Proof.
  unfold write_json. destruct (encode v) as [m|]; [|intros [= <- <-]; split_and!; [done..|]; exists []; rewrite app_nil_r; split_and!; auto; done].
  intros E. apply write_prefix in E as (? & ? & q & ? & ? & Hok). split_and!; [done..|]. exists q. split_and!; [done|eauto|].
  intros ->. by rewrite Hok.
Qed.

Lemma respond_inv (c t : id) (n : nat) (v : RelayResp) (good bad : relay → relay) (r r' : relay) :
  respond c t n v good bad r = Some r' →
  ∃ k k' ok, socks r !! t = Some k ∧ write_json n v k = (ok, k') ∧ r' = (if ok then good else bad) (set_conn t k' r).
Proof.
  unfold respond. intros (k & Hk & E)%bind_Some. destruct (write_json n v k) as [ok k'] eqn:Ew. simplify_eq. eauto 7.
Qed.

Lemma joined_sym (S : conns_map) (L : links_map) (a b : id) (ga gb : bool) : joined S L a b ga gb → joined S L b a gb ga.
Proof. intros (ka & kb & la & lb & ?). destruct_and!. exists kb, ka, lb, la. by split_and!. Qed.

Lemma joined_link (S : conns_map) (L : links_map) (a b : id) (ga gb : bool) (l : link) :
  joined S L a b ga gb → L !! a = Some l → link_ok S a l.
Proof.
  intros (ka & kb & la & lb & ? & ? & ? & ? & Hm & _ & Hf & _ & Hg & _) Hl. simplify_eq. exists ka, kb.
  split_and!; [done..|lia|]. rewrite Hg. destruct ga; [by apply prefix_app_r|apply prefix_nil].
Qed.

(** The greeting is written to [a], whole or in part. *)
Lemma joined_write (S : conns_map) (L : links_map) (a b : id) (gb ok : bool) (k k' : conn) (n : nat) :
  a ≠ b → joined S L a b false gb → S !! a = Some k → greeting <$> L !! a = Some ok_frame →
  write_json n ok_resp k = (ok, k') →
  (∀ l, L !! a = Some l → link_ok (<[a := k']> S) a l) ∧ (ok = true → joined (<[a := k']> S) L a b true gb).
Proof.
  intros Hne (ka & kb & la & lb & Ha & Hb & Hla & Hlb & Hma & Hmb & Hfa & Hfb & Hga & Hgb) Hk Hgr Hw.
  apply write_json_inv in Hw as (Es & Et & q & Eg & Hq & Hok). rewrite Hla in Hgr. cbn in Hgr. simplify_eq. rewrite Hga in Eg. cbn in Eg.
  split.
  - intros l Hl. assert (l = la) as -> by congruence. exists k', kb. rewrite lookup_insert_eq, lookup_insert_ne by done.
    split_and!; [done..|lia|]. rewrite Eg, Hgr. apply prefix_app_r. unfold ok_frame.
    destruct Hq as [->|(m & -> & Hq)]; [apply prefix_nil|done].
  - intros Htrue. exists k', kb, la, lb. rewrite lookup_insert_eq, lookup_insert_ne by done.
    split_and!; try done; [by rewrite Et|]. rewrite Eg, Hgr. unfold ok_frame. by rewrite (Hok Htrue).
Qed.

Lemma talk_write {A : Type} `{JSONEncode A} (n : nat) (v : A) (k k' : conn) (ok : bool) :
  write_json n v k = (ok, k') → (∀ m, encode v = Some m → own_message m) → own_talk (got k) → own_talk (got k').
Proof.
  intros (_ & _ & q & -> & [->|(m & Em & Hq)] & _)%write_json_inv Hm Hk; [by rewrite app_nil_r|].
  by eapply own_more, Hq; [|apply Hm].
Qed.

Lemma resp_own (v : RelayResp) (m : bytes) : encode v = Some m → own_message m.
Proof. intros. left. by exists v. Qed.

Lemma later_write {A : Type} `{JSONEncode A} (n : nat) (v : A) (k k' : conn) (ok : bool) :
  write_json n v k = (ok, k') → later k k' ∧ sent k' = sent k ∧ taken k' = taken k.
Proof. intros (Es & Et & _)%write_json_inv. unfold later. rewrite Es, Et. by split_and!; [|lia|..]. Qed.

(** ** Steps that read or write *)

Lemma blank_write (S : conns_map) (L : links_map) (c : id) (k k' : conn) :
  blank S L c → S !! c = Some k → got k' = got k → blank (<[c := k']> S) L c.
Proof. intros (k0 & Hk0 & Hg & HL) Hk Eg. simplify_eq. exists k'. rewrite lookup_insert_eq. by rewrite Eg. Qed.

Lemma hello_intact (c : id) (r : relay) (k k' : conn) (res : result json_frame_err RelayHello) (p' : pc) :
  owned r → intact r → threads r !! c = Some Hello → socks r !! c = Some k → read_hello k = Some (res, k') →
  p' = match res with Ok h => match validateHello h with Some e => Rejecting e | None => Gate h end | Err _ => Rejecting "bad hello" end →
  intact (goto c p' (set_conn c k' r)).
Proof.
  intros Ho Hi Hp Hk Hr Ep. destruct (in_thread r Hi c _ Hp) as [Hbl Hz]. rewrite Hk in Hz. cbn in Hz. injection Hz as Hz.
  destruct (read_hello_inv k k' res Hr Hz) as (Es & Eg & Hb & Hint).
  assert (blank (<[c := k']> (socks r)) (links r) c) as Hbl' by by eapply blank_write.
  destruct Hbl as (k0 & ? & Hg & HL). simplify_eq.
  eapply (intact_set r _ c Hello _ c k k'); try done; [listed|split; [by rewrite Es|lia]|..].
  - destruct res as [h|]; [|done]. by destruct (validateHello h).
  - destruct res as [h|]; [|done]. by destruct (validateHello h).
  - destruct res as [h|]; [|done]. destruct (validateHello h) eqn:Ev; [done|]. split_and!; [done| |done].
    exists k'. rewrite lookup_insert_eq. split; [done|]. by apply Hint.
  - intros l Hl. by rewrite HL in Hl.
  - intros _. rewrite Eg, Hg. constructor.
Qed.

Lemma reject_intact (c : id) (n : nat) (msg : string) (r r' : relay) :
  owned r → intact r → threads r !! c = Some (Rejecting msg) →
  respond c c n (mkRelayResp false msg) (λ r, goto c (Leaving [c]) (close_conn c r)) (λ r, goto c (Leaving [c]) (close_conn c r)) r = Some r' →
  intact r'.
Proof.
  intros Ho Hi Hp (k & k' & ok & Hk & Hw & ->)%respond_inv. destruct (in_thread r Hi c _ Hp) as (k0 & ? & Hg & HL). simplify_eq.
  destruct (later_write _ _ _ _ _ Hw) as (Hl & Es & Et). pose proof (in_taken r Hi c k Hk).
  apply (intact_shut (goto c (Leaving [c]) (set_conn c k' r)) _ [c]); [|by destruct ok].
  eapply (intact_set r _ c _ _ c k k'); try done; [listed|by rewrite Es, Et|apply list_subseteq_nil| |].
  - intros l Hl'. by rewrite HL in Hl'.
  - intros _. apply (talk_write _ _ _ _ _ Hw); [apply resp_own|]. rewrite Hg. constructor.
Qed.

(** The greeting is written to [a] of a pair, by the goroutine [t] that holds it. *)
Lemma greet_intact (t a b : id) (n : nat) (gb : bool) (p good bad : pc) (l : list id) (r r' : relay) :
  owned r → intact r → threads r !! t = Some p → a ∈ uses t p → a ≠ b → reg_pc p = false →
  joined (socks r) (links r) a b false gb → greeting <$> links r !! a = Some ok_frame →
  respond t a n ok_resp (goto t good) (λ r, goto t bad (close_all l r)) r = Some r' →
  uses t good ⊆ uses t p → uses t bad = [] → signals good = None → signals bad = None →
  (∀ S, thread_ok S (links r) t bad) →
  (∀ S, joined S (links r) a b true gb → thread_ok S (links r) t good) →
  intact r'.
Proof.
  intros Ho Hi Hp Ha Hne Hrp Hj Hg (k & k' & ok & Hk & Hw & ->)%respond_inv Hu Hub Hs Hsb Hbad Hgood.
  destruct (later_write _ _ _ _ _ Hw) as (Hl & Es & Et). pose proof (in_taken r Hi a k Hk).
  destruct (joined_write _ _ _ _ _ _ _ _ _ Hne Hj Hk Hg Hw) as [Hlink Hok].
  assert (∃ l, links r !! a = Some l) as [la Hla] by (destruct (links r !! a); [by eexists|done]).
  destruct ok.
  - eapply (intact_set r _ t p good a k k'); try done; [by rewrite Es, Et|by rewrite Hs|by rewrite Hrp|by apply Hgood, Hok|by rewrite Hla].
  - rewrite close_all_eq. apply (intact_shut (goto t bad (set_conn a k' r)) _ l); [|done].
    eapply (intact_set r _ t p bad a k k'); try done; [by rewrite Es, Et|by rewrite Hsb|rewrite Hub; apply list_subseteq_nil|by rewrite Hrp|by rewrite Hla].
Qed.

Lemma flow_link (S : conns_map) (L : links_map) (src dst : id) (h : half) (l : link) :
  flow S L src dst h → L !! dst = Some l → link_ok S dst l.
Proof.
  intros (ks & kd & l0 & Hs & Hd & Hl & Hm & Hf & Hh) Hl'. simplify_eq. exists kd, ks. split_and!; [done..|].
  destruct h as [|buf| |]; [by rewrite Hh|rewrite <- Hh; by apply prefix_app_r|done..].
Qed.

Lemma flow_stop (S : conns_map) (L : links_map) (src dst : id) (h h' : half) :
  flow S L src dst h → h' = Closing ∨ h' = Finished → flow S L src dst h'.
Proof.
  intros Hf Hh'. pose proof (λ l, flow_link S L src dst h l Hf) as Hlink. destruct Hf as (ks & kd & l & Hs & Hd & Hl & Hm & Hfr & Hh).
  destruct (Hlink l Hl) as (kd' & ks' & ? & ? & _ & Hpre). exists ks, kd, l. simplify_eq. by destruct Hh' as [-> | ->].
Qed.

(** The source is read. *)
Lemma flow_read (S : conns_map) (L : links_map) (src dst : id) (n : nat) (k k' : conn) (buf : bytes) (h2 : half) :
  src ≠ dst → bounded S → S !! src = Some k → read_conn copyBufSize n k = Some (buf, k') →
  flow S L src dst Reading → flow S L dst src h2 →
  flow (<[src := k']> S) L src dst (Writing buf) ∧ flow (<[src := k']> S) L dst src h2.
Proof.
  intros Hne Hb Hk Hr (ks & kd & l & Hs & Hd & Hl & Hm & Hf & Hg) (kd2 & ks2 & l2 & Hd2 & Hs2 & Hl2 & Hm2 & Hf2 & Hg2).
  assert (ks = k) as -> by congruence. assert (ks2 = k) as -> by congruence. assert (kd2 = kd) as -> by congruence.
  edestruct (read_slice _ _ _ _ _ (from l) Hr Hf) as (Esl & Es & Eg & Ht); [by eapply Hb|]. split.
  - exists k', kd, l. rewrite lookup_insert_eq, lookup_insert_ne by done. split_and!; [done..|lia|]. by rewrite Esl, Hg, app_assoc.
  - exists kd, k', l2. rewrite lookup_insert_eq, lookup_insert_ne by done. by rewrite Eg.
Qed.

(** What was read is written, whole or in part. *)
Lemma flow_write (S : conns_map) (L : links_map) (src dst : id) (n : nat) (k k' : conn) (buf : bytes) (ok : bool) (h2 : half) :
  src ≠ dst → S !! dst = Some k → write_conn n buf k = (ok, k') →
  flow S L src dst (Writing buf) → flow S L dst src h2 →
  flow (<[dst := k']> S) L src dst (if ok then Reading else Closing) ∧ flow (<[dst := k']> S) L dst src h2.
Proof.
  intros Hne Hk Hw (ks & kd & l & Hs & Hd & Hl & Hm & Hf & Hg) (kd2 & ks2 & l2 & Hd2 & Hs2 & Hl2 & Hm2 & Hf2 & Hg2).
  assert (kd = k) as -> by congruence. assert (kd2 = k) as -> by congruence. assert (ks2 = ks) as -> by congruence.
  apply write_prefix in Hw as (Es & Et & q & Eg & Hq & Hok). split.
  - exists ks, k', l. rewrite lookup_insert_eq, lookup_insert_ne by done. split_and!; [done..|].
    destruct ok; [by rewrite Eg, Hok|]. rewrite Eg, <- Hg. by apply prefix_app.
  - exists k', ks, l2. rewrite lookup_insert_eq, lookup_insert_ne by done. unfold slice in *. by rewrite Et, Es.
Qed.

Lemma half_intact (t a b src dst : id) (x : io) (h h' h2 : half) (p p' : pc) (r r1 : relay) :
  owned r → intact r → threads r !! t = Some p → uses t p = [a; b] → uses t p' = [a; b] → reg_pc p = false → signals p' = None →
  src ∈ [a; b] → dst ∈ [a; b] → src ≠ dst → half_step a b src dst x h r = Some (h', r1) →
  flow (socks r) (links r) src dst h → flow (socks r) (links r) dst src h2 →
  (∀ S, flow S (links r) src dst h' → flow S (links r) dst src h2 → thread_ok S (links r) t p') →
  intact (goto t p' r1).
Proof.
  intros Ho Hi Hp Hu Hu' Hrp Hsg Hsrc Hdst Hne Hh Hf1 Hf2 Hok. rewrite <- Hu in Hsrc, Hdst.
  assert (bounded (socks r)) as Hb by exact (in_taken r Hi).
  assert (∀ l, thread_ok (socks r) (links r) t p' → intact (goto t p' (r <| socks ::= shut_all l |>))) as Hmove.
  { intros l Hok'. eapply (intact_move r _ t p p'); try done; [by eexists|by rewrite Hsg|by rewrite Hu', Hu|by rewrite Hrp]. }
  destruct h as [|buf| |], x as [n| | | |]; try done; cbn in Hh;
    try (injection Hh as <- <-; apply (Hmove [a; b]), Hok; [eapply flow_stop; [done|by right]|done]).
  - apply bind_Some in Hh as (k & Hk & Hh). destruct (read_conn copyBufSize n k) as [[buf k']|] eqn:Hr; [|done]. injection Hh as <- <-.
    destruct (flow_read _ _ _ _ _ _ _ _ _ Hne Hb Hk Hr Hf1 Hf2) as [Hf1' Hf2'].
    destruct (read_slice _ _ _ _ _ 0 Hr (Nat.le_0_l _) (Hb _ _ Hk)) as (_ & Es & Eg & Ht).
    eapply (intact_set r _ t p p' src k k'); try done.
    + split; [by rewrite Es|lia]. + rewrite Es. lia. + by rewrite Hsg. + by rewrite Hu', Hu. + by rewrite Hrp. + by apply Hok.
    + intros l Hl. by eapply flow_link.
    + intros Hl. destruct Hf2 as (? & ? & l & _ & _ & Hl2 & _). congruence.
  - injection Hh as <- <-. replace r with (r <| socks ::= shut_all [] |>) by by destruct r. apply Hmove, Hok; [|done].
    eapply flow_stop; [done|by left].
  - apply bind_Some in Hh as (k & Hk & Hh). destruct (write_conn n buf k) as [ok k'] eqn:Hw. injection Hh as <- <-.
    destruct (flow_write _ _ _ _ _ _ _ _ _ _ Hne Hk Hw Hf1 Hf2) as [Hf1' Hf2'].
    destruct (write_prefix _ _ _ _ _ Hw) as (Es & Et & _). pose proof (Hb _ _ Hk).
    eapply (intact_set r _ t p p' dst k k'); try done.
    + split; [by rewrite Es|lia]. + rewrite Es. lia. + by rewrite Hsg. + by rewrite Hu', Hu. + by rewrite Hrp. + by apply Hok.
    + intros l Hl. by eapply flow_link.
    + intros Hl. destruct Hf1 as (? & ? & l & _ & _ & Hl2 & _). congruence.
Qed.

(** ** Steps that splice *)

Lemma not_reg_thread (r : relay) (t : id) (p : pc) : intact r → threads r !! t = Some p → reg_pc p = false → ¬ is_reg r t.
Proof. intros Hi Hp Hr Hreg. destruct (in_reg r Hi t Hreg) as (_ & _ & q & Hq & Hrq). congruence. Qed.

Lemma not_reg_held (r : relay) (h : holder) (c : id) : intact r → holds r h c → h ≠ HThread c → ¬ is_reg r c.
Proof. intros Hi Hh Hne Hreg. destruct (in_reg r Hi c Hreg) as (_ & Ho & _). by apply Hne, Ho. Qed.

(** Two connections to which nothing was written are linked. *)
Lemma joined_splice (S : conns_map) (L : links_map) (a b : id) (ka kb : conn) (ga gb : bytes) :
  a ≠ b → S !! a = Some ka → S !! b = Some kb → got ka = [] → got kb = [] →
  joined S (<[a := mkLink b (taken kb) ga]> (<[b := mkLink a (taken ka) gb]> L)) a b false false.
Proof.
  intros Hne Ha Hb Hga Hgb. exists ka, kb, (mkLink b (taken kb) ga), (mkLink a (taken ka) gb).
  rewrite lookup_insert_eq, lookup_insert_ne, lookup_insert_eq by done. by split_and!.
Qed.

Lemma joined_greetless (S : conns_map) (L : links_map) (a b : id) (gb : bool) :
  greeting <$> L !! a = Some [] → joined S L a b false gb → joined S L a b true gb.
Proof.
  intros Hg (ka & kb & la & lb & Hr). destruct_and!. exists ka, kb, la, lb. split_and!; try done.
  destruct (L !! a); cbn in Hg; congruence.
Qed.

Lemma intact_splice (r r' : relay) (t a b : id) (p p' : pc) (ka kb : conn) (ga gb : bytes) :
  intact r → owned r' → threads r !! t = Some p → threads r' = <[t := p']> (threads r) →
  a ≠ b → socks r !! a = Some ka → socks r !! b = Some kb → blank (socks r) (links r) a → blank (socks r) (links r) b →
  socks r' = socks r → links r' = <[a := mkLink b (taken kb) ga]> (<[b := mkLink a (taken ka) gb]> (links r)) →
  a ∈ uses t p' → b ∈ uses t p' → (∀ c, c ∈ uses t p' → c ∈ uses t p ∨ c = a ∨ c = b) → ¬ is_reg r a → ¬ is_reg r b →
  (∀ k s, pending r' !! k = Some s → pending r !! k = Some s) → (∀ k c, parked r' !! k = Some c → parked r !! k = Some c) →
  regs r' = regs r → signals p' = None → reg_pc p = false →
  (∀ k i q u, Matched k i q u ∈ log r' → Matched k i q u ∈ log r ∨ match_ok (socks r') (links r') k i q) →
  (joined (socks r') (links r') a b false false → thread_ok (socks r') (links r') t p') →
  intact r'.
Proof.
  intros Hi Ho' Hp Et Hne Hka Hkb Hba Hbb ES EL Ha Hb Hu Hra Hrb Hpend Hpark Eregs Hsig Hrp Hlog Hok.
  assert (holds r' (HThread t) a ∧ holds r' (HThread t) b) as [Hha Hhb]
    by (split; exists p'; rewrite Et, lookup_insert_eq; by split).
  assert (∀ c h, c ∈ [a; b] → holds r' h c → h = HThread t) as Hmine.
  { intros c h Hc Hh. eapply (owned_once r' Ho' h (HThread t) c Hh). by apply elem_of_cons in Hc as [->|[->|[]%elem_of_nil]%elem_of_cons]. }
  destruct Hba as (ka' & Hka' & Hga & HLa), Hbb as (kb' & Hkb' & Hgb & HLb).
  assert (ka' = ka) as -> by congruence. assert (kb' = kb) as -> by congruence.
  assert (joined (socks r') (links r') a b false false) as Hj
    by (rewrite ES, EL; by apply joined_splice).
  apply (intact_step r r' [a; b] Hi).
  - rewrite ES. intros c k Hk. exists k. split_and!; [done|split; [done|lia]|]. intros _. by split_and!.
  - rewrite ES. exact (in_taken r Hi).
  - rewrite EL. intros c [? [? _]%not_elem_of_cons]%not_elem_of_cons. by rewrite !lookup_insert_ne.
  - rewrite EL. etrans; [by apply insert_subseteq|]. apply insert_subseteq. by rewrite lookup_insert_ne.
  - rewrite Et. intros t' q. rewrite lookup_insert_Some. intros [[<- <-]|[Hne' Hq]]; [right; by apply Hok|left].
    split; [done|]. intros c Hc Hcq. exfalso. assert (HThread t' = HThread t) as [= ->]; [|done].
    apply (Hmine c); [done|]. exists q. rewrite Et, lookup_insert_ne; done.
  - intros k s Hs. left. split; [by apply Hpend|]. intros Hc. assert (HSlot k = HThread t); [|done].
    apply (Hmine (s_conn s)); [done|]. cbn. by rewrite Hs.
  - intros k c Hc. left. split; [by apply Hpark|]. intros HcT. assert (HParked k = HThread t); [|done]. by apply (Hmine c).
  - intros c l [->|[->|[]%elem_of_nil]%elem_of_cons]%elem_of_cons Hl; [by eapply joined_link|]. by eapply joined_link; [apply joined_sym|].
  - intros c Hc. assert (is_reg r c) as Hc0.
    { destruct Hc as [[host Hh]|(t' & q & Hq & Hs)]; [left; rewrite Eregs in Hh; eauto|]. rewrite Et in Hq.
      apply lookup_insert_Some in Hq as [[<- <-]|[_ Hq]]; [congruence|right; eauto]. }
    assert (c ≠ a) by (by intros ->). assert (c ≠ b) by (by intros ->).
    destruct (in_reg r Hi c Hc0) as (HL & Hh & q & Hq & Hrq). split_and!; [by rewrite EL, !lookup_insert_ne| |].
    + intros h Hh'. apply Hh. destruct h as [t'|k|k]; cbn in *; [| |by apply Hpark].
      * rewrite Et in Hh'. destruct Hh' as (q' & Hq' & Hin). apply lookup_insert_Some in Hq' as [[<- <-]|[_ Hq']]; [|eauto].
        apply Hu in Hin as [?|[?|?]]; [eauto|done..].
      * destruct (pending r' !! k) as [s|] eqn:Es; [|done]. by rewrite (Hpend k s Es).
    + exists q. rewrite Et, lookup_insert_ne; [done|]. intros ->. congruence.
  - rewrite EL, ES. intros c k Hk [Hn|Hc] HL; [congruence|]. exfalso.
    apply elem_of_cons in Hc as [->|[->|[]%elem_of_nil]%elem_of_cons]; [by rewrite lookup_insert_eq in HL|].
    by rewrite lookup_insert_ne, lookup_insert_eq in HL.
  - exact Hlog.
Qed.

(** A goroutine gives its connection away. *)
Lemma intact_give (r r' : relay) (t : id) (p p' : pc) :
  intact r → threads r !! t = Some p → threads r' = <[t := p']> (threads r) → reg_pc p = false → uses t p' = [] →
  socks r' = socks r → links r' = links r → regs r' = regs r → log r' = log r →
  (∀ S L, thread_ok S L t p') → (∀ c, signals p' = Some c → is_reg r c) →
  (∀ k s, pending r' !! k = Some s → pending r !! k = Some s ∨ s_conn s = t ∧ slot_ok (socks r) (links r) k s) →
  (∀ k c, parked r' !! k = Some c → parked r !! k = Some c ∨ c = t ∧ blank (socks r) (links r) c) →
  intact r'.
Proof.
  intros Hi Hp Et Hrp Hu ES EL Eregs Elog Hok Hsig Hpend Hpark.
  apply (intact_step r r' [] Hi); rewrite ?ES, ?EL, ?Elog; try done.
  - intros c k Hk. exists k. split_and!; [done|split; [done|lia]|]. intros _. by split_and!.
  - exact (in_taken r Hi).
  - rewrite Et. intros t' q. rewrite lookup_insert_Some. intros [[<- <-]|[_ Hq]]; [by right|left]. split; [done|].
    intros c Hc. by apply elem_of_nil in Hc.
  - intros k s Hs. destruct (Hpend k s Hs) as [?|[_ ?]]; [left|by right]. split; [done|apply not_elem_of_nil].
  - intros k c Hc. destruct (Hpark k c Hc) as [?|[_ ?]]; [left|by right]. split; [done|apply not_elem_of_nil].
  - intros c l Hc. by apply elem_of_nil in Hc.
  - intros c Hc. assert (is_reg r c) as Hc0.
    { destruct Hc as [[host Hh]|(t' & q & Hq & Hs)]; [left; rewrite Eregs in Hh; eauto|]. rewrite Et in Hq.
      apply lookup_insert_Some in Hq as [[<- <-]|[_ Hq]]; [by apply Hsig|right; eauto]. }
    assert (c ≠ t) by (intros ->; by eapply (not_reg_thread r t p)).
    destruct (in_reg r Hi c Hc0) as (HL & Hh & q & Hq & Hrq). split_and!; [done| |exists q; rewrite Et, lookup_insert_ne; done].
    intros h Hh'. apply Hh. destruct h as [t'|k|k]; cbn in *.
    + rewrite Et in Hh'. destruct Hh' as (q' & Hq' & Hin). apply lookup_insert_Some in Hq' as [[<- <-]|[_ Hq']]; [|eauto].
      rewrite Hu in Hin. by apply elem_of_nil in Hin.
    + destruct (pending r' !! k) as [s|] eqn:Es; [|done]. cbn in Hh'. injection Hh' as Es'.
      destruct (Hpend k s Es) as [->|[? _]]; [by rewrite <- Es'|congruence].
    + by destruct (Hpark k c Hh') as [?|[? _]].
  - intros c k Hk [Hn|Hc] _; [congruence|by apply elem_of_nil in Hc].
  - auto.
Qed.

Lemma rendezvous_intact (c : id) (h : RelayHello) (r : relay) :
  owned r → intact r → threads r !! c = Some (Rendezvous h) → intact (rendezvous cf c h r).
Proof.
  intros Ho Hi Hp. destruct (in_thread r Hi c _ Hp) as (Hbl & Hsd & Hro).
  assert (∀ msg, intact (goto c (Rejecting msg) r)) as Hrej.
  { intros msg. eapply (intact_move r _ c _ (Rejecting msg)); try done. by exists []. }
  pose proof (rendezvous_owned cf ParseIP c h r Ho Hp) as Ho'. unfold rendezvous in *.
  destruct (closed r); [done|]. case_bool_decide; [done|]. destruct (pending r !! Token h) as [s|] eqn:Hs.
  - case_bool_decide as Hrole; [done|]. destruct (in_slot r Hi _ _ Hs) as (Hbw & hw & Hsw & Hrw & Htw & Ers).
    assert (holds r (HSlot (Token h)) (s_conn s)) as Hw by (cbn; by rewrite Hs).
    assert (¬ is_reg r (s_conn s)) as Hnw by by eapply not_reg_held.
    assert (¬ is_reg r c) as Hnc by by eapply not_reg_thread.
    assert (c ≠ s_conn s) as Hne.
    { intros E. rewrite <- E in Hw. assert (HThread c = HSlot (Token h)); [|done]. eapply (owned_once r Ho); [|exact Hw].
      exists (Rendezvous h). split; [done|listed]. }
    destruct Hsd as (kc & Hkc & Hic), Hsw as (kw & Hkw & Hiw).
    destruct (if bool_decide (Role h = RoleInitiator) then (c, s_conn s) else (s_conn s, c)) as [i q] eqn:Eip.
    assert (∃ ki kq hi hq, socks r !! i = Some ki ∧ socks r !! q = Some kq ∧ introduced ki hi (taken ki) ∧ introduced kq hq (taken kq) ∧
      Token hi = Token h ∧ Token hq = Token h ∧ Role hi = RoleInitiator ∧ Role hq = RoleResponder ∧
      blank (socks r) (links r) i ∧ blank (socks r) (links r) q ∧ i ≠ q ∧ ¬ is_reg r i ∧ ¬ is_reg r q ∧
      (∀ d, d = i ∨ d = q → d = c ∨ d = s_conn s)) as (ki & kq & hi & hq & Hki & Hkq & Hii & Hiq & Hti & Htq & Hri & Hrq & Hbi & Hbq & Hiq' & Hni & Hnq & Hcov).
    { case_bool_decide as Ei; simplify_eq.
      - exists kc, kw, h, hw. split_and!; try done. by destruct Hrw as [E|E]; [congruence|].
      - exists kw, kc, hw, h. split_and!; try done.
        + by destruct Hrw as [E|E], Hro as [E'|E']; congruence.
        + by destruct Hro.
        + intros d [-> | ->]; auto. }
    eapply (intact_splice r _ c i q _ _ ki kq ok_frame ok_frame Hi Ho' Hp); try done; cbn.
    + unfold taken_of. cbn. by rewrite Hki, Hkq.
    + listed. + listed.
    + intros d [->|[->|[]%elem_of_nil]%elem_of_cons]%elem_of_cons; auto.
    + intros k s'. rewrite lookup_delete_Some. by intros [_ ?].
    + intros k a b u [Hin|Hin%list_elem_of_singleton]%elem_of_app; [by left|right]. injection Hin as -> -> -> ->.
      unfold taken_of. cbn. rewrite Hki, Hkq. cbn.
      exists ki, kq, hi, hq, (mkLink q (taken kq) ok_frame), (mkLink i (taken ki) ok_frame).
      rewrite lookup_insert_eq, lookup_insert_ne, lookup_insert_eq by done. by split_and!.
    + intros Hj. split; [exact Hj|]. split; [by rewrite lookup_insert_eq|]. by rewrite lookup_insert_ne, lookup_insert_eq.
  - destruct (_ <=? _); [done|]. eapply (intact_give r _ c); try done; [|by left].
    intros k s. cbn. rewrite lookup_insert_Some. intros [[<- <-]|[_ ?]]; [right|by left]. split; [done|]. split; [done|]. by exists h.
Qed.

Lemma dial_intact (c g : id) (l : list string) (a : string) (e : event) (r : relay) :
  owned r → intact r → threads r !! c = Some (MuxDial (a :: l)) → socks r !! g = None → (∀ k i p u, e ≠ Matched k i p u) →
  intact (goto c (MuxJoin g) (set_conn g fresh_conn (r <| log ::= λ l, l ++ [e] |>))).
Proof.
  intros Ho Hi Hp Hg He. pose proof (in_thread r Hi c _ Hp) as Hbl. cbn in Hbl.
  assert (links r !! g = None) as HLg.
  { destruct (links r !! g) as [l0|] eqn:E; [|done]. destruct (in_link r Hi g l0 E) as (k & _ & Hk & _). congruence. }
  assert (∀ c k, socks r !! c = Some k → <[g := fresh_conn]> (socks r) !! c = Some k) as Hold
    by (intros d k Hk; rewrite lookup_insert_ne; congruence).
  apply (intact_step r _ [] Hi); try done; cbn.
  - intros d k Hk. exists k. split_and!; [by apply Hold|split; [done|lia]|]. intros _. by split_and!.
  - intros d k. rewrite lookup_insert_Some. intros [[_ <-]|[_ ?]]; [cbn; lia|by eapply (in_taken r Hi)].
  - intros t q. rewrite lookup_insert_Some. intros [[<- <-]|[_ Hq]]; [right|left; split; [done|by intros d ?%elem_of_nil]].
    destruct Hbl as (k & Hk & Hgk & HL). split; [exists k; split_and!; auto|]. exists fresh_conn. by rewrite lookup_insert_eq.
  - intros k s Hs. left. split; [done|apply not_elem_of_nil].
  - intros k d Hd. left. split; [done|apply not_elem_of_nil].
  - intros d ? Hd. by apply elem_of_nil in Hd.
  - intros d Hd. assert (is_reg r d) as Hd0.
    { destruct Hd as [[host Hh]|(t' & q & Hq & Hs)]; [left; eauto|]. cbn in Hq.
      apply lookup_insert_Some in Hq as [[<- <-]|[_ Hq]]; [done|right; eauto]. }
    destruct (in_reg r Hi d Hd0) as (HL & Hh & q & Hq & Hrq). split_and!; [done| |].
    + intros h Hh'. apply Hh. destruct h as [t'|k|k]; cbn in *; [|done..]. destruct Hh' as (q' & Hq' & Hin).
      apply lookup_insert_Some in Hq' as [[<- <-]|[_ Hq']]; [|eauto]. exists (MuxDial (a :: l)). split; [done|].
      apply elem_of_cons in Hin as [->|[->|[]%elem_of_nil]%elem_of_cons]; [listed|].
      destruct (owned_thread r Ho g q Hq) as [[? ?] _]. congruence.
    + exists q. rewrite lookup_insert_ne; [done|]. intros ->. by simplify_eq.
  - intros d k. rewrite lookup_insert_Some. intros [[_ <-]|[_ Hk]]; [constructor|].
    intros [Hn|Hd]; [congruence|by apply elem_of_nil in Hd].
  - intros k i p u [Hin|Hin%list_elem_of_singleton]%elem_of_app; [by left|]. by destruct (He k i p u).
Qed.

Lemma signal_intact (c reg : id) (n : nat) (host token : string) (k k' : conn) (ok : bool) (r : relay) :
  owned r → intact r → threads r !! c = Some (PubSignal host token reg) → socks r !! reg = Some k →
  write_json n (mkFunnelDial token) k = (ok, k') →
  intact (goto c (if ok then Gone else PubDrop host token reg) (set_conn reg k' r)).
Proof.
  intros Ho Hi Hp Hk Hw. destruct (later_write _ _ _ _ _ Hw) as (Hl & Es & Et). pose proof (in_taken r Hi reg k Hk).
  assert (is_reg r reg) as Hreg by (right; by exists c, (PubSignal host token reg)).
  destruct (in_reg r Hi reg Hreg) as (HL & Hh & q & Hq & Hrq).
  apply (intact_step r _ [reg] Hi); try done; cbn.
  - intros d kd Hd. destruct (decide (d = reg)) as [->|Hne].
    + rewrite lookup_insert_eq. simplify_eq. exists k'. split_and!; [done..|]. by intros []%not_elem_of_cons.
    + rewrite lookup_insert_ne by done. exists kd. split_and!; [done|split; [done|lia]|]. intros _. by split_and!.
  - intros d kd. rewrite lookup_insert_Some. intros [[_ <-]|[_ ?]]; [by rewrite Es, Et|by eapply (in_taken r Hi)].
  - intros t p. rewrite lookup_insert_Some. intros [[<- <-]|[_ Hp']]; [right; by destruct ok|left]. split; [done|].
    intros d ->%list_elem_of_singleton Hd. split; [|done]. assert (HThread t = HThread reg) as [= ->] by (apply Hh; by exists p). congruence.
  - intros s0 s Hs. left. split; [done|]. intros Hin%list_elem_of_singleton. assert (HSlot s0 = HThread reg); [|done].
    apply Hh. cbn. rewrite Hs. cbn. by rewrite Hin.
  - intros s0 d Hd. left. split; [done|]. intros ->%list_elem_of_singleton. by pose proof (Hh (HParked s0) Hd).
  - intros d l ->%list_elem_of_singleton. by rewrite HL.
  - intros d Hd. assert (is_reg r d) as Hd0.
    { destruct Hd as [[host' Hh']|(t' & q' & Hq' & Hs)]; [left; eauto|]. cbn in Hq'.
      apply lookup_insert_Some in Hq' as [[<- <-]|[_ Hq']]; [|right; eauto]. destruct ok; [done|]. cbn in Hs. by injection Hs as <-. }
    destruct (in_reg r Hi d Hd0) as (HL' & Hh' & q' & Hq' & Hrq'). split_and!; [done| |].
    + intros h Hh0. apply Hh'. destruct h as [t'|s0|s0]; cbn in *; [|done..]. destruct Hh0 as (p0 & Hp0 & Hin).
      apply lookup_insert_Some in Hp0 as [[<- <-]|[_ Hp0]]; [|eauto]. destruct ok; by apply elem_of_nil in Hin.
    + destruct (decide (d = c)) as [->|Hne]; [|exists q'; by rewrite lookup_insert_ne]. by simplify_eq.
  - intros d kd. rewrite lookup_insert_Some. intros [[<- <-]|[_ Hkd]].
    + intros _ _. apply (talk_write _ _ _ _ _ Hw); [intros m Hm; right; by exists (mkFunnelDial token)|]. by eapply (in_talk r Hi).
    + intros [Hn|Hd%list_elem_of_singleton] HL'; [congruence|]. subst d. by eapply (in_talk r Hi).
  - auto.
Qed.

(** ** The invariant is kept *)

(** A goroutine that only moves. *)
Ltac intact_moves :=
  eapply intact_move;
    [eassumption|eassumption|eassumption|rewrite ?close_all_eq; reflexivity
    |rewrite ?close_all_eq; first [by exists [] | by eexists [_] | by eexists]
    |rewrite ?close_all_eq; reflexivity|try done..].

Lemma validate_role (h : RelayHello) :
  validateHello h = None → Kind h ≠ RelayKindControl → Kind h ≠ RelayKindFunnelReg → Kind h ≠ RelayKindFunnelData → role_ok h.
Proof.
  unfold validateHello. intros E Hk1 Hk2 Hk3. destruct (negb _); [done|]. rewrite !bool_decide_false in E by done.
  destruct (bool_decide (Kind h ≠ "")); [done|]. destruct (_ && _) eqn:Er; [done|]. unfold role_ok.
  apply andb_false_iff in Er as [Er%bool_decide_eq_false|Er%bool_decide_eq_false]; [left|right]; by apply dec_stable.
Qed.

Lemma joined_flow (S : conns_map) (L : links_map) (a b : id) : joined S L a b true true → flow S L a b Reading.
Proof.
  intros (ka & kb & la & lb & Ha & Hb & Hla & Hlb & Hma & Hmb & Hfa & Hfb & Hga & Hgb). exists ka, kb, lb.
  split_and!; [done..|lia|]. rewrite Hgb, Hfb. unfold slice. rewrite drop_ge; [by rewrite app_nil_r|]. rewrite length_take. lia.
Qed.

Lemma regset_intact (c : id) (host : string) (r : relay) :
  owned r → intact r → threads r !! c = Some (RegSet host) → intact (goto c (RegAck host) (r <| regs ::= <[host := c]> |>)).
Proof.
  intros Ho Hi Hp. pose proof (in_thread r Hi c _ Hp) as HL. cbn in HL.
  assert (intact (goto c (RegAck host) r)) as Hi' by by (eapply intact_move; try done; by exists []).
  assert (∀ h, holds r h c → h = HThread c) as Hc
    by (intros h Hh; apply (owned_once r Ho h (HThread c) c Hh); exists (RegSet host); split; [done|listed]).
  destruct Hi' as [I1 I2 I3 I4 I5 I6 I7 I8]. split; try done. intros d Hd.
  destruct (decide (d = c)) as [->|Hne].
  - split_and!; [done| |exists (RegAck host); cbn; by rewrite lookup_insert_eq]. intros h Hh. apply Hc.
    destruct h as [t|k|k]; cbn in *; [|done..]. destruct Hh as (q & Hq & Hin).
    apply lookup_insert_Some in Hq as [[<- <-]|[_ Hq]]; [exists (RegSet host); by split|eauto].
  - apply I6. destruct Hd as [[host' Hh]|Hd]; [left|by right]. cbn in Hh. apply lookup_insert_Some in Hh as [[_ ->]|[_ Hh]]; [done|eauto].
Qed.

Lemma muxjoin_intact (c g : id) (r : relay) :
  owned r → intact r → threads r !! c = Some (MuxJoin g) → closed r = false →
  intact (goto c (MuxAck g) (splice c g (taken_of c r) (taken_of g r) ok_frame [] (r <| muxConns ::= λ s, {[g]} ∪ s |>))).
Proof.
  intros Ho Hi Hp Hcl. destruct (in_thread r Hi c _ Hp) as [Hbc Hbg]. destruct (owned_thread r Ho c _ Hp) as [_ [Hne _]%NoDup_cons].
  assert (¬ is_reg r g) as Hng.
  { eapply (not_reg_held r (HThread c)); [done|exists (MuxJoin g); split; [done|listed]|]. intros [= ->]. set_solver. }
  assert (¬ is_reg r c) as Hnc by by eapply not_reg_thread.
  destruct Hbc as (kc & Hkc & Hgc & HLc), Hbg as (kg & Hkg & Hgg & HLg).
  assert (owned (goto c (MuxAck g) (splice c g (taken_of c r) (taken_of g r) ok_frame [] (r <| muxConns ::= λ s, {[g]} ∪ s |>)))) as Ho'.
  { eapply (thread_owned cf ParseIP c true (Data 0) r); [done|]. unfold thread_step, mux_step, funnel_data_step, funnel_reg_step, funnel_public_step. rewrite Hp. cbn. by rewrite Hcl. }
  eapply (intact_splice r _ c c g _ _ kc kg ok_frame [] Hi Ho' Hp); try done; cbn.
  - set_solver. - by exists kc. - by exists kg.
  - unfold taken_of. cbn. by rewrite Hkc, Hkg.
  - listed. - listed.
  - by left.
  - auto.
  - intros Hj. split; [apply joined_sym, joined_greetless, joined_sym, Hj; by rewrite lookup_insert_ne, lookup_insert_eq by set_solver|].
    split; [by rewrite lookup_insert_eq|]. by rewrite lookup_insert_ne, lookup_insert_eq by set_solver.
Qed.

Lemma funnel_take_intact (c d : id) (token : string) (r : relay) :
  owned r → intact r → threads r !! c = Some (FunnelTake token) → parked r !! token = Some d →
  intact (goto c (FunnelAck d) (splice d c (taken_of d r) (taken_of c r) [] ok_frame (r <| parked ::= delete token |>))).
Proof.
  intros Ho Hi Hp Hd. pose proof (in_thread r Hi c _ Hp) as Hbc. cbn in Hbc. pose proof (in_parked r Hi _ _ Hd) as Hbd.
  assert (¬ is_reg r d) as Hnd by by eapply (not_reg_held r (HParked token)).
  assert (¬ is_reg r c) as Hnc by by eapply not_reg_thread.
  assert (d ≠ c) as Hne.
  { intros ->. assert (HThread c = HParked token); [|done]. eapply (owned_once r Ho); [|exact Hd]. exists (FunnelTake token). split; [done|listed]. }
  pose proof (funnel_take_owned ParseIP c token d (taken_of d r) (taken_of c r) [] ok_frame r Ho Hp Hd) as Ho'.
  destruct Hbc as (kc & Hkc & Hgc & HLc), Hbd as (kd & Hkd & Hgd & HLd).
  eapply (intact_splice r _ c d c _ _ kd kc [] ok_frame Hi Ho' Hp); try done; cbn.
  - by exists kd. - by exists kc.
  - unfold taken_of. cbn. by rewrite Hkc, Hkd.
  - listed. - listed.
  - intros e [->|[->|[]%elem_of_nil]%elem_of_cons]%elem_of_cons; auto.
  - intros k e. rewrite lookup_delete_Some. by intros [_ ?].
  - auto.
  - intros Hj. split; [apply joined_greetless, Hj; by rewrite lookup_insert_eq|].
    split; [by rewrite lookup_insert_eq|]. by rewrite lookup_insert_ne, lookup_insert_eq by done.
Qed.

Lemma goto_id (c : id) (p : pc) (r : relay) : threads r !! c = Some p → goto c p r = r.
Proof.
  intros Hp. change (goto c p r) with (r <| threads := <[c := p]> (threads r) |>). rewrite insert_id by done. by destruct r.
Qed.

Lemma thread_intact (c : id) (ab : bool) (x : io) (r r' : relay) :
  owned r → intact r → thread_step cf ParseIP c ab x r = Some r' → intact r'.
Proof.
  intros Ho Hi Hs. pose proof Hs as Hs'. open_step Hs.
  destruct (threads r !! c) as [p|] eqn:Hp; [|done]. cbn [mbind option_bind] in Hs.
  pose proof (in_thread r Hi c p Hp) as Hok. destruct (owned_thread r Ho c p Hp) as [_ Hnd].
  destruct p; try discriminate Hs; cbn in Hok.
  - destruct x; try done; [|cases Hs; intact_moves; apply Hok].
    apply bind_Some in Hs as (k & Hk & Hs). destruct (read_hello k) as [[[h|e] k']|] eqn:Hr; simplify_eq; by eapply hello_intact.
  - destruct x; try done. by eapply reject_intact.
  - destruct x; try done. unfold dispatch in Hs. destruct Hok as (Hbl & Hsd & Hv). cases Hs; intact_moves.
    split_and!; [done..|]. by apply validate_role; [|by eapply bool_decide_eq_false_1..].
  - destruct x; try done. cases Hs. by apply rendezvous_intact.
  - destruct x; try done. destruct Hok as [Hj [Hga Hgb]]. apply NoDup_cons in Hnd as [Hne _]. destruct second.
    + eapply (greet_intact c b a); try done; try listed; [set_solver|by apply joined_sym|by intros S ?%joined_sym].
    + eapply (greet_intact c a b); try done; try listed; set_solver.
  - destruct x; try done. cases Hs. intact_moves. split; [by apply joined_flow|by apply joined_flow, joined_sym].
  - apply NoDup_cons in Hnd as [Hne _]. destruct Hok as [H1' H2']. destruct (pump_inv cf ParseIP _ _ _ _ _ _ _ _ _ _ Hp Hs') as [->|[(h & r1 & E & ->)|(h & r1 & E & ->)]].
    + intact_moves. apply list_subseteq_nil.
    + eapply (half_intact c a b a b); try done; try listed; set_solver.
    + eapply (half_intact c a b b a); try done; try listed; set_solver.
  - destruct x; try done. cases Hs; intact_moves.
  - destruct x; try done. cases Hs; intact_moves.
  - destruct x; try done. cases Hs; intact_moves.
  - destruct addrs as [|a l]; [destruct x; cases Hs; intact_moves|]. destruct x; try done; cases Hs; [intact_moves|]. by eapply dial_intact.
  - destruct x; try done. cases Hs; [|by apply muxjoin_intact]. destruct Hok as [? _]. intact_moves. set_solver.
  - destruct x; try done. destruct Hok as [Hj [Hga Hgb]]. apply NoDup_cons in Hnd as [Hne _].
    eapply (greet_intact c c gw); try done; try listed; set_solver.
  - destruct x; try done. cases Hs; [by apply funnel_take_intact|]. intact_moves.
  - destruct x; try done. destruct Hok as [Hj [Hga Hgb]]. apply NoDup_cons in Hnd as [Hne _].
    eapply (greet_intact c c p); try done; try listed; [set_solver|by apply joined_sym|by intros S ?%joined_sym].
  - destruct x; try done. cases Hs; intact_moves; set_solver.
  - destruct x; try done. cases Hs; intact_moves.
  - destruct x; try done. cases Hs; intact_moves. by destruct Hok as (? & ? & ? & ?).
  - destruct x; try done. cases Hs. by apply regset_intact.
  - destruct x; try done. apply respond_inv in Hs as (k & k' & ok & Hk & Hw & ->).
    destruct (later_write _ _ _ _ _ Hw) as (Hl & Es & Et). pose proof (in_taken r Hi c k Hk).
    destruct ok; (eapply (intact_set r _ c _ _ c k k'); try done;
      [listed|by rewrite Es, Et|by rewrite Hok|intros _; apply (talk_write _ _ _ _ _ Hw); [apply resp_own|]; by eapply (in_talk r Hi)]).
  - destruct x; try done; [|cases Hs; intact_moves].
    apply bind_Some in Hs as (k & Hk & Hs). apply bind_Some in Hs as ([buf k'] & Hr & Hs). simplify_eq.
    destruct (read_slice _ _ _ _ _ 0 Hr (Nat.le_0_l _) (in_taken r Hi _ _ Hk)) as (_ & Es & Eg & Ht).
    replace (set_conn c k' r) with (goto c (RegHold host) (set_conn c k' r)).
    + eapply (intact_set r _ c _ _ c k k'); try done; [listed|split; [by rewrite Es|lia]|rewrite Es; lia|by rewrite Hok|].
      intros _. rewrite Eg. by eapply (in_talk r Hi).
    + by apply goto_id.
  - destruct x; try done. cases Hs. destruct (del_eq host c r) as (m & -> & Hm). intact_moves.
  - destruct x; try done. cases Hs; intact_moves. set_solver.
  - destruct x; try done; cases Hs; intact_moves. set_solver.
  - destruct x; try done; cases Hs; intact_moves. set_solver.
  - destruct x; try done; cases Hs; intact_moves; [|set_solver]. intros d [= <-]. left. by exists host.
  - destruct x; try done; cases Hs; [intact_moves; set_solver|]. eapply (intact_give r _ c); try done.
    + intros d [= <-]. right. by exists c, (PubPark host token reg).
    + by left.
    + intros k d. cbn. rewrite lookup_insert_Some. intros [[_ <-]|[_ ?]]; [by right|by left].
  - destruct x; try done. apply bind_Some in Hs as (k & Hk & Hs). destruct (write_json _ _ _) as [ok k'] eqn:Hw. simplify_eq. by eapply signal_intact.
  - destruct x; try done; cases Hs.
    + assert (∀ d, signals (PubDel host reg) = Some d → is_reg r d) by (intros d [= <-]; right; by exists c, (PubDrop host token reg)).
      intact_moves. cbn. intros k d. rewrite lookup_delete_Some. by intros [_ ?].
    + assert (∀ d, signals (PubDel host reg) = Some d → is_reg r d) by (intros d [= <-]; right; by exists c, (PubDrop host token reg)).
      intact_moves.
  - destruct x; try done. cases Hs. destruct (del_eq host reg r) as (m & -> & Hm). intact_moves.
  - destruct x; try done; cases Hs; intact_moves.
Qed.

Lemma accept_intact (c : id) (p : pc) (r r' : relay) :
  owned r → intact r → socks r !! c = None → uses c p = [c] → reg_pc p = false → signals p = None →
  (∀ S L, blank S L c → taken <$> S !! c = Some 0%nat → thread_ok S L c p) →
  threads r' = <[c := p]> (threads r) → socks r' = <[c := fresh_conn]> (socks r) → links r' = links r →
  pending r' = pending r → parked r' = parked r → regs r' = regs r → log r' = log r → intact r'.
Proof.
  intros Ho Hi Hc Hu Hrp Hsg Hok Et ES EL Ep Ek Er Elog.
  assert (links r !! c = None) as HLc.
  { destruct (links r !! c) as [l0|] eqn:E; [|done]. destruct (in_link r Hi c l0 E) as (k & _ & Hk & _). congruence. }
  assert (∀ d k, socks r !! d = Some k → <[c := fresh_conn]> (socks r) !! d = Some k) as Hold
    by (intros d k Hk; rewrite lookup_insert_ne; congruence).
  apply (intact_step r r' [] Hi); rewrite ?ES, ?EL, ?Ep, ?Ek, ?Elog; try done.
  - intros d k Hk. exists k. split_and!; [by apply Hold|split; [done|lia]|]. intros _. by split_and!.
  - intros d k. rewrite lookup_insert_Some. intros [[_ <-]|[_ ?]]; [cbn; lia|by eapply (in_taken r Hi)].
  - rewrite Et. intros t q. rewrite lookup_insert_Some. intros [[<- <-]|[_ Hq]]; [right|left; split; [done|by intros d ?%elem_of_nil]].
    apply Hok; [exists fresh_conn; by rewrite lookup_insert_eq|by rewrite lookup_insert_eq].
  - intros k s Hs. left. split; [done|apply not_elem_of_nil].
  - intros k d Hd. left. split; [done|apply not_elem_of_nil].
  - intros d ? Hd. by apply elem_of_nil in Hd.
  - intros d Hd. assert (is_reg r d) as Hd0.
    { destruct Hd as [[host Hh]|(t' & q & Hq & Hs)]; [left; rewrite Er in Hh; eauto|]. rewrite Et in Hq.
      apply lookup_insert_Some in Hq as [[<- <-]|[_ Hq]]; [congruence|right; eauto]. }
    destruct (in_reg r Hi d Hd0) as (HL & Hh & q & Hq & Hrq). destruct (owned_thread r Ho d q Hq) as [[kd Hkd] _].
    assert (d ≠ c) by (intros ->; congruence). split_and!; [done| |exists q; rewrite Et, lookup_insert_ne; done].
    intros h Hh'. apply Hh. destruct h as [t'|k|k]; cbn in *; [|by rewrite Ep in Hh'|by rewrite Ek in Hh']. rewrite Et in Hh'.
    destruct Hh' as (q' & Hq' & Hin). apply lookup_insert_Some in Hq' as [[<- <-]|[_ Hq']]; [|eauto].
    rewrite Hu in Hin. by apply list_elem_of_singleton in Hin.
  - intros d k. rewrite lookup_insert_Some. intros [[_ <-]|[_ Hk]]; [constructor|].
    intros [Hn|Hd]; [congruence|by apply elem_of_nil in Hd].
  - auto.
Qed.

Lemma act_intact (a : action) (r r' : relay) : owned r → intact r → act cf ParseIP a r = Some r' → intact r'.
Proof.
  intros Ho Hi Ha.
  assert (∀ c l, socks r !! c = None → intact (r <| socks := shut_all l (<[c := fresh_conn]> (socks r)) |>)) as Hopen.
  { intros c l Hc. eapply (intact_shut (r <| socks := <[c := fresh_conn]> (socks r) |>) _ l); [|done].
    apply (intact_env r); try done; cbn.
    - intros d k Hk. exists k. rewrite lookup_insert_ne by congruence. split; [done|]. by split_and!.
    - intros d k'. rewrite lookup_insert_Some. intros [[_ <-]|[_ ?]]; [done|congruence].
    - intros d k'. rewrite lookup_insert_Some. intros [[_ <-]|[_ ?]]; [cbn; lia|by eapply (in_taken r Hi)]. }
  assert (∀ r1 l, threads r1 = threads r → socks r1 = shut_all l (socks r) → links r1 = links r →
    (∀ k s, pending r1 !! k = Some s → pending r !! k = Some s) → (∀ k c, parked r1 !! k = Some c → parked r !! k = Some c) →
    regs r1 = regs r → log r1 = log r → intact r1) as Hquiet.
  { intros r1 l Et ES EL Ep Ek Er Elog. apply (intact_env r); try done; rewrite ES.
    - intros d k Hk. by apply shut_all_same.
    - intros d k' Hk' Hn. destruct (shut_all_back l _ d k' Hk') as (k & ? & _). congruence.
    - apply shut_all_bounded. exact (in_taken r Hi). }
  destruct a as [c|c|c bs|c ab x|i|i| |forced|d|m|m|f]; cbn in Ha.
  - destruct (_ && _) eqn:E; [|done]. apply andb_true_iff in E as [E%bool_decide_eq_true _]. injection Ha as <-.
    unfold accept. cbn. destruct (closed r); [by apply (Hopen c [c])|]. destruct (_ <=? _); [by apply (Hopen c [c])|].
    by eapply (accept_intact c Hello r).
  - destruct (_ && _) eqn:E; [|done]. apply andb_true_iff in E as [E%bool_decide_eq_true _]. injection Ha as <-.
    by eapply (accept_intact c PubHandshake r).
  - apply bind_Some in Ha as (k & Hk & [= <-]). apply (intact_env r); try done; cbn.
    + intros d kd Hd. destruct (decide (d = c)) as [->|Hne].
      * rewrite lookup_insert_eq. simplify_eq. eexists. split; [reflexivity|]. split; [by eexists|done].
      * rewrite lookup_insert_ne by done. exists kd. split; [done|]. by split_and!.
    + intros d kd. rewrite lookup_insert_Some. intros [[<- _]|[_ ?]]; congruence.
    + intros d kd. rewrite lookup_insert_Some. intros [[_ <-]|[_ ?]]; [|by eapply (in_taken r Hi)]. cbn.
      rewrite length_app. pose proof (in_taken r Hi c k Hk). lia.
  - by eapply thread_intact.
  - apply bind_Some in Ha as ([u e] & _ & Ha). destruct (_ <=? _); simplify_eq. by apply (Hquiet _ []).
  - apply bind_Some in Ha as (cb & _ & Ha). unfold run_callback in Ha. repeat case_match; simplify_eq;
      try (by apply (Hquiet _ [])); try (by eapply (Hquiet _ [_])); apply (Hquiet _ []); try done; cbn.
    + intros k s. rewrite lookup_delete_Some. by intros [_ ?].
    + intros k s. rewrite lookup_delete_Some. by intros [_ ?].
  - simplify_eq. by apply (Hquiet _ []).
  - unfold shutdown_step in Ha. destruct (stop r); repeat case_match; simplify_eq; try (by apply (Hquiet _ [])).
    + destruct (stop_timers_eq (map_to_list (pending r)) r) as [ts ->]. rewrite close_all_eq. by eapply Hquiet.
    + rewrite close_all_eq. by eapply Hquiet.
    + rewrite close_all_eq. by eapply Hquiet.
  - destruct (_ <=? _); simplify_eq. by apply (Hquiet _ []).
  - simplify_eq. by apply (Hquiet _ []).
  - repeat case_match; simplify_eq; by apply (Hquiet _ []).
  - simplify_eq. by apply (Hquiet _ []).
Qed.

Lemma intact_reachable (m : option (gmap string string)) (t : Z) (r : relay) :
  rtc (step cf ParseIP) (new_relay m t) r → intact r.
Proof.
  intros Hr. assert (intact (new_relay m t)) as Hinit.
  { split; try done. - intros c [[host Hh]|(u & p & Hp & _)]; done. - intros ? ? ? ? Hin. by apply elem_of_nil in Hin. }
  assert (owned (new_relay m t)) as Ho by by eapply (owned_reachable cf ParseIP m t).
  revert Ho Hinit. induction Hr as [|r1 r2 r3 [a Ha] _ IH]; [done|]. intros Ho Hi.
  apply IH; [by eapply act_owned|by eapply act_intact].
Qed.

Lemma slice_drop (k : conn) (n : nat) : slice k n `prefix_of` drop n (sent k).
Proof.
  unfold slice. rewrite <- (take_drop (taken k) (sent k)) at 2. destruct (decide (n ≤ length (take (taken k) (sent k)))%nat).
  - rewrite (drop_app_le _ (drop _ _)) by done. by eexists.
  - rewrite drop_ge by lia. apply prefix_nil.
Qed.

Lemma link_prefix (r : relay) (c : id) (l : link) (k : conn) :
  intact r → links r !! c = Some l → socks r !! c = Some k →
  ∃ km, socks r !! mate l = Some km ∧ got k `prefix_of` greeting l ++ drop (from l) (sent km).
Proof.
  intros Hi Hl Hk. destruct (in_link r Hi c l Hl) as (k' & km & Hk' & Hm & _ & Hp).
  assert (k' = k) as -> by congruence. exists km. split; [done|]. etrans; [exact Hp|]. apply prefix_app, slice_drop.
Qed.

(** C10 (safety): a splice is exact.  Whatever the goroutines, timers, peers and the
    shutdown do and in whatever order, two connections matched under a token are two
    that introduced themselves with that token, one as the initiator and one as the
    responder; what each of them received is the acceptance followed by a prefix of
    what the other sent after its hello, and nothing of any third connection.  A
    connection that is not spliced received messages of the relay only.  While both
    directions of a pump are reading, all that was read of an end was delivered to the
    other.  No two goroutines, waiting slots or parked entries hold the same
    connection. *)
Theorem splice_exact (m : option (gmap string string)) (t : Z) (r : relay) :
  rtc (step cf ParseIP) (new_relay m t) r →
  (∀ token i p u, Matched token i p u ∈ log r →
     ∃ ki kp hi hp ni np, socks r !! i = Some ki ∧ socks r !! p = Some kp ∧
       introduced ki hi ni ∧ introduced kp hp np ∧ Token hi = token ∧ Token hp = token ∧
       Role hi = RoleInitiator ∧ Role hp = RoleResponder ∧
       got ki `prefix_of` ok_frame ++ drop np (sent kp) ∧ got kp `prefix_of` ok_frame ++ drop ni (sent ki)) ∧
  (∀ c k, socks r !! c = Some k →
     match links r !! c with
     | None => own_talk (got k)
     | Some l => ∃ km, socks r !! mate l = Some km ∧ got k `prefix_of` greeting l ++ drop (from l) (sent km)
     end) ∧
  (∀ c a b l ka kb, threads r !! c = Some (Pumping a b l Reading Reading) → socks r !! a = Some ka → socks r !! b = Some kb →
     ∃ la lb, links r !! a = Some la ∧ links r !! b = Some lb ∧ mate la = b ∧ mate lb = a ∧
       got ka = greeting la ++ slice kb (from la) ∧ got kb = greeting lb ++ slice ka (from lb)) ∧
  (∀ h h' c, holds r h c → holds r h' c → h = h').
Proof.
  intros Hr. pose proof (intact_reachable m t r Hr) as Hi. split_and!.
  - intros token i p u Hm.
    destruct (in_match r Hi _ _ _ _ Hm) as (ki & kp & hi & hp & li & lp & Hki & Hkp & Hli & Hlp & Em & Em' & Eg & Eg' & Hrest).
    destruct (link_prefix r i li ki Hi Hli Hki) as (k1 & Hk1 & P1), (link_prefix r p lp kp Hi Hlp Hkp) as (k2 & Hk2 & P2).
    rewrite Em in Hk1. rewrite Em' in Hk2. rewrite Eg in P1. rewrite Eg' in P2.
    assert (k1 = kp) as -> by congruence. assert (k2 = ki) as -> by congruence.
    exists ki, kp, hi, hp, (from lp), (from li). destruct_and! Hrest. by split_and!.
  - intros c k Hk. destruct (links r !! c) as [l|] eqn:E; [by eapply link_prefix|by eapply in_talk].
  - intros c a b l ka kb Hp Ha Hb. destruct (in_thread r Hi c _ Hp) as [F1 F2].
    destruct F1 as (x1 & x2 & lb & A1 & A2 & A3 & A4 & _ & A5), F2 as (y1 & y2 & la & B1 & B2 & B3 & B4 & _ & B5).
    assert (x1 = ka ∧ x2 = kb ∧ y1 = kb ∧ y2 = ka) as (-> & -> & -> & ->) by (split_and!; congruence).
    exists la, lb. by split_and!.
  - apply (owned_once r (owned_reachable cf ParseIP m t r Hr)).
Qed.

End Splicing.

(** ** A relay at work *)

Module Lab.
Import Codec.

#[export] Instance ser_hello : Ser RelayHello.
Proof.
  refine (ser_iso (λ h, (V h, (Token h, (Role h, (Kind h, (ControllerID h, (Host h, RegToken h)))))))
            (λ t, mkRelayHello t.1 t.2.1 t.2.2.1 t.2.2.2.1 t.2.2.2.2.1 t.2.2.2.2.2.1 t.2.2.2.2.2.2) _).
  by intros [].
Defined.

#[export] Instance ser_resp : Ser RelayResp.
Proof. refine (ser_iso (λ v, (OK v, Error v)) (λ t, mkRelayResp t.1 t.2) _). by intros []. Defined.

#[export] Instance ser_dial : Ser FunnelDial.
Proof. refine (ser_iso fd_Token mkFunnelDial _). by intros []. Defined.

Definition cfg : config := mkConfig (30 * second) 4 1 true.
Definition parse (s : string) : option bytes := if bool_decide (s = "192.0.2.7") then Some [xc0; x00; x02; x07] else None.

Definition token : string := "gz-0123456789abcdef".
Definition hello (role : string) : RelayHello := mkRelayHello 1 token role "" "" "" "".
Definition hello_frame (h : RelayHello) : bytes := default [] (encode h).

(** A connection that was accepted, sent its hello and was read; [n] further steps. *)
Definition arrive (c : id) (h : RelayHello) (rest : bytes) (n : nat) : list action :=
  [Accept c; Sends c (hello_frame h ++ rest)] ++ replicate n (Step c true (Data 100)).

Definition lab_run (l : list action) (r : relay) : option relay := run cfg parse l r.
Definition start : relay := new_relay (Some ∅) 0.

(** Both ends arrive and are spliced; the initiator's five bytes are copied. *)
Definition matched_run : list action :=
  arrive 1 (hello RoleInitiator) [x01; x02; x03; x04; x05] 5 ++ arrive 2 (hello RoleResponder) [] 6 ++
  [Step 2 true (Data 5); Step 2 true (Data 5)].

Definition matched_state : relay := default start (lab_run matched_run start).

Lemma matched_reachable : rtc (step cfg parse) start matched_state.
Proof. apply (relay_run_steps cfg parse matched_run). vm_compute. reflexivity. Qed.

Lemma splice_exact_witness :
  (got <$> socks matched_state !! 2%nat = Some (ok_frame ++ [x01; x02; x03; x04; x05])) ∧
  ∃ ki kp hi hp ni np, socks matched_state !! 1%nat = Some ki ∧ socks matched_state !! 2%nat = Some kp ∧
    introduced ki hi ni ∧ introduced kp hp np ∧ Token hi = token ∧ Token hp = token ∧
    Role hi = RoleInitiator ∧ Role hp = RoleResponder ∧
    got ki `prefix_of` ok_frame ++ drop np (sent kp) ∧ got kp `prefix_of` ok_frame ++ drop ni (sent ki).
Proof.
  split; [vm_compute; reflexivity|].
  apply (proj1 (splice_exact cfg parse (Some ∅) 0 matched_state matched_reachable) token 1%nat 2%nat 0).
  assert (log matched_state = [Matched token 1 2 0]) as -> by (vm_compute; reflexivity). by apply list_elem_of_singleton.
Defined.
End Lab.
