(* ===== verification/Relaying.v ===== *)
(** * What a relay promises (Relay.v)

    A token is matched once in any period of its validity, the tables and the goroutines
    stay within the configured limits, and a shutdown comes to its end once it closed
    the connections. *)
From Stdlib Require Import ZArith Lia Strings.Byte.
From stdpp Require Import base gmap sets list strings relations.
From S2P Require Import Prelude Wire Trust Proc Codec Relay Holding Splicing.
Local Open Scope Z_scope.

Section Tokens.
Context (cf : config) (ParseIP : string → option bytes).
Context `{JSONDecode RelayHello, JSONEncode RelayResp, JSONEncode FunnelDial}.

(** ** Tokens *)

(** The tokens to be forgotten, by a timer and by a timer that fired. *)
Definition waiting (l : list (Z * timer)) : list (Z * string) :=
  omap (λ x, match x.2 with ForgetToken k => Some (x.1, k) | _ => None end) l.
Definition due (l : list callback) : list string :=
  omap (λ c, match c with Fired (ForgetToken k) => Some k | _ => None end) l.

Record spent (r : relay) : Prop := {
  sp_once : NoDup ((waiting (timers r)).*2 ++ due (callbacks r));
  sp_used k : k ∈ (waiting (timers r)).*2 ++ due (callbacks r) → k ∈ used r;
  sp_wait d k i p u : (d, k) ∈ waiting (timers r) → Matched k i p u ∈ log r → u + MatchTTL cf ≤ d;
  sp_due k i p u : k ∈ due (callbacks r) → Matched k i p u ∈ log r → u + MatchTTL cf ≤ now r;
  sp_free k i p u : k ∉ used r → Matched k i p u ∈ log r → u + MatchTTL cf ≤ now r;
  sp_order x y k i p u i' p' u' :
    (x < y)%nat → log r !! x = Some (Matched k i p u) → log r !! y = Some (Matched k i' p' u') → u + MatchTTL cf ≤ u' }.

Lemma spent_quiet (r r' : relay) :
  spent r → used r' = used r → waiting (timers r') = waiting (timers r) → due (callbacks r') = due (callbacks r) →
  now r ≤ now r' → (log r' = log r ∨ ∃ a t, log r' = log r ++ [DialedController a t]) → spent r'.
Proof.
  intros [H1' H2' H3' H4' H5' H6'] Eu Ew Ed Hn Hlog.
  assert (∀ k i p u, Matched k i p u ∈ log r' → Matched k i p u ∈ log r) as Hin.
  { intros k i p u. destruct Hlog as [->|(a & t & ->)]; [done|]. rewrite elem_of_app, list_elem_of_singleton. naive_solver. }
  split; rewrite ?Ew, ?Ed, ?Eu; eauto.
  - intros k i p u Hk Hm. specialize (H4' k i p u Hk (Hin _ _ _ _ Hm)). lia.
  - intros k i p u Hk Hm. specialize (H5' k i p u Hk (Hin _ _ _ _ Hm)). lia.
  - intros x y k i p u i' p' u' Hxy Hx Hy. destruct Hlog as [El|(a & t & El)]; rewrite El in Hx, Hy; [eauto|].
    apply lookup_snoc_Some in Hx as [[_ Hx]|[_ Hx]]; [|done]. apply lookup_snoc_Some in Hy as [[_ Hy]|[_ Hy]]; [|done]. eauto.
Qed.

Lemma waiting_stop (t : timer) (l : list (Z * timer)) :
  (∀ k, t ≠ ForgetToken k) → waiting (filter (λ x, x.2 ≠ t) l) = waiting l.
Proof.
  intros Ht. induction l as [|[d e] l IH]; [done|]. rewrite filter_cons. case_decide as E; cbn in *.
  - unfold waiting in *. cbn. by rewrite IH.
  - destruct e; rewrite IH; try done. by destruct (Ht token).
Qed.

Lemma waiting_stops (l : list (string * slot)) (r : relay) :
  waiting (timers (foldr (λ x, stop_timer (ExpireSlot x.1 (s_conn x.2))) r l)) = waiting (timers r).
Proof. induction l as [|x l IH]; [done|]. cbn. by rewrite waiting_stop. Qed.

(** A match, under a token that is not spent. *)
Lemma spent_match (r r' : relay) (k : string) (i p : id) :
  0 ≤ MatchTTL cf → spent r → k ∉ used r → used r' = {[k]} ∪ used r →
  waiting (timers r') = (now r + MatchTTL cf, k) :: waiting (timers r) → callbacks r' = callbacks r → now r' = now r →
  log r' = log r ++ [Matched k i p (now r)] → spent r'.
Proof.
  intros Hpos [H1' H2' H3' H4' H5' H6'] Hk Eu Ew Ec En El. split; rewrite ?Ew, ?Eu, ?Ec, ?En, ?El; cbn.
  - apply NoDup_cons. split; [naive_solver|done].
  - intros k'. rewrite elem_of_cons, elem_of_union, elem_of_singleton. naive_solver.
  - intros d k' i' p' u. rewrite elem_of_cons, elem_of_app, list_elem_of_singleton.
    intros [E|Hd] [Hm|Hm]; simplify_eq; [specialize (H5' _ _ _ _ Hk Hm); lia|lia|eauto|].
    destruct Hk. apply H2', elem_of_app. left. apply list_elem_of_fmap. by exists (d, k).
  - intros k' i' p' u Hd. rewrite elem_of_app, list_elem_of_singleton. intros [Hm|Hm]; simplify_eq; [eauto|].
    destruct Hk. apply H2', elem_of_app. by right.
  - intros k' i' p' u Hd. rewrite elem_of_app, list_elem_of_singleton. intros [Hm|Hm]; simplify_eq; [|set_solver].
    eapply H5'; [|done]. set_solver.
  - intros x y k' i1 p1 u i2 p2 u' Hxy Hx Hy. apply lookup_snoc_Some in Hy as [[Hl Hy]|[-> Hy]].
    + rewrite lookup_app_l in Hx by lia. eauto.
    + rewrite lookup_app_l in Hx by lia. simplify_eq. eapply H5'; [done|]. by eapply list_elem_of_lookup_2.
Qed.

Lemma rendezvous_spent (c : id) (h : RelayHello) (r : relay) : 0 ≤ MatchTTL cf → spent r → spent (rendezvous cf c h r).
Proof.
  intros Hpos Hs. unfold rendezvous. destruct (closed r); [by eapply spent_quiet; eauto; cbn; lia|].
  case_bool_decide as Hu; [by eapply spent_quiet; eauto; cbn; lia|].
  destruct (pending r !! Token h) as [s|]; [|case_match; eapply spent_quiet; eauto; cbn; lia].
  case_bool_decide; [eapply spent_quiet; eauto; cbn; lia|].
  case_bool_decide; (eapply spent_match; [done|exact Hs|exact Hu|reflexivity| |reflexivity..]); cbn; by rewrite waiting_stop.
Qed.

Lemma respond_books (c t : id) (n : nat) (v : RelayResp) (good bad : relay → relay) (r r' : relay) :
  respond c t n v good bad r = Some r' → ∃ k (ok : bool), r' = (if ok then good else bad) (set_conn t k r).
Proof. intros (k & k' & ok & _ & _ & ->)%respond_inv. by exists k', ok. Qed.

Ltac quiet := eapply spent_quiet; [eassumption|rewrite ?close_all_eq; cbn; try done; try lia; try (by left); try (by apply waiting_stop)..].

Lemma thread_spent (c : id) (ab : bool) (x : io) (r r' : relay) :
  0 ≤ MatchTTL cf → spent r → thread_step cf ParseIP c ab x r = Some r' → spent r'.
Proof.
  intros Hpos Hsp Hs. pose proof Hs as Hs'. open_step Hs.
  destruct (threads r !! c) as [p|] eqn:Hp; [|done]. cbn [mbind option_bind] in Hs.
  destruct p; try discriminate Hs.
  7: { destruct (pump_inv cf ParseIP _ _ _ _ _ _ _ _ _ _ Hp Hs') as [->|[(h & r1 & E & ->)|(h & r1 & E & ->)]];
         [quiet|apply half_step_eq in E as (S & -> & _); quiet..]. }
  all: destruct x; try done; unfold dispatch in Hs;
    try (apply respond_books in Hs as (k & [|] & ->); quiet);
    cases Hs; try (by apply rendezvous_spent); try (destruct (del_eq host c r) as (m & -> & _)); try (destruct (del_eq host reg r) as (m & -> & _)); try quiet.
  right. eauto.
Qed.

Lemma waiting_take (l : list (Z * timer)) (i : nat) (d : Z) (e : timer) :
  l !! i = Some (d, e) → ∃ a b, waiting l = a ++ waiting [(d, e)] ++ b ∧ waiting (delete i l) = a ++ b.
Proof.
  intros Hi. exists (waiting (take i l)), (waiting (drop (S i) l)). unfold waiting. rewrite delete_take_drop, <- !omap_app.
  by rewrite <- (take_drop_middle l i (d, e) Hi) at 1.
Qed.

Lemma due_take (l : list callback) (i : nat) (e : callback) :
  l !! i = Some e → ∃ a b, due l = a ++ due [e] ++ b ∧ due (delete i l) = a ++ b.
Proof.
  intros Hi. exists (due (take i l)), (due (drop (S i) l)). unfold due. rewrite delete_take_drop, <- !omap_app.
  by rewrite <- (take_drop_middle l i e Hi) at 1.
Qed.

Lemma fire_spent (r : relay) (i : nat) (d : Z) (e : timer) :
  spent r → timers r !! i = Some (d, e) → d ≤ now r →
  spent (r <| timers ::= delete i |> <| callbacks ::= λ l, l ++ [Fired e] |>).
Proof.
  intros Hs Hi Hd. destruct (waiting_take _ _ _ _ Hi) as (a & b & E1 & E2).
  destruct e as [token c|k|token].
  1,3: eapply spent_quiet; [exact Hs|done|by etrans; [exact E2|]|
    unfold due; cbn; rewrite omap_app; apply app_nil_r|done|by left].
  destruct Hs as [H1' H2' H3' H4' H5' H6']. cbn in E1.
  assert (due (callbacks r ++ [Fired (ForgetToken k)]) = due (callbacks r) ++ [k]) as Ed by (unfold due; by rewrite omap_app).
  rewrite E1 in H1', H2', H3'. assert ((a.*2 ++ k :: b.*2) ++ due (callbacks r) ≡ₚ (a ++ b).*2 ++ due (callbacks r) ++ [k]) as HP.
  { rewrite fmap_app. solve_Permutation. }
  rewrite fmap_app in H1', H2'. cbn in H1', H2'.
  match goal with |- spent ?x => set (r' := x) end.
  assert (waiting (timers r') = a ++ b ∧ due (callbacks r') = due (callbacks r) ++ [k] ∧ used r' = used r ∧ log r' = log r ∧ now r' = now r)
    as (ET & EC & Eu & El & En) by by split_and!. clearbody r'.
  split; rewrite ?ET, ?EC, ?Eu, ?El, ?En; eauto.
  - by rewrite <- HP.
  - intros k' Hk. apply H2'. by rewrite HP.
  - intros d' k' j p u Hin. apply (H3' d' k' j p u). rewrite elem_of_app in *. rewrite elem_of_cons. tauto.
  - intros k' j p u. rewrite elem_of_app, list_elem_of_singleton. intros [Hk| ->] Hm; [eauto|].
    specialize (H3' d k j p u). rewrite elem_of_app, elem_of_cons in H3'. specialize (H3' ltac:(by right; left) Hm). lia.
Qed.

Lemma callback_spent (r : relay) (i : nat) (cb : callback) :
  spent r → callbacks r !! i = Some cb →
  spent ((run_callback cb r).1 <| callbacks := delete i (callbacks r) ++ (run_callback cb r).2 |>).
Proof.
  intros Hs Hi. destruct (due_take _ _ _ Hi) as (a & b & E1 & E2).
  assert (∀ l, due l = [] → due (delete i (callbacks r) ++ l) = a ++ b) as Ed
    by (intros l Hl; rewrite <- E2; unfold due in *; by rewrite omap_app, Hl, app_nil_r).
  destruct cb as [[token c|k|token]|c]; cbn.
  1,3,4: repeat case_match; (eapply spent_quiet; [exact Hs|done|done|cbn; rewrite Ed, E1; done|done|by left]).
  destruct Hs as [H1' H2' H3' H4' H5' H6']. cbn in E1. rewrite E1 in H1', H2', H4'.
  assert ((waiting (timers r)).*2 ++ a ++ k :: b ≡ₚ k :: (waiting (timers r)).*2 ++ a ++ b) as HP by solve_Permutation.
  rewrite HP in H1'. apply NoDup_cons in H1' as [Hk H1'].
  split; cbn; rewrite ?Ed by done; eauto.
  - intros k' Hk'. assert (k' ≠ k) by (by intros ->). specialize (H2' k'). rewrite HP in H2'. set_solver.
  - intros k' j p u Hin. apply H4'. set_solver.
  - intros k' j p u Hk' Hm. destruct (decide (k' = k)) as [->|]; [eapply H4'; [|done]; set_solver|].
    eapply H5'; [|done]. intros Hu. apply Hk', elem_of_difference. by rewrite elem_of_singleton.
Qed.

Lemma act_spent (a : action) (r r' : relay) : 0 ≤ MatchTTL cf → spent r → act cf ParseIP a r = Some r' → spent r'.
Proof.
  intros Hpos Hs Ha. destruct a as [c|c|c bs|c ab x|i|i| |forced|d|m|m|f]; cbn in Ha.
  - destruct (_ && _); [|done]. injection Ha as <-. unfold accept. cbn. repeat case_match; quiet.
  - destruct (_ && _); simplify_eq; quiet.
  - apply bind_Some in Ha as (k & _ & [= <-]). quiet.
  - by eapply thread_spent.
  - apply bind_Some in Ha as ([d e] & Hi & Ha). destruct (_ <=? _) eqn:E; simplify_eq. apply Z.leb_le in E. by eapply fire_spent.
  - apply bind_Some in Ha as (cb & Hi & Ha). pose proof (callback_spent r i cb Hs Hi) as Hc.
    destruct (run_callback cb r) as [r1 l]. by simplify_eq.
  - simplify_eq. quiet.
  - unfold shutdown_step in Ha. destruct (stop r); [|repeat case_match; simplify_eq; quiet..]. injection Ha as <-.
    pose proof (waiting_stops (map_to_list (pending r)) r) as Hw. destruct (stop_timers_eq (map_to_list (pending r)) r) as [ts E].
    rewrite E in *. quiet.
  - destruct (_ <=? _) eqn:E; simplify_eq. apply Z.leb_le in E. quiet.
  - simplify_eq. quiet.
  - repeat case_match; simplify_eq; quiet.
  - simplify_eq. quiet.
Qed.

(** C11 (safety): a token is matched once in its validity, the time [MatchTTL].  Between two matches under the
    same token at least [MatchTTL] passes, whatever connections present it, with
    whatever roles, and however the timers, the callbacks and the goroutines are
    scheduled. *)
Theorem token_single_use (m : option (gmap string string)) (t : Z) (r : relay) (x y : nat) (token : string) (i p i' p' : id) (u u' : Z) :
  0 ≤ MatchTTL cf → rtc (step cf ParseIP) (new_relay m t) r → (x < y)%nat →
  log r !! x = Some (Matched token i p u) → log r !! y = Some (Matched token i' p' u') →
  u + MatchTTL cf ≤ u'.
Proof.
  intros Hpos Hr. assert (spent (new_relay m t)) as Hinit.
  { split; cbn; try done; [constructor|by intros ? ?%elem_of_nil|..]; intros; by apply elem_of_nil in H3 || by apply elem_of_nil in H2. }
  assert (spent r) as Hs; [|by eapply sp_order].
  revert Hinit. induction Hr as [|r1 r2 r3 [a Ha] _ IH]; [done|]. intros Hs. by eapply IH, act_spent.
Qed.

End Tokens.

(** The same token, twice, a [MatchTTL] apart. *)
Module Twice.
Import Codec Lab.

Definition twice_run : list action :=
  arrive 1 (hello RoleInitiator) [] 5 ++ arrive 2 (hello RoleResponder) [] 6 ++
  [Elapse (30 * second); FireTimer 0; Callback 0] ++
  arrive 3 (hello RoleResponder) [] 5 ++ arrive 4 (hello RoleInitiator) [] 6.
Definition twice_state : relay := default start (lab_run twice_run start).

Lemma token_single_use_witness :
  log twice_state = [Matched token 1 2 0; Matched token 4 3 (30 * second)] ∧ 0 + MatchTTL cfg ≤ 30 * second.
Proof.
  split; [vm_compute; reflexivity|].
  apply (token_single_use cfg parse (Some ∅) 0 twice_state 0 1 token 1 2 4 3 0 (30 * second)).
  - vm_compute. discriminate.
  - apply (relay_run_steps cfg parse twice_run). vm_compute. reflexivity.
  - lia.
  - vm_compute. reflexivity.
  - vm_compute. reflexivity.
Defined.

(** A token presented again within its validity is refused. *)
Lemma replay_refused :
  ∃ r, lab_run (arrive 1 (hello RoleInitiator) [] 5 ++ arrive 2 (hello RoleResponder) [] 6 ++ arrive 3 (hello RoleInitiator) [] 3) start = Some r ∧
  threads r !! 3%nat = Some (Rejecting "token already used").
Proof. eexists. split; [vm_compute; reflexivity|]. vm_compute. reflexivity. Qed.
End Twice.
