(* ===== verification/Stopping.v ===== *)
(** * How a relay stops (Relay.v)

    The goroutine of a connection is reachable by a forced shutdown, because its
    connection is in one of the two tables until it leaves; from then on every step of a
    goroutine brings it nearer to its end.  The limits of the tables and of the
    goroutines are here too. *)
From Stdlib Require Import ZArith Lia Strings.Byte.
From stdpp Require Import base gmap sets list strings relations.
From S2P Require Import Prelude Wire Trust Proc Codec Relay Holding Splicing.
Local Open Scope Z_scope.

(** ** Tracked connections *)

(** A goroutine whose connection a forced shutdown closes. *)
Definition tracked_pc (p : pc) : bool :=
  match p with
  | PubHandshake | PubGate _ | PubFind _ | PubPark _ _ _ | PubSignal _ _ _ | PubDrop _ _ _ | PubDel _ _ | Leaving _ | Gone => false
  | _ => true
  end.

(** What a goroutine is to untrack besides its own connection. *)
Definition deferred (p : pc) : list id :=
  match p with
  | Confirm _ _ w _ => [w]
  | Starting _ _ l | Pumping _ _ l _ _ | Leaving l => l
  | MuxJoin g | MuxAck g => [g]
  | FunnelAck p | FunnelTrack p => [p]
  | _ => []
  end.

Definition ends (p : pc) : option (id * id) :=
  match p with Confirm a b _ _ | Starting a b _ | Pumping a b _ _ _ => Some (a, b) | _ => None end.

(** A connection whose own goroutine, if any, is not tracked. *)
Definition settled (r : relay) (d : id) : Prop :=
  is_Some (socks r !! d) ∧ ∀ q, threads r !! d = Some q → tracked_pc q = false.

Definition tables (r : relay) : gset id := conns r ∪ muxConns r.

Definition shut_at (r : relay) (c : id) : Prop := shut <$> socks r !! c = Some true.

Record tracked (r : relay) : Prop := {
  tr_own t p : threads r !! t = Some p → tracked_pc p = true → t ∈ tables r;
  tr_def t p d : threads r !! t = Some p → d ∈ deferred p → d = t ∨ settled r d;
  tr_ends t p a b : threads r !! t = Some p → ends p = Some (a, b) → t = a ∨ t = b;
  tr_slot k s : pending r !! k = Some s → settled r (s_conn s);
  tr_parked k c : parked r !! k = Some c → settled r c;
  tr_closed : stop r ≠ Up → closed r = true;
  tr_forced t p : stop r = Forced → threads r !! t = Some p → tracked_pc p = true → shut_at r t }.

(** The connections only grow, and stay closed. *)
Definition shut_mono (S S' : gmap id conn) : Prop :=
  ∀ c k, S !! c = Some k → ∃ k', S' !! c = Some k' ∧ (shut k = true → shut k' = true).

Lemma shut_at_mono (r r' : relay) (c : id) : shut_mono (socks r) (socks r') → shut_at r c → shut_at r' c.
Proof.
  intros Hm. unfold shut_at. destruct (socks r !! c) as [k|] eqn:E; [|done]. intros [= Hk].
  destruct (Hm c k E) as (k' & -> & Hs). cbn. by rewrite Hs.
Qed.

Lemma settled_move (r r' : relay) (t : id) (p p' : pc) (d : id) :
  shut_mono (socks r) (socks r') → threads r !! t = Some p → threads r' = <[t := p']> (threads r) →
  (tracked_pc p' = true → tracked_pc p = true) → settled r d → settled r' d.
Proof.
  intros Hm Hp Et Htr [[k Hk] Hd]. destruct (Hm d k Hk) as (k' & Hk' & _). split; [by exists k'|].
  rewrite Et. intros q. rewrite lookup_insert_Some. intros [[<- <-]|[_ Hq]]; [|by apply Hd].
  specialize (Hd p Hp). destruct (tracked_pc p'); [|done]. rewrite Htr in Hd; done.
Qed.

(** A goroutine moves on. *)
Lemma tracked_move (r r' : relay) (t : id) (p p' : pc) :
  tracked r → threads r !! t = Some p → threads r' = <[t := p']> (threads r) →
  shut_mono (socks r) (socks r') → (tracked_pc p' = true → tracked_pc p = true) →
  (∀ d, d ∈ tables r → d ∈ tables r' ∨ settled r d ∨ d = t ∧ tracked_pc p' = false) →
  (∀ d, d ∈ deferred p' → d = t ∨ d ∈ deferred p ∨ settled r' d) →
  (∀ a b, ends p' = Some (a, b) → t = a ∨ t = b) →
  (∀ k s, pending r' !! k = Some s → pending r !! k = Some s ∨ settled r' (s_conn s)) →
  (∀ k c, parked r' !! k = Some c → parked r !! k = Some c ∨ settled r' c) →
  stop r' = stop r → closed r' = closed r → tracked r'.
Proof.
  intros Hr Hp Et Hm Htr Htab Hdef Hends Hpend Hpark Es Ec.
  assert (∀ d, settled r d → settled r' d) as Hset by (intros d; by eapply settled_move).
  assert (∀ u q, threads r' !! u = Some q → u = t ∧ q = p' ∨ u ≠ t ∧ threads r !! u = Some q) as Hth
    by (intros u q; rewrite Et, lookup_insert_Some; naive_solver).
  split; rewrite ?Es, ?Ec; [..|apply Hr|].
  - intros u q Hq Hu. assert (u ∈ tables r) as Hin.
    { destruct (Hth u q Hq) as [[-> ->]|[_ Hq']]; eapply (tr_own r Hr); eauto. }
    destruct (Htab u Hin) as [?|[[_ Hno]|[Eu Hno]]]; [done|..]; destruct (Hth u q Hq) as [[Eu' ->]|[? Hq']]; try congruence.
    + specialize (Hno p). rewrite Eu', Htr in Hno by done. by specialize (Hno Hp).
    + specialize (Hno q Hq'). congruence.
  - intros u q d Hq Hd. destruct (Hth u q Hq) as [[-> ->]|[_ Hq']].
    + destruct (Hdef d Hd) as [?|[Hd'|?]]; [by left| |by right]. destruct (tr_def r Hr t p d Hp Hd') as [?|?]; [by left|right; auto].
    + destruct (tr_def r Hr u q d Hq' Hd) as [?|?]; [by left|right; auto].
  - intros u q a b Hq He. destruct (Hth u q Hq) as [[-> ->]|[_ Hq']]; [auto|by eapply (tr_ends r Hr)].
  - intros k s Hs. destruct (Hpend k s Hs) as [Hs'|?]; [|done]. apply Hset. by eapply (tr_slot r Hr).
  - intros k c Hc. destruct (Hpark k c Hc) as [Hc'|?]; [|done]. apply Hset. by eapply (tr_parked r Hr).
  - intros u q Hf Hq Hu. apply (shut_at_mono r); [done|].
    destruct (Hth u q Hq) as [[-> ->]|[_ Hq']]; eapply (tr_forced r Hr); eauto.
Qed.

Lemma shut_mono_refl (S : gmap id conn) : shut_mono S S.
Proof. intros c k Hk. by exists k. Qed.

Lemma shut_mono_alter (S S' : gmap id conn) (c : id) : shut_mono S S' → shut_mono S (alter (λ k, k <| shut := true |>) c S').
Proof.
  intros Hm d k Hk. destruct (Hm d k Hk) as (k' & Hk' & Hs). destruct (decide (d = c)) as [->|Hne].
  - rewrite lookup_alter, decide_True, Hk' by done. by eexists.
  - rewrite lookup_alter_ne by done. by exists k'.
Qed.

Lemma shut_mono_all (S S' : gmap id conn) (l : list id) : shut_mono S S' → shut_mono S (shut_all l S').
Proof. intros Hm. induction l as [|c l IH]; [done|]. by apply shut_mono_alter. Qed.

Lemma shut_mono_set (S : gmap id conn) (c : id) (k k' : conn) : S !! c = Some k → shut k' = shut k → shut_mono S (<[c := k']> S).
Proof.
  intros Hk Hs d kd Hd. destruct (decide (d = c)) as [->|Hne]; [|rewrite lookup_insert_ne by done; by exists kd].
  rewrite lookup_insert_eq. exists k'. split; [done|]. congruence.
Qed.

Lemma shut_mono_new (S : gmap id conn) (c : id) (k : conn) : S !! c = None → shut_mono S (<[c := k]> S).
Proof. intros Hc d kd Hd. exists kd. by rewrite lookup_insert_ne by congruence. Qed.

#[export] Hint Resolve shut_mono_refl shut_mono_alter shut_mono_all shut_mono_set shut_mono_new : relay.

Lemma read_hello_shut `{JSONDecode RelayHello} (k k' : conn) (res : result json_frame_err RelayHello) :
  read_hello k = Some (res, k') → shut k' = shut k.
Proof. unfold read_hello. destruct (shut k) eqn:E; [done|]. intros Hr. repeat case_match; simplify_eq; done. Qed.

Lemma read_conn_shut (max n : nat) (k k' : conn) (buf : bytes) :
  read_conn max n k = Some (buf, k') → shut k' = shut k ∧ shut k = false.
Proof. unfold read_conn. destruct (shut k) eqn:E; [done|]. cbn. intros Hr. case_match; by simplify_eq. Qed.

Lemma write_conn_shut (n : nat) (p : bytes) (k k' : conn) (ok : bool) :
  write_conn n p k = (ok, k') → shut k' = shut k ∧ (shut k = true → ok = false).
Proof. unfold write_conn. destruct (shut k) eqn:E; intros; simplify_eq; done. Qed.

Lemma write_json_shut {A : Type} `{JSONEncode A} (n : nat) (v : A) (k k' : conn) (ok : bool) :
  write_json n v k = (ok, k') → shut k' = shut k.
Proof. unfold write_json. case_match; [apply write_conn_shut|by intros; simplify_eq]. Qed.

Section Stopping.
Context (cf : config) (ParseIP : string → option bytes).
Context `{JSONDecode RelayHello, JSONEncode RelayResp, JSONEncode FunnelDial}.

Lemma half_shut (a b src dst : id) (x : io) (h h' : half) (r r' : relay) :
  half_step a b src dst x h r = Some (h', r') → ∃ S, r' = r <| socks := S |> ∧ shut_mono (socks r) S.
Proof.
  unfold half_step. intros E. destruct h as [|buf| |], x as [n| | | |]; try done.
  - apply bind_Some in E as (k & Hk & E). destruct (read_conn _ _ _) as [[buf k']|] eqn:Hr; simplify_eq.
    apply read_conn_shut in Hr as [Hr _]. eexists. split; [reflexivity|]. eauto with relay.
  - simplify_eq. exists (socks r'). split; [by destruct r'|eauto with relay].
  - apply bind_Some in E as (k & Hk & E). destruct (write_conn _ _ _) as [ok k'] eqn:Hr; simplify_eq.
    apply write_conn_shut in Hr as [Hr _]. eexists. split; [reflexivity|]. eauto with relay.
  - simplify_eq. eexists. split; [reflexivity|]. cbn. eauto with relay.
  - simplify_eq. eexists. split; [reflexivity|]. cbn. eauto with relay.
  - simplify_eq. eexists. split; [reflexivity|]. cbn. eauto with relay.
  - simplify_eq. eexists. split; [reflexivity|]. cbn. eauto with relay.
  - simplify_eq. eexists. split; [reflexivity|]. cbn. eauto with relay.
Qed.

(** A goroutine moves on and changes neither the tables nor the slots. *)
Lemma tracked_goto (r r' : relay) (t : id) (p p' : pc) :
  tracked r → threads r !! t = Some p → threads r' = <[t := p']> (threads r) → shut_mono (socks r) (socks r') →
  (tracked_pc p' = true → tracked_pc p = true) → (∀ d, d ∈ deferred p' → d = t ∨ d ∈ deferred p) →
  (∀ a b, ends p' = Some (a, b) → t = a ∨ t = b) →
  tables r ⊆ tables r' → pending r' = pending r → parked r' = parked r → stop r' = stop r → closed r' = closed r → tracked r'.
Proof.
  intros Hr Hp Et Hm Htr Hdef He Htab Ep Ek Es Ec. eapply tracked_move; eauto; rewrite ?Ep, ?Ek; eauto.
  intros d Hd. destruct (Hdef d Hd); eauto.
Qed.

Ltac split_pc := repeat case_match; simplify_eq; cbn.

Ltac tracks :=
  eapply tracked_goto;
    [eassumption|eassumption|rewrite ?close_all_eq; reflexivity|rewrite ?close_all_eq; cbn; eauto 6 with relay
    |split_pc; done|split_pc; set_solver
    |split_pc; solve [done | intros ? ? [= <- <-]; auto | intros ? ? [= <- <-]; eapply tr_ends; [eassumption|eassumption|reflexivity]]
    |rewrite ?close_all_eq; unfold tables; cbn; set_solver
    |rewrite ?close_all_eq; done|rewrite ?close_all_eq; done|rewrite ?close_all_eq; done|rewrite ?close_all_eq; done].

Lemma respond_tracked (c t : id) (n : nat) (v : RelayResp) (good bad : pc) (l l' : list id) (p : pc) (r r' : relay) :
  tracked r → threads r !! c = Some p →
  respond c t n v (λ r, goto c good (close_all l' r)) (λ r, goto c bad (close_all l r)) r = Some r' →
  (tracked_pc good = true → tracked_pc p = true) → tracked_pc bad = false →
  (∀ d, d ∈ deferred good ∨ d ∈ deferred bad → d = c ∨ d ∈ deferred p) →
  (∀ a b, ends good = Some (a, b) → c = a ∨ c = b) → ends bad = None → tracked r'.
Proof.
  intros Hr Hp (k & k' & ok & Hk & Hw & ->)%respond_inv Hg Hb Hd He Hn. apply write_json_shut in Hw.
  destruct ok; rewrite close_all_eq; (eapply tracked_goto; [done|done|done|cbn; eauto with relay|by rewrite ?Hb|naive_solver|by rewrite ?Hn|done..]).
Qed.

Lemma rendezvous_tracked (c : id) (h : RelayHello) (r : relay) :
  owned r → tracked r → threads r !! c = Some (Rendezvous h) → tracked (rendezvous cf c h r).
Proof.
  intros Ho Hr Hp. unfold rendezvous. destruct (closed r) eqn:Ec; [tracks|]. case_bool_decide; [tracks|].
  destruct (owned_thread r Ho c _ Hp) as [[k Hk] _].
  destruct (pending r !! Token h) as [s|] eqn:Hs; [|case_match; [tracks|]].
  - case_bool_decide; [tracks|]. pose proof (tr_slot r Hr _ _ Hs) as Hset.
    assert (∀ i p a b, (i, p) = (c, s_conn s) ∨ (i, p) = (s_conn s, c) → ends (Confirm i p (s_conn s) false) = Some (a, b) → c = a ∨ c = b) as He
      by (intros i p a b [[= -> ->]|[= -> ->]] [= <- <-]; auto).
    case_bool_decide; (eapply tracked_move; [exact Hr|exact Hp|reflexivity|cbn; eauto with relay|done|unfold tables; cbn; set_solver| |
      intros a b; apply He; auto| |by left|done|done]).
    1,3: intros d ->%list_elem_of_singleton; right; right; eapply (settled_move r); [apply shut_mono_refl|exact Hp|reflexivity|done|exact Hset].
    all: intros k' s'; cbn; rewrite lookup_delete_Some; intros [_ ?]; by left.
  - eapply tracked_move; [exact Hr|exact Hp|reflexivity|cbn; eauto with relay|done|by left|cbn; set_solver|done| |by left|done|done].
    cbn. intros k' s'. rewrite lookup_insert_Some. intros [[<- <-]|[_ ?]]; [right|by left]. split; [by exists k|]. cbn.
    intros q. rewrite lookup_insert_eq. by intros [= <-].
Qed.

(** A goroutine takes a settled connection; a public one parks itself; one untracks. *)
Lemma take_tracked (c d : id) (token : string) (fa fb : nat) (ga gb : bytes) (r : relay) :
  tracked r → threads r !! c = Some (FunnelTake token) → parked r !! token = Some d →
  tracked (goto c (FunnelAck d) (splice d c fa fb ga gb (r <| parked ::= delete token |>))).
Proof.
  intros Hr Hp Hd. eapply tracked_move; [exact Hr|exact Hp|reflexivity|apply shut_mono_refl|done|by left| |done|by left| |done|done].
  - intros d' ->%list_elem_of_singleton. right; right. eapply (settled_move r); [apply shut_mono_refl|exact Hp|reflexivity|done|].
    by eapply (tr_parked r Hr).
  - intros k s. cbn. rewrite lookup_delete_Some. intros [_ ?]. by left.
Qed.

Lemma dial_tracked (c g : id) (a : string) (l : list string) (e : event) (r : relay) :
  owned r → tracked r → threads r !! c = Some (MuxDial (a :: l)) → socks r !! g = None →
  tracked (goto c (MuxJoin g) (set_conn g fresh_conn (r <| log ::= λ l, l ++ [e] |>))).
Proof.
  intros Ho Hr Hp Hg. eapply tracked_move; [exact Hr|exact Hp|reflexivity|cbn; eauto with relay|done|by left| |done|by left|by left|done|done].
  intros d ->%list_elem_of_singleton. right; right. split; cbn; [rewrite lookup_insert_eq; by eexists|].
  intros q. rewrite lookup_insert_Some. intros [[-> _]|[_ Hq]].
  - destruct (owned_thread r Ho _ _ Hp) as [[k Hk] _]. congruence.
  - destruct (owned_thread r Ho _ _ Hq) as [[k Hk] _]. congruence.
Qed.

Lemma park_tracked (c reg : id) (host token : string) (r : relay) :
  owned r → tracked r → threads r !! c = Some (PubPark host token reg) →
  tracked (goto c (PubSignal host token reg) (after funnelDialBackTTL (ReapParked token) (r <| parked ::= <[token := c]> |>))).
Proof.
  intros Ho Hr Hp. destruct (owned_thread r Ho _ _ Hp) as [Hc _].
  eapply tracked_move; [exact Hr|exact Hp|reflexivity|apply shut_mono_refl|done|by left|by intros d ?%elem_of_nil|done|by left| |done|done].
  intros k d. cbn. rewrite lookup_insert_Some. intros [[_ <-]|[_ ?]]; [right|by left]. split; [done|]. cbn. intros q.
  rewrite lookup_insert_eq. by intros [= <-].
Qed.

Lemma leave_tracked (c d : id) (l : list id) (r : relay) :
  tracked r → threads r !! c = Some (Leaving (d :: l)) → tracked (goto c (Leaving l) (untrack d r)).
Proof.
  intros Hr Hp. pose proof (tr_def r Hr c _ d Hp ltac:(listed)) as Hd.
  eapply tracked_move; [exact Hr|exact Hp|reflexivity|apply shut_mono_refl|done| |cbn; set_solver|done|by left|by left|done|done].
  intros e He. destruct (decide (e = d)) as [->|Hne]; [destruct Hd; auto|]. left. unfold tables in *. cbn. set_solver.
Qed.

Lemma thread_tracked (c : id) (ab : bool) (x : io) (r r' : relay) :
  owned r → tracked r → thread_step cf ParseIP c ab x r = Some r' → tracked r'.
Proof.
  intros Ho Hr Hs. pose proof Hs as Hs'. open_step Hs.
  destruct (threads r !! c) as [p|] eqn:Hp; [|done]. cbn [mbind option_bind] in Hs.
  destruct p; try discriminate Hs.
  7: { destruct (pump_inv cf ParseIP _ _ _ _ _ _ _ _ _ _ Hp Hs') as [->|[(h & r1 & E & ->)|(h & r1 & E & ->)]];
         [tracks|apply half_shut in E as (S & -> & HS); tracks..]. }
  all: destruct x; try done; unfold dispatch in Hs.
  all: try (apply respond_inv in Hs as (k & k' & ok & Hk & Hw & ->); apply write_json_shut in Hw; destruct ok; tracks).
  all: cases Hs; try solve [tracks].
  all: repeat match goal with
    | E : read_hello _ = _ |- _ => apply read_hello_shut in E
    | E : write_json _ _ _ = _ |- _ => apply write_json_shut in E
    end; try solve [tracks].
  - by apply rendezvous_tracked.
  - eapply tracked_goto; [exact Hr|exact Hp|reflexivity|apply shut_mono_refl|done|by intros d ?%elem_of_nil|done| |done|done|done|done]. intros d Hd. unfold tables in *. cbn.
    destruct (decide (d = c)); set_solver.
  - by eapply dial_tracked.
  - by eapply take_tracked.
  - rewrite <- (goto_id c (RegHold host) (set_conn c c0 r)) by done. match goal with E : read_conn _ _ _ = _ |- _ => apply read_conn_shut in E as [? _] end. tracks.
  - destruct (del_eq host c r) as (m & -> & _). tracks.
  - eapply tracked_move; [exact Hr|exact Hp|reflexivity|cbn; eauto with relay|done| |cbn; set_solver|done|by left|by left|done|done].
    intros d Hd. unfold tables in *. cbn. destruct (decide (d = c)); set_solver.
  - by eapply park_tracked.
  - eapply tracked_move; [exact Hr|exact Hp|reflexivity|cbn; eauto with relay|done|by left|cbn; set_solver|done|by left| |done|done].
    intros k d. cbn. rewrite lookup_delete_Some. intros [_ ?]. by left.
  - destruct (del_eq host reg r) as (m & -> & _). tracks.
  - by apply leave_tracked.
Qed.

(** The goroutines stay where they are. *)
Lemma tracked_env (r r' : relay) :
  owned r → tracked r → threads r' = threads r → shut_mono (socks r) (socks r') → tables r ⊆ tables r' →
  (∀ k s, pending r' !! k = Some s → pending r !! k = Some s) → (∀ k c, parked r' !! k = Some c → parked r !! k = Some c) →
  (stop r' ≠ Up → closed r' = true) →
  (stop r' = Forced → stop r = Forced ∨ ∀ c, c ∈ tables r → is_Some (socks r !! c) → shut_at r' c) → tracked r'.
Proof.
  intros Ho Hr Et Hm Htab Hpend Hpark Hc Hf.
  assert (∀ d, settled r d → settled r' d) as Hset.
  { intros d [[k Hk] Hd]. destruct (Hm d k Hk) as (k' & ? & _). split; [by exists k'|by rewrite Et]. }
  split; [rewrite Et..| | |exact Hc|rewrite Et].
  - intros t p Hp Htr. by eapply Htab, (tr_own r Hr).
  - intros t p d Hp Hd. destruct (tr_def r Hr t p d Hp Hd); auto.
  - apply (tr_ends r Hr).
  - intros k s Hs. eapply Hset, (tr_slot r Hr); eauto.
  - intros k c Hk. eapply Hset, (tr_parked r Hr); eauto.
  - intros t p Hs Hp Htr. destruct (Hf Hs) as [Hs0|Hall].
    + apply (shut_at_mono r); [done|]. by eapply (tr_forced r Hr).
    + apply Hall; [by eapply (tr_own r Hr)|by eapply (owned_thread r Ho)].
Qed.

Lemma accept_tracked (c : id) (p : pc) (r r' : relay) :
  owned r → tracked r → socks r !! c = None → threads r' = <[c := p]> (threads r) → shut_mono (socks r) (socks r') →
  (tracked_pc p = true → c ∈ tables r') → deferred p = [] → ends p = None → tables r ⊆ tables r' →
  pending r' = pending r → parked r' = parked r → closed r' = closed r → stop r' = stop r → stop r ≠ Forced → tracked r'.
Proof.
  intros Ho Hr Hc Et Hm Hin Hd He Htab Ep Ek Ecl Es Hnf.
  assert (∀ u q, threads r' !! u = Some q → u = c ∧ q = p ∨ u ≠ c ∧ threads r !! u = Some q) as Hth
    by (intros u q; rewrite Et, lookup_insert_Some; naive_solver).
  assert (∀ d, settled r d → settled r' d) as Hset.
  { intros d [[k Hk] Hno]. destruct (Hm d k Hk) as (k' & ? & _). split; [by exists k'|]. intros q Hq.
    destruct (Hth d q Hq) as [[-> _]|[_ ?]]; [congruence|auto]. }
  split; rewrite ?Ep, ?Ek, ?Es, ?Ecl.
  - intros u q Hq Hu. destruct (Hth u q Hq) as [[-> ->]|[_ Hq']]; [auto|]. by eapply Htab, (tr_own r Hr).
  - intros u q d Hq Hin'. destruct (Hth u q Hq) as [[-> ->]|[_ Hq']]; [rewrite Hd in Hin'; by apply elem_of_nil in Hin'|].
    destruct (tr_def r Hr u q d Hq' Hin'); auto.
  - intros u q a b Hq He'. destruct (Hth u q Hq) as [[-> ->]|[_ Hq']]; [congruence|]. by eapply (tr_ends r Hr).
  - intros k s Hs. by eapply Hset, (tr_slot r Hr).
  - intros k d Hs. by eapply Hset, (tr_parked r Hr).
  - apply Hr.
  - done.
Qed.

Lemma shut_all_in (l : list id) (S : gmap id conn) (c : id) : c ∈ l → is_Some (S !! c) → shut <$> shut_all l S !! c = Some true.
Proof.
  intros Hin HS. induction l as [|d l IH]; [by apply elem_of_nil in Hin|]. cbn. fold (shut_all l S).
  destruct (decide (c = d)) as [->|Hne].
  - rewrite lookup_alter, decide_True by done. destruct (shut_all_is_Some l S d HS) as [k ->]. done.
  - rewrite lookup_alter_ne by done. apply elem_of_cons in Hin as [?|Hin]; [done|auto].
Qed.

Ltac stays := eapply tracked_env;
  [eassumption|eassumption|rewrite ?close_all_eq; done|rewrite ?close_all_eq; cbn; eauto with relay|rewrite ?close_all_eq; done
  |rewrite ?close_all_eq; cbn; try done|rewrite ?close_all_eq; cbn; try done
  |rewrite ?close_all_eq; cbn; try done; try apply tr_closed; try done|rewrite ?close_all_eq; cbn; try done; try (by left)].

Lemma act_tracked (a : action) (r r' : relay) : owned r → tracked r → act cf ParseIP a r = Some r' → tracked r'.
Proof.
  intros Ho Hr Ha. assert (stop r ≠ Up → closed r = true) as Hcl by apply Hr.
  destruct a as [c|c|c bs|c ab x|i|i| |forced|d|m|m|f]; cbn in Ha.
  - destruct (_ && _) eqn:E; [|done]. apply andb_true_iff in E as [E%bool_decide_eq_true Es]. injection Ha as <-.
    assert (stop r ≠ Forced) as Hnf by (intros E'; by rewrite E' in Es).
    unfold accept. cbn. destruct (closed r) eqn:Ec; [stays|]. case_match; [stays|].
    eapply (accept_tracked c Hello r); try done; cbn; eauto with relay; unfold tables; cbn; set_solver.
  - destruct (_ && _) eqn:E; [|done]. apply andb_true_iff in E as [E%bool_decide_eq_true Es]. injection Ha as <-.
    assert (stop r ≠ Forced) as Hnf by (intros E'; by rewrite E' in Es).
    eapply (accept_tracked c PubHandshake r); try done; cbn; eauto with relay.
  - apply bind_Some in Ha as (k & Hk & [= <-]). stays.
  - by eapply thread_tracked.
  - apply bind_Some in Ha as ([d e] & Hi & Ha). destruct (_ <=? _) eqn:E; simplify_eq. stays.
  - apply bind_Some in Ha as (cb & Hi & Ha). unfold run_callback in Ha. repeat case_match; simplify_eq; stays.
    + intros k s. rewrite lookup_delete_Some. by intros [_ ?].
    + intros k s. rewrite lookup_delete_Some. by intros [_ ?].
  - simplify_eq. stays.
  - unfold shutdown_step in Ha. destruct (stop r) eqn:Es.
    + injection Ha as <-. destruct (stop_timers_eq (map_to_list (pending r)) r) as [ts ->]. stays.
    + simplify_eq. stays. intros _. by apply Hcl.
    + simplify_eq. stays. intros _. by apply Hcl.
    + repeat case_match; simplify_eq; stays; intros _; by apply Hcl.
    + simplify_eq. stays; [intros _; by apply Hcl|]. intros _. right. intros c Hc Hsome. unfold shut_at. cbn.
      apply shut_all_in; [|done]. by apply elem_of_elements.
    + repeat case_match; simplify_eq; stays; intros _; by apply Hcl.
    + done.
  - destruct (_ <=? _) eqn:E; simplify_eq. stays.
  - simplify_eq. stays.
  - repeat case_match; simplify_eq; stays.
  - simplify_eq. stays.
Qed.

Lemma tracked_reachable (m : option (gmap string string)) (t : Z) (r : relay) :
  rtc (step cf ParseIP) (new_relay m t) r → tracked r.
Proof.
  intros Hr. assert (tracked (new_relay m t)) as Hinit by by split.
  assert (owned (new_relay m t)) as Ho by by eapply (owned_reachable cf ParseIP m t).
  revert Ho Hinit. induction Hr as [|r1 r2 r3 [a Ha] _ IH]; [done|]. intros Ho Hi.
  apply IH; [by eapply act_owned|by eapply act_tracked].
Qed.

(** ** The end of a shutdown *)

(** What is left to do of a direction of a pump one of whose ends is closed: [own], the
    source is. *)
Definition half_weight (own : bool) (h : half) : nat :=
  match h with
  | Reading => if own then 2 else 3
  | Writing _ => if own then 3 else 2
  | Closing => 1
  | Finished => 0
  end.

Definition weight (t : id) (p : pc) : nat :=
  match p with
  | Hello => 20
  | Gate _ => 19
  | FunnelTake _ => 18
  | FunnelAck _ => 17
  | MuxDial l => 17 + length l
  | Confirm _ _ _ second => if second then 15 else 16
  | MuxJoin _ | FunnelTrack _ => 16
  | MuxAck _ => 15
  | Starting _ _ l => 12 + length l
  | Pumping a b l ab ba => 4 + length l + half_weight (bool_decide (a = t)) ab + half_weight (bool_decide (b = t)) ba
  | RegAuth _ _ => 9
  | RegAdmit _ => 8
  | RegSet _ | PubHandshake => 7
  | MuxRoute _ | RegAck _ | PubGate _ => 6
  | MuxLookup _ | RegHold _ | PubFind _ => 5
  | Rendezvous _ | MuxAdmit _ | RegEnd _ | PubPark _ _ _ => 4
  | Rejecting _ | RegUntrack | PubSignal _ _ _ => 3
  | PubDrop _ _ _ => 2
  | PubDel _ _ => 1
  | Leaving l => 1 + length l
  | Gone => 0
  end.

Definition load (r : relay) : nat := map_fold (λ t p n, (weight t p + n)%nat) 0%nat (threads r).

Lemma load_move (r r' : relay) (t : id) (p p' : pc) :
  threads r !! t = Some p → threads r' = <[t := p']> (threads r) → stop r' = stop r → (weight t p' < weight t p)%nat →
  (load r' < load r)%nat ∧ stop r' = stop r.
Proof.
  intros Hp Et Es Hw. split; [|done]. unfold load. rewrite Et, (map_fold_delete_L _ _ t p (threads r)) by (intros; lia || done).
  rewrite <- insert_delete_eq, map_fold_insert_L; [lia|intros; lia|apply lookup_delete_eq].
Qed.

(** The deferred calls of a goroutine about to copy are at most three. *)
Lemma half_weight_step (a b src dst t : id) (x : io) (h h' : half) (r r' : relay) :
  half_step a b src dst x h r = Some (h', r') → (src = t ∧ dst ≠ t ∨ dst = t ∧ src ≠ t) → shut_at r t →
  (half_weight (bool_decide (src = t)) h' < half_weight (bool_decide (src = t)) h)%nat.
Proof.
  intros E Hend Hsh. unfold shut_at in Hsh. unfold half_step in E. destruct h as [|buf| |], x as [n| | | |]; try done.
  - apply bind_Some in E as (k & Hk & E). destruct (read_conn _ _ _) as [[buf k']|] eqn:Hr; simplify_eq.
    apply read_conn_shut in Hr as [_ Hr]. destruct Hend as [[-> _]|[-> ?]]; [rewrite Hk in Hsh; cbn in Hsh; congruence|].
    rewrite bool_decide_eq_false_2 by done. cbn. lia.
  - simplify_eq. case_bool_decide; cbn; lia.
  - apply bind_Some in E as (k & Hk & E). destruct (write_conn _ _ _) as [ok k'] eqn:Hr; simplify_eq.
    apply write_conn_shut in Hr as [_ Hr]. destruct Hend as [[-> _]|[-> ?]].
    + rewrite bool_decide_eq_true_2 by done. destruct ok; cbn; lia.
    + rewrite Hk in Hsh. cbn in Hsh. rewrite Hr by congruence. case_bool_decide; cbn; lia.
  - simplify_eq. cbn. lia.
  - simplify_eq. cbn. lia.
  - simplify_eq. cbn. lia.
  - simplify_eq. cbn. lia.
  - simplify_eq. cbn. lia.
Qed.

Lemma thread_load (c : id) (ab : bool) (x : io) (r r' : relay) :
  owned r → tracked r → stop r = Forced → thread_step cf ParseIP c ab x r = Some r' →
  (load r' < load r)%nat ∧ stop r' = stop r.
Proof.
  intros Ho Hr Hf Hs. pose proof Hs as Hs'. open_step Hs.
  destruct (threads r !! c) as [p|] eqn:Hp; [|done]. cbn [mbind option_bind] in Hs.
  assert (closed r = true) as Hcl by (apply Hr; congruence).
  pose proof (tr_forced r Hr c p Hf Hp) as Hsh. destruct (owned_thread r Ho c p Hp) as [_ Hnd].
  destruct p; try discriminate Hs; cbn in Hsh.
  7: { pose proof (tr_ends r Hr c _ a b Hp eq_refl) as Hend. cbn in Hnd. apply NoDup_cons in Hnd as [Hne%not_elem_of_cons _].
       destruct (pump_inv cf ParseIP _ _ _ _ _ _ _ _ _ _ Hp Hs') as [->|[(h & r1 & E & ->)|(h & r1 & E & ->)]].
       - eapply load_move; [exact Hp|reflexivity|reflexivity|]. cbn. lia.
       - pose proof (half_weight_step _ _ _ _ c _ _ _ _ _ E) as Hw. apply half_shut in E as (S & -> & _).
         eapply load_move; [exact Hp|reflexivity|reflexivity|]. cbn. enough (half_weight (bool_decide (a = c)) h < half_weight (bool_decide (a = c)) ab0)%nat by lia.
         apply Hw; [|auto]. naive_solver.
       - pose proof (half_weight_step _ _ _ _ c _ _ _ _ _ E) as Hw. apply half_shut in E as (S & -> & _).
         eapply load_move; [exact Hp|reflexivity|reflexivity|]. cbn. enough (half_weight (bool_decide (b = c)) h < half_weight (bool_decide (b = c)) ba)%nat by lia.
         apply Hw; [|auto]. naive_solver. }
  all: destruct x; try done; unfold dispatch, rendezvous in Hs; rewrite ?Hcl in Hs.
  all: cases Hs; try (destruct (del_eq host c r) as (m & -> & _)); try (destruct (del_eq host reg r) as (m & -> & _)).
  all: try (eapply load_move; [exact Hp|rewrite ?close_all_eq; reflexivity|rewrite ?close_all_eq; reflexivity|cbn; repeat case_match; cbn; lia]).
  specialize (Hsh eq_refl). unfold shut_at in Hsh. repeat match goal with E : socks r !! c = _ |- _ => rewrite E in Hsh end.
  match goal with E : read_conn _ _ _ = _ |- _ => apply read_conn_shut in E as [_ E] end. cbn in Hsh. congruence.
Qed.

Lemma half_enabled (a b src dst : id) (h : half) (r : relay) :
  is_Some (socks r !! src) → is_Some (socks r !! dst) → h ≠ Finished → ∃ x h' r', half_step a b src dst x h r = Some (h', r').
Proof.
  intros [ks Hs] [kd Hd] Hh. destruct h as [|buf| |]; [exists Fail|exists (Data 0)|exists (Data 0)|done]; cbn; eauto.
  rewrite Hd. cbn. destruct (write_conn 0 buf kd). eauto.
Qed.

(** Every goroutine can go on. *)
Lemma thread_enabled (c : id) (p : pc) (r : relay) :
  owned r → intact r → threads r !! c = Some p → p ≠ Gone → ∃ ab x r', thread_step cf ParseIP c ab x r = Some r'.
Proof.
  intros Ho Hi Hp Hg. destruct (owned_thread r Ho c p Hp) as [[k Hk] _].
  assert (∀ d, d ∈ uses c p → is_Some (socks r !! d)) as Hu by (intros d Hd; apply (owned_sock r Ho (HThread c)); by exists p).
  assert (∀ t n v good bad, is_Some (socks r !! t) → ∃ r', respond c t n v good bad r = Some r') as Hresp.
  { intros t n v good bad [kt Ht]. unfold respond. rewrite Ht. cbn. destruct (write_json n v kt). eauto. }
  unfold thread_step, mux_step, funnel_data_step, funnel_reg_step, funnel_public_step. rewrite Hp. cbn [mbind option_bind]. destruct p; try done;
    try (exists true, (Data 0); eexists; reflexivity); try (exists true, Fail; eexists; reflexivity);
    try (exists true, (Data 0); apply Hresp; by exists k).
  - exists true, (Data 0). apply Hresp, Hu. cbn. destruct second; listed.
  - assert (∀ h, h = Finished ∨ h ≠ Finished) as Hfin by (intros []; auto). destruct (Hfin ab) as [->|Ha].
    + destruct (Hfin ba) as [->|Hb]; [exists true, (Data 0); eauto|].
      destruct (half_enabled a b b a ba r) as (x & h' & r' & E); [apply Hu; listed..|done|]. exists false, x.
      destruct ba; try done; rewrite E; cbn; eauto.
    + destruct (half_enabled a b a b ab r) as (x & h' & r' & E); [apply Hu; listed..|done|]. exists true, x.
      destruct ab; try done; rewrite E; cbn; eauto.
  - exists true, Fail. destruct addrs; eauto.
  - exists true, (Minted ""). eauto.
  - exists true, (Data 0). destruct (in_reg r Hi reg) as (_ & _ & q & Hq & _); [right; by exists c, (PubSignal host token reg)|].
    destruct (owned_thread r Ho reg q Hq) as [[kr Hkr] _]. rewrite Hkr. cbn. destruct (write_json _ _ kr). eauto.
  - exists true, (Data 0). destruct deferred0; eauto.
Qed.

(** The steps of goroutines in a schedule. *)
Fixpoint moves (l : list action) : nat :=
  match l with [] => 0 | Step _ _ _ :: l => S (moves l) | _ :: l => moves l end.

Definition ending (r : relay) : Prop := stop r = Forced ∨ stop r = Stopped ∧ drained r = true.

Lemma drained_lookup (r : relay) (t : id) (p : pc) : drained r = true → threads r !! t = Some p → p = Gone.
Proof. intros Hd%bool_decide_eq_true Hp. specialize (Hd t p Hp). by destruct p. Qed.

Lemma act_ending (a : action) (r r' : relay) :
  owned r → tracked r → ending r → act cf ParseIP a r = Some r' → ending r' ∧ (moves [a] + load r' ≤ load r)%nat.
Proof.
  intros Ho Hr He Ha.
  assert (∀ r1, stop r1 = stop r → threads r1 = threads r → ending r1 ∧ (load r1 ≤ load r)%nat) as Hsame.
  { intros r1 Es Et. unfold load, ending, drained in *. by rewrite Es, Et. }
  assert (stop r ≠ Up ∧ stop r ≠ StopListeners) as [Hup Hsl] by (destruct He as [->|[-> _]]; done).
  destruct a as [c|c|c bs|c ab x|i|i| |forced|d|m|m|f]; cbn in Ha.
  1,2: rewrite (bool_decide_eq_false_2 _ Hup), (bool_decide_eq_false_2 _ Hsl), andb_false_r in Ha; done.
  - apply bind_Some in Ha as (k & Hk & [= <-]). by apply Hsame.
  - destruct He as [Hf|[_ Hd]].
    + destruct (thread_load c ab x r r' Ho Hr Hf Ha) as [Hl Es]. split; [left; congruence|cbn; lia].
    + open_step Ha. destruct (threads r !! c) as [p|] eqn:Hp; [|done].
      rewrite (drained_lookup r c p Hd Hp) in Ha. by destruct x.
  - apply bind_Some in Ha as ([d e] & Hi & Ha). destruct (_ <=? _); simplify_eq. by apply Hsame.
  - apply bind_Some in Ha as (cb & Hi & Ha). unfold run_callback in Ha. repeat case_match; simplify_eq; by apply Hsame.
  - simplify_eq. by apply Hsame.
  - unfold shutdown_step in Ha. destruct He as [Hf|[Hf _]]; rewrite Hf in Ha; [|done].
    destruct (drained r) eqn:Hd; simplify_eq. split; [by right|done].
  - destruct (_ <=? _); simplify_eq. by apply Hsame.
  - simplify_eq. by apply Hsame.
  - repeat case_match; simplify_eq; by apply Hsame.
  - simplify_eq. by apply Hsame.
Qed.

Lemma run_ending (l : list action) (r r' : relay) :
  owned r → tracked r → intact r → ending r → run cf ParseIP l r = Some r' →
  owned r' ∧ intact r' ∧ ending r' ∧ (moves l + load r' ≤ load r)%nat.
Proof.
  revert r. induction l as [|a l IH]; intros r Ho Hr Hi He Hl; cbn in Hl; [by simplify_eq|].
  destruct (act cf ParseIP a r) as [r1|] eqn:Ha; [|done]. destruct (act_ending a r r1 Ho Hr He Ha) as [He' Hm].
  destruct (IH r1) as (? & ? & ? & Hrest); eauto using act_owned, act_tracked, act_intact.
  split_and!; [done..|]. replace (moves (a :: l)) with (moves [a] + moves l)%nat by by destruct a. lia.
Qed.

(** C12 (liveness): a forced shutdown comes to its end.  Once [Shutdown] closed the
    tracked connections, the goroutines take at most [load] more steps in any schedule,
    whatever the peers send and whichever timers fire; and until [Shutdown] returned,
    either it can, or a goroutine can take a step.  Before the connections are closed
    there is no such bound, because a pump goes on for as long as its ends send. *)
Theorem shutdown_completes (m : option (gmap string string)) (t : Z) (r : relay) (l : list action) (r' : relay) :
  rtc (step cf ParseIP) (new_relay m t) r → stop r = Forced → run cf ParseIP l r = Some r' →
  (moves l + load r' ≤ load r)%nat ∧
  (stop r' = Stopped ∨ (∃ r'', act cf ParseIP (ShutdownStep false) r' = Some r'' ∧ stop r'' = Stopped) ∨
   ∃ c ab x r'', act cf ParseIP (Step c ab x) r' = Some r'').
Proof.
  intros Hr Hf Hl. destruct (run_ending l r r') as (Ho & Hi & He & Hm); [..|done|].
  { by eapply owned_reachable. } { by eapply tracked_reachable. } { by eapply intact_reachable. } { by left. }
  split; [done|]. destruct He as [Hs|[Hs _]]; [right|by left]. destruct (drained r') eqn:Hd.
  - left. eexists. cbn. unfold shutdown_step. by rewrite Hs, Hd.
  - right. apply bool_decide_eq_false in Hd. apply map_not_Forall in Hd as (c & p & Hp & Hg); [|solve_decision].
    destruct (thread_enabled c p r' Ho Hi Hp) as (ab & x & r'' & E); [by intros ->|]. exists c, ab, x, r''. exact E.
Qed.

(** ** Limits *)

Definition limited (r : relay) : Prop :=
  Z.of_nat (base.size (pending r)) ≤ Z.max 0 (MaxPending cf) ∧ Z.of_nat (base.size (parked r)) ≤ Z.max 0 (MaxPending cf).

Lemma size_delete_le {A : Type} (m : gmap string A) (k : string) : (base.size (delete k m) ≤ base.size m)%nat.
Proof. rewrite map_size_delete. destruct (m !! k); [apply Nat.le_pred_l|done]. Qed.

Lemma size_insert_le {A : Type} (m : gmap string A) (k : string) (a : A) : (base.size (<[k := a]> m) ≤ S (base.size m))%nat.
Proof. rewrite map_size_insert. destruct (m !! k); [apply Nat.le_succ_diag_r|done]. Qed.

Lemma limited_same (r r' : relay) :
  limited r → (base.size (pending r') ≤ base.size (pending r))%nat → (base.size (parked r') ≤ base.size (parked r))%nat → limited r'.
Proof. unfold limited. lia. Qed.

Ltac limits := eapply limited_same; [eassumption|rewrite ?close_all_eq; cbn; try done; try apply size_delete_le..].

Lemma thread_limited (c : id) (ab : bool) (x : io) (r r' : relay) :
  limited r → thread_step cf ParseIP c ab x r = Some r' → limited r'.
Proof.
  intros Hl Hs. pose proof Hs as Hs'. open_step Hs.
  destruct (threads r !! c) as [p|] eqn:Hp; [|done]. cbn [mbind option_bind] in Hs.
  destruct p; try discriminate Hs.
  7: { destruct (pump_inv cf ParseIP _ _ _ _ _ _ _ _ _ _ Hp Hs') as [->|[(h & r1 & E & ->)|(h & r1 & E & ->)]];
         [limits|apply half_shut in E as (S & -> & _); limits..]. }
  all: destruct x; try done; unfold dispatch, rendezvous in Hs; cases Hs;
    try (destruct (del_eq host c r) as (m & -> & _)); try (destruct (del_eq host reg r) as (m & -> & _)); try (limits; fail);
    repeat match goal with E : (_ <=? _) = false |- _ => apply Z.leb_gt in E end.
  - pose proof (size_insert_le (pending r) (Token h) (mkSlot c (Role h) (now r))). unfold limited in *. cbn. lia.
  - pose proof (size_insert_le (parked r) token c). unfold limited in *. cbn. lia.
Qed.

(** The table of waiting connections and that of parked ones stay within the limit. *)
Lemma tables_limited (m : option (gmap string string)) (t : Z) (r : relay) :
  rtc (step cf ParseIP) (new_relay m t) r → limited r.
Proof.
  intros Hr. assert (limited (new_relay m t)) as Hinit by (unfold limited; cbn; rewrite !map_size_empty; lia).
  revert Hinit. induction Hr as [|r1 r2 r3 [a Ha] _ IH]; [done|]. intros Hl. apply IH. clear IH.
  destruct a as [c|c|c bs|c ab x|i|i| |forced|d|m'|m'|f]; cbn in Ha; [..|by simplify_eq].
  - destruct (_ && _); [|done]. injection Ha as <-. unfold accept. cbn. repeat case_match; limits.
  - destruct (_ && _); simplify_eq; limits.
  - apply bind_Some in Ha as (k & Hk & [= <-]). limits.
  - by eapply thread_limited.
  - apply bind_Some in Ha as ([d e] & Hi & Ha). destruct (_ <=? _); simplify_eq. limits.
  - apply bind_Some in Ha as (cb & Hi & Ha). unfold run_callback in Ha. repeat case_match; simplify_eq; limits.
  - simplify_eq. limits.
  - unfold shutdown_step in Ha. destruct (stop r1); repeat case_match; simplify_eq; try (limits; rewrite map_size_empty; apply Nat.le_0_l).
    destruct (stop_timers_eq (map_to_list (pending r1)) r1) as [ts ->]. limits. rewrite map_size_empty. apply Nat.le_0_l.
  - destruct (_ <=? _); simplify_eq. limits.
  - simplify_eq. limits.
  - repeat case_match; simplify_eq; limits.
Qed.

End Stopping.

(** ** Schedules at the edges *)

Module Edges.
Import Codec Lab.

Definition control : RelayHello := mkRelayHello 1 "" "" RelayKindControl "gw1" "" "".
Definition register : RelayHello := mkRelayHello 1 "" "" RelayKindFunnelReg "" "app.example" "secret".
Definition go (c : id) (n : nat) : list action := replicate n (Step c true (Data 100)).

(** Two agents are admitted, then both controller legs are added. *)
Definition mux_run : list action :=
  [SetControllers {["gw1" := ["192.0.2.7:443"]]}] ++ arrive 1 control [] 5 ++ arrive 2 control [] 5 ++
  [Step 1 true (Dialed 11)] ++ go 1 1 ++ [Step 2 true (Dialed 12)] ++ go 2 1.

(** The limit on the legs of control muxes is exceeded, because a leg of a controller is
    added without another look at it. *)
Lemma mux_limit_exceeded : ∃ r, lab_run mux_run start = Some r ∧ 2 * MaxControlMux cfg < Z.of_nat (base.size (muxConns r)).
Proof. eexists. split; [vm_compute; reflexivity|]. vm_compute. reflexivity. Qed.

(** An end arrives; the other is past the check when the relay is drained. *)
Definition drain_run : list action := arrive 1 (hello RoleInitiator) [] 5 ++ arrive 2 (hello RoleResponder) [] 2 ++ [Drain].

(** A draining relay that has no live work gets some. *)
Lemma drained_then_active : ∃ r r', lab_run drain_run start = Some r ∧ draining r = true ∧ active r = 0 ∧
  lab_run (go 2 4) r = Some r' ∧ active r' = 1.
Proof. do 2 eexists. split; [vm_compute; reflexivity|]. split_and!; vm_compute; reflexivity. Qed.

Definition reg_run (n : nat) : list action := [SetCerts {["app.example" := "secret"]}] ++ arrive 1 register [] n.

(** A registration counts against the limit on brief connections as well. *)
Lemma registration_in_both : ∃ r, lab_run (reg_run 6) start = Some r ∧ threads r !! 1%nat = Some (RegHold "app.example") ∧
  conns r = {[1%nat]} ∧ muxConns r = {[1%nat]}.
Proof. eexists. split; [vm_compute; reflexivity|]. split_and!; vm_compute; reflexivity. Qed.

(** A public connection comes between the registration and its acknowledgement. *)
Definition early_run : list action :=
  reg_run 5 ++ [AcceptPublic 2; Step 2 true (Named "app.example")] ++ go 2 1 ++ [Step 2 true (Minted "fz-12345")] ++ go 2 2.

(** The first frame the agent gets is a dial request, not the acknowledgement. *)
Lemma dial_before_ack : ∃ r, lab_run early_run start = Some r ∧ threads r !! 1%nat = Some (RegAck "app.example") ∧
  got <$> socks r !! 1%nat = encode (mkFunnelDial "fz-12345").
Proof. eexists. split; [vm_compute; reflexivity|]. split_and!; vm_compute; reflexivity. Qed.

(** The goroutine that parked an end untracks it after the match tracked it. *)
Definition late_run : list action :=
  arrive 1 (hello RoleInitiator) [] 3 ++ arrive 2 (hello RoleResponder) [x01] 3 ++ go 1 2 ++ go 2 3 ++
  [Step 2 false (Data 1); ShutdownStep false; ShutdownStep false; ShutdownStep false; ShutdownStep true; ShutdownStep true].

(** A forced shutdown does not close an end of a live splice, and the pump writes to it. *)
Lemma forced_but_open : ∃ r, lab_run late_run start = Some r ∧ stop r = Forced ∧
  threads r !! 2%nat = Some (Pumping 1 2 [1%nat; 2%nat] Reading (Writing [x01])) ∧ shut <$> socks r !! 1%nat = Some false.
Proof. eexists. split; [vm_compute; reflexivity|]. split_and!; vm_compute; reflexivity. Qed.

(** The shutdown of a relay with a live splice, to the end. *)
Definition stopping_run : list action :=
  matched_run ++ [ShutdownStep false; ShutdownStep false; ShutdownStep false; ShutdownStep true; ShutdownStep true].
Definition stopping_state : relay := default start (lab_run stopping_run start).
Definition ending_run : list action :=
  [Step 2 true Fail; Step 2 true Fail; Step 2 false Fail; Step 2 false Fail] ++ go 2 4.

Lemma shutdown_completes_witness :
  stop stopping_state = Forced ∧
  ∃ r, lab_run ending_run stopping_state = Some r ∧ (moves ending_run + load r ≤ load stopping_state)%nat ∧
  (stop r = Stopped ∨ (∃ r', act cfg parse (ShutdownStep false) r = Some r' ∧ stop r' = Stopped) ∨
   ∃ c ab x r', act cfg parse (Step c ab x) r = Some r').
Proof.
  split; [vm_compute; reflexivity|]. eexists. split; [vm_compute; reflexivity|].
  apply (shutdown_completes cfg parse (Some ∅) 0 stopping_state ending_run).
  - apply (relay_run_steps cfg parse stopping_run). vm_compute. reflexivity.
  - vm_compute. reflexivity.
  - vm_compute. reflexivity.
Defined.
End Edges.
