(* ===== verification/Packages.v ===== *)
(** * Packages (purl/purl.go, affected/ecosystem.go, sbom/sbom.go)

    Package URLs, OSV ecosystem strings and the documents in which an agent reports its
    packages: how a URL is read, which advisories apply to which ecosystem, how a set of
    components is written to a document and read back, and the difference of two sets
    with its application.

    The CycloneDX library is a parameter: [EncodeBOM] and [DecodeBOM], of which
    [BOMLaw] says that a document that was written is read back. *)
From Stdlib Require Import ZArith Lia Strings.Byte Strings.Ascii.
From stdpp Require Import base gmap sets list sorting strings.
From S2P Require Import Prelude.
Local Open Scope Z_scope.

(** ** Strings *)

(** [strings.Split] at a character. *)
Fixpoint Split (c : ascii) (s : string) : list string :=
  match s with
  | EmptyString => [""]
  | String a r =>
      if Ascii.eqb a c then "" :: Split c r
      else match Split c r with x :: l => String a x :: l | [] => [String a ""] end
  end.

Definition hex_digit (c : ascii) : option nat :=
  let n := nat_of_ascii c in
  if in_range 48 57 c then Some (n - 48)%nat
  else if in_range 97 102 c then Some (n - 87)%nat
  else if in_range 65 70 c then Some (n - 55)%nat
  else None.

(** [url.PathUnescape]. *)
Fixpoint PathUnescape (s : string) : option string :=
  match s with
  | EmptyString => Some ""
  | String "%" (String a (String b r)) =>
      match hex_digit a, hex_digit b, PathUnescape r with
      | Some x, Some y, Some r => Some (String (ascii_of_nat (16 * x + y)) r)
      | _, _, _ => None
      end
  | String "%" _ => None
  | String a r => match PathUnescape r with Some r => Some (String a r) | None => None end
  end.

Definition unescape (s : string) : string := match PathUnescape s with Some u => u | None => s end.

(** ** Package URLs (purl.go) *)

Record Parsed := mkParsed {
  p_Type : string; p_Namespace : string; p_Name : string; p_Version : string; p_Ecosystem : string;
  p_Distro : string; p_SourceName : string }.

(** A Go map literal. *)
Fixpoint lit (l : list (string * string)) (k : string) : string :=
  match l with [] => "" | (x, v) :: l => if bool_decide (x = k) then v else lit l k end.

Definition qualifier (qualifiers key : string) : string :=
  (fix go l := match l with
               | [] => ""
               | kv :: l =>
                   match split_first "=" kv with
                   | Some (k, v) => if bool_decide (k = key) then unescape v else go l
                   | None => go l
                   end
               end) (Split "&" qualifiers).

Definition sourceQualifier (qualifiers : string) : string :=
  (fix go l := match l with
               | [] => ""
               | k :: l =>
                   let v := qualifier qualifiers k in
                   if bool_decide (v = "") then go l
                   else match split_first "@" v with Some (String a x, _) => String a x | _ => v end
               end) ["source"; "origin"; "upstream"].

Definition debianCodenames : list (string * string) :=
  [("jessie", "8"); ("stretch", "9"); ("buster", "10"); ("bullseye", "11"); ("bookworm", "12"); ("trixie", "13"); ("forky", "14")].

Definition ubuntuCodenames : list (string * string) :=
  [("xenial", "16.04"); ("bionic", "18.04"); ("focal", "20.04"); ("jammy", "22.04"); ("noble", "24.04"); ("questing", "25.10")].

Definition distroOSVFamily : list (string * string) :=
  [("ubuntu", "Ubuntu"); ("debian", "Debian"); ("redhat", "Red Hat"); ("rocky", "Rocky Linux"); ("alma", "AlmaLinux");
   ("fedora", "Fedora"); ("alpine", "Alpine"); ("suse", "SUSE"); ("opensuse", "openSUSE")].

Definition distroVendorAlias (v : string) : string :=
  if contains ["rhel"; "redhat"; "red-hat"] v then "redhat"
  else if contains ["alpine"; "alpinelinux"] v then "alpine"
  else v.

(** The release and the vendor. *)
Definition releaseFromCodename (name : string) : string * string :=
  let d := lit debianCodenames name in
  let u := lit ubuntuCodenames name in
  if bool_decide (d ≠ "") then (d, "debian") else if bool_decide (u ≠ "") then (u, "ubuntu") else ("", "").

(** What follows when the qualifier names no vendor. *)
Definition vendor_of_namespace (typ ns : string) : string * string :=
  if bool_decide (ns ≠ "") then (ns, "") else if bool_decide (typ = "apk") then ("alpine", "") else ("", "").

Definition distroVendorRelease (typ namespace distro : string) : string * string :=
  let ns := distroVendorAlias (lower_string namespace) in
  let known v := bool_decide (lit distroOSVFamily v ≠ "") in
  if bool_decide (distro = "") then vendor_of_namespace typ ns
  else
    let d := lower_string distro in
    let bare :=
      let v := distroVendorAlias d in
      if known v then (v, "")
      else
        let '(r, v) := releaseFromCodename d in
        if bool_decide (r ≠ "") && (bool_decide (ns = "") || bool_decide (ns = v)) then (v, r)
        else if bool_decide (ns ≠ "") && known ns then (ns, d)
        else if bool_decide (typ = "apk") then ("alpine", d)
        else vendor_of_namespace typ ns in
    match split_first "-" d with
    | Some (x, rel) => let v := distroVendorAlias x in if known v then (v, rel) else bare
    | None => bare
    end.

(** The OSV ecosystem and the distro. *)
Definition osEcosystem (typ namespace distro : string) : string * string :=
  let '(vendor, release) := distroVendorRelease typ namespace distro in
  let osvFamily := lit distroOSVFamily vendor in
  if bool_decide (vendor = "") || bool_decide (osvFamily = "") then ("", "")
  else if bool_decide (release = "") then (osvFamily, vendor)
  else (String.append osvFamily (String ":" release), String.append vendor (String ":" release)).

Definition langEcosystem (typ : string) : string :=
  lit [("npm", "npm"); ("pypi", "PyPI"); ("golang", "Go"); ("cargo", "crates.io"); ("maven", "Maven"); ("gem", "RubyGems");
         ("nuget", "NuGet"); ("composer", "Packagist"); ("hex", "Hex"); ("pub", "Pub"); ("conan", "ConanCenter")] typ.

Definition ecosystem (typ namespace distro : string) : string * string :=
  if contains ["deb"; "rpm"; "apk"] typ then osEcosystem typ namespace distro else (langEcosystem typ, "").

(** What precedes the first occurrence of a character, and what follows it. *)
Definition before (c : ascii) (s : string) : string := match split_first c s with Some (x, _) => x | None => s end.
Definition after (c : ascii) (s : string) : string := match split_first c s with Some (_, y) => y | None => "" end.

Definition Parse (s : string) : option Parsed :=
  match cut_prefix s "pkg:" with
  | None => None
  | Some rest =>
      let qualifiers := after "?" rest in
      let rest := before "#" (before "?" rest) in
      match split_first "/" rest with
      | None => None
      | Some (typ, rest) =>
          let typ := lower_string typ in
          let '(rest, version) := match split_last "@" rest with Some (x, v) => (x, unescape v) | None => (rest, "") end in
          let '(namespace, name) :=
            match split_last "/" rest with Some (x, n) => (unescape x, unescape n) | None => ("", unescape rest) end in
          let '(eco, distro) := ecosystem typ namespace (qualifier qualifiers "distro") in
          Some (mkParsed typ namespace name version eco distro (sourceQualifier qualifiers))
      end
  end.

(** ** Ecosystems (ecosystem.go) *)

Record EcosystemParts := mkParts { Family : string; Variants : list string; Release : string }.

Definition looksLikeRelease (tok : string) : bool :=
  match trim_prefix tok "v" with String a _ => in_range 48 57 a | EmptyString => false end.

(** The variants before the release, and the release. *)
Fixpoint variants_release (l : list string) : list string * string :=
  match l with
  | [] => ([], "")
  | x :: l =>
      if looksLikeRelease x then ([], x)
      else let '(vs, r) := variants_release l in (if bool_decide (x = "") then vs else x :: vs, r)
  end.

Definition ParseEcosystem (eco : string) : EcosystemParts :=
  match Split ":" eco with
  | [] => mkParts "" [] ""
  | f :: l => let '(vs, r) := variants_release l in mkParts f vs r
  end.

Definition Key (p : EcosystemParts) : string :=
  if bool_decide (Release p = "") then Family p else String.append (Family p) (String ":" (Release p)).

Definition EcosystemKey (eco : string) : string := Key (ParseEcosystem eco).

Definition hasVariant (have : list string) (want : string) : bool := existsb (λ h, EqualFold h want) have.

Definition EcosystemApplies (advisoryEco componentEco : string) : bool :=
  if bool_decide (advisoryEco = "") then true
  else
    let a := ParseEcosystem advisoryEco in
    let c := ParseEcosystem componentEco in
    EqualFold (Family a) (Family c) &&
    negb (bool_decide (Release a ≠ "") && bool_decide (Release c ≠ "") && negb (EqualFold (Release a) (Release c))) &&
    forallb (hasVariant (Variants c)) (Variants a).

(** ** Documents (sbom.go) *)

Record Component := mkComponent {
  Purl : string; Name : string; Version : string; Ecosystem : string; Distro : string; Source : string;
  SourceName : string; SourceVersion : string }.

#[export] Instance Component_eq_dec : EqDecision Component.
Proof. solve_decision. Defined.

(** [cdx.Component]. *)
Inductive cdxComponent : Type :=
  mkCdx (name version purl : string) (props : list (string * string)) (components : list cdxComponent).

Definition propEcosystem : string := "geneza:osv:ecosystem".
Definition propDistro : string := "geneza:os:distro".
Definition propSource : string := "geneza:source".
Definition propSourceName : string := "geneza:os:source_name".
Definition propSourceVersion : string := "geneza:os:source_version".

(** [sort.Slice] by purl and source. *)
Definition componentKey (c : Component) : string * string := (Purl c, Source c).

Definition key_le (a b : string * string) : Prop :=
  (a.1 ≠ b.1 ∧ String.le a.1 b.1) ∨ (a.1 = b.1 ∧ String.le a.2 b.2).
#[export] Instance key_le_dec : RelDecision key_le.
Proof. intros a b. unfold key_le. apply _. Defined.

Definition comp_le (a b : Component) : Prop := key_le (componentKey a) (componentKey b).
#[export] Instance comp_le_dec : RelDecision comp_le := λ a b, decide (key_le (componentKey a) (componentKey b)).

Definition sortedComponents (comps : list Component) : list Component := merge_sort comp_le comps.

(** The component of the document. *)
Definition prop_if (k v : string) : list (string * string) := if bool_decide (v = "") then [] else [(k, v)].

Definition cdx_of (c : Component) : cdxComponent :=
  mkCdx (Name c) (Version c) (Purl c)
    (prop_if propEcosystem (Ecosystem c) ++ prop_if propDistro (Distro c) ++ prop_if propSource (Source c) ++
     prop_if propSourceName (SourceName c) ++ prop_if propSourceVersion (SourceVersion c)) [].

(** The last value of a property. *)
Definition propMap (props : list (string * string)) (k : string) : string := lit (rev props) k.

(** The missing fields of a component, from its package URL. *)
Definition fill (c : Component) : Component :=
  let c := match Parse (Purl c) with
           | Some pu => mkComponent (Purl c) (first_of (Name c) (p_Name pu)) (first_of (Version c) (p_Version pu))
                          (first_of (Ecosystem c) (p_Ecosystem pu)) (first_of (Distro c) (p_Distro pu)) (Source c)
                          (first_of (SourceName c) (p_SourceName pu)) (SourceVersion c)
           | None => c
           end in
  mkComponent (Purl c) (Name c) (Version c) (Ecosystem c) (Distro c) (first_of (Source c) "os") (SourceName c) (SourceVersion c).

Definition componentFrom (name version purl : string) (props : list (string * string)) : option Component :=
  if bool_decide (purl = "") then None
  else
    let m := propMap props in
    let pc := fill (mkComponent purl name version (m propEcosystem) (m propDistro) (m propSource) (m propSourceName) (m propSourceVersion)) in
    if bool_decide (Ecosystem pc ≠ "") && bool_decide (Name pc ≠ "") then Some pc else None.

Fixpoint walk (c : cdxComponent) : list Component :=
  match c with
  | mkCdx name version purl props sub =>
      (match componentFrom name version purl props with Some pc => [pc] | None => [] end) ++ flat_map walk sub
  end.

Definition maxSupportedSpecVersion : string := "1.6".
Definition supportedSpecVersions : list string := ["1.0"; "1.1"; "1.2"; "1.3"; "1.4"; "1.5"; "1.6"].

(** The library, and the member [specVersion] of a JSON document, read and replaced. *)
Class CycloneDX := {
  EncodeBOM : string → list cdxComponent → option bytes;
  DecodeBOM : bytes → option (list cdxComponent);
  SpecVersion : bytes → option string;
  SetSpecVersion : string → bytes → option bytes }.

(** What is written is read back, the subject is part of what is written, and the
    version written is a supported one. *)
Class BOMLaw `{CycloneDX} : Prop := {
  bom_roundtrip n cs doc : EncodeBOM n cs = Some doc → DecodeBOM doc = Some cs;
  bom_subject n n' cs cs' doc : EncodeBOM n cs = Some doc → EncodeBOM n' cs' = Some doc → n = n';
  bom_version n cs doc : EncodeBOM n cs = Some doc → ∃ v, SpecVersion doc = Some v ∧ v ∈ supportedSpecVersions }.

Section Documents.
Context `{CycloneDX}.

Definition clampSpecVersion (doc : bytes) : bytes :=
  match SpecVersion doc with
  | None => doc
  | Some v =>
      if bool_decide (v = "") || contains supportedSpecVersions v then doc
      else match SetSpecVersion maxSupportedSpecVersion doc with Some out => out | None => doc end
  end.

Definition Encode (nodeID : string) (comps : list Component) : option bytes := EncodeBOM nodeID (cdx_of <$> sortedComponents comps).

Definition Extract (doc : bytes) : option (list Component) := flat_map walk <$> DecodeBOM (clampSpecVersion doc).
End Documents.

(** The last component of a key. *)
Definition comp_map (l : list Component) : gmap (string * string) Component :=
  foldl (λ m c, <[componentKey c := c]> m) ∅ l.

(** What is added and what is removed. *)
Definition Diff (base next : list Component) : list Component * list Component :=
  (sortedComponents (filter (λ c, comp_map base !! componentKey c ≠ Some c) next),
   sortedComponents (filter (λ c, comp_map next !! componentKey c ≠ Some c) base)).

Definition Apply (base added removed : list Component) : list Component :=
  let set := comp_map base in
  let set := foldl (λ m c, delete (componentKey c) m) set removed in
  let set := foldl (λ m c, <[componentKey c := c]> m) set added in
  sortedComponents ((map_to_list set).*2).

(** ** Order *)

#[export] Instance key_le_total : Total key_le.
Proof.
  intros [a b] [c d]. unfold key_le. cbn. destruct (decide (a = c)) as [->|Hne].
  - destruct (total String.le b d); auto.
  - destruct (total String.le a c); auto.
Qed.

#[export] Instance key_le_trans : Transitive key_le.
Proof.
  intros [a b] [c d] [e f]. unfold key_le. cbn. intros [[H1 H2]|[-> H2]] [[H3 H4]|[-> H4]].
  - destruct (decide (a = e)) as [->|Hne]; [|left; split; [done|by etrans]].
    destruct H1. by apply (anti_symm String.le).
  - by left.
  - by left.
  - right. split; [done|by etrans].
Qed.

#[export] Instance key_le_antisymm : AntiSymm (=) key_le.
Proof.
  intros [a b] [c d]. unfold key_le. cbn. intros [[H1 H2]|[-> H2]] [[H3 H4]|[E H4]]; try congruence.
  - destruct H1. by apply (anti_symm String.le).
  - f_equal. by apply (anti_symm String.le).
Qed.

#[export] Instance comp_le_total : Total comp_le.
Proof. intros a b. apply (total key_le). Qed.
#[export] Instance comp_le_trans : Transitive comp_le.
Proof. intros a b c. unfold comp_le. apply (transitivity (R := key_le)). Qed.

(** A list in which no two components have the same key. *)
Definition keyed (l : list Component) : Prop := NoDup (componentKey <$> l).

Lemma keyed_inj (l : list Component) (a b : Component) : keyed l → a ∈ l → b ∈ l → componentKey a = componentKey b → a = b.
Proof.
  intros Hl Ha Hb E. apply list_elem_of_lookup in Ha as [i Hi], Hb as [j Hj].
  assert (i = j) as ->; [|congruence]. eapply (NoDup_lookup _ i j (componentKey a) Hl).
  - by rewrite list_lookup_fmap, Hi.
  - rewrite list_lookup_fmap, Hj. cbn. by rewrite E.
Qed.

Lemma sorted_Permutation (l : list Component) : sortedComponents l ≡ₚ l.
Proof. apply merge_sort_Permutation. Qed.

Lemma sorted_keyed (l : list Component) : keyed l → keyed (sortedComponents l).
Proof. unfold keyed. by rewrite sorted_Permutation. Qed.

(** The order of the input does not matter. *)
Lemma sorted_unique (l l' : list Component) : keyed l → l ≡ₚ l' → sortedComponents l = sortedComponents l'.
Proof.
  intros Hl HP. apply (StronglySorted_unique_strong comp_le).
  - intros a b Ha Hb H1 H2. rewrite sorted_Permutation in Ha. rewrite sorted_Permutation, <- HP in Hb.
    apply (keyed_inj l); [done..|]. by apply (anti_symm key_le).
  - apply StronglySorted_merge_sort; apply _.
  - apply StronglySorted_merge_sort; apply _.
  - by rewrite !sorted_Permutation.
Qed.

(** ** Differences *)

Lemma comp_map_lookup (l : list Component) (m : gmap (string * string) Component) (k : string * string) (c : Component) :
  keyed l → foldl (λ m c, <[componentKey c := c]> m) m l !! k = Some c ↔
    (c ∈ l ∧ componentKey c = k) ∨ (k ∉ componentKey <$> l ∧ m !! k = Some c).
Proof.
  revert m. induction l as [|x l IH]; intros m Hl; cbn.
  { split; [intros; right; split; [apply not_elem_of_nil|done]|]. intros [[H _]|[_ H]]; [by apply elem_of_nil in H|done]. }
  apply NoDup_cons in Hl as [Hx Hl]. rewrite IH by done. rewrite elem_of_cons, not_elem_of_cons, lookup_insert_Some. split.
  - intros [[? ?]|[? [[<- <-]|[? ?]]]]; [by left; auto|left; auto|right; auto].
  - intros [[[->|?] <-]|[[? ?] ?]]; [right; auto|left; auto|right; auto].
Qed.

Lemma comp_map_spec (l : list Component) (k : string * string) (c : Component) :
  keyed l → comp_map l !! k = Some c ↔ c ∈ l ∧ componentKey c = k.
Proof. intros Hl. unfold comp_map. rewrite comp_map_lookup by done. rewrite lookup_empty. naive_solver. Qed.

Lemma foldl_delete_lookup (l : list Component) (m : gmap (string * string) Component) (k : string * string) (c : Component) :
  foldl (λ m c, delete (componentKey c) m) m l !! k = Some c ↔ k ∉ componentKey <$> l ∧ m !! k = Some c.
Proof.
  revert m. induction l as [|x l IH]; intros m; cbn; [split; [split; [apply not_elem_of_nil|done]|tauto]|].
  rewrite IH, lookup_delete_Some, not_elem_of_cons. naive_solver.
Qed.

Lemma map_values_keyed (m : gmap (string * string) Component) :
  map_Forall (λ k c, componentKey c = k) m → componentKey <$> (map_to_list m).*2 = (map_to_list m).*1.
Proof.
  intros Hm. rewrite <- list_fmap_compose. apply list_fmap_ext. intros i [k c] Hi. cbn.
  apply list_elem_of_lookup_2, elem_of_map_to_list in Hi. by apply Hm.
Qed.

(** The values of a map that holds exactly the components of a list. *)
Lemma map_values_eq (m : gmap (string * string) Component) (l : list Component) :
  keyed l → (∀ k c, m !! k = Some c ↔ c ∈ l ∧ componentKey c = k) → sortedComponents ((map_to_list m).*2) = sortedComponents l.
Proof.
  intros Hl Hm. assert (map_Forall (λ k c, componentKey c = k) m) as Hk by (intros k c Hc; by apply Hm in Hc as [_ ?]).
  apply sorted_unique; [unfold keyed; rewrite map_values_keyed by done; apply NoDup_fst_map_to_list|].
  apply NoDup_Permutation.
  - apply (NoDup_fmap_1 componentKey). rewrite map_values_keyed by done. apply NoDup_fst_map_to_list.
  - by apply (NoDup_fmap_1 componentKey).
  - intros c. rewrite list_elem_of_fmap. split.
    + intros ([k d] & -> & Hd). apply elem_of_map_to_list, Hm in Hd as [Hd _]. done.
    + intros Hc. exists (componentKey c, c). split; [done|]. apply elem_of_map_to_list, Hm. done.
Qed.

Lemma NoDup_fmap_filter {A B : Type} (f : A → B) (P : A → Prop) `{∀ x, Decision (P x)} (l : list A) :
  NoDup (f <$> l) → NoDup (f <$> filter P l).
Proof.
  induction l as [|x l IH]; [done|]. rewrite filter_cons. cbn. intros [Hx Hl]%NoDup_cons. case_decide; [|auto].
  apply NoDup_cons. split; [|auto]. intros Hin. apply Hx. apply list_elem_of_fmap in Hin as (y & -> & Hy).
  apply list_elem_of_filter in Hy as [_ Hy]. apply list_elem_of_fmap. eauto.
Qed.

Lemma Apply_Diff (base next : list Component) :
  keyed base → keyed next → Apply base (Diff base next).1 (Diff base next).2 = sortedComponents next.
Proof.
  intros Hb Hn. unfold Apply, Diff. cbn. apply map_values_eq; [done|]. intros k c.
  assert (∀ P `{∀ x, Decision (P x)} l, keyed l → keyed (sortedComponents (filter P l))) as Hf.
  { intros P ? l Hl. by apply sorted_keyed, NoDup_fmap_filter. }
  pose proof (λ k c, comp_map_spec base k c Hb) as Sb. pose proof (λ k c, comp_map_spec next k c Hn) as Sn.
  rewrite comp_map_lookup by auto. rewrite foldl_delete_lookup, Sb, !list_elem_of_fmap. setoid_rewrite sorted_Permutation.
  setoid_rewrite list_elem_of_filter. setoid_rewrite Sb. setoid_rewrite Sn. split.
  - intros [[[_ Hc] Ek]|(Ha & Hr & Hc & Ek)]; [done|]. destruct (decide (c ∈ next)) as [?|Hnc]; [done|].
    exfalso. apply Hr. exists c. split_and!; [done| |done]. intros [? _]. done.
  - intros [Hc Ek]. destruct (decide (c ∈ base)) as [Hcb|Hcb].
    + right. split_and!; [|intros (d & Ed & Hd & Hdb)|done|done].
      * intros (d & Ed & Hd & Hdn). apply Hd. assert (d = c) as -> by (apply (keyed_inj next); congruence). done.
      * apply Hd. assert (d = c) as -> by (apply (keyed_inj base); congruence). done.
    + left. split; [split; [|done]|done]. by intros [? _].
Qed.

(** ** Reading back what was written *)

Lemma first_of_twice (a b : string) : first_of (first_of a b) b = first_of a b.
Proof. unfold first_of. repeat case_bool_decide; congruence. Qed.

Lemma fill_fill (c : Component) : fill (fill c) = fill c.
Proof.
  unfold fill. destruct c as [pu na ve ec di so sn sv]. cbn. destruct (Parse pu) as [p|] eqn:E; cbn; rewrite E; cbn;
    rewrite ?first_of_twice; done.
Qed.

(** A component the controller keeps. *)
Definition usable (c : Component) : Prop := Purl c ≠ "" ∧ Ecosystem (fill c) ≠ "" ∧ Name (fill c) ≠ "".
#[export] Instance usable_dec (c : Component) : Decision (usable c).
Proof. apply _. Defined.

Lemma componentFrom_cdx (c : Component) :
  walk (cdx_of c) = if decide (usable c) then [fill c] else [].
Proof.
  destruct c as [pu na ve ec di so sn sv].
  assert (∀ m, m = propMap (match cdx_of (mkComponent pu na ve ec di so sn sv) with mkCdx _ _ _ props _ => props end) →
            m propEcosystem = ec ∧ m propDistro = di ∧ m propSource = so ∧ m propSourceName = sn ∧ m propSourceVersion = sv) as Hm.
  { intros m ->. unfold cdx_of, prop_if. cbn [Ecosystem Distro Source SourceName SourceVersion].
    repeat case_bool_decide; subst; vm_compute; done. }
  cbn [cdx_of] in Hm. cbn [cdx_of walk flat_map]. unfold componentFrom. cbn [Purl Name Version]. 
  destruct (Hm _ eq_refl) as (-> & -> & -> & -> & ->). rewrite app_nil_r. unfold usable. cbn [Purl].
  case_bool_decide as Ep; [rewrite decide_False by tauto; done|].
  destruct (bool_decide (Ecosystem _ ≠ "")) eqn:Ee; [apply bool_decide_eq_true in Ee|apply bool_decide_eq_false in Ee];
    [|rewrite decide_False by tauto; done]. cbn.
  destruct (bool_decide (Name _ ≠ "")) eqn:En; [apply bool_decide_eq_true in En|apply bool_decide_eq_false in En];
    [by rewrite decide_True|by rewrite decide_False by tauto].
Qed.

Lemma Extract_Encode `{BOMLaw} (n : string) (cs : list Component) (doc : bytes) :
  Encode n cs = Some doc → Extract doc = Some (fill <$> filter usable (sortedComponents cs)).
Proof.
  intros He. unfold Extract, clampSpecVersion. destruct (bom_version _ _ _ He) as (v & -> & Hv).
  apply contains_spec in Hv. rewrite Hv, orb_true_r. unfold Encode in He. rewrite (bom_roundtrip _ _ _ He). cbn. f_equal.
  clear He. induction (sortedComponents cs) as [|c l IH]; [done|]. cbn [fmap list_fmap flat_map]. rewrite filter_cons, IH.
  change (mkCdx _ _ _ _ []) with (cdx_of c). rewrite componentFrom_cdx. by case_decide.
Qed.
