(* ===== verification/Affected.v ===== *)
(** * Which packages an advisory affects (affected/engine.go, affected/engine/engine.go)

    The engine that compares a component with an advisory: the entries of the advisory
    that apply, the windows of their ranges, and the verdict with the version that
    fixes it.  The comparison of two versions is a library, the parameter [CompareStr]
    of an ecosystem and two versions; suppression by VEX statements is a parameter of
    the engine. *)
From Stdlib Require Import ZArith Lia Strings.Byte Strings.Ascii.
From stdpp Require Import base gmap sets list sorting strings.
From S2P Require Import Prelude Proc Packages.
Local Open Scope Z_scope.

(** ** Advisories (vulnfeed/feed.go) *)

Record Event := mkEvent { Introduced : string; Fixed : string }.
Record Range := mkRange { r_Type : string; Events : list Event }.
Record Package := mkPackage { pk_Ecosystem : string; pk_Name : string; pk_Purl : string }.
Record Affected := mkAffected { a_Package : Package; Ranges : list Range; Versions : list string }.
Record Vulnerability := mkVulnerability {
  v_ID : string; Aliases : list string; Modified : Z; v_Affected : list Affected; v_Severity : string; Raw : bytes }.

(** ** Components and verdicts *)

Record Target := mkTarget {
  t_NodeID : string; t_Purl : string; t_Source : string; t_Ecosystem : string; t_Name : string; t_Version : string;
  t_SourceName : string; t_SourceVersion : string; t_Distro : string }.

Inductive Status : Type := StatusAffected | StatusNotAffected | StatusFixed | StatusUnderInvestigation.
#[export] Instance Status_eq_dec : EqDecision Status.
Proof. solve_decision. Defined.

Record Match := mkMatch {
  m_Component : Target; m_CVE : string; m_Status : Status; m_AdvisoryID : string; m_FixedVersion : string;
  m_Severity : string; m_VEXJustification : string }.

(** [semantic.Parse] and [CompareStr]: negative, zero, positive. *)
Class Semantic := CompareStr : string → string → string → option Z.

(** [VEXSource]. *)
Definition VEXSource : Type := string → string → string → option string.

Record Engine := mkEngine { WS : string; VEX : option VEXSource }.

Section Engine.
Context `{Semantic}.

(** ** One range *)

Definition cmpErr : Z := -2.
Definition cmp (ecosystem a b : string) : Z := match CompareStr ecosystem a b with Some r => r | None => cmpErr end.

Inductive rangeState : Type := beforeVuln | inVulnWindow | pastFix.

Record sweep := mkSweep { sw_state : rangeState; sw_open : bool; sw_fixedAt : string; sw_unknown : bool }.

(** The rest of the events; an early return is an answer. *)
Fixpoint sweep_events (eco installed : string) (evs : list Event) (w : sweep) : rangeState * string * bool :=
  match evs with
  | [] => (sw_state w, sw_fixedAt w, sw_unknown w)
  | ev :: evs =>
      if bool_decide (Introduced ev ≠ "") then
        let ci := cmp eco installed (Introduced ev) in
        if negb (bool_decide (Introduced ev = "0")) && (ci =? cmpErr)
        then sweep_events eco installed evs (mkSweep (sw_state w) (sw_open w) (sw_fixedAt w) true)
        else if bool_decide (Introduced ev = "0") || (0 <=? ci)
        then sweep_events eco installed evs (mkSweep inVulnWindow true (sw_fixedAt w) (sw_unknown w))
        else sweep_events eco installed evs w
      else if bool_decide (Fixed ev ≠ "") then
        if negb (sw_open w) then sweep_events eco installed evs w
        else
          let cf := cmp eco installed (Fixed ev) in
          if cf =? cmpErr then sweep_events eco installed evs (mkSweep (sw_state w) (sw_open w) (sw_fixedAt w) true)
          else if 0 <=? cf then sweep_events eco installed evs (mkSweep pastFix false (Fixed ev) (sw_unknown w))
          else (inVulnWindow, Fixed ev, sw_unknown w)
      else sweep_events eco installed evs w
  end.

Definition evalRange (eco installed : string) (r : Range) : rangeState * string * bool :=
  sweep_events eco installed (Events r) (mkSweep beforeVuln false "" false).

(** ** One entry *)

Definition nameMatches (advName : string) (c : Target) : bool :=
  EqualFold advName (t_Name c) || bool_decide (t_SourceName c ≠ "") && EqualFold advName (t_SourceName c).

Definition compareVersion (advName : string) (c : Target) : string :=
  if bool_decide (t_SourceVersion c ≠ "") && negb (EqualFold advName (t_Name c)) && EqualFold advName (t_SourceName c)
  then t_SourceVersion c else t_Version c.

Record tally := mkTally { ta_affected : bool; ta_open : string; ta_fixed : string; ta_uncertain : bool }.

Definition tally_range (eco ver : string) (t : tally) (r : Range) : tally :=
  if EqualFold (r_Type r) "GIT" then t
  else
    let '(st, fixedAt, unk) := evalRange eco ver r in
    let t := match st with
             | inVulnWindow => mkTally true (first_of (ta_open t) fixedAt) (ta_fixed t) (ta_uncertain t)
             | pastFix => mkTally (ta_affected t) (ta_open t) fixedAt (ta_uncertain t)
             | beforeVuln => t
             end in
    if unk then mkTally (ta_affected t) (ta_open t) (ta_fixed t) true else t.

Definition evalAffected (c : Target) (aff : Affected) : Status * string :=
  let eco := first_of (pk_Ecosystem (a_Package aff)) (t_Ecosystem c) in
  let ver := compareVersion (pk_Name (a_Package aff)) c in
  if (length (Ranges aff) =? 0)%nat && (0 <? length (Versions aff))%nat then
    if existsb (λ v, cmp eco ver v =? 0) (Versions aff) then (StatusAffected, "") else (StatusNotAffected, "")
  else
    let t := foldl (tally_range eco ver) (mkTally false "" "" false) (Ranges aff) in
    if ta_affected t then (StatusAffected, ta_open t)
    else if bool_decide (ta_fixed t ≠ "") then (StatusFixed, ta_fixed t)
    else if ta_uncertain t then (StatusUnderInvestigation, "")
    else (StatusNotAffected, "").

(** ** One advisory *)

Definition hasDistroSuffix (eco : string) : bool := has_char ":" eco.

Definition selectAffected (c : Target) (adv : Vulnerability) : list Affected :=
  let all := filter (λ a, nameMatches (pk_Name (a_Package a)) c && EcosystemApplies (pk_Ecosystem (a_Package a)) (t_Ecosystem c) = true)
               (v_Affected adv) in
  let distro := filter (λ a, hasDistroSuffix (pk_Ecosystem (a_Package a)) = true) all in
  if hasDistroSuffix (t_Ecosystem c) && (0 <? length distro)%nat then distro else all.

Definition primaryID (adv : Vulnerability) : string :=
  match List.find (λ id, has_prefix id "CVE-") (merge_sort String.le (Aliases adv)) with
  | Some id => id
  | None => v_ID adv
  end.

Record verdict := mkVerdict { ve_status : Status; ve_atOrPast : string; ve_window : string; ve_uncertain : bool }.

Definition fold_entry (c : Target) (v : verdict) (aff : Affected) : verdict :=
  let '(st, fx) := evalAffected c aff in
  match st with
  | StatusAffected => mkVerdict StatusAffected (ve_atOrPast v) (first_of (ve_window v) fx) (ve_uncertain v)
  | StatusFixed => if decide (ve_status v = StatusAffected) then v else mkVerdict StatusFixed fx (ve_window v) (ve_uncertain v)
  | StatusUnderInvestigation => mkVerdict (ve_status v) (ve_atOrPast v) (ve_window v) true
  | StatusNotAffected => v
  end.

Definition matchOne (e : Engine) (c : Target) (adv : Vulnerability) : option Match :=
  let cve := primaryID adv in
  match selectAffected c adv with
  | [] => None
  | entries =>
      let v := foldl (fold_entry c) (mkVerdict StatusNotAffected "" "" false) entries in
      let status := if decide (ve_status v = StatusNotAffected) then if ve_uncertain v then StatusUnderInvestigation else StatusNotAffected
                    else ve_status v in
      let fixedVersion := match status with StatusFixed => ve_atOrPast v | StatusAffected => ve_window v | _ => "" end in
      let m := mkMatch c cve status (v_ID adv) fixedVersion (v_Severity adv) "" in
      match status, VEX e with
      | StatusAffected, Some vex =>
          match vex (WS e) cve (t_Purl c) with
          | Some just => Some (mkMatch c cve StatusNotAffected (v_ID adv) fixedVersion (v_Severity adv) just)
          | None => Some m
          end
      | _, _ => Some m
      end
  end.

(** ** Matching *)

Definition MatchAdvisory (e : Engine) (adv : Vulnerability) (candidates : list Target) : list Match :=
  omap (λ c, matchOne e c adv) candidates.

Definition lookupNames (c : Target) : list string :=
  if bool_decide (t_SourceName c = "") || EqualFold (t_SourceName c) (t_Name c) then [t_Name c] else [t_Name c; t_SourceName c].

(** The advisories found under the names, each id once. *)
Fixpoint first_ids (l : list Vulnerability) (seen : list string) : list Vulnerability :=
  match l with
  | [] => []
  | adv :: l => if bool_decide (v_ID adv ∈ seen) then first_ids l seen else adv :: first_ids l (v_ID adv :: seen)
  end.

(** [feed.Advisories], which reads the store, answers or fails. *)
Definition AdvisoryLookup (S : Type) : Type := string → string → prog S (option (list Vulnerability)).

Fixpoint lookups {S : Type} (feed : AdvisoryLookup S) (eco : string) (names : list string) : prog S (option (list Vulnerability)) :=
  match names with
  | [] => mret (Some [])
  | n :: names =>
      l ← feed eco n;
      match l with
      | None => mret None
      | Some l => r ← lookups feed eco names; mret (match r with Some r => Some (l ++ r) | None => None end)
      end
  end.

Definition found {S : Type} (feed : AdvisoryLookup S) (c : Target) : prog S (option (list Vulnerability)) :=
  l ← lookups feed (t_Ecosystem c) (lookupNames c); mret (match l with Some l => Some (first_ids l []) | None => None end).

Fixpoint MatchNode {S : Type} (e : Engine) (feed : AdvisoryLookup S) (comps : list Target) : prog S (option (list Match)) :=
  match comps with
  | [] => mret (Some [])
  | c :: comps =>
      advs ← found feed c;
      match advs with
      | None => mret None
      | Some advs => r ← MatchNode e feed comps; mret (match r with Some r => Some (omap (matchOne e c) advs ++ r) | None => None end)
      end
  end.

End Engine.
