(* ===== verification/Verdicts.v ===== *)
(** * Verdicts (Affected.v)

    What the engine says of a component is what the windows of the advisory say: a
    version is affected exactly when it lies in a window of an entry that applies. *)
From Stdlib Require Import ZArith Lia Strings.Byte.
From stdpp Require Import base gmap sets list sorting strings.
From S2P Require Import Prelude Packages Affected.
Local Open Scope Z_scope.

Section Verdicts.
Context `{Semantic}.

(** ** Windows *)

(** From a version on, up to another or for ever. *)
Record window := mkWindow { from : string; upto : option string }.

Definition window_events (w : window) : list Event :=
  mkEvent (from w) "" :: match upto w with Some f => [mkEvent "" f] | None => [] end.

(** The windows of a list of events that opens and closes them in turn. *)
Fixpoint windows_of (evs : list Event) : option (list window) :=
  match evs with
  | [] => Some []
  | mkEvent i f :: evs =>
      if bool_decide (i ≠ "" ∧ f = "") then
        match evs with
        | [] => Some [mkWindow i None]
        | mkEvent i' f' :: evs =>
            if bool_decide (i' = "" ∧ f' ≠ "") then cons (mkWindow i (Some f')) <$> windows_of evs else None
        end
      else None
  end.

Definition comparable (eco ver x : string) : Prop := ∃ z, CompareStr eco ver x = Some z ∧ -1 ≤ z ≤ 1.

Definition readable (eco ver : string) (w : window) : Prop :=
  from w ≠ "" ∧ (from w = "0" ∨ comparable eco ver (from w)) ∧
  match upto w with Some f => f ≠ "" ∧ comparable eco ver f | None => True end.

Definition inside (eco ver : string) (w : window) : Prop :=
  (from w = "0" ∨ 0 ≤ cmp eco ver (from w)) ∧ match upto w with Some f => cmp eco ver f < 0 | None => True end.

Definition passed (eco ver : string) (w : window) : Prop :=
  (from w = "0" ∨ 0 ≤ cmp eco ver (from w)) ∧ match upto w with Some f => 0 ≤ cmp eco ver f | None => False end.

#[local] Instance inside_dec (eco ver : string) (w : window) : Decision (inside eco ver w).
Proof. unfold inside. destruct (upto w); apply _. Defined.
#[local] Instance passed_dec (eco ver : string) (w : window) : Decision (passed eco ver w).
Proof. unfold passed. destruct (upto w); apply _. Defined.

(** Only the last window may have no end. *)
Fixpoint in_turn (ws : list window) : Prop :=
  match ws with [] => True | w :: ws => (ws = [] ∨ is_Some (upto w)) ∧ in_turn ws end.

Lemma windows_of_spec (evs : list Event) (ws : list window) :
  windows_of evs = Some ws →
  evs = ws ≫= window_events ∧ Forall (λ w, from w ≠ "" ∧ upto w ≠ Some "") ws ∧ in_turn ws.
Proof.
  revert ws. induction evs as [evs IH] using (induction_ltof1 _ (@length _)). intros ws E.
  destruct evs as [|[i f] [|[i' f'] evs]]; cbn in E; [by simplify_eq|..].
  - case_bool_decide as Hi; [|done]. destruct Hi as [Hi ->]. simplify_eq. split_and!; [done| |cbn; auto]. by apply Forall_singleton.
  - case_bool_decide as Hi; [|done]. case_bool_decide as Hf; [|done]. destruct Hi as [Hi ->], Hf as [-> Hf].
    apply fmap_Some in E as (ws' & E & ->). destruct (IH evs) with (ws := ws') as (-> & Hw & Ht); [unfold ltof; cbn; lia|done|].
    split_and!; [done| |cbn; eauto]. apply Forall_cons. split; [|done]. split; [done|]. by intros [= ->].
Qed.

Lemma comparable_cmp (eco ver x : string) : comparable eco ver x → -1 ≤ cmp eco ver x ≤ 1.
Proof. intros (z & E & Hz). unfold cmp. by rewrite E. Qed.

Record placed (eco ver : string) (ws : list window) (st : rangeState) (fx : string) (res : rangeState * string * bool) : Prop := {
  pl_sure : res.2 = false;
  pl_in : Exists (inside eco ver) ws → res.1.1 = inVulnWindow ∧
            ∃ w, w ∈ ws ∧ inside eco ver w ∧ ∀ f, upto w = Some f → res.1.2 = f;
  pl_past : ¬ Exists (inside eco ver) ws → Exists (passed eco ver) ws → res.1.1 = pastFix ∧
            ∃ w, w ∈ ws ∧ passed eco ver w ∧ upto w = Some (res.1.2);
  pl_before : ¬ Exists (inside eco ver) ws → ¬ Exists (passed eco ver) ws → res.1 = (st, fx) }.

Lemma sweep_placed (eco ver : string) (ws : list window) (st : rangeState) (fx : string) :
  Forall (readable eco ver) ws → in_turn ws →
  placed eco ver ws st fx (sweep_events eco ver (ws ≫= window_events) (mkSweep st false fx false)).
Proof.
  intros Hw. revert st fx. induction Hw as [|w ws (Hne & Hf & Hu) _ IH]; intros st fx Ht.
  { split; cbn; [done|by intros ?%Exists_nil|by intros _ ?%Exists_nil|done]. }
  destruct Ht as [Hlast Ht]. specialize (IH). rewrite bind_cons.
  assert (∀ evs sw, sweep_events eco ver (mkEvent (from w) "" :: evs) sw =
    sweep_events eco ver evs (if decide (from w = "0" ∨ 0 ≤ cmp eco ver (from w)) then mkSweep inVulnWindow true (sw_fixedAt sw) (sw_unknown sw) else sw)) as Hin.
  { intros evs sw. cbn [sweep_events Introduced]. rewrite bool_decide_eq_true_2 by done.
    destruct (decide (from w = "0")) as [E0|E0].
    - rewrite (bool_decide_eq_true_2 _ E0). cbn. by rewrite decide_True by by left.
    - rewrite (bool_decide_eq_false_2 _ E0). cbn. destruct Hf as [?|Hc]; [done|]. apply comparable_cmp in Hc.
      destruct (Z.eqb_spec (cmp eco ver (from w)) cmpErr) as [E|_]; [rewrite E in Hc; unfold cmpErr in Hc; lia|].
      destruct (Z.leb_spec 0 (cmp eco ver (from w))); case_decide; first [done | exfalso; intuition lia]. }
  (* the windows that follow, from a state in which this one is behind or ahead *)
  assert (∀ st' fx', ¬ inside eco ver w → (passed eco ver w → st' = pastFix ∧ upto w = Some fx') →
            (¬ passed eco ver w → st' = st ∧ fx' = fx) → placed eco ver ws st' fx' (sweep_events eco ver (ws ≫= window_events) (mkSweep st' false fx' false)) →
            placed eco ver (w :: ws) st fx (sweep_events eco ver (ws ≫= window_events) (mkSweep st' false fx' false))) as Hnext.
  { intros st' fx' Hnw Hpw Hnp [S I P B]. split; [done|..].
    - intros [?|Hx]%Exists_cons; [done|]. destruct (I Hx) as (? & v & ? & ?). split; [done|]. exists v. split; [by right|done].
    - intros Hn Hp. assert (¬ Exists (inside eco ver) ws) as Hn' by (intros ?; apply Hn; by right).
      destruct (decide (Exists (passed eco ver) ws)) as [Hx|Hx].
      + destruct (P Hn' Hx) as (? & v & ? & ?). split; [done|]. exists v. split; [by right|done].
      + apply Exists_cons in Hp as [Hp|?]; [|done]. destruct (Hpw Hp) as [-> Eu]. rewrite (B Hn' Hx). split; [done|].
        exists w. split; [by left|done].
    - intros Hn Hp. destruct Hnp as [-> ->]; [intros ?; apply Hp; by left|].
      apply B; intros ?; [apply Hn|apply Hp]; by right. }
  unfold window_events. cbn [app]. rewrite Hin. destruct (upto w) as [f|] eqn:Eu.
  - destruct Hu as [Hfne Hc%comparable_cmp]. cbn [app sweep_events Introduced Fixed]. rewrite bool_decide_eq_false_2 by (intros E; done).
    rewrite bool_decide_eq_true_2 by done. destruct (decide (from w = "0" ∨ 0 ≤ cmp eco ver (from w))) as [Hge|Hlt].
    + cbn [sw_open negb sw_fixedAt sw_unknown]. destruct (Z.eqb_spec (cmp eco ver f) cmpErr) as [E|_]; [rewrite E in Hc; unfold cmpErr in Hc; lia|].
      destruct (Z.leb_spec 0 (cmp eco ver f)) as [Hp|Hp].
      * apply Hnext; [intros [_ Hx]; rewrite Eu in Hx; lia|done| |by apply IH]. intros Hx. destruct Hx. split; [done|by rewrite Eu].
      * assert (inside eco ver w) as Hiw by (split; [done|by rewrite Eu]). split; cbn; [done| |intros Hx; destruct Hx; by left|intros Hx; destruct Hx; by left].
        intros _. split; [done|]. exists w. split_and!; [by left|done|]. rewrite Eu. by intros ? [= <-].
    + cbn [sw_open negb]. apply Hnext; [by intros [? _]|by intros [? _]|done|by apply IH].
  - destruct Hlast as [->|[? ?]]; [|done]. cbn. destruct (decide (from w = "0" ∨ 0 ≤ cmp eco ver (from w))) as [Hge|Hlt]; cbn.
    + assert (inside eco ver w) as Hiw by (split; [done|by rewrite Eu]). split; cbn; [done| |intros Hx; destruct Hx; by left|intros Hx; destruct Hx; by left].
      intros _. split; [done|]. exists w. split_and!; [by left|done|]. by rewrite Eu.
    + apply (Hnext st fx); [by intros [? _]|by intros [? _]|done|by apply IH].
Qed.

(** ** Ranges and entries *)

Definition range_windows (r : Range) : list window := default [] (windows_of (Events r)).

Definition is_git (r : Range) : bool := EqualFold (r_Type r) "GIT".

(** A range whose events are in turn, and whose versions can be compared. *)
Definition clean_range (eco ver : string) (r : Range) : Prop :=
  is_git r = true ∨ is_Some (windows_of (Events r)) ∧
    Forall (λ w, (from w = "0" ∨ comparable eco ver (from w)) ∧ ∀ f, upto w = Some f → comparable eco ver f) (range_windows r).

Definition exposed_range (eco ver : string) (r : Range) : Prop := is_git r = false ∧ Exists (inside eco ver) (range_windows r).
Definition past_range (eco ver : string) (r : Range) : Prop :=
  is_git r = false ∧ ¬ Exists (inside eco ver) (range_windows r) ∧ Exists (passed eco ver) (range_windows r).

Lemma evalRange_placed (eco ver : string) (r : Range) :
  clean_range eco ver r → is_git r = false → placed eco ver (range_windows r) beforeVuln "" (evalRange eco ver r).
Proof.
  intros [?|[[ws E] Hc]] Hg; [congruence|]. unfold evalRange, range_windows in *. rewrite E in *. cbn in *.
  destruct (windows_of_spec _ _ E) as (-> & Hw & Ht). apply sweep_placed; [|done].
  rewrite Forall_forall in *. intros w Hin. destruct (Hw w Hin) as [? Hu], (Hc w Hin) as [? Hf]. split_and!; [done..|].
  destruct (upto w) as [f|] eqn:Eu; [|done]. split; [congruence|auto].
Qed.

(** What one range adds. *)
Lemma tally_step (eco ver : string) (t : tally) (r : Range) :
  clean_range eco ver r →
  let t' := tally_range eco ver t r in
  ta_uncertain t' = ta_uncertain t ∧ (ta_affected t' = true ↔ ta_affected t = true ∨ exposed_range eco ver r) ∧
  (ta_fixed t' ≠ "" ↔ ta_fixed t ≠ "" ∨ past_range eco ver r).
Proof.
  intros Hc. unfold tally_range, exposed_range, past_range. change (EqualFold (r_Type r) "GIT") with (is_git r).
  destruct (is_git r) eqn:Hg; [cbn; split_and!; intuition congruence|]. destruct (evalRange_placed eco ver r Hc Hg) as [S I P B].
  destruct Hc as [?|[[ws E] _]]; [congruence|]. destruct (windows_of_spec _ _ E) as (_ & Hw & _).
  destruct (evalRange eco ver r) as [[st fx] unk]. cbn in S, I, P, B. subst unk. cbn.
  destruct (decide (Exists (inside eco ver) (range_windows r))) as [Hx|Hx].
  { destruct (I Hx) as [-> _]. cbn. split_and!; intuition congruence. }
  destruct (decide (Exists (passed eco ver) (range_windows r))) as [Hy|Hy].
  - destruct (P Hx Hy) as (-> & w & Hin & _ & Eu). cbn. unfold range_windows in Hin. rewrite E in Hin. cbn in Hin.
    rewrite Forall_forall in Hw. destruct (Hw w Hin) as [_ Hne]. assert (fx ≠ "") by congruence. split_and!; intuition congruence.
  - specialize (B Hx Hy). simplify_eq. cbn. split_and!; intuition congruence.
Qed.

Lemma tally_ranges (eco ver : string) (rs : list Range) (t : tally) :
  Forall (clean_range eco ver) rs →
  let t' := foldl (tally_range eco ver) t rs in
  ta_uncertain t' = ta_uncertain t ∧ (ta_affected t' = true ↔ ta_affected t = true ∨ Exists (exposed_range eco ver) rs) ∧
  (ta_fixed t' ≠ "" ↔ ta_fixed t ≠ "" ∨ Exists (past_range eco ver) rs).
Proof.
  intros Hc. revert t. induction Hc as [|r rs Hr _ IH]; intros t; cbn; [rewrite !Exists_nil; tauto|].
  destruct (tally_step eco ver t r Hr) as (U & A & F), (IH (tally_range eco ver t r)) as (U' & A' & F').
  rewrite U', A', F', U, A, F, !Exists_cons. split_and!; [done|clear; tauto..].
Qed.

Definition entry_eco (c : Target) (a : Affected) : string := first_of (pk_Ecosystem (a_Package a)) (t_Ecosystem c).
Definition entry_ver (c : Target) (a : Affected) : string := compareVersion (pk_Name (a_Package a)) c.

(** The entry says the version of the component is affected, and that it is repaired. *)
Definition exposed (c : Target) (a : Affected) : Prop :=
  (Ranges a = [] ∧ Exists (λ v, cmp (entry_eco c a) (entry_ver c a) v = 0) (Versions a)) ∨
  Exists (exposed_range (entry_eco c a) (entry_ver c a)) (Ranges a).

Definition repaired (c : Target) (a : Affected) : Prop :=
  ¬ exposed c a ∧ Exists (past_range (entry_eco c a) (entry_ver c a)) (Ranges a).

Definition clean (c : Target) (a : Affected) : Prop := Forall (clean_range (entry_eco c a) (entry_ver c a)) (Ranges a).

Lemma evalAffected_spec (c : Target) (a : Affected) :
  clean c a →
  let st := (evalAffected c a).1 in
  (st = StatusAffected ↔ exposed c a) ∧ (st = StatusFixed ↔ repaired c a) ∧ st ≠ StatusUnderInvestigation.
Proof.
  intros Hc. unfold evalAffected, exposed, repaired, exposed. fold (entry_eco c a) (entry_ver c a).
  destruct (tally_ranges _ _ (Ranges a) (mkTally false "" "" false) Hc) as (U & A & F). cbn in U, A, F.
  destruct (Ranges a) as [|r rs] eqn:Er.
  - cbn [length Nat.eqb andb]. destruct (Versions a) as [|v vs] eqn:Ev; cbn [length Nat.ltb Nat.leb].
    + cbn. rewrite !Exists_nil. split_and!; [split; [done|tauto]|split; [done|tauto]|done].
    + rewrite !Exists_nil. destruct (existsb _ _) eqn:Ex; cbn; (split_and!; [|split; [done|tauto]|done]).
      * apply existsb_exists in Ex as (x & Hx & E). apply list_elem_of_In in Hx. apply Z.eqb_eq in E.
        split; [|done]. intros _. left. split; [done|]. apply Exists_exists. eauto.
      * split; [done|]. intros [[_ Hx]|?]; [|done]. apply Exists_exists in Hx as (x & Hx & E). exfalso.
        apply not_true_iff_false in Ex. apply Ex, existsb_exists. exists x. split; [by apply list_elem_of_In|by apply Z.eqb_eq].
  - cbn [length Nat.eqb andb]. destruct (foldl _ _ _) as [aff op fx un] eqn:Et. cbn in *. subst un.
    destruct aff; cbn; [split_and!; intuition congruence|]. case_bool_decide; cbn; split_and!; intuition congruence.
Qed.

(** ** Advisories *)

Lemma fold_entries (c : Target) (es : list Affected) (v : verdict) :
  Forall (clean c) es → ve_status v ≠ StatusUnderInvestigation →
  let v' := foldl (fold_entry c) v es in
  ve_uncertain v' = ve_uncertain v ∧ ve_status v' ≠ StatusUnderInvestigation ∧
  (ve_status v' = StatusAffected ↔ ve_status v = StatusAffected ∨ Exists (exposed c) es) ∧
  (ve_status v' = StatusFixed ↔ ¬ Exists (exposed c) es ∧ (ve_status v = StatusFixed ∨ ve_status v ≠ StatusAffected ∧ Exists (repaired c) es)).
Proof.
  intros Hc. revert v. induction Hc as [|a es Ha _ IH]; intros v Hv; cbn [foldl].
  { rewrite !Exists_nil. split_and!; [done|done|clear; tauto|clear; tauto]. }
  destruct (evalAffected_spec c a Ha) as (A & F & U). specialize (IH (fold_entry c v a)). rewrite !Exists_cons.
  unfold fold_entry in *. destruct (evalAffected c a) as [st fx]. cbn in A, F, U.
  destruct st; [..|done]; cbn in IH.
  - destruct IH as (U' & N' & A' & F'); [done|]. split_and!; [done|done|rewrite A'; clear -A; tauto|].
    rewrite F'. clear -A. assert (exposed c a) by by apply A. intuition congruence.
  - destruct IH as (U' & N' & A' & F'); [done|].
    assert (¬ exposed c a ∧ ¬ repaired c a) as [Na Nr] by (rewrite <- A, <- F; done). rewrite A', F'.
    split_and!; [done|done|clear -Na; tauto|clear -Na Nr; tauto].
  - assert (repaired c a) as Hr by by apply F. assert (¬ exposed c a) as Na by by destruct Hr.
    case_decide as Ev; (destruct IH as (U' & N' & A' & F'); [done|]); rewrite A', F'; cbn.
    + split_and!; [done|done|clear -Na; tauto|]. rewrite Ev. clear. intuition congruence.
    + split_and!; [done|done|clear -Na Ev; intuition congruence|]. clear -Na Ev Hr. intuition congruence.
Qed.

Definition suppressed (e : Engine) (c : Target) (adv : Vulnerability) : option string :=
  match VEX e with Some vex => vex (WS e) (primaryID adv) (t_Purl c) | None => None end.

(** [equivalence] The verdict of a component is the verdict of the windows.  Of an
    advisory whose ranges open and close in turn and whose versions compare, the engine
    says something exactly when an entry applies; it says affected exactly when the
    version lies in a window of such an entry, or is one of the versions it lists, and no
    statement suppresses it; it says fixed exactly when the version lies in no window and
    is past the end of one; and it is never undecided. *)
Theorem verdict_exact (e : Engine) (c : Target) (adv : Vulnerability) :
  Forall (clean c) (selectAffected c adv) →
  match matchOne e c adv with
  | None => selectAffected c adv = []
  | Some m =>
      selectAffected c adv ≠ [] ∧ m_Component m = c ∧ m_CVE m = primaryID adv ∧
      (m_Status m = StatusAffected ↔ Exists (exposed c) (selectAffected c adv) ∧ suppressed e c adv = None) ∧
      (m_Status m = StatusFixed ↔ ¬ Exists (exposed c) (selectAffected c adv) ∧ Exists (repaired c) (selectAffected c adv)) ∧
      m_Status m ≠ StatusUnderInvestigation
  end.
Proof.
  intros Hc. unfold matchOne, suppressed.
  destruct (fold_entries c (selectAffected c adv) (mkVerdict StatusNotAffected "" "" false) Hc) as (U & N & A & F); [done|].
  cbn in U, A, F. destruct (selectAffected c adv) as [|a es]; [done|].
  destruct (foldl (fold_entry c) _ _) as [st past win un]. cbn in U, N, A, F. subst un. cbn [ve_status ve_uncertain ve_atOrPast ve_window].
  assert (st = StatusAffected ↔ Exists (exposed c) (a :: es)) as A' by (rewrite A; clear; intuition congruence).
  assert (st = StatusFixed ↔ ¬ Exists (exposed c) (a :: es) ∧ Exists (repaired c) (a :: es)) as F' by (rewrite F; clear; intuition congruence).
  clear A F.
  destruct st; [..|done]; cbn.
  - destruct (VEX e) as [vex|]; [destruct (vex (WS e) (primaryID adv) (t_Purl c))|]; cbn;
      (split_and!; [done|done|done|rewrite <- A'|rewrite <- F'|done]); try done; split; first [discriminate | by intros [_ ?] | done].
  - split_and!; [done|done|done|rewrite <- A'; split; [discriminate|by intros [? _]]|by rewrite <- F'|done].
  - split_and!; [done|done|done|rewrite <- A'; split; [discriminate|by intros [? _]]|by rewrite <- F'|done].
Qed.
End Verdicts.

(** ** Advisories at work *)

Module Sample.

(** Versions in the order of their characters; a question mark is none. *)
#[export] Instance by_character : Semantic :=
  λ _ a b, if bool_decide (a = "?") || bool_decide (b = "?") then None
           else Some (match String.compare a b with Lt => -1 | Eq => 0 | Gt => 1 end).

Definition openssl (version : string) : Target := mkTarget "n1" "pkg:deb/debian/libssl3" "os" "Debian:12" "libssl3" version "openssl" "" "debian:12".

Definition event_in (v : string) : Event := mkEvent v "".
Definition event_fix (v : string) : Event := mkEvent "" v.

Definition entry (evs : list Event) : Affected :=
  mkAffected (mkPackage "Debian:12" "openssl" "") [mkRange "ECOSYSTEM" evs] [].

Definition advisory (es : list Affected) : Vulnerability := mkVulnerability "DSA-1" ["CVE-2024-1"] 0 es "HIGH" [].

Definition plain : Engine := mkEngine "ws" None.

Definition closed_twice : Vulnerability :=
  advisory [entry [event_in "0"; event_fix "2"; event_in "4"; event_fix "6"]].

Lemma verdict_exact_witness :
  (m_Status <$> matchOne plain (openssl "5") closed_twice = Some StatusAffected) ∧
  match matchOne plain (openssl "5") closed_twice with
  | None => selectAffected (openssl "5") closed_twice = []
  | Some m =>
      selectAffected (openssl "5") closed_twice ≠ [] ∧ m_Component m = openssl "5" ∧ m_CVE m = primaryID closed_twice ∧
      (m_Status m = StatusAffected ↔ Exists (exposed (openssl "5")) (selectAffected (openssl "5") closed_twice) ∧ suppressed plain (openssl "5") closed_twice = None) ∧
      (m_Status m = StatusFixed ↔ ¬ Exists (exposed (openssl "5")) (selectAffected (openssl "5") closed_twice) ∧ Exists (repaired (openssl "5")) (selectAffected (openssl "5") closed_twice)) ∧
      m_Status m ≠ StatusUnderInvestigation
  end.
Proof.
  split; [vm_compute; reflexivity|]. apply (verdict_exact plain (openssl "5") closed_twice).
  assert (selectAffected (openssl "5") closed_twice = v_Affected closed_twice) as -> by (vm_compute; reflexivity).
  apply Forall_singleton, Forall_singleton. right. split; [vm_compute; eauto|].
  change (range_windows _) with [mkWindow "0" (Some "2"); mkWindow "4" (Some "6")].
  apply Forall_cons; split; [|apply Forall_singleton]; (split; [first [by left|right; eexists; split; [vm_compute; reflexivity|lia]]|]);
    intros f [= <-]; eexists; (split; [vm_compute; reflexivity|lia]).
Defined.

(** A version in a window without an end is told to move to the end of an earlier one. *)
Lemma earlier_fix_named :
  matchOne plain (openssl "5") (advisory [entry [event_in "0"; event_fix "2"; event_in "4"]]) =
  Some (mkMatch (openssl "5") "CVE-2024-1" StatusAffected "DSA-1" "2" "HIGH" "").
Proof. vm_compute. reflexivity. Qed.

(** An end that cannot be read leaves the window open: affected, not undecided. *)
Lemma unreadable_fix_affects :
  m_Status <$> matchOne plain (openssl "5") (advisory [entry [event_in "0"; event_fix "?"]]) = Some StatusAffected.
Proof. vm_compute. reflexivity. Qed.

(** A listed version does not count beside a range, even one of commits. *)
Lemma listed_version_ignored :
  m_Status <$> matchOne plain (openssl "5")
    (advisory [mkAffected (mkPackage "Debian:12" "openssl" "") [mkRange "GIT" [event_in "abc"]] ["5"]]) = Some StatusNotAffected.
Proof. vm_compute. reflexivity. Qed.
End Sample.
