(* ===== verification/Inventory.v ===== *)
(** * The software inventory of the fleet (controller/inventory.go, affected_match.go, store.go)

    What the controller keeps of a node's packages and the verdicts it computes: the
    tables of the store and its operations, the ingestion of a report (a whole document
    or the difference to the last one), the upload of an outside scanner, and the
    matching of a node, of an image and of an advisory against the feed.

    Each call of the store is one transaction, and fails while the disk does.  A key
    made of parts joined by NUL is the triple of its parts.  Hashing, compression, the
    feed's lookups and the registry's scans are parameters. *)
From Stdlib Require Import ZArith Lia Strings.Byte Strings.Ascii.
From stdpp Require Import base gmap sets list sorting strings.
From S2P Require Import Prelude Trust Proc Packages Affected.
Local Open Scope Z_scope.

(** ** Tables *)

Record NodeSBOMRecord := mkSBOM {
  sb_WorkspaceID : string; sb_NodeID : string; sb_Format : string; sb_ContentHash : string; sb_CollectedUnix : Z; sb_SBOM : bytes }.

Record ComponentRecord := mkCR {
  cr_WorkspaceID : string; cr_NodeID : string; cr_Purl : string; cr_Source : string; cr_Ecosystem : string; cr_Name : string;
  cr_Version : string; cr_SourceName : string; cr_Distro : string }.

Record AdvisoryRecord := mkAdvisory {
  ad_ID : string; ad_Source : string; ad_Ecosystem : string; ad_PackageName : string; ad_Doc : bytes; ad_ModifiedUnix : Z }.

(** The score of a vulnerability is kept as the bits of its [float64]. *)
Record NodeCVERecord := mkNC {
  nc_WorkspaceID : string; nc_NodeID : string; nc_CVE : string; nc_Purl : string; nc_Status : Status; nc_Severity : string;
  nc_KEV : bool; nc_EPSS : Z; nc_VEXJustification : string; nc_FixedVersion : string; nc_MatchedUnix : Z }.

Record ImageComponentRecord := mkIC {
  ic_Digest : string; ic_Purl : string; ic_Source : string; ic_Ecosystem : string; ic_Name : string; ic_Version : string;
  ic_SourceName : string; ic_Distro : string }.

Record ImageCVERecord := mkIV {
  iv_Digest : string; iv_CVE : string; iv_Purl : string; iv_Status : Status; iv_Severity : string; iv_KEV : bool; iv_EPSS : Z;
  iv_VEXJustification : string; iv_FixedVersion : string; iv_MatchedUnix : Z }.

Record rematchQueue := mkQueue { Watermark : Z; Pending : list (string * string) }.

(** What happened to a package: an advisory of it was stored, or all of them were matched. *)
Inductive event : Type :=
| Stored (pkg : string * string) (modified : Z)
| Rematched (pkg : string * string).

(** An entry of the directory of advisories. *)
Inductive dirent : Type := Directory | Unreadable | File (doc : bytes).

Abbreviation bucket V := (gmap (string * string * string) V).

(** The database and the directory of a feed; the settings are kept as the values their
    text encodes.  [failing_reads], [failing_writes]: transactions return an error.  [elog] is a record of the past and not part of
    the program's state. *)
Record Inv := mkInv {
  sboms : gmap (string * string) NodeSBOMRecord;
  components : gmap string (bucket ComponentRecord);
  node_cve : gmap string (bucket NodeCVERecord);
  node_images : gmap string (gset (string * string));
  image_components : bucket ImageComponentRecord;
  image_cve : bucket ImageCVERecord;
  advisories : gmap string AdvisoryRecord;
  advisory_idx : gset (string * string * string);
  workspaces : list string;
  queue : rematchQueue;
  sync_watermark : option Z;
  sync_error : string;
  bundle_version : Z;
  feed_dir : option (gmap string dirent);
  clock : Z;
  cancelled : bool;
  failing_reads : bool;
  failing_writes : bool;
  elog : list event }.
#[export] Instance eta_inv : Eta Inv := λ i,
  mkInv (sboms i) (components i) (node_cve i) (node_images i) (image_components i) (image_cve i) (advisories i) (advisory_idx i)
    (workspaces i) (queue i) (sync_watermark i) (sync_error i) (bundle_version i) (feed_dir i) (clock i) (cancelled i)
    (failing_reads i) (failing_writes i) (elog i).

Inductive inv_err : Type :=
| ErrStore | ErrNotFound | ErrNoSBOM | ErrTooLarge | ErrDecompress | ErrHashMismatch | ErrParse | ErrNoBase | ErrNeedFull
| ErrEncode | ErrCompress | ErrFeed.

(** A transaction that reads, one that writes. *)
Definition view {A : Type} (f : Inv → A) : prog Inv (result inv_err A) :=
  read (λ s, if failing_reads s then Err ErrStore else Ok (f s)).
Definition update (f : Inv → Inv) : prog Inv (result inv_err unit) :=
  atomic (λ s, if failing_writes s then (Err ErrStore, s) else (Ok tt, f s)).

(** ** Buckets *)

Definition key3_le (a b : string * string * string) : Prop :=
  (a.1.1 ≠ b.1.1 ∧ String.le a.1.1 b.1.1) ∨ (a.1.1 = b.1.1 ∧ key_le (a.1.2, a.2) (b.1.2, b.2)).
#[export] Instance key3_le_dec : RelDecision key3_le.
Proof. intros a b. unfold key3_le. apply _. Defined.

Definition entry_le {V : Type} (a b : string * string * string * V) : Prop := key3_le a.1 b.1.
#[export] Instance entry_le_dec {V : Type} : RelDecision (@entry_le V) := λ a b, decide (key3_le a.1 b.1).

(** The rows in the order of their keys, those of a prefix, and the rest. *)
Definition entries {V : Type} (b : bucket V) : list (string * string * string * V) := merge_sort entry_le (map_to_list b).
Definition rows {V : Type} (b : bucket V) : list V := (entries b).*2.
Definition scan {V : Type} (p : string) (b : bucket V) : list V := (filter (λ e, e.1.1.1 = p) (entries b)).*2.
Definition deletePrefix {V : Type} (p : string) (b : bucket V) : bucket V := filter (λ e, e.1.1.1 ≠ p) b.

Definition wsChild {V : Type} `{Empty V} (ws : string) (m : gmap string V) : V := default ∅ (m !! ws).

(** ** The store *)

Definition PutNodeSBOM (ws nodeID : string) (r : NodeSBOMRecord) : prog Inv (result inv_err unit) :=
  update (λ s, s <| sboms ::= <[(ws, nodeID) := mkSBOM ws nodeID (sb_Format r) (sb_ContentHash r) (sb_CollectedUnix r) (sb_SBOM r)]> |>).

Definition GetNodeSBOM (ws nodeID : string) : prog Inv (result inv_err NodeSBOMRecord) :=
  read (λ s, if failing_reads s then Err ErrStore
             else match sboms s !! (ws, nodeID) with Some r => Ok r | None => Err ErrNotFound end).

(** The row as the store stamps it. *)
Definition own (ws nodeID : string) (c : ComponentRecord) : ComponentRecord :=
  mkCR ws nodeID (cr_Purl c) (cr_Source c) (cr_Ecosystem c) (cr_Name c) (cr_Version c) (cr_SourceName c) (cr_Distro c).

Definition put_components (ws nodeID : string) (comps : list ComponentRecord) (b : bucket ComponentRecord) : bucket ComponentRecord :=
  foldl (λ b c, <[(nodeID, cr_Purl c, cr_Source c) := own ws nodeID c]> b) (deletePrefix nodeID b) comps.

Definition UpsertNodeComponents (ws nodeID : string) (comps : list ComponentRecord) : prog Inv (result inv_err unit) :=
  update (λ s, s <| components ::= λ m, <[ws := put_components ws nodeID comps (wsChild ws m)]> m |>).

Definition ListNodeComponents (ws nodeID : string) : prog Inv (result inv_err (list ComponentRecord)) :=
  view (λ s, scan nodeID (wsChild ws (components s))).

Definition componentNamed (name sourceName want : string) : bool :=
  bool_decide (name = want) || bool_decide (sourceName ≠ "") && bool_decide (sourceName = want).

Definition ListComponentsByPackage (ws ecosystem name : string) : prog Inv (result inv_err (list ComponentRecord)) :=
  view (λ s, filter (λ r, EcosystemKey (cr_Ecosystem r) = EcosystemKey ecosystem ∧ componentNamed (cr_Name r) (cr_SourceName r) name = true)
               (rows (wsChild ws (components s)))).

Definition UpsertNodeCVE (r : NodeCVERecord) : prog Inv (result inv_err unit) :=
  update (λ s, s <| node_cve ::= λ m,
    <[nc_WorkspaceID r := <[(nc_NodeID r, nc_CVE r, nc_Purl r) := r]> (wsChild (nc_WorkspaceID r) m)]> m |>).

Definition ClearNodeCVEs (ws nodeID : string) : prog Inv (result inv_err unit) :=
  update (λ s, s <| node_cve ::= λ m, match m !! ws with Some b => <[ws := deletePrefix nodeID b]> m | None => m end |>).

Definition CVEsForNode (ws nodeID : string) : prog Inv (result inv_err (list NodeCVERecord)) :=
  view (λ s, scan nodeID (wsChild ws (node_cve s))).

Definition NodesAffectedByCVE (ws cve : string) : prog Inv (result inv_err (list NodeCVERecord)) :=
  view (λ s, filter (λ r, nc_CVE r = cve) (rows (wsChild ws (node_cve s)))).

Definition HasImageComponents (digest : string) : prog Inv (result inv_err bool) :=
  view (λ s, match scan digest (image_components s) with [] => false | _ => true end).

Definition put_image (digest : string) (comps : list ImageComponentRecord) (b : bucket ImageComponentRecord) : bucket ImageComponentRecord :=
  foldl (λ b c, <[(digest, ic_Purl c, ic_Source c) :=
                    mkIC digest (ic_Purl c) (ic_Source c) (ic_Ecosystem c) (ic_Name c) (ic_Version c) (ic_SourceName c) (ic_Distro c)]> b)
    (deletePrefix digest b) comps.

Definition PutImageComponents (digest : string) (comps : list ImageComponentRecord) : prog Inv (result inv_err unit) :=
  update (λ s, s <| image_components ::= put_image digest comps |>).

Definition ListImageComponents (digest : string) : prog Inv (result inv_err (list ImageComponentRecord)) :=
  view (λ s, scan digest (image_components s)).

(** Each digest once, where it comes first. *)
Fixpoint distinct (l seen : list string) : list string :=
  match l with [] => [] | x :: l => if bool_decide (x ∈ seen) then distinct l seen else x :: distinct l (x :: seen) end.

Definition ImageDigestsForPackage (ecosystem name : string) : prog Inv (result inv_err (list string)) :=
  view (λ s, distinct (ic_Digest <$> filter (λ r, EcosystemKey (ic_Ecosystem r) = EcosystemKey ecosystem ∧
                                                  componentNamed (ic_Name r) (ic_SourceName r) name = true)
                         (rows (image_components s))) []).

Definition SetNodeImages (ws nodeID : string) (digests : list string) : prog Inv (result inv_err unit) :=
  update (λ s, s <| node_images ::= λ m,
    <[ws := list_to_set (pair nodeID <$> digests) ∪ filter (λ e, e.1 ≠ nodeID) (wsChild ws m)]> m |>).

(** The associations in the order of their keys. *)
Definition assocs (b : gset (string * string)) : list (string * string) := merge_sort key_le (elements b).

Definition NodeImageDigests (ws nodeID : string) : prog Inv (result inv_err (list string)) :=
  view (λ s, (filter (λ e, e.1 = nodeID) (assocs (wsChild ws (node_images s)))).*2).

Definition WorkspaceNodeImages (ws : string) : prog Inv (result inv_err (list (string * string))) :=
  view (λ s, assocs (wsChild ws (node_images s))).

Definition PutImageCVE (r : ImageCVERecord) : prog Inv (result inv_err unit) :=
  update (λ s, s <| image_cve ::= <[(iv_Digest r, iv_CVE r, iv_Purl r) := r]> |>).

Definition ClearImageCVEs (digest : string) : prog Inv (result inv_err unit) :=
  update (λ s, s <| image_cve ::= deletePrefix digest |>).

Definition ImageCVEsForDigest (digest : string) : prog Inv (result inv_err (list ImageCVERecord)) :=
  view (λ s, scan digest (image_cve s)).

Definition ListWorkspaces : prog Inv (result inv_err (list string)) := view workspaces.

(** *** Advisories *)

Definition advisoryIdxKey (ecosystem name id : string) : option (string * string * string) :=
  if bool_decide (ecosystem = "") || bool_decide (name = "") then None else Some (EcosystemKey ecosystem, name, id).

Definition idx_of (r : AdvisoryRecord) : gset (string * string * string) :=
  match advisoryIdxKey (ad_Ecosystem r) (ad_PackageName r) (ad_ID r) with Some k => {[k]} | None => ∅ end.

Definition put_advisory (s : gmap string AdvisoryRecord * gset (string * string * string)) (r : AdvisoryRecord) :
    gmap string AdvisoryRecord * gset (string * string * string) :=
  let idx := match s.1 !! ad_ID r with Some old => s.2 ∖ idx_of old | None => s.2 end in
  (<[ad_ID r := r]> s.1, idx_of r ∪ idx).

(** The packages of the records, for the record of the past. *)
Definition stored_events (recs : list AdvisoryRecord) : list event :=
  (λ r, Stored (ad_Ecosystem r, ad_PackageName r) (ad_ModifiedUnix r)) <$> recs.

Definition PutAdvisories (recs : list AdvisoryRecord) : prog Inv (result inv_err unit) :=
  update (λ s, let '(a, idx) := foldl put_advisory (advisories s, advisory_idx s) recs in
               s <| advisories := a |> <| advisory_idx := idx |> <| elog ::= λ l, l ++ stored_events recs |>).

(** The ids under a key, in order, of records that exist. *)
Definition AdvisoriesForPackage (ecosystem name : string) : prog Inv (result inv_err (list AdvisoryRecord)) :=
  view (λ s, omap (M := list) (λ id, advisories s !! id)
               (merge_sort String.le ((filter (λ k, k.1 = (EcosystemKey ecosystem, name)) (elements (advisory_idx s))).*2))).

(** ** Components of an image *)

Definition imageSourcePrefix : string := "image:".
Definition digestSep : string := "@sha256:".
Definition externalSource : string := "external".

Definition isExternalSource (source : string) : bool :=
  bool_decide (source = externalSource) || has_prefix source (String.append externalSource ":").

(** [strings.Index], and what follows the position. *)
Fixpoint from_index (sep s : string) : option string :=
  if has_prefix s sep then Some s else match s with EmptyString => None | String _ s => from_index sep s end.

Definition imageDigestFromSource (source : string) : option string :=
  if negb (has_prefix source imageSourcePrefix) then None
  else match from_index digestSep source with
       | None => None
       | Some at_ =>
           let d := trim_prefix at_ "@" in
           if bool_decide (TrimSpace d = "sha256:") || bool_decide (TrimSpace d = "") then None else Some d
       end.

Definition splitInventory (comps : list ComponentRecord) : list ComponentRecord * list (string * list ComponentRecord) :=
  let digest c := imageDigestFromSource (cr_Source c) in
  let digests := distinct (omap digest comps) [] in
  (filter (λ c, digest c = None) comps, (λ d, (d, filter (λ c, digest c = Some d) comps)) <$> digests).

Definition partitionBySource (recs : list ComponentRecord) : list ComponentRecord * list ComponentRecord :=
  (filter (λ r, isExternalSource (cr_Source r) = false) recs, filter (λ r, isExternalSource (cr_Source r) = true) recs).

Definition componentsFromRecords (recs : list ComponentRecord) : list Component :=
  (λ r, mkComponent (cr_Purl r) (cr_Name r) (cr_Version r) (cr_Ecosystem r) (cr_Distro r) (cr_Source r) "" "") <$> recs.

(** ** The server *)

Class Zstd := { Compress : bytes → option bytes; Decompress : bytes → option bytes }.

(** [vulnfeed.Feed]: the lookups; [Sync] is in [Rematch]. *)
Record Server := mkServer {
  inventoryFeed : option (AdvisoryLookup Inv);
  inventoryVEX : option VEXSource;
  inventoryEnricher : option (string → bool * Z);
  imageAdvisor : string → option (list Vulnerability) }.

(** [InventoryReport]; the components on the wire have the fields of [Component]. *)
Record InventoryReport := mkReport {
  rp_Full : bool; rp_Sbom : bytes; rp_Format : string; rp_ContentHash : bytes; rp_CollectedUnix : Z; rp_BaseHash : bytes;
  rp_Added : list Component; rp_Removed : list Component }.

Section Controller.
Context `{Sha256, Zstd, CycloneDX, Semantic}.

(** *** Matching (affected_match.go) *)

Definition componentFromRecord (r : ComponentRecord) : Target :=
  mkTarget (cr_NodeID r) (cr_Purl r) (cr_Source r) (cr_Ecosystem r) (cr_Name r) (cr_Version r) (cr_SourceName r) "" (cr_Distro r).

Definition enrichment (srv : Server) (cve : string) : bool * Z :=
  match inventoryEnricher srv with Some lookup => lookup cve | None => (false, 0) end.

Definition persist (srv : Server) (ws : string) (mt : Match) : prog Inv (result inv_err unit) :=
  now ← read clock;
  UpsertNodeCVE (mkNC ws (t_NodeID (m_Component mt)) (m_CVE mt) (t_Purl (m_Component mt)) (m_Status mt) (m_Severity mt)
    (enrichment srv (m_CVE mt)).1 (enrichment srv (m_CVE mt)).2 (m_VEXJustification mt) (m_FixedVersion mt) (now / second)).

Definition imageComponentForMatch (r : ImageComponentRecord) : Target :=
  mkTarget "" (ic_Purl r) (ic_Source r) (ic_Ecosystem r) (ic_Name r) (ic_Version r) (ic_SourceName r) "" (ic_Distro r).

Definition persistImage (srv : Server) (digest : string) (mt : Match) : prog Inv (result inv_err unit) :=
  now ← read clock;
  PutImageCVE (mkIV digest (m_CVE mt) (t_Purl (m_Component mt)) (m_Status mt) (m_Severity mt)
    (enrichment srv (m_CVE mt)).1 (enrichment srv (m_CVE mt)).2 (m_VEXJustification mt) (m_FixedVersion mt) (now / second)).

(** The loop that stops at the first error; the rows written are counted. *)
Fixpoint persist_all {A : Type} (f : A → prog Inv (result inv_err unit)) (l : list A) (written : Z) : prog Inv (result inv_err Z) :=
  match l with
  | [] => mret (Ok written)
  | x :: l => bind_ok (f x) (λ _, persist_all f l (written + 1))
  end.

Definition of_feed {A : Type} (o : option A) : prog Inv (result inv_err A) :=
  mret (match o with Some a => Ok a | None => Err ErrFeed end).

(** The first match of a vulnerability and a package. *)
Fixpoint first_matches (l : list Match) (seen : list (string * string)) : list Match :=
  match l with
  | [] => []
  | mt :: l =>
      let k := (m_CVE mt, t_Purl (m_Component mt)) in
      if bool_decide (k ∈ seen) then first_matches l seen else mt :: first_matches l (k :: seen)
  end.

Definition MatchImageDigest (srv : Server) (feed : AdvisoryLookup Inv) (digest : string) : prog Inv (result inv_err Z) :=
  bind_ok (ListImageComponents digest) (λ comps,
  let cs := imageComponentForMatch <$> comps in
  let eng := mkEngine "" None in
  bind_ok (MatchNode eng feed cs ≫= of_feed) (λ matches,
  bind_ok (of_feed (imageAdvisor srv digest)) (λ imgAdvs,
  let matches := matches ++ (imgAdvs ≫= λ adv, MatchAdvisory eng adv cs) in
  bind_ok (ClearImageCVEs digest) (λ _,
  persist_all (persistImage srv digest) (first_matches matches []) 0)))).

(** *** One node *)

Definition MatchStoredNode (srv : Server) (feed : AdvisoryLookup Inv) (ws nodeID : string) : prog Inv (result inv_err Z) :=
  bind_ok (ListNodeComponents ws nodeID) (λ comps,
  bind_ok (MatchNode (mkEngine ws (inventoryVEX srv)) feed (componentFromRecord <$> comps) ≫= of_feed) (λ matches,
  bind_ok (ClearNodeCVEs ws nodeID) (λ _,
  persist_all (persist srv ws) matches 0))).

Definition RematchNode (srv : Server) (feed : AdvisoryLookup Inv) (ws nodeID : string) : prog Inv (result inv_err Z) :=
  MatchStoredNode srv feed ws nodeID.
Definition RematchImageDigest (srv : Server) (feed : AdvisoryLookup Inv) (digest : string) : prog Inv (result inv_err Z) :=
  MatchImageDigest srv feed digest.

(** *** One advisory *)

Definition MatchStoredAdvisory (srv : Server) (ws : string) (adv : Vulnerability) : prog Inv (result inv_err Z) :=
  let eng := mkEngine ws (inventoryVEX srv) in
  each_acc (v_Affected adv) (Ok 0) (λ acc a,
    match acc with
    | Err e => mret (Err e)
    | Ok written =>
        if bool_decide (pk_Name (a_Package a) = "") || bool_decide (pk_Ecosystem (a_Package a) = "") then mret (Ok written)
        else bind_ok (ListComponentsByPackage ws (pk_Ecosystem (a_Package a)) (pk_Name (a_Package a))) (λ comps,
             persist_all (persist srv ws) (MatchAdvisory eng adv (componentFromRecord <$> comps)) written)
    end).

(** ** Ingestion (inventory.go) *)

Definition maxInventoryBytes : Z := Z.shiftl 64 20.
Definition MediaType : string := "application/vnd.cyclonedx+json".

Definition record_of (ws nodeID : string) (c : Component) : ComponentRecord :=
  mkCR ws nodeID (Purl c) (Source c) (Ecosystem c) (Name c) (Version c) (SourceName c) (Distro c).

Definition image_record (digest : string) (c : ComponentRecord) : ImageComponentRecord :=
  mkIC digest (cr_Purl c) (cr_Source c) (cr_Ecosystem c) (cr_Name c) (cr_Version c) (cr_SourceName c) (cr_Distro c).

(** Go visits the digests of the map in any order; no two are the same. *)
Fixpoint storeImageDigests (byDigest : list (string * list ComponentRecord)) : prog Inv (result inv_err (list string)) :=
  match byDigest with
  | [] => mret (Ok [])
  | (digest, comps) :: byDigest =>
      bind_ok (HasImageComponents digest) (λ has,
      if has then storeImageDigests byDigest
      else bind_ok (PutImageComponents digest (image_record digest <$> comps)) (λ _,
           bind_ok (storeImageDigests byDigest) (λ l, mret (Ok (digest :: l)))))
  end.

Definition externalComponents (ws nodeID : string) : prog Inv (result inv_err (list ComponentRecord)) :=
  bind_ok (ListNodeComponents ws nodeID) (λ recs, mret (Ok (partitionBySource recs).2)).

Fixpoint rematch_digests (srv : Server) (feed : AdvisoryLookup Inv) (ds : list string) (written : Z) : prog Inv (result inv_err Z) :=
  match ds with
  | [] => mret (Ok written)
  | d :: ds => bind_ok (RematchImageDigest srv feed d) (λ w, rematch_digests srv feed ds (written + w))
  end.

Definition commitInventory (srv : Server) (ws nodeID : string) (rep : InventoryReport) (blob sum : bytes) (comps : list Component) :
    prog Inv (result inv_err Z) :=
  now ← read clock;
  let format := first_of (rp_Format rep) MediaType in
  let collected := if rp_CollectedUnix rep =? 0 then now / second else rp_CollectedUnix rep in
  bind_ok (PutNodeSBOM ws nodeID (mkSBOM ws nodeID format (hex_encode sum) collected blob)) (λ _,
  let '(host, byDigest) := splitInventory (record_of ws nodeID <$> comps) in
  bind_ok (externalComponents ws nodeID) (λ external,
  bind_ok (UpsertNodeComponents ws nodeID (host ++ external)) (λ _,
  bind_ok (storeImageDigests byDigest) (λ newDigests,
  bind_ok (SetNodeImages ws nodeID byDigest.*1) (λ _,
  match inventoryFeed srv with
  | None => mret (Ok 0)
  | Some feed =>
      bind_ok (RematchNode srv feed ws nodeID) (λ written,
      bind_ok (rematch_digests srv feed newDigests 0) (λ imageWritten, mret (Ok (written + imageWritten))))
  end))))).

Definition hash_matches (rep : InventoryReport) (sum : bytes) : bool :=
  (length (rp_ContentHash rep) =? 0)%nat || bool_decide (hex_encode sum = hex_encode (rp_ContentHash rep)).

Definition ingestFullInventory (srv : Server) (ws nodeID : string) (rep : InventoryReport) : prog Inv (result inv_err Z) :=
  let blob := rp_Sbom rep in
  if (length blob =? 0)%nat then mret (Err ErrNoSBOM)
  else if maxInventoryBytes <? Z.of_nat (length blob) then mret (Err ErrTooLarge)
  else match Decompress blob with
       | None => mret (Err ErrDecompress)
       | Some doc =>
           let sum := sha256 doc in
           if negb (hash_matches rep sum) then mret (Err ErrHashMismatch)
           else match Extract doc with
                | None => mret (Err ErrParse)
                | Some comps => commitInventory srv ws nodeID rep blob sum comps
                end
       end.

Definition ingestInventoryDelta (srv : Server) (ws nodeID : string) (rep : InventoryReport) : prog Inv (result inv_err Z) :=
  if (length (rp_BaseHash rep) =? 0)%nat then mret (Err ErrNoBase)
  else
    bind_ok (GetNodeSBOM ws nodeID) (λ prior,
    if bool_decide (sb_ContentHash prior = "") || negb (bool_decide (sb_ContentHash prior = hex_encode (rp_BaseHash rep)))
    then mret (Err ErrNeedFull)
    else
      bind_ok (ListNodeComponents ws nodeID) (λ priorComps,
      let agentBase := (partitionBySource priorComps).1 in
      let next := Apply (componentsFromRecords agentBase) (rp_Added rep) (rp_Removed rep) in
      match Encode nodeID next with
      | None => mret (Err ErrEncode)
      | Some doc =>
          let sum := sha256 doc in
          if negb (hash_matches rep sum) then mret (Err ErrHashMismatch)
          else match Compress doc with
               | None => mret (Err ErrCompress)
               | Some blob => commitInventory srv ws nodeID rep blob sum next
               end
      end)).

Definition ingestInventoryReport (srv : Server) (ws nodeID : string) (rep : InventoryReport) : prog Inv (result inv_err Z) :=
  if rp_Full rep || (0 <? length (rp_Sbom rep))%nat then ingestFullInventory srv ws nodeID rep
  else ingestInventoryDelta srv ws nodeID rep.

(** ** Uploads (console_sbom.go) *)

(** [strings.ReplaceAll] of a character by nothing. *)
Fixpoint remove_char (a : ascii) (s : string) : string :=
  match s with EmptyString => "" | String b s => if Ascii.eqb a b then remove_char a s else String b (remove_char a s) end.

Definition externalSourceTag (q : string) : string :=
  let q := remove_char "@" (remove_char "/" (TrimSpace q)) in
  if bool_decide (q = "") then externalSource else String.append externalSource (String ":" q).

(** The first component of a package URL, under the tag. *)
Fixpoint stamped (ws nodeID source : string) (comps : list Component) (seen : list string) : list ComponentRecord :=
  match comps with
  | [] => []
  | c :: comps =>
      if bool_decide (Purl c = "") || bool_decide (Purl c ∈ seen) then stamped ws nodeID source comps seen
      else mkCR ws nodeID (Purl c) source (Ecosystem c) (Name c) (Version c) "" (Distro c) :: stamped ws nodeID source comps (Purl c :: seen)
  end.

Definition ingestExternalSBOM (srv : Server) (ws nodeID source : string) (comps : list Component) : prog Inv (result inv_err Z) :=
  bind_ok (ListNodeComponents ws nodeID) (λ prior,
  let agent := (partitionBySource prior).1 in
  bind_ok (UpsertNodeComponents ws nodeID (agent ++ stamped ws nodeID source comps [])) (λ _,
  match inventoryFeed srv with
  | None => mret (Ok 0)
  | Some feed => RematchNode srv feed ws nodeID
  end)).

(** ** The agent's module (agentd/module_inventory.go) *)

Record inventoryModule := mkModule {
  lastHash : bytes; haveHash : bool; lastSet : list Component; forceFull : bool; wired : bool }.

Definition newInventoryModule : inventoryModule := mkModule (replicate 32 x00) false [] true false.

Definition RequestFull (m : inventoryModule) : inventoryModule := mkModule (lastHash m) (haveHash m) (lastSet m) true (wired m).

Definition nodeRef : string := "node".

(** One cycle, of what was collected at a time; the report it sends, if any. *)
Definition reportOnce (now : Z) (collected : option (list Component)) (m : inventoryModule) : option InventoryReport * inventoryModule :=
  match collected with
  | None => (None, m)
  | Some comps =>
      match Encode nodeRef comps with
      | None => (None, m)
      | Some doc =>
          let hash := sha256 doc in
          let full := forceFull m || negb (haveHash m) in
          if haveHash m && bool_decide (hash = lastHash m) && negb (forceFull m) then (None, m)
          else if negb (wired m) then (None, m)
          else
            let '(added, removed) := Diff (lastSet m) comps in
            let m' := mkModule hash true comps false (wired m) in
            if full || (length comps <=? length added + length removed)%nat then
              match Compress doc with
              | None => (None, m)
              | Some blob => (Some (mkReport true blob MediaType hash (now / second) [] [] []), m')
              end
            else (Some (mkReport false [] MediaType hash (now / second) (lastHash m) added removed), m')
      end
  end.

End Controller.
