(* ===== verification/Stock.v ===== *)
(** * What the inventory holds (Inventory.v)

    A whole report of an agent leaves in the index exactly the components the agent
    collected and the controller can use, beside those of an outside scanner; a
    difference is never accepted; and the verdicts of a node are those of its matches. *)
From Stdlib Require Import ZArith Lia Strings.Byte Strings.Ascii.
From stdpp Require Import base gmap sets list sorting strings relations.
From S2P Require Import Prelude Trust Codec Proc Packages Affected Verdicts Inventory.
Local Open Scope Z_scope.

(** ** Buckets *)

Lemma elem_of_entries {V : Type} (b : bucket V) (k : string * string * string) (v : V) : (k, v) ∈ entries b ↔ b !! k = Some v.
Proof. unfold entries. by rewrite merge_sort_Permutation, elem_of_map_to_list. Qed.

Lemma elem_of_scan {V : Type} (p : string) (b : bucket V) (v : V) : v ∈ scan p b ↔ ∃ k, b !! k = Some v ∧ k.1.1 = p.
Proof.
  unfold scan. rewrite list_elem_of_fmap. split.
  - intros ([k w] & -> & Hw). apply list_elem_of_filter in Hw as [Hp Hw]. apply elem_of_entries in Hw. eauto.
  - intros (k & Hk & Hp). exists (k, v). split; [done|]. apply list_elem_of_filter. split; [done|]. by apply elem_of_entries.
Qed.

Lemma elem_of_rows {V : Type} (b : bucket V) (v : V) : v ∈ rows b ↔ ∃ k, b !! k = Some v.
Proof.
  unfold rows. rewrite list_elem_of_fmap. split.
  - intros ([k w] & -> & Hw). apply elem_of_entries in Hw. eauto.
  - intros (k & Hk). exists (k, v). split; [done|]. by apply elem_of_entries.
Qed.

Lemma deletePrefix_lookup {V : Type} (p : string) (b : bucket V) (k : string * string * string) :
  deletePrefix p b !! k = if decide (k.1.1 = p) then None else b !! k.
Proof.
  unfold deletePrefix. case_decide as E.
  - apply map_lookup_filter_None. right. intros v _. cbn. tauto.
  - destruct (b !! k) as [v|] eqn:Ev.
    + apply map_lookup_filter_Some. done.
    + apply map_lookup_filter_None. by left.
Qed.

(** The rows of the table are under their own keys. *)
Definition indexed (ws : string) (b : bucket ComponentRecord) : Prop :=
  map_Forall (λ k r, k = (cr_NodeID r, cr_Purl r, cr_Source r) ∧ cr_WorkspaceID r = ws) b.

Definition tables_indexed (s : Inv) : Prop := ∀ ws, indexed ws (wsChild ws (components s)).

Lemma own_id (ws nodeID : string) (c : ComponentRecord) : cr_WorkspaceID c = ws → cr_NodeID c = nodeID → own ws nodeID c = c.
Proof. destruct c. cbn. by intros -> ->. Qed.

Definition slot (c : ComponentRecord) : string * string := (cr_Purl c, cr_Source c).

(** What is written, when no two rows are for one key. *)
Lemma put_components_lookup (ws nodeID : string) (l : list ComponentRecord) (b : bucket ComponentRecord) (k : string * string * string)
    (r : ComponentRecord) :
  NoDup (slot <$> l) →
  put_components ws nodeID l b !! k = Some r ↔
    (∃ c, c ∈ l ∧ r = own ws nodeID c ∧ k = (nodeID, cr_Purl c, cr_Source c)) ∨ (k.1.1 ≠ nodeID ∧ b !! k = Some r).
Proof.
  intros Hl. unfold put_components.
  assert (∀ b' : bucket ComponentRecord, (foldl (λ b c, <[(nodeID, cr_Purl c, cr_Source c) := own ws nodeID c]> b) b' l !! k = Some r ↔
    (∃ c, c ∈ l ∧ r = own ws nodeID c ∧ k = (nodeID, cr_Purl c, cr_Source c)) ∨
    ((∀ c, c ∈ l → k ≠ (nodeID, cr_Purl c, cr_Source c)) ∧ b' !! k = Some r))) as Hf.
  { induction l as [|x l IH]; intros b'; cbn.
    { split; [intros; right; split; [by intros c Hc%elem_of_nil|done]|]. intros [(c & Hc & _)|[_ ?]]; [by apply elem_of_nil in Hc|done]. }
    apply NoDup_cons in Hl as [Hx Hl]. rewrite (IH Hl). setoid_rewrite elem_of_cons. rewrite lookup_insert_Some. split.
    - intros [(c & Hc & ? & ?)|[Hn [[<- <-]|[Hk Hb]]]]; [left; eauto| |].
      + left. eauto.
      + right. split; [|done]. intros c [->|Hc]; [congruence|by apply Hn].
    - intros [(c & [->|Hc] & -> & ->)|[Hn Hb]].
      + right. split; [|by left]. intros c Hc [= E1 E2]. apply Hx. apply list_elem_of_fmap. exists c. unfold slot. split; [congruence|done].
      + left. eauto.
      + right. split; [by intros c Hc; apply Hn; right|]. right. split; [|done]. intros E. by apply (Hn x); [left|]. }
  rewrite Hf. rewrite deletePrefix_lookup. split.
  - intros [?|[Hn Hb]]; [by left|]. case_decide; [done|]. by right.
  - intros [?|[Hn Hb]]; [by left|]. right. rewrite decide_False by done. split; [|done]. intros c _ ->. by apply Hn.
Qed.

(** ** What the programs change *)

Definition working (s : Inv) : Prop := failing_reads s = false ∧ failing_writes s = false.

(** Only verdicts change. *)
Definition verdict_step (s s' : Inv) : Prop := ∃ a b, s' = s <| node_cve := a |> <| image_cve := b |>.

Lemma verdict_intro (s s' : Inv) : s' = s <| node_cve := node_cve s' |> <| image_cve := image_cve s' |> → verdict_step s s'.
Proof. intros E. by eexists _, _. Qed.

#[export] Instance verdict_step_refl : Reflexive verdict_step.
Proof. intros s. exists (node_cve s), (image_cve s). by destruct s. Qed.
#[export] Instance verdict_step_trans : Transitive verdict_step.
Proof. intros s s1 s2 (a & b & ->) (c & d & ->). exists c, d. by destruct s. Qed.

Lemma verdict_steps (s s' : Inv) : rtc verdict_step s s' → verdict_step s s'.
Proof. intros Hr. induction Hr; [done|]. by etrans. Qed.

(** The lookups of a feed only read. *)
Definition looks (feed : AdvisoryLookup Inv) : Prop := ∀ eco n, acts (λ s s', s' = s) (feed eco n).

Lemma acts_view {A : Type} (R : Inv → Inv → Prop) `{!Reflexive R} (f : Inv → A) : acts R (view f).
Proof. unfold view. by apply acts_read. Qed.

Lemma acts_update (R : Inv → Inv → Prop) `{!Reflexive R} (f : Inv → Inv) : (∀ s, R s (f s)) → acts R (update f).
Proof. intros Hf. apply acts_atomic. intros s. by destruct (failing_writes s). Qed.

Section Changes.
Context `{Semantic}.

Lemma acts_matches (R : Inv → Inv → Prop) `{!Reflexive R} (feed : AdvisoryLookup Inv) (e : Engine) (l : list Target) :
  looks feed → acts R (MatchNode e feed l).
Proof.
  intros Hf. assert (∀ eco ns, acts R (lookups feed eco ns)) as Hl.
  { intros eco ns. induction ns as [|n ns IH]; cbn [lookups]; [done|]. apply acts_bind.
    - apply (acts_mono (λ s s', s' = s)); [by intros ? ? ->|apply Hf].
    - intros [a|]; [|done]. by apply acts_bind. }
  induction l as [|c l IH]; cbn [MatchNode]; [done|]. apply acts_bind.
  - unfold found. by apply acts_bind.
  - intros [a|]; [|done]. by apply acts_bind.
Qed.

Lemma acts_persist_all {A : Type} (R : Inv → Inv → Prop) (f : A → prog Inv (result inv_err unit)) (l : list A) (n : Z) :
  (∀ x, acts R (f x)) → acts R (persist_all f l n).
Proof. intros Hf. revert n. induction l as [|x l IH]; intros n; cbn; [done|]. apply acts_bind_ok; [done|]. intros ?. apply IH. Qed.

Lemma persist_verdict (srv : Server) (ws : string) (mt : Match) : acts verdict_step (persist srv ws mt).
Proof.
  apply acts_bind; [apply acts_read, _|]. intros t. apply acts_update; [apply _|]. intros s. apply verdict_intro. by destruct s.
Qed.

Lemma persistImage_verdict (srv : Server) (d : string) (mt : Match) : acts verdict_step (persistImage srv d mt).
Proof.
  apply acts_bind; [apply acts_read, _|]. intros t. apply acts_update; [apply _|]. intros s. apply verdict_intro. by destruct s.
Qed.

Lemma MatchStoredNode_verdict (srv : Server) (feed : AdvisoryLookup Inv) (ws n : string) :
  looks feed → acts verdict_step (MatchStoredNode srv feed ws n).
Proof.
  intros Hf. apply acts_bind_ok; [apply acts_view, _|]. intros comps. apply acts_bind_ok.
  { apply acts_bind; [apply acts_matches; [apply _|done]|done]. }
  intros ms. apply acts_bind_ok; [apply acts_update; [apply _|]; intros s; apply verdict_intro; by destruct s|].
  intros ?. apply acts_persist_all, persist_verdict.
Qed.

Lemma MatchImageDigest_verdict (srv : Server) (feed : AdvisoryLookup Inv) (d : string) :
  looks feed → acts verdict_step (MatchImageDigest srv feed d).
Proof.
  intros Hf. apply acts_bind_ok; [apply acts_view, _|]. intros comps. apply acts_bind_ok.
  { apply acts_bind; [apply acts_matches; [apply _|done]|done]. }
  intros ms. apply acts_bind_ok; [done|]. intros advs.
  apply acts_bind_ok; [apply acts_update; [apply _|]; intros s; apply verdict_intro; by destruct s|].
  intros ?. apply acts_persist_all, persistImage_verdict.
Qed.

Lemma rematch_digests_verdict (srv : Server) (feed : AdvisoryLookup Inv) (ds : list string) (n : Z) :
  looks feed → acts verdict_step (rematch_digests srv feed ds n).
Proof.
  intros Hf. revert n. induction ds as [|d ds IH]; intros n; cbn [rematch_digests]; [done|].
  apply acts_bind_ok; [by apply MatchImageDigest_verdict|]. intros ?. apply IH.
Qed.
End Changes.

(** ** Runs on a working disk *)

Lemma inv_run_view {A : Type} (f : Inv → A) (s : Inv) : working s → run (view f) s = (Ok (f s), s).
Proof. intros [Hr _]. unfold view, read, atomic. cbn. by rewrite Hr. Qed.

Lemma inv_run_update (f : Inv → Inv) (s : Inv) : working s → run (update f) s = (Ok tt, f s).
Proof. intros [_ Hw]. unfold update, atomic. cbn. by rewrite Hw. Qed.

Lemma inv_view_ok {A B : Type} (f : Inv → A) (g : A → prog Inv (result inv_err B)) (s : Inv) :
  working s → run (bind_ok (view f) g) s = run (g (f s)) s.
Proof. intros Hw. rewrite run_bind_ok, inv_run_view by done. done. Qed.

Lemma inv_update_ok {B : Type} (f : Inv → Inv) (g : unit → prog Inv (result inv_err B)) (s : Inv) :
  working s → run (bind_ok (update f) g) s = run (g tt) (f s).
Proof. intros Hw. rewrite run_bind_ok, inv_run_update by done. done. Qed.

(** Images are stored once. *)
Lemma storeImageDigests_run (bd : list (string * list ComponentRecord)) (s : Inv) :
  working s →
  ∃ l b, run (storeImageDigests bd) s = (Ok l, s <| image_components := b |>) ∧
    (∀ d, scan d (image_components s) ≠ [] → ∀ k, k.1.1 = d → b !! k = image_components s !! k) ∧
    (∀ d cs, (d, cs) ∈ bd → cs ≠ [] → scan d b ≠ []).
Proof.
  revert s. induction bd as [|[d cs] bd IH]; intros s Hw.
  { exists [], (image_components s). split_and!; [by destruct s|done|]. intros d cs Hd. by apply elem_of_nil in Hd. }
  cbn [storeImageDigests]. unfold HasImageComponents. rewrite inv_view_ok by done.
  assert (∀ d (b b' : bucket ImageComponentRecord), scan d b ≠ [] → (∀ k, k.1.1 = d → b' !! k = b !! k) → scan d b' ≠ []) as Hsc.
  { intros d' b b' Hb Hbb. destruct (scan d' b) as [|r l] eqn:E; [done|]. assert (r ∈ scan d' b) as Hr by (rewrite E; left).
    apply elem_of_scan in Hr as (k & Hk & Hp). assert (r ∈ scan d' b') as Hr' by (apply elem_of_scan; exists k; by rewrite Hbb).
    intros E'. rewrite E' in Hr'. by apply elem_of_nil in Hr'. }
  destruct (scan d (image_components s)) as [|r0 l0] eqn:Es.
  - unfold PutImageComponents. rewrite inv_update_ok by done.
    set (s1 := s <| image_components ::= put_image d (image_record d <$> cs) |>).
    destruct (IH s1) as (l & b & Hr & Hk & Hn); [done|]. rewrite run_bind_ok, Hr. cbn [fst snd]. exists (d :: l), b.
    assert (∀ (k : string * string * string) (l : list ImageComponentRecord) (b0 : bucket ImageComponentRecord), k.1.1 ≠ d → put_image d l b0 !! k = b0 !! k) as Hput.
    { intros k l1 b0 Hkd. unfold put_image. assert (deletePrefix d b0 !! k = b0 !! k) as <- by (rewrite deletePrefix_lookup, decide_False by done; done).
      generalize (deletePrefix d b0). induction l1 as [|x l1 IHl]; intros b1; cbn; [done|]. rewrite IHl, lookup_insert_ne; [done|]. intros <-. by apply Hkd. }
    split_and!; [by destruct s| |].
    + intros d' Hd' k Hkd. assert (d' ≠ d) by congruence.
      assert (scan d' (image_components s1) ≠ []) as Hd1.
      { apply (Hsc d' (image_components s)); [done|]. intros k' <-. cbn. by apply Hput. }
      rewrite (Hk d' Hd1 k Hkd). cbn. apply Hput. congruence.
    + intros d' cs' Hin Hne. apply elem_of_cons in Hin as [[= -> ->]|Hin]; [|by apply (Hn d' cs')].
      destruct cs as [|c cs] using rev_ind; [done|]. clear IHcs. 
      assert (is_Some (image_components s1 !! (d, cr_Purl c, cr_Source c))) as [r Hr1].
      { cbn. unfold put_image. rewrite fmap_app, foldl_app. cbn. rewrite lookup_insert_eq. eauto. }
      assert (scan d (image_components s1) ≠ []) as Hd1.
      { intros E. assert (r ∈ scan d (image_components s1)) as Hin by (apply elem_of_scan; eauto). rewrite E in Hin. by apply elem_of_nil in Hin. }
      by apply (Hsc d (image_components s1)); [|apply Hk].
  - destruct (IH s Hw) as (l & b & Hr & Hk & Hn). exists l, b. split_and!; [done|done|]. intros d' cs' Hin Hne.
    apply elem_of_cons in Hin as [[= -> ->]|Hin]; [|by apply (Hn d' cs')]. apply (Hsc d (image_components s)); [by rewrite Es|].
    apply Hk. by rewrite Es.
Qed.

(** ** Reports *)

Section Reports.
Context `{Sha256, Zstd, CycloneDX, Semantic}.
Context (srv : Server) (feed_looks : ∀ feed, inventoryFeed srv = Some feed → looks feed).

(** The documents, the rows and the images as a commit leaves them. *)
Definition committed (ws n : string) (doc : NodeSBOMRecord) (host : list ComponentRecord) (digests : list string)
    (imgs : bucket ImageComponentRecord) (s : Inv) : Inv :=
  s <| sboms ::= <[(ws, n) := doc]> |>
    <| components ::= λ m, <[ws := put_components ws n (host ++ (partitionBySource (scan n (wsChild ws m))).2) (wsChild ws m)]> m |>
    <| image_components := imgs |>
    <| node_images ::= λ m, <[ws := list_to_set (pair n <$> digests) ∪ filter (λ e, e.1 ≠ n) (wsChild ws m)]> m |>.

Lemma commit_run (ws n : string) (rep : InventoryReport) (blob sum : bytes) (comps : list Component) (s : Inv) :
  working s →
  let '(host, bd) := splitInventory (record_of ws n <$> comps) in
  ∃ doc imgs,
    verdict_step (committed ws n doc host bd.*1 imgs s) (run (commitInventory srv ws n rep blob sum comps) s).2 ∧
    sb_ContentHash doc = hex_encode sum ∧ sb_SBOM doc = blob ∧
    (∀ d, scan d (image_components s) ≠ [] → ∀ k, k.1.1 = d → imgs !! k = image_components s !! k) ∧
    (∀ d cs, (d, cs) ∈ bd → cs ≠ [] → scan d imgs ≠ []) ∧
    (inventoryFeed srv = None → (run (commitInventory srv ws n rep blob sum comps) s).1 = Ok 0).
Proof using feed_looks.
  intros Hw. unfold commitInventory. destruct (splitInventory (record_of ws n <$> comps)) as [host bd] eqn:Esp.
  rewrite run_bind. cbn [run read atomic fst snd]. cbv zeta.
  set (collected := if rp_CollectedUnix rep =? 0 then _ else _). set (format := first_of _ _).
  unfold PutNodeSBOM. rewrite inv_update_ok by done. cbn [sb_Format sb_ContentHash sb_CollectedUnix sb_SBOM].
  set (doc := mkSBOM ws n format (hex_encode sum) collected blob).
  unfold externalComponents. rewrite run_bind_ok. unfold ListNodeComponents. rewrite inv_view_ok by done.
  cbn [run mret prog_ret fst snd]. unfold UpsertNodeComponents. rewrite inv_update_ok by done. rewrite run_bind_ok.
  set (s2 := _ <| components ::= _ |>). destruct (storeImageDigests_run bd s2) as (l & imgs & Hr & Hk & Hn); [done|].
  rewrite Hr. cbn [fst snd]. unfold SetNodeImages. rewrite inv_update_ok by done. exists doc, imgs.
  set (s3 := _ <| node_images ::= _ |>). assert (s3 = committed ws n doc host bd.*1 imgs s) as E3 by (by destruct s).
  rewrite <- E3. destruct (inventoryFeed srv) as [feed|] eqn:Ef; [|split_and!; done]. specialize (feed_looks feed eq_refl).
  split_and!; try done. apply verdict_steps, run_acts. apply acts_bind_ok; [by apply MatchStoredNode_verdict|]. intros w.
  apply acts_bind_ok; [by apply rematch_digests_verdict|]. done.
Qed.

Lemma scan_own (s : Inv) (ws n : string) (r : ComponentRecord) :
  tables_indexed s → r ∈ scan n (wsChild ws (components s)) → own ws n r = r ∧ cr_NodeID r = n ∧
    wsChild ws (components s) !! (n, cr_Purl r, cr_Source r) = Some r.
Proof.
  intros Ht Hr. apply elem_of_scan in Hr as (k & Hk & Hp). destruct (Ht ws k r Hk) as [-> Hws]. cbn in Hp.
  split_and!; [by apply own_id|done|by rewrite <- Hp].
Qed.

Lemma split_host (comps : list ComponentRecord) (c : ComponentRecord) :
  c ∈ (splitInventory comps).1 ↔ c ∈ comps ∧ imageDigestFromSource (cr_Source c) = None.
Proof. unfold splitInventory. cbn. rewrite list_elem_of_filter. tauto. Qed.

Lemma partition_in (l : list ComponentRecord) (r : ComponentRecord) :
  r ∈ (partitionBySource l).2 ↔ r ∈ l ∧ isExternalSource (cr_Source r) = true.
Proof. cbn. rewrite list_elem_of_filter. tauto. Qed.

Lemma scan_slots (s : Inv) (ws n : string) : tables_indexed s → NoDup (slot <$> scan n (wsChild ws (components s))).
Proof.
  intros Ht. unfold scan. specialize (Ht ws). set (b := wsChild ws (components s)) in *.
  assert (slot <$> (filter (λ e : string * string * string * ComponentRecord, e.1.1.1 = n) (entries b)).*2 =
          (λ e : string * string * string * ComponentRecord, (e.1.1.2, e.1.2)) <$> filter (λ e : string * string * string * ComponentRecord, e.1.1.1 = n) (entries b)) as ->.
  { rewrite <- list_fmap_compose. apply list_fmap_ext. intros i [k r] Hi. apply list_elem_of_lookup_2, list_elem_of_filter in Hi as [_ Hi].
    apply elem_of_entries, Ht in Hi as [-> _]. done. }
  apply NoDup_fmap_2_strong.
  - intros [k r] [k' r'] H1' H2' [= E1 E2]. apply list_elem_of_filter in H1' as [Hn H1'], H2' as [Hn' H2'].
    apply elem_of_entries in H1', H2'. cbn in *. destruct k as [[a b'] c], k' as [[a' b''] c']. cbn in *. subst. congruence.
  - apply NoDup_filter. unfold entries. rewrite merge_sort_Permutation. apply NoDup_map_to_list.
Qed.

Lemma elem_of_distinct (l seen : list string) (x : string) : x ∈ distinct l seen ↔ x ∈ l ∧ x ∉ seen.
Proof.
  revert seen. induction l as [|y l IH]; intros seen; cbn; [split; [by intros ?%elem_of_nil|by intros [?%elem_of_nil _]]|].
  case_bool_decide as Hy; rewrite ?elem_of_cons, ?IH, ?not_elem_of_cons; clear IH; (destruct (decide (x = y)) as [->|]; [|tauto]); tauto.
Qed.

Lemma split_digests (comps : list ComponentRecord) (d : string) (cs : list ComponentRecord) :
  (d, cs) ∈ (splitInventory comps).2 ↔
    cs = filter (λ c, imageDigestFromSource (cr_Source c) = Some d) comps ∧ ∃ c, c ∈ comps ∧ imageDigestFromSource (cr_Source c) = Some d.
Proof.
  unfold splitInventory. cbn. rewrite list_elem_of_fmap. setoid_rewrite elem_of_distinct. setoid_rewrite list_elem_of_omap. split.
  - intros (x & [= -> ->] & Hx & _). done.
  - intros [-> Hx]. exists d. split_and!; [done|done|apply not_elem_of_nil].
Qed.

(** The rows of a node, replaced. *)
Lemma replaced_rows (ws n : string) (l : list ComponentRecord) (m : gmap string (bucket ComponentRecord)) :
  NoDup (slot <$> l) → (∀ c, c ∈ l → own ws n c = c) →
  let m' := <[ws := put_components ws n l (wsChild ws m)]> m in
  (∀ r, r ∈ scan n (wsChild ws m') ↔ r ∈ l) ∧
  (∀ ws' n' r, (ws', n') ≠ (ws, n) → r ∈ scan n' (wsChild ws' m') ↔ r ∈ scan n' (wsChild ws' m)).
Proof.
  intros Hnd Hown m'. pose proof (λ k r, put_components_lookup ws n l (wsChild ws m) k r Hnd) as Hp. split.
  - intros r. rewrite elem_of_scan. unfold m', wsChild at 1. rewrite lookup_insert_eq. cbn. setoid_rewrite Hp. split.
    + intros (k & [(c & Hc & -> & ->)|[Hk _]] & Hkn); [|done]. by rewrite (Hown c Hc).
    + intros Hr. exists (n, cr_Purl r, cr_Source r). split; [|done]. left. exists r. split_and!; [done|by rewrite Hown|done].
  - intros ws' n' r Hne. rewrite !elem_of_scan. unfold m'. destruct (decide (ws' = ws)) as [->|Hws].
    + unfold wsChild at 1. rewrite lookup_insert_eq. cbn. setoid_rewrite Hp. assert (n' ≠ n) by congruence. split.
      * intros (k & [(c & _ & _ & ->)|[_ Hk]] & Hkn); [by destruct Hne; cbn in Hkn; subst|eauto].
      * intros (k & Hk & <-). exists k. split; [|done]. right. split; [congruence|done].
    + unfold wsChild at 1. by rewrite lookup_insert_ne.
Qed.

(** The rows after a commit of rows of the node that are not from outside. *)
Lemma committed_rows (ws n : string) (doc : NodeSBOMRecord) (digests : list string) (imgs : bucket ImageComponentRecord) (s : Inv)
    (host : list ComponentRecord) :
  tables_indexed s → NoDup (slot <$> host) → Forall (λ c, isExternalSource (cr_Source c) = false ∧ own ws n c = c) host →
  let s' := committed ws n doc host digests imgs s in
  (∀ r, r ∈ scan n (wsChild ws (components s')) ↔ r ∈ scan n (wsChild ws (components s)) ∧ isExternalSource (cr_Source r) = true ∨ r ∈ host) ∧
  (∀ ws' n' r, (ws', n') ≠ (ws, n) → r ∈ scan n' (wsChild ws' (components s')) ↔ r ∈ scan n' (wsChild ws' (components s))).
Proof.
  intros Ht Hh Hx s'. rewrite Forall_forall in Hx.
  assert (NoDup (slot <$> host ++ (partitionBySource (scan n (wsChild ws (components s)))).2)) as Hnd.
  { rewrite fmap_app. apply NoDup_app. split_and!; [done| |apply NoDup_fmap_filter, scan_slots, Ht].
    intros k H1' H2'. apply list_elem_of_fmap in H1' as (c & -> & Hc), H2' as (r & Er & Hr). apply partition_in in Hr as [_ Hr].
    destruct (Hx c Hc) as [Hf _]. unfold slot in Er. congruence. }
  assert (∀ c, c ∈ host ++ (partitionBySource (scan n (wsChild ws (components s)))).2 → own ws n c = c) as Hown.
  { intros c [Hc|Hc]%elem_of_app; [by apply Hx|]. apply partition_in in Hc as [Hc _]. by apply (scan_own s). }
  destruct (replaced_rows ws n _ (components s) Hnd Hown) as [Hr1 Hr2]. split; [|done].
  intros r. etrans; [apply (Hr1 r)|]. rewrite elem_of_app, partition_in. tauto.
Qed.

(** What an agent collects: no key twice, each component of a source of its own. *)
Definition collected_ok (comps : list Component) : Prop :=
  keyed comps ∧ Forall (λ c, Source c ≠ "" ∧ isExternalSource (Source c) = false) comps.

Lemma fill_key (c : Component) : Source c ≠ "" → Purl (fill c) = Purl c ∧ Source (fill c) = Source c.
Proof. intros Hc. unfold fill. cbn. destruct (Parse (Purl c)); cbn; unfold first_of; by rewrite bool_decide_eq_false_2. Qed.

Definition used_of (comps : list Component) : list Component := fill <$> filter usable (sortedComponents comps).

Lemma used_in (comps : list Component) (d : Component) : d ∈ used_of comps ↔ ∃ c, c ∈ comps ∧ usable c ∧ d = fill c.
Proof.
  unfold used_of. rewrite list_elem_of_fmap. setoid_rewrite list_elem_of_filter. setoid_rewrite sorted_Permutation. naive_solver.
Qed.

Lemma used_slots (ws n : string) (comps : list Component) :
  collected_ok comps → NoDup (slot <$> (record_of ws n <$> used_of comps)).
Proof.
  intros [Hk Hs]. apply sorted_keyed in Hk. unfold used_of, keyed in *. rewrite <- !list_fmap_compose.
  assert (∀ c, c ∈ sortedComponents comps → Source c ≠ "") as Hs'.
  { intros c. rewrite sorted_Permutation. intros Hc. rewrite Forall_forall in Hs. by apply Hs. }
  revert Hk Hs'. generalize (sortedComponents comps). intros l Hk Hs'.
  erewrite list_fmap_ext; [apply (NoDup_fmap_filter componentKey usable), Hk|].
  intros i c Hi. apply list_elem_of_lookup_2, list_elem_of_filter in Hi as [_ Hi].
  unfold compose, slot, componentKey, record_of. cbn [cr_Purl cr_Source]. by destruct (fill_key c (Hs' c Hi)) as [-> ->].
Qed.

(** The document of a whole report is taken apart again. *)
Lemma full_report `{BOMLaw} (now : Z) (comps : list Component) (m m' : inventoryModule) (rep : InventoryReport)
    (zstd_roundtrip : ∀ d b, Compress d = Some b → Decompress b = Some d) (ws n : string) (s : Inv) :
  reportOnce now (Some comps) m = (Some rep, m') → rp_Full rep = true →
  rp_Sbom rep ≠ [] → Z.of_nat (length (rp_Sbom rep)) ≤ maxInventoryBytes →
  ingestInventoryReport srv ws n rep = commitInventory srv ws n rep (rp_Sbom rep) (lastHash m') (used_of comps).
Proof.
  unfold reportOnce. destruct (Encode nodeRef comps) as [doc|] eqn:Ee; [|done].
  destruct (_ && _ && _); [done|]. destruct (negb (wired m)); [done|]. destruct (Diff (lastSet m) comps) as [added removed].
  destruct (_ || _); [|by intros [= <- <-]]. destruct (Compress doc) as [blob|] eqn:Ec; [|done]. intros [= <- <-] _ Hne Hlen.
  cbn in *. unfold ingestInventoryReport, ingestFullInventory. cbn [rp_Full rp_Sbom orb].
  destruct blob as [|x blob]; [done|]. cbn [length Nat.eqb]. rewrite (proj2 (Z.ltb_ge _ _)) by done.
  rewrite (zstd_roundtrip _ _ Ec). unfold hash_matches. cbn [rp_ContentHash]. rewrite (bool_decide_eq_true_2 (hex_encode _ = _)) by done.
  rewrite orb_true_r. cbn [negb]. by rewrite (Extract_Encode _ _ _ Ee).
Qed.

(** The rows of the host and the images of what was collected. *)
Lemma used_split (ws n : string) (comps : list Component) :
  collected_ok comps →
  let '(host, bd) := splitInventory (record_of ws n <$> used_of comps) in
  (∀ r, r ∈ host ↔ ∃ c, c ∈ comps ∧ usable c ∧ imageDigestFromSource (Source c) = None ∧ r = record_of ws n (fill c)) ∧
  (∀ d, d ∈ bd.*1 ↔ ∃ c, c ∈ comps ∧ usable c ∧ imageDigestFromSource (Source c) = Some d) ∧
  NoDup (slot <$> host) ∧ Forall (λ c, isExternalSource (cr_Source c) = false ∧ own ws n c = c) host.
Proof.
  intros Hc. pose proof (used_slots ws n comps Hc) as Hnd. destruct Hc as [_ Hs]. rewrite Forall_forall in Hs.
  destruct (splitInventory (record_of ws n <$> used_of comps)) as [host bd] eqn:Esp.
  assert (∀ r, r ∈ record_of ws n <$> used_of comps ↔ ∃ c, c ∈ comps ∧ usable c ∧ r = record_of ws n (fill c)) as Hin.
  { intros r. rewrite list_elem_of_fmap. setoid_rewrite used_in. naive_solver. }
  assert (∀ c, c ∈ comps → cr_Source (record_of ws n (fill c)) = Source c) as Hsrc.
  { intros c Hc. cbn [record_of cr_Source]. by apply fill_key, Hs. }
  assert (∀ r, r ∈ host ↔ ∃ c, c ∈ comps ∧ usable c ∧ imageDigestFromSource (Source c) = None ∧ r = record_of ws n (fill c)) as Hh.
  { intros r. pose proof (split_host (record_of ws n <$> used_of comps) r) as Hsp. rewrite Esp in Hsp. cbn [fst] in Hsp.
    rewrite Hsp, Hin. split.
    - intros [(c & Hc & Hu & ->) Hd]. rewrite Hsrc in Hd by done. eauto.
    - intros (c & Hc & Hu & Hd & ->). rewrite Hsrc by done. eauto. }
  split_and!; [done| | |].
  - intros d. rewrite list_elem_of_fmap. split.
    + intros ([d' cs] & -> & Hd). assert ((d', cs) ∈ (splitInventory (record_of ws n <$> used_of comps)).2) as (_ & r & Hr & Hrd)%split_digests
        by (by rewrite Esp). apply Hin in Hr as (c & Hc & Hu & ->). rewrite Hsrc in Hrd by done. eauto.
    + intros (c & Hc & Hu & Hd). eexists (d, _). split; [done|]. replace bd with (splitInventory (record_of ws n <$> used_of comps)).2 by (by rewrite Esp).
      apply split_digests. split; [reflexivity|]. exists (record_of ws n (fill c)). split; [apply Hin; eauto|by rewrite Hsrc].
  - unfold splitInventory in Esp. injection Esp as <- _. by apply NoDup_fmap_filter.
  - apply Forall_forall. intros r Hr. apply Hh in Hr as (c & Hc & _ & _ & ->). rewrite Hsrc by done. split; [by apply Hs|done].
Qed.

(** [functional] A whole report of an agent, of a set without duplicates and of the agent's own sources, leaves in the
    index of the node exactly the components the controller can use that belong to no image, with their missing fields
    filled in, beside the untouched rows of an outside scanner; the node runs exactly the images named, each of which has
    components stored; the document is stored under the hash the agent remembers; the rows of other nodes do not change. *)
Theorem report_indexed `{BOMLaw} (now : Z) (comps : list Component) (m m' : inventoryModule) (rep : InventoryReport)
    (ws n : string) (s : Inv) :
  (∀ d b, Compress d = Some b → Decompress b = Some d) → tables_indexed s → working s → collected_ok comps →
  reportOnce now (Some comps) m = (Some rep, m') → rp_Full rep = true → rp_Sbom rep ≠ [] →
  Z.of_nat (length (rp_Sbom rep)) ≤ maxInventoryBytes →
  let s' := (run (ingestInventoryReport srv ws n rep) s).2 in
  (∀ r, r ∈ scan n (wsChild ws (components s')) ↔
     r ∈ scan n (wsChild ws (components s)) ∧ isExternalSource (cr_Source r) = true ∨
     ∃ c, c ∈ comps ∧ usable c ∧ imageDigestFromSource (Source c) = None ∧ r = record_of ws n (fill c)) ∧
  (∀ d, (n, d) ∈ wsChild ws (node_images s') ↔ ∃ c, c ∈ comps ∧ usable c ∧ imageDigestFromSource (Source c) = Some d) ∧
  (∀ d, (n, d) ∈ wsChild ws (node_images s') → scan d (image_components s') ≠ []) ∧
  (∃ doc, sboms s' !! (ws, n) = Some doc ∧ sb_ContentHash doc = hex_encode (lastHash m') ∧ sb_SBOM doc = rp_Sbom rep) ∧
  (∀ ws' n' r, (ws', n') ≠ (ws, n) → r ∈ scan n' (wsChild ws' (components s')) ↔ r ∈ scan n' (wsChild ws' (components s))).
Proof using feed_looks.
  intros Hz Ht Hw Hc Hrep Hf Hne Hlen s'. pose proof (full_report now comps m m' rep Hz ws n s Hrep Hf Hne Hlen) as E.
  pose proof (commit_run ws n rep (rp_Sbom rep) (lastHash m') (used_of comps) s Hw) as Hr. rewrite <- E in Hr. fold s' in Hr.
  destruct (splitInventory (record_of ws n <$> used_of comps)) as [host bd] eqn:Esp.
  destruct Hr as (doc & imgs & (a & b & Es') & Ed1 & Ed2 & Him & Hst & _).
  pose proof (used_split ws n comps Hc) as Hu. rewrite Esp in Hu. destruct Hu as (Hh & Hd & Hnd & Hown).
  destruct (committed_rows ws n doc bd.*1 imgs s host Ht Hnd Hown) as [Hr1 Hr2]. rewrite Es'. cbn [set_field eta eta_inv components] in *.
  assert (∀ d, (n, d) ∈ wsChild ws (node_images s') ↔ d ∈ bd.*1) as Hni.
  { intros d. rewrite Es'. cbn. unfold wsChild at 1. rewrite lookup_insert_eq. cbn. rewrite elem_of_union, elem_of_list_to_set, elem_of_filter.
    rewrite list_elem_of_fmap. cbn. split; [|intros Hin; left; by exists d]. intros [(x & [= ->] & ?)|[? _]]; done. }
  rewrite Es' in Hni. split_and!.
  - intros r. by rewrite Hr1, Hh.
  - intros d. by rewrite Hni, Hd.
  - intros d Hin. apply Hni in Hin. apply list_elem_of_fmap in Hin as ([d' cs] & -> & Hin). apply (Hst d' cs Hin).
    pose proof Hin as Hin'. assert ((d', cs) ∈ (splitInventory (record_of ws n <$> used_of comps)).2) as (-> & c & Hcin & Hcd)%split_digests by (by rewrite Esp).
    intros E0. assert (c ∈ filter (λ c, imageDigestFromSource (cr_Source c) = Some d') (record_of ws n <$> used_of comps)) as Hx by (by apply list_elem_of_filter).
    rewrite E0 in Hx. by apply elem_of_nil in Hx.
  - exists doc. split_and!; [|done|done]. cbn. by rewrite lookup_insert_eq.
  - done.
Qed.

(** [error] The report of a difference is refused for every node whose id is not the fixed name the agents put into their
    documents, whatever the controller holds, and changes nothing; the agent takes it for delivered and sends nothing
    until its set changes again. *)
Theorem delta_refused `{BOMLaw} (now : Z) (comps : list Component) (m m' : inventoryModule) (rep : InventoryReport)
    (ws n : string) (s : Inv) :
  (∀ a b, sha256 a = sha256 b → a = b) → (∀ a, sha256 a ≠ []) → n ≠ nodeRef →
  reportOnce now (Some comps) m = (Some rep, m') → rp_Full rep = false →
  (∃ e, run (ingestInventoryReport srv ws n rep) s = (Err e, s)) ∧ ∀ now', reportOnce now' (Some comps) m' = (None, m').
Proof using Type.
  intros Hinj Hne Hn. unfold reportOnce at 1. destruct (Encode nodeRef comps) as [doc|] eqn:Ee; [|done].
  destruct (_ && _ && _); [done|]. destruct (negb (wired m)) eqn:Ew; [done|]. destruct (Diff (lastSet m) comps) as [added removed].
  destruct (_ || _); [destruct (Compress doc); [by intros [= <- <-]|done]|]. intros [= <- <-] _. split.
  - unfold ingestInventoryReport, ingestInventoryDelta. cbn [rp_Full rp_Sbom length orb Nat.ltb Nat.leb rp_BaseHash].
    destruct (_ =? _)%nat; [by eexists|]. rewrite run_bind_ok. unfold GetNodeSBOM, read, atomic. cbn [run fst snd].
    destruct (failing_reads s) eqn:Ef; [by eexists|]. destruct (sboms s !! (ws, n)) as [prior|]; [|by eexists].
    destruct (_ || _); [by eexists|]. rewrite run_bind_ok. unfold ListNodeComponents, view, read, atomic. cbn [run fst snd]. rewrite Ef.
    cbv zeta. destruct (Encode n _) as [doc'|] eqn:Ee'; [|by eexists]. unfold hash_matches. cbn [rp_ContentHash].
    rewrite bool_decide_eq_false_2; [destruct (sha256 doc) eqn:E0; [by destruct (Hne doc)|by eexists]|].
    intros E. apply (f_equal hex_decode) in E. rewrite !hex_decode_encode in E. injection E as E%Hinj. subst doc'.
    apply Hn. eapply bom_subject; [exact Ee'|exact Ee].
  - intros now'. unfold reportOnce. rewrite Ee. cbn. by rewrite bool_decide_eq_true_2.
Qed.

(** Whatever became of a report, the agent does not send the same set again. *)
Lemma sent_once (now now' : Z) (comps : list Component) (m m' : inventoryModule) (rep : InventoryReport) :
  reportOnce now (Some comps) m = (Some rep, m') → reportOnce now' (Some comps) m' = (None, m').
Proof using Type.
  unfold reportOnce. destruct (Encode nodeRef comps) as [doc|]; [|done]. destruct (_ && _ && _); [done|].
  destruct (negb (wired m)); [done|]. destruct (Diff (lastSet m) comps) as [added removed].
  destruct (_ || _); [destruct (Compress doc); [|done]|]; intros [= _ <-]; cbn; by rewrite bool_decide_eq_true_2.
Qed.

(** A difference for a node without a document is an error, not a request for a whole one. *)
Lemma no_base_no_request (ws n : string) (rep : InventoryReport) (s : Inv) :
  working s → rp_Full rep = false → rp_Sbom rep = [] → rp_BaseHash rep ≠ [] → sboms s !! (ws, n) = None →
  run (ingestInventoryReport srv ws n rep) s = (Err ErrNotFound, s).
Proof using Type.
  intros [Hr _] Hf Hs Hb Hn. unfold ingestInventoryReport, ingestInventoryDelta. rewrite Hf, Hs. cbn [length orb Nat.ltb Nat.leb].
  destruct (rp_BaseHash rep); [done|]. cbn [length Nat.eqb]. rewrite run_bind_ok. unfold GetNodeSBOM, read, atomic. cbn [run fst snd].
  by rewrite Hr, Hn.
Qed.

(** ** Uploads *)

Lemma stamped_in (ws n source : string) (comps : list Component) (seen : list string) :
  NoDup (slot <$> stamped ws n source comps seen) ∧
  (∀ r, r ∈ stamped ws n source comps seen →
     own ws n r = r ∧ cr_Source r = source ∧ cr_Purl r ∉ seen ∧ ∃ c, c ∈ comps ∧ cr_Purl r = Purl c ∧ Purl c ≠ "") ∧
  (∀ c, c ∈ comps → Purl c ≠ "" → Purl c ∉ seen → ∃ r, r ∈ stamped ws n source comps seen ∧ cr_Purl r = Purl c).
Proof.
  revert seen. induction comps as [|c comps IH]; intros seen; cbn [stamped].
  { split_and!; [constructor|by intros r ?%elem_of_nil|by intros c ?%elem_of_nil]. }
  destruct (bool_decide (Purl c = "") || bool_decide (Purl c ∈ seen)) eqn:Ec.
  - destruct (IH seen) as (H1' & H2' & H3'). split_and!; [done| |].
    + intros r Hr. destruct (H2' r Hr) as (? & ? & ? & d & ? & ?). split_and!; [done..|]. exists d. split; [by right|done].
    + intros d [->|Hd]%elem_of_cons Hne Hs; [|by apply H3']. apply orb_true_iff in Ec as [Ec|Ec]; by apply bool_decide_eq_true in Ec.
  - apply orb_false_iff in Ec as [Ec1 Ec2]. apply bool_decide_eq_false in Ec1, Ec2. destruct (IH (Purl c :: seen)) as (H1' & H2' & H3'). split_and!.
    + cbn. apply NoDup_cons. split; [|done]. intros Hin. apply list_elem_of_fmap in Hin as (r & Er & Hr).
      destruct (H2' r Hr) as (_ & _ & Hp & _). apply Hp. injection Er as -> _. left.
    + intros r [->|Hr]%elem_of_cons; [split_and!; [done..|]; exists c; split; [left|done]|].
      destruct (H2' r Hr) as (? & ? & Hp & d & ? & ?). split_and!; [done|done|by intros ?; apply Hp; right|]. exists d. split; [by right|done].
    + intros d [->|Hd]%elem_of_cons Hne Hs; [eexists; split; [left|done]|]. destruct (decide (Purl d = Purl c)) as [->|Hdc]; [eexists; split; [left|done]|].
      destruct (H3' d Hd Hne) as (r & Hr & Er); [by intros [?|?]%elem_of_cons|]. exists r. split; [by right|done].
Qed.

Lemma tag_external (q : string) : isExternalSource (externalSourceTag q) = true.
Proof.
  unfold externalSourceTag. case_bool_decide; [done|]. unfold isExternalSource. apply orb_true_iff. right.
  by cbn.
Qed.

(** [functional] An upload replaces what outside scanners reported of the node, and nothing else: the rows of the agent
    stay as they were, and each package named by the upload has one row under the tag of the tool. *)
Theorem upload_indexed (ws n q : string) (comps : list Component) (s : Inv) :
  tables_indexed s → working s →
  let source := externalSourceTag q in
  let s' := (run (ingestExternalSBOM srv ws n source comps) s).2 in
  (∀ r, isExternalSource (cr_Source r) = false →
     r ∈ scan n (wsChild ws (components s')) ↔ r ∈ scan n (wsChild ws (components s))) ∧
  (∀ p, (∃ r, r ∈ scan n (wsChild ws (components s')) ∧ isExternalSource (cr_Source r) = true ∧ cr_Purl r = p) ↔
        p ≠ "" ∧ ∃ c, c ∈ comps ∧ Purl c = p) ∧
  (∀ r r', r ∈ scan n (wsChild ws (components s')) → r' ∈ scan n (wsChild ws (components s')) →
     isExternalSource (cr_Source r) = true → isExternalSource (cr_Source r') = true → cr_Purl r = cr_Purl r' → r = r').
Proof using feed_looks.
  intros Ht Hw source s'. pose proof (tag_external q) as Htag. fold source in Htag. destruct (stamped_in ws n source comps []) as (Hs1 & Hs2 & Hs3).
  set (l := (partitionBySource (scan n (wsChild ws (components s)))).1 ++ stamped ws n source comps []).
  assert (∀ r, r ∈ scan n (wsChild ws (components s')) ↔ r ∈ l) as Hrows.
  { unfold s', ingestExternalSBOM, ListNodeComponents. rewrite inv_view_ok by done. cbv zeta. unfold UpsertNodeComponents.
    rewrite inv_update_ok by done. fold l. set (s1 := s <| components ::= _ |>).
    assert (components (run (match inventoryFeed srv with None => mret (Ok 0) | Some feed => RematchNode srv feed ws n end) s1).2 = components s1) as ->.
    { destruct (inventoryFeed srv) as [feed|] eqn:Ef; [|done].
      assert (verdict_step s1 (run (RematchNode srv feed ws n) s1).2) as (a & b & ->); [|done].
      by apply verdict_steps, run_acts, MatchStoredNode_verdict, feed_looks. }
    cbn. apply replaced_rows.
    - unfold l. rewrite fmap_app. apply NoDup_app. split_and!; [apply NoDup_fmap_filter, scan_slots, Ht| |done].
      intros k H1' H2'. apply list_elem_of_fmap in H1' as (c & -> & Hc), H2' as (r & Er & Hr). cbn in Hc. apply list_elem_of_filter in Hc as [Hc _].
      destruct (Hs2 r Hr) as (_ & Er2 & _). injection Er as _ Er. rewrite Er, Er2, Htag in Hc. done.
    - intros c [Hc|Hc]%elem_of_app; [|by apply Hs2]. cbn in Hc. apply list_elem_of_filter in Hc as [_ Hc]. by apply (scan_own s). }
  setoid_rewrite Hrows. unfold l. setoid_rewrite elem_of_app. cbn [partitionBySource fst]. setoid_rewrite list_elem_of_filter. split_and!.
  - intros r Hr. split; [intros [[_ ?]|Hin]; [done|]|tauto]. destruct (Hs2 r Hin) as (_ & Er & _). by rewrite Er, Htag in Hr.
  - intros p. split.
    + intros (r & [[Hf _]|Hr] & Hx & <-); [congruence|]. destruct (Hs2 r Hr) as (_ & _ & _ & c & Hc & -> & Hne). eauto.
    + intros (Hne & c & Hc & <-). destruct (Hs3 c Hc Hne) as (r & Hr & Er); [apply not_elem_of_nil|]. exists r.
      split_and!; [by right| |done]. destruct (Hs2 r Hr) as (_ & -> & _). done.
  - intros r r' [[Hf _]|Hr] [[Hf' _]|Hr'] Hx Hx' Ep; try congruence.
    apply list_elem_of_lookup in Hr as [i Hi], Hr' as [j Hj]. assert (i = j) as ->; [|congruence].
    eapply (NoDup_lookup _ i j (slot r) Hs1); rewrite list_lookup_fmap; [by rewrite Hi|]. rewrite Hj. cbn. f_equal. unfold slot.
    apply list_elem_of_lookup_2 in Hi, Hj. destruct (Hs2 r Hi) as (_ & -> & _), (Hs2 r' Hj) as (_ & -> & _). by rewrite Ep.
Qed.

End Reports.

(** ** The tables stay in order *)

Lemma put_indexed (ws n : string) (l : list ComponentRecord) (b : bucket ComponentRecord) :
  indexed ws b → indexed ws (put_components ws n l b).
Proof.
  intros Hb. unfold put_components. assert (indexed ws (deletePrefix n b)) as Hd.
  { intros k r. rewrite deletePrefix_lookup. case_decide; [done|]. apply Hb. }
  revert Hd. generalize (deletePrefix n b). induction l as [|c l IH]; intros b' Hb'; cbn; [done|]. apply IH.
  by apply map_Forall_insert_2.
Qed.

Definition orderly (s s' : Inv) : Prop := tables_indexed s → tables_indexed s'.
#[export] Instance orderly_refl : Reflexive orderly.
Proof. intros s Hs. exact Hs. Qed.

Lemma orderly_eq (s s' : Inv) : components s' = components s → orderly s s'.
Proof. unfold orderly, tables_indexed. by intros ->. Qed.

Lemma update_orderly (f : Inv → Inv) : (∀ s, components (f s) = components s) → acts orderly (update f).
Proof. intros Hf. apply acts_update; [apply _|]. intros s. by apply orderly_eq. Qed.

Lemma upsert_orderly (ws n : string) (l : list ComponentRecord) : acts orderly (UpsertNodeComponents ws n l).
Proof.
  apply acts_update; [apply _|]. intros s Ht ws'. cbn. destruct (decide (ws' = ws)) as [->|Hne].
  - unfold wsChild at 1. rewrite lookup_insert_eq. cbn. apply put_indexed, Ht.
  - unfold wsChild at 1. rewrite lookup_insert_ne by done. apply Ht.
Qed.

Section Orderly.
Context `{Sha256, Zstd, CycloneDX, Semantic}.
Context (srv : Server) (feed_looks : ∀ feed, inventoryFeed srv = Some feed → looks feed).

Lemma verdict_orderly {A : Type} (p : prog Inv A) : acts verdict_step p → acts orderly p.
Proof. apply acts_mono. intros s s' (a & b & ->). by apply orderly_eq. Qed.

Lemma storeImageDigests_orderly (bd : list (string * list ComponentRecord)) : acts orderly (storeImageDigests bd).
Proof.
  induction bd as [|[d cs] bd IH]; cbn [storeImageDigests]; [done|]. apply acts_bind_ok; [apply acts_view, _|]. intros []; [done|].
  apply acts_bind_ok; [by apply update_orderly|]. intros _. by apply acts_bind_ok.
Qed.

(** Any interleaving of reports and uploads keeps the rows under their keys. *)
Lemma report_orderly (ws n : string) (rep : InventoryReport) : acts orderly (ingestInventoryReport srv ws n rep).
Proof using feed_looks.
  assert (∀ blob sum comps, acts orderly (commitInventory srv ws n rep blob sum comps)) as Hc.
  { intros blob sum comps. unfold commitInventory. apply acts_bind; [apply acts_read, _|]. intros t.
    apply acts_bind_ok; [by apply update_orderly|]. intros _. destruct (splitInventory _) as [host bd].
    apply acts_bind_ok; [apply acts_bind_ok; [apply acts_view, _|done]|]. intros ext.
    apply acts_bind_ok; [apply upsert_orderly|]. intros _. apply acts_bind_ok; [apply storeImageDigests_orderly|]. intros new.
    apply acts_bind_ok; [by apply update_orderly|]. intros _. destruct (inventoryFeed srv) as [feed|] eqn:Ef; [|done].
    apply acts_bind_ok; [by apply verdict_orderly, MatchStoredNode_verdict, feed_looks|]. intros w.
    apply acts_bind_ok; [by apply verdict_orderly, rematch_digests_verdict, feed_looks|]. done. }
  unfold ingestInventoryReport, ingestFullInventory, ingestInventoryDelta. destruct (_ || _).
  - destruct (_ =? _)%nat; [done|]. destruct (_ <? _); [done|]. destruct (Decompress _); [|done]. destruct (negb _); [done|].
    by destruct (Extract _).
  - destruct (_ =? _)%nat; [done|]. apply acts_bind_ok; [apply acts_read, _|]. intros prior. destruct (_ || _); [done|].
    apply acts_bind_ok; [apply acts_view, _|]. intros comps. destruct (Encode _ _); [|done]. destruct (negb _); [done|].
    by destruct (Compress _).
Qed.

Lemma upload_orderly (ws n source : string) (comps : list Component) : acts orderly (ingestExternalSBOM srv ws n source comps).
Proof using feed_looks.
  apply acts_bind_ok; [apply acts_view, _|]. intros prior. apply acts_bind_ok; [apply upsert_orderly|]. intros _.
  destruct (inventoryFeed srv) as [feed|] eqn:Ef; [|done]. by apply verdict_orderly, MatchStoredNode_verdict, feed_looks.
Qed.
End Orderly.

(** ** A node at work *)

Module Depot.
Import Codec.

#[export] Instance sha : Sha256 := λ b, x01 :: b.
#[export] Instance zip : Zstd := {| Compress b := Some (x02 :: b); Decompress b := match b with _ :: b => Some b | [] => None end |}.
#[export] Instance order : Semantic := Verdicts.Sample.by_character.

(** Components without parts, as bytes. *)
Definition flat (c : cdxComponent) : option (string * (string * (string * list (string * string)))) :=
  match c with mkCdx n v p props [] => Some (n, (v, (p, props))) | _ => None end.
Definition unflat (x : string * (string * (string * list (string * string)))) : cdxComponent :=
  let '(n, (v, (p, props))) := x in mkCdx n v p props [].

#[export] Instance bom : CycloneDX := {|
  EncodeBOM n cs := (λ l, put (n, l)) <$> mapM flat cs;
  DecodeBOM d := match get (A := string * list (string * (string * (string * list (string * string))))) d with
                 | Some ((_, l), _) => Some (unflat <$> l)
                 | None => None
                 end;
  SpecVersion _ := Some "1.6";
  SetSpecVersion _ _ := None |}.

Lemma unflat_flat (cs : list cdxComponent) (l : list (string * (string * (string * list (string * string))))) :
  mapM flat cs = Some l → unflat <$> l = cs.
Proof.
  intros Hm%mapM_Some. induction Hm as [|c x cs l Hc _ IH]; [done|]. cbn. rewrite IH. f_equal.
  destruct c as [n v p props [|]]; [|done]. by injection Hc as <-.
Qed.

#[export] Instance bom_law : BOMLaw.
Proof.
  split; cbn [EncodeBOM DecodeBOM SpecVersion bom].
  - intros n cs doc Hd. destruct (mapM flat cs) as [l|] eqn:El; [|done].
    change (Some (put (n, l)) = Some doc) in Hd. apply Some_inj in Hd as <-. rewrite <- (app_nil_r (put (n, l))), get_put. f_equal. by apply unflat_flat.
  - intros n n' cs cs' doc Hd Hd'. destruct (mapM flat cs) as [l|]; [|done]. destruct (mapM flat cs') as [l'|]; [|done].
    change (Some (put (n, l)) = Some doc) in Hd. change (Some (put (n', l')) = Some doc) in Hd'.
    assert (put (n, l) = put (n', l')) as E by congruence. pose proof (get_put (n, l) []) as G.
    pose proof (get_put (n', l') []) as G'. rewrite E in G. congruence.
  - intros n cs doc _. exists "1.6". split; [done|]. apply contains_spec. done.
Qed.

Definition pkg (purl name version source : string) : Component := mkComponent purl name version "Debian:12" "debian:12" source "" "".
Definition libssl (v : string) : Component := pkg (String.append "pkg:deb/debian/libssl3@" v) "libssl3" v "os".
Definition bash : Component := pkg "pkg:deb/debian/bash@5" "bash" "5" "os".
Definition layer : Component := pkg "pkg:deb/debian/zlib@1" "zlib" "1" "image:web@sha256:ab".

Definition scanned : ComponentRecord := mkCR "ws" "n1" "pkg:npm/left-pad@1" "external:trivy" "npm" "left-pad" "1" "" "".
Definition other : ComponentRecord := mkCR "ws" "n2" "pkg:deb/debian/bash@5" "os" "Debian:12" "bash" "5" "" "".

Definition empty : Inv := mkInv ∅ ∅ ∅ ∅ ∅ ∅ ∅ ∅ ["ws"] (mkQueue 0 []) None "" 0 None (100 * second) false false false [].
Definition start : Inv :=
  empty <| components := {[ "ws" := list_to_map ((λ r, ((cr_NodeID r, cr_Purl r, cr_Source r), r)) <$> [scanned; other]) ]} |>.
Definition quiet : Server := mkServer None None None (λ _, Some []).

Definition fresh : inventoryModule := mkModule [] false [] true true.
Definition set1 : list Component := [libssl "3"; bash; layer].
Definition set2 : list Component := [libssl "4"; bash; layer].
Definition sent1 : option InventoryReport * inventoryModule := reportOnce (100 * second) (Some set1) fresh.
Definition sent2 : option InventoryReport * inventoryModule := reportOnce (200 * second) (Some set2) sent1.2.

Lemma start_indexed : tables_indexed start.
Proof.
  intros ws. destruct (decide (ws = "ws")) as [->|Hne].
  - change (wsChild "ws" (components start)) with
      (list_to_map ((λ r, ((cr_NodeID r, cr_Purl r, cr_Source r), r)) <$> [scanned; other]) : bucket ComponentRecord).
    by repeat (apply map_Forall_insert_2; [done|]).
  - unfold wsChild. replace (components start !! ws) with (None : option (bucket ComponentRecord)); [done|].
    symmetry. by apply lookup_singleton_ne.
Qed.

Definition no_report : InventoryReport := mkReport false [] "" [] 0 [] [] [].
Definition rep1 : InventoryReport := default no_report sent1.1.
Definition rep2 : InventoryReport := default no_report sent2.1.
Definition after1 : Inv := (run (ingestInventoryReport quiet "ws" "n1" rep1) start).2.

Lemma quiet_looks (feed : AdvisoryLookup Inv) : inventoryFeed quiet = Some feed → looks feed.
Proof. done. Qed.

Lemma set1_ok : collected_ok set1.
Proof. split; [apply (bool_decide_unpack (NoDup (componentKey <$> set1))); vm_compute; exact I|]. repeat constructor; done. Qed.

Lemma report_indexed_witness :
  scan "n1" (wsChild "ws" (components after1)) = [record_of "ws" "n1" bash; record_of "ws" "n1" (libssl "3"); scanned] ∧
  ∀ r, r ∈ scan "n1" (wsChild "ws" (components after1)) ↔
    r ∈ scan "n1" (wsChild "ws" (components start)) ∧ isExternalSource (cr_Source r) = true ∨
    ∃ c, c ∈ set1 ∧ usable c ∧ imageDigestFromSource (Source c) = None ∧ r = record_of "ws" "n1" (fill c).
Proof.
  split; [vm_compute; reflexivity|].
  apply (report_indexed quiet quiet_looks (100 * second) set1 fresh sent1.2 rep1 "ws" "n1" start).
  - by intros d b [= <-].
  - apply start_indexed.
  - done.
  - apply set1_ok.
  - vm_compute. reflexivity.
  - vm_compute. reflexivity.
  - by vm_compute.
  - apply Z.leb_le. vm_compute. reflexivity.
Defined.

(** One package changed: the controller holds the first set, and refuses the difference. *)
Lemma delta_refused_witness :
  rp_Full rep2 = false ∧ rp_BaseHash rep2 = lastHash sent1.2 ∧
  (∃ e, run (ingestInventoryReport quiet "ws" "n1" rep2) after1 = (Err e, after1)) ∧
  ∀ now', reportOnce now' (Some set2) sent2.2 = (None, sent2.2).
Proof.
  split; [vm_compute; reflexivity|]. split; [vm_compute; reflexivity|].
  apply (delta_refused quiet (200 * second) set2 sent1.2 sent2.2 rep2 "ws" "n1" after1).
  - by intros a b [= ->].
  - done.
  - done.
  - vm_compute. reflexivity.
  - vm_compute. reflexivity.
Defined.

Lemma upload_indexed_witness :
  let s' := (run (ingestExternalSBOM quiet "ws" "n1" (externalSourceTag "grype") [pkg "pkg:npm/lodash@4" "lodash" "4" ""]) after1).2 in
  ∀ r, isExternalSource (cr_Source r) = false →
    r ∈ scan "n1" (wsChild "ws" (components s')) ↔ r ∈ scan "n1" (wsChild "ws" (components after1)).
Proof.
  apply (upload_indexed quiet quiet_looks "ws" "n1" "grype" [pkg "pkg:npm/lodash@4" "lodash" "4" ""] after1).
  - assert (orderly start after1) as Ho; [|by apply Ho, start_indexed].
    assert (rtc orderly start after1) as Hr by exact (run_acts orderly _ start (report_orderly quiet quiet_looks "ws" "n1" rep1)).
    induction Hr as [|? ? ? H1' _ IH]; [done|]. intros Ht. by apply IH, H1'.
  - done.
Defined.

(** *** Defects *)

(** A report and an upload at the same time: the rows of the upload are gone. *)
Lemma upload_overwritten :
  let upload := (ingestExternalSBOM quiet "ws" "n1" "external:grype" [pkg "pkg:npm/lodash@4" "lodash" "4" ""] ≫= λ _, mret tt) in
  let report := (ingestInventoryReport quiet "ws" "n1" rep1 ≫= λ _, mret tt) in
  let c := schedule [0; 0; 0; 1; 1; 0; 0; 0; 0; 0; 0]%nat ([report; upload], start) in
  c.1 = [mret tt; mret tt] ∧ Forall (λ r, cr_Source r ≠ "external:grype") (scan "n1" (wsChild "ws" (components c.2))).
Proof. cbv zeta. split; [vm_compute; reflexivity|]. apply (bool_decide_unpack _). vm_compute. exact I. Qed.

(** Two workers of the queue take two reports of a node: the older set is what stays. *)
Definition rep3 : InventoryReport := default no_report (reportOnce (200 * second) (Some [libssl "4"]) fresh).1.

Lemma older_report_stays :
  let worker rep := (ingestInventoryReport quiet "ws" "n1" rep ≫= λ _, mret tt) in
  let c := schedule ([0] ++ replicate 12 1 ++ replicate 12 0)%nat ([worker rep1; worker rep3], empty) in
  c.1 = [mret tt; mret tt] ∧ scan "n1" (wsChild "ws" (components c.2)) = [record_of "ws" "n1" bash; record_of "ws" "n1" (libssl "3")].
Proof. cbv zeta. split; vm_compute; reflexivity. Qed.

(** The name of the source package is dropped when the rows are read back, so the documents differ. *)
Lemma source_name_dropped (r : ComponentRecord) : SourceName <$> componentsFromRecords [r] = [""].
Proof. done. Qed.
End Depot.
