(* ===== verification/Matching.v ===== *)
(** * Advisories and the verdicts of a node (Inventory.v, affected/vulnfeed/osv)

    The advisories of a package as a feed reads them from the store, and what the
    matching of a node leaves: a verdict for exactly the packages of the node that an
    advisory filed under their name and ecosystem applies to. *)
From Stdlib Require Import ZArith Lia Strings.Byte Strings.Ascii.
From stdpp Require Import base gmap sets list sorting strings relations.
From S2P Require Import Prelude Trust Codec Proc Packages Affected Verdicts Inventory Stock.
Local Open Scope Z_scope.

(** ** The index *)

(** The index has the keys of the records, and the records are under their ids. *)
Definition filed (s : gmap string AdvisoryRecord * gset (string * string * string)) : Prop :=
  (∀ id r, s.1 !! id = Some r → ad_ID r = id) ∧
  ∀ k, k ∈ s.2 ↔ ∃ r, s.1 !! k.2 = Some r ∧ k ∈ idx_of r.

Lemma idx_of_spec (r : AdvisoryRecord) (k : string * string * string) :
  k ∈ idx_of r ↔ ad_Ecosystem r ≠ "" ∧ ad_PackageName r ≠ "" ∧ k = (EcosystemKey (ad_Ecosystem r), ad_PackageName r, ad_ID r).
Proof.
  unfold idx_of, advisoryIdxKey. repeat case_bool_decide; cbn; [set_solver..|]. rewrite elem_of_singleton. tauto.
Qed.

Lemma put_filed (s : gmap string AdvisoryRecord * gset (string * string * string)) (r : AdvisoryRecord) :
  filed s → filed (put_advisory s r).
Proof.
  intros [Hid Hidx]. unfold put_advisory. split; cbn.
  - intros id r' [[<- <-]|[_ Hr]]%lookup_insert_Some; [done|by apply Hid].
  - intros k. rewrite elem_of_union. destruct (decide (k.2 = ad_ID r)) as [E|Hne].
    + rewrite E, lookup_insert_eq. split.
      * intros [Hk|Hk]; [by exists r|]. exfalso. destruct (s.1 !! ad_ID r) as [old|] eqn:Eo.
        -- apply elem_of_difference in Hk as [Hk Hn]. apply Hidx in Hk as (x & Hx & Hk). rewrite E, Eo in Hx. by injection Hx as ->.
        -- apply Hidx in Hk as (x & Hx & _). by rewrite E, Eo in Hx.
      * intros (x & [= <-] & Hk). by left.
    + rewrite lookup_insert_ne by done. assert (k ∉ idx_of r) as Hn by (rewrite idx_of_spec; intros (_ & _ & ->); done).
      destruct (s.1 !! ad_ID r) as [old|] eqn:Eo; [|rewrite Hidx; tauto]. rewrite elem_of_difference, Hidx.
      assert (k ∉ idx_of old); [|tauto]. rewrite idx_of_spec. intros (_ & _ & ->). apply Hne. cbn. by apply Hid.
Qed.

Definition in_files (s : Inv) : Prop := filed (advisories s, advisory_idx s).

Lemma PutAdvisories_files (recs : list AdvisoryRecord) : acts (λ s s', in_files s → in_files s') (PutAdvisories recs).
Proof.
  apply acts_atomic. intros s. destruct (failing_writes s); [done|]. cbn. intros Hs.
  assert (filed (foldl put_advisory (advisories s, advisory_idx s) recs)) as Hf.
  { revert Hs. unfold in_files. generalize (advisories s, advisory_idx s). induction recs as [|r recs IH]; intros p Hp; cbn; [done|].
    by apply IH, put_filed. }
  by destruct (foldl _ _ _) as [a idx].
Qed.

(** The records a lookup finds: those of the name and of an ecosystem with the same key. *)
Definition filed_under (eco name : string) (r : AdvisoryRecord) : Prop :=
  ad_Ecosystem r ≠ "" ∧ ad_PackageName r = name ∧ name ≠ "" ∧ EcosystemKey (ad_Ecosystem r) = EcosystemKey eco.

Lemma AdvisoriesForPackage_exact (eco name : string) (s : Inv) :
  in_files s → failing_reads s = false →
  ∃ l, run (AdvisoriesForPackage eco name) s = (Ok l, s) ∧
    ∀ r, r ∈ l ↔ advisories s !! ad_ID r = Some r ∧ filed_under eco name r.
Proof.
  intros [Hid Hidx] Hr. unfold AdvisoriesForPackage, view, read, atomic. cbn [run]. rewrite Hr. eexists. split; [reflexivity|].
  intros r. rewrite list_elem_of_omap. setoid_rewrite merge_sort_Permutation. setoid_rewrite list_elem_of_fmap.
  setoid_rewrite list_elem_of_filter. setoid_rewrite elem_of_elements. split.
  - intros (id & (k & -> & Hk & Hin) & Hl). apply Hidx in Hin as (x & Hx & Hin). cbn in Hx. rewrite Hl in Hx. injection Hx as <-.
    apply idx_of_spec in Hin as (He & Hn & ->). cbn in *. injection Hk as H1' H2'. subst name. done.
  - intros (Hl & He & Hn & Hne & Ek). exists (ad_ID r). split; [|done]. exists (EcosystemKey eco, name, ad_ID r). split_and!; [done|done|].
    apply Hidx. exists r. split; [done|]. apply idx_of_spec. subst name. by rewrite Ek.
Qed.

(** ** The feed (osv/osv.go, osv/parse.go) *)

Section Feed.
Context `{JSONDecode Vulnerability}.

Definition zero_vulnerability : Vulnerability := mkVulnerability "" [] 0 [] "" [].

Definition parseVulnerability (doc : bytes) : option Vulnerability :=
  if (length doc =? 0)%nat then Some zero_vulnerability
  else match Unmarshal doc with
       | Some v => Some (mkVulnerability (v_ID v) (Aliases v) (Modified v) (v_Affected v) (v_Severity v) doc)
       | None => None
       end.

Definition id_le (a b : Vulnerability) : Prop := String.le (v_ID a) (v_ID b).
#[export] Instance id_le_dec : RelDecision id_le := λ a b, decide (String.le (v_ID a) (v_ID b)).

Definition advisoriesFromStore : AdvisoryLookup Inv := λ ecosystem name,
  rows ← AdvisoriesForPackage ecosystem name;
  mret (match rows with
        | Err _ => None
        | Ok rows => merge_sort id_le <$> mapM (λ r, parseVulnerability (ad_Doc r)) rows
        end).

Lemma store_looks : looks advisoriesFromStore.
Proof. intros eco n. apply acts_bind; [|done]. apply acts_atomic. done. Qed.

End Feed.

(** ** What a feed that only reads answers *)

Lemma looks_run (feed : AdvisoryLookup Inv) (eco n : string) (s : Inv) : looks feed → (run (feed eco n) s).2 = s.
Proof.
  intros Hf. pose proof (run_acts _ _ s (Hf eco n)) as Hr. induction Hr as [|s s1 s2 -> _ IH]; [done|]. exact IH.
Qed.

Lemma first_ids_in (l : list Vulnerability) (seen : list string) (v : Vulnerability) :
  (∀ a b, a ∈ l → b ∈ l → v_ID a = v_ID b → a = b) →
  v ∈ first_ids l seen ↔ v ∈ l ∧ v_ID v ∉ seen.
Proof.
  revert seen. induction l as [|x l IH]; intros seen Hu; cbn; [split; [by intros ?%elem_of_nil|by intros [?%elem_of_nil _]]|].
  assert (∀ seen, v ∈ first_ids l seen ↔ v ∈ l ∧ v_ID v ∉ seen) as IH'.
  { intros seen'. apply IH. intros a b Ha Hb. by apply Hu; right. }
  clear IH. case_bool_decide as Hx.
  - rewrite IH', elem_of_cons. split; [tauto|]. intros [[->|?] ?]; [done|tauto].
  - rewrite !elem_of_cons, IH', not_elem_of_cons. split; [intros [->|?]; tauto|]. intros [[->|Hv] Hs]; [by left|].
    destruct (decide (v_ID v = v_ID x)) as [E|]; [left|tauto]. apply Hu; [by right|by left|done].
Qed.

Section Answers.
Context `{Semantic}.

(** The advisories found for a component. *)
Lemma lookups_run (feed : AdvisoryLookup Inv) (eco : string) (ns : list string) (s : Inv) :
  looks feed →
  run (lookups feed eco ns) s = (match mapM (λ n, (run (feed eco n) s).1) ns with Some l => Some (concat l) | None => None end, s).
Proof.
  intros Hf. induction ns as [|n ns IH]; [done|]. cbn [lookups mapM]. rewrite run_bind, looks_run by done.
  destruct (run (feed eco n) s).1 as [l|]; [|done]. cbn [mbind option_bind]. rewrite run_bind, IH. cbn. by destruct (mapM _ ns).
Qed.

Definition found_in (feed : AdvisoryLookup Inv) (s : Inv) (c : Target) (v : Vulnerability) : Prop :=
  ∃ n l, n ∈ lookupNames c ∧ (run (feed (t_Ecosystem c) n) s).1 = Some l ∧ v ∈ l.

Lemma found_run (feed : AdvisoryLookup Inv) (c : Target) (s : Inv) :
  looks feed → (run (found feed c) s).2 = s ∧
  ∀ l, (run (found feed c) s).1 = Some l → (∀ a b, found_in feed s c a → found_in feed s c b → v_ID a = v_ID b → a = b) →
    (∀ v, v ∈ l ↔ found_in feed s c v) ∧ ∀ n, n ∈ lookupNames c → is_Some (run (feed (t_Ecosystem c) n) s).1.
Proof.
  intros Hf. unfold found. rewrite run_bind, lookups_run by done. cbn [fst snd run mret prog_ret]. split; [done|].
  intros l. destruct (mapM _ _) as [ls|] eqn:El; [|done]. intros [= <-] Hu. split.
  2: { intros n (i & Hi)%list_elem_of_lookup. apply mapM_Some in El. destruct (Forall2_lookup_l _ _ _ _ _ El Hi) as (x & _ & ->). eauto. }
  intros v. assert (∀ v, v ∈ concat ls ↔ found_in feed s c v) as Hin.
  { intros w. unfold found_in. apply mapM_Some in El. clear Hu. induction El as [|n x ns ls Hn _ IH]; cbn.
    - split; [by intros ?%elem_of_nil|]. by intros (n & _ & ?%elem_of_nil & _).
    - rewrite elem_of_app, IH. setoid_rewrite elem_of_cons. split.
      + intros [Hw|(n' & l & Hn' & Hl & Hw)]; [exists n, x; auto|exists n', l; auto].
      + intros (n' & l & [->|Hn'] & Hl & Hw); [left; congruence|]. right. eauto. }
  rewrite first_ids_in, Hin; [split; [by intros [? _]|]; intros; split; [done|apply not_elem_of_nil]|].
  intros a b Ha%Hin Hb%Hin. by apply Hu.
Qed.

Lemma MatchNode_run (feed : AdvisoryLookup Inv) (e : Engine) (cs : list Target) (s : Inv) :
  looks feed → (∀ c a b, c ∈ cs → found_in feed s c a → found_in feed s c b → v_ID a = v_ID b → a = b) →
  (run (MatchNode e feed cs) s).2 = s ∧
  ∀ ms, (run (MatchNode e feed cs) s).1 = Some ms →
    (∀ m, m ∈ ms ↔ ∃ c v, c ∈ cs ∧ found_in feed s c v ∧ matchOne e c v = Some m) ∧
    ∀ c n, c ∈ cs → n ∈ lookupNames c → is_Some (run (feed (t_Ecosystem c) n) s).1.
Proof.
  intros Hf. induction cs as [|c cs IH]; intros Hu.
  { split; [done|]. intros ms [= <-]. split; [|by intros c n ?%elem_of_nil]. intros m. split; [by intros ?%elem_of_nil|]. by intros (c & v & ?%elem_of_nil & _). }
  cbn [MatchNode]. destruct (found_run feed c s Hf) as [Es Hl]. destruct IH as [Es2 IH]; [intros c' a b Hc'; apply Hu; by right|].
  rewrite run_bind, Es. destruct (run (found feed c) s).1 as [advs|]; [|done].
  destruct (Hl advs eq_refl (λ a b, Hu c a b (list_elem_of_here _ _))) as [Hv' Hok]. clear Hl. rename Hv' into Hl. rewrite run_bind, Es2. split; [done|]. cbn [run fst mret prog_ret].
  destruct (run (MatchNode e feed cs) s).1 as [r|]; [|done]. destruct (IH r eq_refl) as [IHm IHok].
  intros ms [= <-]. split; [|by intros c' n [->|?]%elem_of_cons; [apply Hok|apply IHok]].
  intros m. rewrite elem_of_app, list_elem_of_omap, IHm.
  setoid_rewrite elem_of_cons. split.
  - intros [(v & Hv & Em)|(c' & v & Hc' & ?)]; [exists c, v; rewrite Hl in Hv; auto|exists c', v; auto].
  - intros (c' & v & [->|Hc'] & Hv & Em); [left; exists v; by rewrite Hl|]. right. eauto.
Qed.
End Answers.

(** ** The verdicts of a node *)

Definition cve_key (mt : Match) : string * string * string := (t_NodeID (m_Component mt), m_CVE mt, t_Purl (m_Component mt)).

(** The row is what a match says. *)
Definition says (mt : Match) (r : NodeCVERecord) : Prop :=
  (nc_NodeID r, nc_CVE r, nc_Purl r) = cve_key mt ∧ nc_Status r = m_Status mt ∧ nc_FixedVersion r = m_FixedVersion mt ∧
  nc_Severity r = m_Severity mt ∧ nc_VEXJustification r = m_VEXJustification mt.

Lemma cleared_lookup (ws n : string) (m : gmap string (bucket NodeCVERecord)) :
  let m' := match m !! ws with Some b => <[ws := deletePrefix n b]> m | None => m end in
  (∀ ws' x, (ws', x.1.1) ≠ (ws, n) → wsChild ws' m' !! x = wsChild ws' m !! x) ∧ ∀ x, x.1.1 = n → wsChild ws m' !! x = None.
Proof.
  cbv zeta. destruct (m !! ws) as [b|] eqn:Eb; [|split; [done|]; intros x _; unfold wsChild; by rewrite Eb]. split.
  - intros ws' x Hne. unfold wsChild. destruct (decide (ws' = ws)) as [->|]; [|by rewrite lookup_insert_ne].
    rewrite lookup_insert_eq, Eb. cbn. rewrite deletePrefix_lookup, decide_False; [done|congruence].
  - intros x Hx. unfold wsChild. rewrite lookup_insert_eq. cbn. by rewrite deletePrefix_lookup, decide_True.
Qed.

Lemma persist_run (srv : Server) (ws : string) (mt : Match) (s : Inv) :
  working s → ∃ r, says mt r ∧ run (persist srv ws mt) s = (Ok tt, s <| node_cve ::= λ m, <[ws := <[cve_key mt := r]> (wsChild ws m)]> m |>).
Proof.
  intros Hw. unfold persist. rewrite run_bind. cbn [run read atomic fst snd]. unfold UpsertNodeCVE. rewrite inv_run_update by done.
  eexists. split; [|reflexivity]. done.
Qed.

Lemma persist_all_run (srv : Server) (ws : string) (ms : list Match) (k : Z) (s : Inv) :
  working s →
  ∃ m, run (persist_all (persist srv ws) ms k) s = (Ok (k + Z.of_nat (length ms)), s <| node_cve := m |>) ∧
    (∀ ws', ws' ≠ ws → m !! ws' = node_cve s !! ws') ∧
    (∀ x, x ∉ cve_key <$> ms → wsChild ws m !! x = wsChild ws (node_cve s) !! x) ∧
    (∀ x, x ∈ cve_key <$> ms → ∃ r mt, wsChild ws m !! x = Some r ∧ mt ∈ ms ∧ cve_key mt = x ∧ says mt r).
Proof.
  revert k s. induction ms as [|mt ms IH]; intros k s Hw.
  { exists (node_cve s). cbn. rewrite Z.add_0_r. split_and!; [by destruct s|done|done|]. by intros x ?%elem_of_nil. }
  cbn [persist_all]. destruct (persist_run srv ws mt s Hw) as (r & Hr & Er). rewrite run_bind_ok, Er. cbn [fst snd].
  set (s1 := s <| node_cve ::= _ |>). destruct (IH (k + 1) s1) as (m & Em & H1' & H2' & H3'); [done|]. exists m. rewrite Em. split_and!.
  - replace (k + 1 + Z.of_nat (length ms)) with (k + Z.of_nat (length (mt :: ms))) by (cbn; lia). by destruct s.
  - intros ws' Hne. rewrite H1' by done. cbn. by rewrite lookup_insert_ne.
  - intros x Hx. cbn in Hx. apply not_elem_of_cons in Hx as [Hx1 Hx2]. rewrite H2' by done. cbn. unfold wsChild at 1.
    rewrite lookup_insert_eq. cbn. by rewrite lookup_insert_ne.
  - intros x Hx. destruct (decide (x ∈ cve_key <$> ms)) as [Hin|Hn].
    + destruct (H3' x Hin) as (r' & mt' & ? & ? & ? & ?). exists r', mt'. split_and!; [done|by right|done|done].
    + cbn in Hx. apply elem_of_cons in Hx as [->|?]; [|done]. exists r, mt. split_and!; [|by left|done|done].
      rewrite H2' by done. cbn. unfold wsChild at 1. rewrite lookup_insert_eq. cbn. by rewrite lookup_insert_eq.
Qed.

Section Recorded.
Context `{Semantic, JSONDecode Vulnerability}.

(** A stored advisory filed under a name of the component and its ecosystem. *)
Definition relevant (s : Inv) (c : Target) (v : Vulnerability) : Prop :=
  ∃ rec name, advisories s !! ad_ID rec = Some rec ∧ name ∈ lookupNames c ∧ filed_under (t_Ecosystem c) name rec ∧
    parseVulnerability (ad_Doc rec) = Some v.

(** Two stored documents with one id are the same. *)
Definition ids_unique (s : Inv) : Prop :=
  ∀ r r' v v', advisories s !! ad_ID r = Some r → advisories s !! ad_ID r' = Some r' →
    parseVulnerability (ad_Doc r) = Some v → parseVulnerability (ad_Doc r') = Some v' → v_ID v = v_ID v' → v = v'.

Lemma store_answers (eco name : string) (s : Inv) (l : list Vulnerability) :
  in_files s → failing_reads s = false → (run (advisoriesFromStore eco name) s).1 = Some l →
  ∀ v, v ∈ l ↔ ∃ rec, advisories s !! ad_ID rec = Some rec ∧ filed_under eco name rec ∧ parseVulnerability (ad_Doc rec) = Some v.
Proof.
  intros Hi Hr. unfold advisoriesFromStore. rewrite run_bind. destruct (AdvisoriesForPackage_exact eco name s Hi Hr) as (rs & -> & Hrs).
  cbn [fst run mret prog_ret]. destruct (mapM _ rs) as [vs|] eqn:Em; [|done]. intros [= <-] v. rewrite merge_sort_Permutation.
  apply mapM_Some in Em. split.
  - intros (i & Hi')%list_elem_of_lookup. destruct (Forall2_lookup_r _ _ _ _ _ Em Hi') as (rec & Hrec & Hp).
    apply list_elem_of_lookup_2, Hrs in Hrec as [? ?]. eauto.
  - intros (rec & Hst & Hfi & Hp). assert (rec ∈ rs) as (i & Hi')%list_elem_of_lookup by (by apply Hrs).
    destruct (Forall2_lookup_l _ _ _ _ _ Em Hi') as (w & Hw & Hpw). rewrite Hp in Hpw. injection Hpw as <-. by eapply list_elem_of_lookup_2.
Qed.

Lemma found_relevant (s : Inv) :
  in_files s → failing_reads s = false →
  ∀ c v, (found_in advisoriesFromStore s c v → relevant s c v) ∧
    ((∀ n, n ∈ lookupNames c → is_Some (run (advisoriesFromStore (t_Ecosystem c) n) s).1) → relevant s c v → found_in advisoriesFromStore s c v).
Proof.
  intros Hi Hr c v. split.
  - intros (n & l & Hn & Hl & Hv). apply (store_answers _ _ _ _ Hi Hr Hl) in Hv as (rec & ? & ? & ?). by exists rec, n.
  - intros Hok (rec & n & ? & Hn & ? & ?). destruct (Hok n Hn) as [l Hl]. exists n, l. split_and!; [done|done|].
    apply (store_answers _ _ _ _ Hi Hr Hl). eauto.
Qed.

Lemma matchOne_component (e : Engine) (c : Target) (v : Vulnerability) (m : Match) : matchOne e c v = Some m → m_Component m = c.
Proof.
  unfold matchOne. destruct (selectAffected c v); [done|]. cbv zeta.
  generalize (foldl (fold_entry c) (mkVerdict StatusNotAffected "" "" false) (a :: l)). intros w.
  set (st := if decide _ then _ else _). clearbody st. destruct st, (VEX e) as [vex|]; try (by intros [= <-]).
  destruct (vex _ _ _); by intros [= <-].
Qed.

(** [functional] Matching a node against the stored advisories leaves a verdict for exactly the vulnerabilities of its
    packages that a relevant advisory names: an advisory filed under the package's own or its source's name, in an
    ecosystem with the same key, and applying to it; each verdict says what one of these advisories says of the
    package; the verdicts of other nodes and workspaces stay. *)
Theorem verdicts_recorded (srv : Server) (ws n : string) (s s' : Inv) (k : Z) :
  in_files s → tables_indexed s → working s → ids_unique s →
  run (MatchStoredNode srv advisoriesFromStore ws n) s = (Ok k, s') →
  let eng := mkEngine ws (inventoryVEX srv) in
  (∀ cve purl, is_Some (wsChild ws (node_cve s') !! (n, cve, purl)) ↔
     ∃ r v m, r ∈ scan n (wsChild ws (components s)) ∧ relevant s (componentFromRecord r) v ∧
       matchOne eng (componentFromRecord r) v = Some m ∧ cve_key m = (n, cve, purl)) ∧
  (∀ cve purl row, wsChild ws (node_cve s') !! (n, cve, purl) = Some row →
     ∃ r v m, r ∈ scan n (wsChild ws (components s)) ∧ relevant s (componentFromRecord r) v ∧
       matchOne eng (componentFromRecord r) v = Some m ∧ cve_key m = (n, cve, purl) ∧ says m row) ∧
  (∀ ws' n' cve purl, (ws', n') ≠ (ws, n) → wsChild ws' (node_cve s') !! (n', cve, purl) = wsChild ws' (node_cve s) !! (n', cve, purl)).
Proof.
  intros Hi Ht Hw Hu Hrun eng. set (cs := componentFromRecord <$> scan n (wsChild ws (components s))).
  pose proof (found_relevant s Hi (proj1 Hw)) as Hfr.
  destruct (MatchNode_run advisoriesFromStore eng cs s store_looks) as [Es Hms].
  { intros c a b _ Ha Hb. apply Hfr in Ha as (r & ? & ? & _ & _ & ?), Hb as (r' & ? & ? & _ & _ & ?). by eapply (Hu r r'). }
  unfold MatchStoredNode, ListNodeComponents in Hrun. rewrite inv_view_ok in Hrun by done. fold cs in Hrun. fold eng in Hrun.
  rewrite run_bind_ok, run_bind, Es in Hrun. destruct (run (MatchNode eng advisoriesFromStore cs) s).1 as [ms|]; [|done].
  destruct (Hms ms eq_refl) as [Hmm Hok]. clear Hms. rename Hmm into Hms. cbn [of_feed run mret prog_ret fst snd] in Hrun. unfold ClearNodeCVEs in Hrun. rewrite inv_update_ok in Hrun by done.
  set (s1 := s <| node_cve ::= _ |>) in Hrun. destruct (persist_all_run srv ws ms 0 s1) as (m' & Er & H1' & H2' & H3'); [done|].
  rewrite Er in Hrun. injection Hrun as _ <-.
  assert (∀ ws' x, (ws', x.1.1) ≠ (ws, n) → wsChild ws' (node_cve s1) !! x = wsChild ws' (node_cve s) !! x) as Hcl.
  { intros ws' x Hne. apply (cleared_lookup ws n). done. }
  assert (∀ x, x.1.1 = n → wsChild ws (node_cve s1) !! x = None) as Hno by (intros x; apply (cleared_lookup ws n)).
  assert (∀ x, x ∈ cve_key <$> ms ↔ x.1.1 = n ∧ ∃ r v m, r ∈ scan n (wsChild ws (components s)) ∧ relevant s (componentFromRecord r) v ∧
             matchOne eng (componentFromRecord r) v = Some m ∧ cve_key m = x) as Hk.
  { intros x. rewrite list_elem_of_fmap. split.
    - intros (m & -> & Hm). apply Hms in Hm as (c & v & Hc & Hv & Em). unfold cs in Hc. apply list_elem_of_fmap in Hc as (r & -> & Hr).
      split; [|exists r, v, m; split_and!; [done|by apply Hfr|done|done]]. unfold cve_key. rewrite (matchOne_component _ _ _ _ Em). cbn. by apply (scan_own s ws n r).
    - intros (_ & r & v & m & Hr & Hv & Em & Ek). exists m. split; [done|]. apply Hms. exists (componentFromRecord r), v.
      assert (componentFromRecord r ∈ cs) by (apply list_elem_of_fmap; eauto). split_and!; [done| |done].
      apply Hfr; [intros x' ?; by apply Hok|done]. }
  cbn [node_cve set_field eta eta_inv]. split_and!.
  - intros cve purl. split.
    + intros [row Hrow]. apply Hk. destruct (decide ((n, cve, purl) ∈ cve_key <$> ms)); [done|]. cbn in Hrow.
      rewrite H2', Hno in Hrow by done. done.
    + intros Hex. destruct (H3' (n, cve, purl)) as (row & mt & -> & _); [by apply Hk|]. eauto.
  - intros cve purl row Hrow. cbn in Hrow. destruct (decide ((n, cve, purl) ∈ cve_key <$> ms)) as [Hin|]; [|by rewrite H2', Hno in Hrow by done].
    destruct (H3' _ Hin) as (row' & mt & Er' & Hmt & Ekm & Hs). rewrite Hrow in Er'. injection Er' as <-.
    apply Hms in Hmt as (c & v & Hc & Hv & Em). apply list_elem_of_fmap in Hc as (r & -> & Hr).
    exists r, v, mt. split_and!; [done|by apply Hfr|done|done|done].
  - intros ws' n' cve purl Hne. rewrite <- (Hcl ws' (n', cve, purl)) by done. cbn. destruct (decide (ws' = ws)) as [->|Hws].
    + apply H2'. intros Hin. apply Hk in Hin as [E _]. cbn in E. congruence.
    + unfold wsChild. by rewrite H1'.
Qed.
End Recorded.

(** ** A node with two advisories *)

Module Ledger.
Import Verdicts.Sample Depot.

Definition vuln (id : string) (fix_ : string) : Vulnerability :=
  mkVulnerability id ["CVE-2024-1"] 0 [entry [event_in "0"; event_fix fix_]] "HIGH" [].

(** Two documents, by their only byte. *)
#[export] Instance two : JSONDecode Vulnerability := λ b,
  match b with [x01] => Some (vuln "DSA-1" "9") | [x02] => Some (vuln "DSA-2" "2") | _ => None end.

Definition filed1 : AdvisoryRecord := mkAdvisory "DSA-1/Debian:12/openssl" "osv" "Debian:12" "openssl" [x01] 10.
Definition filed2 : AdvisoryRecord := mkAdvisory "DSA-2/Debian:12/openssl" "osv" "Debian:12" "openssl" [x02] 10.
Definition libssl3 : ComponentRecord := mkCR "ws" "n1" "pkg:deb/debian/libssl3@5" "os" "Debian:12" "libssl3" "5" "openssl" "debian:12".

Definition with_advisories (recs : list AdvisoryRecord) : Inv :=
  (run (PutAdvisories recs) (run (UpsertNodeComponents "ws" "n1" [libssl3]) empty).2).2.

Definition matched (recs : list AdvisoryRecord) : result inv_err Z * Inv :=
  run (MatchStoredNode quiet advisoriesFromStore "ws" "n1") (with_advisories recs).

Lemma empty_orderly : tables_indexed (with_advisories [filed1]) ∧ in_files (with_advisories [filed1]).
Proof.
  split.
  - intros ws. change (components (with_advisories [filed1])) with (components (run (UpsertNodeComponents "ws" "n1" [libssl3]) empty).2).
    assert (rtc orderly empty (run (UpsertNodeComponents "ws" "n1" [libssl3]) empty).2) as Hr by apply run_acts, upsert_orderly.
    assert (tables_indexed empty) as He by (intros ws' k r Hk; done).
    revert ws. change (tables_indexed (run (UpsertNodeComponents "ws" "n1" [libssl3]) empty).2).
    induction Hr as [|? ? ? H1' _ IH]; [done|]. by apply IH, H1'.
  - assert (in_files (run (UpsertNodeComponents "ws" "n1" [libssl3]) empty).2) as He.
    { split; [by intros id r Hr|]. intros k. cbn. split; [by intros ?%elem_of_empty|]. by intros (r & ? & _). }
    revert He. unfold with_advisories. generalize (run (UpsertNodeComponents "ws" "n1" [libssl3]) empty).2. intros s Hs.
    pose proof (run_acts _ _ s (PutAdvisories_files [filed1])) as Hr. by induction Hr as [|? ? ? H1' _ IH]; [|apply IH, H1'].
Qed.

Lemma verdicts_recorded_witness :
  (∃ row, wsChild "ws" (node_cve (matched [filed1]).2) !! ("n1", "CVE-2024-1", "pkg:deb/debian/libssl3@5") = Some row ∧
     nc_Status row = StatusAffected ∧ nc_FixedVersion row = "9") ∧
  ∀ ws' n' cve purl, (ws', n') ≠ ("ws", "n1") →
    wsChild ws' (node_cve (matched [filed1]).2) !! (n', cve, purl) = wsChild ws' (node_cve (with_advisories [filed1])) !! (n', cve, purl).
Proof.
  split; [eexists; split; [vm_compute; reflexivity|done]|].
  apply (verdicts_recorded quiet "ws" "n1" (with_advisories [filed1]) (matched [filed1]).2 1).
  - apply empty_orderly.
  - apply empty_orderly.
  - done.
  - intros r r' v v' Hr Hr' Hv Hv' _. assert (∀ x, advisories (with_advisories [filed1]) !! ad_ID x = Some x → ad_Doc x = [x01]) as Hd.
    { intros x Hx. change (advisories (with_advisories [filed1])) with ({[ad_ID filed1 := filed1]} : gmap string AdvisoryRecord) in Hx.
      by apply lookup_singleton_Some in Hx as [_ <-]. }
    rewrite (Hd r Hr) in Hv. rewrite (Hd r' Hr') in Hv'. congruence.
  - vm_compute. reflexivity.
Defined.

(** The verdict of a later advisory replaces that of an earlier one: the package is affected, and not shown as such. *)
Lemma affected_overwritten :
  nc_Status <$> wsChild "ws" (node_cve (matched [filed1; filed2]).2) !! ("n1", "CVE-2024-1", "pkg:deb/debian/libssl3@5") = Some StatusFixed ∧
  m_Status <$> matchOne (mkEngine "ws" None) (componentFromRecord libssl3) (vuln "DSA-1" "9") = Some StatusAffected.
Proof. split; vm_compute; reflexivity. Qed.

(** A component without a release: advisories of every release apply, none is found. *)
Lemma release_hides :
  EcosystemApplies "Debian:12" "Debian" = true ∧ EcosystemKey "Debian:12" ≠ EcosystemKey "Debian".
Proof. split; [vm_compute; reflexivity|]. by vm_compute. Qed.
End Ledger.
